(* ===== verification/_CoqProject ===== *)
-Q . S2P
Prelude.v
GoLib.v
Config.v
Errors.v
Rpc.v
JsonText.v
JsonScan.v
Codec.v
Events.v
AuditLog.v
Client.v
Permissioning.v
Tracker.v
Handout.v
MetaTx.v
Reorder.v
UserLock.v
Turn.v
Correlation.v
Gas.v
Service.v
Revert.v
Hub.v
Settle.v
Watcher.v
Sending.v
Wakeup.v
Drain.v
InFlight.v
Sha3.v
Signing.v
Nonces.v
Info.v
Http.v
Router.v
Controller.v
Dashboard.v
Startup.v
Gateway.v
