(* ===== verification/Prelude.v ===== *)
(** * Gas relay signer: verification development

    The service relays metatransactions (metatx) of users through a node that pays the gas: a
    client sends a raw transaction signed with the nonce that the RelayHub contract
    expects; the service decodes it, validates it, makes it wait for its turn if the
    nonces of its user arrive out of order, reserves gas of the block's quota, wraps it
    in a transaction of the node and sends it; and later it learns from the receipt how it
    ended and gives the user's place back. This library models the Go code of
    [src/] and proves what makes each part correct. Names are the code's where Rocq
    allows it.

    ** Parts, files and sources

    Foundations
    - [Prelude] (this file): machine integers as [Z] with their wrap-around, [result]
      for a Go pair with an error and [outcome] for a call that can panic, bytes and
      hexadecimal, list lemmas, the tactics and hint databases.
    - [GoLib]: what is used of [strings], [strconv], [time] and big-endian numbers, and the
      interface [Geth] of the helpers of go-ethereum.
    - [Config]: [model/Config.go], [model/RuntimeConfig.go].
    - [Errors]: [errors/errors.go], the rejections of [service/prepare.go] and the error
      answer of [rpc/json.go].
    - [Events]: the bus, [events/events.go]. [AuditLog]: [audit/structured.go],
      [audit/context.go] and where [audit/log.go] writes. [Client]: [blockchain/client.go].
    - [JsonText], [JsonScan]: JSON as texts, for what follows: strings quoted and read back, the
      scanner of [encoding/json] and the splitting of arrays and objects. [Rpc],
      [Codec]: [rpc/json.go] and [rpc/errors.go], the messages, and how they and the
      arguments of a call are written and read.

    The path of a metatx
    - [MetaTx]: decoding, validation and [PrepareMetaTx] ([service/metatx.go],
      [validation.go], [prepare.go]). [Permissioning]: [service/permissioning.go].
    - [Tracker]: chains of nonces in flight and the registry of held metatx
      ([service/tracker.go]): the modules [Chains] and [Held], and the critical
      sections that use both.
    - [Handout]: the queue of nonces handed out ([service/handout.go]), with the module
      [Queue]. [Nonces]: the two doors that ask for a nonce ([service/nonce.go],
      [GetTransactionCount]).
    - [Reorder], [Turn], [UserLock]: the door, the wait and the lock per user of
      [service/reorder.go] and [reorder_turn.go]. [Gas]: the quota of the block.
    - [Service]: [reserveGasAndSend] and [sendPrepared] as one critical section.
      [Sending]: [ReserveGasAndSend] and [sendReordered], every goroutine interleaved.
      [Wakeup], [Drain]: the wake-ups of the held metatx along that machine, and how a line
      of them goes out.
    - [Correlation]: the memory of what was sent ([service/correlation.go]). [Revert],
      [Hub]: how a metatx ended. [Settle]: closing it, and the wait for its receipt
      ([service/settle.go], [relay.go]). [InFlight]: the machine of [Sending] with the
      closings in it, one critical section at a time. [Watcher]: [service/watcher.go] and the loop over the blocks.

    The edges
    - [Sha3], [Signing]: [sha3/sha3.go] and [service/transaction.go].
    - [Http], [Router], [Controller], [Info]: [controller/] and
      [service/info.go], with the bodies as JSON. [Dashboard]: [dashboard/dashboard.go]. [Startup]: [Init],
      [service/httpCall.go] and [version.go]. [Gateway]: [main.go], and the requests
      that the whole service serves.

    ** How the parts meet

    [Controller.World] is what requests share: [Sending.shared] (the state
    [Service.Service] of the service, the locks), the resolved rules and the log. A raw
    transaction enters by [Controller.SignTransaction] or [Controller.Relay], goes
    through [MetaTx.PrepareMetaTx] and [Sending.ReserveGasAndSend], and the second door
    then runs [Settle.waitForReceipt] and [Settle.decodeRelayResult]. The [Tracker] is
    the meeting point: a send reserves on it, a closing releases on it, a hub
    rejection forgets on it, its timers expire on it; [Handout] and [Nonces] read it.
    Log emissions are returned by each operation and published on the bus by
    [AuditLog.emit]; [Dashboard] follows the bus. [Gateway.main] puts the parts together,
    and [Gateway.requests_run_the_machine] ties the requests to [InFlight.life_step], the
    machine of the sends ([Sending.world_step]) with the closings: what the machine keeps, the
    server keeps.

    ** How code becomes definitions

    A pointer with identity (a chain, a held metatx, a ticket, a user's lock) is a
    number into a heap, so aliasing and stale pointers are as in Go. A component used
    by several goroutines has one operation per critical section of its mutex; the
    components where the interleaving matters are step relations over them
    ([Handout.queue_step], [UserLock.lock_step], [Turn.await_step],
    [Sending.world_step], [Settle.service_step], [InFlight.life_step],
    [Watcher.blocks_step], [Events.logged_step], [Dashboard.live_step]). Clocks, networks, timers and the order in which Go walks a
    map are inputs of the step that reads them. A panic is the value [Panics]; an
    unbounded channel wait is [None] or [Waiting].

    Third-party code is an argument: the classes [Geth], [EthLib], [Crypto], [HubLib]
    (go-ethereum), [PkgErrors] (github.com/pkg/errors), [BigLib] (math/big), [GoUnicode],
    [GoFloat], [GoFmt] (the standard library where it is not
    written out), [Json] (how go-ethereum marshals its hashes and receipts, and what decoding makes of a value
    that no type is given for) and [NodeCall] (the HTTP call of start-up), and the record [Client.Node],
    the answers of the network at one moment. Their documented laws are the classes
    [GethLaws], [BigLaws], [PkgErrorsLaws], [AddressText] and [NodeCallLaws]; each has
    an instance, and the witnesses are computed with instances.

    ** What the theorems show

    - The whole: of requests served one after another, by any route, each is a run of the
      machine of the sends and the closings, so nonces stay consecutive and no user has fewer
      in flight than metatx that are not closed ([Gateway]). Several sends at once are
      interleaved in [Sending] and [InFlight], critical section by critical section but
      for the closing of a ticket, which is one step there and several in [Handout].
    - Order of nonces: whatever the interleaving of sends, results, timers and queries,
      the metatx sent on a chain have consecutive nonces ([Sending]), the tracker
      stays well formed and stale results change nothing ([Tracker]), nothing held
      leaks and no lock deadlocks, and what a goroutine answers is what it did
      ([Sending], [UserLock]); who sleeps is woken by whatever makes its turn come
      ([Wakeup]), and a line of held metatx whose head is awake goes out whole when
      the locks are free, the gas suffices and the node answers ([Drain]).
    - Quotas: over the quota, the highest nonces go, at the door and in the wait, until
      it is met ([Reorder]); the wait measures stagnation ([Turn]); the gas of a block
      goes to a prefix of the requests ([Gas]); the count in flight is what was sent
      and not closed ([Settle]), and while senders and closings are half way every place is
      with the memory, with one of them, or lost in one of three ways, all of which the
      code's own conditions exclude but the expiry and the bound of the memory ([InFlight]).
    - Validation and permission: the rule decides, on any data, but for expirations that
      an [int64] does not hold ([MetaTx]), and without an answer of the chain nobody
      passes ([Permissioning]).
    - Results: the readers of the hub's events agree, each metatx is closed once, and
      a pass of the watcher that ends frees what is due ([Hub], [Correlation], [Settle],
      [Watcher]).
    - Handing out nonces: one number at a time; every ticket closes, even when no metatx
      comes; and both doors hand out of one sequence ([Handout], [Nonces]).
    - The doors: both relay the same, [GET /info] and [GET /nonce] never send, every path goes where
      the table says, and other origins get in only by name ([Controller],
      [Router], [Info]).
    - Observation: the bus is bounded, what is replayed and then delivered is the log
      without gap, and an observer of the monitor sees it in order, missing only what
      found a channel full ([Events], [Dashboard]).
    - Encodings: the packing is Solidity's for the arguments that [Sha3.arg_ok] names, the node signs every field, revert reasons, the
      gas-model suffix, and the messages of JSON-RPC alone and in batches are read back, and the
      arguments of a call are positional ([Sha3], [Signing], [Revert], [MetaTx], [Codec]).
    - Starting: the configuration is in range whatever the file says, and the
      service starts with the RelayHub its proxy named or ends with the error of the first
      step that failed ([Config], [Startup]).

    Beside them stand theorems on what the code does at its edges: counters that wrap
    ([Gas.gas_quota_can_be_reset], [MetaTx.gas_limit_wraps], [Sending.last_nonce_wraps]), a revert whose length
    wraps and panics ([Revert.revert_reason_panics_when],
    [Watcher.poisoned_revert_stops_the_watcher]), places that are lost
    ([Watcher.late_watcher_loses_the_place]), a wake-up given to who is about to sleep, which is
    lost too ([Wakeup.woken_too_early]), answers that are not errors
    ([Nonces.failed_count_is_a_result], [Controller.unknown_block_answers_twice]), and
    the values that [Sha3] does not pack as Solidity does.

    ** Bounds and fuel

    The only fuel is that of [Sha3.pack_fuel], the length of the name of the type, since
    each recursion strips an array suffix from it; that of the printer of
    hexadecimal numbers in [GoLib], which is more than their binary digits; and in
    [JsonText], [JsonScan] and [Codec] the length of a text for what takes a byte of it at least each
    time (runes, escapes, members, elements). The loop of [Codec.parse_batch] takes no byte of a text that is no
    array: there it does not end in the code either ([Codec.unchecked_batch_does_not_end]). [Settle.poll], [Sending.run_send] and
    [Handout] consume a list of readings: running out of it is still waiting, never a
    result; [Sending.run_alone] and [Drain.solo] take a number of steps, and nineteen are
    all those from the sleep to the answer. Machine integers wrap by [u64] and [i64] where the code's do.

    ** Not modelled

    - [blockchain/contracts/]: generated bindings of the contracts; the methods called
      are operations of [Client.Node].
    - Of [main.go], reading the file and listening, and the loggers of [audit/log.go]: input
      and output.
    - The reverse proxy to a private node ([httputil]), an argument of [Controller].
    - Of [net/http], the requests that are served at the same time ([Gateway.serve_all] is one
      after another), the escaping of paths and the page that a redirection carries.
    - The lines of the old text log ([GeneralLogger]), which no code reads.
    - [docs/] (examples of clients), the Solidity libraries and the page of the monitor. *)

From stdpp Require Export gmap strings list fin_maps pretty.
From Stdlib Require Export ZArith Lia Ascii Wf_nat.

(** ** Scope, notations and tactics of the development *)

Declare Scope relay_scope.
Delimit Scope relay_scope with relay.
Open Scope relay_scope.
Open Scope Z_scope.

(** Case analysis on every [match]/[if] in sight, closing the absurd branches. *)
Ltac split_cases :=
  repeat (case_match || case_decide || case_bool_decide); simplify_eq.

(** Break conjunctions and existentials, then try the usual closers. *)
Ltac crush :=
  intros; destruct_and?; simplify_eq/=; try done; try lia; try naive_solver.

Create HintDb relay discriminated.
Create Rewrite HintDb relay.

(** ** Machine integers *)

(** [uint64] and [int64] of Go, kept as [Z] with the wrap-around written out. *)
Definition u64 (z : Z) : Z := z mod 2 ^ 64.
Definition u32 (z : Z) : Z := z mod 2 ^ 32.
Definition u16 (z : Z) : Z := z mod 2 ^ 16.
Definition u8 (z : Z) : Z := z mod 2 ^ 8.
Definition i64 (z : Z) : Z := (z + 2 ^ 63) mod 2 ^ 64 - 2 ^ 63.

Definition max_u64 : Z := 2 ^ 64 - 1.

Lemma u64_range z : 0 ≤ u64 z < 2 ^ 64.
Proof. unfold u64. apply Z.mod_pos_bound. lia. Qed.

Lemma u64_small z : 0 ≤ z < 2 ^ 64 → u64 z = z.
Proof. intros. unfold u64. apply Z.mod_small. lia. Qed.

Lemma u64_add_l a k : u64 (u64 a + k) = u64 (a + k).
Proof. unfold u64. apply Zplus_mod_idemp_l. Qed.

Lemma i64_range z : - 2 ^ 63 ≤ i64 z < 2 ^ 63.
Proof. unfold i64. pose proof (Z.mod_pos_bound (z + 2 ^ 63) (2 ^ 64)). lia. Qed.

Lemma i64_small z : - 2 ^ 63 ≤ z < 2 ^ 63 → i64 z = z.
Proof. intros. unfold i64. rewrite Z.mod_small; lia. Qed.

Lemma i64_high z : 2 ^ 63 ≤ z < 2 ^ 64 → i64 z = z - 2 ^ 64.
Proof.
  intros. unfold i64.
  replace (z + 2 ^ 63) with ((z - 2 ^ 63) + 1 * 2 ^ 64) by lia.
  rewrite Z.mod_add, Z.mod_small; lia.
Qed.

#[export] Hint Resolve u64_range i64_range : relay.
#[export] Hint Rewrite u64_small i64_small using lia : relay.

(** ** Fallible code

    A Go function that returns [(A, error)] is a [result]; a call that can
    panic is an [outcome], which keeps the panic apart from an ordinary error
    because Go does: an error is handled by the caller, a panic unwinds it. *)

Inductive result (E A : Type) : Type :=
  | Ok (a : A)
  | Err (e : E).
Arguments Ok {E A} a.
Arguments Err {E A} e.

#[export] Instance result_ret {E} : MRet (result E) := λ A a, Ok a.
#[export] Instance result_bind {E} : MBind (result E) :=
  λ A B f r, match r with Ok a => f a | Err e => Err e end.
#[export] Instance result_fmap {E} : FMap (result E) :=
  λ A B f r, match r with Ok a => Ok (f a) | Err e => Err e end.

#[export] Instance result_eq_dec `{EqDecision E} `{EqDecision A} :
  EqDecision (result E A).
Proof. solve_decision. Defined.

Definition is_ok {E A} (r : result E A) : bool :=
  match r with Ok _ => true | Err _ => false end.

Lemma result_bind_ok {E A B} (f : A → result E B) (r : result E A) b :
  (r ≫= f) = Ok b ↔ ∃ a, r = Ok a ∧ f a = Ok b.
Proof. destruct r; naive_solver. Qed.

Inductive outcome (A : Type) : Type :=
  | Returns (a : A)
  | Panics (why : string).
Arguments Returns {A} a.
Arguments Panics {A} why.

#[export] Instance outcome_ret : MRet outcome := λ A a, Returns a.
#[export] Instance outcome_bind : MBind outcome :=
  λ A B f r, match r with Returns a => f a | Panics w => Panics w end.
#[export] Instance outcome_fmap : FMap outcome :=
  λ A B f r, match r with Returns a => Returns (f a) | Panics w => Panics w end.

#[export] Instance outcome_eq_dec `{EqDecision A} : EqDecision (outcome A).
Proof. solve_decision. Defined.

Definition returns {A} (r : outcome A) : bool :=
  match r with Returns _ => true | Panics _ => false end.

Lemma outcome_bind_returns {A B} (f : A → outcome B) (r : outcome A) b :
  (r ≫= f) = Returns b ↔ ∃ a, r = Returns a ∧ f a = Returns b.
Proof. destruct r; naive_solver. Qed.

(** Run a panicking function over a list, left to right. *)
Fixpoint traverse {A B} (f : A → outcome B) (l : list A) : outcome (list B) :=
  match l with
  | [] => Returns []
  | x :: l' => y ← f x; ys ← traverse f l'; Returns (y :: ys)
  end.

Lemma traverse_returns {A B} (f : A → outcome B) l ys :
  traverse f l = Returns ys ↔ Forall2 (λ x y, f x = Returns y) l ys.
Proof.
  revert ys. induction l as [|x l IH]; intros ys; simpl.
  - split; [naive_solver | by inversion 1].
  - rewrite outcome_bind_returns. setoid_rewrite outcome_bind_returns.
    setoid_rewrite IH. split.
    + intros (y & Hy & zs & Hzs & [= <-]). by constructor.
    + inversion 1; subst; eauto 10.
Qed.

(** ** Bytes and strings

    A Go byte slice is a list of integers in [0, 256); a Go string is a
    [string], whose characters are bytes. *)

Abbreviation bytes := (list Z).

Definition byte_ok (b : Z) : Prop := 0 ≤ b < 256.
Definition bytes_ok (bs : bytes) : Prop := Forall byte_ok bs.

#[export] Instance byte_ok_dec b : Decision (byte_ok b).
Proof. unfold byte_ok. apply _. Defined.

Definition byte_of_ascii (c : Ascii.ascii) : Z := Z.of_N (Ascii.N_of_ascii c).
Definition ascii_of_byte (b : Z) : Ascii.ascii := Ascii.ascii_of_N (Z.to_N b).

Lemma string_app_assoc (s t u : string) : (s +:+ t) +:+ u = s +:+ (t +:+ u).
Proof. induction s as [|c s IH]; [done|]. exact (f_equal (String c) IH). Qed.

#[export] Hint Rewrite string_app_assoc : relay.

(** [[]byte(s)] and [string(bs)]. *)
Fixpoint string_bytes (s : string) : bytes :=
  match s with
  | EmptyString => []
  | String c s' => byte_of_ascii c :: string_bytes s'
  end.

Fixpoint bytes_string (bs : bytes) : string :=
  match bs with
  | [] => EmptyString
  | b :: bs' => String (ascii_of_byte b) (bytes_string bs')
  end.

Lemma byte_of_ascii_ok c : byte_ok (byte_of_ascii c).
Proof. unfold byte_ok, byte_of_ascii. pose proof (Ascii.N_ascii_bounded c). lia. Qed.

Lemma ascii_of_byte_of_ascii c : ascii_of_byte (byte_of_ascii c) = c.
Proof.
  unfold ascii_of_byte, byte_of_ascii. rewrite N2Z.id. apply Ascii.ascii_N_embedding.
Qed.

Lemma byte_of_ascii_of_byte b : byte_ok b → byte_of_ascii (ascii_of_byte b) = b.
Proof.
  unfold byte_ok, ascii_of_byte, byte_of_ascii. intros.
  rewrite Ascii.N_ascii_embedding; lia.
Qed.

Lemma string_bytes_ok s : bytes_ok (string_bytes s).
Proof. induction s; constructor; auto using byte_of_ascii_ok. Qed.

Lemma bytes_string_bytes s : bytes_string (string_bytes s) = s.
Proof. induction s; simpl; f_equal; auto using ascii_of_byte_of_ascii. Qed.

Lemma string_bytes_string bs : bytes_ok bs → string_bytes (bytes_string bs) = bs.
Proof. induction 1; simpl; f_equal; auto using byte_of_ascii_of_byte. Qed.

Lemma length_string_bytes s : length (string_bytes s) = String.length s.
Proof. induction s; simpl; auto. Qed.

Lemma string_bytes_app s t : string_bytes (s +:+ t) = string_bytes s ++ string_bytes t.
Proof.
  induction s as [|c s IH]; [done|].
  change (String c s +:+ t) with (String c (s +:+ t)). simpl. by rewrite IH.
Qed.

#[export] Hint Resolve byte_of_ascii_ok string_bytes_ok : relay.
#[export] Hint Rewrite ascii_of_byte_of_ascii bytes_string_bytes : relay.

(** [strings.HasPrefix], [strings.TrimPrefix], [strings.HasSuffix]. *)
Fixpoint has_prefix (p s : string) : bool :=
  match p, s with
  | EmptyString, _ => true
  | String a p', String b s' => bool_decide (a = b) && has_prefix p' s'
  | String _ _, EmptyString => false
  end.

Fixpoint drop_chars (n : nat) (s : string) : string :=
  match n, s with
  | O, _ => s
  | S n', String _ s' => drop_chars n' s'
  | S _, EmptyString => EmptyString
  end.

Definition trim_prefix (p s : string) : string :=
  if has_prefix p s then drop_chars (String.length p) s else s.

Definition has_suffix (p s : string) : bool :=
  (String.length p <=? String.length s)%nat &&
  bool_decide (drop_chars (String.length s - String.length p) s = p).

Lemma has_prefix_spec p s : has_prefix p s = true ↔ ∃ t, s = p +:+ t.
Proof.
  revert s. induction p as [|a p IH]; intros [|b s]; simpl.
  - naive_solver.
  - split; [intros _; by exists (String b s) | done].
  - split; [done | intros [t Ht]; done].
  - rewrite andb_true_iff, bool_decide_eq_true, IH. split.
    + intros [-> [t ->]]. by exists t.
    + intros [t Ht]. cbn in Ht. injection Ht as -> ->. eauto.
Qed.

Lemma drop_chars_app p t : drop_chars (String.length p) (p +:+ t) = t.
Proof. induction p; simpl; auto. Qed.

Lemma trim_prefix_app p t : trim_prefix p (p +:+ t) = t.
Proof.
  unfold trim_prefix.
  replace (has_prefix p (p +:+ t)) with true by (symmetry; apply has_prefix_spec; eauto).
  apply drop_chars_app.
Qed.

Lemma has_suffix_app s p : has_suffix p (s +:+ p) = true.
Proof.
  unfold has_suffix.
  assert (String.length (s +:+ p) = (String.length s + String.length p)%nat) as Hlen.
  { induction s as [|c s IH]; [done|].
    change (String c s +:+ p) with (String c (s +:+ p)). simpl. by rewrite IH. }
  rewrite andb_true_iff, bool_decide_eq_true, Nat.leb_le, Hlen. split; [lia|].
  replace (String.length s + String.length p - String.length p)%nat
    with (String.length s) by lia.
  apply drop_chars_app.
Qed.

(** The decimal rendering of a non-negative integer. *)
Definition dec_string (z : Z) : string := pretty (Z.to_N z).

Lemma dec_string_inj x y : 0 ≤ x → 0 ≤ y → dec_string x = dec_string y → x = y.
Proof. unfold dec_string. intros Hx Hy Heq%(inj pretty). lia. Qed.

(** ** Hexadecimal: [encoding/hex] *)

Definition hex_digit (d : Z) : Ascii.ascii :=
  match d with
  | 0 => "0" | 1 => "1" | 2 => "2" | 3 => "3" | 4 => "4" | 5 => "5" | 6 => "6" | 7 => "7"
  | 8 => "8" | 9 => "9" | 10 => "a" | 11 => "b" | 12 => "c" | 13 => "d" | 14 => "e"
  | _ => "f"
  end%char.

(** The reverse table: the value of a hexadecimal digit of either case. *)
Definition hex_value (c : Ascii.ascii) : option Z :=
  let b := byte_of_ascii c in
  if decide (48 ≤ b ≤ 57) then Some (b - 48)
  else if decide (97 ≤ b ≤ 102) then Some (b - 87)
  else if decide (65 ≤ b ≤ 70) then Some (b - 55)
  else None.

(** [hex.EncodeToString]. *)
Fixpoint hex_encode (bs : bytes) : string :=
  match bs with
  | [] => EmptyString
  | b :: bs' => String (hex_digit (b / 16)) (String (hex_digit (b mod 16)) (hex_encode bs'))
  end.

Inductive hex_error := InvalidByte (c : Ascii.ascii) | OddLength.

#[export] Instance hex_error_eq_dec : EqDecision hex_error.
Proof. solve_decision. Defined.

(** [hex.DecodeString]: the bytes decoded before the first error, and the
    error. Go returns both, and one caller drops the error. *)
Fixpoint hex_decode (s : string) : bytes * option hex_error :=
  match s with
  | EmptyString => ([], None)
  | String p EmptyString =>
      match hex_value p with
      | None => ([], Some (InvalidByte p))
      | Some _ => ([], Some OddLength)
      end
  | String p (String q s') =>
      match hex_value p, hex_value q with
      | None, _ => ([], Some (InvalidByte p))
      | Some _, None => ([], Some (InvalidByte q))
      | Some a, Some b =>
          let '(bs, e) := hex_decode s' in ((a * 16 + b) :: bs, e)
      end
  end.

Lemma hex_value_digit d : 0 ≤ d < 16 → hex_value (hex_digit d) = Some d.
Proof.
  intros. assert (d ∈ seqZ 0 16) as Hd by (apply elem_of_seqZ; lia).
  revert d Hd H. apply (Forall_forall (λ d, 0 ≤ d < 16 → hex_value (hex_digit d) = Some d)).
  vm_compute seqZ. repeat constructor.
Qed.

Lemma hex_decode_encode bs : bytes_ok bs → hex_decode (hex_encode bs) = (bs, None).
Proof.
  induction 1 as [|b bs Hb _ IH]; [done|].
  cbn [hex_encode hex_decode]. unfold byte_ok in Hb.
  rewrite !hex_value_digit by (split; [apply Z.div_pos || apply Z.mod_pos_bound|
    apply Z.div_lt_upper_bound || apply Z.mod_pos_bound]; lia).
  rewrite IH. do 2 f_equal. pose proof (Z.div_mod b 16). lia.
Qed.

Lemma hex_value_range c d : hex_value c = Some d → 0 ≤ d < 16.
Proof. unfold hex_value. repeat case_decide; intros; simplify_eq; lia. Qed.

Lemma hex_decode_ok s : bytes_ok (hex_decode s).1.
Proof.
  induction s as [s IH] using (induction_ltof1 _ String.length).
  unfold ltof in IH. destruct s as [|p [|q s]]; cbn.
  - constructor.
  - destruct (hex_value p); constructor.
  - destruct (hex_value p) as [a|] eqn:Ha; [|constructor].
    destruct (hex_value q) as [b|] eqn:Hb; [|constructor].
    specialize (IH s). destruct (hex_decode s) as [bs e].
    apply hex_value_range in Ha, Hb. constructor; [unfold byte_ok; lia|].
    apply IH. cbn. lia.
Qed.

(** ** Step relations *)

(** A property that every step preserves holds in every reachable state. *)
Lemma rtc_preserves {A} (R : relation A) (P : A → Prop) x y :
  (∀ a b, R a b → P a → P b) → P x → rtc R x y → P y.
Proof. intros Hstep Hx Hxy. induction Hxy; eauto. Qed.

(** ** Counting in a map *)

Section Count.
Context {A : Type} (P : A → Prop) `{∀ x, Decision (P x)}.

Definition count_if {K} `{Countable K} (m : gmap K A) : nat :=
  base.size (filter (λ x, P x.2) m).

Lemma count_if_new {K} `{Countable K} (m : gmap K A) i x :
  m !! i = None → count_if (<[i := x]> m) = ((if decide (P x) then 1 else 0) + count_if m)%nat.
Proof.
  intros Hi. unfold count_if. case_decide as HP.
  - rewrite map_filter_insert_True by done.
    rewrite map_size_insert_None; [done|]. apply map_lookup_filter_None. by left.
  - rewrite map_filter_insert_False by done. by rewrite delete_id.
Qed.

Lemma count_if_delete {K} `{Countable K} (m : gmap K A) i x :
  m !! i = Some x → count_if m = ((if decide (P x) then 1 else 0) + count_if (delete i m))%nat.
Proof.
  intros Hi. rewrite <-(insert_delete_id m i x) at 1 by done.
  apply count_if_new. apply lookup_delete_eq.
Qed.

Lemma count_if_update {K} `{Countable K} (m : gmap K A) i x y :
  m !! i = Some x →
  ((if decide (P x) then 1 else 0) + count_if (<[i := y]> m) =
   (if decide (P y) then 1 else 0) + count_if m)%nat.
Proof.
  intros Hi. rewrite (count_if_delete m i x Hi). rewrite <-(insert_delete_eq m).
  rewrite count_if_new by apply lookup_delete_eq. lia.
Qed.

(** What is left and what is gone make up the whole. *)
Lemma count_if_difference {K} `{Countable K} (m m' : gmap K A) :
  m' ⊆ m → count_if m = (count_if m' + count_if (m ∖ m'))%nat.
Proof.
  intros Hsub. rewrite <-(map_difference_union m' m) at 1 by done. unfold count_if.
  assert (m' ##ₘ m ∖ m') as Hd
    by (apply map_disjoint_difference_r1; reflexivity).
  rewrite map_filter_union by done. by apply map_size_disj_union, map_disjoint_filter.
Qed.

Lemma count_if_none {K} `{Countable K} (m : gmap K A) :
  (∀ i x, m !! i = Some x → ¬ P x) → count_if m = 0%nat.
Proof.
  intros Hno. unfold count_if. apply map_size_empty_iff, map_empty. intros i.
  apply map_lookup_filter_None. right. intros x Hi. by apply (Hno i).
Qed.
End Count.

Lemma count_if_ext {K A} `{Countable K} (P Q : A → Prop) `{∀ x, Decision (P x), ∀ x, Decision (Q x)}
    (m : gmap K A) :
  (∀ i x, m !! i = Some x → P x ↔ Q x) → count_if P m = count_if Q m.
Proof. intros Hpq. unfold count_if. f_equal. apply map_filter_ext. intros i x. apply Hpq. Qed.
