(* ===== verification/GoLib.v ===== *)
(** The parts of Go's standard library the service uses beyond integers and
    hexadecimal ([strings], [strconv], [unicode], [math], [time]), and the
    interface of the go-ethereum and x/crypto functions it calls, which are not
    part of this repository and enter the model as a class of operations. *)

From S2P Require Import Prelude.
From Stdlib Require Import SpecFloat.

(** ** [strings.TrimSpace]

    The white space of [unicode.IsSpace], as UTF-8 sequences. *)
Definition space_sequences : list bytes :=
  [ [9]; [10]; [11]; [12]; [13]; [32]; [194; 133]; [194; 160]; [225; 154; 128] ]
  ++ ((λ k, [226; 128; k]) <$> seqZ 128 11)
  ++ [ [226; 128; 168]; [226; 128; 169]; [226; 128; 175]; [226; 129; 159]; [227; 128; 128] ].

Fixpoint strip_seq (p bs : bytes) : option bytes :=
  match p, bs with
  | [], _ => Some bs
  | a :: p', b :: bs' => if decide (a = b) then strip_seq p' bs' else None
  | _ :: _, [] => None
  end.

Fixpoint strip_first (pats : list bytes) (bs : bytes) : option bytes :=
  match pats with
  | [] => None
  | p :: pats' =>
      match strip_seq p bs with Some r => Some r | None => strip_first pats' bs end
  end.

Fixpoint strip_all (pats : list bytes) (fuel : nat) (bs : bytes) : bytes :=
  match fuel with
  | O => bs
  | S fuel' =>
      match strip_first pats bs with
      | Some rest => strip_all pats fuel' rest
      | None => bs
      end
  end.

(** Every stripped sequence is non-empty, so the length of the string is fuel
    enough on each side. *)
Definition trim_space (s : string) : string :=
  let bs := string_bytes s in
  let left := strip_all space_sequences (length bs) bs in
  let right := strip_all (reverse <$> space_sequences) (length left) (reverse left) in
  bytes_string (reverse right).

Example trim_space_ex : trim_space "  3000 " = "3000".
Proof. reflexivity. Qed.

(** ** [strings.ToLower], [strings.ToUpper], [strings.EqualFold]

    As in Go, a string of ASCII bytes is mapped byte by byte; the Unicode
    tables, used only when some byte is not ASCII, are a parameter. *)
Class GoUnicode := {
  unicode_to_lower : string → string;
  unicode_to_upper : string → string;
  unicode_equal_fold : string → string → bool;
}.

Definition is_ascii (s : string) : bool := forallb (λ b, b <? 128) (string_bytes s).

Definition lower_ascii (c : Ascii.ascii) : Ascii.ascii :=
  let b := byte_of_ascii c in
  if decide (65 ≤ b ≤ 90) then ascii_of_byte (b + 32) else c.

Definition upper_ascii (c : Ascii.ascii) : Ascii.ascii :=
  let b := byte_of_ascii c in
  if decide (97 ≤ b ≤ 122) then ascii_of_byte (b - 32) else c.

Fixpoint map_string (f : Ascii.ascii → Ascii.ascii) (s : string) : string :=
  match s with
  | EmptyString => EmptyString
  | String c s' => String (f c) (map_string f s')
  end.

Section Case.
Context `{GoUnicode}.

Definition to_lower (s : string) : string :=
  if is_ascii s then map_string lower_ascii s else unicode_to_lower s.

Definition to_upper (s : string) : string :=
  if is_ascii s then map_string upper_ascii s else unicode_to_upper s.

Definition equal_fold (s t : string) : bool :=
  if is_ascii s && is_ascii t
  then bool_decide (map_string lower_ascii s = map_string lower_ascii t)
  else unicode_equal_fold s t.
End Case.

Lemma lower_ascii_idem c : lower_ascii (lower_ascii c) = lower_ascii c.
Proof.
  unfold lower_ascii at 2. case_decide as Hc; [|done].
  unfold lower_ascii. rewrite byte_of_ascii_of_byte by (unfold byte_ok; lia).
  case_decide; [lia|]. by unfold lower_ascii; rewrite decide_True.
Qed.

Lemma lower_ascii_ascii c :
  byte_of_ascii c < 128 → byte_of_ascii (lower_ascii c) < 128.
Proof.
  unfold lower_ascii. case_decide; [|done].
  rewrite byte_of_ascii_of_byte by (unfold byte_ok; lia). lia.
Qed.

Lemma is_ascii_lower s : is_ascii s = true → is_ascii (map_string lower_ascii s) = true.
Proof.
  unfold is_ascii. induction s as [|c s IH]; simpl; [done|].
  rewrite !andb_true_iff, !Z.ltb_lt. intros [? ?]. auto using lower_ascii_ascii.
Qed.

(** Lower-casing an ASCII string twice is lower-casing it once. *)
Lemma to_lower_idem `{GoUnicode} s :
  is_ascii s = true → to_lower (to_lower s) = to_lower s.
Proof.
  intros Hs. unfold to_lower at 2 3. rewrite Hs.
  unfold to_lower. rewrite is_ascii_lower by done.
  clear Hs. induction s; simpl; f_equal; auto using lower_ascii_idem.
Qed.

(** ** [strconv] *)

Definition digit_value (c : Ascii.ascii) : option Z :=
  let b := byte_of_ascii c in
  if decide (48 ≤ b ≤ 57) then Some (b - 48) else None.

Fixpoint digits_value (acc : Z) (s : string) : option Z :=
  match s with
  | EmptyString => Some acc
  | String c s' => d ← digit_value c; digits_value (acc * 10 + d) s'
  end.

Definition parse_digits (s : string) : option Z :=
  match s with EmptyString => None | _ => digits_value 0 s end.

(** The decimal rendering of a number is read back. *)
Lemma digit_value_char d : (d < 10)%N → digit_value (pretty_N_char d) = Some (Z.of_N d).
Proof.
  intros Hd. assert (∃ n : nat, d = N.of_nat n ∧ (n < 10)%nat) as (n & -> & Hn)
    by (exists (N.to_nat d); lia).
  do 10 (destruct n as [|n]; [done|]). lia.
Qed.

Lemma digits_value_pretty x s :
  digits_value 0 (pretty_N_go x s) = digits_value (Z.of_N x) s.
Proof.
  revert s. induction (N.lt_wf_0 x) as [x _ IH]. intros s.
  destruct (decide (0 < x)%N) as [Hx|Hx].
  - rewrite pretty_N_go_step by done. rewrite IH by (apply N.div_lt; lia). simpl.
    rewrite digit_value_char by (apply N.mod_lt; lia). simpl. f_equal.
    pose proof (N.div_mod x 10). lia.
  - assert (x = 0%N) as -> by lia. done.
Qed.

Lemma pretty_N_go_nonempty x s : pretty_N_go x s = "" → x = 0%N ∧ s = "".
Proof.
  revert s. induction (N.lt_wf_0 x) as [x _ IH]. intros s.
  destruct (decide (0 < x)%N) as [Hx|Hx].
  - rewrite pretty_N_go_step by done. intros [_ [=]]%IH. apply N.div_lt; lia.
  - assert (x = 0%N) as -> by lia. rewrite pretty_N_go_0. done.
Qed.

Lemma parse_digits_dec_string z : 0 ≤ z → parse_digits (dec_string z) = Some z.
Proof.
  intros Hz. unfold dec_string, pretty, pretty_N. case_decide as H0.
  - assert (z = 0) as -> by lia. done.
  - unfold parse_digits. destruct (pretty_N_go (Z.to_N z) "") eqn:E.
    + apply pretty_N_go_nonempty in E as [? _]. lia.
    + rewrite <-E, digits_value_pretty. simpl. f_equal. lia.
Qed.

(** [strconv.ParseUint(s, 10, 64)]. *)
Definition parse_uint64 (s : string) : option Z :=
  z ← parse_digits s; if z <? 2 ^ 64 then Some z else None.

(** [strconv.Atoi] on a 64-bit platform. *)
Definition atoi (s : string) : option Z :=
  let '(neg, body) :=
    match s with
    | String c s' =>
        if decide (c = "-"%char) then (true, s')
        else if decide (c = "+"%char) then (false, s') else (false, s)
    | EmptyString => (false, s)
    end in
  z ← parse_digits body;
  let v := if neg : bool then - z else z in
  if (- 2 ^ 63 <=? v) && (v <? 2 ^ 63) then Some v else None.

Lemma atoi_range s z : atoi s = Some z → - 2 ^ 63 ≤ z < 2 ^ 63.
Proof.
  unfold atoi.
  destruct (match s with "" => _ | _ => _ end) as [neg body].
  destruct (parse_digits body); [simpl | done].
  case_match eqn:Hr; [|done]. intros [= <-].
  rewrite andb_true_iff, Z.leb_le, Z.ltb_lt in Hr. lia.
Qed.

(** [strconv.ParseBool]. *)
Definition parse_bool (s : string) : option bool :=
  if decide (s ∈ ["1"; "t"; "T"; "true"; "TRUE"; "True"]) then Some true
  else if decide (s ∈ ["0"; "f"; "F"; "false"; "FALSE"; "False"]) then Some false
  else None.

(** ** [float64]: [math.Trunc] and the conversion to [int] *)

Definition float_is_integral (f : spec_float) : bool :=
  match f with
  | S754_zero _ | S754_infinity _ => true
  | S754_nan => false
  | S754_finite _ m e => (0 <=? e) || (Z.pos m mod 2 ^ (- e) =? 0)
  end.

(** The value of an integral float; [None] for an infinity. *)
Definition float_integer (f : spec_float) : option Z :=
  match f with
  | S754_zero _ => Some 0
  | S754_infinity _ | S754_nan => None
  | S754_finite s m e =>
      let v := if 0 <=? e then Z.pos m * 2 ^ e else Z.pos m / 2 ^ (- e) in
      Some (if s then - v else v)
  end.

(** What the compiler does when the value does not fit is left to the
    implementation by the language, so it is a parameter. *)
Class GoFloat := { float_to_int_overflow : spec_float → Z }.

Definition float_to_int `{GoFloat} (f : spec_float) : Z :=
  match float_integer f with
  | Some v => if (- 2 ^ 63 <=? v) && (v <? 2 ^ 63) then v else float_to_int_overflow f
  | None => float_to_int_overflow f
  end.

(** ** [time.Duration]: signed 64-bit nanoseconds *)

Definition nanosecond : Z := 1.
Definition millisecond : Z := 1000000.
Definition second : Z := 1000000000.

(** [time.Duration(n) * unit], which wraps. *)
Definition duration (n unit : Z) : Z := i64 (n * unit).

Lemma duration_small n unit :
  0 ≤ n * unit < 2 ^ 63 → duration n unit = n * unit.
Proof. intros. unfold duration. apply i64_small. lia. Qed.

(** ** go-ethereum and x/crypto *)

(** [common.Address], a 20-byte array, and [common.Hash], a 32-byte one. *)
Abbreviation address := bytes.
Abbreviation hash := bytes.

Definition zero_address : address := replicate 20 0.
Definition zero_hash : hash := replicate 32 0.

Class Geth := {
  IsHexAddress : string → bool;
  HexToAddress : string → address;
  address_Hex : address → string;
  BytesToAddress : bytes → address;
  LeftPadBytes : bytes → nat → bytes;
  RightPadBytes : bytes → nat → bytes;
  hexutil_Encode : bytes → string;
  keccak256 : bytes → bytes;
}.

(** What the go-ethereum documentation states of the byte helpers: zero-padding
    to a width, leaving a slice that is already that long alone; the last twenty
    bytes of a longer slice; a hexadecimal dump with its prefix. *)
Class GethLaws `{Geth} : Prop := {
  left_pad_spec bs l : LeftPadBytes bs l = replicate (l - length bs) 0 ++ bs;
  right_pad_spec bs l : RightPadBytes bs l = bs ++ replicate (l - length bs) 0;
  bytes_to_address_spec bs :
    BytesToAddress bs =
      replicate (20 - length bs) 0 ++ drop (length bs - 20) bs;
  hexutil_encode_spec bs : hexutil_Encode bs = "0x" +:+ hex_encode bs;
  hex_to_address_hex a :
    length a = 20%nat → bytes_ok a → HexToAddress (address_Hex a) = a;
}.

Lemma length_left_pad `{GethLaws} bs l :
  length (LeftPadBytes bs l) = (length bs `max` l)%nat.
Proof. rewrite left_pad_spec, length_app, length_replicate. lia. Qed.

Lemma length_right_pad `{GethLaws} bs l :
  length (RightPadBytes bs l) = (length bs `max` l)%nat.
Proof. rewrite right_pad_spec, length_app, length_replicate. lia. Qed.

Lemma length_bytes_to_address `{GethLaws} bs : length (BytesToAddress bs) = 20%nat.
Proof.
  rewrite bytes_to_address_spec, length_app, length_replicate, length_drop. lia.
Qed.

#[export] Hint Rewrite @length_left_pad @length_right_pad @length_bytes_to_address
  using typeclasses eauto : relay.

(** A concrete instance, for the witnesses: plain lower-case hexadecimal for
    addresses, and a checksum in place of the hash function. *)
Definition sample_geth : Geth := {|
  IsHexAddress s := Nat.eqb (String.length (trim_prefix "0x" s)) 40;
  HexToAddress s := (hex_decode (trim_prefix "0x" s)).1;
  address_Hex a := "0x" +:+ hex_encode a;
  BytesToAddress bs := replicate (20 - length bs) 0 ++ drop (length bs - 20) bs;
  LeftPadBytes bs l := replicate (l - length bs) 0 ++ bs;
  RightPadBytes bs l := bs ++ replicate (l - length bs) 0;
  hexutil_Encode bs := "0x" +:+ hex_encode bs;
  keccak256 bs := replicate 31 0 ++ [foldr Z.add 0 bs mod 256];
|}.

Lemma sample_geth_laws : @GethLaws sample_geth.
Proof.
  constructor; try done. intros a _ Ha.
  change ((hex_decode (trim_prefix "0x" ("0x" +:+ hex_encode a))).1 = a).
  rewrite trim_prefix_app. by rewrite hex_decode_encode.
Qed.

Definition sample_unicode : GoUnicode := {|
  unicode_to_lower s := s;
  unicode_to_upper s := s;
  unicode_equal_fold s t := bool_decide (s = t);
|}.

(** ** [interface{}] values and [map[string]interface{}]

    What the service puts in a log entry, in the details of a rejection or in the
    body of a response. *)
Inductive value :=
  | VNil
  | VBool (b : bool)
  | VInt (z : Z)
  | VStr (s : string)
  | VStrs (l : list string).

#[export] Instance value_eq_dec : EqDecision value.
Proof. solve_decision. Defined.

Abbreviation fields := (gmap string value).

(** A pointer to a value, as [json.Marshal] shows it. *)
Definition v_opt {A} (f : A → value) (o : option A) : value :=
  match o with Some a => f a | None => VNil end.

(** ** [math/big]: unsigned integers and big-endian bytes *)

(** [new(big.Int).SetBytes(bs)]. *)
Definition be_value (bs : bytes) : Z := foldl (λ acc b, acc * 256 + b) 0 bs.

(** The [n] low bytes of a number, most significant first. *)
Fixpoint be_bytes (n : nat) (z : Z) : bytes :=
  match n with
  | O => []
  | S n' => be_bytes n' (z / 256) ++ [z mod 256]
  end.

Lemma length_be_bytes n z : length (be_bytes n z) = n.
Proof. revert z. induction n; intros z; simpl; [done|]. rewrite length_app, IHn. simpl. lia. Qed.

Lemma be_bytes_ok n z : bytes_ok (be_bytes n z).
Proof.
  revert z. induction n; intros z; simpl; [constructor|].
  apply Forall_app. split; [apply IHn|]. constructor; [|constructor]. apply Z.mod_pos_bound. lia.
Qed.

Lemma be_value_snoc bs b : be_value (bs ++ [b]) = be_value bs * 256 + b.
Proof. unfold be_value. by rewrite foldl_snoc. Qed.

Lemma be_value_be_bytes n z : 0 ≤ z < 256 ^ Z.of_nat n → be_value (be_bytes n z) = z.
Proof.
  revert z. induction n as [|n IH]; intros z Hz; simpl.
  - unfold be_value. simpl. lia.
  - rewrite Nat2Z.inj_succ, Z.pow_succ_r in Hz by lia.
    rewrite be_value_snoc, IH.
    + pose proof (Z.div_mod z 256). lia.
    + split; [apply Z.div_pos; lia | apply Z.div_lt_upper_bound; lia].
Qed.

Lemma be_value_bound bs : bytes_ok bs → 0 ≤ be_value bs < 256 ^ Z.of_nat (length bs).
Proof.
  induction bs as [|b bs IH] using rev_ind; intros Hok.
  - unfold be_value. simpl. lia.
  - apply Forall_app in Hok as [Hbs Hb]. inversion Hb as [|?? Hb' _]; subst.
    rewrite be_value_snoc, length_app. simpl. specialize (IH Hbs). unfold byte_ok in Hb'.
    rewrite Nat.add_1_r, Nat2Z.inj_succ, Z.pow_succ_r by lia. nia.
Qed.

(** Hexadecimal digits, most significant first; none for zero. *)
Fixpoint hex_digits_fuel (fuel : nat) (z : Z) : list Z :=
  match fuel with
  | O => []
  | S fuel' => if z <=? 0 then [] else hex_digits_fuel fuel' (z / 16) ++ [z mod 16]
  end.

Definition hex_digits (z : Z) : list Z := hex_digits_fuel (S (Z.to_nat (Z.log2 z))) z.

Fixpoint digits_string (ds : list Z) : string :=
  match ds with
  | [] => EmptyString
  | d :: ds' => String (hex_digit d) (digits_string ds')
  end.

(** [%x] of an unsigned number, and the same padded with zeros to a width. *)
Definition format_x (z : Z) : string :=
  digits_string (if z =? 0 then [0] else hex_digits z).

Definition format_0x (width : nat) (z : Z) : string :=
  let ds := if z =? 0 then [0] else hex_digits z in
  digits_string (replicate (width - length ds) 0 ++ ds).

Lemma hex_digits_fuel_length n : ∀ fuel z, 0 ≤ z < 16 ^ Z.of_nat n → (length (hex_digits_fuel fuel z) ≤ n)%nat.
Proof.
  induction n as [|n IH]; intros [|fuel] z Hz; simpl; try lia.
  - destruct (Z.leb_spec z 0); simpl in *; lia.
  - destruct (Z.leb_spec z 0); simpl; [lia|]. rewrite length_app. simpl.
    rewrite Nat2Z.inj_succ, Z.pow_succ_r in Hz by lia.
    assert (0 ≤ z / 16 < 16 ^ Z.of_nat n) as Hq
      by (split; [apply Z.div_pos; lia | apply Z.div_lt_upper_bound; lia]).
    specialize (IH fuel (z / 16) Hq). lia.
Qed.

(** The digits of a number, at a fixed width. *)
Fixpoint digits_fixed (n : nat) (z : Z) : list Z :=
  match n with
  | O => []
  | S n' => digits_fixed n' (z / 16) ++ [z mod 16]
  end.

Lemma digits_fixed_zero n : digits_fixed n 0 = replicate n 0.
Proof.
  induction n as [|n IH]; simpl; [done|].
  rewrite Zdiv_0_l, Zmod_0_l, IH. by rewrite <-replicate_cons_app.
Qed.

Lemma hex_digits_fuel_fixed fuel : ∀ n z,
  0 ≤ z < 16 ^ Z.of_nat n → z < 2 ^ Z.of_nat fuel →
  replicate (n - length (hex_digits_fuel fuel z)) 0 ++ hex_digits_fuel fuel z = digits_fixed n z.
Proof.
  induction fuel as [|fuel IH]; intros n z Hz Hf.
  - simpl in *. assert (z = 0) as -> by lia.
    by rewrite app_nil_r, Nat.sub_0_r, digits_fixed_zero.
  - simpl hex_digits_fuel. destruct (Z.leb_spec z 0).
    + assert (z = 0) as -> by lia. simpl. by rewrite app_nil_r, Nat.sub_0_r, digits_fixed_zero.
    + destruct n as [|n]; [simpl in *; lia|]. simpl digits_fixed.
      rewrite length_app, app_assoc. simpl length.
      replace (S n - (length (hex_digits_fuel fuel (z / 16)) + 1))%nat
        with (n - length (hex_digits_fuel fuel (z / 16)))%nat by lia.
      rewrite IH; [done| |].
      * rewrite Nat2Z.inj_succ, Z.pow_succ_r in Hz by lia.
        split; [apply Z.div_pos; lia | apply Z.div_lt_upper_bound; lia].
      * rewrite Nat2Z.inj_succ, Z.pow_succ_r in Hf by lia.
        apply Z.div_lt_upper_bound; lia.
Qed.

Lemma digits_fixed_bytes n z :
  digits_string (digits_fixed (2 * n) z) = hex_encode (be_bytes n z).
Proof.
  assert (Happ : ∀ a b, digits_string (a ++ b) = digits_string a +:+ digits_string b).
  { induction a; intros b; simpl; [done|]. by rewrite IHa. }
  assert (Henc : ∀ a b, hex_encode (a ++ b) = hex_encode a +:+ hex_encode b).
  { induction a; intros b; simpl; [done|]. by rewrite IHa. }
  revert z. induction n as [|n IH]; intros z; [done|].
  replace (2 * S n)%nat with (S (S (2 * n))) by lia. simpl digits_fixed. simpl be_bytes.
  rewrite <-app_assoc, Happ, Henc, Z.div_div by lia. rewrite IH. f_equal. simpl.
  assert (z / 16 mod 16 = z mod 256 / 16) as ->.
  { pose proof (Z.div_mod z 256). pose proof (Z.mod_pos_bound z 256).
    pose proof (Z.div_mod z 16). pose proof (Z.mod_pos_bound z 16).
    pose proof (Z.div_mod (z / 16) 16). pose proof (Z.mod_pos_bound (z / 16) 16).
    pose proof (Z.div_mod (z mod 256) 16). pose proof (Z.mod_pos_bound (z mod 256) 16). lia. }
  assert (z mod 16 = z mod 256 mod 16) as ->; [|done].
  symmetry. apply (Z.mod_unique_pos _ _ (z / 256 * 16 + z mod 256 / 16)).
  { apply Z.mod_pos_bound. lia. }
  pose proof (Z.div_mod z 256). pose proof (Z.div_mod (z mod 256) 16). lia.
Qed.

(** Padding the hexadecimal text of a number to two digits per byte is encoding its
    big-endian bytes. *)
Lemma format_0x_bytes n z :
  (0 < n)%nat → 0 ≤ z < 256 ^ Z.of_nat n → format_0x (2 * n) z = hex_encode (be_bytes n z).
Proof.
  intros Hn Hz. rewrite <-digits_fixed_bytes. unfold format_0x.
  assert (0 ≤ z < 16 ^ Z.of_nat (2 * n)) as Hz16.
  { rewrite Nat2Z.inj_mul, Z.pow_mul_r by lia. done. }
  destruct (Z.eqb_spec z 0) as [->|Hne]; f_equal.
  - rewrite digits_fixed_zero. simpl length.
    rewrite <-(replicate_S_end (2 * n - 1) 0). f_equal. lia.
  - apply hex_digits_fuel_fixed; [done|].
    rewrite Nat2Z.inj_succ, Z2Nat.id by apply Z.log2_nonneg.
    apply Z.log2_lt_pow2; lia.
Qed.
