(* ===== verification/Config.v ===== *)
(** The configuration of the service: the records of [model/Config.go] and the
    key-by-key reader of the optional blocks in [model/RuntimeConfig.go]. A key
    whose value is unusable falls back to its default and is reported in the
    list of discarded keys; no other key is affected by it. *)

From S2P Require Import Prelude GoLib.
From Stdlib Require Import SpecFloat.

(** ** model/Config.go *)

Record ApplicationConfig := {
  NodeURL : string;
  WSURL : string;
  ContractAddress : string;
  RelayHubContractAddress : option address;
  NodeKeyPath : string;
  NodeAddressPath : string;
  Key : string;
  Port : string;
  NonceCacheTTL : Z;
}.

Record KeyStoreConfig := { keystore_Agent : string }.
Record PassphraseConfig := { passphrase_Agent : string }.

Record SecurityConfig := {
  PermissionsEnabled : bool;
  AccountContractAddress : string;
}.

Record ReorderConfig := {
  reorder_Enabled : bool;
  WindowMs : Z;
  MaxInflightPerUser : Z;
  ReceiptTimeoutMs : Z;
  AutoNonce : bool;
  AutoNonceTicketMs : Z;
}.

Record DashboardConfig := {
  dashboard_Enabled : bool;
  BufferSize : Z;
}.

Record LogConfig := {
  Level : string;
  RawTx : bool;
}.

(** A nil slice and an empty one are told apart by [None] and [Some []]. *)
Record CorsConfig := { AllowedOrigins : option (list string) }.

Record ValidationConfig := {
  EnforceNodeAddress : bool;
  EnforceExpiration : bool;
  MinExpirationSeconds : Z;
  ExpirationToleranceSeconds : Z;
}.

Record PermissioningConfig := {
  AccountIngressAddress : string;
  AccountRulesCacheMs : Z;
}.

Record Config := {
  Application : ApplicationConfig;
  KeyStore : KeyStoreConfig;
  Passphrase : PassphraseConfig;
  Security : SecurityConfig;
  Reorder : ReorderConfig;
  Dashboard : DashboardConfig;
  Log : LogConfig;
  CORS : CorsConfig;
  Validation : ValidationConfig;
  Permissioning : PermissioningConfig;
}.

(** ** model/RuntimeConfig.go *)

Definition DefaultReorderWindowMs : Z := 3000.
Definition DefaultReorderMaxInflightPerUser : Z := 5.
Definition DefaultReorderReceiptTimeoutMs : Z := 60000.
Definition DefaultReorderAutoNonceTicketMs : Z := 2000.
Definition DefaultDashboardBufferSize : Z := 500.
Definition DefaultLogLevel : string := "info".
Definition DefaultMinExpirationSeconds : Z := 300.
Definition DefaultExpirationToleranceSeconds : Z := 2.
Definition DefaultAccountRulesCacheMs : Z := 30000.

Definition logLevels : list string := ["debug"; "info"; "warn"; "error"].

(** The dynamic types a configuration value can have and the reader looks at;
    [RawOther] stands for any other type, tagged to keep values apart. *)
Inductive raw :=
  | RawInt (z : Z)
  | RawInt32 (z : Z)
  | RawInt64 (z : Z)
  | RawFloat64 (f : spec_float)
  | RawString (s : string)
  | RawBool (b : bool)
  | RawList (l : list raw)
  | RawOther (tag : Z).

(** What the reader asks of viper: whether a key is set, and its value. *)
Record viper := {
  IsSet : string → bool;
  Get : string → raw;
}.

Record DiscardedKey := {
  dk_Key : string;
  dk_Value : raw;
  dk_Reason : string;
}.

Definition DefaultReorderConfig : ReorderConfig := {|
  reorder_Enabled := false;
  WindowMs := DefaultReorderWindowMs;
  AutoNonceTicketMs := DefaultReorderAutoNonceTicketMs;
  MaxInflightPerUser := DefaultReorderMaxInflightPerUser;
  ReceiptTimeoutMs := DefaultReorderReceiptTimeoutMs;
  AutoNonce := false;
|}.

Definition DefaultDashboardConfig : DashboardConfig :=
  {| dashboard_Enabled := false; BufferSize := DefaultDashboardBufferSize |}.

Definition DefaultLogConfig : LogConfig :=
  {| Level := DefaultLogLevel; RawTx := false |}.

Definition DefaultCorsConfig : CorsConfig := {| AllowedOrigins := None |}.

Definition DefaultValidationConfig : ValidationConfig := {|
  EnforceNodeAddress := false;
  EnforceExpiration := false;
  MinExpirationSeconds := DefaultMinExpirationSeconds;
  ExpirationToleranceSeconds := DefaultExpirationToleranceSeconds;
|}.

Definition DefaultPermissioningConfig : PermissioningConfig :=
  {| AccountIngressAddress := ""; AccountRulesCacheMs := DefaultAccountRulesCacheMs |}.

Section Reader.
Context `{GoUnicode} `{GoFloat} `{Geth}.

Definition toInt (value : raw) : option Z :=
  match value with
  | RawInt z => Some z
  | RawInt32 z => Some z
  | RawInt64 z => Some z
  | RawFloat64 f => if float_is_integral f then Some (float_to_int f) else None
  | RawString s => atoi (trim_space s)
  | _ => None
  end.

Definition toBool (value : raw) : option bool :=
  match value with
  | RawBool b => Some b
  | RawString s => parse_bool (trim_space s)
  | _ => None
  end.

(** Each reader takes the discarded keys so far and returns them extended,
    as the code does through its [*[]DiscardedKey] argument. *)
Definition discard (key : string) (value : raw) (reason : string)
    (discarded : list DiscardedKey) : list DiscardedKey :=
  discarded ++ [{| dk_Key := key; dk_Value := value; dk_Reason := reason |}].

Definition readBool (v : viper) (key : string) (def : bool)
    (discarded : list DiscardedKey) : bool * list DiscardedKey :=
  if negb (IsSet v key) then (def, discarded)
  else
    match toBool (Get v key) with
    | None => (def, discard key (Get v key) "no es un booleano" discarded)
    | Some value => (value, discarded)
    end.

Definition readInt (v : viper) (key : string) (def min : Z)
    (discarded : list DiscardedKey) : Z * list DiscardedKey :=
  if negb (IsSet v key) then (def, discarded)
  else
    match toInt (Get v key) with
    | None => (def, discard key (Get v key) "no es un numero entero" discarded)
    | Some value =>
        if value <? min
        then (def, discard key (Get v key)
                ("fuera de rango (minimo " +:+ dec_string min +:+ ")") discarded)
        else (value, discarded)
    end.

Definition readLevel (v : viper) (key def : string)
    (discarded : list DiscardedKey) : string * list DiscardedKey :=
  if negb (IsSet v key) then (def, discarded)
  else
    let bad := (def, discard key (Get v key)
      ("nivel no reconocido (debe ser " +:+ String.concat ", " logLevels +:+ ")")
      discarded) in
    match Get v key with
    | RawString text =>
        let level := to_lower (trim_space text) in
        if decide (level ∈ logLevels) then (level, discarded) else bad
    | _ => bad
    end.

(** The loop over the list: [None] at the first entry that is not text. *)
Fixpoint collect_origins (values : list raw) : option (list string) :=
  match values with
  | [] => Some []
  | RawString origin :: rest =>
      if decide (trim_space origin = "") then None
      else origins ← collect_origins rest; Some (trim_space origin :: origins)
  | _ :: _ => None
  end.

Definition readOrigins (v : viper) (key : string)
    (discarded : list DiscardedKey) : option (list string) * list DiscardedKey :=
  if negb (IsSet v key) then (None, discarded)
  else
    match Get v key with
    | RawList values =>
        match collect_origins values with
        | None => (None, discard key (Get v key)
                     "contiene un origen que no es texto" discarded)
        | Some origins => (Some origins, discarded)
        end
    | _ => (None, discard key (Get v key) "no es una lista" discarded)
    end.

Definition readAddress (v : viper) (key : string)
    (discarded : list DiscardedKey) : string * list DiscardedKey :=
  if negb (IsSet v key) then ("", discarded)
  else
    match Get v key with
    | RawString text =>
        let value := trim_space text in
        if decide (value = "") then ("", discarded)
        else if negb (IsHexAddress value)
        then ("", discard key (Get v key) "no es una direccion" discarded)
        else (value, discarded)
    | _ => ("", discard key (Get v key) "no es texto" discarded)
    end.

Definition LoadRuntimeBlocks (v : viper) :
    ReorderConfig * DashboardConfig * LogConfig * CorsConfig * list DiscardedKey :=
  let d := [] in
  let r := DefaultReorderConfig in
  let '(enabled, d) := readBool v "reorder.enabled" (reorder_Enabled r) d in
  let '(windowMs, d) := readInt v "reorder.windowMs" (WindowMs r) 0 d in
  let '(maxInflight, d) :=
    readInt v "reorder.maxInflightPerUser" (MaxInflightPerUser r) 1 d in
  let '(receiptMs, d) := readInt v "reorder.receiptTimeoutMs" (ReceiptTimeoutMs r) 0 d in
  let '(autoNonce, d) := readBool v "reorder.autoNonce" (AutoNonce r) d in
  let '(ticketMs, d) := readInt v "reorder.autoNonceTicketMs" (AutoNonceTicketMs r) 0 d in
  let b := DefaultDashboardConfig in
  let '(dashEnabled, d) := readBool v "dashboard.enabled" (dashboard_Enabled b) d in
  let '(bufferSize, d) := readInt v "dashboard.bufferSize" (BufferSize b) 0 d in
  let l := DefaultLogConfig in
  let '(level, d) := readLevel v "log.level" (Level l) d in
  let '(rawTx, d) := readBool v "log.rawTx" (RawTx l) d in
  let '(origins, d) := readOrigins v "cors.allowedOrigins" d in
  ({| reorder_Enabled := enabled; WindowMs := windowMs; MaxInflightPerUser := maxInflight;
      ReceiptTimeoutMs := receiptMs; AutoNonce := autoNonce; AutoNonceTicketMs := ticketMs |},
   {| dashboard_Enabled := dashEnabled; BufferSize := bufferSize |},
   {| Level := level; RawTx := rawTx |},
   {| AllowedOrigins := origins |}, d).

Definition LoadValidationBlocks (v : viper) :
    ValidationConfig * PermissioningConfig * list DiscardedKey :=
  let d := [] in
  let w := DefaultValidationConfig in
  let '(node, d) :=
    readBool v "validation.enforceNodeAddress" (EnforceNodeAddress w) d in
  let '(expiration, d) :=
    readBool v "validation.enforceExpiration" (EnforceExpiration w) d in
  let '(minSeconds, d) :=
    readInt v "validation.minExpirationSeconds" (MinExpirationSeconds w) 0 d in
  let '(tolerance, d) :=
    readInt v "validation.expirationToleranceSeconds"
      (ExpirationToleranceSeconds w) 0 d in
  let p := DefaultPermissioningConfig in
  let '(ingress, d) := readAddress v "security.accountIngressAddress" d in
  let '(cacheMs, d) :=
    readInt v "security.accountRulesCacheMs" (AccountRulesCacheMs p) 0 d in
  ({| EnforceNodeAddress := node; EnforceExpiration := expiration;
      MinExpirationSeconds := minSeconds; ExpirationToleranceSeconds := tolerance |},
   {| AccountIngressAddress := ingress; AccountRulesCacheMs := cacheMs |}, d).

Definition ExpirationFloor (validation : ValidationConfig) : Z :=
  let floor :=
    i64 (MinExpirationSeconds validation - ExpirationToleranceSeconds validation) in
  if floor <? 0 then 0 else floor.

(** ** The contract of a reader

    What a key is worth on its own: its default when it is absent, its value
    when it is usable, and its default plus a report when it is not. *)

Definition resolve {A} (parse : raw → result string A) (def : A) (v : viper)
    (key : string) : A * list DiscardedKey :=
  if negb (IsSet v key) then (def, [])
  else match parse (Get v key) with
       | Ok a => (a, [])
       | Err why =>
           (def, [{| dk_Key := key; dk_Value := Get v key; dk_Reason := why |}])
       end.

Definition bool_of (value : raw) : result string bool :=
  match toBool value with Some b => Ok b | None => Err "no es un booleano" end.

Definition int_at_least (min : Z) (value : raw) : result string Z :=
  match toInt value with
  | None => Err "no es un numero entero"
  | Some z => if z <? min then Err ("fuera de rango (minimo " +:+ dec_string min +:+ ")")
              else Ok z
  end.

Definition level_of (value : raw) : result string string :=
  let bad := Err ("nivel no reconocido (debe ser "
                    +:+ String.concat ", " logLevels +:+ ")") in
  match value with
  | RawString text =>
      let level := to_lower (trim_space text) in
      if decide (level ∈ logLevels) then Ok level else bad
  | _ => bad
  end.

Definition origins_of (value : raw) : result string (option (list string)) :=
  match value with
  | RawList values =>
      match collect_origins values with
      | None => Err "contiene un origen que no es texto"
      | Some origins => Ok (Some origins)
      end
  | _ => Err "no es una lista"
  end.

Definition address_of (value : raw) : result string string :=
  match value with
  | RawString text =>
      let a := trim_space text in
      if decide (a = "") then Ok ""
      else if IsHexAddress a then Ok a else Err "no es una direccion"
  | _ => Err "no es texto"
  end.

(** [reads run out]: threaded through any list of discarded keys, the reader
    yields the value of [out] and appends the reports of [out]. *)
Definition reads {A} (run : list DiscardedKey → A * list DiscardedKey)
    (out : A * list DiscardedKey) : Prop :=
  ∀ d, run d = (out.1, d ++ out.2).

Ltac reader :=
  intros ?; unfold resolve, discard;
  repeat (case_match; simplify_eq/=; try congruence);
  rewrite ?app_nil_r; done.

Lemma readBool_reads v key def :
  reads (readBool v key def) (resolve bool_of def v key).
Proof. unfold readBool, bool_of. reader. Qed.

Lemma readInt_reads v key def min :
  reads (readInt v key def min) (resolve (int_at_least min) def v key).
Proof. unfold readInt, int_at_least. reader. Qed.

Lemma readLevel_reads v key def :
  reads (readLevel v key def) (resolve level_of def v key).
Proof. unfold readLevel, level_of. reader. Qed.

Lemma readOrigins_reads v key :
  reads (readOrigins v key) (resolve origins_of None v key).
Proof. unfold readOrigins, origins_of. reader. Qed.

Lemma readAddress_reads v key :
  reads (readAddress v key) (resolve address_of "" v key).
Proof. unfold readAddress, address_of. reader. Qed.

(** The value of every key, as configuration text sees them: the fields of the
    loaded records under their key names. *)
Inductive field_value :=
  | FBool (b : bool)
  | FInt (z : Z)
  | FText (s : string)
  | FOrigins (o : option (list string)).

Definition runtime_fields
    (out : ReorderConfig * DashboardConfig * LogConfig * CorsConfig * list DiscardedKey) :
    list (string * field_value) :=
  let '(r, b, l, c, _) := out in
  [ ("reorder.enabled", FBool (reorder_Enabled r));
    ("reorder.windowMs", FInt (WindowMs r));
    ("reorder.maxInflightPerUser", FInt (MaxInflightPerUser r));
    ("reorder.receiptTimeoutMs", FInt (ReceiptTimeoutMs r));
    ("reorder.autoNonce", FBool (AutoNonce r));
    ("reorder.autoNonceTicketMs", FInt (AutoNonceTicketMs r));
    ("dashboard.enabled", FBool (dashboard_Enabled b));
    ("dashboard.bufferSize", FInt (BufferSize b));
    ("log.level", FText (Level l));
    ("log.rawTx", FBool (RawTx l));
    ("cors.allowedOrigins", FOrigins (AllowedOrigins c)) ].

(** A line of the specification: a key on its own, and its report if any. *)
Definition line {A} (wrap : A → field_value) (parse : raw → result string A) (def : A)
    (key : string) (v : viper) : (string * field_value) * list DiscardedKey :=
  ((key, wrap (resolve parse def v key).1), (resolve parse def v key).2).

Definition runtime_spec (v : viper) : list ((string * field_value) * list DiscardedKey) :=
  [ line FBool bool_of false "reorder.enabled" v;
    line FInt (int_at_least 0) 3000 "reorder.windowMs" v;
    line FInt (int_at_least 1) 5 "reorder.maxInflightPerUser" v;
    line FInt (int_at_least 0) 60000 "reorder.receiptTimeoutMs" v;
    line FBool bool_of false "reorder.autoNonce" v;
    line FInt (int_at_least 0) 2000 "reorder.autoNonceTicketMs" v;
    line FBool bool_of false "dashboard.enabled" v;
    line FInt (int_at_least 0) 500 "dashboard.bufferSize" v;
    line FText level_of "info" "log.level" v;
    line FBool bool_of false "log.rawTx" v;
    line FOrigins origins_of None "cors.allowedOrigins" v ].

Definition validation_fields (out : ValidationConfig * PermissioningConfig * list DiscardedKey) :
    list (string * field_value) :=
  let '(w, p, _) := out in
  [ ("validation.enforceNodeAddress", FBool (EnforceNodeAddress w));
    ("validation.enforceExpiration", FBool (EnforceExpiration w));
    ("validation.minExpirationSeconds", FInt (MinExpirationSeconds w));
    ("validation.expirationToleranceSeconds", FInt (ExpirationToleranceSeconds w));
    ("security.accountIngressAddress", FText (AccountIngressAddress p));
    ("security.accountRulesCacheMs", FInt (AccountRulesCacheMs p)) ].

Definition validation_spec (v : viper) : list ((string * field_value) * list DiscardedKey) :=
  [ line FBool bool_of false "validation.enforceNodeAddress" v;
    line FBool bool_of false "validation.enforceExpiration" v;
    line FInt (int_at_least 0) 300 "validation.minExpirationSeconds" v;
    line FInt (int_at_least 0) 2 "validation.expirationToleranceSeconds" v;
    line FText address_of "" "security.accountIngressAddress" v;
    line FInt (int_at_least 0) 30000 "security.accountRulesCacheMs" v ].

Ltac run_readers :=
  repeat (first [ rewrite readBool_reads | rewrite readInt_reads
                | rewrite readLevel_reads | rewrite readOrigins_reads
                | rewrite readAddress_reads ];
          cbv beta iota).

Lemma LoadRuntimeBlocks_lines v :
  runtime_fields (LoadRuntimeBlocks v) = (runtime_spec v).*1 ∧
  (LoadRuntimeBlocks v).2 = concat (runtime_spec v).*2.
Proof.
  unfold LoadRuntimeBlocks. run_readers.
  split; [done|]. cbn [runtime_spec line fmap list_fmap snd concat].
  by rewrite <-!app_assoc, app_nil_r.
Qed.

Lemma LoadValidationBlocks_lines v :
  validation_fields (LoadValidationBlocks v) = (validation_spec v).*1 ∧
  (LoadValidationBlocks v).2 = concat (validation_spec v).*2.
Proof.
  unfold LoadValidationBlocks. run_readers.
  split; [done|]. cbn [validation_spec line fmap list_fmap snd concat].
  by rewrite <-!app_assoc, app_nil_r.
Qed.

(** *** One key cannot take another with it *)

(** Two lines that agree as soon as their key is not [k], and report nothing
    but their own key. *)
Definition lines_agree (k : string) (l1 l2 : (string * field_value) * list DiscardedKey) :
    Prop :=
  l1.1.1 = l2.1.1 ∧ (l1.1.1 ≠ k → l1 = l2) ∧
  Forall (λ d, dk_Key d = l1.1.1) l1.2 ∧ Forall (λ d, dk_Key d = l2.1.1) l2.2.

Definition agree_except (k : string) (v1 v2 : viper) : Prop :=
  ∀ k', k' ≠ k → IsSet v1 k' = IsSet v2 k' ∧ Get v1 k' = Get v2 k'.

Lemma resolve_reports {A} (parse : raw → result string A) def v key :
  Forall (λ d, dk_Key d = key) (resolve parse def v key).2.
Proof. unfold resolve. repeat case_match; simpl; auto. Qed.

Lemma line_lines_agree {A} (wrap : A → field_value) parse def key k v1 v2 :
  agree_except k v1 v2 →
  lines_agree k (line wrap parse def key v1) (line wrap parse def key v2).
Proof.
  intros Hag. split_and!; [done| |apply resolve_reports..].
  intros Hk. destruct (Hag key Hk) as [Hset Hget].
  unfold line, resolve. by rewrite Hset, Hget.
Qed.

Lemma filter_reports_other (k key : string) ds :
  Forall (λ d, dk_Key d = key) ds → key = k → filter (λ d, dk_Key d ≠ k) ds = [].
Proof.
  induction 1 as [|d ds Hd _ IH]; intros ->; [done|].
  rewrite filter_cons_False by (intros Hne; by apply Hne). auto.
Qed.

Lemma lines_agree_filter k L1 L2 :
  Forall2 (lines_agree k) L1 L2 →
  filter (λ f, f.1 ≠ k) L1.*1 = filter (λ f, f.1 ≠ k) L2.*1 ∧
  filter (λ d, dk_Key d ≠ k) (concat L1.*2) = filter (λ d, dk_Key d ≠ k) (concat L2.*2).
Proof.
  induction 1 as [|l1 l2 L1 L2 (Hkey & Hne & Hr1 & Hr2) _ [IHf IHd]]; [done|].
  cbn [fmap list_fmap concat]. rewrite !filter_app, IHd.
  destruct (decide (l1.1.1 = k)) as [Heq|Hneq].
  - rewrite !filter_cons_False by (simpl; congruence).
    rewrite (filter_reports_other k l1.1.1 l1.2), (filter_reports_other k l2.1.1 l2.2)
      by congruence.
    done.
  - rewrite <-(Hne Hneq). rewrite !filter_cons_True by (simpl; congruence).
    by rewrite IHf.
Qed.

(** *** The loaded values are in range *)

Lemma resolve_either {A} (parse : raw → result string A) (P : A → Prop) def v key :
  P def → (∀ r a, parse r = Ok a → P a) → P (resolve parse def v key).1.
Proof. unfold resolve. intros Hdef Hparse. repeat case_match; simpl; eauto. Qed.

Lemma int_at_least_ok min r z : int_at_least min r = Ok z → min ≤ z.
Proof. unfold int_at_least. repeat case_match; intros; simplify_eq; lia. Qed.

Lemma level_of_ok r l : level_of r = Ok l → l ∈ logLevels.
Proof. unfold level_of. repeat case_match; intros; by simplify_eq. Qed.

Definition origins_ok (o : option (list string)) : Prop :=
  match o with Some l => Forall (λ s, s ≠ "") l | None => True end.

Lemma collect_origins_ok rs l : collect_origins rs = Some l → Forall (λ s, s ≠ "") l.
Proof.
  revert l. induction rs as [|r rs IH]; intros l; simpl; [by intros [= <-]|].
  case_match; try done. case_decide; [done|].
  destruct (collect_origins rs); simpl; [|done]. intros [= <-]. eauto.
Qed.

Lemma origins_of_ok r o : origins_of r = Ok o → origins_ok o.
Proof.
  unfold origins_of. repeat case_match; intros; simplify_eq.
  simpl. eauto using collect_origins_ok.
Qed.

Lemma address_of_ok r a : address_of r = Ok a → a = "" ∨ IsHexAddress a = true.
Proof. unfold address_of. repeat case_match; intros; simplify_eq; auto. Qed.

(** A key's value, whatever it is, decides nothing but its own field and
    its own report: two configurations that differ on one key only load the
    same value for every other key, and discard the same other keys. *)
Theorem config_keys_isolated (k : string) (v1 v2 : viper)
    (Hagree : agree_except k v1 v2) :
  (filter (λ f, f.1 ≠ k) (runtime_fields (LoadRuntimeBlocks v1)) =
     filter (λ f, f.1 ≠ k) (runtime_fields (LoadRuntimeBlocks v2)) ∧
   filter (λ d, dk_Key d ≠ k) (LoadRuntimeBlocks v1).2 =
     filter (λ d, dk_Key d ≠ k) (LoadRuntimeBlocks v2).2) ∧
  (filter (λ f, f.1 ≠ k) (validation_fields (LoadValidationBlocks v1)) =
     filter (λ f, f.1 ≠ k) (validation_fields (LoadValidationBlocks v2)) ∧
   filter (λ d, dk_Key d ≠ k) (LoadValidationBlocks v1).2 =
     filter (λ d, dk_Key d ≠ k) (LoadValidationBlocks v2).2).
Proof.
  rewrite !(proj1 (LoadRuntimeBlocks_lines _)), !(proj2 (LoadRuntimeBlocks_lines _)),
    !(proj1 (LoadValidationBlocks_lines _)), !(proj2 (LoadValidationBlocks_lines _)).
  split; apply lines_agree_filter; unfold runtime_spec, validation_spec;
    repeat (apply Forall2_cons_2; [by apply line_lines_agree|]); apply Forall2_nil_2.
Qed.

(** (C40) Whatever the configuration file says, what is loaded is usable: no
    negative window, timeout or capacity, at least one metatx in flight per
    user, a known log level, no blank origin, and an ingress address that is
    empty or well formed. *)
Theorem loaded_config_in_range (v : viper) :
  let '(r, b, l, c, _) := LoadRuntimeBlocks v in
  let '(w, p, _) := LoadValidationBlocks v in
  0 ≤ WindowMs r ∧ 1 ≤ MaxInflightPerUser r ∧ 0 ≤ ReceiptTimeoutMs r ∧
  0 ≤ AutoNonceTicketMs r ∧ 0 ≤ BufferSize b ∧ Level l ∈ logLevels ∧
  origins_ok (AllowedOrigins c) ∧
  0 ≤ MinExpirationSeconds w ∧ 0 ≤ ExpirationToleranceSeconds w ∧
  0 ≤ AccountRulesCacheMs p ∧
  (AccountIngressAddress p = "" ∨ IsHexAddress (AccountIngressAddress p) = true).
Proof.
  pose proof (proj1 (LoadRuntimeBlocks_lines v)) as Hr.
  pose proof (proj1 (LoadValidationBlocks_lines v)) as Hv.
  destruct (LoadRuntimeBlocks v) as [[[[r b] l] c] d].
  destruct (LoadValidationBlocks v) as [[w p] d'].
  cbn in Hr, Hv. injection Hr as ?????????? Ho. injection Hv as ??????.
  repeat match goal with H : ?x = (resolve _ _ _ _).1 |- _ => rewrite H; clear H end.
  split_and!; try (apply resolve_either; [|intros ??; apply int_at_least_ok]; done).
  - apply resolve_either; [by repeat constructor | apply level_of_ok].
  - apply (resolve_either _ origins_ok); [done | apply origins_of_ok].
  - apply (resolve_either _ (λ a, a = "" ∨ IsHexAddress a = true));
      [by left | apply address_of_ok].
Qed.

End Reader.

(** A concrete configuration, for the witnesses: everything at its default but the
    capabilities that are off by default, which are on. *)
Definition sample_config : Config := {|
  Application := {| NodeURL := "http://node"; WSURL := "ws://node"; ContractAddress := "";
                    RelayHubContractAddress := Some (replicate 20 5); NodeKeyPath := "";
                    NodeAddressPath := ""; Key := "key"; Port := "9001"; NonceCacheTTL := 0 |};
  KeyStore := {| keystore_Agent := "" |};
  Passphrase := {| passphrase_Agent := "" |};
  Security := {| PermissionsEnabled := true; AccountContractAddress := "" |};
  Reorder := {| reorder_Enabled := true; WindowMs := 3000; MaxInflightPerUser := 2;
                ReceiptTimeoutMs := 60000; AutoNonce := true; AutoNonceTicketMs := 2000 |};
  Dashboard := {| dashboard_Enabled := true; BufferSize := 500 |};
  Log := {| Level := "info"; RawTx := false |};
  CORS := {| AllowedOrigins := None |};
  Validation := {| EnforceNodeAddress := true; EnforceExpiration := true;
                   MinExpirationSeconds := 300; ExpirationToleranceSeconds := 2 |};
  Permissioning := {| AccountIngressAddress := ""; AccountRulesCacheMs := 30000 |};
|}.

Definition sample_float : GoFloat := {| float_to_int_overflow := λ _, - 2 ^ 63 |}.

(** The same file with a window of the wrong type and without it: whatever it does
    to [reorder.windowMs], nothing else moves. *)
Definition sample_viper (window : option raw) : viper := {|
  IsSet k := if decide (k = "reorder.windowMs") then bool_decide (window ≠ None)
             else bool_decide (k = "reorder.enabled");
  Get k := if decide (k = "reorder.windowMs") then default (RawOther 0) window else RawString "yes";
|}.

#[local] Existing Instances sample_unicode sample_float sample_geth.

Lemma config_keys_isolated_witness :
  agree_except "reorder.windowMs" (sample_viper (Some (RawString "soon"))) (sample_viper None) ∧
  filter (λ d, dk_Key d ≠ "reorder.windowMs")
    (LoadRuntimeBlocks (sample_viper (Some (RawString "soon")))).2 =
  filter (λ d, dk_Key d ≠ "reorder.windowMs")
    (LoadRuntimeBlocks (sample_viper None)).2.
Proof.
  assert (agree_except "reorder.windowMs" (sample_viper (Some (RawString "soon")))
            (sample_viper None)) as Hag
    by (intros k' Hk; simpl; by rewrite !decide_False by done).
  split; [exact Hag|].
  apply (config_keys_isolated _ _ _ Hag).
Defined.
