(* ===== verification/Errors.v ===== *)
(** The errors of the service: [errors/errors.go], the two vocabularies of a
    rejection ([service/prepare.go]) and the JSON-RPC answer that carries an error
    ([rpc/errors.go], the response half of [rpc/json.go]). *)

From S2P Require Import Prelude GoLib.

(** ** The error values *)

Inductive ErrorType :=
  | NoType | BadTransaction | FailedTransaction | FailedConnection | FailedKeystore
  | FailedReadFile | FailedReadEnv | FailedKeyConfig | FailedConfigTransaction
  | FailedContract | CallBlockchainFailed | MalformedRawTransaction | InvalidAddress.

#[export] Instance ErrorType_eq_dec : EqDecision ErrorType.
Proof. solve_decision. Defined.

Record errorContext := { Field : string; Message : string }.

Definition emptyContext : errorContext := {| Field := ""; Message := "" |}.

(** An error made elsewhere: its text, and the numeric code and data it answers
    when it implements [ErrorCode] and [ErrorData]. *)
Record foreign := { f_text : string; f_code : option Z; f_data : option value }.

Inductive error :=
  | customError (errorType : ErrorType) (originalError : error) (context : errorContext)
      (errorCode : Z)
  | Rejection (cause : error) (code : string) (details : option fields)
  | ForeignError (f : foreign).

(** [github.com/pkg/errors] and [fmt.Sprintf], which are not in this repository. *)
Class PkgErrors := {
  pkg_New : string → foreign;
  pkg_Wrapf : error → string → list value → foreign;
  pkg_Cause : error → error;
  fmt_Sprintf : string → list value → string;
}.

(** Their documentation: a new error has the message it was given and implements
    neither [ErrorCode] nor [ErrorData]; a wrapped one reads message, colon, cause. *)
Class PkgErrorsLaws (E : error → string) `{PkgErrors} : Prop := {
  pkg_New_text m : f_text (pkg_New m) = m;
  pkg_New_code m : f_code (pkg_New m) = None;
  pkg_New_data m : f_data (pkg_New m) = None;
  pkg_Wrapf_text e m args :
    f_text (pkg_Wrapf e m args) = fmt_Sprintf m args +:+ ": " +:+ E e;
}.

(** [Error()]. *)
Fixpoint Error (e : error) : string :=
  match e with
  | customError _ orig _ _ => Error orig
  | Rejection cause _ _ => Error cause
  | ForeignError f => f_text f
  end.

(** The [ErrorCode()] of the value, when its type has one. A rejection always has:
    the one of its cause, or zero. *)
Fixpoint ErrorCode (e : error) : option Z :=
  match e with
  | customError _ _ _ code => Some code
  | Rejection cause _ _ =>
      match ErrorCode cause with Some c => Some c | None => Some 0 end
  | ForeignError f => f_code f
  end.

Section Errors.
Context `{PkgErrors}.

(** The methods of [ErrorType]. *)
Definition type_New (errorType : ErrorType) (msg : string) (code : Z) : error :=
  customError errorType (ForeignError (pkg_New msg)) emptyContext code.

Definition type_Newf (errorType : ErrorType) (msg : string) (args : list value) : error :=
  customError errorType
    (ForeignError {| f_text := fmt_Sprintf msg args; f_code := None; f_data := None |})
    emptyContext 0.

Definition type_Wrapf (errorType : ErrorType) (err : error) (msg : string) (code : Z)
    (args : list value) : error :=
  customError errorType (ForeignError (pkg_Wrapf err msg args)) emptyContext code.

Definition type_Wrap (errorType : ErrorType) (err : error) (msg : string) (code : Z) : error :=
  type_Wrapf errorType err msg code [].

(** The functions of the package. *)
Definition New (msg : string) (code : Z) : error :=
  customError NoType (ForeignError (pkg_New msg)) emptyContext code.

Definition Newf (msg : string) (code : Z) (args : list value) : error :=
  customError NoType (ForeignError (pkg_New (fmt_Sprintf msg args))) emptyContext code.

Definition Cause (err : error) : error := pkg_Cause err.

Definition Wrapf (err : error) (msg : string) (args : list value) : error :=
  let wrappedError := ForeignError (pkg_Wrapf err msg args) in
  match err with
  | customError t _ ctx _ => customError t wrappedError ctx 0
  | _ => customError NoType wrappedError emptyContext 0
  end.

Definition Wrap (err : error) (msg : string) : error := Wrapf err msg [].

Definition AddErrorContext (err : error) (field message : string) : error :=
  let context := {| Field := field; Message := message |} in
  match err with
  | customError t orig _ _ => customError t orig context 0
  | _ => customError NoType err context 0
  end.

Definition GetErrorContext (err : error) : option (gmap string string) :=
  match err with
  | customError _ _ ctx _ =>
      Some (<["field" := Field ctx]> (<["message" := Message ctx]> ∅))
  | _ => None
  end.

Definition GetType (err : error) : ErrorType :=
  match err with customError t _ _ _ => t | _ => NoType end.

End Errors.

(** ** Rejections *)

Definition CodeBadRawTx := "BAD_RAW_TX".
Definition CodeBadMetaTx := "BAD_META_TX".
Definition CodeSenderNotPermitted := "SENDER_NOT_PERMITTED".
Definition CodePermissioningUnavailable := "PERMISSIONING_UNAVAILABLE".
Definition CodeBadNonce := "BAD_NONCE".
Definition CodeTooManyInflight := "TOO_MANY_INFLIGHT".
Definition CodeWrongNodeAddress := "WRONG_NODE_ADDRESS".
Definition CodeExpired := "EXPIRED".
Definition CodeExpirationTooLow := "EXPIRATION_TOO_LOW".
Definition CodeSendFailed := "SEND_FAILED".
Definition CodeReceiptTimeout := "RECEIPT_TIMEOUT".
Definition CodeRelayError := "RELAY_ERROR".

Definition Reject (cause : error) (code : string) : error := Rejection cause code None.

Definition RejectWithDetails (cause : error) (code : string) (details : fields) : error :=
  Rejection cause code (Some details).

Definition DetailsOf (e : error) : option fields :=
  match e with Rejection _ _ d => d | _ => None end.

Definition Unwrap (e : error) : option error :=
  match e with Rejection cause _ _ => Some cause | _ => None end.

(** The symbolic code, or the generic one. *)
Definition CodeOf (e : error) : string :=
  match e with
  | Rejection _ code _ => if decide (code = "") then CodeRelayError else code
  | _ => CodeRelayError
  end.

(** ** The JSON-RPC answer *)

Definition defaultErrorCode : Z := -32000.

Record jsonError := { je_Code : Z; je_Message : string; je_Data : option value }.

(** A raw JSON value is its text; [None] is a nil slice, which is not the empty one. *)
Abbreviation RawMessage := (option bytes).

Definition null : RawMessage := Some (string_bytes "null").

Record JsonrpcMessage := {
  m_Version : string;
  m_ID : RawMessage;
  m_Method : string;
  m_Params : RawMessage;
  m_Error : option jsonError;
  m_Result : RawMessage;
}.

Definition vsn := "2.0".

Definition empty_message : JsonrpcMessage :=
  {| m_Version := ""; m_ID := None; m_Method := ""; m_Params := None;
     m_Error := None; m_Result := None |}.

Definition ErrorData (e : error) : option value :=
  match e with ForeignError f => f_data f | _ => None end.

Definition errorMessage (e : error) : JsonrpcMessage :=
  {| m_Version := vsn; m_ID := null; m_Method := ""; m_Params := None;
     m_Error := Some {|
       je_Code := default defaultErrorCode (ErrorCode e);
       je_Message := Error e;
       je_Data := ErrorData e |};
     m_Result := None |}.

Definition ErrorResponse (msg : JsonrpcMessage) (e : error) : JsonrpcMessage :=
  let resp := errorMessage e in
  {| m_Version := m_Version resp; m_ID := m_ID msg; m_Method := m_Method resp;
     m_Params := m_Params resp; m_Error := m_Error resp; m_Result := m_Result resp |}.

(** [json.Marshal] gives the text or an error. *)
Definition Response {A} (marshal : A → result error bytes) (msg : JsonrpcMessage) (r : A) :
    JsonrpcMessage :=
  match marshal r with
  | Err e => ErrorResponse msg e
  | Ok enc => {| m_Version := vsn; m_ID := m_ID msg; m_Method := ""; m_Params := None;
                 m_Error := None; m_Result := Some enc |}
  end.

(** [HandleError] of the service: the error, under the identifier of the request. *)
Definition HandleError (id : RawMessage) (e : error) : JsonrpcMessage :=
  ErrorResponse {| m_Version := ""; m_ID := id; m_Method := ""; m_Params := None;
                   m_Error := None; m_Result := None |} e.

(** ** Lemmas *)

(** An error that reached the service with a numeric code of its own. *)
Definition coded (e : error) : Prop := is_Some (ErrorCode e).

Lemma New_text `{PkgErrorsLaws Error} m c : Error (New m c) = m.
Proof. apply pkg_New_text. Qed.

Lemma New_coded `{PkgErrors} m c : ErrorCode (New m c) = Some c.
Proof. done. Qed.

#[export] Hint Rewrite @New_coded : relay.

(** A concrete [pkg/errors], for the witnesses. *)
Definition sample_errors : PkgErrors := {|
  pkg_New m := {| f_text := m; f_code := None; f_data := None |};
  pkg_Wrapf e m _ := {| f_text := m +:+ ": " +:+ Error e; f_code := None; f_data := None |};
  pkg_Cause e := e;
  fmt_Sprintf m _ := m;
|}.

Lemma sample_errors_laws : @PkgErrorsLaws Error sample_errors.
Proof. by constructor. Qed.

(** The two doors of the service give the same reason for the same rejection:
    what the JSON-RPC door shows of a rejection is exactly what it would show of
    the error that caused it, whenever that error has a numeric code, whatever the
    symbolic code and the details the REST door adds. *)
Theorem rejection_same_reason (id : RawMessage) (cause : error) (code : string)
    (details : option fields) (Hcoded : coded cause)
    (Hdata : ErrorData cause = None) :
  HandleError id (Rejection cause code details) = HandleError id cause.
Proof.
  destruct Hcoded as [c Hc]. unfold HandleError, ErrorResponse, errorMessage. simpl.
  by rewrite Hc, Hdata.
Qed.

Lemma rejection_same_reason_witness :
  let cause := @New sample_errors "bad signature ECDSA" (-32000) in
  HandleError null (Rejection cause CodeBadMetaTx None) = HandleError null cause.
Proof.
  apply (rejection_same_reason null (@New sample_errors "bad signature ECDSA" (-32000))
           CodeBadMetaTx None); [by eexists | reflexivity].
Defined.

(** Where the cause has no numeric code of its own (an error of a library, as the
    one of recovering the signer), wrapping it in a rejection does change what
    the JSON-RPC door answers: code zero instead of the default -32000. *)
Theorem rejection_of_uncoded_answers_zero (id : RawMessage) (cause : error) (code : string)
    (details : option fields) (Hno : ErrorCode cause = None) :
  (je_Code <$> m_Error (HandleError id (Rejection cause code details))) = Some 0 ∧
  (je_Code <$> m_Error (HandleError id cause)) = Some defaultErrorCode.
Proof. simpl. by rewrite Hno. Qed.

Lemma rejection_of_uncoded_answers_zero_witness :
  let cause := ForeignError {| f_text := "invalid chain id for signer"; f_code := None;
                               f_data := None |} in
  (je_Code <$> m_Error (HandleError null (Reject cause CodeBadMetaTx))) = Some 0 ∧
  (je_Code <$> m_Error (HandleError null cause)) = Some (-32000).
Proof.
  apply (rejection_of_uncoded_answers_zero null
    (ForeignError {| f_text := "invalid chain id for signer"; f_code := None; f_data := None |})
    CodeBadMetaTx None). reflexivity.
Defined.
