(* ===== verification/Rpc.v ===== *)
(** JSON-RPC messages, [rpc/json.go] and [rpc/errors.go]: what kind of message one is,
    which of the methods of this service it asks for, and the numeric code of each
    error of the protocol. The texts of a message are raw JSON; their syntax was
    checked when the message was read. *)

From S2P Require Import Prelude GoLib Errors.

(** ** The kind of a message *)

Definition serviceMethodSeparator := "_".
Definition subscribeMethodSuffix := "_subscribe".
Definition unsubscribeMethodSuffix := "_unsubscribe".
Definition privTransactionMethodPreffix := "priv_".
Definition privSendRawTransactionMethodPreffix := "eea_".
Definition sendRawTransactionMethodSuffix := "_sendRawTransaction".
Definition getTransactionReceiptSuffix := "_getTransactionReceipt".
Definition getTransactionCountSuffix := "_getTransactionCount".
Definition getBlockByNumber := "_getBlockByNumber".
Definition getMetaTxResultSuffix := "_getMetaTxResult".

Definition hasValidID (msg : JsonrpcMessage) : bool :=
  match m_ID msg with
  | Some (b :: _) => negb (b =? 123) && negb (b =? 91)
  | _ => false
  end.

Definition isNotification (msg : JsonrpcMessage) : bool :=
  bool_decide (m_ID msg = None) && negb (bool_decide (m_Method msg = "")).

Definition isCall (msg : JsonrpcMessage) : bool :=
  hasValidID msg && negb (bool_decide (m_Method msg = "")).

Definition isResponse (msg : JsonrpcMessage) : bool :=
  hasValidID msg && bool_decide (m_Method msg = "") && bool_decide (m_Params msg = None)
  && (bool_decide (is_Some (m_Result msg)) || bool_decide (is_Some (m_Error msg))).

Definition isSubscribe (msg : JsonrpcMessage) : bool := has_suffix subscribeMethodSuffix (m_Method msg).
Definition isUnsubscribe (msg : JsonrpcMessage) : bool := has_suffix unsubscribeMethodSuffix (m_Method msg).

Definition IsPrivTransaction (msg : JsonrpcMessage) : bool :=
  has_prefix privTransactionMethodPreffix (m_Method msg).
Definition IsPrivRawTransaction (msg : JsonrpcMessage) : bool :=
  has_prefix privSendRawTransactionMethodPreffix (m_Method msg).
Definition IsRawTransaction (msg : JsonrpcMessage) : bool :=
  has_suffix sendRawTransactionMethodSuffix (m_Method msg).
Definition IsGetTransactionReceipt (msg : JsonrpcMessage) : bool :=
  has_suffix getTransactionReceiptSuffix (m_Method msg).
Definition IsGetTransactionCount (msg : JsonrpcMessage) : bool :=
  has_suffix getTransactionCountSuffix (m_Method msg).
Definition IsGetMetaTxResult (msg : JsonrpcMessage) : bool :=
  has_suffix getMetaTxResultSuffix (m_Method msg).
Definition IsGetBlockByNumber (msg : JsonrpcMessage) : bool :=
  has_suffix getBlockByNumber (m_Method msg).

(** What comes before the first separator, or the whole method. *)
Fixpoint before_separator (s : string) : string :=
  match s with
  | EmptyString => EmptyString
  | String "_"%char _ => EmptyString
  | String ch s' => String ch (before_separator s')
  end.

Definition namespace (msg : JsonrpcMessage) : string := before_separator (m_Method msg).

(** Whether the first character that is not white space opens an array. *)
Fixpoint isBatch (raw : bytes) : bool :=
  match raw with
  | [] => false
  | b :: raw' =>
      if (b =? 32) || (b =? 9) || (b =? 10) || (b =? 13) then isBatch raw' else b =? 91
  end.

(** ** The errors of the protocol *)

Inductive rpc_error :=
  | methodNotFoundError (method : string)
  | subscriptionNotFoundError (namespace subscription : string)
  | parseError (message : string)
  | invalidRequestError (message : string)
  | invalidMessageError (message : string)
  | invalidParamsError (message : string).

Definition rpc_ErrorCode (e : rpc_error) : Z :=
  match e with
  | methodNotFoundError _ | subscriptionNotFoundError _ _ => -32601
  | parseError _ | invalidMessageError _ => -32700
  | invalidRequestError _ => -32600
  | invalidParamsError _ => -32602
  end.

(** [%q] of a text is a parameter. *)
Definition rpc_Error (quoted : string → string) (e : rpc_error) : string :=
  match e with
  | methodNotFoundError m => "the method " +:+ m +:+ " does not exist/is not available"
  | subscriptionNotFoundError n s => "no " +:+ quoted s +:+ " subscription in " +:+ n +:+ " namespace"
  | parseError m | invalidRequestError m | invalidMessageError m | invalidParamsError m => m
  end.

(** The text of the error that an answer carries. *)
Definition jsonError_Error (e : jsonError) : string :=
  if bool_decide (je_Message e = "")
  then "json-rpc error " +:+
       (if je_Code e <? 0 then "-" +:+ dec_string (- je_Code e) else dec_string (je_Code e))
  else je_Message e.

(** ** What a message asks of this service *)

Inductive request_kind :=
  | ForwardPrivate | ForwardPrivateRaw | RawTransaction | Receipt_ | Count | MetaTxResult | Unsupported.

#[export] Instance request_kind_eq_dec : EqDecision request_kind.
Proof. solve_decision. Defined.

(** The conditions of [SignTransaction], in their order. *)
Definition kind_of (msg : JsonrpcMessage) : request_kind :=
  if IsPrivTransaction msg then ForwardPrivate
  else if IsPrivRawTransaction msg then ForwardPrivateRaw
  else if IsRawTransaction msg then RawTransaction
  else if IsGetTransactionReceipt msg then Receipt_
  else if IsGetTransactionCount msg then Count
  else if IsGetMetaTxResult msg then MetaTxResult
  else Unsupported.

(** ** Properties *)

Lemma has_suffix_spec p s : has_suffix p s = true ↔ ∃ t, s = t +:+ p.
Proof.
  split; [|intros [t ->]; apply has_suffix_app].
  unfold has_suffix. rewrite andb_true_iff, bool_decide_eq_true. intros [_ Hd].
  set (n := (String.length s - String.length p)%nat) in *. clearbody n.
  revert n Hd. induction s as [|ch s IH]; intros n Hd.
  - exists "". by destruct n.
  - destruct n as [|n]; [by exists ""|]. destruct (IH n Hd) as [t Ht].
    exists (String ch t). change (String ch t +:+ p) with (String ch (t +:+ p)). congruence.
Qed.

Lemma string_app_length s t : String.length (s +:+ t) = (String.length s + String.length t)%nat.
Proof.
  induction s as [|ch s IH]; [done|].
  change (String ch s +:+ t) with (String ch (s +:+ t)). simpl. by rewrite IH.
Qed.

Lemma drop_chars_suffix t p n :
  (n ≤ String.length p)%nat →
  drop_chars (String.length t + (String.length p - n)) (t +:+ p) = drop_chars (String.length p - n) p.
Proof.
  intros Hn. induction t as [|ch t IH]; [done|].
  change (String ch t +:+ p) with (String ch (t +:+ p)). exact IH.
Qed.

(** Two suffixes of one text: the shorter is a suffix of the longer. *)
Lemma suffixes_nest p q s :
  (String.length q ≤ String.length p)%nat →
  has_suffix p s = true → has_suffix q s = true → has_suffix q p = true.
Proof.
  intros Hlen [t ->]%has_suffix_spec. unfold has_suffix.
  rewrite !andb_true_iff, !bool_decide_eq_true, !Nat.leb_le, string_app_length.
  intros [_ Hq]. split; [done|]. rewrite <-Hq at 2.
  rewrite <-(drop_chars_suffix t p (String.length q)) by done. f_equal. lia.
Qed.

(** The suffixes that the dispatch tells apart. *)
Definition dispatch_suffixes : list string :=
  [sendRawTransactionMethodSuffix; getTransactionReceiptSuffix; getTransactionCountSuffix;
   getMetaTxResultSuffix].

Lemma dispatch_suffixes_exclusive p q s :
  p ∈ dispatch_suffixes → q ∈ dispatch_suffixes → has_suffix p s = true → has_suffix q s = true →
  p = q.
Proof.
  intros Hp Hq Hps Hqs.
  destruct (decide (String.length q ≤ String.length p)%nat) as [Hl|Hl];
    [pose proof (suffixes_nest p q s Hl Hps Hqs) as Hn
    |pose proof (suffixes_nest q p s ltac:(lia) Hqs Hps) as Hn];
    repeat (apply elem_of_cons in Hp as [->|Hp]); try set_solver;
    repeat (apply elem_of_cons in Hq as [->|Hq]); try set_solver;
    by vm_compute in Hn.
Qed.

(** The value of every test, once one of them holds. *)
Lemma suffix_excludes s p :
  has_suffix p s = true →
  p ∈ dispatch_suffixes →
  has_suffix "_sendRawTransaction" s = bool_decide (p = "_sendRawTransaction") ∧
  has_suffix "_getTransactionReceipt" s = bool_decide (p = "_getTransactionReceipt") ∧
  has_suffix "_getTransactionCount" s = bool_decide (p = "_getTransactionCount") ∧
  has_suffix "_getMetaTxResult" s = bool_decide (p = "_getMetaTxResult").
Proof.
  intros Hs Hp.
  assert (∀ q, q ∈ dispatch_suffixes → has_suffix q s = bool_decide (p = q)) as Hall.
  { intros q Hq. case_bool_decide as Hpq; [by subst|].
    destruct (has_suffix q s) eqn:Hqs; [|done]. exfalso. eauto using dispatch_suffixes_exclusive. }
  split_and!; apply Hall; unfold dispatch_suffixes; set_solver.
Qed.

(** What a message asks for does not depend on the order of the conditions, except
    for the two private prefixes, which win over everything: the four methods this
    service answers itself exclude one another, and each is asked for exactly by the
    methods with its suffix, of any namespace that is not private. *)
Theorem dispatch_is_by_suffix msg :
  (kind_of msg = ForwardPrivate ↔ has_prefix "priv_" (m_Method msg) = true) ∧
  (kind_of msg = ForwardPrivateRaw ↔ has_prefix "eea_" (m_Method msg) = true) ∧
  (has_prefix "priv_" (m_Method msg) = false → has_prefix "eea_" (m_Method msg) = false →
    (kind_of msg = RawTransaction ↔ ∃ ns, m_Method msg = ns +:+ "_sendRawTransaction") ∧
    (kind_of msg = Receipt_ ↔ ∃ ns, m_Method msg = ns +:+ "_getTransactionReceipt") ∧
    (kind_of msg = Count ↔ ∃ ns, m_Method msg = ns +:+ "_getTransactionCount") ∧
    (kind_of msg = MetaTxResult ↔ ∃ ns, m_Method msg = ns +:+ "_getMetaTxResult")).
Proof.
  unfold kind_of, IsPrivTransaction, IsPrivRawTransaction, IsRawTransaction,
    IsGetTransactionReceipt, IsGetTransactionCount, IsGetMetaTxResult.
  change privTransactionMethodPreffix with "priv_".
  change privSendRawTransactionMethodPreffix with "eea_".
  assert (Hpe : has_prefix "priv_" (m_Method msg) = true → has_prefix "eea_" (m_Method msg) = false).
  { intros [t ->]%has_prefix_spec. done. }
  rewrite <-!has_suffix_spec.
  pose proof (suffix_excludes (m_Method msg)) as Hex.
  destruct (has_prefix "priv_" (m_Method msg)).
  { rewrite Hpe by done. refine (conj _ (conj _ _)); split; done || intros; done. }
  destruct (has_prefix "eea_" (m_Method msg)); [refine (conj _ (conj _ _)); split; done || intros; done|].
  refine (conj _ (conj _ _)); [split; [|done]; repeat (case_match; try done)..|].
  intros _ _.
  unfold sendRawTransactionMethodSuffix, getTransactionReceiptSuffix, getTransactionCountSuffix,
    getMetaTxResultSuffix.
  refine (conj _ (conj _ (conj _ _)));
    (split; [by repeat (case_match; try done)|]; intros Hs; apply Hex in Hs; [|unfold dispatch_suffixes; set_solver];
     destruct Hs as (H1 & H2 & H3 & H4); rewrite H1, H2, H3, H4; done).
Qed.

Definition message_of (method : string) : JsonrpcMessage :=
  {| m_Version := vsn; m_ID := Some [49]; m_Method := method; m_Params := None;
     m_Error := None; m_Result := None |}.

Lemma dispatch_is_by_suffix_witness :
  kind_of (message_of "eth_sendRawTransaction") = RawTransaction ∧
  kind_of (message_of "priv_getTransactionCount") = ForwardPrivate.
Proof.
  destruct (dispatch_is_by_suffix (message_of "eth_sendRawTransaction")) as (_ & _ & Hd).
  destruct (dispatch_is_by_suffix (message_of "priv_getTransactionCount")) as (Hp & _ & _).
  split; [|by apply Hp]. destruct (Hd eq_refl eq_refl) as (Hraw & _). apply Hraw. by exists "eth".
Defined.

(** A message is a notification, a call or a response, and not two of them. *)
Lemma message_kinds_exclusive msg :
  (isNotification msg = true → isCall msg = false ∧ isResponse msg = false) ∧
  (isCall msg = true → isResponse msg = false).
Proof.
  unfold isNotification, isCall, isResponse, hasValidID.
  destruct (m_ID msg) as [[|b l]|]; simpl; rewrite ?andb_false_r; try done.
  destruct (bool_decide (m_Method msg = "")); simpl; rewrite ?andb_false_r; done.
Qed.

Lemma isBatch_spec raw :
  isBatch raw = true ↔ ∃ spaces rest, raw = spaces ++ 91 :: rest ∧
                        Forall (λ b, b = 32 ∨ b = 9 ∨ b = 10 ∨ b = 13) spaces.
Proof.
  induction raw as [|b raw IH]; simpl.
  - split; [done|]. by intros ([] & ? & ? & _).
  - destruct ((b =? 32) || (b =? 9) || (b =? 10) || (b =? 13)) eqn:Hb.
    + rewrite !orb_true_iff, !Z.eqb_eq in Hb. rewrite IH. split.
      * intros (sp & rest & -> & Hsp). exists (b :: sp), rest. split; [done|].
        constructor; [tauto|done].
      * intros (sp & rest & Heq & Hsp). destruct sp as [|x sp]; simplify_eq/=; [lia|].
        apply Forall_cons in Hsp as [_ Hsp]. by exists sp, rest.
    + rewrite !orb_false_iff, !Z.eqb_neq in Hb. rewrite Z.eqb_eq. split.
      * intros ->. by exists [], raw.
      * intros (sp & rest & Heq & Hsp). destruct sp as [|x sp]; simplify_eq/=; [done|].
        apply Forall_cons in Hsp as [Hx _]. naive_solver.
Qed.
