(* ===== verification/JsonText.v ===== *)
(** The strings of JSON, as [encoding/json] writes and reads them: quoted with the
    controls and the characters of HTML escaped, read back with the escapes, the
    surrogates and the invalid UTF-8 resolved. A text is a list of bytes; the main lemma is that what is
    quoted is read back ([unquote_quote]). *)

From S2P Require Import Prelude GoLib.

(** ** UTF-8 *)

Definition between (a b x : Z) : bool := (a <=? x) && (x <=? b).
Definition cont (b : Z) : bool := between 128 191 b.

(** A rune with its encoding, or a byte that begins none. *)
Inductive chunk := Rune (r : Z) (raw : bytes) | Bad (b : Z).

Definition lead3 (b b1 : Z) : bool :=
  ((b =? 224) && between 160 191 b1) || ((b =? 237) && between 128 159 b1)
  || ((between 225 236 b || between 238 239 b) && cont b1).

Definition lead4 (b b1 : Z) : bool :=
  ((b =? 240) && between 144 191 b1) || ((b =? 244) && between 128 143 b1)
  || (between 241 243 b && cont b1).

(** [utf8.DecodeRune]. *)
Definition next_chunk (bs : bytes) : option (chunk * bytes) :=
  match bs with
  | [] => None
  | b :: r =>
      Some (if b <? 128 then (Rune b [b], r)
            else
              match r with
              | b1 :: r1 =>
                  if between 194 223 b && cont b1
                  then (Rune ((b - 192) * 64 + (b1 - 128)) [b; b1], r1)
                  else
                    match r1 with
                    | b2 :: r2 =>
                        if lead3 b b1 && cont b2
                        then (Rune (((b - 224) * 64 + (b1 - 128)) * 64 + (b2 - 128)) [b; b1; b2], r2)
                        else
                          match r2 with
                          | b3 :: r3 =>
                              if lead4 b b1 && cont b2 && cont b3
                              then (Rune ((((b - 240) * 64 + (b1 - 128)) * 64 + (b2 - 128)) * 64
                                          + (b3 - 128)) [b; b1; b2; b3], r3)
                              else (Bad b, r)
                          | [] => (Bad b, r)
                          end
                    | [] => (Bad b, r)
                    end
              | [] => (Bad b, r)
              end)
  end.

Fixpoint chunks_fuel (fuel : nat) (bs : bytes) : list chunk :=
  match fuel with
  | O => []
  | S fuel =>
      match next_chunk bs with
      | None => []
      | Some (c, rest) => c :: chunks_fuel fuel rest
      end
  end.

Definition chunks (bs : bytes) : list chunk := chunks_fuel (length bs) bs.

(** [utf8.EncodeRune]; what is no rune is written as U+FFFD. *)
Definition encode_rune (r : Z) : bytes :=
  if between 0 127 r then [r]
  else if between 128 2047 r then [192 + r / 64; 128 + r mod 64]
  else if between 2048 55295 r || between 57344 65535 r
  then [224 + r / 4096; 128 + r / 64 mod 64; 128 + r mod 64]
  else if between 65536 1114111 r
  then [240 + r / 262144; 128 + r / 4096 mod 64; 128 + r / 64 mod 64; 128 + r mod 64]
  else [239; 191; 189].

Definition replacement : bytes := [239; 191; 189].

(** ** Strings

    34 is the quotation mark, 92 the backslash, 117 the letter u. *)

Definition hex_byte (d : Z) : Z := byte_of_ascii (hex_digit d).
Definition hex_of_byte (b : Z) : option Z := hex_value (ascii_of_byte b).

Definition u00 (b : Z) : bytes := [92; 117; 48; 48; hex_byte (b / 16); hex_byte (b mod 16)].

Definition quote_ascii (b : Z) : bytes :=
  if (b =? 34) || (b =? 92) then [92; b]
  else if b =? 8 then [92; 98]
  else if b =? 12 then [92; 102]
  else if b =? 10 then [92; 110]
  else if b =? 13 then [92; 114]
  else if b =? 9 then [92; 116]
  else if (b <? 32) || (b =? 60) || (b =? 62) || (b =? 38) then u00 b
  else [b].

Definition quote_chunk (c : chunk) : bytes :=
  match c with
  | Bad _ => [92; 117; 102; 102; 102; 100]
  | Rune r raw =>
      if r <? 128 then quote_ascii r
      else if (r =? 8232) || (r =? 8233)
      then [92; 117; 50; 48; 50; hex_byte (r mod 16)]
      else raw
  end.

(** [appendString], with the HTML characters escaped. *)
Definition quote (s : bytes) : bytes := 34 :: concat (quote_chunk <$> chunks s) ++ [34].

Definition hex4 (a b c d : Z) : option Z :=
  a ← hex_of_byte a; b ← hex_of_byte b; c ← hex_of_byte c; d ← hex_of_byte d;
  Some (((a * 16 + b) * 16 + c) * 16 + d).

Definition escaped (e : Z) : option Z :=
  if (e =? 34) || (e =? 92) || (e =? 47) then Some e
  else if e =? 98 then Some 8
  else if e =? 102 then Some 12
  else if e =? 110 then Some 10
  else if e =? 114 then Some 13
  else if e =? 116 then Some 9
  else None.

(** The low surrogate that follows a high one, if one does. *)
Definition low_surrogate (bs : bytes) : option (Z * bytes) :=
  match bs with
  | x :: y :: a :: b :: c :: d :: rest =>
      if (x =? 92) && (y =? 117) then
        match hex4 a b c d with
        | Some r => if between 56320 57343 r then Some (r, rest) else None
        | None => None
        end
      else None
  | _ => None
  end.

(** [unquoteBytes], of what is between the quotation marks. *)
Fixpoint unquote_fuel (fuel : nat) (body : bytes) : option bytes :=
  match fuel with
  | O => match body with [] => Some [] | _ => None end
  | S fuel =>
      match body with
      | [] => Some []
      | b :: r =>
          if b =? 92 then
            match r with
            | [] => None
            | e :: r =>
                if e =? 117 then
                  match r with
                  | x :: y :: z :: t :: r =>
                      rr ← hex4 x y z t;
                      if between 55296 56319 rr then
                        match low_surrogate r with
                        | Some (lo, r) =>
                            app (encode_rune (65536 + (rr - 55296) * 1024 + (lo - 56320)))
                              <$> unquote_fuel fuel r
                        | None => app replacement <$> unquote_fuel fuel r
                        end
                      else app (encode_rune rr) <$> unquote_fuel fuel r
                  | _ => None
                  end
                else ch ← escaped e; cons ch <$> unquote_fuel fuel r
            end
          else if (b =? 34) || (b <? 32) then None
          else
            match next_chunk body with
            | Some (Rune _ raw, rest) => app raw <$> unquote_fuel fuel rest
            | Some (Bad _, rest) => app replacement <$> unquote_fuel fuel rest
            | None => Some []
            end
      end
  end.

Definition unquote_body (body : bytes) : option bytes := unquote_fuel (length body) body.

(** A whole literal. *)
Definition unquote (raw : bytes) : option bytes :=
  match raw with
  | b :: r =>
      if (b =? 34) && bool_decide (last r = Some 34) then unquote_body (take (length r - 1) r) else None
  | [] => None
  end.

Example quote_ex : quote (string_bytes "a<b") = 34 :: string_bytes "a\u003cb" ++ [34].
Proof. by vm_compute. Qed.

Example unquote_ex :
  unquote (34 :: string_bytes "\ud83d\ude00\n\ud800!" ++ [34]) =
  Some ([240; 159; 152; 128; 10] ++ replacement ++ [33]).
Proof. by vm_compute. Qed.

(** *** Reading back what was quoted *)

Lemma between_spec a b x : between a b x = true ↔ a ≤ x ≤ b.
Proof. unfold between. rewrite andb_true_iff, !Z.leb_le. done. Qed.

(** A chunk that is a rune is one whatever follows it. *)
Definition rune_ok (r : Z) (raw : bytes) : Prop :=
  (∀ rest, next_chunk (raw ++ rest) = Some (Rune r raw, rest)) ∧
  ((raw = [r] ∧ r < 128) ∨
   (128 ≤ r ∧ (raw ≠ [] ∧ Forall (λ b, 128 ≤ b) raw) ∧ (r = 8232 ∨ r = 8233 → raw = encode_rune r))).

Ltac boolean :=
  repeat match goal with
  | H : (_ && _) = true |- _ => apply andb_true_iff in H as [? ?]
  | H : between _ _ _ = true |- _ => apply between_spec in H
  | H : (_ || _) = true |- _ => apply orb_true_iff in H as [?|?]
  | H : (_ =? _) = true |- _ => apply Z.eqb_eq in H
  | H : (_ <? _) = true |- _ => apply Z.ltb_lt in H
  | H : (_ <? _) = false |- _ => apply Z.ltb_ge in H
  | H : (_ =? _) = false |- _ => apply Z.eqb_neq in H
  end.

Lemma next_chunk_rune bs r raw rest :
  next_chunk bs = Some (Rune r raw, rest) → bs = raw ++ rest ∧ rune_ok r raw.
Proof.
  unfold next_chunk. destruct bs as [|b bs]; [done|]. destruct (b <? 128) eqn:Hb.
  { intros [= <- <- <-]. split; [done|]. split; [intros rest; simpl; by rewrite Hb|]. boolean. by left. }
  destruct bs as [|b1 bs]; [done|]. destruct (between 194 223 b && cont b1) eqn:H2.
  { intros [= <- <- <-]. split; [done|]. split; [intros rest; simpl; by rewrite Hb, H2|].
    unfold cont in *. boolean. right. split; [lia|]. split; [split; [done|]; repeat constructor; lia|]. lia. }
  destruct bs as [|b2 bs]; [done|]. destruct (lead3 b b1 && cont b2) eqn:H3.
  { intros [= <- <- <-]. split; [done|]. split; [intros rest; simpl; by rewrite Hb, H2, H3|].
    unfold lead3, cont in *. right.
    assert (224 ≤ b ≤ 239 ∧ 128 ≤ b1 ≤ 191 ∧ (b = 224 → 160 ≤ b1) ∧ 128 ≤ b2 ≤ 191) as (? & ? & ? & ?)
      by (boolean; lia).
    split; [lia|]. split; [split; [done|]; repeat constructor; lia|].
    intros Hr. assert (b = 226 ∧ b1 = 128 ∧ (b2 = 168 ∨ b2 = 169)) as (-> & -> & [-> | ->]) by lia; done. }
  destruct bs as [|b3 bs]; [done|]. destruct (lead4 b b1 && cont b2 && cont b3) eqn:H4; [|done].
  intros [= <- <- <-]. split; [done|]. split; [intros rest; simpl; by rewrite Hb, H2, H3, H4|].
  unfold lead4, cont in *. right.
  assert (240 ≤ b ≤ 244 ∧ 128 ≤ b1 ≤ 191 ∧ (b = 240 → 144 ≤ b1) ∧ 128 ≤ b2 ≤ 191 ∧ 128 ≤ b3 ≤ 191)
    as (? & ? & ? & ? & ?) by (boolean; lia).
  split; [lia|]. split; [split; [done|]; repeat constructor; lia|]. lia.
Qed.

Lemma next_chunk_length bs c rest :
  next_chunk bs = Some (c, rest) → (length rest < length bs)%nat.
Proof.
  destruct c as [r raw|b].
  - intros [-> [Hok _]]%next_chunk_rune. rewrite length_app.
    destruct raw as [|x raw]; [specialize (Hok []); done|simpl; lia].
  - unfold next_chunk. intros Hn. repeat (case_match; simplify_eq/=); lia.
Qed.

(** A text that is valid UTF-8: every chunk of it is a rune. *)
Definition utf8_valid (bs : bytes) : bool :=
  forallb (λ c, match c with Rune _ _ => true | Bad _ => false end) (chunks bs).

(** The chunks of a text, whatever the fuel that suffices. *)
Lemma chunks_fuel_enough n bs :
  (length bs ≤ n)%nat →
  chunks_fuel n bs = match next_chunk bs with Some (c, rest) => c :: chunks rest | None => [] end.
Proof.
  revert bs. induction n as [n IH] using lt_wf_ind. intros bs Hn. destruct n as [|n].
  { by destruct bs; [|simpl in Hn; lia]. }
  simpl. destruct (next_chunk bs) as [[c rest]|] eqn:Hc; [|done]. apply next_chunk_length in Hc.
  f_equal. unfold chunks. rewrite !(IH (length rest)), (IH n) by lia. done.
Qed.

Lemma chunks_eq bs :
  chunks bs = match next_chunk bs with Some (c, rest) => c :: chunks rest | None => [] end.
Proof. by apply chunks_fuel_enough. Qed.

(** Induction on a valid text, rune by rune. *)
Lemma utf8_ind (P : bytes → Prop) :
  P [] →
  (∀ r raw rest, rune_ok r raw → chunks (raw ++ rest) = Rune r raw :: chunks rest → P rest →
     P (raw ++ rest)) →
  ∀ bs, utf8_valid bs = true → P bs.
Proof.
  intros Hnil Hcons bs. induction bs as [bs IH] using (induction_ltof1 _ length). unfold ltof in IH.
  unfold utf8_valid. rewrite chunks_eq. destruct (next_chunk bs) as [[[r raw|b] rest]|] eqn:Hc; [|done|].
  - intros Hv. pose proof (next_chunk_length _ _ _ Hc) as Hlen.
    apply next_chunk_rune in Hc as [-> Hok]. apply (Hcons r); [done| |by apply IH].
    rewrite chunks_eq. by rewrite (proj1 Hok).
  - destruct bs as [|b bs]; [done|]. simpl in Hc. discriminate.
Qed.

(** What is quoted of one rune is read back as that rune, whatever follows. *)
Lemma unquote_fuel_more n m body s :
  unquote_fuel n body = Some s → (n ≤ m)%nat → unquote_fuel m body = Some s.
Proof.
  revert m body s. induction n as [|n IH]; intros m body s Hu Hm; simpl in Hu.
  { destruct body; [|done]. injection Hu as <-. by destruct m. }
  destruct m as [|m]; [lia|]. simpl.
  assert (Hmap : ∀ (f : bytes → bytes) r,
    f <$> unquote_fuel n r = Some s → f <$> unquote_fuel m r = Some s).
  { intros f r. rewrite !fmap_Some. intros (t & Ht & ->). exists t. split; [|done].
    apply (IH m); [done|lia]. }
  repeat match goal with
  | Hu : (?o ≫= _) = Some _ |- _ => destruct o eqn:?; simpl in *; [|discriminate]
  | _ => case_match; simplify_eq/=
  end; auto.
Qed.

Lemma hex_of_hex_byte d : 0 ≤ d < 16 → hex_of_byte (hex_byte d) = Some d.
Proof. intros Hd. unfold hex_of_byte, hex_byte. rewrite ascii_of_byte_of_ascii. by apply hex_value_digit. Qed.

Lemma hex4_u00 b : 0 ≤ b < 128 → hex4 48 48 (hex_byte (b / 16)) (hex_byte (b mod 16)) = Some b.
Proof.
  intros Hb. unfold hex4. change (hex_of_byte 48) with (Some 0). simpl.
  rewrite !hex_of_hex_byte; simpl.
  { f_equal. pose proof (Z.div_mod b 16). lia. }
  all: try (apply Z.mod_pos_bound; lia).
  all: split; [apply Z.div_pos; lia|apply Z.div_lt_upper_bound; lia].
Qed.

Lemma unquote_ascii b body s n :
  0 ≤ b < 128 → (∀ rest, next_chunk (b :: rest) = Some (Rune b [b], rest)) →
  unquote_fuel n body = Some s → unquote_fuel (S n) (quote_ascii b ++ body) = Some (b :: s).
Proof.
  intros Hb Hnext Hbody. unfold quote_ascii.
  destruct ((b =? 34) || (b =? 92)) eqn:H1.
  { boolean; subst; simpl; by rewrite Hbody. }
  destruct (b =? 8) eqn:H2; [boolean; subst; simpl; by rewrite Hbody|].
  destruct (b =? 12) eqn:H3; [boolean; subst; simpl; by rewrite Hbody|].
  destruct (b =? 10) eqn:H4; [boolean; subst; simpl; by rewrite Hbody|].
  destruct (b =? 13) eqn:H5; [boolean; subst; simpl; by rewrite Hbody|].
  destruct (b =? 9) eqn:H6; [boolean; subst; simpl; by rewrite Hbody|].
  destruct ((b <? 32) || (b =? 60) || (b =? 62) || (b =? 38)) eqn:H7.
  - unfold u00. cbn [app unquote_fuel Z.eqb Pos.eqb]. rewrite hex4_u00 by done. simpl.
    assert (between 55296 56319 b = false) as -> by (apply not_true_iff_false; rewrite between_spec; lia).
    rewrite Hbody. simpl. unfold encode_rune.
    by replace (between 0 127 b) with true by (symmetry; apply between_spec; lia).
  - apply orb_false_iff in H1 as [Hq Hs]. rewrite !orb_false_iff in H7. destruct H7 as [[[Hc _] _] _].
    cbn [app unquote_fuel]. rewrite Hs, Hq, Hc, Hnext. simpl. by rewrite Hbody.
Qed.

Lemma unquote_chunk r raw body s n :
  rune_ok r raw → bytes_ok raw → unquote_fuel n body = Some s →
  unquote_fuel (S n) (quote_chunk (Rune r raw) ++ body) = Some (raw ++ s).
Proof.
  intros [Hnext Hcase] Hok Hbody. unfold quote_chunk. destruct Hcase as [[-> Hr]|(Hr & Hhead & Henc)].
  - assert (0 ≤ r) by (inversion Hok as [|? ? Hb]; unfold byte_ok in Hb; lia).
    assert ((r <? 128) = true) as -> by lia. apply unquote_ascii; [lia|exact Hnext|done].
  - assert ((r <? 128) = false) as -> by lia.
    destruct ((r =? 8232) || (r =? 8233)) eqn:Hsep.
    + assert (r = 8232 ∨ r = 8233) as Hr' by (boolean; lia). rewrite (Henc Hr').
      destruct Hr' as [-> | ->]; cbn [app unquote_fuel Z.eqb Pos.eqb];
        (change (hex4 _ _ _ _) with (Some 8232) || change (hex4 _ _ _ _) with (Some 8233));
        simpl; by rewrite Hbody.
    + destruct Hhead as [Hne Hhigh]. destruct raw as [|b raw']; [done|].
      apply Forall_cons in Hhigh as [Hb _]. specialize (Hnext body).
      cbn [app unquote_fuel]. cbn [app] in Hnext. rewrite Hnext.
      assert ((b =? 92) = false) as -> by lia. assert ((b =? 34) || (b <? 32) = false) as -> by lia.
      simpl. by rewrite Hbody.
Qed.

Lemma quote_chunk_length c : (1 ≤ length (quote_chunk c))%nat ∨ ∃ r, c = Rune r [].
Proof.
  destruct c as [r [|b raw]|b]; simpl; [by right; exists r|left..]; [|lia].
  unfold quote_ascii, u00. repeat case_match; simpl; lia.
Qed.

(** What is quoted is read back: for every text of valid UTF-8, with quotation marks,
    backslashes, controls, the characters of HTML and the separators that are escaped
    for the sake of scripts. *)
Theorem unquote_quote (s : bytes) (Hok : bytes_ok s) (Hv : utf8_valid s = true) :
  unquote (quote s) = Some s.
Proof.
  unfold quote, unquote. rewrite Z.eqb_refl, last_snoc, bool_decide_eq_true_2 by done. simpl andb.
  rewrite length_app, Nat.add_sub. cbn [length]. rewrite take_app_length. unfold unquote_body.
  set (body := concat (quote_chunk <$> chunks s)).
  assert (∃ n, (n ≤ length body)%nat ∧ unquote_fuel n body = Some s) as (n & Hn & Hu).
  { subst body. revert s Hv Hok. apply (utf8_ind (λ s, bytes_ok s → ∃ n,
      (n ≤ length (concat (quote_chunk <$> chunks s)))%nat ∧
      unquote_fuel n (concat (quote_chunk <$> chunks s)) = Some s)).
    - intros _. by exists 0%nat.
    - intros r raw rest Hr Hchunks IH Hok. apply Forall_app in Hok as [Hraw Hrest].
      destruct (IH Hrest) as (n & Hn & Hu). exists (S n). rewrite Hchunks, fmap_cons. cbn [concat].
      split; [|by apply unquote_chunk].
      rewrite length_app. destruct (quote_chunk_length (Rune r raw)) as [Hl|(r' & Heq)]; [lia|].
      injection Heq as -> ->. destruct Hr as [Hnext _]. by specialize (Hnext []). }
  by apply (unquote_fuel_more n).
Qed.
