(* ===== verification/JsonScan.v ===== *)
(** The values of JSON as texts: the scanner of [encoding/json], a machine that takes a
    byte at a time and keeps the stack of the arrays and objects that are open, and what
    is delimited with it, the next value of a text and the parts of an array or an object.

    The main lemmas: a value keeps the machine's stack wherever it is placed ([run_frame]), so
    it is delimited whatever follows it ([next_value_of]), and arrays and objects
    of values are values that split into them ([array_value], [elements_of], [object_value], [members_of]). *)

From S2P Require Import Prelude GoLib JsonText.

(** ** The machine *)

Inductive scan_state :=
  | BeginValue | BeginValueOrEmpty | BeginString | BeginStringOrEmpty
  | EndValue
  | Closed                        (** the bracket that closes the whole value was read *)
  | Over                          (** the byte read is already after the value *)
  | InString | InStringEsc | EscU (digits : nat)
  | Neg | One | Zero | Dot | Dot0 | Exp_ | ExpSign | Exp0
  | Literal (name : string) (rest : bytes)
  | Failed.

(** What is open: an object before or after the colon of a member, or an array. *)
Inductive frame := ObjectKey | ObjectValue | ArrayValue.

#[export] Instance scan_state_eq_dec : EqDecision scan_state.
Proof. solve_decision. Defined.
#[export] Instance frame_eq_dec : EqDecision frame.
Proof. solve_decision. Defined.

Abbreviation scanner := (scan_state * list frame)%type.

Definition is_space (b : Z) : bool := (b =? 32) || (b =? 9) || (b =? 10) || (b =? 13).
Definition is_digit (b : Z) : bool := between 48 57 b.
Definition is_hex (b : Z) : bool := between 48 57 b || between 97 102 b || between 65 70 b.

Definition maxNestingDepth : nat := 10000.
#[global] Arguments maxNestingDepth : simpl never.

Section Step.
(** How many may be open at once. *)
Variable limit : nat.

Definition push (s : scan_state) (f : frame) (st : list frame) : scanner :=
  if (length st <? limit)%nat then (s, f :: st) else (Failed, st).

Definition pop (st : list frame) : scanner :=
  match st with
  | [] => (Failed, [])
  | [_] => (Closed, [])
  | _ :: st => (EndValue, st)
  end.

Definition begin_value (b : Z) (st : list frame) : scanner :=
  if is_space b then (BeginValue, st)
  else if b =? 123 then push BeginStringOrEmpty ObjectKey st
  else if b =? 91 then push BeginValueOrEmpty ArrayValue st
  else if b =? 34 then (InString, st)
  else if b =? 45 then (Neg, st)
  else if b =? 48 then (Zero, st)
  else if b =? 116 then (Literal "true" (string_bytes "rue"), st)
  else if b =? 102 then (Literal "false" (string_bytes "alse"), st)
  else if b =? 110 then (Literal "null" (string_bytes "ull"), st)
  else if between 49 57 b then (One, st)
  else (Failed, st).

Definition begin_string (b : Z) (st : list frame) : scanner :=
  if is_space b then (BeginString, st) else if b =? 34 then (InString, st) else (Failed, st).

Definition end_value (b : Z) (st : list frame) : scanner :=
  match st with
  | [] => (Over, [])
  | f :: st' =>
      if is_space b then (EndValue, st)
      else
        match f with
        | ObjectKey => if b =? 58 then (BeginValue, ObjectValue :: st') else (Failed, st)
        | ObjectValue =>
            if b =? 44 then (BeginString, ObjectKey :: st')
            else if b =? 125 then pop st else (Failed, st)
        | ArrayValue =>
            if b =? 44 then (BeginValue, st) else if b =? 93 then pop st else (Failed, st)
        end
  end.

Definition step (sc : scanner) (b : Z) : scanner :=
  let '(s, st) := sc in
  match s with
  | BeginValue => begin_value b st
  | BeginValueOrEmpty =>
      if is_space b then (s, st) else if b =? 93 then end_value b st else begin_value b st
  | BeginString => begin_string b st
  | BeginStringOrEmpty =>
      if is_space b then (s, st)
      else if b =? 125 then
        match st with
        | _ :: st' => end_value b (ObjectValue :: st')
        | [] => (Failed, st)
        end
      else begin_string b st
  | EndValue => end_value b st
  | InString =>
      if b =? 34 then (EndValue, st) else if b =? 92 then (InStringEsc, st)
      else if b <? 32 then (Failed, st) else (InString, st)
  | InStringEsc =>
      if b =? 117 then (EscU 0, st)
      else match escaped b with Some _ => (InString, st) | None => (Failed, st) end
  | EscU n =>
      if is_hex b then (if (n =? 3)%nat then InString else EscU (S n), st) else (Failed, st)
  | Neg => if b =? 48 then (Zero, st) else if between 49 57 b then (One, st) else (Failed, st)
  | One =>
      if is_digit b then (One, st)
      else if b =? 46 then (Dot, st)
      else if (b =? 101) || (b =? 69) then (Exp_, st) else end_value b st
  | Zero =>
      if b =? 46 then (Dot, st)
      else if (b =? 101) || (b =? 69) then (Exp_, st) else end_value b st
  | Dot => if is_digit b then (Dot0, st) else (Failed, st)
  | Dot0 =>
      if is_digit b then (Dot0, st)
      else if (b =? 101) || (b =? 69) then (Exp_, st) else end_value b st
  | Exp_ =>
      if (b =? 43) || (b =? 45) then (ExpSign, st)
      else if is_digit b then (Exp0, st) else (Failed, st)
  | ExpSign => if is_digit b then (Exp0, st) else (Failed, st)
  | Exp0 => if is_digit b then (Exp0, st) else end_value b st
  | Literal name rest =>
      match rest with
      | x :: rest' =>
          if b =? x
          then (match rest' with [] => EndValue | _ => Literal name rest' end, st)
          else (Failed, st)
      | [] => (Failed, st)
      end
  | Closed | Over | Failed => (Failed, st)
  end.

Definition run (sc : scanner) (bs : bytes) : scanner := foldl step sc bs.

(** What stopped the scanner before the end of the value. *)
Inductive scan_error := BadByte (b : Z) (at_ : scanner) | Truncated.

(** The rest of the value that the machine is in, and what follows it. At the end of the
    text the machine is given a space. *)
Fixpoint take_value (sc : scanner) (bs : bytes) : result scan_error (bytes * bytes) :=
  match bs with
  | [] => if decide ((step sc 32).1 = Over) then Ok ([], []) else Err Truncated
  | b :: r =>
      let sc' := step sc b in
      match sc'.1 with
      | Over => Ok ([], bs)
      | Closed => Ok ([b], r)
      | Failed => Err (BadByte b sc)
      | _ => '(v, rest) ← take_value sc' r; Ok (b :: v, rest)
      end
  end.
End Step.

Fixpoint skip_spaces (bs : bytes) : bytes :=
  match bs with
  | b :: r => if is_space b then skip_spaces r else bs
  | [] => []
  end.

(** The next value of a text, without the white space before it, and what follows it. *)
Definition next_value (bs : bytes) : result scan_error (bytes * bytes) :=
  take_value maxNestingDepth (BeginValue, []) (skip_spaces bs).

(** A whole text with one value in it, as [json.Unmarshal] demands. *)
Definition only_value (bs : bytes) : result scan_error bytes :=
  '(v, rest) ← next_value bs;
  match skip_spaces rest with
  | [] => Ok v
  | b :: _ => Err (BadByte b (Over, []))
  end.

(** ** The parts of an array and of an object *)

Definition next_part (bs : bytes) : option (bytes * bytes) :=
  match next_value bs with
  | Ok (v, rest) => Some (v, skip_spaces rest)
  | Err _ => None
  end.

(** After the bracket or a comma; every part takes a byte at least. *)
Fixpoint elements_fuel (fuel : nat) (bs : bytes) : option (list bytes) :=
  match fuel with
  | O => None
  | S fuel =>
      '(v, rest) ← next_part bs;
      match rest with
      | 44 :: rest => cons v <$> elements_fuel fuel rest
      | 93 :: _ => Some [v]
      | _ => None
      end
  end.

Definition elements (raw : bytes) : option (list bytes) :=
  match raw with
  | 91 :: r => match skip_spaces r with 93 :: _ => Some [] | r => elements_fuel (length r) r end
  | _ => None
  end.

Fixpoint members_fuel (fuel : nat) (bs : bytes) : option (list (bytes * bytes)) :=
  match fuel with
  | O => None
  | S fuel =>
      '(k, rest) ← next_part bs;
      match rest with
      | 58 :: rest =>
          '(v, rest) ← next_part rest;
          match rest with
          | 44 :: rest => cons (k, v) <$> members_fuel fuel rest
          | 125 :: _ => Some [(k, v)]
          | _ => None
          end
      | _ => None
      end
  end.

Definition members (raw : bytes) : option (list (bytes * bytes)) :=
  match raw with
  | 123 :: r => match skip_spaces r with 125 :: _ => Some [] | r => members_fuel (length r) r end
  | _ => None
  end.

Example members_ex :
  members (string_bytes "{ }") = Some [] ∧
  elements (string_bytes "[1, [true,null ] ,{}]") =
    Some (string_bytes <$> ["1"; "[true,null ]"; "{}"]).
Proof. by vm_compute. Qed.

(** ** Values, wherever they stand *)

(** States in which a value is complete, and may be a number that goes on. *)
Definition settled (s : scan_state) : bool :=
  match s with EndValue | One | Zero | Dot0 | Exp0 => true | _ => false end.

(** A value with no white space around it, that opens [limit] at most. *)
Definition is_value (limit : nat) (v : bytes) : bool :=
  match run limit (BeginValue, []) v with
  | (s, []) => settled s || bool_decide (s = Closed)
  | _ => false
  end && match v with b :: _ => negb (is_space b) | [] => false end.

(** What may stand after a value. *)
Definition delimits (b : Z) : bool :=
  is_space b || (b =? 44) || (b =? 58) || (b =? 93) || (b =? 125).

Definition delimited (rest : bytes) : Prop := ∀ b r, rest = b :: r → delimits b = true.

Fixpoint join (sep : Z) (l : list bytes) : bytes :=
  match l with
  | [] => []
  | x :: l => match l with [] => x | _ => x ++ sep :: join sep l end
  end.

Definition array (vs : list bytes) : bytes := 91 :: join 44 vs ++ [93].
Definition member (m : bytes * bytes) : bytes := quote m.1 ++ 58 :: m.2.
Definition object (ms : list (bytes * bytes)) : bytes := 123 :: join 44 (member <$> ms) ++ [125].

(** Inside something that is open, a closing bracket is not the end. *)
Definition inside (bot : list frame) (s : scan_state) : scan_state :=
  match s, bot with Closed, _ :: _ => EndValue | _, _ => s end.

Definition goes_on (s : scan_state) : Prop := s ≠ Failed ∧ s ≠ Over.

Lemma run_app L sc v w : run L sc (v ++ w) = run L (run L sc v) w.
Proof. apply foldl_app. Qed.

Lemma run_cons L sc b v : run L sc (b :: v) = run L (step L sc b) v.
Proof. done. Qed.

Lemma run_stuck L v st : run L (Failed, st) v = (Failed, st).
Proof. induction v; [done|]. by rewrite run_cons. Qed.

Lemma run_from L v s st s' st' :
  run L (s, st) v = (s', st') → goes_on s' → (s = Closed ∨ s = Failed ∨ s = Over) → v = [].
Proof.
  destruct v as [|b v]; [done|]. intros Hr [Hf _] Hs. exfalso. apply Hf. rewrite run_cons in Hr.
  destruct Hs as [-> | [-> | ->]]; cbn [step] in Hr; rewrite run_stuck in Hr; congruence.
Qed.

Section Frame.
Variables (L L' : nat) (bot : list frame).
Hypothesis Hdepth : (L + length bot ≤ L')%nat.

Lemma push_frame s f st s' st' :
  push L s f st = (s', st') → goes_on s' → push L' s f (st ++ bot) = (s', st' ++ bot).
Proof.
  unfold push. rewrite length_app. destruct (length st <? L)%nat eqn:Hl.
  - intros [= <- <-] _. apply Nat.ltb_lt in Hl.
    by replace (length st + length bot <? L')%nat with true by (symmetry; apply Nat.ltb_lt; lia).
  - by intros [= <- <-] [[] _].
Qed.

Lemma pop_frame st s' st' :
  pop st = (s', st') → goes_on s' → pop (st ++ bot) = (inside bot s', st' ++ bot).
Proof.
  destruct st as [|f [|g st]]; simpl; intros [= <- <-]; [by intros [[] _]|..]; intros _.
  - by destruct bot.
  - done.
Qed.

Lemma end_value_frame b st s' st' :
  end_value b st = (s', st') → goes_on s' → end_value b (st ++ bot) = (inside bot s', st' ++ bot).
Proof.
  unfold end_value. destruct st as [|f st]; [by intros [= <- <-] [_ []]|]. cbn [app].
  destruct (is_space b); [by intros [= <- <-]|].
  destruct f; repeat case_match; try (by intros [= <- <-] [[] _]); try (by intros [= <- <-] _);
    intros Hp Hg; by apply (pop_frame (_ :: st)).
Qed.

Lemma begin_value_frame b st s' st' :
  begin_value L b st = (s', st') → goes_on s' →
  begin_value L' b (st ++ bot) = (inside bot s', st' ++ bot).
Proof.
  unfold begin_value. repeat case_match; try (by intros [= <- <-]);
    intros Hp Hg; rewrite (push_frame _ _ _ _ _ Hp Hg); unfold push in Hp; case_match; simplify_eq; done.
Qed.

Lemma begin_string_frame b st s' st' :
  begin_string b st = (s', st') → goes_on s' →
  begin_string b (st ++ bot) = (inside bot s', st' ++ bot).
Proof. unfold begin_string. intros Hs [Hf _]. repeat case_match; simplify_eq; done. Qed.

Lemma step_frame s st b s' st' :
  step L (s, st) b = (s', st') → goes_on s' →
  step L' (s, st ++ bot) b = (inside bot s', st' ++ bot).
Proof.
  assert (Hin : ∀ s st, (s, st) = (s', st') → s ≠ Closed → (s, st ++ bot) = (inside bot s', st' ++ bot)).
  { intros ? ? [= <- <-]. by destruct s0. }
  intros Hs Hg. destruct s; cbn [step] in *;
    repeat match goal with
    | H : (if ?c then (_, _) else _) = _ |- _ => destruct c
    | H : (if ?c then _ _ else _) = _ |- _ => destruct c
    end;
    try first
      [ by apply begin_value_frame | by apply begin_string_frame | by apply end_value_frame
      | apply Hin; [done|by repeat case_match]
      | by (injection Hs as <- <-; destruct Hg as [[] _]) ].
  - destruct (b =? 125); [|by apply begin_string_frame].
    destruct st as [|f st]; [by injection Hs as <- <-; destruct Hg as [[] _]|].
    by apply (end_value_frame b (ObjectValue :: st)).
  - destruct rest as [|x rest]; [by injection Hs as <- <-; destruct Hg as [[] _]|].
    destruct (b =? x); [|by injection Hs as <- <-; destruct Hg as [[] _]].
    apply Hin; [done|by destruct rest].
Qed.

(** A run that stays above a stack runs the same upon any other. *)
Lemma run_frame v s st s' st' :
  run L (s, st) v = (s', st') → goes_on s' → s ≠ Closed →
  run L' (s, st ++ bot) v = (inside bot s', st' ++ bot).
Proof.
  revert s st. induction v as [|b v IH]; intros s st Hr Hg Hs.
  { injection Hr as -> ->. by destruct s', bot. }
  rewrite run_cons in *. destruct (step L (s, st) b) as [s1 st1] eqn:Hstep.
  destruct (decide (s1 = Closed ∨ s1 = Failed ∨ s1 = Over)) as [Hstop|Hgo].
  - assert (v = []) as -> by by eapply run_from. injection Hr as -> ->. cbn [run foldl].
    by apply step_frame.
  - assert (goes_on s1) as Hg1 by (split; intros ->; tauto).
    rewrite (step_frame _ _ _ _ _ Hstep Hg1).
    replace (inside bot s1) with s1 by (destruct s1; try done; tauto). apply IH; [done|done|]. tauto.
Qed.
End Frame.

(** A value runs from the beginning of one to its end, upon any stack. *)
Lemma value_runs L L' v bot :
  is_value L v = true → (L + length bot ≤ L')%nat →
  ∃ s, run L' (BeginValue, bot) v = (s, bot) ∧
       (settled s = true ∨ s = Closed ∧ bot = []).
Proof.
  intros Hv Hl. unfold is_value in Hv. apply andb_true_iff in Hv as [Hv _].
  destruct (run L (BeginValue, []) v) as [s [|]] eqn:Hr; [|done].
  assert (goes_on s) as Hg by (split; intros ->; by vm_compute in Hv).
  exists (inside bot s). split; [by apply (run_frame L L' bot Hl v BeginValue [] s [] Hr Hg)|].
  apply orb_true_iff in Hv as [Hs|Hs%bool_decide_eq_true]; [left|subst s].
  - by destruct s.
  - destruct bot; [by right|by left].
Qed.

Lemma value_head L v : is_value L v = true → ∃ b v', v = b :: v' ∧ is_space b = false ∧ b ≠ 93 ∧ b ≠ 125.
Proof.
  unfold is_value. rewrite andb_true_iff. intros [Hv Hs]. destruct v as [|b v]; [done|].
  exists b, v. split; [done|]. split; [by destruct (is_space b)|]. rewrite run_cons in Hv.
  split; intros ->; change (step L (BeginValue, []) _) with (Failed, @nil frame) in Hv;
    by rewrite run_stuck in Hv.
Qed.

Lemma value_mono L L' v : is_value L v = true → (L ≤ L')%nat → is_value L' v = true.
Proof.
  intros Hv Hl. pose proof Hv as Hv'. unfold is_value in Hv |- *.
  destruct (value_runs L L' v [] Hv' ltac:(simpl; lia)) as (s & -> & Hs).
  apply andb_true_iff in Hv as [_ ->]. rewrite andb_true_r.
  destruct Hs as [->|[-> _]]; [done|]. by vm_compute.
Qed.

Lemma delimits_end L s b st :
  settled s = true → delimits b = true → step L (s, st) b = end_value b st.
Proof.
  intros Hs Hb. assert (b ∈ [32; 9; 10; 13; 44; 58; 93; 125]) as Hin.
  { unfold delimits, is_space in Hb. rewrite !orb_true_iff, !Z.eqb_eq in Hb. set_solver. }
  clear Hb. repeat (apply elem_of_cons in Hin as [->|Hin]; [by destruct s|]). set_solver.
Qed.

(** Taking a value from a text is running over it. *)
Lemma take_run L v rest : ∀ s st s' st',
  run L (s, st) v = (s', st') → goes_on s' → s ≠ Closed → s ≠ Over →
  take_value L (s, st) (v ++ rest) =
  if decide (s' = Closed) then Ok (v, rest)
  else '(w, rest') ← take_value L (s', st') rest; Ok (v ++ w, rest').
Proof.
  induction v as [|b v IH]; intros s st s' st' Hr Hg Hc Ho.
  { injection Hr as <- <-. rewrite decide_False by done. cbn [app]. by destruct (take_value _ _ _) as [[]|]. }
  rewrite run_cons in Hr. cbn [app take_value]. destruct (step L (s, st) b) as [s1 st1] eqn:Hstep.
  cbn [fst]. destruct (decide (s1 = Closed ∨ s1 = Failed ∨ s1 = Over)) as [Hstop|Hgo].
  - assert (v = []) as -> by by eapply run_from. injection Hr as -> ->. destruct Hg.
    destruct Hstop as [-> | [-> | ->]]; done.
  - rewrite (IH s1 st1 s' st') by (done || tauto).
    destruct s1; try tauto; (case_decide; [done|]); by destruct (take_value _ _ rest) as [[]|].
Qed.

Lemma take_settled L s rest :
  settled s = true → delimited rest → take_value L (s, []) rest = Ok ([], rest).
Proof.
  intros Hs Hr. destruct rest as [|b r]; cbn [take_value]; rewrite delimits_end by eauto; done.
Qed.

(** A value is delimited whatever follows it. *)
Lemma next_value_of v rest :
  is_value maxNestingDepth v = true → delimited rest → next_value (v ++ rest) = Ok (v, rest).
Proof.
  intros Hv Hr. unfold next_value.
  destruct (value_head _ _ Hv) as (b & v' & Heq & Hb & _).
  assert (skip_spaces (v ++ rest) = v ++ rest) as -> by (rewrite Heq; simpl; by rewrite Hb).
  destruct (value_runs maxNestingDepth maxNestingDepth v [] Hv ltac:(cbn [length]; lia)) as (s & Hrun & Hs).
  assert (goes_on s) as Hg by (split; intros ->; destruct Hs as [|[]]; done).
  rewrite (take_run _ _ _ _ _ _ _ Hrun Hg) by done. case_decide as Hc; [done|].
  destruct Hs as [Hs|[? _]]; [|done]. rewrite (take_settled _ _ _ Hs Hr). cbn. by rewrite app_nil_r.
Qed.

Lemma only_value_of v : is_value maxNestingDepth v = true → only_value v = Ok v.
Proof.
  intros Hv. unfold only_value. rewrite <-(app_nil_r v) at 1. rewrite next_value_of by done. done.
Qed.

Lemma next_part_of v b rest :
  is_value maxNestingDepth v = true → delimits b = true → is_space b = false →
  next_part (v ++ b :: rest) = Some (v, b :: rest).
Proof.
  intros Hv Hd Hb. unfold next_part. rewrite next_value_of by (try done; intros ?? [= <- <-]; done).
  simpl. by rewrite Hb.
Qed.

(** ** Strings *)

Lemma run_inside_string L st c :
  (∀ r raw, c = Rune r raw → rune_ok r raw ∧ bytes_ok raw) →
  run L (InString, st) (quote_chunk c) = (InString, st).
Proof.
  intros Hok. destruct c as [r raw|b]; [|done]. destruct (Hok r raw eq_refl) as [[_ Hr] Hbytes].
  unfold quote_chunk. destruct Hr as [[-> Hr]|(Hr & [_ Hhigh] & _)].
  - assert (0 ≤ r) by (inversion Hbytes as [|? ? Hb]; unfold byte_ok in Hb; lia).
    assert ((r <? 128) = true) as -> by lia. clear Hok Hbytes.
    assert (r ∈ seqZ 0 128) as Hin by (apply elem_of_seqZ; lia). clear Hr H. revert r Hin.
    apply (Forall_forall (λ r, run L (InString, st) (quote_ascii r) = (InString, st))).
    vm_compute seqZ. repeat (constructor; [reflexivity|]). constructor.
  - assert ((r <? 128) = false) as -> by lia. destruct ((r =? 8232) || (r =? 8233)) eqn:Hs.
    + boolean; subst; done.
    + clear -Hhigh. induction Hhigh as [|b raw Hb _ IH]; [done|]. rewrite run_cons. cbn [step].
      assert ((b =? 34) = false) as -> by lia. assert ((b =? 92) = false) as -> by lia.
      assert ((b <? 32) = false) as -> by lia. done.
Qed.

Lemma run_quoted L s st k :
  bytes_ok k → s = BeginValue ∨ s = BeginString ∨ s = BeginStringOrEmpty →
  run L (s, st) (quote k) = (EndValue, st).
Proof.
  intros Hk Hs. unfold quote. rewrite run_cons, run_app.
  assert (step L (s, st) 34 = (InString, st)) as -> by by destruct Hs as [-> | [-> | ->]].
  assert (run L (InString, st) (concat (quote_chunk <$> chunks k)) = (InString, st)) as ->; [|done].
  revert Hk. induction k as [k IH] using (induction_ltof1 _ length). unfold ltof in IH. intros Hk.
  rewrite chunks_eq. destruct (next_chunk k) as [[c rest]|] eqn:Hc; [|done].
  rewrite fmap_cons. cbn [concat]. rewrite run_app, run_inside_string.
  - apply IH; [by eapply next_chunk_length|].
    destruct c as [r raw|b]; [apply next_chunk_rune in Hc as [-> _]; by apply Forall_app in Hk as [_ ?]|].
    revert Hk Hc. unfold next_chunk. intros Hk Hc.
    repeat (case_match; simplify_eq/=); by apply Forall_cons in Hk as [_ ?].
  - intros r raw ->. apply next_chunk_rune in Hc as [-> ?]. by apply Forall_app in Hk as [? _].
Qed.

Lemma quoted_value L k : bytes_ok k → is_value L (quote k) = true.
Proof. intros Hk. unfold is_value. by rewrite run_quoted by auto. Qed.

(** ** Arrays and objects of values *)

(** A value inside something open, and the byte that ends it. *)
Lemma value_then L L' v f st b :
  is_value L v = true → (L + S (length st) ≤ L')%nat → delimits b = true →
  run L' (BeginValue, f :: st) (v ++ [b]) = end_value b (f :: st).
Proof.
  intros Hv Hl Hb. destruct (value_runs L L' v (f :: st) Hv Hl) as (s & Hrun & [Hs|[_ ?]]); [|done].
  rewrite run_app, Hrun. cbn [run foldl]. by apply delimits_end.
Qed.

Lemma join_cons sep x y l : join sep (x :: y :: l) = x ++ [sep] ++ join sep (y :: l).
Proof. done. Qed.

Lemma value_or_empty L v st :
  is_value L v = true → ∀ rest, run L (BeginValueOrEmpty, st) (v ++ rest) = run L (BeginValue, st) (v ++ rest).
Proof.
  intros (b & v' & -> & Hs & Hb & _)%value_head rest. cbn [app]. rewrite !run_cons. cbn [step].
  rewrite Hs. by replace (b =? 93) with false by lia.
Qed.

(** Opening what holds nothing deeper than [L]. *)
Lemma run_elements L st vs :
  vs ≠ [] → Forall (λ v, is_value L v = true) vs →
  run (S L + length st) (BeginValue, ArrayValue :: st) (join 44 vs ++ [93]) = pop (ArrayValue :: st).
Proof.
  intros Hne. induction 1 as [|v vs Hv _ IH]; [done|]. destruct vs as [|v' vs].
  - cbn [join]. by rewrite (value_then L) by (done || lia).
  - rewrite join_cons, <-!app_assoc, app_assoc, run_app.
    rewrite (value_then L) by (done || lia). by apply IH.
Qed.

Lemma array_value L vs :
  Forall (λ v, is_value L v = true) vs → is_value (S L) (array vs) = true.
Proof.
  intros Hvs. unfold is_value, array. rewrite andb_true_r, run_cons.
  assert (step (S L) (BeginValue, []) 91 = (BeginValueOrEmpty, [ArrayValue])) as -> by done.
  destruct vs as [|v vs]; [by vm_compute|].
  assert (∃ rest, join 44 (v :: vs) ++ [93] = v ++ rest) as [rest Heq].
  { destruct vs; [by eexists|]. rewrite join_cons, <-app_assoc. by eexists. }
  pose proof (run_elements L [] (v :: vs) ltac:(done) Hvs) as Hrun.
  rewrite Heq in *. rewrite (value_or_empty (S L)).
  - rewrite Nat.add_0_r in Hrun. rewrite Hrun. by vm_compute.
  - apply Forall_cons in Hvs as [Hv _]. eapply value_mono; [done|lia].
Qed.

Definition member_ok (L : nat) (m : bytes * bytes) : Prop :=
  bytes_ok m.1 ∧ is_value L m.2 = true.

Lemma member_then L s m f st b :
  member_ok L m → s = BeginString ∨ s = BeginStringOrEmpty → delimits b = true →
  run (S L + length st) (s, ObjectKey :: st) (member m ++ b :: f) =
  run (S L + length st) (end_value b (ObjectValue :: st)) f.
Proof.
  intros [Hk Hv] Hs Hb. unfold member. rewrite <-app_assoc, run_app, run_quoted by (done || tauto).
  cbn [app]. rewrite run_cons. cbn [step end_value is_space Z.eqb Pos.eqb orb].
  change (b :: f) with ([b] ++ f). rewrite app_assoc, run_app. by rewrite (value_then L) by (done || lia).
Qed.

Lemma run_members L st ms s :
  ms ≠ [] → Forall (member_ok L) ms → s = BeginString ∨ s = BeginStringOrEmpty →
  run (S L + length st) (s, ObjectKey :: st) (join 44 (member <$> ms) ++ [125]) = pop (ObjectValue :: st).
Proof.
  intros Hne Hms. revert s. induction Hms as [|m ms Hm _ IH]; [done|]. intros s Hs.
  destruct ms as [|m' ms].
  - cbn [join fmap list_fmap]. rewrite (member_then L) by done. done.
  - rewrite !fmap_cons, join_cons, <-!app_assoc. cbn [app]. rewrite (member_then L) by done.
    apply IH; [done|]. by left.
Qed.

Lemma object_value L ms : Forall (member_ok L) ms → is_value (S L) (object ms) = true.
Proof.
  intros Hms. unfold is_value, object. rewrite andb_true_r, run_cons.
  assert (step (S L) (BeginValue, []) 123 = (BeginStringOrEmpty, [ObjectKey])) as -> by done.
  destruct ms as [|m ms]; [by vm_compute|].
  pose proof (run_members L [] (m :: ms) BeginStringOrEmpty) as Hrun. rewrite Nat.add_0_r in Hrun.
  rewrite Hrun by (done || by right). by vm_compute.
Qed.

(** *** Splitting them again *)

Lemma elements_fuel_of n vs :
  vs ≠ [] → (length vs ≤ n)%nat → Forall (λ v, is_value maxNestingDepth v = true) vs →
  elements_fuel n (join 44 vs ++ [93]) = Some vs.
Proof.
  intros Hne. revert vs Hne. induction n as [|n IH]; intros [|v vs] Hne Hn Hvs; try (done || (simpl in Hn; lia)).
  apply Forall_cons in Hvs as [Hv Hvs]. cbn [elements_fuel]. destruct vs as [|v' vs].
  - cbn [join]. by rewrite next_part_of.
  - rewrite join_cons, <-!app_assoc. cbn [app]. rewrite next_part_of by done. cbn -[join elements_fuel].
    rewrite IH by (done || (simpl in *; lia)). done.
Qed.

Lemma length_join sep vs : Forall (λ v, v ≠ []) vs → (length vs ≤ length (join sep vs))%nat.
Proof.
  induction 1 as [|v vs Hv _ IH]; [done|]. destruct v as [|b v]; [done|].
  destruct vs as [|v' vs]; [simpl; lia|]. rewrite join_cons, !length_app. simpl in *. lia.
Qed.

Lemma skip_spaces_head b bs : is_space b = false → skip_spaces (b :: bs) = b :: bs.
Proof. intros Hb. simpl. by rewrite Hb. Qed.

Lemma elements_of vs :
  Forall (λ v, is_value maxNestingDepth v = true) vs → elements (array vs) = Some vs.
Proof.
  intros Hvs. unfold elements, array. destruct vs as [|v vs]; [done|].
  assert (Hlen : (length (v :: vs) ≤ length (join 44 (v :: vs) ++ [93%Z]))%nat).
  { rewrite length_app. etrans; [apply (length_join 44)|lia].
    eapply Forall_impl; [done|]. by intros [|] Hv. }
  assert (∃ b t, join 44 (v :: vs) ++ [93] = b :: t ∧ is_space b = false ∧ b ≠ 93) as (b & t & Heq & Hs & Hb).
  { apply Forall_cons in Hvs as [(b & v' & -> & Hb & Hb' & _)%value_head _].
    destruct vs; [|rewrite join_cons, <-app_assoc]; do 2 eexists; split_and!; done. }
  pose proof (elements_fuel_of _ (v :: vs) ltac:(done) Hlen Hvs) as Hel.
  rewrite Heq in *. rewrite skip_spaces_head, <-Hel by done. by repeat case_match.
Qed.

Lemma members_fuel_of n ms :
  ms ≠ [] → (length ms ≤ n)%nat → Forall (member_ok maxNestingDepth) ms →
  members_fuel n (join 44 (member <$> ms) ++ [125]) = Some ((λ m, (quote m.1, m.2)) <$> ms).
Proof.
  intros Hne. revert ms Hne. induction n as [|n IH]; intros [|m ms] Hne Hn Hms; try (done || (simpl in Hn; lia)).
  apply Forall_cons in Hms as [[Hk Hv] Hms]. cbn [members_fuel].
  assert (Hkey : ∀ rest, next_part (quote m.1 ++ 58 :: rest) = Some (quote m.1, 58 :: rest))
    by (intros; apply next_part_of; [by apply quoted_value|done|done]).
  destruct ms as [|m' ms].
  - cbn [join fmap list_fmap]. unfold member. rewrite <-app_assoc. cbn [app]. rewrite Hkey. cbn -[next_part].
    by rewrite next_part_of.
  - rewrite !fmap_cons, join_cons, <-!app_assoc. unfold member at 1. rewrite <-app_assoc. cbn [app].
    rewrite Hkey. cbn -[join members_fuel]. rewrite next_part_of by done. cbn -[join members_fuel fmap member].
    trans (cons (quote m.1, m.2) <$> members_fuel n (join 44 (member <$> m' :: ms) ++ [125])); [done|].
    rewrite (IH (m' :: ms)) by (done || (simpl in *; lia)). done.
Qed.

Lemma members_of ms :
  Forall (member_ok maxNestingDepth) ms → members (object ms) = Some ((λ m, (quote m.1, m.2)) <$> ms).
Proof.
  intros Hms. unfold members, object. destruct ms as [|m ms]; [done|].
  assert (Hlen : (length (m :: ms) ≤ length (join 44 (member <$> m :: ms) ++ [125%Z]))%nat).
  { rewrite length_app, <-(length_fmap member). etrans; [apply (length_join 44)|lia].
    apply Forall_fmap, Forall_true. by intros. }
  pose proof (members_fuel_of _ (m :: ms) ltac:(done) Hlen Hms) as Hel.
  assert (∃ t, join 44 (member <$> m :: ms) ++ [125] = 34 :: t) as (t & Heq).
  { rewrite fmap_cons. destruct (member <$> ms); [|rewrite join_cons, <-app_assoc]; by eexists. }
  rewrite Heq in *. by rewrite skip_spaces_head.
Qed.
