(* ===== verification/Codec.v ===== *)
(** The codec of [rpc/json.go]: how a JSON-RPC message is written and read, a batch of them, and the
    positional arguments of a call. What [encoding/json] does with the texts is
    written out over the scanner of JsonScan: marshalling a message, decoding into its
    fields by name, and the [Decoder] that goes from token to token. *)

From S2P Require Import Prelude GoLib Errors Rpc JsonText JsonScan.

(** ** The errors of [encoding/json] *)

Inductive json_error :=
  | Eof                                       (** [io.EOF] *)
  | UnexpectedEof                             (** [io.ErrUnexpectedEOF] *)
  | EndOfInput                                (** what [Unmarshal] says of a text cut short *)
  | SyntaxError (b : Z) (at_ : scanner)
  | BadToken (msg : string)
  | TypeError (value type : string) (field : option string).

(** 39 is the apostrophe. *)
Definition squoted (s : string) : string := bytes_string [39] +:+ s +:+ bytes_string [39].

Definition hex_pair (b : Z) : string := bytes_string [hex_byte (b / 16); hex_byte (b mod 16)].

(** [quoteChar]: as [strconv.Quote] writes the rune of the byte. *)
Definition quoteChar (b : Z) : string :=
  squoted
    (if b =? 39 then bytes_string [92; 39]
     else if b =? 92 then bytes_string [92; 92]
     else if b =? 7 then "\a" else if b =? 8 then "\b" else if b =? 12 then "\f"
     else if b =? 10 then "\n" else if b =? 13 then "\r" else if b =? 9 then "\t"
     else if b =? 11 then "\v"
     else if (b <? 32) || (b =? 127) then "\x" +:+ hex_pair b
     else if b <? 127 then bytes_string [b]
     else if (b <? 161) || (b =? 173) then "\u00" +:+ hex_pair b
     else bytes_string (encode_rune b)).

(** What the scanner says of a byte, from the state it was in. *)
Definition scan_context (sc : scanner) : string :=
  match sc.1 with
  | BeginValue | BeginValueOrEmpty => "looking for beginning of value"
  | BeginString | BeginStringOrEmpty => "looking for beginning of object key string"
  | InString => "in string literal"
  | InStringEsc => "in string escape code"
  | EscU _ => "in \u hexadecimal character escape"
  | Neg => "in numeric literal"
  | Dot => "after decimal point in numeric literal"
  | Exp_ | ExpSign => "in exponent of numeric literal"
  | Literal name (x :: _) => "in literal " +:+ name +:+ " (expecting " +:+ squoted (bytes_string [x]) +:+ ")"
  | _ =>
      match sc.2 with
      | ObjectKey :: _ => "after object key"
      | ObjectValue :: _ => "after object key:value pair"
      | ArrayValue :: _ => "after array element"
      | [] => "after top-level value"
      end
  end.

(** A bracket that a value may begin with is refused only for its depth. *)
Definition too_deep (b : Z) (sc : scanner) : bool :=
  match sc.1 with BeginValue | BeginValueOrEmpty => (b =? 91) || (b =? 123) | _ => false end.

Definition json_error_Error (e : json_error) : string :=
  match e with
  | Eof => "EOF"
  | UnexpectedEof => "unexpected EOF"
  | EndOfInput => "unexpected end of JSON input"
  | SyntaxError b sc =>
      if too_deep b sc then "exceeded max depth"
      else "invalid character " +:+ quoteChar b +:+ " " +:+ scan_context sc
  | BadToken msg => msg
  | TypeError value type field =>
      "json: cannot unmarshal " +:+ value +:+
      (match field with Some f => " into Go struct field " +:+ f | None => " into Go value" end)
      +:+ " of type " +:+ type
  end.

Definition json_plain (e : json_error) : error :=
  ForeignError {| f_text := json_error_Error e; f_code := None; f_data := None |}.

(** ** Decoding a value into a field

    The text is one that the scanner accepted. Each decoder gives what is in the field
    afterwards and the error to keep: a value of another type leaves the field alone. *)

Inductive kind := KObject | KArray | KString | KBool | KNull | KNumber.

Definition kind_of_text (raw : bytes) : kind :=
  match raw with
  | b :: _ =>
      if b =? 123 then KObject else if b =? 91 then KArray else if b =? 34 then KString
      else if (b =? 116) || (b =? 102) then KBool else if b =? 110 then KNull else KNumber
  | [] => KNumber
  end.

Definition kind_name (k : kind) : string :=
  match k with
  | KObject => "object" | KArray => "array" | KString => "string" | KBool => "bool"
  | KNull => "null" | KNumber => "number"
  end.

Definition type_error (type : string) (field : option string) (raw : bytes) : option json_error :=
  Some (TypeError (kind_name (kind_of_text raw)) type field).

Abbreviation decoded A := (A * option json_error)%type.

Definition decode_string (field : option string) (raw : bytes) (cur : string) : decoded string :=
  match kind_of_text raw with
  | KString => (match unquote raw with Some s => bytes_string s | None => cur end, None)
  | KNull => (cur, None)
  | _ => (cur, type_error "string" field raw)
  end.

Definition decode_int (field : option string) (raw : bytes) (cur : Z) : decoded Z :=
  match kind_of_text raw with
  | KNumber =>
      match atoi (bytes_string raw) with
      | Some z => (z, None)
      | None => (cur, Some (TypeError ("number " +:+ bytes_string raw) "int" field))
      end
  | KNull => (cur, None)
  | _ => (cur, type_error "int" field raw)
  end.

(** The first error is the one that is returned. *)
Definition keep (e e' : option json_error) : option json_error :=
  match e with Some _ => e | None => e' end.

Definition decode_members {A} (field : string → bytes → A → decoded A) (raw : bytes) (cur : A) : decoded A :=
  foldl (λ '(a, e) '(k, v),
    match unquote k with
    | Some k => let '(a, e') := field (bytes_string k) v a in (a, keep e e')
    | None => (a, e)
    end) (cur, None) (default [] (members raw)).

Section Fields.
Context `{GoUnicode}.

(** The field of a member: of the exact name, or of the name in other case. *)
Definition field_named (names : list string) (key : string) : option string :=
  match list_find (λ n, n = key) names with
  | Some (_, n) => Some n
  | None => snd <$> list_find (λ n, equal_fold n key = true) names
  end.

(** What decoding into an [interface{}] makes of a value; nothing here looks into it. *)
Variable interface_of : bytes → option value.

Definition jsonError_fields : list string := ["code"; "message"; "data"].

Definition decode_jsonError_field (key : string) (v : bytes) (e : jsonError) : decoded jsonError :=
  match field_named jsonError_fields key with
  | Some "code" =>
      let '(c, err) := decode_int (Some "jsonError.error.code") v (je_Code e) in
      ({| je_Code := c; je_Message := je_Message e; je_Data := je_Data e |}, err)
  | Some "message" =>
      let '(m, err) := decode_string (Some "jsonError.error.message") v (je_Message e) in
      ({| je_Code := je_Code e; je_Message := m; je_Data := je_Data e |}, err)
  | Some "data" =>
      ({| je_Code := je_Code e; je_Message := je_Message e; je_Data := interface_of v |}, None)
  | _ => (e, None)
  end.

Definition no_jsonError : jsonError := {| je_Code := 0; je_Message := ""; je_Data := None |}.

(** A pointer is set to nil by [null] and allocated by anything else. *)
Definition decode_jsonError (raw : bytes) (cur : option jsonError) : decoded (option jsonError) :=
  let e := default no_jsonError cur in
  match kind_of_text raw with
  | KNull => (None, None)
  | KObject => let '(e, err) := decode_members decode_jsonError_field raw e in (Some e, err)
  | _ => (Some e, type_error "rpc.jsonError" (Some "JsonrpcMessage.error") raw)
  end.

Definition message_fields : list string := ["jsonrpc"; "id"; "method"; "params"; "error"; "result"].

(** A raw field takes the text, that of [null] too. *)
Definition decode_message_field (key : string) (v : bytes) (m : JsonrpcMessage) : decoded JsonrpcMessage :=
  let '{| m_Version := vs; m_ID := i; m_Method := me; m_Params := p; m_Error := e; m_Result := r |} := m in
  match field_named message_fields key with
  | Some "jsonrpc" =>
      let '(vs, err) := decode_string (Some "JsonrpcMessage.jsonrpc") v vs in
      ({| m_Version := vs; m_ID := i; m_Method := me; m_Params := p; m_Error := e; m_Result := r |}, err)
  | Some "id" =>
      ({| m_Version := vs; m_ID := Some v; m_Method := me; m_Params := p; m_Error := e; m_Result := r |}, None)
  | Some "method" =>
      let '(me, err) := decode_string (Some "JsonrpcMessage.method") v me in
      ({| m_Version := vs; m_ID := i; m_Method := me; m_Params := p; m_Error := e; m_Result := r |}, err)
  | Some "params" =>
      ({| m_Version := vs; m_ID := i; m_Method := me; m_Params := Some v; m_Error := e; m_Result := r |}, None)
  | Some "error" =>
      let '(e, err) := decode_jsonError v e in
      ({| m_Version := vs; m_ID := i; m_Method := me; m_Params := p; m_Error := e; m_Result := r |}, err)
  | Some "result" =>
      ({| m_Version := vs; m_ID := i; m_Method := me; m_Params := p; m_Error := e; m_Result := Some v |}, None)
  | _ => (m, None)
  end.

Definition decode_message (raw : bytes) (m : JsonrpcMessage) : decoded JsonrpcMessage :=
  match kind_of_text raw with
  | KObject => decode_members decode_message_field raw m
  | KNull => (m, None)
  | _ => (m, type_error "rpc.JsonrpcMessage" None raw)
  end.

(** Into a pointer that points at a message. *)
Definition decode_message_pointer (raw : bytes) (m : option JsonrpcMessage) :
    decoded (option JsonrpcMessage) :=
  match kind_of_text raw with
  | KNull => (None, None)
  | _ => let '(m, err) := decode_message raw (default empty_message m) in (Some m, err)
  end.

End Fields.

(** ** The [Decoder], over a text that is all there *)

(** What may come next; an object that was opened is not entered by this code. *)
Inductive token_state := TopValue | ArrayStart | ArrayElem | ArrayComma | ObjectStart.

#[export] Instance token_state_eq_dec : EqDecision token_state.
Proof. solve_decision. Defined.

Record decoder := {
  d_rest : bytes;
  d_state : token_state;
  d_stack : list token_state;
  d_err : option json_error;
}.

Definition NewDecoder (bs : bytes) : decoder :=
  {| d_rest := bs; d_state := TopValue; d_stack := []; d_err := None |}.

Inductive token := TDelim (b : Z) | TValue (raw : bytes).

#[export] Instance token_eq_dec : EqDecision token.
Proof. solve_decision. Defined.

Definition with_rest (rest : bytes) (st : token_state) (d : decoder) : decoder :=
  {| d_rest := rest; d_state := st; d_stack := d_stack d; d_err := d_err d |}.

Definition failed (e : json_error) (d : decoder) : decoder :=
  {| d_rest := d_rest d; d_state := d_state d; d_stack := d_stack d; d_err := Some e |}.

Definition tokenValueAllowed (st : token_state) : bool :=
  match st with TopValue | ArrayStart | ArrayElem => true | _ => false end.

Definition tokenValueEnd (st : token_state) : token_state :=
  match st with ArrayStart | ArrayElem => ArrayComma | st => st end.

(** The value that comes next, as its text. *)
Definition readValue (d : decoder) : result json_error bytes * decoder :=
  match next_value (d_rest d) with
  | Ok (v, rest) => (Ok v, with_rest rest (tokenValueEnd (d_state d)) d)
  | Err err =>
      let e := match err with
               | BadByte b sc => SyntaxError b sc
               | Truncated => match skip_spaces (d_rest d) with [] => Eof | _ => UnexpectedEof end
               end in
      (Err e, failed e d)
  end.

(** [Decode]: the comma before the value is read with it. *)
Definition Decode (d : decoder) : result json_error bytes * decoder :=
  match d_err d with
  | Some e => (Err e, d)
  | None =>
      match d_state d with
      | ArrayComma =>
          match skip_spaces (d_rest d) with
          | [] => (Err Eof, d)
          | b :: rest =>
              if b =? 44 then readValue (with_rest rest ArrayElem d)
              else (Err (BadToken "expected comma after array element"), d)
          end
      | st =>
          if tokenValueAllowed st then readValue d
          else (Err (BadToken "not at beginning of value"), d)
      end
  end.

(** A number that no [float64] holds: at least half a unit above the greatest one. *)
Fixpoint digits_of (bs : bytes) : bytes * bytes :=
  match bs with
  | b :: r => if is_digit b then let '(ds, rest) := digits_of r in (b :: ds, rest) else ([], bs)
  | [] => ([], [])
  end.

Definition decimal (ds : bytes) : Z := default 0 (digits_value 0 (bytes_string ds)).

Definition exponent (bs : bytes) : Z :=
  match bs with
  | b :: r =>
      if b =? 45 then - decimal r else if b =? 43 then decimal r else decimal bs
  | [] => 0
  end.

Definition number_overflows (raw : bytes) : bool :=
  let raw := match raw with b :: r => if b =? 45 then r else raw | [] => [] end in
  let '(whole, r) := digits_of raw in
  let '(fraction, r) := match r with
                        | b :: r' => if b =? 46 then digits_of r' else ([], r)
                        | [] => ([], [])
                        end in
  let d := decimal (whole ++ fraction) in
  let k := exponent (tail r) - Z.of_nat (length fraction) in
  let bound := 2 ^ 1024 - 2 ^ 970 in
  if (d =? 0) || (Z.of_nat (length (whole ++ fraction)) + k <=? 308) then false
  else if 309 <=? k then true
  else if 0 <=? k then bound <=? d * 10 ^ k else bound * 10 ^ (- k) <=? d.

Example number_overflows_ex :
  number_overflows <$> (string_bytes <$> ["1.8e308"; "-1.7e308"; "0.1e310"; "1E999999999"; "0e99"; "12"]) =
  [true; false; true; true; false; false].
Proof. by vm_compute. Qed.

(** What a token that is a value is decoded to has to be a Go value. *)
Definition token_value (raw : bytes) : result json_error token :=
  match kind_of_text raw with
  | KNumber =>
      if number_overflows raw then Err (TypeError ("number " +:+ bytes_string raw) "float64" None)
      else Ok (TValue raw)
  | _ => Ok (TValue raw)
  end.

Definition token_error (b : Z) (st : token_state) : json_error :=
  BadToken ("invalid character " +:+ quoteChar b +:+
    match st with
    | TopValue | ArrayStart | ArrayElem => " looking for beginning of value"
    | ArrayComma => " after array element"
    | ObjectStart => " looking for beginning of object key string"
    end).

(** A token that is no comma. *)
Definition token_at (b : Z) (rest : bytes) (d : decoder) : result json_error token * decoder :=
  let open st := (Ok (TDelim b),
    {| d_rest := rest; d_state := st; d_stack := d_state d :: d_stack d; d_err := d_err d |}) in
  let bad := (Err (token_error b (d_state d)), d) in
  if b =? 91 then if tokenValueAllowed (d_state d) then open ArrayStart else bad
  else if b =? 123 then if tokenValueAllowed (d_state d) then open ObjectStart else bad
  else if b =? 93 then
    match d_state d, d_stack d with
    | (ArrayStart | ArrayComma), st :: stack =>
        (Ok (TDelim b), {| d_rest := rest; d_state := tokenValueEnd st; d_stack := stack; d_err := d_err d |})
    | _, _ => bad
    end
  else if (b =? 58) || (b =? 44) || (b =? 125) then bad
  else if tokenValueAllowed (d_state d) then
    let '(v, d) := Decode d in (v ≫= token_value, d)
  else bad.

Definition Token (d : decoder) : result json_error token * decoder :=
  match skip_spaces (d_rest d) with
  | [] => (Err Eof, d)
  | b :: rest =>
      if (b =? 44) && bool_decide (d_state d = ArrayComma) then
        match skip_spaces rest with
        | [] => (Err Eof, with_rest rest ArrayElem d)
        | b :: rest' => token_at b rest' (with_rest rest ArrayElem d)
        end
      else token_at b rest d
  end.

(** Whether there is another element. *)
Definition More (d : decoder) : bool :=
  match skip_spaces (d_rest d) with
  | [] => false
  | b :: _ => negb (b =? 93) && negb (b =? 125)
  end.

(** ** Messages

    [parseMessage]: one message or a batch. The text was checked when it was read; the
    loop over the elements of a text that was not checked may not end, and then the
    fuel runs out. *)

Section Messages.
Context `{GoUnicode} (interface_of : bytes → option value).

Fixpoint parse_batch (fuel : nat) (d : decoder) : option (list (option JsonrpcMessage)) :=
  match fuel with
  | O => None
  | S fuel =>
      if More d then
        let '(v, d) := Decode d in
        let msg := match v with
                   | Ok v => (decode_message_pointer interface_of v (Some empty_message)).1
                   | Err _ => Some empty_message
                   end in
        cons msg <$> parse_batch fuel d
      else Some []
  end.

(** A nil pointer is a message that was [null]. *)
Definition parseMessage (raw : bytes) : option (list (option JsonrpcMessage) * bool) :=
  if negb (isBatch raw) then
    let msg := match only_value raw with
               | Ok v => (decode_message_pointer interface_of v (Some empty_message)).1
               | Err _ => Some empty_message
               end in
    Some ([msg], false)
  else
    let '(_, d) := Token (NewDecoder raw) in
    (λ msgs, (msgs, true)) <$> parse_batch (length raw) d.
End Messages.

(** ** Positional arguments

    The types of the parameters: whether it is a pointer, its zero value, and what
    decoding a text into a new variable of the type gives. *)

Record arg_type (V : Type) := {
  at_pointer : bool;
  at_zero : V;
  at_decode : bytes → result json_error V;
}.
Arguments at_pointer {V}.
Arguments at_zero {V}.
Arguments at_decode {V}.

Section Arguments.
Context {V : Type}.
Implicit Types types : list (arg_type V).

Definition plain_text (s : string) : json_error := BadToken s.

Definition missing (i : nat) : json_error :=
  plain_text ("missing value for required argument " +:+ pretty (N.of_nat i)).

Definition too_many (n : nat) : json_error :=
  plain_text ("too many arguments, want at most " +:+ pretty (N.of_nat n)).

Definition invalid (i : nat) (e : json_error) : json_error :=
  plain_text ("invalid argument " +:+ pretty (N.of_nat i) +:+ ": " +:+ json_error_Error e).

(** The variable is a new one, so that it is nil never: the check of a missing value
    that follows the decoding refuses nothing. The index grows with the types that are
    left. *)
Fixpoint parseArgumentArray_from (n i : nat) (types : list (arg_type V)) (d : decoder) :
    result json_error (list V) :=
  if More d then
    match types with
    | [] => Err (too_many n)
    | t :: types =>
        let '(raw, d) := Decode d in
        let argval := raw ≫= at_decode t in
        match argval with
        | Err e => Err (invalid i e)
        | Ok v => cons v <$> parseArgumentArray_from n (S i) types d
        end
    end
  else match (Token d).1 with Err e => Err e | Ok _ => Ok [] end.

Definition parseArgumentArray (d : decoder) types : result json_error (list V) :=
  parseArgumentArray_from (length types) 0 types d.

(** Any missing argument is the zero of its type, when that is a pointer. *)
Fixpoint set_missing (i : nat) (types : list (arg_type V)) : result json_error (list V) :=
  match types with
  | [] => Ok []
  | t :: types =>
      if negb (at_pointer t) then Err (missing i)
      else cons (at_zero t) <$> set_missing (S i) types
  end.

Definition parsePositionalArguments (rawArgs : bytes) types : result json_error (list V) :=
  let '(tok, d) := Token (NewDecoder rawArgs) in
  args ←
    match tok with
    | Err Eof => Ok []
    | Err e => Err e
    | Ok tok =>
        if bool_decide (tok = TDelim 91) then parseArgumentArray d types
        else match tok with
             | TValue raw =>
                 match kind_of_text raw with KNull => Ok [] | _ => Err (plain_text "non-array args") end
             | _ => Err (plain_text "non-array args")
             end
    end;
  rest ← set_missing (length args) (drop (length args) types);
  Ok (args ++ rest).

(** The name of a subscription: the first element, a string. *)
Definition parseSubscriptionName (rawArgs : bytes) : result json_error string :=
  let '(tok, d) := Token (NewDecoder rawArgs) in
  match tok with
  | Ok (TDelim 91) =>
      match (Token d).1 with
      | Ok (TValue raw) =>
          match kind_of_text raw, unquote raw with
          | KString, Some s => Ok (bytes_string s)
          | _, _ => Err (plain_text "expected subscription name as first argument")
          end
      | _ => Err (plain_text "expected subscription name as first argument")
      end
  | _ => Err (plain_text "non-array args")
  end.
End Arguments.

(** ** Writing a message *)

(** [appendCompact], with the HTML characters escaped: white space that the scanner
    skips is dropped. 226 128 168 and 226 128 169 are the two separators. *)
Fixpoint compact_from (sc : scanner) (bs : bytes) : bytes :=
  match bs with
  | [] => []
  | b :: r =>
      let rest := compact_from (step maxNestingDepth sc b) r in
      if is_space b && negb (bool_decide (sc.1 = InString)) then rest
      else if (b =? 60) || (b =? 62) || (b =? 38) then u00 b ++ rest
      else
        match r with
        | x :: y :: r' =>
            if (b =? 226) && (x =? 128) && ((y =? 168) || (y =? 169))
            then [92; 117; 50; 48; 50; hex_byte (y mod 16)] ++ compact_from sc r'
            else b :: rest
        | _ => b :: rest
        end
  end.

Definition compact (bs : bytes) : bytes := compact_from (BeginValue, []) bs.

(** A raw value is marshalled as it is, once it was seen to be one. *)
Definition marshal_raw (v : bytes) : result json_error bytes :=
  match only_value v with
  | Ok _ => Ok (compact v)
  | Err (BadByte b sc) =>
      Err (BadToken ("json: error calling MarshalJSON for type json.RawMessage: "
                     +:+ json_error_Error (SyntaxError b sc)))
  | Err Truncated =>
      Err (BadToken ("json: error calling MarshalJSON for type json.RawMessage: "
                     +:+ json_error_Error EndOfInput))
  end.

Definition int_text (z : Z) : bytes :=
  string_bytes (if z <? 0 then "-" +:+ dec_string (- z) else dec_string z).

Definition marshal_string (s : string) : bytes := quote (string_bytes s).

Definition marshal_value (v : value) : bytes :=
  match v with
  | VNil => string_bytes "null"
  | VBool b => string_bytes (if b then "true" else "false")
  | VInt z => int_text z
  | VStr s => marshal_string s
  | VStrs l => array (marshal_string <$> l)
  end.

(** A member that is left out when it is empty. *)
Definition omitempty (name : string) (v : option bytes) : list (bytes * bytes) :=
  match v with Some v => [(string_bytes name, v)] | None => [] end.

Definition nonempty_string (s : string) : option bytes :=
  if bool_decide (s = "") then None else Some (marshal_string s).

Definition marshal_jsonError (e : jsonError) : bytes :=
  object ([(string_bytes "code", int_text (je_Code e));
           (string_bytes "message", marshal_string (je_Message e))]
          ++ omitempty "data" (marshal_value <$> je_Data e)).

(** A raw field, with a nil or an empty slice left out. *)
Definition nonempty_raw (v : RawMessage) : result json_error (option bytes) :=
  match v with
  | None | Some [] => Ok None
  | Some v => Some <$> marshal_raw v
  end.

Definition marshal_message (m : JsonrpcMessage) : result json_error bytes :=
  id ← nonempty_raw (m_ID m);
  params ← nonempty_raw (m_Params m);
  res ← nonempty_raw (m_Result m);
  Ok (object
    (omitempty "jsonrpc" (nonempty_string (m_Version m)) ++ omitempty "id" id
     ++ omitempty "method" (nonempty_string (m_Method m)) ++ omitempty "params" params
     ++ omitempty "error" (marshal_jsonError <$> m_Error m) ++ omitempty "result" res)).

(** [String]: nothing when it cannot be written. *)
Definition message_String (m : JsonrpcMessage) : string :=
  match marshal_message m with Ok bs => bytes_string bs | Err _ => "" end.

(** ** The connection

    What was done with it, in order. The lock of the encoder makes each write one step. *)

Inductive conn_event := SetWriteDeadline (t : Z) | Encoded (v : bytes) | ConnClosed.

Record jsonCodec := {
  remote : string;
  closeCh : bool;                    (** closed; the [sync.Once] was spent *)
  conn : list conn_event;
}.

Definition defaultWriteTimeout : Z := duration 10 second.

Definition remoteAddr (c : jsonCodec) : string := remote c.
Definition closed (c : jsonCodec) : bool := closeCh c.

Definition close (c : jsonCodec) : jsonCodec :=
  if closeCh c then c
  else {| remote := remote c; closeCh := true; conn := conn c ++ [ConnClosed] |}.

(** The deadline of the context, or the default from now on. *)
Definition writeJSON (deadline : option Z) (now : Z) (encode : bytes → option json_error) (v : bytes)
    (c : jsonCodec) : option json_error * jsonCodec :=
  let d := match deadline with Some d => d | None => now + defaultWriteTimeout end in
  (encode v,
   {| remote := remote c; closeCh := closeCh c; conn := conn c ++ [SetWriteDeadline d; Encoded v] |}).

(** The value that the connection had next, taken apart. *)
Definition readBatch `{GoUnicode} (interface_of : bytes → option value) (decode : result json_error bytes) :
    option (result json_error (list (option JsonrpcMessage) * bool)) :=
  match decode with
  | Err e => Some (Err e)
  | Ok raw => Ok <$> parseMessage interface_of raw
  end.

(** ** What is written is read back *)

Lemma string_bytes_of_app s t : string_bytes (s +:+ t) = string_bytes s ++ string_bytes t.
Proof. apply string_bytes_app. Qed.

(** The decimal text of a positive number: a digit that is no zero, and digits. *)
Lemma pretty_digits x s :
  (0 < x)%N → ∃ d ds, string_bytes (pretty_N_go x s) = d :: ds ++ string_bytes s ∧
                      49 ≤ d ≤ 57 ∧ Forall (λ b, is_digit b = true) ds.
Proof.
  revert s. induction (N.lt_wf_0 x) as [x _ IH]. intros s Hx. rewrite pretty_N_go_step by done.
  assert (Hchar : ∃ d, string_bytes (String (pretty_N_char (x mod 10)) s) = d :: string_bytes s ∧
                       is_digit d = true ∧ ((0 < x mod 10)%N → 49 ≤ d)).
  { pose proof (N.mod_lt x 10 ltac:(done)) as Hm.
    assert (∃ n : nat, (x mod 10)%N = N.of_nat n ∧ (n < 10)%nat) as (n & Hn & Hl)
      by (exists (N.to_nat (x mod 10)); lia).
    rewrite Hn. do 10 (destruct n as [|n]; [eexists; split_and!; [done|done|vm_compute; done]|]). lia. }
  destruct Hchar as (d & Heq & Hd & Hnz). destruct (decide (0 < x / 10)%N) as [Hq|Hq].
  - destruct (IH (x / 10)%N ltac:(apply N.div_lt; lia) (String (pretty_N_char (x mod 10)) s) Hq)
      as (d' & ds & -> & Hd' & Hds). rewrite Heq. exists d', (ds ++ [d]). rewrite <-app_assoc.
    split_and!; [done|lia|lia|]. by apply Forall_app_2; [|constructor].
  - assert ((x / 10)%N = 0%N) as Hz by (apply N.le_0_r, N.nlt_ge; exact Hq). rewrite Hz, pretty_N_go_0, Heq. exists d, [].
    split_and!; [done| |by apply between_spec in Hd; lia|done].
    apply Hnz. pose proof (N.div_mod x 10 ltac:(done)) as Hdm. rewrite Hz in Hdm. lia.
Qed.

Lemma dec_digits z :
  0 < z → ∃ d ds, string_bytes (dec_string z) = d :: ds ∧ 49 ≤ d ≤ 57 ∧ Forall (λ b, is_digit b = true) ds.
Proof.
  intros Hz. unfold dec_string, pretty, pretty_N. rewrite decide_False by lia.
  destruct (pretty_digits (Z.to_N z) "" ltac:(lia)) as (d & ds & -> & Hd). exists d, ds.
  by rewrite app_nil_r.
Qed.

Lemma run_digits L st ds :
  Forall (λ b, is_digit b = true) ds → run L (One, st) ds = (One, st).
Proof. induction 1 as [|b ds Hb _ IH]; [done|]. rewrite run_cons. cbn [step]. by rewrite Hb. Qed.

Lemma kind_of_digit d ds : 48 ≤ d ≤ 57 → kind_of_text (d :: ds) = KNumber.
Proof. intros Hd. simpl. repeat (case_match; [lia|]). done. Qed.

Lemma int_text_value L z : is_value L (int_text z) = true ∧ kind_of_text (int_text z) = KNumber.
Proof.
  assert (Hone : ∀ d, 49 ≤ d ≤ 57 → step L (BeginValue, []) d = (One, []) ∧ step L (Neg, []) d = (One, [])
                                    ∧ is_space d = false).
  { intros d Hd. assert (d ∈ seqZ 49 9) as Hin by (apply elem_of_seqZ; lia). clear Hd. revert d Hin.
    apply Forall_forall. vm_compute seqZ. repeat constructor. }
  unfold int_text, is_value. destruct (z <? 0) eqn:Hz.
  - apply Z.ltb_lt in Hz. destruct (dec_digits (- z) ltac:(lia)) as (d & ds & Heq & Hd & Hds).
    rewrite string_bytes_app, Heq. split; [|done]. rewrite andb_true_r.
    cbn [app string_bytes]. rewrite !run_cons. change (step L (BeginValue, []) _) with (Neg, @nil frame).
    destruct (Hone d Hd) as (_ & -> & _). by rewrite run_digits.
  - apply Z.ltb_ge in Hz. destruct (decide (z = 0)) as [->|Hnz]; [by vm_compute|].
    destruct (dec_digits z ltac:(lia)) as (d & ds & -> & Hd & Hds).
    split; [|apply kind_of_digit; lia]. rewrite run_cons.
    destruct (Hone d Hd) as (-> & _ & ->). by rewrite run_digits.
Qed.

Lemma atoi_minus s :
  atoi (String "-" s) =
  (z ← parse_digits s; if (- 2 ^ 63 <=? - z) && (- z <? 2 ^ 63) then Some (- z) else None).
Proof. reflexivity. Qed.

Lemma atoi_plain c s :
  c ≠ "-"%char → c ≠ "+"%char →
  atoi (String c s) =
  (z ← parse_digits (String c s); if (- 2 ^ 63 <=? z) && (z <? 2 ^ 63) then Some z else None).
Proof.
  intros Hm Hp. unfold atoi. destruct (decide (c = "-"%char)); [done|].
  by destruct (decide (c = "+"%char)).
Qed.

Lemma atoi_int_text z : - 2 ^ 63 ≤ z < 2 ^ 63 → atoi (bytes_string (int_text z)) = Some z.
Proof.
  intros Hz. unfold int_text. rewrite bytes_string_bytes.
  assert (Hrange : (- 2 ^ 63 <=? z) && (z <? 2 ^ 63) = true) by lia.
  destruct (z <? 0) eqn:Hneg; [apply Z.ltb_lt in Hneg|apply Z.ltb_ge in Hneg].
  - change ("-" +:+ dec_string (- z)) with (String "-" (dec_string (- z))).
    rewrite atoi_minus, parse_digits_dec_string by lia. cbn [mbind option_bind].
    by rewrite Z.opp_involutive, Hrange.
  - assert (Hbody : ∃ c s', dec_string z = String c s' ∧ c ≠ "-"%char ∧ c ≠ "+"%char).
    { destruct (decide (z = 0)) as [->|Hnz]; [by exists "0"%char, ""|].
      destruct (dec_digits z ltac:(lia)) as (d & ds & Heq & Hd & _).
      destruct (dec_string z) as [|c s'] eqn:Hdec; [done|]. exists c, s'. injection Heq as <- <-.
      split_and!; [done|intros ->..]; unfold byte_of_ascii in Hd; simpl in Hd; lia. }
    destruct Hbody as (c & s' & Heq & Hm & Hp). rewrite Heq, atoi_plain, <-Heq by done.
    rewrite parse_digits_dec_string by lia. cbn [mbind option_bind]. by rewrite Hrange.
Qed.

(** What stands in a message of a batch is inside two more. *)
Definition messageDepth : nat := maxNestingDepth - 2.
#[global] Arguments messageDepth : simpl never.

Lemma messageDepth_eq : maxNestingDepth = S (S messageDepth).
Proof. reflexivity. Qed.

Lemma messageDepth_pos : (2 ≤ messageDepth)%nat.
Proof. apply Nat.leb_le. reflexivity. Qed.

Ltac depth := pose proof messageDepth_eq; pose proof messageDepth_pos; lia.

(** A raw field that is left as it is: a value with no white space and nothing of HTML
    to escape, that opens few enough to stand in a message of a batch. *)
Definition raw_ok (v : bytes) : Prop := is_value messageDepth v = true ∧ compact v = v.
Definition field_ok (v : RawMessage) : Prop := match v with Some v => raw_ok v | None => True end.
Definition text_ok (s : string) : Prop := utf8_valid (string_bytes s) = true.

Lemma raw_ok_depth L v : raw_ok v → (messageDepth ≤ L)%nat → is_value L v = true.
Proof. intros [Hv _] Hl. by eapply value_mono. Qed.

Lemma nonempty_raw_ok v : field_ok v → nonempty_raw v = Ok v.
Proof.
  destruct v as [v|]; [|done]. intros Hv. pose proof (raw_ok_depth maxNestingDepth v Hv) as Hval.
  assert (is_value maxNestingDepth v = true) as Hval' by (apply Hval; depth).
  destruct Hv as [_ Hc]. destruct v as [|b v]; [done|]. cbn [nonempty_raw]. unfold marshal_raw.
  by rewrite only_value_of, Hc.
Qed.

Lemma unquote_marshal s : text_ok s → unquote (marshal_string s) = Some (string_bytes s).
Proof. intros Hs. apply unquote_quote; [apply string_bytes_ok|done]. Qed.

Lemma decode_marshal_string f s cur : text_ok s → decode_string f (marshal_string s) cur = (s, None).
Proof.
  intros Hs. unfold decode_string. change (kind_of_text (marshal_string s)) with KString.
  by rewrite unquote_marshal, bytes_string_bytes.
Qed.

Lemma decode_int_text f z cur : - 2 ^ 63 ≤ z < 2 ^ 63 → decode_int f (int_text z) cur = (z, None).
Proof.
  intros Hz. unfold decode_int. destruct (int_text_value 0 z) as [_ ->]. by rewrite atoi_int_text.
Qed.

(** Decoding an object is decoding its members in turn. *)
Definition take_members {A} (field : string → bytes → A → decoded A) (ms : list (bytes * bytes))
    (a : decoded A) : decoded A :=
  foldl (λ '(a, e) '(k, v), let '(a, e') := field (bytes_string k) v a in (a, keep e e')) a ms.

Lemma decode_members_object {A} (field : string → bytes → A → decoded A) ms cur :
  Forall (member_ok maxNestingDepth) ms → Forall (λ m, utf8_valid m.1 = true) ms →
  decode_members field (object ms) cur = take_members field ms (cur, None).
Proof.
  intros Hms Hkeys. unfold decode_members, take_members. rewrite members_of by done. cbn [default from_option id].
  generalize (cur, @None json_error). induction Hms as [|[k v] ms [Hk _] _ IH]; intros [a e]; [done|].
  apply Forall_cons in Hkeys as [Hkey Hkeys]. cbn [fmap list_fmap foldl fst snd] in *.
  rewrite unquote_quote by done. destruct (field _ _ _). by apply IH.
Qed.

Lemma take_members_app {A} (field : string → bytes → A → decoded A) ms ms' a :
  take_members field (ms ++ ms') a = take_members field ms' (take_members field ms a).
Proof. apply foldl_app. Qed.

(** The members that are there have names in ASCII and values. *)
Lemma omitempty_ok L name v :
  utf8_valid (string_bytes name) = true → (∀ w, v = Some w → is_value L w = true) →
  Forall (member_ok L) (omitempty name v) ∧ Forall (λ m, utf8_valid m.1 = true) (omitempty name v).
Proof.
  intros Hname Hv. destruct v as [v|]; [|done]. split; (constructor; [|done]); [split|done]; [apply string_bytes_ok|by apply Hv].
Qed.

Lemma marshal_value_value v : is_value 1 (marshal_value v) = true.
Proof.
  destruct v as [|[]|z|s|l]; [by vm_compute..| | |].
  - apply int_text_value.
  - apply quoted_value, string_bytes_ok.
  - apply array_value, Forall_fmap, Forall_true. intros s. apply quoted_value, string_bytes_ok.
Qed.

Lemma marshal_jsonError_members e L :
  (1 ≤ L)%nat →
  Forall (member_ok L) ([(string_bytes "code", int_text (je_Code e));
                         (string_bytes "message", marshal_string (je_Message e))]
                        ++ omitempty "data" (marshal_value <$> je_Data e)).
Proof.
  intros Hl. apply Forall_app. split.
  - constructor; [split; [apply string_bytes_ok|apply int_text_value]|].
    constructor; [split; [apply string_bytes_ok|apply quoted_value, string_bytes_ok]|constructor].
  - apply omitempty_ok; [done|]. intros w. destruct (je_Data e); [|done]. intros [= <-].
    by apply (value_mono 1); [apply marshal_value_value|].
Qed.

Lemma marshal_jsonError_value e : is_value 2 (marshal_jsonError e) = true.
Proof. by apply object_value, marshal_jsonError_members. Qed.

Section RoundTrip.
Context `{GoUnicode} (interface_of : bytes → option value).

Definition error_ok (e : jsonError) : Prop :=
  - 2 ^ 63 ≤ je_Code e < 2 ^ 63 ∧ text_ok (je_Message e) ∧
  match je_Data e with Some v => interface_of (marshal_value v) = Some v | None => True end.

Definition message_ok (m : JsonrpcMessage) : Prop :=
  text_ok (m_Version m) ∧ field_ok (m_ID m) ∧ text_ok (m_Method m) ∧ field_ok (m_Params m) ∧
  match m_Error m with Some e => error_ok e | None => True end ∧ field_ok (m_Result m).

(** The members of a message, those that are empty left out. *)
Definition message_members (m : JsonrpcMessage) : list (bytes * bytes) :=
  omitempty "jsonrpc" (nonempty_string (m_Version m)) ++ omitempty "id" (m_ID m)
  ++ omitempty "method" (nonempty_string (m_Method m)) ++ omitempty "params" (m_Params m)
  ++ omitempty "error" (marshal_jsonError <$> m_Error m) ++ omitempty "result" (m_Result m).

Lemma marshal_message_members m :
  message_ok m → marshal_message m = Ok (object (message_members m)).
Proof.
  intros (_ & Hi & _ & Hp & _ & Hr). unfold marshal_message. by rewrite !nonempty_raw_ok.
Qed.

Lemma message_members_ok m L :
  message_ok m → (messageDepth ≤ L)%nat →
  Forall (member_ok L) (message_members m) ∧ Forall (λ x, utf8_valid x.1 = true) (message_members m).
Proof.
  intros (_ & Hi & _ & Hp & _ & Hr) Hl.
  assert (Hraw : ∀ v w, field_ok v → v = Some w → is_value L w = true).
  { intros v w Hv ->. by apply raw_ok_depth. }
  assert (Hstr : ∀ s w, nonempty_string s = Some w → is_value L w = true).
  { intros s w. unfold nonempty_string. case_bool_decide; [done|]. intros [= <-].
    apply quoted_value, string_bytes_ok. }
  assert (Herr : ∀ w, marshal_jsonError <$> m_Error m = Some w → is_value L w = true).
  { intros w. destruct (m_Error m) as [e|]; [|done]. intros [= <-].
    apply (value_mono 2); [apply marshal_jsonError_value|depth]. }
  unfold message_members. rewrite !Forall_app.
  split_and!; apply (omitempty_ok L); eauto.
Qed.

Lemma decode_marshal_jsonError e cur :
  error_ok e → cur = None →
  decode_jsonError interface_of (marshal_jsonError e) cur = (Some e, None).
Proof.
  intros (Hc & Hm & Hd) ->. unfold decode_jsonError.
  change (kind_of_text (marshal_jsonError e)) with KObject. unfold marshal_jsonError.
  rewrite decode_members_object.
  - rewrite take_members_app. destruct e as [c m d]. simpl in Hc, Hm, Hd.
    assert (take_members (decode_jsonError_field interface_of)
              [(string_bytes "code", int_text c); (string_bytes "message", marshal_string m)]
              (no_jsonError, None)
            = ({| je_Code := c; je_Message := m; je_Data := None |}, None)) as Htwo.
    { unfold take_members. cbn [foldl]. rewrite !bytes_string_bytes. unfold decode_jsonError_field.
      change (field_named _ "code") with (Some "code").
      change (field_named _ "message") with (Some "message"). cbn match.
      by rewrite decode_int_text, decode_marshal_string. }
    cbn [je_Code je_Message je_Data default from_option]. rewrite Htwo.
    destruct d as [d|]; [|done]. unfold take_members. cbn [fmap option_fmap option_map omitempty foldl].
    rewrite bytes_string_bytes. unfold decode_jsonError_field.
    change (field_named _ "data") with (Some "data"). cbn match. by rewrite Hd.
  - apply marshal_jsonError_members. depth.
  - repeat constructor. by destruct (je_Data e); repeat constructor.
Qed.

(** One member of a message, into a message that has not got it yet. *)
Abbreviation field := (decode_message_field interface_of).

Lemma take_one {A} (f : string → bytes → A → decoded A) name v a :
  take_members f [(string_bytes name, v)] (a, None) = f name v a.
Proof. unfold take_members. cbn [foldl]. rewrite bytes_string_bytes. by destruct (f name v a). Qed.

Lemma take_string name s a b :
  (s = "" → b = a) → (s ≠ "" → field name (marshal_string s) a = (b, None)) →
  take_members field (omitempty name (nonempty_string s)) (a, None) = (b, None).
Proof.
  intros Hno Hyes. unfold nonempty_string. case_bool_decide as Hs; cbn [omitempty].
  - by rewrite Hno.
  - by rewrite take_one, Hyes.
Qed.

Lemma take_option {A} name (enc : A → bytes) (o : option A) a b :
  (o = None → b = a) → (∀ v, o = Some v → field name (enc v) a = (b, None)) →
  take_members field (omitempty name (enc <$> o)) (a, None) = (b, None).
Proof.
  intros Hno Hyes. destruct o as [v|]; cbn [omitempty fmap option_fmap option_map].
  - by rewrite take_one, (Hyes v).
  - by rewrite Hno.
Qed.

(** A message that was written is read back. *)
Lemma decode_marshal_message m :
  message_ok m → decode_message interface_of (object (message_members m)) empty_message = (m, None).
Proof.
  intros Hm. unfold decode_message. change (kind_of_text (object _)) with KObject. cbn match.
  destruct (message_members_ok m maxNestingDepth Hm ltac:(depth)) as [Hms Hkeys].
  rewrite decode_members_object by done. destruct m as [vs i me p e r].
  destruct Hm as (Hvs & _ & Hme & _ & He & _). unfold message_members, empty_message.
  cbn [m_Version m_ID m_Method m_Params m_Error m_Result] in *. rewrite !take_members_app.
  rewrite (take_string "jsonrpc" vs _ {| m_Version := vs; m_ID := None; m_Method := ""; m_Params := None;
    m_Error := None; m_Result := None |}).
  2: by intros ->. 2: intros _; unfold decode_message_field;
    change (field_named _ "jsonrpc") with (Some "jsonrpc"); cbn match; by rewrite decode_marshal_string.
  rewrite <-(option_fmap_id i), (take_option "id" id i _ {| m_Version := vs; m_ID := i; m_Method := "";
    m_Params := None; m_Error := None; m_Result := None |}).
  2: by intros ->. 2: by intros v ->.
  rewrite (take_string "method" me _ {| m_Version := vs; m_ID := i; m_Method := me; m_Params := None;
    m_Error := None; m_Result := None |}).
  2: by intros ->. 2: intros _; unfold decode_message_field;
    change (field_named _ "method") with (Some "method"); cbn match; by rewrite decode_marshal_string.
  rewrite <-(option_fmap_id p), (take_option "params" id p _ {| m_Version := vs; m_ID := i; m_Method := me;
    m_Params := p; m_Error := None; m_Result := None |}).
  2: by intros ->. 2: by intros v ->.
  rewrite (take_option "error" marshal_jsonError e _ {| m_Version := vs; m_ID := i; m_Method := me;
    m_Params := p; m_Error := e; m_Result := None |}).
  2: by intros ->. 2: intros v ->; unfold decode_message_field;
    change (field_named _ "error") with (Some "error"); cbn match; by rewrite decode_marshal_jsonError.
  rewrite <-(option_fmap_id r), (take_option "result" id r _ {| m_Version := vs; m_ID := i; m_Method := me;
    m_Params := p; m_Error := e; m_Result := r |}).
  2: by intros ->. 2: by intros v ->.
  by rewrite !option_fmap_id.
Qed.
End RoundTrip.

(** ** Reading an array element by element *)

(** The decoder before the elements that are left. *)
Definition cursor (first : bool) (vs : list bytes) : decoder :=
  {| d_rest := match vs with [] => [] | _ => (if first then [] else [44]) ++ join 44 vs end ++ [93];
     d_state := if first then ArrayStart else ArrayComma; d_stack := [TopValue]; d_err := None |}.

Lemma token_array vs : Token (NewDecoder (array vs)) = (Ok (TDelim 91), cursor true vs).
Proof. unfold array. cbn. by destruct vs. Qed.

Lemma token_end first : (Token (cursor first [])).1 = Ok (TDelim 93).
Proof. by destruct first. Qed.

Definition values (vs : list bytes) : Prop := Forall (λ v, is_value maxNestingDepth v = true) vs.

Lemma join_head v vs :
  is_value maxNestingDepth v = true →
  ∃ b t, join 44 (v :: vs) ++ [93] = b :: t ∧ is_space b = false ∧ b ≠ 93 ∧ b ≠ 125.
Proof.
  intros (b & v' & -> & Hb & ? & ?)%value_head.
  destruct vs as [|v2 vs]; [|rewrite join_cons, <-app_assoc]; by do 2 eexists.
Qed.

Lemma more_cursor first vs : values vs → More (cursor first vs) = negb (bool_decide (vs = [])).
Proof.
  intros Hvs. unfold More, cursor. cbn [d_rest]. destruct Hvs as [|v vs Hv _]; [done|].
  rewrite bool_decide_eq_false_2 by done. destruct first; [|done]. cbn [app].
  destruct (join_head v vs Hv) as (b & t & -> & Hs & H1 & H2). cbn [skip_spaces].
  rewrite Hs. apply Z.eqb_neq in H1, H2. by rewrite H1, H2.
Qed.

Lemma decode_cursor first v vs :
  is_value maxNestingDepth v = true → Decode (cursor first (v :: vs)) = (Ok v, cursor false vs).
Proof.
  intros Hv.
  assert (Hread : ∀ st, tokenValueEnd st = ArrayComma →
    readValue {| d_rest := join 44 (v :: vs) ++ [93]; d_state := st; d_stack := [TopValue]; d_err := None |}
    = (Ok v, cursor false vs)).
  { intros st Hst. unfold readValue. cbn [d_rest].
    assert (next_value (join 44 (v :: vs) ++ [93]) = Ok (v, d_rest (cursor false vs))) as ->.
    { destruct vs as [|v2 vs]; [|rewrite join_cons, <-app_assoc];
        (rewrite next_value_of; [done|done|]; intros ? ? [= <- _]; done). }
    unfold with_rest, cursor. cbn [d_state d_stack d_err d_rest]. by rewrite Hst. }
  unfold Decode. destruct first; cbn [cursor d_err d_state d_rest tokenValueAllowed].
  - by apply Hread.
  - cbn [app skip_spaces is_space Z.eqb Pos.eqb orb]. unfold with_rest. cbn [d_stack d_err]. by apply Hread.
Qed.

(** *** Batches *)

Section Batches.
Context `{GoUnicode} (interface_of : bytes → option value).

Definition element (v : bytes) : option JsonrpcMessage :=
  (decode_message_pointer interface_of v (Some empty_message)).1.

Lemma parse_batch_cursor n first vs :
  values vs → (length vs < n)%nat → parse_batch interface_of n (cursor first vs) = Some (element <$> vs).
Proof.
  intros Hvs. revert n first. induction Hvs as [|v vs Hv Hvs IH]; intros [|n] first Hn; try (simpl in Hn; lia).
  - cbn [parse_batch]. by rewrite more_cursor by constructor.
  - cbn [parse_batch]. rewrite more_cursor by by constructor. rewrite bool_decide_eq_false_2 by done.
    cbn [negb]. rewrite decode_cursor by done. rewrite IH by (simpl in Hn; lia). done.
Qed.

(** A batch of any values: as many messages as elements, and the loop ends. *)
Lemma parseMessage_array vs :
  values vs → parseMessage interface_of (array vs) = Some (element <$> vs, true).
Proof.
  intros Hvs. unfold parseMessage. change (isBatch (array vs)) with true. cbn [negb].
  rewrite token_array, parse_batch_cursor; [done|done|].
  unfold array. simpl. rewrite length_app. simpl.
  assert (length vs ≤ length (join 44 vs))%nat; [|lia].
  apply length_join. eapply Forall_impl; [done|]. by intros [|].
Qed.

Lemma element_message m :
  message_ok interface_of m → element (object (message_members m)) = Some m.
Proof.
  intros Hm. unfold element, decode_message_pointer. change (kind_of_text (object _)) with KObject.
  cbn [default from_option id]. by rewrite decode_marshal_message.
Qed.

Lemma message_value m L :
  message_ok interface_of m → (messageDepth ≤ L)%nat → is_value (S L) (object (message_members m)) = true.
Proof. intros Hm Hl. apply object_value. by apply (message_members_ok interface_of). Qed.

(** The value that is next on the connection, delimited by the newline after it. *)
Lemma decode_line v rest :
  is_value maxNestingDepth v = true → (Decode (NewDecoder (v ++ 10 :: rest))).1 = Ok v.
Proof.
  intros Hv. unfold Decode, readValue. cbn [NewDecoder d_err d_state d_rest tokenValueAllowed].
  rewrite next_value_of; [done|done|]. by intros ? ? [= <- _].
Qed.

(** (C38) What is written is read back. A message that was marshalled, and a batch of them,
    come out of the connection as they were: the reader finds where the text ends, whatever follows
    the newline that the encoder puts after it, tells a message from a batch, and
    decodes every field, with what was left out for being empty left empty. *)
Theorem messages_roundtrip m ms rest
    (Hm : message_ok interface_of m) (Hms : Forall (message_ok interface_of) ms) :
  ∃ text texts, marshal_message m = Ok text ∧ Forall2 (λ m t, marshal_message m = Ok t) ms texts ∧
    readBatch interface_of (Decode (NewDecoder (text ++ 10 :: rest))).1 = Some (Ok ([Some m], false)) ∧
    readBatch interface_of (Decode (NewDecoder (array texts ++ 10 :: rest))).1 =
      Some (Ok (Some <$> ms, true)).
Proof.
  exists (object (message_members m)), ((λ m, object (message_members m)) <$> ms).
  assert (Hval : ∀ m, message_ok interface_of m → is_value (S messageDepth) (object (message_members m)) = true)
    by (intros; by apply message_value).
  assert (Hval' : ∀ m, message_ok interface_of m → is_value maxNestingDepth (object (message_members m)) = true).
  { intros m' Hm'. by apply (value_mono (S messageDepth)); [apply Hval|depth]. }
  split_and!.
  - by eapply marshal_message_members.
  - apply Forall2_fmap_r, Forall_Forall2_diag. eapply Forall_impl; [done|]. intros.
    by eapply marshal_message_members.
  - rewrite decode_line by by apply Hval'. cbn [readBatch]. unfold parseMessage.
    change (isBatch (object _)) with false. cbn [negb]. rewrite only_value_of by by apply Hval'.
    fold (element (object (message_members m))). by rewrite element_message.
  - rewrite decode_line.
    + cbn [readBatch]. rewrite parseMessage_array.
      * rewrite <-list_fmap_compose.
        assert (element ∘ (λ m, object (message_members m)) <$> ms = Some <$> ms) as ->; [|done].
        apply list_fmap_ext. intros i m' Hi. apply element_message. by eapply Forall_lookup_1.
      * apply Forall_fmap. eapply Forall_impl; [done|]. apply Hval'.
    + rewrite messageDepth_eq. apply array_value, Forall_fmap. eapply Forall_impl; [done|]. apply Hval.
Qed.
End Batches.

(** *** Positional arguments *)

Section Positional.
Context {V : Type}.
Implicit Types types : list (arg_type V).

(** What each parameter receives: the argument in its place, or nothing. *)
Definition received (t : arg_type V) (v : option bytes) (a : V) : Prop :=
  match v with
  | Some v => at_decode t v = Ok a
  | None => at_pointer t = true ∧ a = at_zero t
  end.

Lemma set_missing_spec i types args :
  set_missing i types = Ok args ↔ Forall2 (λ t a, received t None a) types args.
Proof.
  revert i args. induction types as [|t types IH]; intros i args; cbn [set_missing].
  - split; [by intros [= <-]|]. by intros ->%Forall2_nil_inv_l.
  - destruct (at_pointer t) eqn:Ht; cbn [negb].
    + split.
      * destruct (set_missing (S i) types) as [rest|] eqn:Hr; [|done]. intros [= <-].
        constructor; [done|by apply (IH (S i))].
      * intros (a & args' & [_ ->] & Hrest & ->)%Forall2_cons_inv_l. by rewrite (proj2 (IH _ _) Hrest).
    + split; [done|]. intros (a & args' & [Ht' _] & _)%Forall2_cons_inv_l. congruence.
Qed.

(** The arguments of the array, each decoded into the type of its place. *)
Lemma parse_arguments_spec n i first types vs args :
  values vs →
  parseArgumentArray_from n i types (cursor first vs) = Ok args ↔
  (length vs ≤ length types)%nat ∧
  Forall2 (λ '(t, v) a, at_decode t v = Ok a) (zip types vs) args.
Proof.
  intros Hvs. revert i first types args. induction Hvs as [|v vs Hv Hvs IH]; intros i first types args.
  - assert (parseArgumentArray_from n i types (cursor first []) = Ok []) as ->.
    { destruct types; cbn [parseArgumentArray_from]; by rewrite more_cursor, token_end by constructor. }
    destruct types; simpl; (split; [by intros [= <-]; split; [lia|]|by intros [_ ->%Forall2_nil_inv_l]]).
  - destruct types as [|t types]; cbn [parseArgumentArray_from];
      rewrite more_cursor, bool_decide_eq_false_2 by (done || by constructor); cbn [negb].
    { split; [done|]. simpl. intros [? _]. lia. }
    rewrite decode_cursor by done. cbn [mbind result_bind]. simpl.
    destruct (at_decode t v) as [a|e] eqn:Ha.
    + split.
      * destruct (parseArgumentArray_from n (S i) types (cursor false vs)) as [rest|] eqn:Hr; [|done].
        intros [= <-]. apply IH in Hr as [Hl Hr]. split; [simpl; lia|]. by constructor.
      * intros [Hl (a' & args' & Ha' & Hrest & ->)%Forall2_cons_inv_l]. simpl in Ha', Hl.
        assert (a' = a) as -> by congruence. rewrite (proj2 (IH (S i) false types args')); [done|].
        split; [lia|done].
    + split; [done|]. intros [_ (a' & args' & Ha' & _)%Forall2_cons_inv_l]. simpl in Ha'. congruence.
Qed.

(** What the parameters receive, place by place, and what is left of the types. *)
Lemma received_split types vs args args' :
  (length vs ≤ length types)%nat → length args = length vs →
  Forall2 (λ '(t, v) a, at_decode t v = Ok a) (zip types vs) args →
  Forall2 (λ t a, received t None a) (drop (length args) types) args' →
  length (args ++ args') = length types ∧
  ∀ i t, types !! i = Some t → ∃ a, (args ++ args') !! i = Some a ∧ received t (vs !! i) a.
Proof.
  intros Hl Hlen Hargs Hrest. split.
  { apply Forall2_length in Hrest. rewrite length_drop in Hrest. rewrite length_app. lia. }
  intros i t Ht. destruct (decide (i < length vs)%nat) as [Hi|Hi].
  - destruct (lookup_lt_is_Some_2 vs i Hi) as [v Hv].
    destruct (Forall2_lookup_l _ _ _ i (t, v) Hargs) as (a & Ha & Hdec).
    { by apply lookup_zip_with_Some; exists t, v. }
    exists a. rewrite Hv. split; [|done]. by apply lookup_app_l_Some.
  - destruct (Forall2_lookup_l _ _ _ (i - length args) t Hrest) as (a & Ha & Hdec).
    { rewrite lookup_drop. by replace (length args + (i - length args))%nat with i by lia. }
    exists a. rewrite (lookup_ge_None_2 vs) by lia. split; [|done].
    rewrite lookup_app_r by lia. done.
Qed.

(** (C39) The arguments of a call are positional. Parameters of the given types are read
    from an array exactly when there are no more elements than types, each element decodes
    into the type of its place, and the types that are left are pointers, which are
    nil; and nothing at all, or [null], is read as the empty array is. *)
Theorem positional_arguments types vs (Hvs : values vs) :
  (∀ args, parsePositionalArguments (array vs) types = Ok args ↔
     (length vs ≤ length types)%nat ∧ length args = length types ∧
     ∀ i t, types !! i = Some t → ∃ a, args !! i = Some a ∧ received t (vs !! i) a) ∧
  parsePositionalArguments [] types = parsePositionalArguments (array []) types ∧
  parsePositionalArguments (string_bytes "null") types = parsePositionalArguments (array []) types.
Proof.
  assert (Hempty : parsePositionalArguments (array []) types = set_missing 0 types).
  { unfold parsePositionalArguments. rewrite token_array. cbn [mbind result_bind].
    rewrite bool_decide_eq_true_2 by done. unfold parseArgumentArray.
    assert (∀ n i, parseArgumentArray_from n i types (cursor true []) = Ok []) as ->.
    { intros n i. destruct types; cbn [parseArgumentArray_from]; by rewrite more_cursor, token_end by constructor. }
    cbn. rewrite drop_0. by destruct (set_missing 0 types). }
  assert (Hnull : (Token (NewDecoder (string_bytes "null"))).1 = Ok (TValue (string_bytes "null")))
    by by vm_compute.
  rewrite Hempty. refine (conj _ (conj _ _)); unfold parsePositionalArguments.
  2: cbn; rewrite drop_0; by destruct (set_missing 0 types).
  2: destruct (Token _) as [tok d]; cbn [fst] in Hnull; rewrite Hnull, bool_decide_eq_false_2 by done;
    change (kind_of_text _) with KNull; cbn; rewrite drop_0; by destruct (set_missing 0 types).
  intros args. rewrite token_array. cbn [mbind result_bind].
  rewrite bool_decide_eq_true_2 by done. unfold parseArgumentArray. split.
  - intros (front & Hf & (rest & Hr & [= <-])%result_bind_ok)%result_bind_ok.
    apply parse_arguments_spec in Hf as [Hl Hf]; [|done]. apply set_missing_spec in Hr.
    split; [done|]. apply received_split; [done| |done|done].
    rewrite <-(Forall2_length _ _ _ Hf), length_zip_with. lia.
  - intros (Hl & Hlen & Hall).
    rewrite (proj2 (parse_arguments_spec _ _ _ _ _ (take (length vs) args) Hvs)).
    + cbn [mbind result_bind]. rewrite length_take, Nat.min_l by lia.
      rewrite (proj2 (set_missing_spec _ _ (drop (length vs) args))); [cbn [mbind result_bind]; by rewrite take_drop|].
      apply Forall2_same_length_lookup_2; [rewrite !length_drop; lia|]. intros i t a. rewrite !lookup_drop.
      intros Ht Ha. destruct (Hall _ _ Ht) as (a' & Ha' & Hrec).
      rewrite (lookup_ge_None_2 vs) in Hrec by lia. congruence.
    + split; [done|]. apply Forall2_same_length_lookup_2.
      { rewrite length_zip_with, length_take. lia. }
      intros i [t v] a (t' & v' & [= <- <-] & Ht & Hv)%lookup_zip_with_Some Ha.
      apply lookup_take_Some in Ha as [Ha _]. destruct (Hall _ _ Ht) as (a' & Ha' & Hrec).
      rewrite Hv in Hrec. simplify_eq. done.
Qed.
End Positional.

(** *** The connection *)

(** However often it is closed, the connection is closed once, and stays so. *)
Lemma close_once c : close (close c) = close c ∧ closed (close c) = true.
Proof. unfold close, closed. by destruct (closeCh c) eqn:Hc; simpl; rewrite ?Hc. Qed.

(** A write goes under a deadline, that of the context or ten seconds from then. *)
Lemma write_has_a_deadline deadline now encode v c :
  conn (writeJSON deadline now encode v c).2 =
  conn c ++ [SetWriteDeadline (default (now + 10 * second) deadline); Encoded v].
Proof. by destruct deadline. Qed.

(** ** Decoding for the rest of the service *)

Section Decoders.
Context `{GoUnicode} (interface_of : bytes → option value).

(** [NewDecoder(r).Decode(&v)] of a struct: the first value of the text. *)
Definition decode_first {A} (decode : bytes → decoded A) (bs : bytes) : result error A :=
  match (Decode (NewDecoder bs)).1 with
  | Err e => Err (json_plain e)
  | Ok raw => match decode raw with (a, None) => Ok a | (_, Some e) => Err (json_plain e) end
  end.

Definition decode_rpc_message (bs : bytes) : result error JsonrpcMessage :=
  decode_first (λ raw, decode_message interface_of raw empty_message) bs.

(** [json.Unmarshal(raw, &params)] of a list of strings; an element of another type is
    an error, and [null] leaves it empty. *)
Definition unmarshal_strings (raw : RawMessage) : result error (list string) :=
  match only_value (default [] raw) with
  | Err (BadByte b sc) => Err (json_plain (SyntaxError b sc))
  | Err Truncated => Err (json_plain EndOfInput)
  | Ok v =>
      match kind_of_text v with
      | KArray =>
          let elems := (λ x, decode_string None x "") <$> default [] (elements v) in
          match foldl keep None elems.*2 with
          | None => Ok elems.*1
          | Some e => Err (json_plain e)
          end
      | KNull => Ok []
      | _ => Err (json_plain (TypeError (kind_name (kind_of_text v)) "[]string" None))
      end
  end.

(** [json.Unmarshal(raw, &text)] of a string. *)
Definition unmarshal_string (raw : RawMessage) : result error string :=
  match only_value (default [] raw) with
  | Err (BadByte b sc) => Err (json_plain (SyntaxError b sc))
  | Err Truncated => Err (json_plain EndOfInput)
  | Ok v => match decode_string None v "" with (s, None) => Ok s | (_, Some e) => Err (json_plain e) end
  end.

(** The body of [POST /relay]: [rawTx] and [signedTransaction]. *)
Definition decode_relay_field (key : string) (v : bytes) (r : string * string) : decoded (string * string) :=
  match field_named ["rawTx"; "signedTransaction"] key with
  | Some "rawTx" =>
      let '(s, e) := decode_string (Some "relayRequest.rawTx") v r.1 in ((s, r.2), e)
  | Some "signedTransaction" =>
      let '(s, e) := decode_string (Some "relayRequest.signedTransaction") v r.2 in ((r.1, s), e)
  | _ => (r, None)
  end.

Definition decode_relay (bs : bytes) : result error (string * string) :=
  decode_first (λ raw,
    match kind_of_text raw with
    | KObject => decode_members decode_relay_field raw ("", "")
    | KNull => (("", ""), None)
    | _ => (("", ""), type_error "controller.relayRequest" None raw)
    end) bs.
End Decoders.

(** ** Witnesses *)

#[local] Existing Instance sample_unicode.

(** Strings and booleans as they are; what else there is, is not looked into. *)
Definition sample_interface (raw : bytes) : option value :=
  match kind_of_text raw with
  | KString => VStr ∘ bytes_string <$> unquote raw
  | KBool => Some (VBool (bool_decide (raw = string_bytes "true")))
  | _ => None
  end.

(** 34 is the quotation mark. *)
Definition quoted (s : string) : bytes := 34 :: string_bytes s ++ [34].

Definition sample_call : JsonrpcMessage :=
  {| m_Version := "2.0"; m_ID := Some (string_bytes "1"); m_Method := "eth_sendRawTransaction";
     m_Params := Some (array [quoted "0x00"]); m_Error := None; m_Result := None |}.

Definition sample_failure : JsonrpcMessage :=
  {| m_Version := "2.0"; m_ID := Some (quoted "a"); m_Method := ""; m_Params := None;
     m_Error := Some {| je_Code := -32610; je_Message := "no <está> permitido"; je_Data := Some (VStr "x") |};
     m_Result := None |}.

Lemma messages_roundtrip_witness :
  (∃ text, marshal_message sample_call = Ok text ∧
     readBatch sample_interface (Decode (NewDecoder (text ++ 10 :: string_bytes "garbage"))).1
       = Some (Ok ([Some sample_call], false))) ∧
  ∃ texts, Forall2 (λ m t, marshal_message m = Ok t) [sample_call; sample_failure] texts ∧
     readBatch sample_interface (Decode (NewDecoder (array texts ++ [10]))).1
       = Some (Ok ([Some sample_call; Some sample_failure], true)).
Proof.
  assert (message_ok sample_interface sample_call) as Hcall.
  { repeat split; by vm_compute. }
  assert (message_ok sample_interface sample_failure) as Hfailure.
  { repeat split; by vm_compute. }
  split.
  - destruct (messages_roundtrip sample_interface sample_call [] (string_bytes "garbage") Hcall
                (Forall_nil_2 _)) as (text & texts & Htext & _ & Hread & _).
    by exists text.
  - destruct (messages_roundtrip sample_interface sample_call [sample_call; sample_failure] [] Hcall)
      as (text & texts & _ & Htexts & _ & Hread); [by repeat constructor|].
    by exists texts.
Defined.

(** A string, and a pointer to a number. *)
Definition sample_types : list (arg_type string) :=
  [{| at_pointer := false; at_zero := "";
      at_decode raw := match decode_string None raw "" with (s, None) => Ok s | (_, Some e) => Err e end |};
   {| at_pointer := true; at_zero := "nil"; at_decode raw := Ok (bytes_string raw) |}].

Lemma positional_arguments_witness :
  parsePositionalArguments (array [quoted "latest"]) sample_types = Ok ["latest"; "nil"] ∧
  (** A required argument that is [null] is not refused. *)
  parsePositionalArguments (array [string_bytes "null"; string_bytes "7"]) sample_types = Ok [""; "7"].
Proof.
  split.
  - apply (positional_arguments sample_types [quoted "latest"]); [by repeat constructor|].
    split; [simpl; lia|]. split; [done|]. intros [|[|i]] t [= <-]; by eexists.
  - apply (positional_arguments sample_types [string_bytes "null"; string_bytes "7"]); [by repeat constructor|].
    split; [simpl; lia|]. split; [done|]. intros [|[|i]] t [= <-]; by eexists.
Defined.

(** An element that is [null] is a nil message, not an empty one. *)
Lemma null_in_a_batch_is_nil :
  parseMessage sample_interface (string_bytes "[ null, 7, {}]") =
  Some ([None; Some empty_message; Some empty_message], true).
Proof. by vm_compute. Qed.

(** The loop over a text that is no array does not end: the error stays in the decoder. *)
Lemma unchecked_batch_does_not_end n :
  parse_batch sample_interface n (Token (NewDecoder (string_bytes "[tru]"))).2 = None.
Proof.
  assert (Hstuck : ∀ n d, More d = true → (Decode d).2 = d → parse_batch sample_interface n d = None).
  { intros k d Hm Hd. induction k as [|k IH]; [done|]. cbn [parse_batch]. rewrite Hm.
    destruct (Decode d) as [v d'] eqn:He. simpl in Hd. subst d'. by rewrite IH. }
  destruct n as [|n]; [done|]. set (d := (Token _).2).
  assert (Hd : More d = true ∧ More (Decode d).2 = true ∧ (Decode (Decode d).2).2 = (Decode d).2)
    by by vm_compute.
  destruct Hd as (H1 & H2 & H3). cbn [parse_batch]. rewrite H1.
  destruct (Decode d) as [v d1]. simpl in H2, H3. by rewrite Hstuck.
Qed.

Definition error_of (t : string) : string :=
  match (Decode (NewDecoder (string_bytes t))).1 with Err e => json_error_Error e | Ok _ => "" end.

Example errors_ex :
  error_of <$> ["nuls"; " "; "[1"; "[1}"; "{1"] =
  ["invalid character 's' in literal null (expecting 'l')"; "EOF"; "unexpected EOF";
   "invalid character '}' after array element";
   "invalid character '1' looking for beginning of object key string"].
Proof. by vm_compute. Qed.
