(* ===== verification/Events.v ===== *)
(** The in-memory bus of events, [events/events.go]: a ring of the last events
    published and a bounded channel per observer. Each operation is one critical
    section of the bus's mutex; the goroutine that delivers an observer's channel
    takes one step of its own per event. *)

From S2P Require Import Prelude GoLib.

Definition subscriberBuffer : nat := 256.

Record Event := { Seq : Z; Line : fields }.

(** An observer's channel: what is buffered in it, and whether it is closed. *)
Record channel := { buffer : list Event; closed : bool }.

(** The channels outlive the registration of their observer, so they are a heap
    of their own; the channel of the observer [id] has the name [id]. *)
Record Bus := {
  enabled : bool;
  capacity : nat;
  ring : list Event;
  start : nat;
  size : nat;
  sequence : Z;
  subscribers : gset Z;
  channels : gmap Z channel;
  nextID : Z;
}.

Definition no_event : Event := {| Seq := 0; Line := ∅ |}.

(** ** The accessors of an event *)

Definition Event_text (e : Event) (key : string) : string :=
  match Line e !! key with Some (VStr s) => s | _ => "" end.
Definition Event_Name (e : Event) : string := Event_text e "event".
Definition Event_Level (e : Event) : string := Event_text e "level".
Definition Event_Ts (e : Event) : string := Event_text e "ts".
Definition Event_Field (e : Event) (key : string) : value := default VNil (Line e !! key).

(** ** The operations *)

(** A negative capacity is none. *)
Definition New (on : bool) (cap : Z) : Bus :=
  let n := Z.to_nat cap in
  {| enabled := on && (0 <? cap); capacity := n; ring := replicate n no_event;
     start := 0; size := 0; sequence := 0; subscribers := ∅; channels := ∅; nextID := 0 |}.

Definition retain (e : Event) (b : Bus) : Bus :=
  let index := ((start b + size b) mod capacity b)%nat in
  let full := negb (size b <? capacity b)%nat in
  {| enabled := enabled b; capacity := capacity b; ring := <[index := e]> (ring b);
     start := if full then ((start b + 1) mod capacity b)%nat else start b;
     size := if full then size b else S (size b);
     sequence := sequence b; subscribers := subscribers b; channels := channels b;
     nextID := nextID b |}.

(** The send that never waits: a full channel loses the event. *)
Definition offer (e : Event) (c : channel) : channel :=
  if (length (buffer c) <? subscriberBuffer)%nat
  then {| buffer := buffer c ++ [e]; closed := closed c |} else c.

Definition Publish (line : fields) (b : Bus) : Bus :=
  if enabled b then
    let seq := u64 (sequence b + 1) in
    let e := {| Seq := seq; Line := <["seq" := VInt seq]> line |} in
    let b := retain e {| enabled := enabled b; capacity := capacity b; ring := ring b;
                         start := start b; size := size b; sequence := seq;
                         subscribers := subscribers b; channels := channels b;
                         nextID := nextID b |} in
    {| enabled := enabled b; capacity := capacity b; ring := ring b; start := start b;
       size := size b; sequence := sequence b; subscribers := subscribers b;
       channels := map_imap (λ id c, Some (if decide (id ∈ subscribers b)
                                           then offer e c else c)) (channels b);
       nextID := nextID b |}
  else b.

Definition replayLocked (afterSeq : Z) (b : Bus) : list Event :=
  filter (λ e, afterSeq < Seq e)
    ((λ offset, nth ((start b + offset) mod capacity b)%nat (ring b) no_event)
       <$> seq 0 (size b)).

Definition Replay : Z → Bus → list Event := replayLocked.

Definition noReplay : Z := max_u64.

Definition ReplayAndSubscribe (afterSeq : Z) (b : Bus) : list Event * Z * Bus :=
  let retained := if decide (afterSeq = noReplay) then [] else replayLocked afterSeq b in
  let id := u64 (nextID b + 1) in
  (retained, id,
   {| enabled := enabled b; capacity := capacity b; ring := ring b; start := start b;
      size := size b; sequence := sequence b; subscribers := {[id]} ∪ subscribers b;
      channels := <[id := {| buffer := []; closed := false |}]> (channels b);
      nextID := id |}).

Definition Subscribe (b : Bus) : Z * Bus :=
  let '(_, id, b) := ReplayAndSubscribe noReplay b in (id, b).

(** The function that cuts the subscription. *)
Definition cancel (id : Z) (b : Bus) : Bus :=
  if decide (id ∈ subscribers b) then
    {| enabled := enabled b; capacity := capacity b; ring := ring b; start := start b;
       size := size b; sequence := sequence b; subscribers := subscribers b ∖ {[id]};
       channels := alter (λ c, {| buffer := buffer c; closed := true |}) id (channels b);
       nextID := nextID b |}
  else b.

Definition SubscriberCount (b : Bus) : nat := base.size (subscribers b).

(** One round of the delivering goroutine: the event it hands to the observer, if
    the channel holds one. A panic of the observer is recovered by [call]. *)
Definition deliver (id : Z) (b : Bus) : option (Event * Bus) :=
  c ← channels b !! id;
  match buffer c with
  | [] => None
  | e :: rest =>
      Some (e, {| enabled := enabled b; capacity := capacity b; ring := ring b;
                  start := start b; size := size b; sequence := sequence b;
                  subscribers := subscribers b;
                  channels := <[id := {| buffer := rest; closed := closed c |}]> (channels b);
                  nextID := nextID b |})
  end.

(** ** The bus of the process

    The functions of the package act on the bus in force, which [Init] replaces: who
    subscribed before keeps the bus of that time, to which nobody publishes any more. *)
Record process_bus := { current : Bus; previous : list Bus }.

Definition process_start : process_bus := {| current := New false 0; previous := [] |}.

Definition process_Init (on : bool) (cap : Z) (p : process_bus) : process_bus :=
  {| current := New on cap; previous := current p :: previous p |}.

Definition on_current {A} (f : Bus → A * Bus) (p : process_bus) : A * process_bus :=
  let '(a, b) := f (current p) in (a, {| current := b; previous := previous p |}).

Definition process_Default (p : process_bus) : Bus := current p.
Definition process_Publish (line : fields) (p : process_bus) : process_bus :=
  (on_current (λ b, (tt, Publish line b)) p).2.
Definition process_Replay (afterSeq : Z) (p : process_bus) : list Event := Replay afterSeq (current p).
Definition process_Subscribe : process_bus → Z * process_bus := on_current Subscribe.
Definition process_ReplayAndSubscribe (afterSeq : Z) : process_bus → (list Event * Z) * process_bus :=
  on_current (ReplayAndSubscribe afterSeq).
Definition process_SubscriberCount (p : process_bus) : nat := SubscriberCount (current p).
Definition process_Enabled (p : process_bus) : bool := enabled (current p).

Lemma publish_reaches_only_the_current line p :
  previous (process_Publish line p) = previous p ∧
  current (process_Publish line p) = Publish line (current p).
Proof. done. Qed.

(** ** What the bus holds, abstractly *)

(** The events retained, oldest first. *)
Definition retained (b : Bus) : list Event :=
  (λ offset, nth ((start b + offset) mod capacity b)%nat (ring b) no_event) <$> seq 0 (size b).

Record wf (b : Bus) : Prop := {
  wf_ring : length (ring b) = capacity b;
  wf_size : (size b ≤ capacity b)%nat;
  wf_start : (start b < capacity b ∨ (start b = 0 ∧ capacity b = 0))%nat;
  wf_enabled : enabled b = true → (0 < capacity b)%nat;
  wf_sequence : 0 ≤ sequence b < 2 ^ 64;
  wf_buffers : map_Forall (λ _ c, (length (buffer c) ≤ subscriberBuffer)%nat) (channels b);
  wf_subscribed : ∀ id, id ∈ subscribers b →
    ∃ c, channels b !! id = Some c ∧ closed c = false;
}.

(** The last [n] elements of a list. *)
Definition lastn {A} (n : nat) (l : list A) : list A := drop (length l - n) l.

Lemma retained_length b : length (retained b) = size b.
Proof. unfold retained. by rewrite length_fmap, length_seq. Qed.

Lemma lookup_retained b i :
  wf b → (i < size b)%nat →
  retained b !! i = ring b !! ((start b + i) mod capacity b)%nat.
Proof.
  intros Hwf Hi. unfold retained. rewrite list_lookup_fmap, lookup_seq_lt by done. simpl.
  destruct (lookup_lt_is_Some_2 (ring b) ((start b + i) mod capacity b)%nat) as [e He].
  { rewrite (wf_ring _ Hwf). apply Nat.mod_upper_bound. pose proof (wf_size _ Hwf). lia. }
  rewrite He. f_equal. by apply nth_lookup_Some.
Qed.

Lemma ring_index_inj c s i j :
  (i < c)%nat → (j < c)%nat → ((s + i) mod c = (s + j) mod c)%nat → i = j.
Proof.
  intros Hi Hj Heq.
  pose proof (Nat.div_mod_eq (s + i) c). pose proof (Nat.div_mod_eq (s + j) c).
  rewrite Heq in *. set (p := ((s + i) / c)%nat) in *. set (q := ((s + j) / c)%nat) in *.
  destruct (Nat.lt_trichotomy p q) as [Hpq|[Hpq|Hpq]]; [|congruence || nia|]; exfalso.
  - assert (c * (p + 1) ≤ c * q)%nat by (apply Nat.mul_le_mono_l; lia). lia.
  - assert (c * (q + 1) ≤ c * p)%nat by (apply Nat.mul_le_mono_l; lia). lia.
Qed.

(** The slot a retained event is written in, and the others. *)
Lemma slot_written e b k :
  wf b → (k < capacity b)%nat →
  nth ((start b + k) mod capacity b) (<[((start b + size b) mod capacity b)%nat := e]> (ring b)) no_event =
  if decide (k = size b mod capacity b)%nat then e
  else nth ((start b + k) mod capacity b) (ring b) no_event.
Proof.
  intros Hwf Hk. pose proof (wf_ring _ Hwf) as Hring.
  assert (Hidx : ((start b + size b) mod capacity b =
    (start b + size b mod capacity b) mod capacity b)%nat) by by rewrite Nat.Div0.add_mod_idemp_r.
  case_decide as Hks.
  - apply nth_lookup_Some. subst k. rewrite <-Hidx. apply list_lookup_insert_eq.
    rewrite Hring by lia. apply Nat.mod_upper_bound. lia.
  - rewrite !nth_lookup. rewrite list_lookup_insert_ne; [done|]. rewrite Hidx. intros Heq.
    apply ring_index_inj in Heq; [|apply Nat.mod_upper_bound; lia|done]. lia.
Qed.

(** Retaining appends, and drops the oldest when the ring is full. *)
Lemma retained_retain e b :
  wf b → (0 < capacity b)%nat →
  retained (retain e b) = lastn (capacity b) (retained b ++ [e]).
Proof.
  intros Hwf Hcap. pose proof (wf_ring _ Hwf) as Hring. pose proof (wf_size _ Hwf) as Hsize.
  apply list_eq_same_length with (n := size (retain e b)).
  { unfold lastn. rewrite length_drop, length_app, retained_length. simpl.
    destruct (Nat.ltb_spec (size b) (capacity b)); simpl; lia. }
  { apply retained_length. }
  intros i x y Hi.
  assert (Hnth : ∀ k, (k < size b)%nat →
    ring b !! ((start b + k) mod capacity b)%nat = retained b !! k).
  { intros. by rewrite lookup_retained. }
  unfold lastn. rewrite lookup_drop, length_app, retained_length. simpl in *.
  unfold retained at 1. rewrite list_lookup_fmap, lookup_seq_lt by (simpl; done). simpl.
  pose proof (λ k, slot_written e b k Hwf) as Hget. set (idx := ((start b + size b) mod capacity b)%nat) in *.
  destruct (Nat.ltb_spec (size b) (capacity b)) as [Hlt|Hge]; simpl in *.
  - rewrite (Nat.mod_small (size b)) in Hget by lia. rewrite Hget by lia.
    replace (size b + 1 - capacity b)%nat with 0%nat by lia. simpl.
    case_decide; intros [= <-].
    + subst i. rewrite lookup_app_r by (rewrite retained_length; lia).
      rewrite retained_length, Nat.sub_diag. simpl. by intros [= <-].
    + rewrite lookup_app_l by (rewrite retained_length; lia).
      rewrite <-Hnth by lia. intros Hy. by apply nth_lookup_Some.
  - assert (size b = capacity b) as Hfull by lia. rewrite Hfull in *.
    rewrite Nat.Div0.mod_same in Hget.
    replace (capacity b + 1 - capacity b)%nat with 1%nat by lia.
    rewrite Nat.Div0.add_mod_idemp_l.
    replace (start b + 1 + i)%nat with (start b + (1 + i))%nat by lia.
    destruct (decide (i = capacity b - 1)%nat) as [->|Hne].
    + replace (start b + (1 + (capacity b - 1)))%nat with (start b + 1 * capacity b)%nat by lia.
      rewrite Nat.Div0.mod_add. rewrite <-(Nat.add_0_r (start b)).
      rewrite Hget, decide_True by lia. intros [= <-].
      rewrite lookup_app_r by (rewrite retained_length; lia).
      rewrite retained_length, Hfull.
      replace (1 + (capacity b - 1) - capacity b)%nat with 0%nat by lia. by intros [= <-].
    + rewrite Hget by lia. rewrite decide_False by lia. intros [= <-].
      rewrite lookup_app_l by (rewrite retained_length; lia).
      rewrite <-Hnth by lia. intros Hy. by apply nth_lookup_Some.
Qed.

(** ** Every operation keeps the bus well formed *)

(** The critical sections and the delivering goroutines, however they interleave. *)
Inductive bus_step : Bus → Bus → Prop :=
  | step_publish line b : bus_step b (Publish line b)
  | step_subscribe after b : bus_step b (ReplayAndSubscribe after b).2
  | step_cancel id b : bus_step b (cancel id b)
  | step_deliver id e b b' : deliver id b = Some (e, b') → bus_step b b'.

Lemma New_wf on cap : wf (New on cap).
Proof.
  constructor; simpl; try lia.
  - apply length_replicate.
  - apply map_Forall_empty.
  - intros id. set_solver.
Qed.

Lemma length_offer e c :
  (length (buffer c) ≤ subscriberBuffer)%nat → (length (buffer (offer e c)) ≤ subscriberBuffer)%nat.
Proof.
  unfold offer. destruct (Nat.ltb_spec (length (buffer c)) subscriberBuffer); simpl; [|lia].
  rewrite length_app. simpl. lia.
Qed.

Lemma offer_closed e c : closed (offer e c) = closed c.
Proof. unfold offer. by case_match. Qed.

Lemma Publish_wf line b : wf b → wf (Publish line b).
Proof.
  intros Hwf. unfold Publish. destruct (enabled b) eqn:Hon; [|done].
  pose proof (wf_enabled _ Hwf Hon) as Hcap. destruct Hwf as [Hr Hs Hst He Hq Hb Hsub].
  constructor; simpl.
  - by rewrite length_insert.
  - destruct (Nat.ltb_spec (size b) (capacity b)); simpl; lia.
  - destruct (size b <? capacity b)%nat; simpl; [done|]. left. apply Nat.mod_upper_bound. lia.
  - done.
  - apply u64_range.
  - intros id c. rewrite map_lookup_imap. destruct (channels b !! id) as [c0|] eqn:Hc; [|done].
    simpl. intros [= <-]. case_decide; [apply length_offer|]; by apply (Hb id).
  - intros id Hid. destruct (Hsub id Hid) as (c & Hc & Hcl).
    rewrite map_lookup_imap, Hc. simpl. eexists. split; [done|].
    rewrite decide_True by done. by rewrite offer_closed.
Qed.

Lemma Subscribe_wf after b : wf b → wf (ReplayAndSubscribe after b).2.
Proof.
  intros [Hr Hs Hst He Hq Hb Hsub]. constructor; simpl; try done.
  - apply map_Forall_insert_2; [simpl; unfold subscriberBuffer; lia | done].
  - intros id Hid. rewrite lookup_insert. case_decide; [by eexists|].
    apply Hsub. set_solver.
Qed.

Lemma cancel_wf id b : wf b → wf (cancel id b).
Proof.
  intros [Hr Hs Hst He Hq Hb Hsub]. unfold cancel. case_decide; [|by constructor].
  constructor; simpl; try done.
  - intros k c. rewrite lookup_alter. case_decide; [|apply Hb].
    intros (c0 & Hc & ->)%fmap_Some. simpl. by apply (Hb id).
  - intros k [Hk Hne]%elem_of_difference.
    rewrite lookup_alter_ne by (intros ->; set_solver). by apply Hsub.
Qed.

Lemma deliver_wf id e b b' : deliver id b = Some (e, b') → wf b → wf b'.
Proof.
  unfold deliver. destruct (channels b !! id) as [c|] eqn:Hc; [simpl|done].
  destruct (buffer c) as [|e0 rest] eqn:Hbuf; [done|]. intros [= <- <-] [Hr Hs Hst He Hq Hb Hsub].
  constructor; simpl; try done.
  - apply map_Forall_insert_2; [|done]. simpl. specialize (Hb id c Hc). simpl in Hb.
    rewrite Hbuf in Hb. simpl in Hb. lia.
  - intros k Hk. destruct (Hsub k Hk) as (c' & Hc' & ?). rewrite lookup_insert.
    case_decide; [subst|by eexists]. eexists. split; [done|]. simpl. congruence.
Qed.

Lemma bus_step_wf b b' : bus_step b b' → wf b → wf b'.
Proof.
  destruct 1; eauto using Publish_wf, Subscribe_wf, cancel_wf, deliver_wf.
Qed.

#[export] Hint Resolve New_wf Publish_wf Subscribe_wf cancel_wf : relay.

(** ** The log the bus is a window on *)

(** The events that a sequence of publications makes, numbered from where the
    bus is. *)
Fixpoint numbered (s : Z) (lines : list fields) : list Event :=
  match lines with
  | [] => []
  | l :: ls =>
      let s := u64 (s + 1) in {| Seq := s; Line := <["seq" := VInt s]> l |} :: numbered s ls
  end.

Definition publish_all (lines : list fields) (b : Bus) : Bus :=
  foldl (λ b l, Publish l b) b lines.

Lemma publish_all_steps lines b : rtc bus_step b (publish_all lines b).
Proof.
  revert b. induction lines as [|l ls IH]; intros b; [apply rtc_refl|].
  eapply rtc_l; [apply step_publish | apply IH].
Qed.

Lemma lastn_lastn_app {A} n (l k : list A) : lastn n (lastn n l ++ k) = lastn n (l ++ k).
Proof.
  unfold lastn. rewrite !length_app, length_drop.
  destruct (Nat.le_gt_cases (length l) n).
  - replace (length l - n)%nat with 0%nat by lia. rewrite drop_0. f_equal. lia.
  - rewrite <-(drop_app_le l k (length l - n)) by lia. rewrite drop_drop. f_equal. lia.
Qed.

Lemma lastn_all {A} n (l : list A) : (length l ≤ n)%nat → lastn n l = l.
Proof. unfold lastn. intros. by replace (length l - n)%nat with 0%nat by lia. Qed.

Lemma retained_publish line b :
  wf b → enabled b = true →
  retained (Publish line b) =
    lastn (capacity b) (retained b ++ numbered (sequence b) [line]).
Proof.
  intros Hwf Hon. unfold Publish. rewrite Hon. simpl.
  apply (retained_retain _ {| enabled := enabled b; capacity := capacity b; ring := ring b;
    start := start b; size := size b; sequence := u64 (sequence b + 1);
    subscribers := subscribers b; channels := channels b; nextID := nextID b |}).
  - destruct Hwf. constructor; simpl; auto using u64_range.
  - exact (wf_enabled b Hwf Hon).
Qed.

Lemma Publish_frame line b :
  enabled (Publish line b) = enabled b ∧ capacity (Publish line b) = capacity b ∧
  subscribers (Publish line b) = subscribers b ∧
  (enabled b = true → sequence (Publish line b) = u64 (sequence b + 1)).
Proof. unfold Publish. destruct (enabled b) eqn:Hon; by rewrite ?Hon. Qed.

Lemma publish_all_retained lines b :
  wf b → enabled b = true →
  retained (publish_all lines b) =
    lastn (capacity b) (retained b ++ numbered (sequence b) lines).
Proof.
  revert b. induction lines as [|l ls IH]; intros b Hwf Hon; simpl.
  - rewrite app_nil_r, lastn_all; [done|]. rewrite retained_length. by apply wf_size.
  - destruct (Publish_frame l b) as (Hon' & Hc & _ & Hs). specialize (Hs Hon).
    change (publish_all (l :: ls) b) with (publish_all ls (Publish l b)).
    rewrite IH by (eauto with relay; congruence).
    rewrite retained_publish, Hc, Hs, lastn_lastn_app by done.
    by rewrite <-app_assoc.
Qed.

(** What an observer's channel receives: the first events it has room for. *)
Lemma publish_all_channel id c lines b :
  enabled b = true → id ∈ subscribers b → channels b !! id = Some c →
  (length (buffer c) ≤ subscriberBuffer)%nat →
  channels (publish_all lines b) !! id =
    Some {| buffer := take subscriberBuffer (buffer c ++ numbered (sequence b) lines);
            closed := closed c |}.
Proof.
  revert b c. induction lines as [|l ls IH]; intros b c Hon Hid Hc Hlen; simpl.
  - rewrite app_nil_r, take_ge by done. rewrite Hc. by destruct c.
  - destruct (Publish_frame l b) as (Hon' & _ & Hsub & Hs). specialize (Hs Hon).
    change (publish_all (l :: ls) b) with (publish_all ls (Publish l b)).
    set (e := {| Seq := u64 (sequence b + 1); Line := <["seq" := VInt (u64 (sequence b + 1))]> l |}).
    assert (channels (Publish l b) !! id = Some (offer e c)) as Hc'.
    { unfold Publish. rewrite Hon. simpl. rewrite map_lookup_imap, Hc. simpl.
      by rewrite decide_True. }
    rewrite (IH _ (offer e c)); [|congruence|by rewrite Hsub|done|by apply length_offer].
    rewrite Hs, offer_closed. do 2 f_equal. unfold offer.
    destruct (Nat.ltb_spec (length (buffer c)) subscriberBuffer); simpl.
    + by rewrite <-app_assoc.
    + rewrite !take_app_le by done. done.
Qed.

(** The bus is a window on the log: after any sequence of publications, what a
    client that reconnects with [after] is given is exactly the last [cap]
    events published, in the order and with the consecutive numbers they were
    published with, less those it already had; a bus that is off, or without
    capacity, retains nothing. *)
Theorem replay_is_window (on : bool) (cap : Z) (lines : list fields) (after : Z) :
  Replay after (publish_all lines (New on cap)) =
    if on then filter (λ e, after < Seq e) (lastn (Z.to_nat cap) (numbered 0 lines)) else [].
Proof.
  change (Replay after ?b) with (filter (λ e, after < Seq e) (retained b)).
  destruct (enabled (New on cap)) eqn:Hon.
  - simpl in Hon. apply andb_true_iff in Hon as [-> Hcap].
    rewrite publish_all_retained by (auto with relay). done.
  - assert (publish_all lines (New on cap) = New on cap) as ->.
    { induction lines as [|l ls IH]; [done|].
      change (publish_all ls (Publish l (New on cap)) = New on cap).
      assert (Publish l (New on cap) = New on cap) as -> by (unfold Publish; by rewrite Hon).
      apply IH. }
    simpl in Hon. unfold retained; simpl. destruct on; simpl in Hon; [|done].
    apply Z.ltb_ge in Hon. replace (Z.to_nat cap) with 0%nat by lia.
    unfold lastn. by rewrite drop_ge by lia.
Qed.

(** ** The log of what was published, and what a client that resumes is given

    The bus beside the lines that were published on it, the oldest first: a
    publication extends them, whatever else happens leaves them. *)
Inductive logged_step : list fields * Bus → list fields * Bus → Prop :=
  | logged_publish line log b : logged_step (log, b) (log ++ [line], Publish line b)
  | logged_subscribe after log b : logged_step (log, b) (log, (ReplayAndSubscribe after b).2)
  | logged_cancel id log b : logged_step (log, b) (log, cancel id b)
  | logged_deliver id e log b b' : deliver id b = Some (e, b') → logged_step (log, b) (log, b').

(** The same while the observer [id] neither reads nor leaves, and its name is not
    given away again. *)
Inductive while_holding (id : Z) : list fields * Bus → list fields * Bus → Prop :=
  | holding_publish line log b : while_holding id (log, b) (log ++ [line], Publish line b)
  | holding_subscribe after log b : u64 (nextID b + 1) ≠ id →
      while_holding id (log, b) (log, (ReplayAndSubscribe after b).2)
  | holding_cancel id' log b : id' ≠ id → while_holding id (log, b) (log, cancel id' b)
  | holding_deliver id' e log b b' : id' ≠ id → deliver id' b = Some (e, b') →
      while_holding id (log, b) (log, b').

Lemma numbered_app s l k :
  numbered s (l ++ k) = numbered s l ++ numbered (s + Z.of_nat (length l)) k.
Proof.
  revert s. induction l as [|x l IH]; intros s; simpl.
  - destruct k; simpl; [done|]. by rewrite Z.add_0_r.
  - f_equal. rewrite IH. f_equal. clear IH. destruct k as [|y k]; [done|]. simpl.
    rewrite <-Z.add_assoc, u64_add_l.
    by replace (s + 1 + (Z.of_nat (length l) + 1)) with (s + Z.of_nat (S (length l)) + 1) by lia.
Qed.

Lemma numbered_u64 s l : numbered (u64 s) l = numbered s l.
Proof.
  destruct l as [|x l]; [done|]. simpl.
  by rewrite u64_add_l.
Qed.

Lemma length_numbered s l : length (numbered s l) = length l.
Proof. revert s. induction l as [|x l IH]; intros s; simpl; [done|]. by rewrite IH. Qed.

Lemma drop_numbered k s l : drop k (numbered s l) = numbered (s + Z.of_nat k) (drop k l).
Proof.
  destruct (Nat.le_gt_cases k (length l)) as [Hk|Hk].
  - rewrite <-(take_drop k l) at 1. rewrite numbered_app, length_take, Nat.min_l by done.
    rewrite drop_app_length'; [done|]. rewrite length_numbered, length_take. lia.
  - rewrite !drop_ge; [done|lia|rewrite length_numbered; lia].
Qed.

(** As long as the numbers do not wrap, the events after a number are a suffix. *)
Lemma filter_numbered after s l :
  0 ≤ s → s + Z.of_nat (length l) < 2 ^ 64 →
  filter (λ e, after < Seq e) (numbered s l) = drop (Z.to_nat (after - s)) (numbered s l).
Proof.
  revert s. induction l as [|x l IH]; intros s Hs Hlen.
  - simpl. by rewrite drop_nil.
  - simpl in *. rewrite (u64_small (s + 1)) by lia. rewrite filter_cons, IH by lia. simpl.
    case_decide as Hd; simpl in Hd.
    + replace (Z.to_nat (after - s)) with 0%nat by lia.
      by replace (Z.to_nat (after - (s + 1))) with 0%nat by lia.
    + replace (Z.to_nat (after - s)) with (S (Z.to_nat (after - (s + 1)))) by lia. done.
Qed.

(** What every operation but a publication leaves as it was. *)
Lemma logged_rest s s' :
  logged_step s s' →
  (∃ line, s'.1 = s.1 ++ [line] ∧ s'.2 = Publish line s.2) ∨
  (s'.1 = s.1 ∧ bus_step s.2 s'.2 ∧ enabled s'.2 = enabled s.2 ∧
   capacity s'.2 = capacity s.2 ∧ sequence s'.2 = sequence s.2 ∧ retained s'.2 = retained s.2).
Proof.
  destruct 1 as [line log b|after log b|id log b|id e log b b' Hd]; [left; by eexists| | |];
    right; simpl.
  - split_and!; [done|apply (step_subscribe after)|done..].
  - split_and!; [done|apply (step_cancel id)|unfold cancel; by case_decide..].
  - split_and!; [done|by eapply step_deliver|..];
      revert Hd; unfold deliver; destruct (channels b !! id) as [c|]; simpl; try done;
      by destruct (buffer c); intros [= <- <-].
Qed.

(** The bus is on, and holds the window of its capacity on the log. *)
Definition windowed (cap : Z) (s : list fields * Bus) : Prop :=
  wf s.2 ∧ enabled s.2 = true ∧ capacity s.2 = Z.to_nat cap ∧
  sequence s.2 = u64 (Z.of_nat (length s.1)) ∧
  retained s.2 = lastn (Z.to_nat cap) (numbered 0 s.1).

Lemma logged_windowed cap s s' : logged_step s s' → windowed cap s → windowed cap s'.
Proof.
  intros Hstep (Hwf & Hon & Hc & Hq & Hr).
  destruct (logged_rest s s' Hstep) as [(line & Hl & Hb)|(Hl & Hb & He & Hc' & Hq' & Hr')].
  - destruct s' as [log' b']; simpl in *; subst.
    destruct (Publish_frame line s.2) as (He & Hc' & _ & Hs). unfold windowed; simpl.
    split_and!; [by auto with relay|congruence|congruence| |].
    + rewrite Hs, Hq, length_app, u64_add_l by done. f_equal. simpl. lia.
    + rewrite retained_publish, Hr, Hc, lastn_lastn_app, Hq, numbered_u64, numbered_app by done.
      done.
  - unfold windowed. rewrite Hl, He, Hc', Hq', Hr'. split_and!; try done. by eapply bus_step_wf.
Qed.

Lemma start_windowed cap : 0 < cap → windowed cap ([], New true cap).
Proof.
  intros Hcap. unfold windowed; simpl. split_and!; try done.
  - apply New_wf.
  - by apply Z.ltb_lt.
Qed.

Lemma take_take_app {A} n (l k : list A) : take n (take n l ++ k) = take n (l ++ k).
Proof.
  destruct (Nat.le_gt_cases (length l) n) as [Hl|Hl].
  - by rewrite (take_ge l n).
  - rewrite !take_app_le; [by rewrite take_take, Nat.min_id|lia|rewrite length_take; lia].
Qed.

(** What the channel of an observer that does not read holds. *)
Lemma holding_channel id s s' :
  rtc (while_holding id) s s' →
  enabled s.2 = true → id ∈ subscribers s.2 → channels s.2 !! id = Some {| buffer := []; closed := false |} →
  sequence s.2 = u64 (Z.of_nat (length s.1)) →
  ∃ later, s'.1 = s.1 ++ later ∧ enabled s'.2 = true ∧ id ∈ subscribers s'.2 ∧
    sequence s'.2 = u64 (Z.of_nat (length s'.1)) ∧
    channels s'.2 !! id =
      Some {| buffer := take subscriberBuffer (numbered (Z.of_nat (length s.1)) later); closed := false |}.
Proof.
  intros Hrun Hon Hid Hc Hq. revert s' Hrun. apply rtc_ind_r; [|intros x z _ Hstep IH].
  { exists []. rewrite app_nil_r. simpl. done. }
  destruct IH as (later & Hl & Hon' & Hid' & Hq' & Hc').
  destruct Hstep as [line log b|after log b Hne|id' log b Hne|id' e log b b' Hne Hd];
    simpl in *; subst log.
  - exists (later ++ [line]). destruct (Publish_frame line b) as (He & _ & Hs & Hsq).
    specialize (Hsq Hon'). rewrite app_assoc, He, Hs. split_and!; try done.
    { rewrite Hsq, Hq', !length_app, u64_add_l. f_equal. simpl. lia. }
    pose proof (publish_all_channel id _ [line] b Hon' Hid' Hc') as Hp.
    change (publish_all [line] b) with (Publish line b) in Hp. rewrite Hp; clear Hp; cbn [buffer closed].
    + do 2 f_equal. rewrite take_take_app, numbered_app.
      rewrite Hq', numbered_u64, length_app, Nat2Z.inj_add. done.
    + rewrite length_take. lia.
  - exists later. split_and!; try done; [set_solver|]. by rewrite lookup_insert_ne by done.
  - exists later. unfold cancel. case_decide; [|done]. simpl. split_and!; try done; [set_solver|].
    by rewrite lookup_alter_ne.
  - exists later. revert Hd. unfold deliver. destruct (channels b !! id') as [c|]; simpl; [|done].
    destruct (buffer c); [done|]. intros [= <- <-]. simpl. split_and!; try done.
    by rewrite lookup_insert_ne.
Qed.

(** (C37) Resuming loses nothing: whatever was published before (the lines of [log])
    and whatever else happened to the bus, a client that resumes from the number
    [after] is given the events of the log that it lacks among the last ones the
    capacity allows; and whatever is published from that very instant on, while
    others come, go and read and it does not read yet, its channel holds the first
    256 of those publications, numbered from where the log was: what was published
    beyond them is not in it. So, when the events after [after] were all retained,
    the numbers have not wrapped and no more than 256 were published since, what it
    is given followed by what it receives is the log from the event after [after]
    on, without gap or repetition. *)
Theorem resume_has_no_gap (cap after : Z) (log log' : list fields) (b b'' : Bus)
    (Hcap : 0 < cap) (Hafter : after ≠ noReplay)
    (Hreach : rtc logged_step ([], New true cap) (log, b)) :
  let '(history, id, b') := ReplayAndSubscribe after b in
  history = filter (λ e, after < Seq e) (lastn (Z.to_nat cap) (numbered 0 log)) ∧
  (rtc (while_holding id) (log, b') (log', b'') →
   ∃ later, log' = log ++ later ∧
     channels b'' !! id =
       Some {| buffer := take subscriberBuffer (numbered (Z.of_nat (length log)) later); closed := false |} ∧
     (Z.of_nat (length log) - cap ≤ after ≤ Z.of_nat (length log) → 0 ≤ after → Z.of_nat (length log') < 2 ^ 64 →
      (length later ≤ subscriberBuffer)%nat →
      history ++ take subscriberBuffer (numbered (Z.of_nat (length log)) later) =
        drop (Z.to_nat after) (numbered 0 log'))).
Proof.
  assert (windowed cap (log, b)) as (Hwf & Hon & Hc & Hq & Hr).
  { eapply rtc_preserves; eauto using logged_windowed, start_windowed. }
  unfold ReplayAndSubscribe. rewrite decide_False by done.
  assert (replayLocked after b =
    filter (λ e, after < Seq e) (lastn (Z.to_nat cap) (numbered 0 log))) as Hh.
  { simpl in Hr. by rewrite <-Hr. }
  split; [exact Hh|]. intros Hrun.
  destruct (holding_channel _ _ _ Hrun) as (later & Hl & _ & _ & _ & Hch);
    simpl in *; [done|set_solver|by rewrite lookup_insert_eq|done|].
  exists later. split_and!; [done|done|]. intros Hin H0 Hlen Hfit. rewrite Hh. subst log'.
  rewrite length_app in Hlen. rewrite (take_ge (numbered _ later)) by (by rewrite length_numbered).
  unfold lastn. rewrite length_numbered, drop_numbered, filter_numbered;
    [|lia|rewrite length_drop; lia].
  rewrite drop_numbered, drop_drop, drop_numbered, drop_app_le by lia. rewrite numbered_app.
  replace (length log - Z.to_nat cap + Z.to_nat (after - (0 + Z.of_nat (length log - Z.to_nat cap))))%nat
    with (Z.to_nat after) by lia.
  f_equal; f_equal; [lia|]. rewrite length_drop. lia.
Qed.

Lemma logged_publish_all lines log b :
  rtc logged_step (log, b) (log ++ lines, publish_all lines b).
Proof.
  revert log b. induction lines as [|l ls IH]; intros log b; [by rewrite app_nil_r|].
  eapply rtc_l; [apply logged_publish|]. specialize (IH (log ++ [l]) (Publish l b)).
  by rewrite <-app_assoc in IH.
Qed.

Lemma holding_publish_all id lines log b :
  rtc (while_holding id) (log, b) (log ++ lines, publish_all lines b).
Proof.
  revert log b. induction lines as [|l ls IH]; intros log b; [by rewrite app_nil_r|].
  eapply rtc_l; [apply holding_publish|]. specialize (IH (log ++ [l]) (Publish l b)).
  by rewrite <-app_assoc in IH.
Qed.

Lemma resume_has_no_gap_witness :
  let b := publish_all [∅; ∅; ∅] (New true 2) in
  let '(history, id, b') := ReplayAndSubscribe 2 b in
  Seq <$> history = [3] ∧
  ∃ later, (λ c, Seq <$> buffer c) <$> channels (publish_all [∅; ∅] b') !! id =
    Some (Seq <$> numbered 3 later) ∧ Seq <$> (history ++ numbered 3 later) = [3; 4; 5].
Proof.
  assert (2 ≠ noReplay) as Hne by (intros H; vm_compute in H; discriminate H).
  intros b. pose proof (resume_has_no_gap 2 2 [∅; ∅; ∅] ([∅; ∅; ∅] ++ [∅; ∅]) b
    (publish_all [∅; ∅] (ReplayAndSubscribe 2 b).2) ltac:(lia) Hne
    (logged_publish_all [∅; ∅; ∅] [] (New true 2))) as H.
  destruct (ReplayAndSubscribe 2 b) as [[h id] b']. destruct H as [Hh H].
  destruct (H (holding_publish_all id [∅; ∅] [∅; ∅; ∅] b')) as (later & Hl & Hc & Hall).
  apply app_inv_head in Hl as <-. rewrite Hh. change ((h, id, b').2) with b' in Hc. rewrite Hc. clear.
  split; [vm_compute; reflexivity|]. exists [∅; ∅]. split; vm_compute; reflexivity.
Defined.

(** (C36) The bus stays within its bounds and never sends on a closed channel: in every
    state the publications, subscriptions, cancellations and deliveries can
    lead to, the ring holds at most its capacity, every channel at most 256
    events, and the channel of a registered observer is open. *)
Theorem bus_invariant (on : bool) (cap : Z) (b : Bus)
    (Hreach : rtc bus_step (New on cap) b) :
  wf b.
Proof. eapply rtc_preserves; eauto using bus_step_wf, New_wf. Qed.

Lemma bus_invariant_witness :
  let b := cancel 1 (publish_all [∅] (Subscribe (New true 1)).2) in
  rtc bus_step (New true 1) b ∧ wf b.
Proof.
  assert (rtc bus_step (New true 1) (cancel 1 (publish_all [∅] (Subscribe (New true 1)).2))) as Hr.
  { eapply rtc_l; [apply (step_subscribe noReplay)|].
    eapply rtc_r; [apply publish_all_steps | apply (step_cancel 1)]. }
  split; [exact Hr | exact (bus_invariant true 1 _ Hr)].
Defined.

(** What cutting a subscription does: doing it twice is doing it once, and no event
    published afterwards reaches the observer; but the events its channel still
    buffers are handed to it all the same, so the observer may be called after
    the cancellation returned. *)
Theorem cancel_cuts_only_the_future (id : Z) (b : Bus) (c : channel)
    (Hid : id ∈ subscribers b) (Hc : channels b !! id = Some c) :
  let b' := cancel id b in
  cancel id b' = b' ∧
  (∀ lines, buffer <$> channels (publish_all lines b') !! id = Some (buffer c)) ∧
  (∀ e rest, buffer c = e :: rest → ∃ b'', deliver id b' = Some (e, b'')).
Proof.
  simpl. unfold cancel at 2 3 4 5. rewrite !decide_True by done.
  set (b' := {| enabled := _ |}).
  assert (Hout : id ∉ subscribers b') by (simpl; set_solver).
  assert (Hb' : channels b' !! id = Some {| buffer := buffer c; closed := true |}).
  { simpl. by rewrite lookup_alter_eq, Hc. }
  split_and!.
  - unfold cancel. by rewrite decide_False.
  - intros lines. revert Hout Hb'. generalize b' as b0. clear.
    induction lines as [|l ls IH]; intros b Hout Hb; simpl; [by rewrite Hb|].
    apply IH; [by destruct (Publish_frame l b) as (_ & _ & -> & _)|].
    unfold Publish. destruct (enabled b); [|done]. simpl.
    rewrite map_lookup_imap, Hb. simpl. by rewrite decide_False.
  - intros e rest Hbuf. unfold deliver. rewrite Hb'. simpl. rewrite Hbuf. eauto.
Qed.

Lemma cancel_cuts_only_the_future_witness :
  let b := publish_all [∅] (Subscribe (New true 1)).2 in
  ∃ e b', deliver 1 (cancel 1 b) = Some (e, b') ∧ Seq e = 1.
Proof.
  destruct (channels (publish_all [∅] (Subscribe (New true 1)).2) !! 1) as [c|] eqn:Hc;
    [|vm_compute in Hc; discriminate].
  destruct (cancel_cuts_only_the_future 1 (publish_all [∅] (Subscribe (New true 1)).2) c)
    as (_ & _ & H); [vm_compute; reflexivity || set_solver | exact Hc |].
  destruct (buffer c) as [|e rest] eqn:Hb; [vm_compute in Hc; simplify_eq|].
  destruct (H e rest eq_refl) as [b' Hd]. exists e, b'. split; [exact Hd|].
  vm_compute in Hc. injection Hc as <-. simpl in Hb. by injection Hb as <- _.
Defined.
