(* ===== verification/AuditLog.v ===== *)
(** The structured log, [audit/structured.go], and the correlation that travels in
    the context, [audit/context.go]. An emission is what the service hands to
    [Debug], [Info], [Warn] or [Error]; [emit] makes a line of it, publishes the
    line on the bus and then decides whether to write it. *)

From S2P Require Import Prelude GoLib Errors Events.

(** ** The context *)

(** The two values the service keeps in a context, and whether it is cancelled. *)
Record context := {
  cx_request : option string;
  cx_metatx : option string;
  cx_done : bool;
}.

Definition background : context := {| cx_request := None; cx_metatx := None; cx_done := false |}.

Inductive contextKey := requestIDKey | metaTxIDKey.

(** A nil context has no text either. *)
Definition contextText (ctx : option context) (key : contextKey) : string :=
  match ctx with
  | None => ""
  | Some c =>
      default "" (match key with requestIDKey => cx_request c | metaTxIDKey => cx_metatx c end)
  end.

Definition WithRequestID (ctx : context) (id : string) : context :=
  {| cx_request := Some id; cx_metatx := cx_metatx ctx; cx_done := cx_done ctx |}.
Definition RequestID (ctx : context) : string := contextText (Some ctx) requestIDKey.
Definition WithMetaTxID (ctx : context) (id : string) : context :=
  {| cx_request := cx_request ctx; cx_metatx := Some id; cx_done := cx_done ctx |}.
Definition MetaTxID (ctx : context) : string := contextText (Some ctx) metaTxIDKey.

(** The same values, without the cancellation. *)
Definition Detach (ctx : context) : context :=
  {| cx_request := cx_request ctx; cx_metatx := cx_metatx ctx; cx_done := false |}.

(** ** Levels *)

Inductive Level := LevelDebug | LevelInfo | LevelWarn | LevelError.

#[export] Instance Level_eq_dec : EqDecision Level.
Proof. solve_decision. Defined.

Definition level_text (l : Level) : string :=
  match l with
  | LevelDebug => "debug" | LevelInfo => "info" | LevelWarn => "warn" | LevelError => "error"
  end.

Definition severity (l : Level) : Z :=
  match l with LevelDebug => 10 | LevelInfo => 20 | LevelWarn => 30 | LevelError => 40 end.

Definition level_of_text (s : string) : option Level :=
  if decide (s = "debug") then Some LevelDebug
  else if decide (s = "info") then Some LevelInfo
  else if decide (s = "warn") then Some LevelWarn
  else if decide (s = "error") then Some LevelError
  else None.

(** What the service hands to the emitter. *)
Record emission := {
  em_ctx : context;
  em_level : Level;
  em_event : string;
  em_fields : fields;
}.

Definition Debug ctx event fs := {| em_ctx := ctx; em_level := LevelDebug; em_event := event; em_fields := fs |}.
Definition Info ctx event fs := {| em_ctx := ctx; em_level := LevelInfo; em_event := event; em_fields := fs |}.
Definition Warn ctx event fs := {| em_ctx := ctx; em_level := LevelWarn; em_event := event; em_fields := fs |}.
Definition LogError ctx event fs := {| em_ctx := ctx; em_level := LevelError; em_event := event; em_fields := fs |}.

(** ** Flattening a text to one line *)

Definition maxStackFrames : nat := 6.

Definition newline : Ascii.ascii := "010"%char.

(** [strings.Split(text, "\n")]. *)
Fixpoint split_lines (s : string) : list string :=
  match s with
  | EmptyString => [""]
  | String c s' =>
      match split_lines s' with
      | [] => []
      | l :: ls => if decide (c = newline) then "" :: l :: ls else String c l :: ls
      end
  end.

(** [strings.Join(l, sep)]. *)
Fixpoint join (sep : string) (l : list string) : string :=
  match l with
  | [] => ""
  | [x] => x
  | x :: l' => x +:+ sep +:+ join sep l'
  end.

(** The loop of [flatten]: what is left to read, and the fragments taken. *)
Fixpoint take_fragments (raws : list string) (fragments : list string) : list string * bool :=
  match raws with
  | [] => (fragments, false)
  | raw :: raws' =>
      let fragment := trim_space raw in
      if decide (fragment = "") then take_fragments raws' fragments
      else if decide (length fragments = maxStackFrames) then (fragments, true)
      else take_fragments raws' (fragments ++ [fragment])
  end.

Definition flatten (text : string) : string :=
  let '(fragments, truncated) := take_fragments (split_lines text) [] in
  let joined := join " | " fragments in
  if truncated : bool then joined +:+ " | ..." else joined.

(** ** The fields of an error *)

(** [fmt.Sprintf("%T", err)] and [fmt.Sprintf("%+v", err)]. *)
Class GoFmt := { fmt_T : error → string; fmt_verbose : error → string }.

Definition stackOf `{GoFmt} (e : error) : string :=
  let verbose := fmt_verbose e in
  if decide (verbose = Error e) then "" else flatten verbose.

Definition ErrorFields `{GoFmt} (err : option error) : fields :=
  match err with
  | None => ∅
  | Some e =>
      let out := <["errorType" := VStr (fmt_T e)]> (<["error" := VStr (flatten (Error e))]> ∅) in
      let out := match ErrorCode e with Some c => <["code" := VInt c]> out | None => out end in
      let stack := stackOf e in
      if decide (stack = "") then out else <["stack" := VStr stack]> out
  end.

(** ** Emitting *)

Record Logger := {
  configuredLevel : Z;
  logRawTx : bool;
  instanceID : string;
  bus : Bus;
  stdout : list string;
  stderr : list string;
}.

Definition InitStructured `{GoUnicode} (level : string) (rawTx : bool) (lg : Logger) : Logger :=
  {| configuredLevel :=
       match level_of_text (to_lower (trim_space level)) with
       | Some l => severity l
       | None => configuredLevel lg
       end;
     logRawTx := rawTx; instanceID := instanceID lg; bus := bus lg;
     stdout := stdout lg; stderr := stderr lg |}.

(** The identifier of the process, as it goes in every line. *)
Definition InstanceID (lg : Logger) : string := instanceID lg.

(** Identifiers, of so many random bytes; of the clock, on that width at least, when there
    are none to be had. *)
Definition newID (size : nat) (random : option bytes) (now : Z) : string :=
  match random with
  | Some buffer => hex_encode buffer
  | None => format_0x (size * 2) now
  end.

Definition NewRequestID : option bytes → Z → string := newID 6.
Definition NewMetaTxID : option bytes → Z → string := newID 4.

(** ** Where the old text log goes: [log.go]

    What the file system answers: the absolute path of the directory, whether it is
    missing, the error of making it, and that of opening the file. *)
Record log_directory := {
  ld_abs : result error string;
  ld_missing : bool;
  ld_mkdir : option error;
  ld_open : option error;
}.

Inductive log_writer := LogFile (path : string) | StandardError.

(** The writer, and what is said on the standard error when that is it. *)
Definition openLogWriter (d : log_directory) : log_writer * list string :=
  match ld_abs d with
  | Err e => (StandardError, ["audit: no se pudo resolver ./log, log a stderr: " +:+ Error e])
  | Ok absPath =>
      match ld_missing d, ld_mkdir d with
      | true, Some e =>
          (StandardError, ["audit: no se pudo crear " +:+ absPath +:+ " -> log a stderr: " +:+ Error e])
      | _, _ =>
          match ld_open d with
          | Some e => (StandardError, ["audit: no se pudo abrir el log -> stderr: " +:+ Error e])
          | None => (LogFile (absPath +:+ "/idbServiceLog.log"), [])
          end
      end
  end.

(** A process always has where to write; when it is not the file, it has said why. *)
Lemma openLogWriter_says d :
  match openLogWriter d with
  | (LogFile path, said) => said = [] ∧ ld_open d = None ∧ ∃ dir, ld_abs d = Ok dir ∧ path = dir +:+ "/idbServiceLog.log"
  | (StandardError, said) => ∃ why, said = [why]
  end.
Proof. unfold openLogWriter. repeat (case_match; simplify_eq); eauto 6. Qed.

Lemma newID_length size random now :
  length random = size → String.length (newID size (Some random) now) = (2 * size)%nat.
Proof.
  intros <-. simpl. induction random as [|b bs IH]; [done|]. simpl in *. rewrite IH. lia.
Qed.

Section Emit.
(** [json.Marshal] of a map, and the reading of the clock in the log's format. *)
Context (marshal : fields → result error string) (now_ts : string).

Definition line_of (lg : Logger) (em : emission) : fields :=
  let line : fields :=
    <["ts" := VStr now_ts]> (<["level" := VStr (level_text (em_level em))]>
    (<["event" := VStr (em_event em)]> (<["instanceId" := VStr (instanceID lg)]> ∅))) in
  let id := RequestID (em_ctx em) in
  let line := if decide (id = "") then line else <["reqId" := VStr id]> line in
  let id := MetaTxID (em_ctx em) in
  let line := if decide (id = "") then line else <["metaTxId" := VStr id]> line in
  em_fields em ∪ line.

Definition print (level : Level) (text : string) (lg : Logger) : Logger :=
  let is_err := bool_decide (level = LevelWarn ∨ level = LevelError) in
  {| configuredLevel := configuredLevel lg; logRawTx := logRawTx lg;
     instanceID := instanceID lg; bus := bus lg;
     stdout := if is_err then stdout lg else stdout lg ++ [text];
     stderr := if is_err then stderr lg ++ [text] else stderr lg |}.

Definition field_of (line : fields) (k : string) : value := default VNil (line !! k).

Definition write (level : Level) (line : fields) (lg : Logger) : Logger :=
  match marshal line with
  | Ok text => print level text lg
  | Err e =>
      match marshal (<["ts" := field_of line "ts"]> (<["level" := field_of line "level"]>
              (<["event" := field_of line "event"]>
              (<["logError" := VStr ("no se pudo serializar el evento: " +:+ Error e)]> ∅))))
      with
      | Ok text => print level text lg
      | Err _ => lg
      end
  end.

Definition emit (em : emission) (lg : Logger) : Logger :=
  let line := line_of lg em in
  let lg := {| configuredLevel := configuredLevel lg; logRawTx := logRawTx lg;
               instanceID := instanceID lg; bus := Publish line (bus lg);
               stdout := stdout lg; stderr := stderr lg |} in
  if severity (em_level em) <? configuredLevel lg then lg
  else write (em_level em) line lg.

Lemma write_bus level line lg : bus (write level line lg) = bus lg.
Proof. unfold write. by repeat case_match. Qed.

(** The level regulates the console and nothing else: every emission reaches
    the bus, with the same line whatever the configured level, before any
    write; below the level nothing is written at all, and a field that cannot
    be serialised never takes the event off the bus. *)
Theorem level_regulates_console_only (em : emission) (lg : Logger) (level : Z) :
  let with_level := {| configuredLevel := level; logRawTx := logRawTx lg;
                       instanceID := instanceID lg; bus := bus lg;
                       stdout := stdout lg; stderr := stderr lg |} in
  bus (emit em with_level) = Publish (line_of lg em) (bus lg) ∧
  bus (emit em lg) = bus (emit em with_level) ∧
  (severity (em_level em) < level →
     stdout (emit em with_level) = stdout lg ∧ stderr (emit em with_level) = stderr lg).
Proof.
  simpl. unfold emit. simpl. split_and!.
  - case_match; [done|]. by rewrite write_bus.
  - repeat case_match; by rewrite ?write_bus.
  - intros Hl%Z.ltb_lt. by rewrite Hl.
Qed.
End Emit.

(** ** A flattened text is one line *)

Definition char_in (c : Ascii.ascii) (s : string) : Prop := byte_of_ascii c ∈ string_bytes s.

Lemma split_lines_nonempty s : split_lines s ≠ [].
Proof. induction s as [|c s IH]; simpl; [done|]. destruct (split_lines s); [done|]. by case_decide. Qed.

Lemma split_lines_spec s : Forall (λ l, ¬ char_in newline l) (split_lines s).
Proof.
  unfold char_in. induction s as [|c s IH]; simpl.
  - constructor; [set_solver | constructor].
  - destruct (split_lines s) as [|l ls]; [constructor|].
    inversion IH as [|?? Hl Hls]; subst.
    case_decide as Hc; [constructor; [set_solver | done]|].
    constructor; [|done]. simpl. rewrite not_elem_of_cons. split; [|done].
    intros Heq. apply Hc. rewrite <-(ascii_of_byte_of_ascii c), <-Heq. apply ascii_of_byte_of_ascii.
Qed.

Lemma strip_seq_sub p bs rest b : strip_seq p bs = Some rest → b ∈ rest → b ∈ bs.
Proof.
  revert bs. induction p as [|a p IH]; intros bs; simpl; [by intros [= ->]|].
  destruct bs as [|b' bs]; [done|]. case_decide; [|done]. intros ??. right. eauto.
Qed.

Lemma strip_all_sub pats n bs b : b ∈ strip_all pats n bs → b ∈ bs.
Proof.
  revert bs. induction n as [|n IH]; intros bs; simpl; [done|].
  destruct (strip_first pats bs) as [rest|] eqn:Hf; [|done]. intros Hb%IH.
  clear IH. induction pats as [|p pats IHp]; simpl in Hf; [done|].
  destruct (strip_seq p bs) eqn:Hs; [|by apply IHp]. simplify_eq. eauto using strip_seq_sub.
Qed.

(** Trimming only takes bytes away. *)
Lemma trim_space_sub s b : b ∈ string_bytes (trim_space s) → b ∈ string_bytes s.
Proof.
  unfold trim_space. set (left := strip_all space_sequences _ _).
  assert (bytes_ok left) as Hok.
  { apply Forall_forall. intros x Hx%strip_all_sub.
    pose proof (string_bytes_ok s) as Hs. by eapply Forall_forall in Hs. }
  rewrite string_bytes_string.
  - rewrite elem_of_reverse. intros Hb%strip_all_sub.
    rewrite elem_of_reverse in Hb. by apply strip_all_sub in Hb.
  - apply Forall_forall. intros x. rewrite elem_of_reverse. intros Hx%strip_all_sub.
    rewrite elem_of_reverse in Hx. unfold bytes_ok in Hok. by eapply Forall_forall in Hok.
Qed.

Lemma take_fragments_spec raws fragments :
  Forall (λ l, ¬ char_in newline l) raws → Forall (λ l, ¬ char_in newline l) fragments →
  (length fragments ≤ maxStackFrames)%nat →
  let '(out, _) := take_fragments raws fragments in
  Forall (λ l, ¬ char_in newline l) out ∧ (length out ≤ maxStackFrames)%nat.
Proof.
  intros Hraws. revert fragments. induction Hraws as [|raw raws Hraw _ IH];
    intros fragments Hf Hlen; simpl; [done|].
  case_decide; [by apply IH|]. case_decide; [done|].
  apply IH; [|rewrite length_app; simpl; unfold maxStackFrames in *; lia].
  apply Forall_app. split; [done|]. constructor; [|constructor].
  intros Hin. apply Hraw. by apply trim_space_sub.
Qed.

Lemma char_in_app c s t : char_in c (s +:+ t) ↔ char_in c s ∨ char_in c t.
Proof. unfold char_in. by rewrite string_bytes_app, elem_of_app. Qed.

Lemma char_in_join c sep l :
  char_in c (join sep l) → char_in c sep ∨ ∃ x, x ∈ l ∧ char_in c x.
Proof.
  induction l as [|x [|y l] IH]; simpl; [unfold char_in; set_solver|..].
  - intros. right. exists x. set_solver.
  - rewrite !char_in_app. intros [?|[?|Hj]]; [right; exists x; set_solver|auto|].
    destruct (IH Hj) as [?|(z & ? & ?)]; [auto|]. right. exists z. set_solver.
Qed.

Lemma no_newline_sep : ¬ char_in newline " | ".
Proof. unfold char_in. apply (bool_decide_unpack _). by vm_compute. Qed.

Lemma no_newline_cut : ¬ char_in newline " | ...".
Proof. unfold char_in. apply (bool_decide_unpack _). by vm_compute. Qed.

(** A text of any length and any number of lines becomes a single line of at most
    six fragments and the mark of the cut: no line break survives. *)
Theorem flatten_is_one_line (text : string) :
  ¬ char_in newline (flatten text) ∧
  (length (take_fragments (split_lines text) []).1 ≤ maxStackFrames)%nat.
Proof.
  unfold flatten.
  pose proof (take_fragments_spec (split_lines text) [] (split_lines_spec text)
    (Forall_nil_2 _) ltac:(unfold maxStackFrames; simpl; lia)) as H.
  destruct (take_fragments (split_lines text) []) as [fragments truncated].
  destruct H as [Hall Hlen]. split; [|done].
  assert (¬ char_in newline (join " | " fragments)) as Hj.
  { intros [Hs|(x & Hx & Hc)]%char_in_join.
    - by apply no_newline_sep in Hs.
    - rewrite Forall_forall in Hall. by apply (Hall x). }
  destruct truncated; [|done]. rewrite char_in_app. intros [?|Hs]; [done|]. by apply no_newline_cut in Hs.
Qed.

(** The log and the client are told the same: the numeric code in the fields of an
    error is the one its JSON-RPC answer carries, and the log has none exactly
    when the answer falls back on the default. *)
Theorem log_and_answer_agree `{GoFmt} (id : RawMessage) (e : error) :
  match ErrorFields (Some e) !! "code" with
  | Some v => ∃ c, v = VInt c ∧ je_Code <$> m_Error (HandleError id e) = Some c
  | None => je_Code <$> m_Error (HandleError id e) = Some defaultErrorCode
  end.
Proof.
  unfold ErrorFields. simpl.
  assert (∀ (m : fields) v, (<["stack" := v]> m : fields) !! "code" = m !! "code") as Hst.
  { intros. by rewrite lookup_insert_ne. }
  destruct (ErrorCode e) as [c|]; case_decide; rewrite ?Hst; simpl;
    rewrite ?lookup_insert_eq; try (by exists c); by rewrite !lookup_insert_ne, lookup_empty.
Qed.

Definition sample_fmt : GoFmt := {| fmt_T _ := "errors.customError"; fmt_verbose := Error |}.
