(* ===== verification/Client.v ===== *)
(** The client of the node, [blockchain/client.go], and [model/RawTransaction.go].

    The node itself, the generated contract bindings, the ABI codec, RLP and the
    elliptic-curve library are not in this repository: what they answer enters as
    the fields of a [Node], one reading of the network, and of the class [EthLib].
    What the client adds to those answers is modelled in full: which one it asks,
    and the type, message and numeric code it wraps each failure with. *)

From S2P Require Import Prelude GoLib Errors.

(** ** Values of go-ethereum *)

(** What the accessors of a [types.Transaction] return. *)
Record Transaction := {
  tx_Nonce : Z;
  tx_GasPrice : Z;
  tx_Gas : Z;
  tx_To : option address;
  tx_Value : Z;
  tx_Data : bytes;
  tx_ChainId : Z;
  tx_V : option Z;
  tx_R : option Z;
  tx_S : option Z;
  tx_Hash : hash;
}.

Record Log := { lg_Topics : list hash; lg_Data : bytes }.

Record Receipt := {
  rc_PostState : bytes;
  rc_Status : Z;
  rc_Logs : list Log;
  rc_ContractAddress : address;
  rc_GasUsed : Z;
  rc_BlockNumber : option Z;
}.

(** [bind.TransactOpts]. *)
Record TransactOpts := {
  op_From : address;
  op_Nonce : Z;
  op_Value : Z;
  op_GasLimit : Z;
  op_GasPrice : Z;
}.

(** ** [model/RawTransaction.go] *)

Record txdata := {
  AccountNonce : Z;
  Price : Z;
  GasLimit : Z;
  Recipient : option address;
  Amount : Z;
  Payload : bytes;
}.

(** A nil [*big.Int] is left at zero. *)
Definition newTransaction (nonce : Z) (to : option address) (amount : option Z) (gasLimit : Z)
    (gasPrice : option Z) (data : bytes) : txdata :=
  {| AccountNonce := nonce; Price := default 0 gasPrice; GasLimit := gasLimit;
     Recipient := to; Amount := default 0 amount; Payload := data |}.

Definition NewTransaction (nonce : Z) (to : address) (amount : option Z) (gasLimit : Z)
    (gasPrice : option Z) (data : bytes) : txdata :=
  newTransaction nonce (Some to) amount gasLimit gasPrice data.

Definition NewContractCreation (nonce : Z) (amount : option Z) (gasLimit : Z)
    (gasPrice : option Z) (data : bytes) : txdata :=
  newTransaction nonce None amount gasLimit gasPrice data.

(** ** Libraries *)

Class EthLib := {
  privateKey : Type;
  HexToECDSA : string → result error privateKey;
  PubkeyToAddress : privateKey → address;
  (** The transaction it could decode, and the error. *)
  rlp_DecodeTransaction : bytes → Transaction * option error;
  rlp_EncodeToBytes : txdata → result error bytes;
  (** [tx.AsMessage(NewEIP155Signer(chainId))]: the sender it recovers. *)
  AsMessage : Transaction → Z → result error address;
  abi_Pack : string → bytes → Z → bytes → bytes → result error bytes;
  (** [%s] of a [common.Address]. *)
  address_String : address → string;
}.

(** One reading of the network. *)
Record Node := {
  Dial : string → option error;
  PendingNonceAt : address → result error Z;
  NonceAt : address → result error Z;
  TransactionReceipt : hash → result error Receipt;
  HeaderByNumber : option Z → result error hash;
  eth_ChainID : result error (option Z);
  BalanceAt : address → result error (option Z);
  CodeAt : address → result error bytes;
  NewRelay : address → option error;
  NewAccount : address → option error;
  hub_RelayMetaTx : address → TransactOpts → Z → bytes → Z → bytes → bytes → result error Transaction;
  hub_DeployMetaTx : address → TransactOpts → Z → bytes → Z → bytes → bytes → result error Transaction;
  hub_IncreaseGasUsed : address → TransactOpts → Z → result error Transaction;
  hub_GetNonce : address → address → address → result error (option Z);
  hub_GetGasLimit : address → address → result error (option Z);
  hub_GetMaxGasBlockLimit : address → result error (option Z);
  hub_GetNodeGasLimit : address → address → result error (option Z);
  hub_GetCurrentGasLimit : address → result error (option Z);
  acc_AccountPermitted : address → address → result error bool;
  ingress_getContractAddress : address → bytes → result error address;
}.

Section Client.
Context `{Geth} `{EthLib} `{PkgErrors} (node : Node).

(** A failure, wrapped the way every method of the client does. *)
Definition wrapped {A} (t : ErrorType) (msg : string) (code : Z) (r : result error A) :
    result error A :=
  match r with
  | Ok a => Ok a
  | Err e => Err (type_Wrapf t e msg code [])
  end.

Definition no_error (o : option error) : result error unit :=
  match o with None => Ok tt | Some e => Err e end.

Definition Connect (nodeURL : string) : result error unit :=
  wrapped FailedConnection (fmt_Sprintf "Can't connect to node %s" [VStr nodeURL]) (-32100)
    (no_error (Dial node nodeURL)).

(** The instance of the hub's binding that every call starts by making. *)
Definition relay_instance (contractAddress : address) : result error unit :=
  wrapped FailedContract
    (fmt_Sprintf "can't instance RelayHub contract %s" [VStr (address_String contractAddress)])
    (-32603) (no_error (NewRelay node contractAddress)).

(** The account's nonce goes through an [int64]. *)
Definition ConfigTransaction (key : privateKey) (gasLimit : Z) (pending : bool) :
    result error TransactOpts :=
  let from := PubkeyToAddress key in
  nonce ← (if pending
           then wrapped FailedConfigTransaction
                  (fmt_Sprintf "can't get pending nonce for:%s" [VStr (address_String from)])
                  (-32603) (PendingNonceAt node from)
           else wrapped FailedConfigTransaction
                  (fmt_Sprintf "can't get latest nonce for:%s" [VStr (address_String from)])
                  (-32604) (NonceAt node from));
  Ok {| op_From := from; op_Nonce := i64 nonce; op_Value := 0; op_GasLimit := gasLimit;
        op_GasPrice := 0 |}.

(** A hash is an array of 32 bytes, so the test on its length never fires. *)
Definition SendMetatransaction (contractAddress : address) (options : TransactOpts)
    (to : option address) (signingData : bytes) (v : Z) (r s : bytes) :
    result error Transaction :=
  _ ← relay_instance contractAddress;
  wrapped FailedTransaction "failed executing smart contract" (-32603)
    (match to with
     | Some _ => hub_RelayMetaTx node contractAddress options (op_GasLimit options) signingData v r s
     | None => hub_DeployMetaTx node contractAddress options (op_GasLimit options) signingData v r s
     end).

Definition relayMetaTxMethod := "relayMetaTx".
Definition deployMetaTxMethod := "deployMetaTx".

(** The unsigned transaction: nonce, recipient, gas limit and data. *)
Definition GenerateTransaction (options : TransactOpts) (to : option address)
    (relayAddress : address) (signingData : bytes) (v : Z) (r s : bytes) :
    result error txdata :=
  data ← wrapped FailedTransaction "Error encoding transaction" (-32603)
           (abi_Pack (if to is Some _ then relayMetaTxMethod else deployMetaTxMethod) signingData v r s);
  Ok {| AccountNonce := u64 (Z.abs (op_Nonce options)); Price := 0; GasLimit := op_GasLimit options;
        Recipient := Some relayAddress; Amount := 0; Payload := data |}.

Definition hash_Hex (h : hash) : string := "0x" +:+ hex_encode h.

Definition GetTransactionReceipt (transactionHash : hash) : result error Receipt :=
  receipt ← wrapped CallBlockchainFailed
    (fmt_Sprintf "failed get transaction receipt %s" [VStr (hash_Hex transactionHash)])
    (-32603) (TransactionReceipt node transactionHash);
  Ok {| rc_PostState := [0]; rc_Status := rc_Status receipt; rc_Logs := rc_Logs receipt;
        rc_ContractAddress := rc_ContractAddress receipt; rc_GasUsed := rc_GasUsed receipt;
        rc_BlockNumber := rc_BlockNumber receipt |}.

Definition GetTransactionCount (contractAddress addr nodeAddress : address) :
    result error (option Z) :=
  _ ← relay_instance contractAddress;
  wrapped CallBlockchainFailed
    (fmt_Sprintf "failed get transaction count for %s" [VStr (address_Hex addr)]) (-32603)
    (hub_GetNonce node contractAddress nodeAddress addr).

Definition DecreaseGasUsed (contractAddress : address) (options : TransactOpts) (gasUsed : Z) :
    result error hash :=
  _ ← relay_instance contractAddress;
  tx ← wrapped FailedTransaction "failed executing contract" (-32603)
         (hub_IncreaseGasUsed node contractAddress options gasUsed);
  Ok (tx_Hash tx).

Definition GetMaxBlockGasLimit (contractAddress : address) : result error (option Z) :=
  _ ← relay_instance contractAddress;
  wrapped CallBlockchainFailed
    (fmt_Sprintf "failed get max block gasLimit from %s" [VStr (address_Hex contractAddress)])
    (-32603) (hub_GetMaxGasBlockLimit node contractAddress).

(** The header is kept as its hash. A nil limit, or a nil number in the message of
    a failure, is dereferenced. *)
Definition GetBlockByNumber (contractAddress : address) (blockNumber : option Z) :
    outcome (result error (hash * Z)) :=
  match HeaderByNumber node blockNumber with
  | Err e =>
      match blockNumber with
      | None => Panics "nil *big.Int"
      | Some n =>
          Returns (wrapped CallBlockchainFailed
            (fmt_Sprintf "failed get block by number %d" [VInt (u64 n)]) (-32603) (Err e))
      end
  | Ok block =>
      match GetMaxBlockGasLimit contractAddress with
      | Err e => Returns (Err e)
      | Ok None => Panics "nil *big.Int"
      | Ok (Some gasLimit) => Returns (Ok (block, u64 gasLimit))
      end
  end.

Definition GetGasLimit (contractAddress nodeAddress : address) : result error (option Z) :=
  _ ← relay_instance contractAddress;
  wrapped CallBlockchainFailed
    (fmt_Sprintf "failed get gasLimit from %s" [VStr (address_Hex contractAddress)])
    (-32603) (hub_GetGasLimit node contractAddress nodeAddress).

Definition GetNodeGasLimit (contractAddress nodeAddress : address) : result error (option Z) :=
  _ ← relay_instance contractAddress;
  wrapped CallBlockchainFailed
    (fmt_Sprintf "failed get node gasLimit from %s" [VStr (address_Hex contractAddress)])
    (-32603) (hub_GetNodeGasLimit node contractAddress nodeAddress).

Definition GetCurrentGasLimit (contractAddress : address) : result error (option Z) :=
  _ ← relay_instance contractAddress;
  wrapped CallBlockchainFailed
    (fmt_Sprintf "failed get current gasLimit from %s" [VStr (address_Hex contractAddress)])
    (-32603) (hub_GetCurrentGasLimit node contractAddress).

Definition AccountPermitted (contractAddress senderAddress : address) : result error bool :=
  _ ← wrapped FailedContract
        (fmt_Sprintf "can't instance RelayHub contract %s"
           [VStr (address_String contractAddress)])
        (-32603) (no_error (NewAccount node contractAddress));
  wrapped CallBlockchainFailed
    (fmt_Sprintf "failed to know if account is permitted from %s"
       [VStr (address_Hex contractAddress)])
    (-32603) (acc_AccountPermitted node contractAddress senderAddress).

Definition ChainID : result error (option Z) :=
  wrapped CallBlockchainFailed "can't get chain id" (-32603) (eth_ChainID node).

Definition BalanceOf (addr : address) : result error (option Z) :=
  wrapped CallBlockchainFailed
    (fmt_Sprintf "can't get balance for %s" [VStr (address_Hex addr)]) (-32603)
    (BalanceAt node addr).

(** "rules", as 32 bytes. *)
Definition rulesContractName : bytes :=
  string_bytes "rules" ++ replicate 27 0.

Definition HasCode (addr : address) : result error bool :=
  code ← wrapped CallBlockchainFailed
    (fmt_Sprintf "failed to read the code at %s" [VStr (address_Hex addr)]) (-32603)
    (CodeAt node addr);
  Ok (0 <? length code)%nat.

(** The ABI it parses first is a constant of the file, which is well formed. *)
Definition ResolveAccountRules (ingress : address) : result error address :=
  wrapped CallBlockchainFailed
    (fmt_Sprintf "failed to resolve the account rules contract from the AccountIngress %s"
       [VStr (address_Hex ingress)])
    (-32603) (ingress_getContractAddress node ingress rulesContractName).

(** ** Every failure of the client is a failure with a code *)

Lemma wrapped_err {A} t msg code (r : result error A) e :
  wrapped t msg code r = Err e → GetType e = t ∧ ErrorCode e = Some code.
Proof. destruct r; simpl; [done|]. by intros [= <-]. Qed.

Lemma relay_instance_err c e :
  relay_instance c = Err e → GetType e = FailedContract ∧ ErrorCode e = Some (-32603).
Proof. apply wrapped_err. Qed.

End Client.

(** The numeric codes the client fails with. *)
Definition client_codes : list Z := [-32100; -32603; -32604].

Definition client_failure {A} (r : result error A) : Prop :=
  match r with Ok _ => True | Err e => ∃ c, c ∈ client_codes ∧ ErrorCode e = Some c end.

Lemma wrapped_failure `{PkgErrors} {A} t msg code (r : result error A) :
  code ∈ client_codes → client_failure (wrapped t msg code r).
Proof. intros. destruct r; simpl; eauto. Qed.

Lemma bind_failure {A B} (r : result error A) (f : A → result error B) :
  client_failure r → (∀ a, client_failure (f a)) → client_failure (r ≫= f).
Proof. destruct r; simpl; auto. Qed.

Ltac client_fails :=
  repeat first
    [ apply bind_failure; [|intros ?]
    | apply wrapped_failure; unfold client_codes; set_solver
    | case_match
    | exact I ].

(** Whatever the node answers, a failure of the client carries one of three numeric
    codes of its own: no error of a library reaches the service uncoded, so the
    rejections made of them keep their code at the JSON-RPC door. *)
Theorem client_failures_are_coded `{Geth} `{EthLib} `{PkgErrors} (node : Node) :
  (∀ url, client_failure (Connect node url)) ∧
  (∀ k g p, client_failure (ConfigTransaction node k g p)) ∧
  (∀ c o t d v r s, client_failure (SendMetatransaction node c o t d v r s)) ∧
  (∀ h, client_failure (GetTransactionReceipt node h)) ∧
  (∀ c a n, client_failure (GetTransactionCount node c a n)) ∧
  (∀ c o g, client_failure (DecreaseGasUsed node c o g)) ∧
  (∀ c n, client_failure (GetNodeGasLimit node c n)) ∧
  (∀ c s, client_failure (AccountPermitted node c s)) ∧
  (∀ a, client_failure (HasCode node a)) ∧
  (∀ a, client_failure (ResolveAccountRules node a)).
Proof.
  split_and!; intros; unfold Connect, ConfigTransaction, SendMetatransaction,
    GetTransactionReceipt, GetTransactionCount, DecreaseGasUsed, GetNodeGasLimit,
    AccountPermitted, HasCode, ResolveAccountRules, relay_instance; client_fails.
Qed.

(** ** A concrete library and network, for the witnesses *)

Definition sample_transaction : Transaction := {|
  tx_Nonce := 7; tx_GasPrice := 0; tx_Gas := 100000; tx_To := Some (replicate 20 17);
  tx_Value := 0; tx_Data := []; tx_ChainId := 0; tx_V := Some 27; tx_R := Some 1; tx_S := Some 2;
  tx_Hash := replicate 32 9 |}.

Definition sample_eth : EthLib := {|
  privateKey := string;
  HexToECDSA k := Ok k;
  PubkeyToAddress _ := replicate 20 1;
  rlp_DecodeTransaction _ := (sample_transaction, None);
  rlp_EncodeToBytes d := Ok (Payload d);
  AsMessage _ _ := Ok (replicate 20 2);
  abi_Pack _ d _ _ _ := Ok d;
  address_String a := "0x" +:+ hex_encode a;
|}.

Definition sample_receipt : Receipt := {|
  rc_PostState := []; rc_Status := 1; rc_Logs := []; rc_ContractAddress := zero_address;
  rc_GasUsed := 21000; rc_BlockNumber := Some 5 |}.

(** A network that answers everything; the rules contract permits every account but
    the zero address. *)
Definition sample_node : Node := {|
  Dial _ := None;
  PendingNonceAt _ := Ok 3;
  NonceAt _ := Ok 3;
  TransactionReceipt _ := Ok sample_receipt;
  HeaderByNumber _ := Ok zero_hash;
  eth_ChainID := Ok (Some 648540);
  BalanceAt _ := Ok (Some 0);
  CodeAt _ := Ok [96];
  NewRelay _ := None;
  NewAccount _ := None;
  hub_RelayMetaTx _ _ _ _ _ _ _ := Ok sample_transaction;
  hub_DeployMetaTx _ _ _ _ _ _ _ := Ok sample_transaction;
  hub_IncreaseGasUsed _ _ _ := Ok sample_transaction;
  hub_GetNonce _ _ _ := Ok (Some 4);
  hub_GetGasLimit _ _ := Ok (Some 10000000);
  hub_GetMaxGasBlockLimit _ := Ok (Some 10000000);
  hub_GetNodeGasLimit _ _ := Ok (Some 1000000);
  hub_GetCurrentGasLimit _ := Ok (Some 1000000);
  acc_AccountPermitted _ a := Ok (bool_decide (a ≠ zero_address));
  ingress_getContractAddress _ _ := Ok (replicate 20 8);
|}.
