(* ===== verification/Permissioning.v ===== *)
(** Where the rules contract comes from and which accounts it permits:
    [service/permissioning.go], with [NodeAddress] of [service/info.go].

    The cache of the rules contract is shared by every request, each of its two
    accesses a critical section of its mutex; the node is consulted between them,
    under no lock. *)

From S2P Require Import Prelude GoLib Config Errors Events AuditLog Client.

Definition rulesFromConfig := "config".
Definition rulesFromIngress := "ingress".

Record permissionEntry := { permitted : bool; expiresAt : Z }.

Record accountRules := {
  ar_address : address;
  ar_source : string;
  ar_cache : gmap address permissionEntry;
}.

(** The fields of the service that [rulesMutex] protects. *)
Record Rules := {
  rules : option accountRules;
  nodePermitted : option bool;
}.

Definition newAccountRules (a : address) (source : string) : accountRules :=
  {| ar_address := a; ar_source := source; ar_cache := ∅ |}.

(** ** The cache *)

(** What is known of an account, while it is fresh. *)
Definition cached (r : accountRules) (account : address) (now : Z) : option bool :=
  match ar_cache r !! account with
  | None => None
  | Some e => if now <? expiresAt e then Some (permitted e) else None
  end.

Definition remember (r : accountRules) (account : address) (ok : bool) (expires : Z) :
    accountRules :=
  {| ar_address := ar_address r; ar_source := ar_source r;
     ar_cache := <[account := {| permitted := ok; expiresAt := expires |}]> (ar_cache r) |}.

(** The cache of the rules contract in force, changed where it lives. *)
Definition remember_in (account : address) (ok : bool) (expires : Z) (s : Rules) : Rules :=
  {| rules := (λ r, remember r account ok expires) <$> rules s;
     nodePermitted := nodePermitted s |}.

Section Permissioning.
Context `{Geth} `{EthLib} `{PkgErrors} `{GoFmt} (cfg : option Config).

(** The address this service signs with. The public key of an ECDSA key is always
    of the type the code asks for. *)
Definition NodeAddress (c : Config) : result error address :=
  match HexToECDSA (Key (Application c)) with
  | Err e => Err e
  | Ok key => Ok (PubkeyToAddress key)
  end.

Definition rulesCacheTTL : Z :=
  match cfg with
  | Some c => if 0 <? AccountRulesCacheMs (Permissioning c)
              then duration (AccountRulesCacheMs (Permissioning c)) millisecond
              else duration DefaultAccountRulesCacheMs millisecond
  | None => duration DefaultAccountRulesCacheMs millisecond
  end.

Definition configuredRulesAddress : option address :=
  match cfg with
  | None => None
  | Some c =>
      let a := AccountContractAddress (Security c) in
      if decide (a = "") then None
      else if IsHexAddress a then Some (HexToAddress a) else None
  end.

Definition ingressAddress : option address :=
  match cfg with
  | None => None
  | Some c =>
      let a := AccountIngressAddress (Permissioning c) in
      if decide (a = "") then None else Some (HexToAddress a)
  end.

Definition permissions_enabled : bool :=
  match cfg with Some c => PermissionsEnabled (Security c) | None => false end.

(** The URL every connection goes to; the code reads it of a configuration it has
    already found present. *)
Definition node_url : string :=
  match cfg with Some c => NodeURL (Application c) | None => "" end.

(** The precedence: the configured address first, the registry after. *)
Definition resolveRules (node : Node) (ctx : context) : option accountRules * list emission :=
  match configuredRulesAddress, ingressAddress with
  | None, None => (None, [])
  | configured, ingress =>
      match Connect node node_url with
      | Err e =>
          let warning := [Warn ctx "permissioning.resolve_failed" (ErrorFields (Some e))] in
          match configured with
          | Some a => (Some (newAccountRules a rulesFromConfig), warning)
          | None => (None, warning)
          end
      | Ok _ =>
          match configured with
          | Some a =>
              (Some (newAccountRules a rulesFromConfig),
               match HasCode node a with
               | Ok false =>
                   [Warn ctx "permissioning.no_code"
                      (<["accountRules" := VStr (address_Hex a)]>
                       (<["note" := VStr "la direccion configurada no tiene codigo en esta red"]> ∅))]
               | _ => []
               end)
          | None =>
              match ingress with
              | None => (None, [])
              | Some i =>
                  match HasCode node i with
                  | Err e => (None, [Warn ctx "permissioning.resolve_failed" (ErrorFields (Some e))])
                  | Ok false => (None, [])
                  | Ok true =>
                      match ResolveAccountRules node i with
                      | Err e =>
                          (None, [Warn ctx "permissioning.resolve_failed" (ErrorFields (Some e))])
                      | Ok resolved =>
                          if decide (resolved = zero_address) then (None, [])
                          else (Some (newAccountRules resolved rulesFromIngress), [])
                      end
                  end
              end
          end
      end
  end.

Definition no_rules_error : error :=
  Errors.New ("the sender permission check is enabled but no account rules contract could be resolved: "
       +:+ "set security.accountContractAddress, or security.accountIngressAddress on a chain that "
       +:+ "publishes one, or turn permissionsEnabled off") (-32603).

(** [AccountPermitted]: [now] is the reading of the clock for the lookup, [later]
    the one for the vigency of what the chain answered in between. *)
Definition AccountPermitted (node : Node) (now later : Z) (account : address) (s : Rules) :
    result error bool * Rules :=
  match rules s with
  | None => (if permissions_enabled then Err no_rules_error else Ok true, s)
  | Some r =>
      match cached r account now with
      | Some ok => (Ok ok, s)
      | None =>
          match Connect node node_url with
          | Err e => (Err e, s)
          | Ok _ =>
              match Client.AccountPermitted node (ar_address r) account with
              | Err e => (Err e, s)
              | Ok ok => (Ok ok, remember_in account ok (later + rulesCacheTTL) s)
              end
          end
      end
  end.

(** [VerifySender] of [service/relaySignerService.go]. *)
Definition VerifySender := AccountPermitted.

Definition node_not_permitted_note :=
  "este nodo no esta dado de alta en AccountRules: todas sus metatx van a fallar. "
  +:+ "Darlo de alta con addAccount en el contrato de reglas, y con addNode en el hub".

Definition checkNodePermitted (node : Node) (c : Config) (now later : Z) (ctx : context)
    (s : Rules) : Rules * list emission :=
  match NodeAddress c with
  | Err _ => (s, [])
  | Ok nodeAddress =>
      match AccountPermitted node now later nodeAddress s with
      | (Err e, s) => (s, [Warn ctx "permissioning.node_check_failed" (ErrorFields (Some e))])
      | (Ok ok, s) =>
          let s := {| rules := rules s; nodePermitted := Some ok |} in
          if ok then (s, [])
          else
            let a := match rules s with Some r => address_Hex (ar_address r) | None => "" end in
            (s, [Warn ctx "permissioning.node_not_permitted"
                   (<["nodeAddress" := VStr (address_Hex nodeAddress)]>
                    (<["accountRules" := VStr a]>
                     (<["note" := VStr node_not_permitted_note]> ∅)))])
      end
  end.

(** At start-up: nothing is resolved, and the chain is not touched, when the check
    is off. *)
Definition ResolveAccountRules (node : Node) (now later : Z) (ctx : context) (s : Rules) :
    Rules * list emission :=
  match cfg with
  | None => (s, [])
  | Some c =>
      if PermissionsEnabled (Security c) then
        let '(r, log) := resolveRules node ctx in
        let s := {| rules := r; nodePermitted := nodePermitted s |} in
        match r with
        | None =>
            (s, log ++ [Info ctx "permissioning.absent"
              (<["note" := VStr
                 "esta red no expone contrato de reglas: no se aplica permisionado de cuentas"]> ∅)])
        | Some ar =>
            let resolved := Info ctx "permissioning.resolved"
              (<["accountRules" := VStr (address_Hex (ar_address ar))]>
               (<["accountRulesSource" := VStr (ar_source ar)]> ∅)) in
            let '(s, log') := checkNodePermitted node c now later ctx s in
            (s, log ++ [resolved] ++ log')
        end
      else (s, [])
  end.

Definition AccountRulesAddress (s : Rules) : option string :=
  (λ r, address_Hex (ar_address r)) <$> rules s.

Definition AccountRulesSource (s : Rules) : option string := ar_source <$> rules s.

(** ** The cache never outlives its vigency *)

(** One consultation: the account asked for, the node and the clock's readings,
    and the answer given. *)
Record consultation := {
  q_node : Node;
  q_now : Z;
  q_later : Z;
  q_account : address;
}.

Definition answer (q : consultation) (s : Rules) : result error bool * Rules :=
  AccountPermitted (q_node q) (q_now q) (q_later q) (q_account q) s.

(** The contract itself said so to that consultation. *)
Definition chain_said (contract : address) (account : address) (ok : bool) (q : consultation) :
    Prop :=
  q_account q = account ∧ Connect (q_node q) node_url = Ok tt ∧
  Client.AccountPermitted (q_node q) contract account = Ok ok.

(** Every fresh entry of the cache is the answer the contract in force gave to one
    of the consultations so far, less than the vigency ago. *)
Definition backed (past : list consultation) (s : Rules) : Prop :=
  ∀ r account e, rules s = Some r → ar_cache r !! account = Some e →
    ∃ q, q ∈ past ∧ chain_said (ar_address r) account (permitted e) q ∧
         expiresAt e = q_later q + rulesCacheTTL.

Definition run (qs : list consultation) (s : Rules) : Rules :=
  foldl (λ s q, (answer q s).2) s qs.

Lemma answer_backed past q s : backed past s → backed (past ++ [q]) (answer q s).2.
Proof.
  intros Hb. assert (Hweak : backed (past ++ [q]) s).
  { intros r a e Hr He. destruct (Hb r a e Hr He) as (q' & ? & ?). exists q'. set_solver. }
  unfold answer, AccountPermitted. destruct (rules s) as [r|] eqn:Hr; [|done].
  destruct (cached r (q_account q) (q_now q)); [done|].
  destruct (Connect (q_node q) node_url) as [[]|] eqn:Hcon; [|done].
  destruct (Client.AccountPermitted _ _ _) as [ok|] eqn:Hok; [|done]. simpl.
  intros r' a e. simpl. rewrite Hr. simpl. intros [= <-]. simpl.
  rewrite lookup_insert. case_decide as Ha.
  - intros [= <-]. subst a. exists q. split; [set_solver|]. by repeat split.
  - intros He. destruct (Hweak r a e Hr He) as (q' & ? & ?). by exists q'.
Qed.

Lemma run_backed qs past s : backed past s → backed (past ++ qs) (run qs s).
Proof.
  revert past s. induction qs as [|q qs IH]; intros past s Hb; simpl; [by rewrite app_nil_r|].
  replace (past ++ q :: qs) with ((past ++ [q]) ++ qs) by by rewrite <-app_assoc.
  apply IH. by apply answer_backed.
Qed.

Lemma answer_rules q s :
  ar_address <$> rules (answer q s).2 = ar_address <$> rules s.
Proof.
  unfold answer, AccountPermitted. destruct (rules s) as [r|] eqn:Hr;
    [|simpl; by rewrite Hr].
  repeat case_match; simpl; by rewrite ?Hr.
Qed.

Lemma run_rules qs s : ar_address <$> rules (run qs s) = ar_address <$> rules s.
Proof.
  revert s. induction qs as [|q qs IH]; intros s; simpl; [done|].
  rewrite IH. apply answer_rules.
Qed.

(** (C34) The allowlist fails closed. After any history of consultations of a service
    that checks its senders, from the state the start-up left, an account is
    answered to be permitted only when the rules contract in force itself
    answered so: now, or to an earlier consultation for the same account whose
    answer has not expired. Without a rules contract, without a connection, or
    when the contract cannot be read, nobody is. *)
Theorem permission_fails_closed (s0 : Rules) (qs : list consultation) (q : consultation)
    (Hon : permissions_enabled = true)
    (Hstart : ∀ r, rules s0 = Some r → ar_cache r = ∅)
    (Hyes : (answer q (run qs s0)).1 = Ok true) :
  ∃ contract, ar_address <$> rules s0 = Some contract ∧
    (chain_said contract (q_account q) true q ∨
     ∃ p, p ∈ qs ∧ chain_said contract (q_account q) true p ∧
          q_now q < q_later p + rulesCacheTTL).
Proof.
  assert (Hb : backed qs (run qs s0)).
  { apply (run_backed qs []). intros r a e Hr He. by rewrite (Hstart r Hr), lookup_empty in He. }
  rewrite <-(run_rules qs s0).
  revert Hyes. unfold answer, AccountPermitted. rewrite Hon.
  destruct (rules (run qs s0)) as [r|] eqn:Hr; [|done]. simpl.
  destruct (cached r (q_account q) (q_now q)) as [ok|] eqn:Hc; simpl.
  - intros [= ->]. exists (ar_address r). split; [done|]. right.
    unfold cached in Hc. destruct (ar_cache r !! q_account q) as [e|] eqn:He; [|done].
    destruct (Z.ltb_spec (q_now q) (expiresAt e)); [|done]. injection Hc as Hp.
    destruct (Hb r _ e Hr He) as (p & Hp' & Hsaid & Hexp). rewrite Hp in Hsaid.
    exists p. split_and!; [done|done|lia].
  - destruct (Connect (q_node q) node_url) as [[]|] eqn:Hcon; [|done].
    destruct (Client.AccountPermitted _ _ _) as [ok|] eqn:Hok; [|done]. simpl.
    intros [= ->]. exists (ar_address r). split; [done|]. left. by repeat split.
Qed.

(** A rules contract that somebody wrote in the configuration takes precedence over
    everything the network says: it is the one in force, marked as configured,
    whether the node answers or not and whether it has code or not; the registry
    is consulted only without one, and only a registry with code that publishes a
    non-zero address gives a contract. *)
Theorem configured_rules_take_precedence (node : Node) (ctx : context) :
  match configuredRulesAddress with
  | Some a => (resolveRules node ctx).1 = Some (newAccountRules a rulesFromConfig)
  | None =>
      ∀ r, (resolveRules node ctx).1 = Some r →
      ar_source r = rulesFromIngress ∧ ar_address r ≠ zero_address ∧
      ∃ i, ingressAddress = Some i ∧ HasCode node i = Ok true ∧
           Client.ResolveAccountRules node i = Ok (ar_address r)
  end.
Proof.
  unfold resolveRules. destruct configuredRulesAddress as [a|].
  - destruct (Connect node node_url); simpl; [|done]. by repeat case_match.
  - intros r. destruct ingressAddress as [i|]; [|done].
    destruct (Connect node node_url); simpl; [|done].
    destruct (HasCode node i) as [[]|] eqn:Hcode; try done.
    destruct (Client.ResolveAccountRules node i) as [found|] eqn:Hfound; [|done].
    case_decide; [done|]. simpl. intros [= <-]. simpl. split_and!; [done|done|]. by exists i.
Qed.
End Permissioning.

Definition sample_rules : Rules :=
  {| rules := Some (newAccountRules (replicate 20 8) rulesFromIngress); nodePermitted := None |}.

Definition sample_question : consultation :=
  {| q_node := sample_node; q_now := 10; q_later := 11; q_account := replicate 20 2 |}.

Lemma permission_fails_closed_witness :
  ∃ contract, ar_address <$> rules sample_rules = Some contract ∧
    contract = replicate 20 8.
Proof.
  destruct (@permission_fails_closed sample_geth sample_eth sample_errors (Some sample_config)
    sample_rules [sample_question] sample_question) as (contract & Hc & _).
  - reflexivity.
  - intros r [= <-]. reflexivity.
  - vm_compute. reflexivity.
  - exists contract. split; [exact Hc|]. by injection Hc as <-.
Defined.
