(* ===== verification/Tracker.v ===== *)
(** The tracker of nonces in flight, [service/tracker.go], with the cache
    accessors of [service/relaySignerService.go] that go through it.

    Entries have identity in the code, so they live on a heap here: a
    [*nonceEntry] is a number into [chains], a [*heldMetaTx] one into [helds],
    and the channel a held metatx sleeps on is a number too, in [closed] once it
    has been closed. A grace timer armed with [time.AfterFunc] is an element of
    [timers]; it leaves it when it is stopped or fires. Every operation is one
    critical section of [sendersLock]: it takes the clock's reading and the
    state, and returns the state. *)

From S2P Require Import Prelude GoLib Config.

(** ** The two halves of the state that [sendersLock] protects *)

Module Chains.

Record nonceEntry := {
  next : Z;
  pending : Z;
  updatedAt : Z;
  expiry : option nat;
}.

Record graceTimer := {
  gt_key : string;
  gt_chain : nat;
  gt_due : Z;
}.

Record t := {
  senders : gmap string nat;
  chains : gmap nat nonceEntry;
  timers : gmap nat graceTimer;
  fresh : nat;
}.

Definition empty : t :=
  {| senders := ∅; chains := ∅; timers := ∅; fresh := 0 |}.

(** Dereferencing a pointer; it is never dangling (see [wf]). *)
Definition nil_entry : nonceEntry :=
  {| next := 0; pending := 0; updatedAt := 0; expiry := None |}.
Definition at_ (s : t) (p : nat) : nonceEntry := default nil_entry (chains s !! p).

Definition set_entry (p : nat) (e : nonceEntry) (s : t) : t :=
  {| senders := senders s; chains := <[p := e]> (chains s);
     timers := timers s; fresh := fresh s |}.

Definition with_expiry (x : option nat) (e : nonceEntry) : nonceEntry :=
  {| next := next e; pending := pending e; updatedAt := updatedAt e; expiry := x |}.
Definition with_pending (n : Z) (e : nonceEntry) : nonceEntry :=
  {| next := next e; pending := n; updatedAt := updatedAt e; expiry := expiry e |}.
Definition with_next (n now : Z) (e : nonceEntry) : nonceEntry :=
  {| next := n; pending := pending e; updatedAt := now; expiry := expiry e |}.

Section Operations.
Context (cfg : option Config) (now : Z).

(** [graceWindow]: how long a chain with nothing in flight is remembered. *)
Definition graceWindow : Z :=
  match cfg with
  | Some c => if 0 <? WindowMs (Reorder c)
              then duration (WindowMs (Reorder c)) millisecond else 0
  | None => 0
  end.

Definition nonceCacheTTL : Z :=
  match cfg with
  | Some c => if 0 <? NonceCacheTTL (Application c)
              then duration (NonceCacheTTL (Application c)) second
              else 300 * second
  | None => 300 * second
  end.

Definition stopExpiry (p : nat) (s : t) : t :=
  match expiry (at_ s p) with
  | None => s
  | Some tm =>
      {| senders := senders s;
         chains := <[p := with_expiry None (at_ s p)]> (chains s);
         timers := delete tm (timers s); fresh := fresh s |}
  end.

Definition dropLocked (key : string) (p : nat) (s : t) : t :=
  let s := stopExpiry p s in
  {| senders := delete key (senders s); chains := chains s;
     timers := timers s; fresh := fresh s |}.

Definition chainLocked (key : string) (s : t) : option nat * t :=
  match senders s !! key with
  | None => (None, s)
  | Some p =>
      if nonceCacheTTL <? now - updatedAt (at_ s p)
      then (None, dropLocked key p s)
      else (Some p, s)
  end.

Definition new_entry (key : string) (n : Z) (s : t) : nat * t :=
  (fresh s,
   {| senders := <[key := fresh s]> (senders s);
      chains := <[fresh s := {| next := n; pending := 0; updatedAt := 0;
                                expiry := None |}]> (chains s);
      timers := timers s; fresh := S (fresh s) |}).

Definition reserveLocked (key : string) (nonce : Z) (inFlight : bool) (s : t) : nat * t :=
  let nxt := u64 (nonce + 1) in
  let '(entry, s) := chainLocked key s in
  let '(p, nxt, s) :=
    match entry with
    | None => let '(p, s) := new_entry key nxt s in (p, nxt, s)
    | Some p => (p, if nxt <? next (at_ s p) then next (at_ s p) else nxt, s)
    end in
  let s := stopExpiry p s in
  let e := with_next nxt now (at_ s p) in
  (p, set_entry p (if inFlight then with_pending (pending e + 1) e else e) s).

(** The part of [releaseChain] that concerns the chains. [None]: the chain
    handed in is not the one in force, and nothing happens. *)
Definition release (key : string) (chain : option nat) (s : t) : option t :=
  match chain with
  | None => None
  | Some p =>
      if decide (senders s !! key = Some p) then
        let e := at_ s p in
        let e := if 0 <? pending e then with_pending (pending e - 1) e else e in
        let s := set_entry p e s in
        if (0 <? pending e) || bool_decide (is_Some (expiry e)) then Some s
        else if graceWindow <=? 0 then Some (dropLocked key p s)
        else
          let tm := fresh s in
          Some {| senders := senders s;
                  chains := <[p := with_expiry (Some tm) e]> (chains s);
                  timers := <[tm := {| gt_key := key; gt_chain := p;
                                       gt_due := now + graceWindow |}]> (timers s);
                  fresh := S (fresh s) |}
      else None
  end.

Definition forget (key : string) (s : t) : t :=
  match senders s !! key with
  | Some p => dropLocked key p s
  | None => s
  end.

(** The function handed to [time.AfterFunc], once it holds the lock. *)
Definition graceExpired (key : string) (p : nat) (s : t) : t :=
  if decide (senders s !! key = Some p ∧ pending (at_ s p) ≤ 0)
  then dropLocked key p s else s.

(** The timer leaves the armed set when it fires; its function runs later,
    when the lock is free. *)
Definition fire (tm : nat) (s : t) : t :=
  {| senders := senders s; chains := chains s;
     timers := delete tm (timers s); fresh := fresh s |}.

Definition pendingOf (key : string) (s : t) : Z * t :=
  let '(entry, s) := chainLocked key s in
  (match entry with None => 0 | Some p => pending (at_ s p) end, s).

Definition cachedNonce (key : string) (s : t) : option Z * t :=
  let '(entry, s) := chainLocked key s in
  (match entry with None => None | Some p => Some (next (at_ s p)) end, s).

End Operations.

(** ** Well-formedness

    No dangling pointer, no two users on one chain, counters in range, and an
    armed grace timer only on the idle chain in force of its own user. *)
Record wf (s : t) : Prop := {
  wf_live : ∀ k p, senders s !! k = Some p → is_Some (chains s !! p);
  wf_own : ∀ k1 k2 p, senders s !! k1 = Some p → senders s !! k2 = Some p → k1 = k2;
  wf_entry : ∀ p e, chains s !! p = Some e →
    (p < fresh s)%nat ∧ 0 ≤ pending e ∧ 0 ≤ next e < 2 ^ 64;
  wf_timer : ∀ tm g, timers s !! tm = Some g →
    (tm < fresh s)%nat ∧ senders s !! gt_key g = Some (gt_chain g) ∧
    expiry (at_ s (gt_chain g)) = Some tm;
  wf_expiry : ∀ p e tm, chains s !! p = Some e → expiry e = Some tm →
    (tm < fresh s)%nat ∧ pending e = 0;
}.

(** ** Lemmas *)

Lemma at_lookup s p e : chains s !! p = Some e → at_ s p = e.
Proof. unfold at_. by intros ->. Qed.

Lemma at_set_entry p q e s :
  at_ (set_entry p e s) q = if decide (p = q) then e else at_ s q.
Proof. unfold at_, set_entry; simpl. rewrite lookup_insert. by case_decide. Qed.

Lemma expiry_at_live s p tm : expiry (at_ s p) = Some tm → is_Some (chains s !! p).
Proof. unfold at_. destruct (chains s !! p); simpl; [eauto | done]. Qed.

Lemma stopExpiry_senders p s : senders (stopExpiry p s) = senders s.
Proof. unfold stopExpiry. by case_match. Qed.

Lemma stopExpiry_fresh p s : fresh (stopExpiry p s) = fresh s.
Proof. unfold stopExpiry. by case_match. Qed.

(** Stopping a grace timer changes nothing else of any entry. *)
Lemma stopExpiry_at p q s :
  at_ (stopExpiry p s) q = if decide (p = q) then with_expiry None (at_ s q) else at_ s q.
Proof.
  unfold stopExpiry. case_match eqn:Hx.
  - unfold at_; simpl. rewrite lookup_insert. case_decide; by subst.
  - case_decide; [subst|done]. unfold with_expiry. rewrite <-Hx. by destruct (at_ s q).
Qed.

Lemma stopExpiry_live p q s :
  is_Some (chains (stopExpiry p s) !! q) ↔ is_Some (chains s !! q).
Proof.
  unfold stopExpiry. case_match eqn:Hx; [|done]. simpl. rewrite lookup_insert.
  case_decide; subst; [|done]. split; eauto using expiry_at_live.
Qed.

Lemma stopExpiry_wf p s : wf s → wf (stopExpiry p s).
Proof.
  intros [Hl Ho He Ht Hx]. unfold stopExpiry.
  destruct (expiry (at_ s p)) as [tm|] eqn:Htm; [|by constructor].
  pose proof (expiry_at_live _ _ _ Htm) as [e Hp].
  rewrite (at_lookup _ _ _ Hp) in *.
  constructor; simpl.
  - intros k q Hq. rewrite lookup_insert. case_decide; eauto.
  - done.
  - intros q e'. rewrite lookup_insert. case_decide; [intros [= <-]; subst|]; eauto.
    by apply (He q e).
  - intros tm' g. rewrite lookup_delete_Some. intros [Hne (? & ? & Hg)%Ht].
    unfold at_ in *; simpl. rewrite lookup_insert. case_decide; [|done].
    subst. rewrite Hp in Hg. simpl in Hg. congruence.
  - intros q e' tm'. rewrite lookup_insert. case_decide; [by intros [= <-]|]; eauto.
Qed.

Lemma dropLocked_wf key p s : wf s → senders s !! key = Some p → wf (dropLocked key p s).
Proof.
  intros Hwf Hkey. unfold dropLocked.
  assert (∀ tm g, timers (stopExpiry p s) !! tm = Some g → gt_key g ≠ key) as Hgone.
  { intros tm g Hg ->%eq_sym. apply (wf_timer _ (stopExpiry_wf p s Hwf)) in Hg.
    rewrite stopExpiry_senders, !stopExpiry_at in Hg.
    destruct Hg as (_ & Hs & Hg). case_decide; simplify_eq/=. }
  apply (stopExpiry_wf p) in Hwf as [Hl Ho He Ht Hx]. constructor; simpl; try done.
  - intros k q [_ Hq]%lookup_delete_Some. eauto.
  - intros k1 k2 q [_ ?]%lookup_delete_Some [_ ?]%lookup_delete_Some. eauto.
  - intros tm g Hg. destruct (Ht tm g Hg) as (? & ? & ?). split_and!; try done.
    rewrite lookup_delete_ne; [done | by eauto using not_eq_sym].
Qed.

Lemma set_entry_wf p e s :
  wf s → is_Some (chains s !! p) →
  0 ≤ pending e → 0 ≤ next e < 2 ^ 64 → expiry e = expiry (at_ s p) →
  (expiry e = None ∨ pending e = 0) →
  wf (set_entry p e s).
Proof.
  intros [Hl Ho He Ht Hx] [e0 Hp] ??? Hc. rewrite (at_lookup _ _ _ Hp) in *.
  constructor; simpl; try done.
  - intros k q Hq. rewrite lookup_insert. case_decide; eauto.
  - intros q e'. rewrite lookup_insert. case_decide; [intros [= <-]; subst|]; eauto.
    split; [by apply (He q e0) | done].
  - intros tm g Hg. destruct (Ht _ _ Hg) as (? & ? & Hgx).
    rewrite at_set_entry. case_decide; [subst|done].
    rewrite (at_lookup _ _ _ Hp) in *. split_and!; try done; congruence.
  - intros q e' tm'. rewrite lookup_insert. case_decide; [intros [= <-]; subst|]; eauto.
    intros. destruct (Hx q e0 tm'); [congruence..|]. split; [done|]. naive_solver congruence.
Qed.

Lemma new_entry_wf key n s :
  wf s → senders s !! key = None → 0 ≤ n < 2 ^ 64 → wf (new_entry key n s).2.
Proof.
  intros [Hl Ho He Ht Hx] Hkey Hn.
  assert (∀ k p, senders s !! k = Some p → p ≠ fresh s) as Hlt.
  { intros k p [e Hp]%Hl. apply He in Hp. lia. }
  constructor; simpl.
  - intros k p. rewrite !lookup_insert. repeat case_decide; naive_solver.
  - intros k1 k2 p. rewrite !lookup_insert. repeat case_decide; naive_solver.
  - intros p e. rewrite lookup_insert. case_decide; [intros [= <-]; simpl; lia|].
    intros (? & ? & ?)%He. lia.
  - intros tm g Hg. destruct (Ht tm g Hg) as (? & Hs & Hgx).
    unfold at_ in *; simpl. rewrite !lookup_insert.
    repeat case_decide; subst; naive_solver lia.
  - intros p e tm. rewrite lookup_insert. case_decide; [by intros [= <-]|].
    intros Hp Htm. destruct (Hx _ _ _ Hp Htm). lia.
Qed.

Lemma fire_wf tm s : wf s → wf (fire tm s).
Proof.
  intros [Hl Ho He Ht Hx]. constructor; simpl; try done.
  intros tm' g [_ Hg]%lookup_delete_Some. by apply Ht.
Qed.

Lemma empty_wf : wf empty.
Proof. constructor; unfold empty; simpl; intros *; rewrite ?lookup_empty; done. Qed.

(** ** What a user's chain is, whatever its pointer and its timer *)

Definition view (s : t) (key : string) : option (Z * Z * Z) :=
  p ← senders s !! key;
  Some (next (at_ s p), pending (at_ s p), updatedAt (at_ s p)).

Lemma view_stopExpiry p s k : view (stopExpiry p s) k = view s k.
Proof.
  unfold view. rewrite stopExpiry_senders.
  destruct (senders s !! k); simpl; [|done]. rewrite !stopExpiry_at.
  by case_decide.
Qed.

Lemma view_dropLocked key p s k :
  view (dropLocked key p s) k = if decide (key = k) then None else view s k.
Proof.
  rewrite <-(view_stopExpiry p s). unfold view, dropLocked; simpl.
  rewrite lookup_delete. by case_decide.
Qed.

Lemma view_set_entry key p e s k :
  wf s → senders s !! key = Some p →
  view (set_entry p e s) k =
    if decide (key = k) then Some (next e, pending e, updatedAt e) else view s k.
Proof.
  intros Hwf Hp. unfold view; simpl. case_decide as Hk; [subst|].
  - rewrite Hp. simpl. by rewrite at_set_entry, decide_True.
  - destruct (senders s !! k) as [q|] eqn:Hq; simpl; [|done].
    rewrite at_set_entry, decide_False; [done|].
    intros ->. apply Hk. by eapply wf_own.
Qed.

Lemma view_new_entry key n s k :
  wf s →
  view (new_entry key n s).2 k = if decide (key = k) then Some (n, 0, 0) else view s k.
Proof.
  intros Hwf. unfold view; simpl. rewrite lookup_insert.
  case_decide; simpl; [by unfold at_; simpl; rewrite lookup_insert_eq|].
  destruct (senders s !! k) as [q|] eqn:Hq; simpl; [|done].
  unfold at_; simpl. rewrite lookup_insert_ne; [done|].
  intros <-. apply (wf_live _ Hwf) in Hq as [e He].
  apply (wf_entry _ Hwf) in He. lia.
Qed.

(** The state of a chain that is too old to count. *)
Definition alive (cfg : option Config) (now : Z) (v : option (Z * Z * Z)) :
    option (Z * Z * Z) :=
  match v with
  | Some (n, p, u) => if nonceCacheTTL cfg <? now - u then None else Some (n, p, u)
  | None => None
  end.

Lemma chainLocked_spec cfg now key s :
  let '(r, s') := chainLocked cfg now key s in
  (wf s → wf s') ∧ senders s' !! key = r ∧
  (∀ p, r = Some p → s' = s) ∧
  (∀ k, view s' k = if decide (key = k) then alive cfg now (view s k) else view s k).
Proof.
  unfold chainLocked, alive. destruct (senders s !! key) as [p|] eqn:Hp.
  - destruct (nonceCacheTTL cfg <? now - updatedAt (at_ s p)) eqn:Hold; split_and!; try done.
    + intros. by apply dropLocked_wf.
    + simpl. apply lookup_delete_eq.
    + intros k. rewrite view_dropLocked. case_decide; [subst|done].
      unfold view. rewrite Hp. simpl. by rewrite Hold.
    + intros k. case_decide; [subst|done]. unfold view. rewrite Hp. simpl.
      by rewrite Hold.
  - split_and!; try done. intros k. case_decide; [subst|done].
    unfold view. by rewrite Hp.
Qed.

Lemma chainLocked_wf cfg now key s : wf s → wf (chainLocked cfg now key s).2.
Proof.
  intros. pose proof (chainLocked_spec cfg now key s) as H'.
  destruct (chainLocked cfg now key s). by apply H'.
Qed.

Lemma view_chainLocked cfg now key s k :
  view (chainLocked cfg now key s).2 k =
    if decide (key = k) then alive cfg now (view s k) else view s k.
Proof.
  pose proof (chainLocked_spec cfg now key s) as H'.
  destruct (chainLocked cfg now key s). by apply H'.
Qed.

(** The next nonce after using [nonce] on a chain: at least the following one,
    and never back. *)
Definition advance (v : option (Z * Z * Z)) (nonce : Z) : Z :=
  match v with
  | Some (n, _, _) => n `max` u64 (nonce + 1)
  | None => u64 (nonce + 1)
  end.

Definition in_flight (v : option (Z * Z * Z)) : Z :=
  match v with Some (_, p, _) => p | None => 0 end.

(** The shared tail of [reserveLocked], on the chain it settled on. *)
Lemma reserve_tail key p nxt now (inFlight : bool) s :
  wf s → senders s !! key = Some p → 0 ≤ nxt < 2 ^ 64 →
  let s1 := stopExpiry p s in
  let e := with_next nxt now (at_ s1 p) in
  let s2 := set_entry p (if inFlight then with_pending (pending e + 1) e else e) s1 in
  wf s2 ∧
  ∀ k, view s2 k =
    if decide (key = k)
    then Some (nxt, in_flight (view s k) + (if inFlight then 1 else 0), now)
    else view s k.
Proof.
  intros Hwf Hp Hn s1 e s2.
  assert (wf s1) as Hwf1 by by apply stopExpiry_wf.
  assert (senders s1 !! key = Some p) as Hp1 by by (unfold s1; rewrite stopExpiry_senders).
  assert (at_ s1 p = with_expiry None (at_ s p)) as Hat.
  { unfold s1. by rewrite stopExpiry_at, decide_True. }
  pose proof (wf_live _ Hwf1 _ _ Hp1) as [e1 He1].
  destruct (wf_entry _ Hwf1 _ _ He1) as (_ & Hpos & _).
  rewrite <-(at_lookup _ _ _ He1), Hat in Hpos. simpl in Hpos.
  split.
  - apply set_entry_wf; eauto; destruct inFlight; subst e; rewrite ?Hat; simpl; auto; lia.
  - intros k. unfold s2. rewrite (view_set_entry key) by done.
    unfold s1. rewrite view_stopExpiry. case_decide; [subst k|done].
    unfold view. rewrite Hp. subst e. rewrite Hat.
    destruct inFlight; simpl; repeat f_equal; lia.
Qed.

(** Reserving keeps the tracker well formed, returns the chain in force, and
    changes exactly one user's chain: its next nonce advances past the one
    used and never goes back, and what is in flight grows by one when asked. *)
Lemma reserveLocked_spec cfg now key nonce inFlight s :
  wf s →
  let '(p, s') := reserveLocked cfg now key nonce inFlight s in
  let v := alive cfg now (view s key) in
  wf s' ∧ senders s' !! key = Some p ∧
  ∀ k, view s' k =
    if decide (key = k)
    then Some (advance v nonce, in_flight v + (if inFlight then 1 else 0), now)
    else view s k.
Proof.
  intros Hwf. unfold reserveLocked.
  pose proof (chainLocked_spec cfg now key s) as H'.
  destruct (chainLocked cfg now key s) as [r s0].
  destruct H' as (Hwf0 & Hkey & _ & Hview). specialize (Hwf0 Hwf).
  pose proof (Hview key) as Hv. rewrite decide_True in Hv by done. rewrite <-Hv.
  pose proof (u64_range (nonce + 1)) as Hr.
  destruct r as [p|].
  - pose proof (wf_live _ Hwf0 _ _ Hkey) as [e He].
    destruct (wf_entry _ Hwf0 _ _ He) as (_ & _ & Hn).
    rewrite <-(at_lookup _ _ _ He) in Hn.
    assert ((if u64 (nonce + 1) <? next (at_ s0 p) then next (at_ s0 p)
             else u64 (nonce + 1)) = advance (view s0 key) nonce) as ->.
    { unfold advance, view. rewrite Hkey. simpl. case_match; lia. }
    destruct (reserve_tail key p (advance (view s0 key) nonce) now inFlight s0)
      as [Hwf2 Hv2]; [done|done| |].
    { unfold advance, view. rewrite Hkey. simpl. lia. }
    split_and!; [done | simpl; by rewrite stopExpiry_senders |].
    intros k. rewrite Hv2. case_decide; [by subst|]. rewrite Hview.
    by rewrite decide_False.
  - assert (wf (new_entry key (u64 (nonce + 1)) s0).2) as Hwf1 by by apply new_entry_wf.
    destruct (reserve_tail key (fresh s0) (u64 (nonce + 1)) now inFlight
      (new_entry key (u64 (nonce + 1)) s0).2) as [Hwf2 Hv2]; [done| |lia|].
    { simpl. apply lookup_insert_eq. }
    split_and!; [done| |].
    { simpl. rewrite stopExpiry_senders. simpl. apply lookup_insert_eq. }
    intros k. rewrite Hv2, view_new_entry by done. case_decide.
    + subst k. unfold view. by rewrite Hkey.
    + rewrite Hview. by rewrite decide_False.
Qed.

(** The chain a reservation goes to: the one in force, if it counts, or a new one. *)
Lemma reserveLocked_chain cfg now key nonce inFlight s :
  wf s →
  let p := (reserveLocked cfg now key nonce inFlight s).1 in
  (senders s !! key = Some p ∧ alive cfg now (view s key) = view s key) ∨
  (p = fresh s ∧ alive cfg now (view s key) = None).
Proof.
  intros Hwf. simpl. unfold reserveLocked, chainLocked, view.
  destruct (senders s !! key) as [p|] eqn:Hp; simpl; [|by right].
  destruct (nonceCacheTTL cfg <? now - updatedAt (at_ s p)) eqn:Hold; simpl; [|by left].
  right. by rewrite stopExpiry_fresh.
Qed.

(** Arming the grace timer of an idle chain. *)
Definition arm (key : string) (p : nat) (due : Z) (e : nonceEntry) (s : t) : t :=
  {| senders := senders s;
     chains := <[p := with_expiry (Some (fresh s)) e]> (chains s);
     timers := <[fresh s := {| gt_key := key; gt_chain := p; gt_due := due |}]> (timers s);
     fresh := S (fresh s) |}.

Lemma arm_wf key p due s :
  wf s → senders s !! key = Some p → pending (at_ s p) = 0 → expiry (at_ s p) = None →
  wf (arm key p due (at_ s p) s) ∧ ∀ k, view (arm key p due (at_ s p) s) k = view s k.
Proof.
  intros Hwf Hkey Hidle Hnone.
  pose proof (wf_live _ Hwf _ _ Hkey) as [e0 Hp]. rewrite (at_lookup _ _ _ Hp) in *.
  assert (∀ q, at_ (arm key p due e0 s) q =
    if decide (p = q) then with_expiry (Some (fresh s)) e0 else at_ s q) as Hat.
  { intros q. unfold at_; simpl. rewrite lookup_insert. by case_decide. }
  split.
  - destruct Hwf as [Hl Ho He Ht Hx]. constructor; simpl; try done.
    + intros k q Hq. rewrite lookup_insert. case_decide; eauto.
    + intros q e. rewrite lookup_insert. case_decide.
      * intros [= <-]; subst. destruct (He _ _ Hp). simpl. lia.
      * intros (? & ? & ?)%He. lia.
    + intros tm g. rewrite lookup_insert. case_decide.
      * intros [= <-]. subst tm. simpl. rewrite Hat, decide_True by done. split_and!; auto; lia.
      * intros Hg. destruct (Ht _ _ Hg) as (? & Hs & Hgx).
        rewrite Hat. case_decide; [subst|split_and!; auto; lia].
        rewrite (at_lookup _ _ _ Hp) in Hgx. congruence.
    + intros q e tm. rewrite lookup_insert. case_decide.
      * intros [= <-]; simpl. intros [= <-]. lia.
      * intros Hq Htm. destruct (Hx _ _ _ Hq Htm). lia.
  - intros k. unfold view at 1; simpl. unfold view.
    destruct (senders s !! k) as [q|] eqn:Hq; simpl; [|done].
    rewrite Hat. case_decide; [subst|done]. by rewrite (at_lookup _ _ _ Hp).
Qed.

(** What a resolved metatx leaves of its chain. *)
Definition settled_view (cfg : option Config) (had_timer : bool) (v : option (Z * Z * Z)) :
    option (Z * Z * Z) :=
  match v with
  | Some (n, p, u) =>
      let left := 0 `max` (p - 1) in
      if (0 <? left) || had_timer then Some (n, left, u)
      else if graceWindow cfg <=? 0 then None else Some (n, 0, u)
  | None => None
  end.

Definition has_timer (s : t) (key : string) : bool :=
  match senders s !! key with
  | Some p => bool_decide (is_Some (expiry (at_ s p)))
  | None => false
  end.

(** Releasing with the chain in force takes one off what is in flight, never
    below zero, forgets an idle chain at once when there is no grace window,
    and touches no other user; releasing with any other chain does nothing. *)
Lemma release_spec cfg now key chain s :
  wf s →
  match release cfg now key chain s with
  | None => chain = None ∨ senders s !! key ≠ chain
  | Some s' =>
      is_Some chain ∧ senders s !! key = chain ∧ wf s' ∧
      ∀ k, view s' k =
        if decide (key = k) then settled_view cfg (has_timer s key) (view s k)
        else view s k
  end.
Proof.
  intros Hwf. unfold release. destruct chain as [p|]; [|by left].
  case_decide as Hkey; [|by right].
  set (e := if 0 <? pending (at_ s p) then with_pending (pending (at_ s p) - 1) (at_ s p)
            else at_ s p).
  set (s1 := set_entry p e s).
  pose proof (wf_live _ Hwf _ _ Hkey) as [e0 He0].
  destruct (wf_entry _ Hwf _ _ He0) as (_ & Hpos & Hn).
  rewrite <-(at_lookup _ _ _ He0) in Hpos, Hn.
  assert (pending e = 0 `max` (pending (at_ s p) - 1)) as Hpe.
  { unfold e. case_match; simpl; lia. }
  assert (next e = next (at_ s p) ∧ updatedAt e = updatedAt (at_ s p) ∧
          expiry e = expiry (at_ s p)) as (Hne & Hue & Hxe).
  { unfold e. by case_match. }
  assert (wf s1) as Hwf1.
  { apply set_entry_wf; eauto; try (rewrite ?Hne; lia).
    destruct (expiry e) as [tm|] eqn:Htm; [right|by left]. rewrite Hpe.
    rewrite <-(at_lookup _ _ _ He0) in He0.
    destruct (wf_expiry _ Hwf _ _ tm He0) as [_ ->]; [congruence|lia]. }
  assert (at_ s1 p = e) as Hat1 by by (unfold s1; rewrite at_set_entry, decide_True).
  assert (∀ k, view s1 k = if decide (key = k)
    then Some (next (at_ s p), 0 `max` (pending (at_ s p) - 1), updatedAt (at_ s p))
    else view s k) as Hv1.
  { intros k. unfold s1. rewrite (view_set_entry key) by done. by rewrite Hne, Hue, Hpe. }
  assert (settled_view cfg (has_timer s key) (view s key) =
    if (0 <? pending e) || bool_decide (is_Some (expiry e))
    then Some (next (at_ s p), 0 `max` (pending (at_ s p) - 1), updatedAt (at_ s p))
    else if graceWindow cfg <=? 0 then None
    else Some (next (at_ s p), 0, updatedAt (at_ s p))) as Hsv.
  { unfold settled_view, has_timer, view. rewrite Hkey. simpl. by rewrite Hxe, Hpe. }
  assert ((0 <? pending e) || bool_decide (is_Some (expiry e)) = false ↔
    pending e = 0 ∧ expiry e = None) as Hidle.
  { rewrite orb_false_iff, Z.ltb_ge, bool_decide_eq_false, <-eq_None_not_Some.
    split; intros []; split; auto; lia. }
  destruct ((0 <? pending e) || bool_decide (is_Some (expiry e))) eqn:Hkeep;
    [|destruct (graceWindow cfg <=? 0)];
    (split_and!; [done|done| |]); try done.
  - intros k. rewrite Hv1. case_decide; [by subst|done].
  - by apply dropLocked_wf.
  - intros k. rewrite view_dropLocked, Hv1. case_decide; [by subst|done].
  - destruct (arm_wf key p (now + graceWindow cfg) s1 Hwf1 Hkey) as [Hwf2 _];
      rewrite ?Hat1 in *; done || by apply Hidle.
  - destruct (arm_wf key p (now + graceWindow cfg) s1 Hwf1 Hkey) as [_ Hv2];
      rewrite ?Hat1 in *; try by apply Hidle.
    intros k. etrans; [apply Hv2|]. rewrite Hv1. case_decide; [subst; rewrite Hsv; repeat f_equal|done].
    pose proof (proj1 Hidle eq_refl) as [? _]. lia.
Qed.

Lemma forget_spec key s :
  wf s →
  wf (forget key s) ∧
  ∀ k, view (forget key s) k = if decide (key = k) then None else view s k.
Proof.
  intros Hwf. unfold forget. destruct (senders s !! key) as [p|] eqn:Hp.
  - split; [by apply dropLocked_wf | by apply view_dropLocked].
  - split; [done|]. intros k. case_decide; [subst|done]. unfold view. by rewrite Hp.
Qed.

(** When the grace period ends, only an idle chain that is still in force is
    forgotten: a timer that fired late never touches what replaced it. *)
Lemma graceExpired_spec key p s :
  wf s →
  wf (graceExpired key p s) ∧
  ∀ k, view (graceExpired key p s) k =
    if decide (key = k ∧ senders s !! key = Some p ∧ in_flight (view s key) ≤ 0)
    then None else view s k.
Proof.
  intros Hwf. unfold graceExpired.
  assert (senders s !! key = Some p → in_flight (view s key) = pending (at_ s p)) as Hif.
  { intros Hp. unfold view. by rewrite Hp. }
  case_decide as Hc.
  - destruct Hc as [Hp Hz]. split; [by apply dropLocked_wf|]. intros k.
    rewrite view_dropLocked. specialize (Hif Hp). repeat case_decide; naive_solver lia.
  - split; [done|]. intros k. case_decide as Hk; [|done].
    destruct Hk as (-> & Hp & Hz). rewrite Hif in Hz by done. naive_solver.
Qed.

(** Going forward, a user's chain is one it already had or a new one: a chain
    that was let go never comes back. *)
Definition grows (c c' : t) : Prop :=
  (fresh c ≤ fresh c')%nat ∧
  ∀ k p, senders c' !! k = Some p → senders c !! k = Some p ∨ (fresh c ≤ p)%nat.

Lemma grows_refl c : grows c c.
Proof. split; auto. Qed.

Lemma grows_same c c' : senders c' = senders c → (fresh c ≤ fresh c')%nat → grows c c'.
Proof. intros Hs Hf. split; [done|]. rewrite Hs. auto. Qed.

Lemma grows_trans c1 c2 c3 : grows c1 c2 → grows c2 c3 → grows c1 c3.
Proof.
  intros [Hf1 Hs1] [Hf2 Hs2]. split; [lia|]. intros k p Hp.
  destruct (Hs2 k p Hp) as [?|?]; [eauto | right; lia].
Qed.

Lemma dropLocked_grows key p c : grows c (dropLocked key p c).
Proof.
  split; unfold dropLocked; simpl; [by rewrite stopExpiry_fresh|].
  intros k q [_ Hq]%lookup_delete_Some. left. by rewrite stopExpiry_senders in Hq.
Qed.

Lemma chainLocked_grows cfg now key c : grows c (chainLocked cfg now key c).2.
Proof.
  unfold chainLocked. repeat case_match; simplify_eq/=; auto using grows_refl, dropLocked_grows.
Qed.

Lemma reserveLocked_grows cfg now key n b c : grows c (reserveLocked cfg now key n b c).2.
Proof.
  unfold reserveLocked. pose proof (chainLocked_grows cfg now key c) as Hg.
  destruct (chainLocked cfg now key c) as [[p|] c1]; simpl in *; (eapply grows_trans; [done|]).
  - apply grows_same; simpl; by rewrite ?stopExpiry_senders, ?stopExpiry_fresh.
  - split; simpl; rewrite ?stopExpiry_senders, ?stopExpiry_fresh; simpl; [lia|].
    intros k p. rewrite lookup_insert. case_decide; [|auto]. intros [= <-]. by right.
Qed.

Lemma release_grows cfg now key chain c c' :
  release cfg now key chain c = Some c' → grows c c'.
Proof.
  unfold release. destruct chain as [p|]; [|done]. case_decide; [|done].
  set (e := if 0 <? pending (at_ c p) then _ else _).
  assert (grows c (set_entry p e c)) as Hset by by apply grows_same.
  repeat case_match; intros; simplify_eq; try done.
  - eapply grows_trans; [done | apply dropLocked_grows].
  - apply grows_same; simpl; [done|lia].
Qed.

Lemma forget_grows key c : grows c (forget key c).
Proof. unfold forget. case_match; auto using grows_refl, dropLocked_grows. Qed.

Lemma graceExpired_grows key p c : grows c (graceExpired key p c).
Proof. unfold graceExpired. case_decide; auto using grows_refl, dropLocked_grows. Qed.

(** Going forward without a reservation or a release: chains may be let go, and
    those that stay keep what they have in flight. *)
Definition shrinks (c c' : t) : Prop :=
  (fresh c ≤ fresh c')%nat ∧
  ∀ k p, senders c' !! k = Some p →
    senders c !! k = Some p ∧ pending (at_ c' p) = pending (at_ c p).

Lemma shrinks_refl c : shrinks c c.
Proof. split; auto. Qed.

Lemma dropLocked_shrinks key p c : shrinks c (dropLocked key p c).
Proof.
  split; unfold dropLocked; simpl; [by rewrite stopExpiry_fresh|].
  intros k q [_ Hq]%lookup_delete_Some. rewrite stopExpiry_senders in Hq. split; [done|].
  change (at_ {| senders := _; chains := chains (stopExpiry p c); timers := _; fresh := _ |} q)
    with (at_ (stopExpiry p c) q).
  rewrite stopExpiry_at. case_decide; by subst.
Qed.

Lemma chainLocked_shrinks cfg now key c : shrinks c (chainLocked cfg now key c).2.
Proof.
  unfold chainLocked. repeat case_match; simplify_eq/=; auto using shrinks_refl, dropLocked_shrinks.
Qed.

Lemma forget_shrinks key c : shrinks c (forget key c).
Proof. unfold forget. case_match; auto using shrinks_refl, dropLocked_shrinks. Qed.

Lemma graceExpired_shrinks key p c : shrinks c (graceExpired key p c).
Proof. unfold graceExpired. case_decide; auto using shrinks_refl, dropLocked_shrinks. Qed.

(** Going forward without a reservation: chains may be let go, and those that stay
    keep the nonce they expect. *)
Definition stays (c c' : t) : Prop :=
  (fresh c ≤ fresh c')%nat ∧
  ∀ k p, senders c' !! k = Some p →
    senders c !! k = Some p ∧ next (at_ c' p) = next (at_ c p).

Lemma stays_refl c : stays c c.
Proof. split; auto. Qed.

Lemma stays_trans c1 c2 c3 : stays c1 c2 → stays c2 c3 → stays c1 c3.
Proof.
  intros [Hf1 Hs1] [Hf2 Hs2]. split; [lia|]. intros k p Hp.
  destruct (Hs2 k p Hp) as [Hp2 ->]. by apply Hs1.
Qed.

Lemma dropLocked_stays key p c : stays c (dropLocked key p c).
Proof.
  split; unfold dropLocked; simpl; [by rewrite stopExpiry_fresh|].
  intros k q [_ Hq]%lookup_delete_Some. rewrite stopExpiry_senders in Hq. split; [done|].
  change (at_ {| senders := _; chains := chains (stopExpiry p c); timers := _; fresh := _ |} q)
    with (at_ (stopExpiry p c) q).
  rewrite stopExpiry_at. case_decide; by subst.
Qed.

Lemma chainLocked_stays cfg now key c : stays c (chainLocked cfg now key c).2.
Proof.
  unfold chainLocked. repeat case_match; simplify_eq/=; auto using stays_refl, dropLocked_stays.
Qed.

Lemma forget_gone key c : senders (forget key c) !! key = None.
Proof.
  unfold forget. destruct (senders c !! key) as [p|] eqn:Hp; [|done].
  unfold dropLocked. simpl. by rewrite lookup_delete_eq.
Qed.

Lemma forget_stays key c : stays c (forget key c).
Proof. unfold forget. case_match; auto using stays_refl, dropLocked_stays. Qed.

Lemma graceExpired_stays key p c : stays c (graceExpired key p c).
Proof. unfold graceExpired. case_decide; auto using stays_refl, dropLocked_stays. Qed.

Lemma set_entry_stays p e c : next e = next (at_ c p) → stays c (set_entry p e c).
Proof.
  intros He. split; [done|]. intros k q Hq. split; [done|]. rewrite at_set_entry.
  case_decide; by subst.
Qed.

Lemma release_stays cfg now key chain c c' : release cfg now key chain c = Some c' → stays c c'.
Proof.
  unfold release. destruct chain as [p|]; [|done]. case_decide; [|done].
  set (e := if 0 <? pending (at_ c p) then _ else _).
  assert (He : next e = next (at_ c p)) by (unfold e; by case_match).
  assert (Hset := set_entry_stays p e c He).
  repeat case_match; intros; simplify_eq; try done.
  - eapply stays_trans; [done | apply dropLocked_stays].
  - eapply stays_trans; [exact Hset|]. split; [simpl; lia|]. intros k q Hq. split; [done|].
    unfold at_; simpl. rewrite !lookup_insert. by case_decide.
Qed.

(** A reservation leaves every other user's chain in force. *)
Lemma reserveLocked_senders cfg now key n b c k :
  k ≠ key → senders (reserveLocked cfg now key n b c).2 !! k = senders c !! k.
Proof.
  intros Hne. unfold reserveLocked, chainLocked.
  repeat (case_match; simplify_eq/=); rewrite ?stopExpiry_senders; simpl;
    rewrite ?lookup_insert_ne, ?lookup_delete_ne, ?stopExpiry_senders by done; done.
Qed.

(** What a reservation does by pointer: it counts on the user's chain in force, or on
    a new one with nothing in flight. *)
Lemma reserveLocked_pointer cfg now key nonce (inFlight : bool) c :
  wf c →
  let '(p, c') := reserveLocked cfg now key nonce inFlight c in
  let inc := if inFlight then 1 else 0 in
  wf c' ∧ senders c' !! key = Some p ∧ (fresh c ≤ fresh c')%nat ∧ (p < fresh c')%nat ∧
  (∀ k, k ≠ key → senders c' !! k = senders c !! k) ∧
  (∀ k r, k ≠ key → senders c !! k = Some r → pending (at_ c' r) = pending (at_ c r)) ∧
  (senders c !! key = Some p ∧ pending (at_ c' p) = pending (at_ c p) + inc ∨
   p = fresh c ∧ pending (at_ c' p) = inc).
Proof.
  intros Hwf. pose proof (reserveLocked_chain cfg now key nonce inFlight c Hwf) as Hc.
  pose proof (reserveLocked_spec cfg now key nonce inFlight c Hwf) as Hr.
  pose proof (reserveLocked_grows cfg now key nonce inFlight c) as Hg.
  pose proof (reserveLocked_senders cfg now key nonce inFlight c) as Hs.
  destruct (reserveLocked cfg now key nonce inFlight c) as [p c']. simpl in *.
  destruct Hr as (Hwf' & Hp & Hv), Hg as [Hf _].
  assert (Hpend : ∀ k r, senders c' !! k = Some r →
    pending (at_ c' r) = in_flight (view c' k)) by (intros k r Hk; unfold view; by rewrite Hk).
  split_and!; [done|done|done| |done| |].
  - destruct (wf_live _ Hwf' _ _ Hp) as [e He]. by destruct (wf_entry _ Hwf' _ _ He).
  - intros k r Hne Hk. rewrite (Hpend k r) by by rewrite Hs.
    rewrite Hv, decide_False by done. unfold view. by rewrite Hk.
  - rewrite (Hpend key p Hp), Hv, decide_True by done. simpl.
    destruct Hc as [[Hin ->]|[-> ->]]; [left|right]; split; try done.
    unfold view. by rewrite Hin.
Qed.

(** The nonce expected after a reservation, by pointer: past the one reserved and never
    back; the chains of the other users are as they were. *)
Lemma reserveLocked_next cfg now key nonce inFlight c :
  wf c →
  let '(p, c') := reserveLocked cfg now key nonce inFlight c in
  (next (at_ c' p) = u64 (nonce + 1) ∧ p = fresh c ∨
   next (at_ c' p) = next (at_ c p) `max` u64 (nonce + 1) ∧ senders c !! key = Some p) ∧
  ∀ k r, k ≠ key → senders c' !! k = Some r →
    senders c !! k = Some r ∧ next (at_ c' r) = next (at_ c r).
Proof.
  intros Hwf. pose proof (reserveLocked_chain cfg now key nonce inFlight c Hwf) as Hc.
  pose proof (reserveLocked_spec cfg now key nonce inFlight c Hwf) as Hr.
  pose proof (reserveLocked_senders cfg now key nonce inFlight c) as Hs.
  destruct (reserveLocked cfg now key nonce inFlight c) as [p c']. simpl in *.
  destruct Hr as (_ & Hp & Hv). split.
  - pose proof (Hv key) as Hk. rewrite decide_True in Hk by done. unfold view in Hk at 1.
    rewrite Hp in Hk. simpl in Hk. injection Hk as Hn _ _. rewrite Hn.
    destruct Hc as [[Hin ->]|[-> ->]]; [right|by left]. split; [|done].
    unfold view. by rewrite Hin.
  - intros k r Hne Hk. pose proof (Hv k) as Hvk. rewrite decide_False in Hvk by done.
    rewrite Hs in Hk by done. split; [done|]. unfold view in Hvk.
    rewrite Hs, Hk in Hvk by done. simpl in Hvk. by injection Hvk.
Qed.

(** A release takes one off its own chain, and may let it go. *)
Lemma release_pending cfg now key chain c c' :
  release cfg now key chain c = Some c' →
  ∃ p, chain = Some p ∧ senders c !! key = Some p ∧ (fresh c ≤ fresh c')%nat ∧
    ∀ k q, senders c' !! k = Some q →
      senders c !! k = Some q ∧
      pending (at_ c' q) =
        if decide (p = q) then (if 0 <? pending (at_ c p) then pending (at_ c p) - 1
                                else pending (at_ c p))
        else pending (at_ c q).
Proof.
  unfold release. destruct chain as [p|]; [|done]. case_decide as Hp; [|done].
  set (e := if 0 <? pending (at_ c p) then _ else at_ c p). set (c1 := set_entry p e c).
  assert (pending e = if 0 <? pending (at_ c p) then pending (at_ c p) - 1
                      else pending (at_ c p)) as He by (unfold e; by destruct (0 <? _)).
  assert (∀ q, pending (at_ c1 q) =
    if decide (p = q) then pending e else pending (at_ c q)) as Hc1.
  { intros q. unfold c1. rewrite at_set_entry. by case_decide. }
  intros Hr. exists p. rewrite <-He. split_and!; [done|done|..].
  - destruct (_ || _) in Hr; [by simplify_eq|].
    destruct (graceWindow cfg <=? 0) in Hr; simplify_eq; simpl; [by rewrite stopExpiry_fresh|lia].
  - intros k q Hq. destruct (_ || _) in Hr; [simplify_eq; by rewrite <-Hc1|].
    destruct (graceWindow cfg <=? 0) in Hr; simplify_eq.
    + apply dropLocked_shrinks in Hq as [Hq ->]. by rewrite <-Hc1.
    + split; [done|]. rewrite <-Hc1. unfold at_, c1. simpl. rewrite !lookup_insert.
      by case_decide.
Qed.

(** A chain that is nobody's, for good. *)
Definition retired (p : nat) (c : t) : Prop :=
  (p < fresh c)%nat ∧ ∀ k, senders c !! k ≠ Some p.

Lemma grows_retired p c c' : grows c c' → retired p c → retired p c'.
Proof.
  intros [Hf Hs] [Hlt Hno]. split; [lia|]. intros k Hk.
  destruct (Hs k p Hk) as [?|?]; [by eapply Hno | lia].
Qed.

Lemma forget_retired key p c : wf c → senders c !! key = Some p → retired p (forget key c).
Proof.
  intros Hwf Hp. pose proof (wf_live _ Hwf _ _ Hp) as [e He].
  apply (wf_entry _ Hwf) in He as [Hlt _]. split.
  - destruct (forget_grows key c). lia.
  - intros k. unfold forget. rewrite Hp. unfold dropLocked; simpl.
    rewrite stopExpiry_senders, lookup_delete_Some. intros [Hne Hk].
    by eapply Hne, wf_own.
Qed.

End Chains.


(** ** The metatx held by the reordering *)

Module Held.

Record heldMetaTx := {
  nonce : Z;
  wake : option nat;
  evicted : bool;
  evictedInflight : Z;
}.

Record t := {
  held : gmap string (list nat);
  helds : gmap nat heldMetaTx;
  closed : gset nat;
  fresh : nat;
}.

Definition empty : t := {| held := ∅; helds := ∅; closed := ∅; fresh := 0 |}.

Definition nil_held : heldMetaTx :=
  {| nonce := 0; wake := None; evicted := false; evictedInflight := 0 |}.
Definition at_ (s : t) (p : nat) : heldMetaTx := default nil_held (helds s !! p).
Definition held_of (s : t) (key : string) : list nat := default [] (held s !! key).

Definition set_held (p : nat) (h : heldMetaTx) (s : t) : t :=
  {| held := held s; helds := <[p := h]> (helds s); closed := closed s; fresh := fresh s |}.

Definition with_wake (w : option nat) (h : heldMetaTx) : heldMetaTx :=
  {| nonce := nonce h; wake := w; evicted := evicted h;
     evictedInflight := evictedInflight h |}.

(** Cutting an element out of a slice at its first occurrence. *)
Fixpoint remove_first (p : nat) (l : list nat) : list nat :=
  match l with
  | [] => []
  | q :: l' => if decide (q = p) then l' else q :: remove_first p l'
  end.

Definition waitingOf (key : string) (s : t) : Z := Z.of_nat (length (held_of s key)).

Definition hold (key : string) (n : Z) (s : t) : nat * t :=
  let p := fresh s in
  (p, {| held := <[key := held_of s key ++ [p]]> (held s);
         helds := <[p := {| nonce := n; wake := None; evicted := false;
                            evictedInflight := 0 |}]> (helds s);
         closed := closed s; fresh := S (fresh s) |}).

Definition unholdLocked (key : string) (p : nat) (s : t) : t :=
  let h :=
    if decide (p ∈ held_of s key)
    then <[key := remove_first p (held_of s key)]> (held s) else held s in
  {| held := if decide (default [] (h !! key) = []) then delete key h else h;
     helds := helds s; closed := closed s; fresh := fresh s |}.

Definition waitTurnLocked (p : nat) (s : t) : nat * t :=
  let c := fresh s in
  (c, {| held := held s; helds := <[p := with_wake (Some c) (at_ s p)]> (helds s);
         closed := closed s; fresh := S (fresh s) |}).

Definition stopWaitingLocked (p : nat) (s : t) : t :=
  set_held p (with_wake None (at_ s p)) s.

(** Closing the channel is what wakes the sleeper. *)
Definition wakeLocked (p : nat) (s : t) : t :=
  match wake (at_ s p) with
  | None => s
  | Some c =>
      {| held := held s; helds := <[p := with_wake None (at_ s p)]> (helds s);
         closed := {[c]} ∪ closed s; fresh := fresh s |}
  end.

Definition notifyTurnLocked (key : string) (s : t) : t :=
  foldl (λ s p, wakeLocked p s) s (held_of s key).

Definition evictHeldLocked (key : string) (p : nat) (inflight : Z) (s : t) : t :=
  let h := at_ s p in
  let s := set_held p {| nonce := nonce h; wake := wake h; evicted := true;
                         evictedInflight := inflight |} s in
  wakeLocked p (unholdLocked key p s).

Definition highestHeldLocked (key : string) (s : t) : option nat :=
  foldl (λ highest p,
           match highest with
           | None => Some p
           | Some q => if nonce (at_ s q) <=? nonce (at_ s p) then Some p else highest
           end) None (held_of s key).

(** ** Well-formedness

    A user's list is never empty and never repeats an entry, no entry is
    registered twice or after its eviction, and the channel an entry sleeps on
    is its own and still open, so closing it cannot panic. *)
Record wf (s : t) : Prop := {
  wf_list : ∀ k l, held s !! k = Some l →
    l ≠ [] ∧ NoDup l ∧
    Forall (λ p, ∃ h, helds s !! p = Some h ∧ evicted h = false) l;
  wf_disjoint : ∀ k1 k2 p, p ∈ held_of s k1 → p ∈ held_of s k2 → k1 = k2;
  wf_ptr : ∀ p h, helds s !! p = Some h → (p < fresh s)%nat;
  wf_wake : ∀ p h c, helds s !! p = Some h → wake h = Some c →
    (c < fresh s)%nat ∧ c ∉ closed s;
  wf_wake_own : ∀ p q c, wake (at_ s p) = Some c → wake (at_ s q) = Some c → p = q;
  wf_closed : ∀ c, c ∈ closed s → (c < fresh s)%nat;
}.

(** ** Lists *)

Lemma elem_of_remove_first p q l :
  NoDup l → q ∈ remove_first p l ↔ q ∈ l ∧ q ≠ p.
Proof.
  induction 1 as [|x l Hx Hl IH]; simpl; [set_solver|].
  case_decide; [subst; set_solver|]. rewrite !elem_of_cons, IH. naive_solver.
Qed.

Lemma NoDup_remove_first p l : NoDup l → NoDup (remove_first p l).
Proof.
  induction 1 as [|x l Hx Hl IH]; simpl; [constructor|].
  case_decide; [done|]. constructor; [|done].
  rewrite elem_of_remove_first by done. naive_solver.
Qed.

Lemma remove_first_notin p l : p ∉ l → remove_first p l = l.
Proof.
  induction l as [|x l IH]; simpl; [done|]. rewrite not_elem_of_cons.
  intros [? ?]. rewrite decide_False by done. by rewrite IH.
Qed.

Lemma length_remove_first p l :
  p ∈ l → length l = S (length (remove_first p l)).
Proof.
  induction l as [|x l IH]; [set_solver|]. simpl. case_decide; [done|].
  intros [->|?]%elem_of_cons; [done|]. simpl. by rewrite <-IH.
Qed.

Lemma remove_first_perm p l : p ∈ l → l ≡ₚ p :: remove_first p l.
Proof.
  induction l as [|x l IH]; [set_solver|]. simpl. case_decide; [by subst|].
  intros [->|?]%elem_of_cons; [done|]. rewrite Permutation_swap. by rewrite <-IH.
Qed.

(** ** Reading the state after an operation *)

Lemma held_at_lookup s p h : helds s !! p = Some h → at_ s p = h.
Proof. unfold at_. by intros ->. Qed.

Lemma at_set_held p q h s : at_ (set_held p h s) q = if decide (p = q) then h else at_ s q.
Proof. unfold at_, set_held; simpl. rewrite lookup_insert. by case_decide. Qed.

Lemma wake_at_live s p c : wake (at_ s p) = Some c → is_Some (helds s !! p).
Proof. unfold at_. destruct (helds s !! p); simpl; [eauto | done]. Qed.

Lemma held_of_lookup s k l : held s !! k = Some l → held_of s k = l.
Proof. unfold held_of. by intros ->. Qed.

Lemma held_of_NoDup s k : wf s → NoDup (held_of s k).
Proof.
  intros Hwf. unfold held_of. destruct (held s !! k) as [l|] eqn:Hl; [|constructor].
  by apply (wf_list _ Hwf) in Hl as (_ & ? & _).
Qed.

Lemma held_of_live s k p :
  wf s → p ∈ held_of s k → ∃ h, helds s !! p = Some h ∧ evicted h = false.
Proof.
  intros Hwf. unfold held_of. destruct (held s !! k) as [l|] eqn:Hl; [simpl|set_solver].
  apply (wf_list _ Hwf) in Hl as (_ & _ & Hall). rewrite Forall_forall in Hall. auto.
Qed.

Lemma held_of_unhold key p s k :
  held_of (unholdLocked key p s) k =
    if decide (key = k) then remove_first p (held_of s k) else held_of s k.
Proof.
  unfold unholdLocked, held_of at 1; simpl.
  destruct (decide (key = k)) as [<-|Hne].
  - destruct (decide (p ∈ held_of s key)) as [Hp|Hp].
    + rewrite lookup_insert_eq; simpl. case_decide as Hz.
      * by rewrite lookup_delete_eq.
      * by rewrite lookup_insert_eq.
    + rewrite remove_first_notin by done.
      fold (held_of s key). case_decide as Hz; [|done]. by rewrite lookup_delete_eq.
  - fold (held_of s k).
    destruct (decide (p ∈ held_of s key)); case_decide;
      rewrite ?lookup_delete_ne, ?lookup_insert_ne by done; done.
Qed.

Lemma unhold_lookup key p s k l :
  held (unholdLocked key p s) !! k = Some l →
  (key = k ∧ l = remove_first p (held_of s k) ∧ l ≠ []) ∨ (key ≠ k ∧ held s !! k = Some l).
Proof.
  intros Hl. pose proof (held_of_unhold key p s k) as Hof.
  rewrite (held_of_lookup _ _ _ Hl) in Hof. revert Hl. unfold unholdLocked; simpl.
  destruct (decide (key = k)) as [<-|Hne].
  - left. case_decide as Hz; [by rewrite lookup_delete_eq in Hl|].
    split_and!; [done|done|]. intros ->. by rewrite Hl in Hz.
  - right. split; [done|].
    repeat case_decide; rewrite ?lookup_delete_ne, ?lookup_insert_ne in Hl by done; done.
Qed.

(** ** Preservation *)

Lemma held_empty_wf : wf empty.
Proof.
  constructor; unfold empty, held_of, at_; simpl; intros *; rewrite ?lookup_empty; try done;
    set_solver.
Qed.

(** Changing an entry that is registered or not, without evicting it if it is. *)
Lemma set_held_wf p h s :
  wf s → is_Some (helds s !! p) → (evicted h = false ∨ ∀ k, p ∉ held_of s k) →
  (∀ c, wake h = Some c → wake (at_ s p) = Some c) →
  wf (set_held p h s).
Proof.
  intros [Hl Hd Hp Hw Ho Hc] [h0 Hh0] Hev Hwk. constructor; simpl; try done.
  - intros k l Hkl. destruct (Hl k l Hkl) as (? & ? & Hall). split_and!; try done.
    rewrite Forall_forall in *. intros q Hq. destruct (Hall q Hq) as (h' & ? & ?).
    rewrite lookup_insert. case_decide; [subst|by eauto].
    destruct Hev as [?|Hno]; [by eauto|].
    destruct (Hno k). by rewrite (held_of_lookup _ _ _ Hkl).
  - intros q h'. rewrite lookup_insert. case_decide; [intros; subst|]; eauto.
  - intros q h' c. rewrite lookup_insert. case_decide; [|eauto].
    intros [= <-] Hwc. subst q. apply (Hw p h0); [done|].
    apply Hwk in Hwc. by rewrite (held_at_lookup _ _ _ Hh0) in Hwc.
  - intros q q' c. rewrite !at_set_held. repeat case_decide; subst; eauto.
Qed.

Lemma wakeLocked_held p s : held (wakeLocked p s) = held s.
Proof. unfold wakeLocked. by case_match. Qed.

Lemma held_of_wake p s k : held_of (wakeLocked p s) k = held_of s k.
Proof. unfold held_of. by rewrite wakeLocked_held. Qed.

Lemma wakeLocked_at p q s :
  at_ (wakeLocked p s) q = if decide (p = q) then with_wake None (at_ s q) else at_ s q.
Proof.
  unfold wakeLocked. case_match eqn:Hx.
  - unfold at_; simpl. rewrite lookup_insert. case_decide; by subst.
  - case_decide; [subst|done]. unfold with_wake. rewrite <-Hx. by destruct (at_ s q).
Qed.

Lemma wakeLocked_closed p s c :
  c ∈ closed (wakeLocked p s) ↔ c ∈ closed s ∨ wake (at_ s p) = Some c.
Proof. unfold wakeLocked. case_match; simpl; set_solver. Qed.

(** Waking closes a channel nobody else sleeps on, so no channel is ever closed
    twice and no sleeping entry is left with a closed channel. *)
Lemma wakeLocked_wf p s : wf s → wf (wakeLocked p s).
Proof.
  intros Hwf. unfold wakeLocked. destruct (wake (at_ s p)) as [c|] eqn:Hc; [|done].
  pose proof (wake_at_live _ _ _ Hc) as [h Hh].
  assert (wf (set_held p (with_wake None (at_ s p)) s)) as Hset.
  { apply set_held_wf; eauto; [|done]. rewrite (held_at_lookup _ _ _ Hh). simpl.
    destruct (evicted h) eqn:Hev; [|by left]. right. intros k Hk.
    apply held_of_live in Hk as (h' & ? & ?); [congruence|done]. }
  destruct Hset as [Hl Hd Hp Hw Ho Hcl]. constructor; simpl; try done.
  - intros q h' c' Hq Hwk. destruct (Hw q h' c' Hq Hwk) as [? Hnot].
    split; [done|]. rewrite not_elem_of_union, not_elem_of_singleton. split; [|done].
    intros ->. revert Hq. simpl. rewrite lookup_insert. case_decide; [by intros [= <-]|].
    intros Hq. assert (p = q); [|done].
    apply (wf_wake_own _ Hwf p q c); [done|]. by rewrite (held_at_lookup _ _ _ Hq).
  - intros c' [->%elem_of_singleton|?]%elem_of_union; [|eauto].
    rewrite (held_at_lookup _ _ _ Hh) in Hc. by apply (wf_wake _ Hwf p h).
Qed.

Lemma wake_list_spec l s :
  wf s →
  let s' := foldl (λ s p, wakeLocked p s) s l in
  wf s' ∧ held s' = held s ∧
  (∀ q, at_ s' q = if decide (q ∈ l) then with_wake None (at_ s q) else at_ s q) ∧
  (∀ c, c ∈ closed s' ↔ c ∈ closed s ∨ ∃ p, p ∈ l ∧ wake (at_ s p) = Some c).
Proof.
  revert s. induction l as [|p l IH]; intros s Hwf; simpl.
  - split_and!; try done. intros c. set_solver.
  - destruct (IH (wakeLocked p s) (wakeLocked_wf p s Hwf)) as (Hwf' & Hh & Hat & Hcl).
    split_and!; [done|by rewrite Hh, wakeLocked_held| |].
    + intros q. rewrite Hat, wakeLocked_at.
      repeat case_decide; subst; try done; set_solver.
    + intros c. rewrite Hcl, wakeLocked_closed. setoid_rewrite wakeLocked_at.
      setoid_rewrite elem_of_cons. split.
      * intros [[?|?]|(q & Hq & Hw)]; [auto|eauto|].
        case_decide; [done|]. eauto.
      * intros [?|(q & [->|Hq] & Hw)]; [auto..|].
        destruct (decide (p = q)) as [->|?]; [auto|]. right. exists q.
        by rewrite decide_False.
Qed.

(** Everyone held for the user is awake afterwards, through its own channel;
    nobody else is disturbed. *)
Lemma notifyTurnLocked_spec key s :
  wf s →
  let s' := notifyTurnLocked key s in
  wf s' ∧ held s' = held s ∧
  (∀ q, at_ s' q =
     if decide (q ∈ held_of s key) then with_wake None (at_ s q) else at_ s q) ∧
  (∀ c, c ∈ closed s' ↔
     c ∈ closed s ∨ ∃ p, p ∈ held_of s key ∧ wake (at_ s p) = Some c).
Proof. intros. by apply wake_list_spec. Qed.

Lemma hold_wf key n s : wf s → wf (hold key n s).2.
Proof.
  intros Hwf.
  assert (∀ k p, p ∈ held_of s k → p ≠ fresh s) as Hnew.
  { intros k p (h & Hh & _)%held_of_live; [|done]. apply (wf_ptr _ Hwf) in Hh. lia. }
  assert (∀ k, held_of (hold key n s).2 k =
    if decide (key = k) then held_of s k ++ [fresh s] else held_of s k) as Hof.
  { intros k. unfold held_of at 1; simpl. rewrite lookup_insert. by case_decide; subst. }
  assert (∀ q, at_ (hold key n s).2 q = if decide (fresh s = q) then
    {| nonce := n; wake := None; evicted := false; evictedInflight := 0 |} else at_ s q) as Hat.
  { intros q. unfold at_; simpl. rewrite lookup_insert. by case_decide. }
  pose proof Hwf as [Hl Hd Hp Hw Ho Hc]. constructor.
  - assert (Forall (λ p, ∃ h, helds (hold key n s).2 !! p = Some h ∧ evicted h = false)
      (held_of s key)) as Hold.
    { apply Forall_forall. intros p Hpk.
      destruct (held_of_live _ _ _ Hwf Hpk) as (h & ? & ?). exists h. simpl.
      rewrite lookup_insert_ne; [done|]. by apply not_eq_sym, (Hnew key). }
    intros k l. simpl. rewrite lookup_insert. case_decide.
    + intros [= <-]. split_and!; [by destruct (held_of s key)| |].
      * apply NoDup_app. split_and!; [by apply held_of_NoDup| |apply NoDup_singleton].
        intros p Hpk ->%list_elem_of_singleton. by apply (Hnew key (fresh s)).
      * apply Forall_app. split; [done|]. apply Forall_singleton.
        eexists. by rewrite lookup_insert_eq.
    + intros Hkl. destruct (Hl k l Hkl) as (? & ? & Hall). split_and!; try done.
      rewrite Forall_forall in *. intros p Hpl.
      destruct (Hall p Hpl) as (h & ? & ?). exists h.
      rewrite lookup_insert_ne; [done|]. apply not_eq_sym, (Hnew k).
      by rewrite (held_of_lookup _ _ _ Hkl).
  - intros k1 k2 p. rewrite !Hof.
    repeat case_decide; rewrite ?elem_of_app, ?list_elem_of_singleton; subst; try done; eauto.
    + intros [?| ->] ?; [eauto|]. by destruct (Hnew k2 (fresh s)).
    + intros ? [?| ->]; [eauto|]. by destruct (Hnew k1 (fresh s)).
  - intros p h. simpl. rewrite lookup_insert. case_decide; [intros; lia|].
    intros Hph%Hp. lia.
  - intros p h c. simpl. rewrite lookup_insert. case_decide; [by intros [= <-]|].
    intros Hph Hwk. destruct (Hw p h c Hph Hwk). split; [lia|done].
  - intros p q c. rewrite !Hat. repeat case_decide; try done. apply Ho.
  - intros c Hcc%Hc. simpl. lia.
Qed.

Lemma held_of_hold key n s k :
  held_of (hold key n s).2 k =
    if decide (key = k) then held_of s k ++ [fresh s] else held_of s k.
Proof. unfold held_of at 1; simpl. rewrite lookup_insert. by case_decide; subst. Qed.

Lemma unholdLocked_wf key p s : wf s → wf (unholdLocked key p s).
Proof.
  intros Hwf. pose proof Hwf as [Hl Hd Hp Hw Ho Hc]. constructor; try done.
  - intros k l [(<- & -> & Hne)|[Hne Hkl]]%unhold_lookup; [|exact (Hl k l Hkl)].
    split_and!; [done|by apply NoDup_remove_first, held_of_NoDup|].
    apply Forall_forall. intros q Hq.
    rewrite elem_of_remove_first in Hq by by apply held_of_NoDup.
    destruct Hq as [Hq _]. by apply held_of_live in Hq.
  - intros k1 k2 q. rewrite !held_of_unhold.
    assert (∀ k, q ∈ remove_first p (held_of s k) → q ∈ held_of s k) as Hsub.
    { intros k. rewrite elem_of_remove_first by by apply held_of_NoDup. tauto. }
    repeat case_decide; subst; eauto.
Qed.

(** Leaving the registry twice is leaving it once. *)
Lemma unholdLocked_idem key p s :
  wf s → unholdLocked key p (unholdLocked key p s) = unholdLocked key p s.
Proof.
  intros Hwf. set (s1 := unholdLocked key p s).
  assert (p ∉ held_of s1 key) as Hnot.
  { unfold s1. rewrite held_of_unhold, decide_True by done.
    rewrite elem_of_remove_first by by apply held_of_NoDup. naive_solver. }
  assert (wf s1) as Hwf1 by by apply unholdLocked_wf. clearbody s1.
  unfold unholdLocked. rewrite (decide_False (P := p ∈ held_of s1 key)) by done.
  fold (held_of s1 key). case_decide as Hz; [|by destruct s1].
  rewrite delete_id; [by destruct s1|].
  destruct (held s1 !! key) as [l|] eqn:Hl; [|done].
  apply (wf_list _ Hwf1) in Hl as Hl'.
  rewrite (held_of_lookup _ _ _ Hl) in Hz. naive_solver.
Qed.

Lemma waitTurnLocked_wf p s :
  wf s → is_Some (helds s !! p) → wf (waitTurnLocked p s).2.
Proof.
  intros Hwf [h Hh]. pose proof Hwf as [Hl Hd Hp Hw Ho Hc].
  assert (∀ q, at_ (waitTurnLocked p s).2 q =
    if decide (p = q) then with_wake (Some (fresh s)) (at_ s q) else at_ s q) as Hat.
  { intros q. unfold at_; simpl. rewrite lookup_insert. by case_decide; subst. }
  constructor; try done.
  - intros k l Hkl. destruct (Hl k l Hkl) as (? & ? & Hall). split_and!; try done.
    rewrite Forall_forall in *. intros q Hq. destruct (Hall q Hq) as (h' & Hh' & Hev).
    simpl. rewrite lookup_insert. case_decide; [subst|by eauto].
    eexists. split; [done|]. by rewrite (held_at_lookup _ _ _ Hh').
  - intros q h'. simpl. rewrite lookup_insert. case_decide; [subst|].
    + intros _. apply Hp in Hh. lia.
    + intros Hq%Hp. lia.
  - intros q h' c. simpl. rewrite lookup_insert. case_decide.
    + intros [= <-] [= <-]. split; [lia|]. intros Hcl%Hc. lia.
    + intros Hq Hwk. destruct (Hw q h' c Hq Hwk). split; [lia|done].
  - assert (∀ q, wake (at_ s q) ≠ Some (fresh s)) as Hnew.
    { intros q Hq. pose proof (wake_at_live _ _ _ Hq) as [h' Hh'].
      rewrite (held_at_lookup _ _ _ Hh') in Hq. destruct (Hw _ _ _ Hh' Hq). lia. }
    intros q q' c. rewrite !Hat.
    repeat case_decide; subst; simpl; try done; naive_solver.
  - intros c Hcc%Hc. simpl. lia.
Qed.

Lemma stopWaitingLocked_wf p s :
  wf s → is_Some (helds s !! p) → wf (stopWaitingLocked p s).
Proof.
  intros Hwf [h Hh]. apply set_held_wf; eauto; [|done]. rewrite (held_at_lookup _ _ _ Hh). simpl.
  destruct (evicted h) eqn:Hev; [|by left]. right. intros k Hk.
  apply held_of_live in Hk as (h' & ? & ?); [congruence|done].
Qed.

(** Evicting: the place is free at once, the entry knows why, and its sleeper
    is awake. *)
Lemma evictHeldLocked_spec key p inflight s :
  wf s → p ∈ held_of s key →
  let s' := evictHeldLocked key p inflight s in
  wf s' ∧ evicted (at_ s' p) = true ∧ evictedInflight (at_ s' p) = inflight ∧
  wake (at_ s' p) = None ∧
  (∀ c, wake (at_ s p) = Some c → c ∈ closed s') ∧
  (∀ k, held_of s' k =
     if decide (key = k) then remove_first p (held_of s k) else held_of s k) ∧
  (∀ q, q ≠ p → at_ s' q = at_ s q).
Proof.
  intros Hwf Hp.
  set (h := {| nonce := nonce (at_ s p); wake := wake (at_ s p); evicted := true;
               evictedInflight := inflight |}).
  assert (unholdLocked key p (set_held p h s) = set_held p h (unholdLocked key p s)) as Hcomm
    by done.
  pose proof (held_of_live _ _ _ Hwf Hp) as (h0 & Hh0 & _).
  assert (wf (set_held p h (unholdLocked key p s))) as Hwf1.
  { apply set_held_wf; [by apply unholdLocked_wf|eauto| |done].
    right. intros k. rewrite held_of_unhold. case_decide as Hk.
    - rewrite elem_of_remove_first by by apply held_of_NoDup. naive_solver.
    - intros Hpk. apply Hk. by eapply wf_disjoint. }
  assert (∀ q, at_ (evictHeldLocked key p inflight s) q =
    if decide (p = q) then with_wake None h else at_ s q) as Hat.
  { intros q. unfold evictHeldLocked. fold h. rewrite wakeLocked_at, Hcomm, at_set_held.
    by repeat case_decide. }
  split_and!.
  - unfold evictHeldLocked. fold h. rewrite Hcomm. by apply wakeLocked_wf.
  - by rewrite Hat, decide_True.
  - by rewrite Hat, decide_True.
  - by rewrite Hat, decide_True.
  - intros c Hc. unfold evictHeldLocked. fold h. rewrite Hcomm.
    apply wakeLocked_closed. right. by rewrite at_set_held, decide_True.
  - intros k. unfold evictHeldLocked. fold h. rewrite Hcomm, held_of_wake.
    change (held_of (set_held p h (unholdLocked key p s)) k)
      with (held_of (unholdLocked key p s) k). apply held_of_unhold.
  - intros q Hq. by rewrite Hat, decide_False.
Qed.

(** ** Who is discarded when the quota is full *)

(** [p] is the last arrival among the entries of greatest nonce of [l]. *)
Definition last_highest (s : t) (l : list nat) (p : nat) : Prop :=
  ∃ l1 l2, l = l1 ++ p :: l2 ∧
    (∀ q, q ∈ l1 → nonce (at_ s q) ≤ nonce (at_ s p)) ∧
    (∀ q, q ∈ l2 → nonce (at_ s q) < nonce (at_ s p)).

Lemma highest_snoc s l p q :
  last_highest s l p →
  last_highest s (l ++ [q]) (if nonce (at_ s p) <=? nonce (at_ s q) then q else p).
Proof.
  intros (l1 & l2 & -> & H1 & H2). destruct (Z.leb_spec (nonce (at_ s p)) (nonce (at_ s q))).
  - exists (l1 ++ p :: l2), []. split_and!; [done| |set_solver].
    intros r [Hr|[->|Hr]%elem_of_cons]%elem_of_app; [|done|].
    + specialize (H1 r Hr). lia.
    + specialize (H2 r Hr). lia.
  - exists l1, (l2 ++ [q]). split_and!; [by rewrite <-app_assoc|done|].
    intros r [Hr| ->%list_elem_of_singleton]%elem_of_app; [by apply H2|lia].
Qed.

Lemma highestHeldLocked_spec key s :
  match highestHeldLocked key s with
  | None => held_of s key = []
  | Some p => last_highest s (held_of s key) p
  end.
Proof.
  unfold highestHeldLocked. induction (held_of s key) as [|q l IH] using rev_ind; [done|].
  rewrite foldl_snoc.
  destruct (foldl _ None l) as [p|].
  - apply (highest_snoc _ _ _ q) in IH. by case_match.
  - subst l. exists [], []. split_and!; [done|set_solver..].
Qed.

Lemma last_highest_elem s l p : last_highest s l p → p ∈ l.
Proof. intros (l1 & l2 & -> & _). set_solver. Qed.

Lemma last_highest_max s l p q : last_highest s l p → q ∈ l → nonce (at_ s q) ≤ nonce (at_ s p).
Proof.
  intros (l1 & l2 & -> & H1 & H2) [Hq|[->|Hq]%elem_of_cons]%elem_of_app; [eauto|lia|].
  specialize (H2 q Hq). lia.
Qed.

(** Registers that only gain entries never seen before: what an operation for one
    metatx leaves of the others. *)
Definition steady (s s' : t) : Prop :=
  (∀ p, is_Some (helds s !! p) → is_Some (helds s' !! p)) ∧
  (∀ k p, p ∈ held_of s' k → p ∈ held_of s k ∨ helds s !! p = None).

Lemma steady_refl s : steady s s.
Proof. split; auto. Qed.

Lemma steady_trans s1 s2 s3 : steady s1 s2 → steady s2 s3 → steady s1 s3.
Proof.
  intros [Hl1 Hh1] [Hl2 Hh2]. split; [auto|]. intros k p Hp.
  destruct (Hh2 k p Hp) as [?|Hn]; [auto|]. right.
  destruct (helds s1 !! p) as [h|] eqn:Hp1; [|done].
  destruct (Hl1 p) as [? ?]; [by eexists|congruence].
Qed.

Lemma steady_same s s' :
  held s' = held s → (∀ p, is_Some (helds s !! p) → is_Some (helds s' !! p)) → steady s s'.
Proof. intros Hh Hl. split; [done|]. intros k p. unfold held_of. rewrite Hh. by left. Qed.

Lemma set_held_steady p h s : steady s (set_held p h s).
Proof. apply steady_same; [done|]. intros q Hq. simpl. rewrite lookup_insert_is_Some'. auto. Qed.

Lemma stopWaitingLocked_steady p s : steady s (stopWaitingLocked p s).
Proof. apply set_held_steady. Qed.

Lemma waitTurnLocked_steady p s : steady s (waitTurnLocked p s).2.
Proof. apply steady_same; [done|]. intros q Hq. simpl. rewrite lookup_insert_is_Some'. auto. Qed.

Lemma wakeLocked_steady p s : steady s (wakeLocked p s).
Proof.
  apply steady_same; [apply wakeLocked_held|]. intros q Hq. unfold wakeLocked.
  case_match; [|done]. simpl. rewrite lookup_insert_is_Some'. auto.
Qed.

Lemma notifyTurnLocked_steady key s : steady s (notifyTurnLocked key s).
Proof.
  unfold notifyTurnLocked. generalize (held_of s key). intros l. revert s.
  induction l as [|p l IH]; intros s; simpl; [apply steady_refl|].
  eapply steady_trans; [apply wakeLocked_steady|apply IH].
Qed.

Lemma unholdLocked_steady key p s : wf s → steady s (unholdLocked key p s).
Proof.
  intros Hwf. split; [done|]. intros k q. rewrite held_of_unhold. case_decide; [|by left].
  rewrite elem_of_remove_first by by apply held_of_NoDup. intros [? _]. by left.
Qed.

Lemma evictHeldLocked_steady key p n s : wf s → p ∈ held_of s key → steady s (evictHeldLocked key p n s).
Proof.
  intros Hwf _. unfold evictHeldLocked. eapply steady_trans; [|apply wakeLocked_steady].
  eapply steady_trans; [apply (unholdLocked_steady key p), Hwf|].
  eapply (set_held_steady p _ (unholdLocked key p s)).
Qed.

Lemma hold_steady key n s : wf s → steady s (hold key n s).2.
Proof.
  intros Hwf. split.
  - intros q Hq. simpl. rewrite lookup_insert_is_Some'. auto.
  - intros k q. rewrite held_of_hold. case_decide; [|by left].
    intros [?| ->%list_elem_of_singleton]%elem_of_app; [by left|]. right.
    destruct (helds s !! fresh s) eqn:Hf; [|done]. apply (wf_ptr _ Hwf) in Hf. lia.
Qed.

End Held.

(** ** The tracker: both halves under one lock *)

Record Tracker := { chs : Chains.t; hld : Held.t }.

Definition empty_tracker : Tracker := {| chs := Chains.empty; hld := Held.empty |}.

Definition tracker_wf (s : Tracker) : Prop := Chains.wf (chs s) ∧ Held.wf (hld s).

Definition set_chs (c : Chains.t) (s : Tracker) : Tracker := {| chs := c; hld := hld s |}.
Definition set_hld (h : Held.t) (s : Tracker) : Tracker := {| chs := chs s; hld := h |}.

Section Tracker.
Context `{GoUnicode} (cfg : option Config) (now : Z).

(** The cache key: the address in lower case. *)
Definition senderKey (from : string) : string := to_lower from.

Definition reserveLocked (key : string) (nonce : Z) (inFlight : bool) (s : Tracker) :
    nat * Tracker :=
  let '(p, c) := Chains.reserveLocked cfg now key nonce inFlight (chs s) in
  (p, set_chs c s).

(** Nothing at all happens when the chain is not the one in force; otherwise
    those waiting for their turn are woken, whatever becomes of the chain. *)
Definition releaseChain (key : string) (chain : option nat) (s : Tracker) : Tracker :=
  match Chains.release cfg now key chain (chs s) with
  | None => s
  | Some c => {| chs := c; hld := Held.notifyTurnLocked key (hld s) |}
  end.

Definition forgetChain (key : string) (s : Tracker) : Tracker :=
  {| chs := Chains.forget key (chs s); hld := Held.notifyTurnLocked key (hld s) |}.

Definition pendingOf (from : string) (s : Tracker) : Z * Tracker :=
  let '(n, c) := Chains.pendingOf cfg now (senderKey from) (chs s) in (n, set_chs c s).

Definition cachedNonce (from : string) (s : Tracker) : option Z * Tracker :=
  let '(n, c) := Chains.cachedNonce cfg now (senderKey from) (chs s) in (n, set_chs c s).

Definition invalidateNonce (from : string) (s : Tracker) : Tracker :=
  forgetChain (senderKey from) s.

Definition incrementTransactionCount (from : string) (nonce : Z) (s : Tracker) : Tracker :=
  (reserveLocked (senderKey from) nonce false s).2.

Definition hold (key : string) (nonce : Z) (s : Tracker) : nat * Tracker :=
  let '(p, h) := Held.hold key nonce (hld s) in (p, set_hld h s).

Definition unhold (key : string) (entry : nat) (s : Tracker) : Tracker :=
  set_hld (Held.unholdLocked key entry (hld s)) s.

(** What occupies room: what is held plus what was sent and has no result. *)
Definition inflightLocked (key : string) (s : Tracker) : Z * Tracker :=
  let waiting := Held.waitingOf key (hld s) in
  let '(entry, c) := Chains.chainLocked cfg now key (chs s) in
  (match entry with
   | Some p => waiting + Chains.pending (Chains.at_ c p)
   | None => waiting
   end, set_chs c s).

Definition inflightOf (from : string) (s : Tracker) : Z * Tracker :=
  inflightLocked (senderKey from) s.

(** The grace timer's function and the firing of the timer itself. *)
Definition graceExpired (key : string) (p : nat) (s : Tracker) : Tracker :=
  set_chs (Chains.graceExpired key p (chs s)) s.
Definition fire (tm : nat) (s : Tracker) : Tracker :=
  set_chs (Chains.fire tm (chs s)) s.

(** The count of a user, as a number: what the lock protects at this instant. *)
Definition occupied (s : Tracker) (key : string) : Z :=
  Held.waitingOf key (hld s) +
  Chains.in_flight (Chains.alive cfg now (Chains.view (chs s) key)).

Lemma inflightLocked_spec key s :
  let '(n, s') := inflightLocked key s in
  n = occupied s key ∧ hld s' = hld s ∧ (tracker_wf s → tracker_wf s') ∧
  ∀ k, Chains.view (chs s') k =
    if decide (key = k) then Chains.alive cfg now (Chains.view (chs s) k)
    else Chains.view (chs s) k.
Proof.
  unfold inflightLocked, occupied.
  pose proof (Chains.chainLocked_spec cfg now key (chs s)) as Hc.
  destruct (Chains.chainLocked cfg now key (chs s)) as [r c].
  destruct Hc as (Hwf & Hkey & _ & Hv). split_and!; [|done| |done].
  - pose proof (Hv key) as Hvk. rewrite decide_True in Hvk by done. rewrite <-Hvk.
    unfold Chains.view. rewrite Hkey. destruct r; simpl; lia.
  - intros [??]. split; [by apply Hwf | done].
Qed.

(** ** One operation keeps the tracker well formed *)

Lemma reserveLocked_wf key nonce b s :
  tracker_wf s → tracker_wf (reserveLocked key nonce b s).2.
Proof.
  intros [Hc Hh]. unfold reserveLocked.
  pose proof (Chains.reserveLocked_spec cfg now key nonce b (chs s) Hc) as Hr.
  destruct (Chains.reserveLocked cfg now key nonce b (chs s)). by destruct Hr.
Qed.

Lemma releaseChain_wf key chain s : tracker_wf s → tracker_wf (releaseChain key chain s).
Proof.
  intros [Hc Hh]. unfold releaseChain.
  pose proof (Chains.release_spec cfg now key chain (chs s) Hc) as Hr.
  destruct (Chains.release cfg now key chain (chs s)) as [c|]; [|done].
  destruct Hr as (_ & _ & ? & _). split; [done|]. by apply Held.notifyTurnLocked_spec.
Qed.

Lemma forgetChain_wf key s : tracker_wf s → tracker_wf (forgetChain key s).
Proof.
  intros [Hc Hh]. split; [by apply Chains.forget_spec | by apply Held.notifyTurnLocked_spec].
Qed.

Lemma cachedNonce_wf from s : tracker_wf s → tracker_wf (cachedNonce from s).2.
Proof.
  intros [Hc Hh]. unfold cachedNonce, Chains.cachedNonce.
  pose proof (Chains.chainLocked_wf cfg now (senderKey from) (chs s) Hc).
  by destruct (Chains.chainLocked _ _ _ _) as [[]].
Qed.

Lemma pendingOf_wf from s : tracker_wf s → tracker_wf (pendingOf from s).2.
Proof.
  intros [Hc Hh]. unfold pendingOf, Chains.pendingOf.
  pose proof (Chains.chainLocked_wf cfg now (senderKey from) (chs s) Hc).
  by destruct (Chains.chainLocked _ _ _ _) as [[]].
Qed.

Lemma inflightLocked_wf key s : tracker_wf s → tracker_wf (inflightLocked key s).2.
Proof.
  intros. pose proof (inflightLocked_spec key s) as Hi.
  destruct (inflightLocked key s). by apply Hi.
Qed.

(** What [cachedNonce] answers, and what [reserveLocked] makes it answer. *)
Lemma cachedNonce_spec from s :
  let '(r, s') := cachedNonce from s in
  r = (λ '(n, _, _), n) <$> Chains.alive cfg now (Chains.view (chs s) (senderKey from)) ∧
  hld s' = hld s ∧
  ∀ k, Chains.view (chs s') k =
    if decide (senderKey from = k) then Chains.alive cfg now (Chains.view (chs s) k)
    else Chains.view (chs s) k.
Proof.
  unfold cachedNonce, Chains.cachedNonce.
  pose proof (Chains.chainLocked_spec cfg now (senderKey from) (chs s)) as Hc.
  destruct (Chains.chainLocked cfg now (senderKey from) (chs s)) as [r c].
  destruct Hc as (_ & Hkey & _ & Hv). split_and!; [|done|done].
  pose proof (Hv (senderKey from)) as Hvk. rewrite decide_True in Hvk by done.
  rewrite <-Hvk. unfold Chains.view. rewrite Hkey. by destruct r.
Qed.

End Tracker.

(** ** Every critical section of the tracker

    The operations that take [sendersLock], at whatever instant they run: the
    steps of the tracker as the goroutines of the service interleave them. *)
Inductive tracker_step `{GoUnicode} (cfg : option Config) : Tracker → Tracker → Prop :=
  | step_reserve now key nonce b s :
      tracker_step cfg s (reserveLocked cfg now key nonce b s).2
  | step_release now key chain s : tracker_step cfg s (releaseChain cfg now key chain s)
  | step_forget key s : tracker_step cfg s (forgetChain key s)
  | step_cached now from s : tracker_step cfg s (cachedNonce cfg now from s).2
  | step_pending now from s : tracker_step cfg s (pendingOf cfg now from s).2
  | step_inflight now key s : tracker_step cfg s (inflightLocked cfg now key s).2
  | step_fire tm s : is_Some (Chains.timers (chs s) !! tm) → tracker_step cfg s (fire tm s)
  | step_grace key p s : tracker_step cfg s (graceExpired key p s)
  | step_hold key nonce s : tracker_step cfg s (hold key nonce s).2
  | step_unhold key p s : tracker_step cfg s (unhold key p s)
  | step_wait p s : is_Some (Held.helds (hld s) !! p) →
      tracker_step cfg s (set_hld (Held.waitTurnLocked p (hld s)).2 s)
  | step_stop p s : is_Some (Held.helds (hld s) !! p) →
      tracker_step cfg s (set_hld (Held.stopWaitingLocked p (hld s)) s)
  | step_notify key s : tracker_step cfg s (set_hld (Held.notifyTurnLocked key (hld s)) s)
  | step_evict key p n s : p ∈ Held.held_of (hld s) key →
      tracker_step cfg s (set_hld (Held.evictHeldLocked key p n (hld s)) s).

Lemma tracker_step_wf `{GoUnicode} cfg s s' :
  tracker_step cfg s s' → tracker_wf s → tracker_wf s'.
Proof.
  destruct 1; eauto using reserveLocked_wf, releaseChain_wf, forgetChain_wf, cachedNonce_wf,
    pendingOf_wf, inflightLocked_wf; intros [Hc Hh]; (split; [try exact Hc | try exact Hh]).
  - by apply Chains.fire_wf.
  - by apply Chains.graceExpired_spec.
  - by apply Held.hold_wf.
  - by apply Held.unholdLocked_wf.
  - by apply Held.waitTurnLocked_wf.
  - by apply Held.stopWaitingLocked_wf.
  - by apply Held.notifyTurnLocked_spec.
  - by apply Held.evictHeldLocked_spec.
Qed.

Lemma tracker_step_grows `{GoUnicode} cfg s s' :
  tracker_step cfg s s' → Chains.grows (chs s) (chs s').
Proof.
  destruct 1; simpl; auto using Chains.grows_refl, Chains.forget_grows, Chains.graceExpired_grows.
  - unfold reserveLocked. pose proof (Chains.reserveLocked_grows cfg now key nonce b (chs s)).
    by destruct (Chains.reserveLocked _ _ _ _ _ _).
  - unfold releaseChain. destruct (Chains.release _ _ _ _ _) eqn:Hr; simpl;
      eauto using Chains.release_grows, Chains.grows_refl.
  - unfold cachedNonce, Chains.cachedNonce.
    pose proof (Chains.chainLocked_grows cfg now (senderKey from) (chs s)).
    by destruct (Chains.chainLocked _ _ _ _) as [[]].
  - unfold pendingOf, Chains.pendingOf.
    pose proof (Chains.chainLocked_grows cfg now (senderKey from) (chs s)).
    by destruct (Chains.chainLocked _ _ _ _) as [[]].
  - unfold inflightLocked. pose proof (Chains.chainLocked_grows cfg now key (chs s)).
    by destruct (Chains.chainLocked _ _ _ _) as [[]].
  - by apply Chains.grows_same.
Qed.

Lemma empty_tracker_wf : tracker_wf empty_tracker.
Proof. split; [apply Chains.empty_wf | apply Held.held_empty_wf]. Qed.

(** (C9) However the critical sections of the tracker interleave, and at whatever
    instants, the tracker stays well formed: no two users share a chain, no
    counter is negative, a grace timer is armed only on the idle chain in force
    of its user, no metatx is registered twice or after its eviction, and the
    channel a held metatx sleeps on is its own and still open. *)
Theorem tracker_invariant `{GoUnicode} (cfg : option Config) (s : Tracker)
    (Hreach : rtc (tracker_step cfg) empty_tracker s) :
  tracker_wf s.
Proof.
  eapply rtc_preserves; eauto using tracker_step_wf, empty_tracker_wf.
Qed.

Lemma tracker_invariant_witness :
  let s := (reserveLocked None 7 "0xab" 4 true empty_tracker).2 in
  rtc (@tracker_step sample_unicode None) empty_tracker s ∧ tracker_wf s.
Proof.
  set (s := (reserveLocked None 7 "0xab" 4 true empty_tracker).2).
  assert (rtc (@tracker_step sample_unicode None) empty_tracker s) as Hr
    by (apply rtc_once; apply step_reserve).
  split; [exact Hr | exact (@tracker_invariant sample_unicode None s Hr)].
Defined.

(** A late result never touches the chain that replaced its own: once a user's
    chain is forgotten, whatever the other goroutines do next, releasing with
    the old chain changes nothing at all. *)
Theorem stale_release_noop `{GoUnicode} (cfg : option Config) (now now' : Z) (key : string)
    (nonce : Z) (b : bool) (s s' : Tracker)
    (Hwf : tracker_wf s)
    (Hlater : rtc (tracker_step cfg) (forgetChain key (reserveLocked cfg now key nonce b s).2) s') :
  releaseChain cfg now' key (Some (reserveLocked cfg now key nonce b s).1) s' = s'.
Proof.
  pose proof (Chains.reserveLocked_spec cfg now key nonce b (chs s) (proj1 Hwf)) as Hr.
  pose proof (reserveLocked_wf cfg now key nonce b s Hwf) as Hwf1. unfold reserveLocked in *.
  destruct (Chains.reserveLocked cfg now key nonce b (chs s)) as [p c]. simpl in *.
  destruct Hr as (Hwfc & Hp & _).
  assert (Chains.retired p (chs s')) as [_ Hno].
  { eapply (rtc_preserves (tracker_step cfg) (λ s, Chains.retired p (chs s)));
      [intros a b' Hab; by apply Chains.grows_retired, (tracker_step_grows cfg)| |done].
    by apply Chains.forget_retired. }
  unfold releaseChain, Chains.release. by rewrite decide_False.
Qed.

(** The user's chain is forgotten (its transaction failed), and another goroutine
    opens a new one before the old chain's release arrives. *)
Lemma stale_release_noop_witness :
  let s := (reserveLocked None 7 "0xab" 4 true empty_tracker).2 in
  let p := (reserveLocked None 7 "0xab" 4 true empty_tracker).1 in
  let s' := (reserveLocked None 8 "0xab" 6 true (forgetChain "0xab" s)).2 in
  releaseChain None 9 "0xab" (Some p) s' = s' ∧ Chains.view (chs s') "0xab" ≠ None.
Proof.
  intros s p s'. split; [|by vm_compute].
  apply (@stale_release_noop sample_unicode None 7 9 "0xab" 4 true empty_tracker s'
           empty_tracker_wf).
  apply rtc_once, (step_reserve None 8 "0xab" 6 true).
Defined.
