(* ===== verification/Handout.v ===== *)
(** The distribution of nonces, [service/handout.go]: every request for the nonce of
    a user takes a ticket, waits for the ticket before it to close, reads the
    expected nonce, and leaves its ticket open until the metatx that uses the
    number arrives or its time runs out.

    The goroutines interleave, so the component is a step relation: a step is one
    critical section of [handoutsMutex], one close of a ticket's channel, or one
    reading of the expected nonce. A ticket is a number on a heap, in order of
    arrival; a goroutine of [HandOutNonce] has the number of its own ticket. *)

From S2P Require Import Prelude GoLib Config Tracker.

Section Settings.
Context (cfg : option Config).

Definition autoNonceEnabled : bool :=
  match cfg with Some c => AutoNonce (Reorder c) | None => false end.

Definition ticketWindow : Z :=
  match cfg with
  | Some c => if 0 <? AutoNonceTicketMs (Reorder c)
              then duration (AutoNonceTicketMs (Reorder c)) millisecond
              else duration DefaultReorderAutoNonceTicketMs millisecond
  | None => duration DefaultReorderAutoNonceTicketMs millisecond
  end.
End Settings.

(** ** The state that [handoutsMutex] protects, and the closed channels *)

Module Queue.
Record t := {
  handouts : gmap string nat;
  openTickets : gmap string nat;
  closed : gset nat;
  fresh : nat;
}.

Definition empty : t := {| handouts := ∅; openTickets := ∅; closed := ∅; fresh := 0 |}.

(** Taking a place in the user's queue: the ticket before, if any, and one's own. *)
Definition enqueue (key : string) (s : t) : option nat * nat * t :=
  (handouts s !! key, fresh s,
   {| handouts := <[key := fresh s]> (handouts s); openTickets := openTickets s;
      closed := closed s; fresh := S (fresh s) |}).

(** Closing happens once: the second time changes nothing. *)
Definition close (ticket : nat) (s : t) : t :=
  {| handouts := handouts s; openTickets := openTickets s;
     closed := {[ticket]} ∪ closed s; fresh := fresh s |}.

(** The locked half of [closeTicket]. *)
Definition cleanup (key : string) (ticket : nat) (s : t) : t :=
  {| handouts := if decide (handouts s !! key = Some ticket)
                 then delete key (handouts s) else handouts s;
     openTickets := if decide (openTickets s !! key = Some ticket)
                    then delete key (openTickets s) else openTickets s;
     closed := closed s; fresh := fresh s |}.

Definition closeTicket (key : string) (ticket : nat) (s : t) : t :=
  cleanup key ticket (close ticket s).

(** This ticket is the one that waits for its metatx. *)
Definition register (key : string) (ticket : nat) (s : t) : t :=
  {| handouts := handouts s; openTickets := <[key := ticket]> (openTickets s);
     closed := closed s; fresh := fresh s |}.

Definition closeOpenTicket (key : string) (s : t) : t :=
  match openTickets s !! key with
  | None => s
  | Some ticket => closeTicket key ticket s
  end.
End Queue.
Import Queue.

(** ** The goroutines *)

(** Where a goroutine of [HandOutNonce] is. *)
Inductive stage :=
  | Waiting (previous : option nat)
  | Reading
  | Answered (nonce : Z)
  | Opened (nonce : Z)
  | Returned (nonce : Z)
  | Failed.

Record asker := { a_key : string; a_stage : stage }.

(** Who is closing a ticket, and what it does afterwards: a failed request or a
    timer does nothing; [noteSent] goes on to reserve the nonce it sent. *)
Inductive closer :=
  | Closing (key : string) (ticket : nat) (sent : option Z)
  | Cleaning (key : string) (ticket : nat) (sent : option Z)
  | Reserving (key : string) (nonce : Z).

Record sys := {
  queue : Queue.t;
  askers : gmap nat asker;
  closers : list closer;
  expired : gset nat;
}.

Definition sys0 : sys :=
  {| queue := Queue.empty; askers := ∅; closers := []; expired := ∅ |}.

Definition set_stage (i : nat) (key : string) (x : stage) (s : sys) : sys :=
  {| queue := queue s; askers := <[i := {| a_key := key; a_stage := x |}]> (askers s);
     closers := closers s; expired := expired s |}.

Definition with_queue (q : Queue.t) (s : sys) : sys :=
  {| queue := q; askers := askers s; closers := closers s; expired := expired s |}.

Definition with_closers (l : list closer) (s : sys) : sys :=
  {| queue := queue s; askers := askers s; closers := l; expired := expired s |}.

(** What a closer does once its ticket is cleaned up. *)
Definition after_cleanup (key : string) (sent : option Z) : list closer :=
  match sent with Some n => [Reserving key n] | None => [] end.

(** May the goroutine go past [<-previous.closed]? *)
Definition may_enter (s : sys) (previous : option nat) : Prop :=
  match previous with None => True | Some p => p ∈ closed (queue s) end.

Inductive queue_step : sys → sys → Prop :=
  | q_ask key s :
      let '(previous, mine, q) := enqueue key (queue s) in
      queue_step s (set_stage mine key (Waiting previous) (with_queue q s))
  | q_enter i key previous s :
      askers s !! i = Some {| a_key := key; a_stage := Waiting previous |} →
      may_enter s previous →
      queue_step s (set_stage i key Reading s)
  | q_answer i key nonce s :
      askers s !! i = Some {| a_key := key; a_stage := Reading |} →
      queue_step s (set_stage i key (Answered nonce) s)
  | q_fail i key s :
      askers s !! i = Some {| a_key := key; a_stage := Reading |} →
      queue_step s (with_closers (closers s ++ [Closing key i None]) (set_stage i key Failed s))
  | q_register i key nonce s :
      askers s !! i = Some {| a_key := key; a_stage := Answered nonce |} →
      queue_step s (set_stage i key (Opened nonce) (with_queue (register key i (queue s)) s))
  | q_return i key nonce s :
      askers s !! i = Some {| a_key := key; a_stage := Opened nonce |} →
      queue_step s (set_stage i key (Returned nonce) s)
  | q_expire i key nonce s :
      askers s !! i = Some {| a_key := key; a_stage := Returned nonce |} →
      queue_step s {| queue := queue s; askers := askers s;
                      closers := closers s ++ [Closing key i None];
                      expired := {[i]} ∪ expired s |}
  | q_sent_with_ticket key ticket nonce s :
      openTickets (queue s) !! key = Some ticket →
      queue_step s (with_closers (closers s ++ [Closing key ticket (Some nonce)]) s)
  | q_sent_without_ticket key nonce s :
      openTickets (queue s) !! key = None →
      queue_step s (with_closers (closers s ++ [Reserving key nonce]) s)
  | q_close key ticket sent l1 l2 s :
      closers s = l1 ++ Closing key ticket sent :: l2 →
      queue_step s (with_closers (l1 ++ Cleaning key ticket sent :: l2)
                      (with_queue (close ticket (queue s)) s))
  | q_cleanup key ticket sent l1 l2 s :
      closers s = l1 ++ Cleaning key ticket sent :: l2 →
      queue_step s (with_closers (l1 ++ after_cleanup key sent ++ l2)
                      (with_queue (cleanup key ticket (queue s)) s))
  | q_reserved key nonce l1 l2 s :
      closers s = l1 ++ Reserving key nonce :: l2 →
      queue_step s (with_closers (l1 ++ l2) s).

(** ** The invariant of the queue *)

Definition let_in (a : asker) : Prop :=
  match a_stage a with Waiting _ => False | _ => True end.

#[export] Instance let_in_dec a : Decision (let_in a).
Proof. unfold let_in. destruct (a_stage a); apply _. Defined.

(** A ticket of that user, let in or not. *)
Definition has (s : sys) (key : string) (i : nat) : Prop :=
  ∃ a, askers s !! i = Some a ∧ a_key a = key.
Definition entered (s : sys) (key : string) (i : nat) : Prop :=
  ∃ a, askers s !! i = Some a ∧ a_key a = key ∧ let_in a.

(** Every ticket of the user before [i] is closed. *)
Definition all_closed_before (s : sys) (key : string) (i : nat) : Prop :=
  ∀ j, (j < i)%nat → has s key j → j ∈ closed (queue s).

Definition closer_ok (s : sys) (c : closer) : Prop :=
  match c with
  | Closing key ticket _ => entered s key ticket
  | Cleaning key ticket _ => entered s key ticket ∧ ticket ∈ closed (queue s)
  | Reserving _ _ => True
  end.

Record inv (s : sys) : Prop := {
  inv_fresh : ∀ key i, has s key i → (i < fresh (queue s))%nat;
  inv_entered : ∀ key i, entered s key i → all_closed_before s key i;
  inv_waiting : ∀ key i p,
    askers s !! i = Some {| a_key := key; a_stage := Waiting (Some p) |} →
    (p < i)%nat ∧ has s key p ∧ ∀ j, (j < i)%nat → has s key j → (j ≤ p)%nat;
  inv_first : ∀ key i,
    askers s !! i = Some {| a_key := key; a_stage := Waiting None |} →
    all_closed_before s key i;
  inv_last : ∀ key p, handouts (queue s) !! key = Some p →
    has s key p ∧ ∀ j, has s key j → (j ≤ p)%nat;
  inv_nobody : ∀ key, handouts (queue s) !! key = None → ∀ j, has s key j → j ∈ closed (queue s);
  inv_closed : ∀ i, i ∈ closed (queue s) → ∃ key, entered s key i;
  inv_open : ∀ key p, openTickets (queue s) !! key = Some p → entered s key p;
  inv_closers : Forall (closer_ok s) (closers s);
}.

(** ** The invariant is kept *)

Lemma entered_has s key i : entered s key i → has s key i.
Proof. intros (a & ? & ? & ?). by exists a. Qed.

Lemma has_inj s k1 k2 i : has s k1 i → has s k2 i → k1 = k2.
Proof. intros (a & Ha & <-) (b & Hb & <-). congruence. Qed.

Lemma asker_has s i key x :
  askers s !! i = Some {| a_key := key; a_stage := x |} → has s key i.
Proof. intros. by eexists. Qed.

(** A closed ticket of the user was let in. *)
Lemma closed_entered s key i : inv s → i ∈ closed (queue s) → has s key i → entered s key i.
Proof.
  intros Hinv Hc Hh. destruct (inv_closed _ Hinv i Hc) as [k He].
  by rewrite (has_inj s key k i Hh (entered_has _ _ _ He)).
Qed.

(** The stage of one goroutine changes, to one past the wait. *)
Lemma has_stage i key x y s :
  askers s !! i = Some {| a_key := key; a_stage := y |} →
  ∀ k j, has (set_stage i key x s) k j ↔ has s k j.
Proof.
  intros Hi k j. unfold has; simpl. rewrite lookup_insert. case_decide as Hj; [subst j|done].
  rewrite Hi. split; intros (a & [= <-] & <-); by eexists.
Qed.

Lemma entered_stage i key x y s :
  askers s !! i = Some {| a_key := key; a_stage := y |} →
  let_in {| a_key := key; a_stage := x |} →
  ∀ k j, entered (set_stage i key x s) k j ↔ entered s k j ∨ (k = key ∧ j = i).
Proof.
  intros Hi Hx k j. unfold entered; simpl. rewrite lookup_insert. case_decide as Hj.
  - subst j. rewrite Hi. split.
    + intros (a & [= <-] & <- & _). auto.
    + intros [(a & [= <-] & <- & _)|[-> _]]; by eexists.
  - split; [eauto|]. intros [?|[_ ->]]; [done|]. done.
Qed.

(** Moving a goroutine on keeps the invariant, provided the tickets before its own
    are closed. *)
Lemma inv_set_stage i key x y s :
  inv s → askers s !! i = Some {| a_key := key; a_stage := y |} →
  let_in {| a_key := key; a_stage := x |} → all_closed_before s key i →
  inv (set_stage i key x s).
Proof.
  intros Hinv Hi Hx Hbefore.
  pose proof (has_stage i key x y s Hi) as Hhas.
  pose proof (entered_stage i key x y s Hi Hx) as Hent.
  assert (Hwait : ∀ k j p, askers (set_stage i key x s) !! j =
    Some {| a_key := k; a_stage := Waiting p |} →
    askers s !! j = Some {| a_key := k; a_stage := Waiting p |}).
  { intros k j p. simpl. rewrite lookup_insert. case_decide; [|done].
    intros [= <- ->]. done. }
  assert (Hbef : ∀ k j, all_closed_before s k j → all_closed_before (set_stage i key x s) k j).
  { intros k j Hb j' Hj' Hh%Hhas. by apply Hb. }
  constructor.
  - intros k j Hj%Hhas. by apply (inv_fresh _ Hinv k).
  - intros k j [He|[-> ->]]%Hent; apply Hbef; [by apply (inv_entered _ Hinv) | done].
  - intros k j p Hj. apply Hwait in Hj. apply (inv_waiting _ Hinv) in Hj as (? & ? & Hle).
    split_and!; [done|by apply Hhas|]. intros j' ? ?. apply Hle; [done|]. by apply Hhas.
  - intros k j Hj%Hwait. apply Hbef. by apply (inv_first _ Hinv).
  - intros k p Hp. apply (inv_last _ Hinv) in Hp as [? Hle].
    split; [by apply Hhas|]. intros j Hj%Hhas. auto.
  - intros k Hk j Hj%Hhas. by apply (inv_nobody _ Hinv k).
  - intros j Hj. destruct (inv_closed _ Hinv j Hj) as [k ?]. exists k. apply Hent. auto.
  - intros k p Hp. apply Hent. left. by apply (inv_open _ Hinv).
  - eapply Forall_impl; [apply (inv_closers _ Hinv)|].
    intros [k tk|k tk|]; simpl; rewrite ?Hent; naive_solver.
Qed.

(** The closers change, and nothing else. *)
Lemma inv_with_closers l s : inv s → Forall (closer_ok s) l → inv (with_closers l s).
Proof. intros [] Hl. by constructor. Qed.

Lemma closers_snoc c s : inv s → closer_ok s c → Forall (closer_ok s) (closers s ++ [c]).
Proof. intros Hinv Hc. apply Forall_app. split; [apply Hinv | by constructor]. Qed.

(** A ticket that was let in closes. *)
Lemma inv_close key ticket s :
  inv s → entered s key ticket → inv (with_queue (close ticket (queue s)) s).
Proof.
  intros Hinv He. pose proof Hinv as [Hf Hen Hw H1 Hl Hn Hc Ho Hcl].
  constructor; unfold all_closed_before in *; simpl; try done.
  - intros k i Hi j ? ?. apply elem_of_union_r. by eapply Hen.
  - intros k i Hi j ? ?. apply elem_of_union_r. by eapply H1.
  - intros k Hk j ?. apply elem_of_union_r. by eapply Hn.
  - intros i [->%elem_of_singleton|Hi]%elem_of_union; [by exists key | by apply Hc].
  - eapply Forall_impl; [done|]. intros [k tk|k tk|]; simpl; [done| |done].
    intros [? ?]. split; [done | set_solver].
Qed.

(** Taking a closed ticket out of the queue. *)
Lemma inv_cleanup key ticket s :
  inv s → entered s key ticket → ticket ∈ closed (queue s) →
  inv (with_queue (cleanup key ticket (queue s)) s).
Proof.
  intros Hinv He Hclosed. pose proof Hinv as [Hf Hen Hw H1 Hl Hn Hc Ho Hcl].
  constructor; simpl; try done.
  - intros k p. case_decide as Hk; [|apply Hl]. intros [_ Hp]%lookup_delete_Some. by apply Hl.
  - intros k. case_decide as Hk; [|apply Hn]. rewrite lookup_delete. case_decide as Hkk; [|apply Hn].
    subst k. intros _ j Hj. destruct (Hl _ _ Hk) as [_ Hle]. specialize (Hle j Hj).
    destruct (decide (j = ticket)) as [->|]; [done|].
    apply (Hen key ticket He); [lia | done].
  - intros k p. case_decide; [|apply Ho]. intros [_ Hp]%lookup_delete_Some. by apply Ho.
Qed.

Lemma has_ask key x q s k j :
  (∀ i a, askers s !! i = Some a → (i < fresh (queue s))%nat) →
  has (set_stage (fresh (queue s)) key x (with_queue q s)) k j ↔
    has s k j ∨ (k = key ∧ j = fresh (queue s)).
Proof.
  intros Hf. unfold has; simpl. rewrite lookup_insert. case_decide as Hj.
  - subst j. split; [intros (a & [= <-] & <-); by right|].
    intros [(a & Ha & _)|[-> _]]; [apply Hf in Ha; lia | by eexists].
  - split; [by left|]. intros [?|[_ ->]]; done.
Qed.

(** A new ticket goes to the end of its user's queue. *)
Lemma inv_ask key s :
  inv s →
  let '(previous, mine, q) := enqueue key (queue s) in
  inv (set_stage mine key (Waiting previous) (with_queue q s)).
Proof.
  intros Hinv. simpl. pose proof Hinv as [Hf Hen Hw H1 Hl Hn Hc Ho Hcl].
  assert (Hf' : ∀ i a, askers s !! i = Some a → (i < fresh (queue s))%nat).
  { intros i a Ha. apply (Hf (a_key a)). by exists a. }
  set (s' := set_stage _ _ _ _).
  pose proof (has_ask key (Waiting (handouts (queue s) !! key))
    {| handouts := <[key := fresh (queue s)]> (handouts (queue s));
       openTickets := openTickets (queue s); closed := closed (queue s);
       fresh := S (fresh (queue s)) |} s) as Hhas.
  assert (Hent : ∀ k j, entered s' k j ↔ entered s k j).
  { intros k j. unfold entered; simpl. rewrite lookup_insert. case_decide; [subst j|done].
    split; intros (a & Ha & Hk & Hin); [by simplify_eq|]. apply Hf' in Ha. lia. }
  assert (Hold : ∀ k j i, has s' k j → (j < i)%nat → (i ≤ fresh (queue s))%nat → has s k j).
  { intros k j i Hh ??. apply Hhas in Hh as [?|[_ ->]]; [done|lia|done]. }
  constructor; simpl.
  - intros k i Hi. apply Hhas in Hi as [Hi|[_ ->]]; [apply Hf in Hi; lia|lia|done].
  - intros k i He%Hent j Hj Hh. apply (Hen k i He j Hj). apply (Hold k j i Hh Hj).
    apply entered_has, Hf in He. lia.
  - intros k i p. rewrite lookup_insert. case_decide as Hi.
    + intros [= -> Hp]. subst i. destruct (Hl _ _ Hp) as [Hph Hle].
      pose proof (Hf _ _ Hph). split_and!; [done|apply Hhas; auto|].
      intros j Hj Hh. apply Hle. by apply (Hold k j (fresh (queue s))).
    + intros Hi'. destruct (Hw k i p Hi') as (? & ? & Hle).
      split_and!; [done|apply Hhas; auto|]. intros j Hj Hh. apply Hle; [done|].
      apply (Hold k j i Hh Hj). apply Hf' in Hi'. lia.
  - intros k i. rewrite lookup_insert. case_decide as Hi.
    + intros [= -> Hp]. subst i. intros j Hj Hh. apply (Hn k Hp).
      by apply (Hold k j (fresh (queue s))).
    + intros Hi' j Hj Hh. apply (H1 k i Hi' j Hj). apply (Hold k j i Hh Hj).
      apply Hf' in Hi'. lia.
  - intros k p. rewrite lookup_insert. case_decide as Hk.
    + intros [= <-]. subst k. split; [apply Hhas; auto|].
      intros j Hj. apply Hhas in Hj as [Hj|[_ ->]]; [apply Hf in Hj; lia|lia|done].
    + intros Hp. destruct (Hl _ _ Hp) as [? Hle]. split; [apply Hhas; auto|].
      intros j Hj. apply Hhas in Hj as [Hj|[-> _]]; [by apply Hle|done|done].
  - intros k. rewrite lookup_insert. case_decide as Hk; [done|]. intros Hp j Hj.
    apply Hhas in Hj as [Hj|[-> _]]; [by apply (Hn k)|done|done].
  - intros i Hi. destruct (Hc i Hi) as [k He]. exists k. by apply Hent.
  - intros k p Hp. apply Hent. by apply Ho.
  - eapply Forall_impl; [done|]. intros [k tk|k tk|]; simpl; rewrite ?Hent; done.
Qed.

Lemma inv_register i key nonce s :
  inv s → askers s !! i = Some {| a_key := key; a_stage := Answered nonce |} →
  inv (with_queue (register key i (queue s)) s).
Proof.
  intros [Hf Hen Hw H1 Hl Hn Hc Ho Hcl] Hi. constructor; simpl; try done.
  intros k p. rewrite lookup_insert. case_decide; [|apply Ho].
  intros [= <-]. subst k. by eexists.
Qed.

Lemma inv_enter i key previous s :
  inv s → askers s !! i = Some {| a_key := key; a_stage := Waiting previous |} →
  may_enter s previous → all_closed_before s key i.
Proof.
  intros Hinv Hi. destruct previous as [p|]; simpl; [|intros _; by apply (inv_first _ Hinv)].
  intros Hp j Hj Hh. destruct (inv_waiting _ Hinv _ _ _ Hi) as (_ & Hph & Hle).
  specialize (Hle j Hj Hh). destruct (decide (j = p)) as [->|]; [done|].
  apply (inv_entered _ Hinv key p); [by apply closed_entered|lia|done].
Qed.

Lemma closers_split s l1 c l2 :
  inv s → closers s = l1 ++ c :: l2 →
  closer_ok s c ∧ Forall (closer_ok s) l1 ∧ Forall (closer_ok s) l2.
Proof.
  intros Hinv Heq. pose proof (inv_closers _ Hinv) as Hcl. rewrite Heq in Hcl.
  apply Forall_app in Hcl as [? Hcl]. by inversion Hcl.
Qed.

Lemma closer_ok_mono s s' c :
  (∀ k j, entered s k j → entered s' k j) → closed (queue s) ⊆ closed (queue s') →
  closer_ok s c → closer_ok s' c.
Proof. intros He Hc. destruct c; simpl; [eauto|intros [??]; split; eauto|done]. Qed.

Lemma queue_step_inv s s' : queue_step s s' → inv s → inv s'.
Proof.
  destruct 1 as [key s|i key previous s Hi Hm|i key nonce s Hi|i key s Hi|i key nonce s Hi
    |i key nonce s Hi|i key nonce s Hi|key ticket nonce s Ho|key nonce s Ho
    |key ticket sent l1 l2 s Hc|key ticket sent l1 l2 s Hc|key nonce l1 l2 s Hc];
    intros Hinv.
  - by apply (inv_ask key).
  - eapply inv_set_stage; eauto using inv_enter. done.
  - eapply inv_set_stage; eauto; [done|]. eapply inv_entered; [done|]. by eexists.
  - assert (inv (set_stage i key Failed s)) as Hinv'.
    { eapply inv_set_stage; eauto; [done|]. eapply inv_entered; [done|]. by eexists. }
    apply inv_with_closers; [done|].
    apply (closers_snoc _ (set_stage i key Failed s)); [done|].
    simpl. eexists. simpl. rewrite lookup_insert_eq. by repeat split.
  - eapply inv_set_stage; [by eapply inv_register|done|done|].
    eapply (inv_entered _ Hinv). by eexists.
  - eapply inv_set_stage; eauto; [done|]. eapply inv_entered; [done|]. by eexists.
  - pose proof (inv_with_closers (closers s ++ [Closing key i None]) s Hinv) as Hw.
    destruct Hw; [|by constructor]. apply closers_snoc; [done|]. by eexists.
  - apply inv_with_closers; [done|]. apply closers_snoc; [done|]. by apply (inv_open _ Hinv).
  - apply inv_with_closers; [done|]. by apply closers_snoc.
  - destruct (closers_split _ _ _ _ Hinv Hc) as (Hok & H1 & H2).
    assert (Hmono : ∀ c, closer_ok s c → closer_ok (with_queue (close ticket (queue s)) s) c).
    { intros c. apply closer_ok_mono; [done|]. simpl. set_solver. }
    apply inv_with_closers; [by apply (inv_close key)|].
    apply Forall_app. split; [by eapply Forall_impl|]. constructor; [|by eapply Forall_impl].
    split; [done|]. simpl. set_solver.
  - destruct (closers_split _ _ _ _ Hinv Hc) as ([Hok ?] & H1 & H2).
    apply inv_with_closers; [by apply inv_cleanup|].
    rewrite !Forall_app. split_and!; [done| |done].
    unfold after_cleanup. destruct sent; by repeat constructor.
  - destruct (closers_split _ _ _ _ Hinv Hc) as (_ & H1 & H2).
    apply inv_with_closers; [done|]. by apply Forall_app.
Qed.

Lemma inv_start : inv sys0.
Proof.
  constructor; unfold has, entered, all_closed_before; simpl; try (intros *; rewrite lookup_empty);
    try naive_solver; set_solver.
Qed.

(** (C16) One number at a time, in order of arrival: however requests, sends, failures and
    expirations interleave, when a request of a user has been let past the wait,
    every ticket the same user took before it is closed; so of two numbers handed
    to one user at most one is still waiting for its metatx. *)
Theorem one_number_at_a_time (s : sys) (key : string) (i j : nat)
    (Hreach : rtc queue_step sys0 s)
    (Hi : entered s key i) (Hj : has s key j) (Hne : i ≠ j) :
  ((j < i)%nat → j ∈ closed (queue s)) ∧
  (entered s key j → i ∈ closed (queue s) ∨ j ∈ closed (queue s)).
Proof.
  assert (Hinv : inv s) by (eapply rtc_preserves; eauto using queue_step_inv, inv_start).
  split; [intros; by apply (inv_entered _ Hinv key i)|]. intros Hj'.
  destruct (Nat.lt_ge_cases j i); [right; by apply (inv_entered _ Hinv key i)|left].
  apply (inv_entered _ Hinv key j); [done|lia|by apply entered_has].
Qed.

(** ** Progress *)

(** A ticket that is closed, or that somebody is about to close. *)
Definition pending (s : sys) (key : string) (i : nat) : Prop :=
  i ∈ closed (queue s) ∨ ∃ sent, Closing key i sent ∈ closers s.

(** Nobody leaves without closing: the request that failed and the timer that ran out
    have closed their ticket, or are about to. *)
Record closing_inv (s : sys) : Prop := {
  ci_failed : ∀ key i, askers s !! i = Some {| a_key := key; a_stage := Failed |} → pending s key i;
  ci_expired : ∀ i, i ∈ expired s → ∃ key, has s key i ∧ pending s key i;
}.

Lemma has_mono s s' key i : inv s → queue_step s s' → has s key i → has s' key i.
Proof.
  intros Hinv Hstep Hh.
  destruct Hstep as [k s|j k previous s Hi Hm|j k nonce s Hi|j k s Hi|j k nonce s Hi
    |j k nonce s Hi| | | | | |]; try done.
  { simpl. apply has_ask; [|by left]. intros j a Ha. apply (inv_fresh _ Hinv (a_key a)).
    by exists a. }
  all: by apply (has_stage j k _ _ s Hi).
Qed.

Lemma pending_step s s' key i : queue_step s s' → pending s key i → pending s' key i.
Proof.
  intros Hstep [Hc|[sent Hc]].
  - left. destruct Hstep; simpl; set_solver.
  - destruct Hstep as [| | | | | | | | |k tk sn l1 l2 s Heq|k tk sn l1 l2 s Heq|k n l1 l2 s Heq];
      try (right; exists sent; simpl; set_solver);
      rewrite Heq, elem_of_app, elem_of_cons in Hc; destruct Hc as [Hc|[Hc|Hc]]; simplify_eq;
      try (right; exists sent; simpl; set_solver).
    left. simpl. set_solver.
Qed.

Lemma closing_inv_step s s' : inv s → queue_step s s' → closing_inv s → closing_inv s'.
Proof.
  intros Hinv Hstep [Hf He]. constructor.
  - intros key i Hi'.
    assert (askers s !! i = Some {| a_key := key; a_stage := Failed |} ∨ pending s' key i) as [Hi|Hp];
      [|by eapply pending_step, Hf|done].
    destruct Hstep; simpl in *; try (by left); rewrite lookup_insert in Hi'; case_decide;
      simplify_eq; try (by left). right. right. exists None. simpl. set_solver.
  - intros i Hi'.
    assert (i ∈ expired s ∨ ∃ key, askers s' !! i = askers s !! i ∧ has s key i ∧ pending s' key i)
      as [Hi|(key & Heq & Hh & Hp)].
    { destruct Hstep as [| | | | | |j k n s Hj| | | | |]; simpl in Hi'; try (by left).
      apply elem_of_union in Hi' as [->%elem_of_singleton|?]; [|by left]. right. exists k.
      split; [done|]. split; [by eexists|]. right. exists None. simpl. set_solver. }
    + destruct (He i Hi) as (key & Hh & Hp). exists key.
      split; [by eapply has_mono|by eapply pending_step].
    + exists key. split; [by eapply has_mono|done].
Qed.

Lemma closing_inv_start : closing_inv sys0.
Proof. constructor; simpl; [intros *; by rewrite lookup_empty|set_solver]. Qed.

(** A step in which only the ticket [i] moves: no other request does, no metatx arrives,
    its timer runs out once, and who is closing other tickets waits. *)
Definition by_itself (key : string) (i : nat) (s s' : sys) : Prop :=
  queue_step s s' ∧
  (∀ j, j ≠ i → askers s' !! j = askers s !! j) ∧
  (expired s' = expired s ∨ (i ∉ expired s ∧ expired s' = {[i]} ∪ expired s)) ∧
  ∀ c, c ∈ closers s' → c ∈ closers s ∨ c = Closing key i None ∨ ∃ sent, c = Cleaning key i sent.

Definition closes_within (n : nat) (key : string) (i : nat) (s : sys) : Prop :=
  ∃ m s', (m ≤ n)%nat ∧ nsteps (by_itself key i) m s s' ∧ i ∈ closed (queue s').

Lemma closes_step n key i s s' :
  by_itself key i s s' → closes_within n key i s' → closes_within (S n) key i s.
Proof.
  intros Hs (m & s'' & Hm & Hsteps & Hc). exists (S m), s''. split_and!; [lia| |done].
  by eapply nsteps_l.
Qed.

Lemma closes_mono n n' key i s :
  (n ≤ n')%nat → closes_within n key i s → closes_within n' key i s.
Proof. intros Hn (m & s' & ? & ? & ?). exists m, s'. split_and!; [lia|done|done]. Qed.

Lemma pending_closes key i s : pending s key i → closes_within 1 key i s.
Proof.
  intros [Hc|[sent Hc]].
  - exists 0%nat, s. split_and!; [lia|apply nsteps_O|done].
  - apply list_elem_of_split in Hc as (l1 & l2 & Heq).
    eexists 1%nat, _. split; [done|]. split.
    + apply nsteps_once. split; [by eapply q_close|]. simpl. split_and!; [done|by left|].
      rewrite Heq. set_solver.
    + simpl. set_solver.
Qed.

(** A request that moves on. *)
Lemma moves_by_itself key i x y q s :
  askers s !! i = Some {| a_key := key; a_stage := x |} →
  queue_step s (set_stage i key y (with_queue q s)) →
  by_itself key i s (set_stage i key y (with_queue q s)).
Proof.
  intros Hi Hs. split_and!; [done| |by left|]; simpl; [|by left].
  intros j Hj. by rewrite lookup_insert_ne.
Qed.

Lemma returned_closes key i nonce s :
  askers s !! i = Some {| a_key := key; a_stage := Returned nonce |} → i ∉ expired s →
  closes_within 2 key i s.
Proof.
  intros Hi He. eapply closes_step; [|apply pending_closes].
  - split; [by eapply q_expire|]. simpl. split_and!; [done|by right|set_solver].
  - right. exists None. simpl. set_solver.
Qed.

Lemma opened_closes key i nonce s :
  askers s !! i = Some {| a_key := key; a_stage := Opened nonce |} → i ∉ expired s →
  closes_within 3 key i s.
Proof.
  intros Hi He. eapply closes_step.
  - apply (moves_by_itself key i (Opened nonce) (Returned nonce) (queue s)); [done|].
    exact (q_return i key nonce s Hi).
  - eapply returned_closes; [simpl; apply lookup_insert_eq|done].
Qed.

Lemma answered_closes key i nonce s :
  askers s !! i = Some {| a_key := key; a_stage := Answered nonce |} → i ∉ expired s →
  closes_within 4 key i s.
Proof.
  intros Hi He. eapply closes_step.
  - eapply moves_by_itself; [done|]. by eapply q_register.
  - eapply opened_closes; [simpl; apply lookup_insert_eq|done].
Qed.

Lemma reading_closes key i s :
  askers s !! i = Some {| a_key := key; a_stage := Reading |} → i ∉ expired s →
  closes_within 5 key i s.
Proof.
  intros Hi He. eapply closes_step.
  - apply (moves_by_itself key i Reading (Answered 0) (queue s)); [done|].
    exact (q_answer i key 0 s Hi).
  - eapply answered_closes; [simpl; apply lookup_insert_eq|done].
Qed.

Lemma oldest_closes key i s :
  inv s → closing_inv s → has s key i → all_closed_before s key i → closes_within 6 key i s.
Proof.
  intros Hinv Hci ([k x] & Hi & Hk) Hold. simpl in Hk. subst k.
  destruct (decide (i ∈ expired s)) as [He|He].
  { destruct (ci_expired _ Hci i He) as (k & Hh & Hp).
    rewrite (has_inj s k key i Hh) in Hp by (by eexists).
    eapply closes_mono, pending_closes; [lia|done]. }
  destruct x as [previous| | | | |].
  - eapply closes_step.
    + apply (moves_by_itself key i (Waiting previous) Reading (queue s)); [done|].
      refine (q_enter i key previous s Hi _).
      destruct previous as [p|]; [|done]. destruct (inv_waiting _ Hinv _ _ _ Hi) as (? & ? & _).
      by apply Hold.
    + apply reading_closes; [simpl; apply lookup_insert_eq|done].
  - eapply closes_mono, reading_closes; [lia|done..].
  - eapply closes_mono, answered_closes; [lia|done..].
  - eapply closes_mono, opened_closes; [lia|done..].
  - eapply closes_mono, returned_closes; [lia|done..].
  - eapply closes_mono, pending_closes; [lia|]. by apply (ci_failed _ Hci).
Qed.

(** What a run of a ticket by itself keeps. *)
Lemma by_itself_keeps key i s s' :
  by_itself key i s s' → inv s → closing_inv s → has s key i →
  inv s' ∧ closing_inv s' ∧ (∀ k j, has s' k j ↔ has s k j) ∧ closed (queue s) ⊆ closed (queue s').
Proof.
  intros (Hs & Hask & _) Hinv Hci Hi. split_and!.
  - by eapply queue_step_inv.
  - by eapply closing_inv_step.
  - intros k j. split; [|by eapply has_mono]. intros Hj. destruct (decide (j = i)) as [->|Hne].
    + by rewrite (has_inj s' k key i Hj (has_mono _ _ _ _ Hinv Hs Hi)).
    + destruct Hj as (a & Ha & ?). rewrite Hask in Ha by done. by exists a.
  - destruct Hs; simpl; set_solver.
Qed.

Lemma alone_keeps key i n s s' :
  nsteps (by_itself key i) n s s' → inv s → closing_inv s → has s key i →
  inv s' ∧ closing_inv s' ∧ (∀ k j, has s' k j ↔ has s k j) ∧ closed (queue s) ⊆ closed (queue s').
Proof.
  induction 1 as [s|n s s1 s' Hs Hrun IH]; intros Hinv Hci Hi; [by split_and!|].
  destruct (by_itself_keeps _ _ _ _ Hs Hinv Hci Hi) as (Hinv1 & Hci1 & Hh1 & Hc1).
  destruct IH as (? & ? & Hh & ?); [done|done|by apply Hh1|].
  split_and!; [done|done| |set_solver]. intros k j. by rewrite Hh, Hh1.
Qed.

(** The tickets of a user close one after another, each by itself. *)
Definition one_of (key : string) (i : nat) (s s' : sys) : Prop :=
  ∃ j, (j ≤ i)%nat ∧ has s key j ∧ by_itself key j s s'.

Lemma nsteps_one_of key i j n s s' :
  (j ≤ i)%nat → nsteps (by_itself key j) n s s' → inv s → closing_inv s → has s key j →
  rtc (one_of key i) s s'.
Proof.
  intros Hj. induction 1 as [s|n s s1 s' Hs Hrun IH]; intros Hinv Hci Hh; [done|].
  destruct (by_itself_keeps _ _ _ _ Hs Hinv Hci Hh) as (Hinv1 & Hci1 & Hh1 & _).
  eapply rtc_l; [exists j; by split_and!|]. apply IH; [done|done|by apply Hh1].
Qed.

Lemma line_closes key i k s :
  inv s → closing_inv s → (k ≤ S i)%nat →
  ∃ s', rtc (one_of key i) s s' ∧ inv s' ∧ closing_inv s' ∧
    (∀ k' j, has s' k' j ↔ has s k' j) ∧ all_closed_before s' key k.
Proof.
  intros Hinv Hci. induction k as [|k IH]; intros Hk.
  { exists s. split_and!; try done. intros j Hj. lia. }
  destruct IH as (s1 & Hrun & Hinv1 & Hci1 & Hh1 & Hold); [lia|].
  assert (Hnext : k ∈ closed (queue s1) ∨ ¬ has s1 key k ∨ (has s1 key k ∧ k ∉ closed (queue s1))).
  { destruct (decide (k ∈ closed (queue s1))); [by left|].
    destruct (askers s1 !! k) as [a|] eqn:Ha; [destruct (decide (a_key a = key))|].
    - right; right. split; [by exists a|done].
    - right; left. intros (a' & ? & ?). congruence.
    - right; left. intros (a' & ? & ?). congruence. }
  destruct Hnext as [Hc|[Hno|[Hh Hopen]]].
  - exists s1. split_and!; try done. intros j Hj Hj'.
    destruct (decide (j = k)) as [->|]; [done|]. apply Hold; [lia|done].
  - exists s1. split_and!; try done. intros j Hj Hj'.
    destruct (decide (j = k)) as [->|]; [done|]. apply Hold; [lia|done].
  - destruct (oldest_closes key k s1 Hinv1 Hci1 Hh Hold) as (n & s2 & _ & Hsteps & Hc2).
    destruct (alone_keeps _ _ _ _ _ Hsteps Hinv1 Hci1 Hh) as (Hinv2 & Hci2 & Hh2 & Hsub).
    exists s2. split_and!; [|done|done|intros k' j; by rewrite Hh2, Hh1|].
    + etrans; [exact Hrun|]. eapply (nsteps_one_of key i k); eauto with lia.
    + intros j Hj Hj'. destruct (decide (j = k)) as [->|]; [done|].
      apply Hsub, Hold; [lia|by apply Hh2].
Qed.

(** (C17) The queue never stalls, in whatever state the requests, sends, failures and timers
    have left it, and although no metatx ever arrives: the oldest ticket of a user that
    is not closed closes in at most six steps of its own -- it is let in, reads,
    registers, answers, its timer runs out, it closes; a request that failed closes
    without waiting for the timer -- in which no other request moves. So every ticket of
    the user closes in turn, none but those up to it moving, and whoever waits behind it
    is let in. *)
Theorem queue_never_stalls (s : sys) (key : string) (i : nat)
    (Hreach : rtc queue_step sys0 s) (Hi : has s key i) :
  ((∀ j, (j < i)%nat → has s key j → j ∈ closed (queue s)) →
     ∃ n s', (n ≤ 6)%nat ∧ nsteps (by_itself key i) n s s' ∧ i ∈ closed (queue s')) ∧
  ∃ s', rtc (one_of key i) s s' ∧ i ∈ closed (queue s').
Proof.
  assert (inv s ∧ closing_inv s) as [Hinv Hci].
  { apply (rtc_preserves queue_step (λ s, inv s ∧ closing_inv s) sys0); [| |done].
    - intros a a' Hs [? ?]. split; [by eapply queue_step_inv|by eapply closing_inv_step].
    - split; [apply inv_start|apply closing_inv_start]. }
  split; [intros Hold; by apply oldest_closes|].
  destruct (line_closes key i (S i) s Hinv Hci) as (s' & Hrun & _ & _ & Hh & Hall); [done|].
  exists s'. split; [done|]. apply Hall; [lia|by apply Hh].
Qed.

(** A run of one user: a first request is let in, a second waits behind it. *)
Definition two_requests : sys :=
  let s1 := set_stage 0 "u" (Waiting None) (with_queue (enqueue "u" Queue.empty).2 sys0) in
  let s2 := set_stage 0 "u" Reading s1 in
  set_stage 1 "u" (Waiting (Some 0%nat)) (with_queue (enqueue "u" (queue s2)).2 s2).

Lemma two_requests_reachable : rtc queue_step sys0 two_requests.
Proof.
  eapply rtc_l; [exact (q_ask "u" sys0)|].
  eapply rtc_l; [apply (q_enter 0 "u" None); [reflexivity | exact I]|].
  apply rtc_once. exact (q_ask "u" (set_stage 0 "u" Reading
    (set_stage 0 "u" (Waiting None) (with_queue (enqueue "u" Queue.empty).2 sys0)))).
Qed.

Lemma one_number_at_a_time_witness :
  ((1 < 0)%nat → 1%nat ∈ closed (queue two_requests)) ∧
  (entered two_requests "u" 1 →
     0%nat ∈ closed (queue two_requests) ∨ 1%nat ∈ closed (queue two_requests)).
Proof.
  apply (one_number_at_a_time two_requests "u" 0 1 two_requests_reachable).
  - exists {| a_key := "u"; a_stage := Reading |}. repeat split.
  - exists {| a_key := "u"; a_stage := Waiting (Some 0%nat) |}. split; reflexivity.
  - discriminate.
Defined.

Lemma queue_never_stalls_witness :
  (∃ n s', (n ≤ 6)%nat ∧ nsteps (by_itself "u" 0) n two_requests s' ∧ 0%nat ∈ closed (queue s')) ∧
  ∃ s', rtc (one_of "u" 1) two_requests s' ∧ 1%nat ∈ closed (queue s').
Proof.
  split.
  - apply (queue_never_stalls two_requests "u" 0 two_requests_reachable).
    + exists {| a_key := "u"; a_stage := Reading |}. split; reflexivity.
    + intros j Hj. lia.
  - apply (queue_never_stalls two_requests "u" 1 two_requests_reachable).
    exists {| a_key := "u"; a_stage := Waiting (Some 0%nat) |}. split; reflexivity.
Defined.
