(* ===== verification/MetaTx.v ===== *)
(** From a raw transaction to a metatx ready to be sent: [service/metatx.go] (the
    gas-model suffix), [service/validation.go] (its validation), [GetTransaction] of
    [service/transaction.go], and [PrepareMetaTx] of [service/prepare.go], the path
    the two doors share. *)

From S2P Require Import Prelude GoLib Config Errors Events AuditLog Client Permissioning.

(** ** Identifying the signed transaction *)

Section Raw.
Context `{Geth}.

Definition RawTxHash (rawTx : string) : string :=
  match hex_decode (trim_prefix "0x" rawTx) with
  | (_, Some _) => ""
  | (raw, None) => "0x" +:+ hex_encode (keccak256 raw)
  end.

Definition RawTxBytes (rawTx : string) : Z :=
  Z.of_nat (String.length (trim_prefix "0x" rawTx)) / 2.
End Raw.

Definition trimHexPrefix (s : string) : string :=
  match s with
  | String a (String b rest) =>
      if decide (a = "0"%char ∧ (b = "x"%char ∨ b = "X"%char)) then rest else s
  | _ => s
  end.

(** ** The suffix of the gas model *)

Definition gasModelSuffixBytes : nat := 64.

Record GasModelFields := {
  Decoded : bool;
  NodeAddress_ : string;
  Expiration : option Z;
  InnerData : bytes;
  Selector : string;
}.

Definition no_suffix : GasModelFields :=
  {| Decoded := false; NodeAddress_ := ""; Expiration := None; InnerData := []; Selector := "" |}.

(** [bs[i:j]]. *)
Definition slice (i j : nat) (bs : bytes) : bytes := take (j - i) (drop i bs).

Section Suffix.
Context `{Geth}.

Definition DecodeGasModelSuffix (data : bytes) : GasModelFields :=
  if (length data <? gasModelSuffixBytes)%nat then no_suffix
  else
    let cut := (length data - gasModelSuffixBytes)%nat in
    let suffix := drop cut data in
    let inner := take cut data in
    {| Decoded := true;
       NodeAddress_ := address_Hex (BytesToAddress (slice 12 32 suffix));
       Expiration := Some (be_value (slice 32 64 suffix));
       InnerData := inner;
       Selector := if (4 <=? length inner)%nat then "0x" +:+ hex_encode (take 4 inner) else "" |}.

(** The expiration as unix seconds, when a [uint64] holds it. *)
Definition ExpirationSeconds (fields : GasModelFields) : option Z :=
  if Decoded fields then
    match Expiration fields with
    | Some e => if (0 <=? e) && (e <? 2 ^ 64) then Some e else None
    | None => None
    end
  else None.
End Suffix.

(** ** Its validation *)

(** [decimal] of [service/reorder.go]: a [uint64] in base ten. *)
Definition decimal (value : Z) : string := dec_string (u64 value).

(** The negation of the least [int64] is itself. *)
Definition decimalInt (value : Z) : string :=
  if value <? 0 then "-" +:+ decimal (i64 (- value)) else decimal value.

Definition zero_validation : ValidationConfig :=
  {| EnforceNodeAddress := false; EnforceExpiration := false; MinExpirationSeconds := 0;
     ExpirationToleranceSeconds := 0 |}.

Section Validation.
Context `{Geth} `{EthLib} `{PkgErrors} (cfg : option Config).

Definition validationConfig : ValidationConfig :=
  match cfg with None => zero_validation | Some c => Validation c end.

Definition checkNodeAddress (c : Config) (fields : GasModelFields) : option error :=
  match NodeAddress c with
  | Err e => Some (Reject e CodeRelayError)
  | Ok mine =>
      let target := HexToAddress (NodeAddress_ fields) in
      if decide (target = mine) then None
      else Some (RejectWithDetails
        (Errors.New ("The metatx targets node " +:+ address_Hex target
                     +:+ " but this relayer is " +:+ address_Hex mine) (-32000))
        CodeWrongNodeAddress
        (<["nodeAddress" := VStr (address_Hex target)]>
         (<["relayerNodeAddress" := VStr (address_Hex mine)]> ∅)))
  end.

(** [now] is one reading of the clock, in unix seconds, for both comparisons. *)
Definition checkExpiration (fields : GasModelFields) (now : Z) (validation : ValidationConfig) :
    option error :=
  match ExpirationSeconds fields with
  | None => None
  | Some expiration =>
      if i64 expiration <=? now then
        Some (RejectWithDetails
          (Errors.New ("The metatx has expired (expiration=" +:+ decimalInt (i64 expiration)
                       +:+ ", now=" +:+ decimalInt now +:+ ")") (-32000))
          CodeExpired
          (<["expiration" := VInt expiration]> (<["now" := VInt now]> ∅)))
      else
        let remaining := i64 (i64 expiration - now) in
        let floor := ExpirationFloor validation in
        if floor <=? remaining then None
        else
          Some (RejectWithDetails
            (Errors.New ("expiration too low: the metatx expires in " +:+ decimalInt remaining
               +:+ " s and the minimum is " +:+ decimalInt (MinExpirationSeconds validation)
               +:+ " s (" +:+ decimalInt (ExpirationToleranceSeconds validation)
               +:+ " s tolerance for latency; expiration=" +:+ decimalInt (i64 expiration)
               +:+ ", now=" +:+ decimalInt now +:+ ")") (-32000))
            CodeExpirationTooLow
            (<["expiration" := VInt expiration]>
             (<["remainingSeconds" := VInt remaining]>
              (<["minimumSeconds" := VInt (MinExpirationSeconds validation)]>
               (<["toleranceSeconds" := VInt (ExpirationToleranceSeconds validation)]> ∅)))))
  end.

(** Without a configuration the block in force is the zero one, which enforces nothing:
    the first test returns, and no address is asked for. *)
Definition validateGasModelSuffix (ctx : context) (now : Z) (data : bytes) :
    option error * list emission :=
  match cfg with
  | None => (None, [])
  | Some c =>
      let validation := validationConfig in
      if negb (EnforceNodeAddress validation) && negb (EnforceExpiration validation) then (None, [])
      else
        let fields := DecodeGasModelSuffix data in
        if negb (Decoded fields) then
          (None, [Debug ctx "relay.suffix_absent"
                    (<["dataBytes" := VInt (Z.of_nat (length data))]> ∅)])
        else
          match (if EnforceNodeAddress validation then checkNodeAddress c fields else None) with
          | Some e => (Some e, [])
          | None =>
              if EnforceExpiration validation then (checkExpiration fields now validation, [])
              else (None, [])
          end
  end.
End Validation.

(** ** Preparing a metatx *)

Record PreparedMetaTx := {
  Tx : Transaction;
  From : address;
  To : option address;
  SigningData : bytes;
  sig_V : Z;
  sig_R : bytes;
  sig_S : bytes;
  Nonce : Z;
  MetaTxGasLimit : Z;
  IsDeploy : bool;
  SenderKey : string;
}.

(** [copy(word[:], bs)] on a word of 32 zeros. *)
Definition copy_word (bs : bytes) : bytes := take 32 bs ++ replicate (32 - length bs) 0.

(** [hex.DecodeString(fmt.Sprintf("%064x", n))], its error dropped, in a word. *)
Definition signature_word (n : Z) : bytes := copy_word (hex_decode (format_0x 64 n)).1.

Section Prepare.
Context `{Geth} `{EthLib} `{PkgErrors} `{GoFmt} (c : Config).

(** The RLP error is dropped, and what could be decoded goes on. *)
Definition GetTransaction (rawTx : string) : result error Transaction :=
  match hex_decode rawTx with
  | (_, Some e) =>
      Err (type_Wrapf MalformedRawTransaction
        (ForeignError {| f_text := match e with
           | InvalidByte _ => "encoding/hex: invalid byte"
           | OddLength => "encoding/hex: odd length hex string" end;
           f_code := None; f_data := None |})
        "Error Decoding Raw Transaction" (-32012) [])
  | (raw, None) => Ok (rlp_DecodeTransaction raw).1
  end.

Definition metaTxGasLimit (tx : Transaction) : Z :=
  u64 (Z.of_nat (length (tx_Data tx)) * 105 + 300000 + tx_Gas tx).

Definition DecodedFields (tx : Transaction) (from : address) (gasLimit now : Z) : fields :=
  let gasModel := DecodeGasModelSuffix (tx_Data tx) in
  let expiration := ExpirationSeconds gasModel in
  <["from" := VStr (address_Hex from)]>
  (<["to" := v_opt (λ a, VStr (address_Hex a)) (tx_To tx)]>
  (<["isDeploy" := VBool (bool_decide (tx_To tx = None))]>
  (<["nonce" := VInt (tx_Nonce tx)]>
  (<["userGasLimit" := VInt (tx_Gas tx)]>
  (<["metaTxGasLimit" := VInt gasLimit]>
  (<["dataBytes" := VInt (Z.of_nat (length (tx_Data tx)))]>
  (<["nodeAddress" := if Decoded gasModel then VStr (NodeAddress_ gasModel) else VNil]>
  (<["expiration" := v_opt VInt expiration]>
  (<["expiresInSeconds" := v_opt (λ e, VInt (i64 (i64 e - now))) expiration]>
  (<["selector" := if decide (Selector gasModel = "") then VNil
                   else VStr (Selector gasModel)]> ∅)))))))))).

Definition received_fields (rawTx : string) (logRaw : bool) : fields :=
  let base := <["rawTxHash" := if decide (RawTxHash rawTx = "") then VNil
                               else VStr (RawTxHash rawTx)]>
              (<["rawTxBytes" := VInt (RawTxBytes rawTx)]> (∅ : fields)) in
  if logRaw then <["rawTx" := VStr rawTx]> base else base.

Definition signing_data_of (tx : Transaction) : txdata :=
  match tx_To tx with
  | Some to => NewTransaction (tx_Nonce tx) to (Some (tx_Value tx)) (tx_Gas tx)
                 (Some (tx_GasPrice tx)) (tx_Data tx)
  | None => NewContractCreation (tx_Nonce tx) (Some (tx_Value tx)) (tx_Gas tx)
              (Some (tx_GasPrice tx)) (tx_Data tx)
  end.

(** The clock and the node as this request reads them. *)
Record reading := {
  rd_node : Node;
  rd_seconds : Z;
  rd_now : Z;
  rd_later : Z;
}.

(** What remains once the signature has been looked at: the suffix, the
    permission, and the data the hub is given. *)
Definition prepare_checked (rd : reading) (ctx : context) (tx : Transaction)
    (v r s : Z) (from : address) (st : Rules) :
    result error PreparedMetaTx * Rules * list emission :=
  match validateGasModelSuffix (Some c) ctx (rd_seconds rd) (tx_Data tx) with
  | (Some e, log) => (Err e, st, log)
  | (None, log) =>
      let '(permitted, st) :=
        if PermissionsEnabled (Security c)
        then VerifySender (Some c) (rd_node rd) (rd_now rd) (rd_later rd) from st
        else (Ok true, st) in
      match permitted with
      | Err e => (Err (Reject e CodePermissioningUnavailable), st, log)
      | Ok false =>
          (Err (Reject (Errors.New "account sender is not permitted to send transactions" (-32000))
                  CodeSenderNotPermitted), st, log)
      | Ok true =>
          match rlp_EncodeToBytes (signing_data_of tx) with
          | Err _ => (Err (Reject (Errors.New "internal error" (-32603)) CodeRelayError), st, log)
          | Ok signingDataRLP =>
              (Ok {| Tx := tx; From := from; To := tx_To tx; SigningData := signingDataRLP;
                     sig_V := u8 v; sig_R := signature_word r; sig_S := signature_word s;
                     Nonce := tx_Nonce tx; MetaTxGasLimit := metaTxGasLimit tx;
                     IsDeploy := bool_decide (tx_To tx = None);
                     SenderKey := address_Hex from |}, st, log)
          end
      end
  end.

Definition PrepareMetaTx (rd : reading) (ctx : context) (logRaw : bool) (rawTx : string)
    (st : Rules) : result error PreparedMetaTx * Rules * list emission :=
  let received := Info ctx "relay.received" (received_fields rawTx logRaw) in
  match GetTransaction (trimHexPrefix rawTx) with
  | Err e => (Err (Reject e CodeBadRawTx), st, [received])
  | Ok tx =>
      match tx_V tx, tx_R tx, tx_S tx with
      | Some v, Some r, Some s =>
          if decide (u64 v ≠ 27 ∧ u64 v ≠ 28) then
            (Err (Reject (Errors.New
               "transaction must be signed pre-EIP155 (chainId=0, v=27 or 28)" (-32000))
               CodeBadMetaTx), st, [received])
          else
            match AsMessage tx (tx_ChainId tx) with
            | Err e => (Err (Reject e CodeBadMetaTx), st, [received])
            | Ok from =>
                let decoded := Info ctx "relay.decoded"
                  (DecodedFields tx from (metaTxGasLimit tx) (rd_seconds rd)) in
                let '(out, st, log) := prepare_checked rd ctx tx v r s from st in
                (out, st, received :: decoded :: log)
            end
      | _, _, _ =>
          (Err (Reject (Errors.New "bad signature ECDSA" (-32000)) CodeBadMetaTx), st, [received])
      end
  end.
End Prepare.

(** ** Lemmas *)

Lemma take_app_exact {A} (l k : list A) n : n = length l → take n (l ++ k) = l.
Proof. intros ->. apply take_app_length. Qed.

Lemma drop_app_exact {A} (l k : list A) n : n = length l → drop n (l ++ k) = k.
Proof. intros ->. apply drop_app_length. Qed.

Lemma slice_app {A : Type} (l m k : list Z) i j :
  i = length l → j = (length l + length m)%nat → slice i j (l ++ m ++ k) = m.
Proof.
  intros -> ->. unfold slice. rewrite drop_app_length.
  replace (length l + length m - length l)%nat with (length m) by lia. apply take_app_length.
Qed.

Lemma bytes_to_address_id `{GethLaws} a : length a = 20%nat → BytesToAddress a = a.
Proof. intros Ha. by rewrite bytes_to_address_spec, Ha. Qed.

(** The suffix as the gas model appends it: the ABI encoding of the node's address
    and of the expiration. *)
Definition encode_suffix (node : address) (expiration : Z) : bytes :=
  replicate 12 0 ++ node ++ be_bytes 32 expiration.

Lemma encode_suffix_length node e : length node = 20%nat → length (encode_suffix node e) = 64%nat.
Proof.
  intros Hn. unfold encode_suffix. rewrite !length_app, length_replicate, length_be_bytes. lia.
Qed.

(** What the gas model appends is what the service reads: for any data, any node
    and any 256-bit expiration, decoding the data with its suffix gives back the
    node, the expiration, the data before it and its selector when it has one. *)
Theorem suffix_roundtrip `{GethLaws} (inner : bytes) (node : address) (expiration : Z)
    (Hnode : length node = 20%nat) (Hexp : 0 ≤ expiration < 2 ^ 256) :
  DecodeGasModelSuffix (inner ++ encode_suffix node expiration) =
    {| Decoded := true;
       NodeAddress_ := address_Hex node;
       Expiration := Some expiration;
       InnerData := inner;
       Selector := if (4 <=? length inner)%nat then "0x" +:+ hex_encode (take 4 inner) else "" |}.
Proof.
  unfold DecodeGasModelSuffix.
  rewrite length_app, encode_suffix_length by done.
  assert ((length inner + 64 <? gasModelSuffixBytes)%nat = false) as ->.
  { apply Nat.ltb_ge. unfold gasModelSuffixBytes. lia. }
  replace (length inner + 64 - gasModelSuffixBytes)%nat with (length inner)
    by (unfold gasModelSuffixBytes; lia).
  rewrite drop_app_length, take_app_length. unfold encode_suffix.
  rewrite (slice_app (A := Z)) by (rewrite ?length_replicate; lia).
  rewrite bytes_to_address_id by done.
  assert (slice 32 64 (replicate 12 0 ++ node ++ be_bytes 32 expiration)
          = be_bytes 32 expiration) as ->.
  { rewrite app_assoc. unfold slice.
    rewrite drop_app_exact by (rewrite length_app, length_replicate; lia).
    apply take_ge. rewrite length_be_bytes. lia. }
  by rewrite be_value_be_bytes.
Qed.

Lemma suffix_roundtrip_witness :
  @DecodeGasModelSuffix sample_geth ([1; 2; 3; 4] ++ encode_suffix (replicate 20 7) 1700000000)
  = {| Decoded := true; NodeAddress_ := "0x" +:+ hex_encode (replicate 20 7);
       Expiration := Some 1700000000; InnerData := [1; 2; 3; 4]; Selector := "0x01020304" |}.
Proof.
  apply (@suffix_roundtrip sample_geth sample_geth_laws [1; 2; 3; 4] (replicate 20 7) 1700000000);
    [reflexivity | lia].
Defined.

Lemma decode_decoded `{Geth} data :
  Decoded (DecodeGasModelSuffix data) = (gasModelSuffixBytes <=? length data)%nat.
Proof.
  unfold DecodeGasModelSuffix.
  destruct (Nat.ltb_spec (length data) gasModelSuffixBytes) as [Hlt|Hge]; symmetry.
  - by apply Nat.leb_gt.
  - by apply Nat.leb_le.
Qed.

(** The words of the signature handed to the hub are the signature's numbers: for
    any value a 256-bit word can hold, the word has exactly 32 bytes and reads,
    big-endian, as that value, leading zeros included. *)
Theorem signature_word_exact (n : Z) (Hn : 0 ≤ n < 2 ^ 256) :
  length (signature_word n) = 32%nat ∧ be_value (signature_word n) = n ∧
  bytes_ok (signature_word n).
Proof.
  unfold signature_word. rewrite (format_0x_bytes 32) by (try lia; done).
  rewrite hex_decode_encode by apply be_bytes_ok. unfold copy_word. cbn [fst].
  rewrite length_be_bytes, take_ge, Nat.sub_diag by (rewrite length_be_bytes; lia).
  change (replicate 0 0) with (@nil Z). rewrite app_nil_r.
  split_and!; [apply length_be_bytes | by apply be_value_be_bytes | apply be_bytes_ok].
Qed.

Lemma signature_word_exact_witness :
  be_value (signature_word 255) = 255 ∧ signature_word 255 = replicate 31 0 ++ [255].
Proof.
  split; [apply (signature_word_exact 255); lia | reflexivity].
Defined.

(** ** The verdict on a suffix *)

(** The rule the configuration states, on the numbers of the suffix: whether the node is
    this one -- of which there is nothing to say when this service does not know its own
    address -- and whether the time left is enough. [None] accepts. *)
Definition node_verdict (val : ValidationConfig) (own : result error address) (target : address) :
    option string :=
  if EnforceNodeAddress val then
    match own with
    | Err _ => Some CodeRelayError
    | Ok mine => if decide (target = mine) then None else Some CodeWrongNodeAddress
    end
  else None.

(** An expiration that no [uint64] holds is not compared with any moment. *)
Definition window_verdict (val : ValidationConfig) (expiration now : Z) : option string :=
  if negb (EnforceExpiration val) then None
  else if 2 ^ 64 <=? expiration then None
  else if expiration <=? now then Some CodeExpired
  else if expiration - now <? ExpirationFloor val then Some CodeExpirationTooLow
  else None.

Definition suffix_rule (val : ValidationConfig) (own : result error address) (target : address)
    (expiration now : Z) : option string :=
  match node_verdict val own target with
  | Some code => Some code
  | None => window_verdict val expiration now
  end.

(** The two fields of the suffix, which is the last 64 bytes of the data: the node in the
    last 20 of the first word, the expiration in the second. *)
Definition suffix_of (data : bytes) : bytes := drop (length data - gasModelSuffixBytes) data.
Definition suffix_node (data : bytes) : address := slice 12 32 (suffix_of data).
Definition suffix_expiration (data : bytes) : Z := be_value (slice 32 64 (suffix_of data)).

(** What is in the upper half of the 64-bit range: a moment for a [uint64], a negative
    number for the [int64] it is compared as. *)
Definition beyond_int64 (expiration : Z) : bool := (2 ^ 63 <=? expiration) && (expiration <? 2 ^ 64).

Lemma slice_ok i j bs : bytes_ok bs → bytes_ok (slice i j bs).
Proof. intros H. unfold slice. by apply Forall_take, Forall_drop. Qed.

Lemma length_slice i j bs : (j ≤ length bs)%nat → length (slice i j bs) = (j - i)%nat.
Proof. intros. unfold slice. rewrite length_take, length_drop. lia. Qed.

Lemma decode_of `{GethLaws} data :
  (gasModelSuffixBytes ≤ length data)%nat →
  NodeAddress_ (DecodeGasModelSuffix data) = address_Hex (suffix_node data) ∧
  Expiration (DecodeGasModelSuffix data) = Some (suffix_expiration data).
Proof.
  intros Hlen. unfold DecodeGasModelSuffix.
  destruct (Nat.ltb_spec (length data) gasModelSuffixBytes); [lia|]. simpl. split; [|done].
  f_equal. apply bytes_to_address_id. unfold suffix_node. rewrite length_slice; [done|].
  unfold suffix_of. rewrite length_drop. unfold gasModelSuffixBytes in *. lia.
Qed.

Lemma checkExpiration_code `{Geth} `{PkgErrors} fields e now val :
  Decoded fields = true → Expiration fields = Some e → 0 ≤ e → 0 ≤ now < 2 ^ 63 →
  CodeOf <$> checkExpiration fields now val =
    if 2 ^ 64 <=? e then None
    else if (e <=? now) || (2 ^ 63 <=? e) then Some CodeExpired
    else if e - now <? ExpirationFloor val then Some CodeExpirationTooLow
    else None.
Proof.
  intros Hd He Hpos Hnow. unfold checkExpiration, ExpirationSeconds. rewrite Hd, He.
  replace (0 <=? e) with true by lia. simpl.
  destruct (Z.leb_spec (2 ^ 64) e); [by replace (e <? 2 ^ 64) with false by lia|].
  replace (e <? 2 ^ 64) with true by lia.
  destruct (Z.leb_spec (2 ^ 63) e) as [Hbig|Hsmall].
  - rewrite i64_high by lia. rewrite orb_true_r.
    by replace (e - 2 ^ 64 <=? now) with true by lia.
  - rewrite i64_small, orb_false_r by lia. destruct (Z.leb_spec e now); [done|].
    rewrite i64_small by lia.
    destruct (Z.ltb_spec (e - now) (ExpirationFloor val)).
    + by replace (ExpirationFloor val <=? e - now) with false by lia.
    + by replace (ExpirationFloor val <=? e - now) with true by lia.
Qed.

Lemma checkNodeAddress_code `{GethLaws} `{EthLib} `{PkgErrors} c fields target :
  NodeAddress_ fields = address_Hex target → length target = 20%nat → bytes_ok target →
  CodeOf <$> checkNodeAddress c fields =
    match NodeAddress c with
    | Err _ => Some CodeRelayError
    | Ok mine => if decide (target = mine) then None else Some CodeWrongNodeAddress
    end.
Proof.
  intros Hf Hlen Hok. unfold checkNodeAddress. rewrite Hf, hex_to_address_hex by done.
  destruct (NodeAddress c); [|done]. by case_decide.
Qed.

(** (C14) The validation of the suffix is the rule the configuration states, for any data.
    Data shorter than a suffix is accepted. Otherwise the last 64 bytes are the suffix:
    when the node is enforced, the one it names is compared with this one, and a service
    that cannot tell its own address rejects as RELAY_ERROR; then, when the expiration
    is, one that no [uint64] holds is accepted, one already passed is EXPIRED, and one
    closer than the minimum less the tolerance is EXPIRATION_TOO_LOW. The code departs
    from the rule in one region, stated apart: an expiration from 2^63 up to 2^64, which
    is far ahead, is EXPIRED whatever the clock reads, once the node is accepted. *)
Theorem validation_is_the_rule `{GethLaws} `{EthLib} `{PkgErrors} (c : Config) (ctx : context)
    (now : Z) (data : bytes) (Hbytes : bytes_ok data) (Hnow : 0 ≤ now < 2 ^ 63) :
  let verdict := CodeOf <$> (validateGasModelSuffix (Some c) ctx now data).1 in
  let val := Validation c in
  let target := suffix_node data in
  let expiration := suffix_expiration data in
  ((length data < gasModelSuffixBytes)%nat → verdict = None) ∧
  ((gasModelSuffixBytes ≤ length data)%nat → beyond_int64 expiration = false →
     verdict = suffix_rule val (NodeAddress c) target expiration now) ∧
  ((gasModelSuffixBytes ≤ length data)%nat → beyond_int64 expiration = true →
     verdict = match node_verdict val (NodeAddress c) target with
               | Some code => Some code
               | None => if EnforceExpiration val then Some CodeExpired else None
               end).
Proof.
  cbv zeta. unfold validateGasModelSuffix, suffix_rule, node_verdict. simpl.
  rewrite decode_decoded. split.
  { intros Hshort. destruct (negb _ && _); [done|].
    by replace (gasModelSuffixBytes <=? length data)%nat with false by (symmetry; by apply Nat.leb_gt). }
  assert (Hsuf : (gasModelSuffixBytes ≤ length data)%nat →
    (gasModelSuffixBytes <=? length data)%nat = true) by apply Nat.leb_le.
  assert (Hnode : (gasModelSuffixBytes ≤ length data)%nat → length (suffix_node data) = 20%nat).
  { intros. unfold suffix_node. rewrite length_slice; [done|]. unfold suffix_of, gasModelSuffixBytes in *.
    rewrite length_drop. lia. }
  assert (Hok : bytes_ok (suffix_node data)) by (by apply slice_ok, Forall_drop).
  assert (Hpos : 0 ≤ suffix_expiration data).
  { unfold suffix_expiration. apply be_value_bound, slice_ok. by apply Forall_drop. }
  split; intros Hlen Hb; destruct (decode_of data Hlen) as [Ha He]; rewrite (Hsuf Hlen);
    pose proof (checkNodeAddress_code c _ _ Ha (Hnode Hlen) Hok) as Hcode;
    pose proof (checkExpiration_code (DecodeGasModelSuffix data) _ now (Validation c)
      (eq_trans (decode_decoded data) (Hsuf Hlen)) He Hpos Hnow) as Hexp;
    unfold window_verdict, beyond_int64 in *;
    destruct (EnforceNodeAddress (Validation c)), (EnforceExpiration (Validation c)); simpl in *;
    try done; rewrite <-?Hcode; try destruct (checkNodeAddress _ _); simpl; try done; rewrite Hexp;
    destruct (Z.leb_spec (2 ^ 64) (suffix_expiration data)); simpl; try done; try lia.
  all: destruct (Z.leb_spec (2 ^ 63) (suffix_expiration data)); simpl in *; try lia.
  all: by rewrite ?orb_false_r, ?orb_true_r.
Qed.

Lemma validation_is_the_rule_witness :
  CodeOf <$> (@validateGasModelSuffix sample_geth sample_eth sample_errors (Some sample_config)
     background 1000 ([] ++ encode_suffix (replicate 20 1) 1100)).1 = Some CodeExpirationTooLow ∧
  CodeOf <$> (@validateGasModelSuffix sample_geth sample_eth sample_errors (Some sample_config)
     background 1000 (encode_suffix (replicate 20 1) (2 ^ 63))).1 = Some CodeExpired.
Proof.
  assert (∀ e, 0 ≤ e → bytes_ok (encode_suffix (replicate 20 1) e)) as Hok.
  { intros e He. unfold encode_suffix. apply Forall_app. split; [|apply Forall_app; split].
    - apply Forall_replicate. unfold byte_ok. lia.
    - apply Forall_replicate. unfold byte_ok. lia.
    - apply be_bytes_ok. }
  destruct (@validation_is_the_rule sample_geth sample_geth_laws sample_eth sample_errors
    sample_config background 1000 _ (Hok 1100 ltac:(lia)) ltac:(lia)) as (_ & Hrule & _).
  destruct (@validation_is_the_rule sample_geth sample_geth_laws sample_eth sample_errors
    sample_config background 1000 _ (Hok (2 ^ 63) ltac:(lia)) ltac:(lia)) as (_ & _ & Hfar).
  split.
  - etrans; [apply Hrule|]; [apply Nat.leb_le; vm_compute; reflexivity|vm_compute; reflexivity..].
  - etrans; [apply Hfar|]; [apply Nat.leb_le; vm_compute; reflexivity|vm_compute; reflexivity..].
Defined.

(** An expiration in the upper half of the 64-bit range, thousands of millions of years
    ahead, is rejected as EXPIRED whatever the clock reads: the comparison is made
    on a signed integer, where it has become negative. An expiration just beyond
    that range is accepted. *)
Theorem far_future_is_expired `{Geth} `{PkgErrors} (fields : GasModelFields)
    (val : ValidationConfig) (expiration now : Z)
    (Hd : Decoded fields = true) (He : Expiration fields = Some expiration)
    (Hhigh : 2 ^ 63 ≤ expiration) (Hnow : 0 ≤ now < 2 ^ 63) :
  CodeOf <$> checkExpiration fields now val =
    if expiration <? 2 ^ 64 then Some CodeExpired else None.
Proof.
  rewrite (checkExpiration_code _ expiration) by (done || lia).
  destruct (Z.ltb_spec expiration (2 ^ 64)).
  - replace (2 ^ 64 <=? expiration) with false by lia.
    by replace (2 ^ 63 <=? expiration) with true by lia; rewrite orb_true_r.
  - by replace (2 ^ 64 <=? expiration) with true by lia.
Qed.

Lemma far_future_is_expired_witness :
  CodeOf <$> @checkExpiration sample_errors
    (@DecodeGasModelSuffix sample_geth (encode_suffix (replicate 20 1) (2 ^ 63)))
    1700000000 (Validation sample_config) = Some CodeExpired.
Proof.
  rewrite (@far_future_is_expired sample_geth sample_errors _ _ (2 ^ 63)); try lia.
  - reflexivity.
  - reflexivity.
  - reflexivity.
Defined.

(** ** What a prepared metatx is *)

Section PrepareSpec.
Context `{Geth} `{EthLib} `{PkgErrors} `{GoFmt} (c : Config).

(** A metatx the service may send: everything the two doors promise of it. *)
Record acceptable (rd : reading) (tx : Transaction) (st : Rules) (p : PreparedMetaTx) : Prop := {
  acc_unprotected : ∃ v, tx_V tx = Some v ∧ u64 v = sig_V p ∧ (sig_V p = 27 ∨ sig_V p = 28);
  acc_words : ∃ r s, tx_R tx = Some r ∧ tx_S tx = Some s ∧
    sig_R p = signature_word r ∧ sig_S p = signature_word s;
  acc_sender : AsMessage tx (tx_ChainId tx) = Ok (From p);
  acc_key : SenderKey p = address_Hex (From p);
  acc_nonce : Nonce p = tx_Nonce tx;
  acc_target : To p = tx_To tx ∧ (IsDeploy p = true ↔ tx_To tx = None);
  acc_gas : MetaTxGasLimit p = metaTxGasLimit tx;
  acc_data : rlp_EncodeToBytes {| AccountNonce := tx_Nonce tx; Price := tx_GasPrice tx;
    GasLimit := tx_Gas tx; Recipient := tx_To tx; Amount := tx_Value tx;
    Payload := tx_Data tx |} = Ok (SigningData p);
  acc_suffix : ∀ ctx, (validateGasModelSuffix (Some c) ctx (rd_seconds rd) (tx_Data tx)).1 = None;
  acc_permitted : PermissionsEnabled (Security c) = true →
    (VerifySender (Some c) (rd_node rd) (rd_now rd) (rd_later rd) (From p) st).1 = Ok true;
}.

Lemma validate_ctx ctx ctx' now data :
  (validateGasModelSuffix (Some c) ctx now data).1 =
  (validateGasModelSuffix (Some c) ctx' now data).1.
Proof. unfold validateGasModelSuffix. by repeat case_match. Qed.

(** (C15) Whatever passes [PrepareMetaTx] is acceptable: its signature is a pre-EIP155 one
    and reaches the hub as its two numbers, its sender is the one recovered from
    it, its nonce, target and deploy flag are the transaction's, what the hub is
    given to hash is the RLP of exactly the six fields of the unsigned
    transaction, its suffix passes the validation and, when the check is on, its
    sender is permitted. *)
Theorem prepare_sound (rd : reading) (ctx : context) (logRaw : bool) (rawTx : string)
    (st : Rules) (p : PreparedMetaTx)
    (Hok : (PrepareMetaTx c rd ctx logRaw rawTx st).1.1 = Ok p) :
  ∃ tx, GetTransaction (trimHexPrefix rawTx) = Ok tx ∧ Tx p = tx ∧ acceptable rd tx st p.
Proof.
  revert Hok. unfold PrepareMetaTx.
  destruct (GetTransaction _) as [tx|] eqn:Hget; [|done].
  destruct (tx_V tx) as [v|] eqn:Hv, (tx_R tx) as [r|] eqn:Hr, (tx_S tx) as [s|] eqn:Hs; try done.
  case_decide as Hvv; [done|].
  destruct (AsMessage tx (tx_ChainId tx)) as [from|] eqn:Hfrom; [|done].
  destruct (prepare_checked _ _ _ _ _ _ _ _ _) as [[out st'] log] eqn:Hp. simpl. intros ->.
  revert Hp. unfold prepare_checked.
  destruct (validateGasModelSuffix (Some c) ctx (rd_seconds rd) (tx_Data tx)) as [[e|] log'] eqn:Hval;
    [done|].
  assert (Hsuf : ∀ ctx, (validateGasModelSuffix (Some c) ctx (rd_seconds rd) (tx_Data tx)).1 = None).
  { intros ctx'. rewrite (validate_ctx ctx' ctx). by rewrite Hval. }
  assert (Hu8 : u8 v = u64 v ∧ (u8 v = 27 ∨ u8 v = 28)).
  { assert (u8 v = u64 v mod 256) as ->.
    { unfold u8, u64. change 256 with (2 ^ 8). rewrite Z.mod_mod_divide; [done|].
      by exists (2 ^ 56). }
    assert (u64 v = 27 ∨ u64 v = 28) as [-> | ->] by lia; vm_compute; auto. }
  assert (Hunp : ∃ v0, tx_V tx = Some v0 ∧ u64 v0 = u8 v ∧ (u8 v = 27 ∨ u8 v = 28))
    by (exists v; by destruct Hu8).
  assert (Hwords : ∃ r0 s0, tx_R tx = Some r0 ∧ tx_S tx = Some s0 ∧
    signature_word r = signature_word r0 ∧ signature_word s = signature_word s0)
    by (exists r, s; split_and!; done).
  assert (Htarget : bool_decide (tx_To tx = None) = true ↔ tx_To tx = None)
    by apply bool_decide_eq_true.
  assert (Hdata : signing_data_of tx = {| AccountNonce := tx_Nonce tx; Price := tx_GasPrice tx;
    GasLimit := tx_Gas tx; Recipient := tx_To tx; Amount := tx_Value tx; Payload := tx_Data tx |}).
  { unfold signing_data_of. by destruct (tx_To tx). }
  destruct (PermissionsEnabled (Security c)) eqn:Hperm.
  - destruct (VerifySender _ _ _ _ _ _) as [[[]|] st1] eqn:Hvs; try done.
    destruct (rlp_EncodeToBytes (signing_data_of tx)) as [rlp|] eqn:Hrlp; [|done].
    intros [= <- <- <-]. exists tx. split_and!; [done|done|]. rewrite Hdata in Hrlp.
    constructor; simpl; try done. by rewrite Hvs.
  - destruct (rlp_EncodeToBytes (signing_data_of tx)) as [rlp|] eqn:Hrlp; [|done].
    intros [= <- <- <-]. exists tx. split_and!; [done|done|]. rewrite Hdata in Hrlp.
    constructor; simpl; try done. by rewrite Hperm.
Qed.

Definition catalogue : list string :=
  [CodeBadRawTx; CodeBadMetaTx; CodeSenderNotPermitted; CodePermissioningUnavailable;
   CodeWrongNodeAddress; CodeExpired; CodeExpirationTooLow; CodeRelayError].

Definition is_rejection (e : error) : Prop :=
  match e with Rejection _ code _ => code ∈ catalogue | _ => False end.

Ltac in_catalogue := cbn; apply (bool_decide_unpack _); vm_compute; exact I.

Lemma validate_rejects ctx now data e :
  (validateGasModelSuffix (Some c) ctx now data).1 = Some e → is_rejection e.
Proof.
  unfold validateGasModelSuffix, checkNodeAddress, checkExpiration.
  repeat case_match; simpl; intros; simplify_eq; in_catalogue.
Qed.

(** Every raw transaction leaves a trace and every refusal is of the catalogue: the
    first event of a preparation is [relay.received], emitted even for what cannot
    be decoded; a second one, [relay.decoded], follows exactly when the sender
    could be recovered, before any check of what it carries; and a refusal is
    always a rejection with one of the symbolic codes of this path. *)
Theorem prepare_traces_and_rejects (rd : reading) (ctx : context) (logRaw : bool)
    (rawTx : string) (st : Rules) :
  let '(out, _, log) := PrepareMetaTx c rd ctx logRaw rawTx st in
  (∃ log', em_event <$> log = "relay.received" :: log') ∧
  ("relay.decoded" ∈ (em_event <$> log) ↔
     ∃ tx v r s from, GetTransaction (trimHexPrefix rawTx) = Ok tx ∧ tx_V tx = Some v ∧
       tx_R tx = Some r ∧ tx_S tx = Some s ∧ (u64 v = 27 ∨ u64 v = 28) ∧
       AsMessage tx (tx_ChainId tx) = Ok from) ∧
  match out with Ok _ => True | Err e => is_rejection e end.
Proof.
  assert (Hno : ∀ x, "relay.decoded" ∈ [em_event (Info ctx "relay.received" x)] → False)
    by (intros x Hx; set_solver).
  unfold PrepareMetaTx. destruct (GetTransaction _) as [tx|] eqn:Hget; cycle 1.
  { refine (conj _ (conj _ _)); [by eexists| |in_catalogue].
    split; [intros Hx; by apply Hno in Hx | intros (?&?&?&?&?&?&?&?&?&[]&?); simplify_eq; first [lia | congruence]]. }
  destruct (tx_V tx) as [v|] eqn:Hv, (tx_R tx) as [r|] eqn:Hr, (tx_S tx) as [s|] eqn:Hs;
    try (refine (conj _ (conj _ _)); [by eexists| |in_catalogue];
         split; [intros Hx; by apply Hno in Hx | intros (?&?&?&?&?&?&?&?&?&[]&?); simplify_eq; first [lia | congruence]]).
  case_decide as Hvv.
  { refine (conj _ (conj _ _)); [by eexists| |in_catalogue].
    split; [intros Hx; by apply Hno in Hx | intros (?&?&?&?&?&?&?&?&?&[]&?); simplify_eq; first [lia | congruence]]. }
  destruct (AsMessage tx (tx_ChainId tx)) as [from|] eqn:Hfrom; cycle 1.
  { refine (conj _ (conj _ _)); [by eexists| |in_catalogue].
    split; [intros Hx; by apply Hno in Hx | intros (?&?&?&?&?&?&?&?&?&[]&?); simplify_eq; first [lia | congruence]]. }
  destruct (prepare_checked _ _ _ _ _ _ _ _ _) as [[out st'] log] eqn:Hp.
  refine (conj _ (conj _ _)); [by eexists| |].
  - split; [intros _|intros _; simpl; set_solver].
    exists tx, v, r, s, from. split_and!; auto. lia.
  - revert Hp. unfold prepare_checked.
    destruct (validateGasModelSuffix _ _ _ _) as [[e|] log'] eqn:Hval.
    + intros [= <- <- <-]. eapply validate_rejects. by rewrite Hval.
    + repeat case_match; intros; simplify_eq; try done;
        in_catalogue.
Qed.

End PrepareSpec.

(** The gas limit of the wrapping transaction covers the user's own gas plus 105 per
    byte of data and 300000, but only while that sum fits in 64 bits: beyond, it
    wraps around, and the metatx is given less gas than its user asked for. *)
Theorem gas_limit_wraps (tx : Transaction)
    (Hgas : 0 ≤ tx_Gas tx < 2 ^ 64) (Hdata : Z.of_nat (length (tx_Data tx)) < 2 ^ 40) :
  let overhead := Z.of_nat (length (tx_Data tx)) * 105 + 300000 in
  (metaTxGasLimit tx = overhead + tx_Gas tx ↔ overhead + tx_Gas tx < 2 ^ 64) ∧
  (metaTxGasLimit tx < tx_Gas tx ↔ 2 ^ 64 ≤ overhead + tx_Gas tx).
Proof.
  simpl. unfold metaTxGasLimit. set (o := Z.of_nat _ * 105 + 300000).
  assert (0 < o < 2 ^ 62) by (unfold o; lia).
  destruct (Z.lt_ge_cases (o + tx_Gas tx) (2 ^ 64)).
  - rewrite u64_small by lia. lia.
  - assert (u64 (o + tx_Gas tx) = o + tx_Gas tx - 2 ^ 64) as ->; [|lia].
    unfold u64. symmetry. apply (Z.mod_unique_pos _ _ 1); lia.
Qed.

Lemma gas_limit_wraps_witness :
  let tx := {| tx_Nonce := 0; tx_GasPrice := 0; tx_Gas := 2 ^ 64 - 300000; tx_To := None;
               tx_Value := 0; tx_Data := []; tx_ChainId := 0; tx_V := None; tx_R := None;
               tx_S := None; tx_Hash := [] |} in
  metaTxGasLimit tx = 0 ∧ metaTxGasLimit tx < tx_Gas tx.
Proof.
  split; [reflexivity|].
  apply (gas_limit_wraps {| tx_Nonce := 0; tx_GasPrice := 0; tx_Gas := 2 ^ 64 - 300000;
    tx_To := None; tx_Value := 0; tx_Data := []; tx_ChainId := 0; tx_V := None; tx_R := None;
    tx_S := None; tx_Hash := [] |}); simpl; lia.
Defined.

Definition sample_reading : reading :=
  {| rd_node := sample_node; rd_seconds := 1700000000; rd_now := 10; rd_later := 11 |}.

Lemma prepare_sound_witness :
  ∃ p, (@PrepareMetaTx sample_geth sample_eth sample_errors sample_config sample_reading
          background false "0x00" sample_rules).1.1 = Ok p ∧
       Tx p = sample_transaction ∧ Nonce p = 7.
Proof.
  destruct ((@PrepareMetaTx sample_geth sample_eth sample_errors sample_config sample_reading
    background false "0x00" sample_rules).1.1) as [p|e] eqn:Hp; [|vm_compute in Hp; discriminate].
  exists p. split; [reflexivity|].
  destruct (@prepare_sound sample_geth sample_eth sample_errors sample_config sample_reading
    background false "0x00" sample_rules p Hp) as (tx & Hget & Htx & Hacc).
  assert (tx = sample_transaction) as Heq by (vm_compute in Hget; injection Hget; done).
  split; [by rewrite Htx | by rewrite (acc_nonce _ _ _ _ _ Hacc), Heq].
Defined.

(** The fields of the event [relay.decoded]. *)
Definition decoded_contract : gset string :=
  {[ "from"; "to"; "isDeploy"; "nonce"; "userGasLimit"; "metaTxGasLimit"; "dataBytes";
     "nodeAddress"; "expiration"; "expiresInSeconds"; "selector" ]}.

(** Every field of the contract of [relay.decoded] is always emitted, and no other,
    whatever the transaction; and what the event says of the suffix is what the
    validation goes by: it shows an expiration exactly when the validation has one
    to compare. *)
Theorem decoded_fields_complete `{Geth} (tx : Transaction) (from : address) (gasLimit now : Z) :
  dom (DecodedFields tx from gasLimit now) = decoded_contract ∧
  (∀ e, DecodedFields tx from gasLimit now !! "expiration" = Some (VInt e) ↔
        ExpirationSeconds (DecodeGasModelSuffix (tx_Data tx)) = Some e).
Proof.
  split.
  - unfold DecodedFields, decoded_contract. rewrite !dom_insert_L, dom_empty_L. set_solver.
  - intros e. unfold DecodedFields.
    rewrite !lookup_insert_ne by done. rewrite lookup_insert_eq.
    destruct (ExpirationSeconds _); simpl; naive_solver.
Qed.
