(* ===== verification/Reorder.v ===== *)
(** The decisions of the reordering, [service/reorder.go]: the nonce a user is
    expected to send, who passes when the quota of the user is full, who is surplus
    while it waits, and what a sent metatx leaves in the tracker. *)

From S2P Require Import Prelude GoLib Config Errors Events AuditLog Client Permissioning MetaTx Tracker Handout.

Section Reorder.
Context `{GoUnicode} `{Geth} `{EthLib} `{PkgErrors}.

Definition reorderEnabled (cfg : option Config) : bool :=
  match cfg with Some c => reorder_Enabled (Reorder c) | None => false end.

Definition maxInflightPerUser (cfg : option Config) : Z :=
  match cfg with
  | Some c => if 0 <? MaxInflightPerUser (Reorder c) then MaxInflightPerUser (Reorder c)
              else DefaultReorderMaxInflightPerUser
  | None => DefaultReorderMaxInflightPerUser
  end.

(** The nonce the hub has, when there is no chain in memory. *)
Definition on_chain_nonce (c : Config) (node : Node) (from : string) : result error Z :=
  match RelayHubContractAddress (Application c) with
  | None => Err (type_New FailedKeyConfig "relayHub contract address not resolved" (-32610))
  | Some hub =>
      nodeAddress ← NodeAddress c;
      _ ← Connect node (NodeURL (Application c));
      onChain ← GetTransactionCount node hub (HexToAddress from) nodeAddress;
      match onChain with
      | None => Err (Errors.New "could not read the hub nonce" (-32000))
      | Some n => Ok (u64 n)
      end
  end.

Definition expectedNonce (c : Config) (now : Z) (node : Node) (from : string) (s : Tracker) :
    result error Z * Tracker :=
  match cachedNonce (Some c) now from s with
  | (Some next, s) => (Ok next, s)
  | (None, s) => (on_chain_nonce c node from, s)
  end.

Definition badNonce (expected got pending : Z) : error :=
  RejectWithDetails
    (Errors.New ("invalid nonce: the RelayHub expects " +:+ decimal expected
                 +:+ " for this sender but the metatx carries " +:+ decimal got) (-32000))
    CodeBadNonce
    (<["expected" := VInt expected]> (<["got" := VInt got]> (<["pending" := VInt pending]> ∅))).

Definition tooManyInflight (inflight max : Z) : error :=
  RejectWithDetails
    (Errors.New ("exceeded the inflight tx limit for this address: " +:+ decimal inflight
                 +:+ " metatx in flight, maximum " +:+ decimal max
                 +:+ ". Wait for them to be mined before sending more") (-32000))
    CodeTooManyInflight
    (<["inflight" := VInt inflight]> (<["max" := VInt max]> ∅)).

Section Quota.
Context (cfg : option Config) (now : Z).

(** The door: what was in flight, whether the arrival passes, and the tracker
    after. *)
Definition makeRoomFor (key : string) (n : Z) (s : Tracker) : (Z * bool) * Tracker :=
  let '(inflight, s) := inflightLocked cfg now key s in
  if inflight <? maxInflightPerUser cfg then ((inflight, true), s)
  else
    match Held.highestHeldLocked key (hld s) with
    | None => ((inflight, false), s)
    | Some p =>
        if Held.nonce (Held.at_ (hld s) p) <=? n then ((inflight, false), s)
        else ((inflight, true), set_hld (Held.evictHeldLocked key p inflight (hld s)) s)
    end.

(** The wait: is this held metatx the one that is too many? *)
Definition surplusHeld (key : string) (entry : nat) (s : Tracker) : (Z * bool) * Tracker :=
  let '(inflight, s) := inflightLocked cfg now key s in
  if inflight <=? maxInflightPerUser cfg then ((inflight, false), s)
  else ((inflight, bool_decide (Held.highestHeldLocked key (hld s) = Some entry)), s).
End Quota.

(** What a send leaves behind: with the reordering off, the next nonce and nothing
    else; with it on, the open ticket closes, the nonce is reserved and counted in
    flight, and whoever waits for its turn is woken. *)
Definition noteSent (cfg : option Config) (now : Z) (prepared : PreparedMetaTx)
    (q : Queue.t) (s : Tracker) : (option nat * option Z) * Queue.t * Tracker :=
  if negb (reorderEnabled cfg) then
    (None, None, q, incrementTransactionCount cfg now (SenderKey prepared) (Nonce prepared) s)
  else
    let key := senderKey (SenderKey prepared) in
    let q := Queue.closeOpenTicket key q in
    let '(chain, s) := reserveLocked cfg now key (Nonce prepared) true s in
    let pending := Chains.pending (Chains.at_ (chs s) chain) in
    (Some chain, Some pending, q, set_hld (Held.notifyTurnLocked key (hld s)) s).

(** ** The quota *)

Section QuotaSpec.
Context (cfg : option Config) (now : Z).

Abbreviation room := (maxInflightPerUser cfg).
Abbreviation nonce_of s p := (Held.nonce (Held.at_ (hld s) p)).
Abbreviation held_for s key := (Held.held_of (hld s) key).

Lemma maxInflightPerUser_pos : 0 < maxInflightPerUser cfg.
Proof. unfold maxInflightPerUser. repeat case_match; unfold DefaultReorderMaxInflightPerUser; lia. Qed.

Lemma inflightLocked_frame key s :
  let '(n, s') := inflightLocked cfg now key s in
  n = occupied cfg now s key ∧ hld s' = hld s ∧ (tracker_wf s → tracker_wf s') ∧
  occupied cfg now s' key = occupied cfg now s key.
Proof.
  pose proof (inflightLocked_spec cfg now key s) as Hi.
  destruct (inflightLocked cfg now key s) as [n s']. destruct Hi as (-> & Hh & Hwf & Hv).
  split_and!; [done|done|done|]. unfold occupied. rewrite Hh, Hv, decide_True by done.
  f_equal. destruct (Chains.view (chs s) key) as [[[m p] u]|]; simpl; [|done].
  destruct (_ <? now - u) eqn:He; simpl; [done|]. by rewrite He.
Qed.

(** The last arrival among the held metatx of greatest nonce, when there is one. *)
Definition surplus_of (s : Tracker) (key : string) (p : nat) : Prop :=
  Held.last_highest (hld s) (held_for s key) p.

(** (C18) The door is decided by nonce and never by order of arrival. With room, the
    metatx passes and nothing changes. With the quota full it passes only if some
    held metatx of its user has a greater nonce; then exactly one is discarded,
    the latest of those of greatest nonce: it leaves the registry at once, knows
    how many were in flight, and is woken. Nobody else is touched: no other held
    metatx of that user or of any other. *)
Theorem door_decides_by_nonce (key : string) (n : Z) (s : Tracker) (Hwf : tracker_wf s) :
  let '((inflight, admitted), s') := makeRoomFor cfg now key n s in
  inflight = occupied cfg now s key ∧ tracker_wf s' ∧
  (admitted = true ↔ inflight < room ∨ ∃ p, p ∈ held_for s key ∧ n < nonce_of s p) ∧
  ((inflight < room ∨ admitted = false) → hld s' = hld s) ∧
  (room ≤ inflight → admitted = true → ∃ p,
     surplus_of s key p ∧
     Held.evicted (Held.at_ (hld s') p) = true ∧
     Held.evictedInflight (Held.at_ (hld s') p) = inflight ∧
     Held.wake (Held.at_ (hld s') p) = None ∧
     (∀ k, held_for s' k =
        if decide (key = k) then Held.remove_first p (held_for s k) else held_for s k) ∧
     (∀ q, q ≠ p → Held.at_ (hld s') q = Held.at_ (hld s) q)).
Proof.
  unfold makeRoomFor. pose proof (inflightLocked_frame key s) as Hi.
  destruct (inflightLocked cfg now key s) as [inflight s1].
  destruct Hi as (-> & Hh & Hwf1 & _). specialize (Hwf1 Hwf).
  destruct (Z.ltb_spec (occupied cfg now s key) room) as [Hlt|Hge].
  { split_and!; auto; [tauto|lia]. }
  rewrite Hh. pose proof (Held.highestHeldLocked_spec key (hld s)) as Hhigh.
  destruct (Held.highestHeldLocked key (hld s)) as [p|].
  - pose proof (Held.last_highest_elem _ _ _ Hhigh) as Hin.
    destruct (Z.leb_spec (nonce_of s p) n) as [Hle|Hgt].
    + split_and!; auto; [|done]. split; [done|]. intros [?|(q & Hq & ?)]; [lia|].
      pose proof (Held.last_highest_max _ _ _ q Hhigh Hq). lia.
    + destruct (Held.evictHeldLocked_spec key p (occupied cfg now s key) (hld s))
        as (Hwf' & ? & ? & ? & _ & ? & ?); [apply Hwf|done|].
      split_and!; auto; simpl.
      * split; [apply Hwf1 | done].
      * split; [|done]. intros _. right. by exists p.
      * intros [?|?]; [lia|done].
      * intros _ _. by exists p.
  - split_and!; auto; [|done]. split; [done|]. intros [?|(q & Hq & _)]; [lia|].
    rewrite Hhigh in Hq. set_solver.
Qed.

Lemma surplusHeld_spec key entry s :
  let '((inflight, surplus), s') := surplusHeld cfg now key entry s in
  inflight = occupied cfg now s key ∧ hld s' = hld s ∧ (tracker_wf s → tracker_wf s') ∧
  occupied cfg now s' key = occupied cfg now s key ∧
  (surplus = true ↔ room < occupied cfg now s key ∧
     Held.highestHeldLocked key (hld s) = Some entry).
Proof.
  unfold surplusHeld. pose proof (inflightLocked_frame key s) as Hi.
  destruct (inflightLocked cfg now key s) as [inflight s1].
  destruct Hi as (-> & Hh & Hwf1 & Ho).
  destruct (Z.leb_spec (occupied cfg now s key) room); split_and!; auto.
  - split; [done|lia].
  - rewrite Hh, bool_decide_eq_true. split; [done|]. by intros [_ ?].
Qed.

(** Exactly one is surplus: whatever the user has held and in flight, the test of
    the wait is satisfied by nobody while the quota is not exceeded, and by
    exactly one held metatx, the latest of those of greatest nonce, once it is;
    so a burst that got past the door is corrected one by one and never twice. *)
Theorem exactly_one_is_surplus (key : string) (s : Tracker) :
  (∀ p, (surplusHeld cfg now key p s).1.2 = true →
     room < occupied cfg now s key ∧ surplus_of s key p) ∧
  (∀ p q, (surplusHeld cfg now key p s).1.2 = true →
     (surplusHeld cfg now key q s).1.2 = true → p = q) ∧
  (room < occupied cfg now s key → held_for s key ≠ [] →
     ∃ p, (surplusHeld cfg now key p s).1.2 = true).
Proof.
  assert (Hs : ∀ p, (surplusHeld cfg now key p s).1.2 = true ↔
    room < occupied cfg now s key ∧ Held.highestHeldLocked key (hld s) = Some p).
  { intros p. pose proof (surplusHeld_spec key p s) as Hp.
    destruct (surplusHeld cfg now key p s) as [[? ?] ?]. by destruct Hp as (_ & _ & _ & _ & ?). }
  pose proof (Held.highestHeldLocked_spec key (hld s)) as Hhigh.
  split_and!.
  - intros p [? Hp]%Hs. rewrite Hp in Hhigh. done.
  - intros p q [_ Hp]%Hs [_ Hq]%Hs. congruence.
  - intros Hroom Hne. destruct (Held.highestHeldLocked key (hld s)) as [p|]; [|done].
    exists p. by apply Hs.
Qed.

(** One held metatx finds itself surplus and leaves. *)
Definition drain (key : string) (s s' : Tracker) : Prop :=
  ∃ p, (surplusHeld cfg now key p s).1.2 = true ∧
       s' = unhold key p (surplusHeld cfg now key p s).2.

Lemma drain_step_spec key s s' :
  tracker_wf s → drain key s s' →
  tracker_wf s' ∧ room < occupied cfg now s key ∧
  occupied cfg now s' key = occupied cfg now s key - 1 ∧
  length (held_for s key) = S (length (held_for s' key)) ∧
  (∀ q, nonce_of s' q = nonce_of s q) ∧
  (∀ q, q ∈ held_for s' key → q ∈ held_for s key) ∧
  (∀ p q, p ∈ held_for s' key → q ∈ held_for s key → q ∉ held_for s' key →
     nonce_of s p ≤ nonce_of s q).
Proof.
  intros Hwf (p & Hp & ->). pose proof (surplusHeld_spec key p s) as Hs.
  destruct (surplusHeld cfg now key p s) as [[inflight b] s1]. simpl in *.
  destruct Hs as (_ & Hh & Hwf1 & Ho & Hb). apply Hb in Hp as [Hroom Hhigh].
  specialize (Hwf1 Hwf). pose proof (Held.highestHeldLocked_spec key (hld s)) as Hlast.
  rewrite Hhigh in Hlast. pose proof (Held.last_highest_elem _ _ _ Hlast) as Hin.
  assert (Hof : Held.held_of (Held.unholdLocked key p (hld s1)) key =
    Held.remove_first p (held_for s key)).
  { by rewrite Held.held_of_unhold, decide_True, Hh. }
  assert (Hnd : NoDup (held_for s key)) by (apply Held.held_of_NoDup, Hwf).
  split_and!; simpl; try done.
  - split; [apply Hwf1|]. by apply Held.unholdLocked_wf, Hwf1.
  - rewrite <-Ho. unfold occupied, Held.waitingOf. simpl. rewrite Hof, Hh.
    rewrite (Held.length_remove_first p (held_for s key) Hin). lia.
  - rewrite Hof. by apply Held.length_remove_first.
  - intros q. unfold Held.at_; simpl. by rewrite Hh.
  - intros q. rewrite Hof, Held.elem_of_remove_first by done. tauto.
  - intros a q Ha Hq Hnot. rewrite Hof, Held.elem_of_remove_first in Ha, Hnot by done.
    assert (q = p) as -> by (destruct (decide (q = p)); naive_solver).
    by apply (Held.last_highest_max _ _ _ a Hlast), Ha.
Qed.

(** (C19) The quota is enforced, and by discarding the right ones: when more metatx of a
    user got in than there is room for, those that find themselves surplus leave
    one by one; the sequence is finite, every departure frees one place, it never
    goes below the quota, it only ends when the quota is respected or nothing is
    held, and those that remain have the lowest nonces of all. *)
Theorem surplus_drains (key : string) (n : nat) (s s' : Tracker)
    (Hwf : tracker_wf s) (Hdrain : nsteps (drain key) n s s') :
  (n ≤ length (held_for s key))%nat ∧
  occupied cfg now s' key = occupied cfg now s key - Z.of_nat n ∧
  ((0 < n)%nat → room ≤ occupied cfg now s' key) ∧
  (∀ p, p ∈ held_for s' key → p ∈ held_for s key) ∧
  (∀ p q, p ∈ held_for s' key → q ∈ held_for s key → q ∉ held_for s' key →
     nonce_of s p ≤ nonce_of s q) ∧
  ((∀ s'', ¬ drain key s' s'') → occupied cfg now s' key ≤ room ∨ held_for s' key = []).
Proof.
  assert (Hend : ∀ s0, (∀ s'', ¬ drain key s0 s'') →
    occupied cfg now s0 key ≤ room ∨ held_for s0 key = []).
  { intros s0 Hno. destruct (decide (held_for s0 key = [])); [auto|left].
    apply Z.le_ngt. intros Hlt.
    destruct (exactly_one_is_surplus key s0) as (_ & _ & Hex).
    destruct (Hex Hlt) as [p Hp]; [done|]. eapply Hno. by exists p. }
  revert Hwf. induction Hdrain as [s|n s s1 s' Hstep _ IH]; intros Hwf.
  - split_and!; [lia|lia|lia|done|done|by apply Hend].
  - destruct (drain_step_spec _ _ _ Hwf Hstep) as (Hwf1 & Hroom & Ho & Hl & Hn & Hsub & Hlow).
    destruct (IH Hwf1) as (Hle & Ho' & Hge & Hsub' & Hlow' & Hend').
    split_and!; [lia|lia| |by auto| |done].
    + destruct n; [lia|]. intros _. apply Hge. lia.
    + intros p q Hp Hq Hnq. destruct (decide (q ∈ held_for s1 key)).
      * rewrite <-!Hn. by apply Hlow'.
      * apply Hlow; auto.
Qed.
End QuotaSpec.
End Reorder.

(** Three metatx of one user, held: one more than there is room for. *)
Definition burst : Tracker :=
  (hold "u" 7 (hold "u" 5 (hold "u" 6 empty_tracker).2).2).2.

Lemma burst_wf : tracker_wf burst.
Proof.
  pose proof empty_tracker_wf as [Hc Hh]. split; [exact Hc|].
  by repeat apply Held.hold_wf.
Qed.

Lemma door_decides_by_nonce_witness :
  (makeRoomFor (Some sample_config) 0 "u" 4 burst).1 = (3, true) ∧
  tracker_wf (makeRoomFor (Some sample_config) 0 "u" 4 burst).2.
Proof.
  generalize (door_decides_by_nonce (Some sample_config) 0 "u" 4 burst burst_wf).
  destruct (makeRoomFor (Some sample_config) 0 "u" 4 burst) as [[inflight admitted] s'] eqn:Hm.
  intros (Hi & Hwf & _). split; [|exact Hwf].
  vm_compute in Hm. by injection Hm as <- <- _.
Defined.

Lemma surplus_drains_witness :
  let s' := unhold "u" 2 (surplusHeld (Some sample_config) 0 "u" 2 burst).2 in
  occupied (Some sample_config) 0 s' "u" = 2 ∧
  (Held.nonce ∘ Held.at_ (hld s') <$> Held.held_of (hld s') "u") = [6; 5].
Proof.
  set (s' := unhold "u" 2 (surplusHeld (Some sample_config) 0 "u" 2 burst).2).
  assert (nsteps (drain (Some sample_config) 0 "u") 1 burst s') as Hd.
  { apply nsteps_once. exists 2%nat. split; [vm_compute|]; reflexivity. }
  destruct (surplus_drains (Some sample_config) 0 "u" 1 burst s' burst_wf Hd) as (_ & Ho & _).
  split; [rewrite Ho|]; vm_compute; reflexivity.
Defined.
