(* ===== verification/UserLock.v ===== *)
(** The lock of a user, [lockUser] of [service/reorder.go]: a map from users to
    locks, each with the number of goroutines that use it, so that the entry can be
    deleted when nobody does.

    A [*userLock] is a number on a heap, so that deleting an entry and making it
    again gives a different lock; a step is one critical section of
    [userLocksMutex], or the mutex of the lock changing hands. *)

From S2P Require Import Prelude.

Record userLock := { holder : option nat; users : Z }.

Record Locks := {
  userLocks : gmap string nat;
  heap : gmap nat userLock;
  next_lock : nat;
}.

Definition no_locks : Locks := {| userLocks := ∅; heap := ∅; next_lock := 0 |}.

Definition lock_at (s : Locks) (p : nat) : userLock :=
  default {| holder := None; users := 0 |} (heap s !! p).

Definition set_lock (p : nat) (l : userLock) (s : Locks) : Locks :=
  {| userLocks := userLocks s; heap := <[p := l]> (heap s); next_lock := next_lock s |}.

(** The first critical section: the user's lock, made if there is none, with one
    more user. *)
Definition enter (key : string) (s : Locks) : nat * Locks :=
  let '(p, s) :=
    match userLocks s !! key with
    | Some p => (p, s)
    | None =>
        (next_lock s,
         {| userLocks := <[key := next_lock s]> (userLocks s);
            heap := <[next_lock s := {| holder := None; users := 0 |}]> (heap s);
            next_lock := S (next_lock s) |})
    end in
  (p, set_lock p {| holder := holder (lock_at s p); users := users (lock_at s p) + 1 |} s).

(** [lock.mutex.Lock()] and [Unlock()]. *)
Definition acquire (p g : nat) (s : Locks) : option Locks :=
  match holder (lock_at s p) with
  | None => Some (set_lock p {| holder := Some g; users := users (lock_at s p) |} s)
  | Some _ => None
  end.

Definition unlock (p : nat) (s : Locks) : Locks :=
  set_lock p {| holder := None; users := users (lock_at s p) |} s.

(** The last critical section: one user less, and the entry goes with the last. *)
Definition leave (key : string) (p : nat) (s : Locks) : Locks :=
  let n := users (lock_at s p) - 1 in
  let s := set_lock p {| holder := holder (lock_at s p); users := n |} s in
  {| userLocks := if n =? 0 then delete key (userLocks s) else userLocks s;
     heap := heap s; next_lock := next_lock s |}.

(** ** The goroutines that use locks *)

Inductive phase := Queued (p : nat) | Holding (p : nat) | Leaving (p : nat).

Definition lock_of (x : phase) : nat := match x with Queued p | Holding p | Leaving p => p end.

Record lock_sys := { locks : Locks; procs : gmap nat (string * phase) }.

Definition lock_sys0 : lock_sys := {| locks := no_locks; procs := ∅ |}.

Inductive lock_step : lock_sys → lock_sys → Prop :=
  | l_enter g key s :
      procs s !! g = None →
      lock_step s {| locks := (enter key (locks s)).2;
                     procs := <[g := (key, Queued (enter key (locks s)).1)]> (procs s) |}
  | l_acquire g key p l s :
      procs s !! g = Some (key, Queued p) → acquire p g (locks s) = Some l →
      lock_step s {| locks := l; procs := <[g := (key, Holding p)]> (procs s) |}
  | l_unlock g key p s :
      procs s !! g = Some (key, Holding p) →
      lock_step s {| locks := unlock p (locks s); procs := <[g := (key, Leaving p)]> (procs s) |}
  | l_leave g key p s :
      procs s !! g = Some (key, Leaving p) →
      lock_step s {| locks := leave key p (locks s); procs := delete g (procs s) |}.

(** ** The invariant *)

(** How many goroutines use the lock of a user. *)
Definition uses (key : string) (ps : gmap nat (string * phase)) : nat :=
  size (filter (λ x, x.2.1 = key) ps).

Lemma uses_new key g k x ps :
  ps !! g = None → uses key (<[g := (k, x)]> ps) = ((if decide (k = key) then 1 else 0) + uses key ps)%nat.
Proof.
  intros Hg. unfold uses. case_decide as Hk.
  - rewrite map_filter_insert_True by done.
    rewrite map_size_insert_None; [done|]. apply map_lookup_filter_None. by left.
  - rewrite map_filter_insert_False by done. by rewrite delete_id.
Qed.

Lemma uses_delete key g k x ps :
  ps !! g = Some (k, x) →
  uses key ps = ((if decide (k = key) then 1 else 0) + uses key (delete g ps))%nat.
Proof.
  intros Hg. rewrite <-(insert_delete_id ps g (k, x)) at 1 by done.
  apply uses_new. apply lookup_delete_eq.
Qed.

Lemma uses_update key g k x y ps :
  ps !! g = Some (k, x) → uses key (<[g := (k, y)]> ps) = uses key ps.
Proof.
  intros Hg. rewrite (uses_delete key g k x ps Hg).
  rewrite <-(insert_delete_eq ps). apply uses_new. apply lookup_delete_eq.
Qed.

Lemma uses_pos key g x ps : ps !! g = Some (key, x) → (0 < uses key ps)%nat.
Proof. intros Hg. rewrite (uses_delete key g key x ps Hg), decide_True by done. lia. Qed.

Record lock_inv (s : lock_sys) : Prop := {
  li_entry : ∀ key p, userLocks (locks s) !! key = Some p →
    is_Some (heap (locks s) !! p) ∧
    users (lock_at (locks s) p) = Z.of_nat (uses key (procs s));
  li_same : ∀ g key x, procs s !! g = Some (key, x) →
    userLocks (locks s) !! key = Some (lock_of x);
  li_own : ∀ k1 k2 p, userLocks (locks s) !! k1 = Some p →
    userLocks (locks s) !! k2 = Some p → k1 = k2;
  li_fresh : ∀ p, is_Some (heap (locks s) !! p) → (p < next_lock (locks s))%nat;
  li_holder : ∀ p g, holder (lock_at (locks s) p) = Some g ↔
    ∃ key, procs s !! g = Some (key, Holding p);
}.

Lemma lock_at_set p q l s : lock_at (set_lock p l s) q = if decide (p = q) then l else lock_at s q.
Proof. unfold lock_at, set_lock; simpl. rewrite lookup_insert. by case_decide. Qed.

Lemma heap_set p q l s :
  is_Some (heap s !! p) → is_Some (heap (set_lock p l s) !! q) ↔ is_Some (heap s !! q).
Proof. intros Hp. simpl. rewrite lookup_insert. case_decide; [subst; by split|done]. Qed.

Lemma lock_inv_start : lock_inv lock_sys0.
Proof.
  constructor; simpl; intros *; rewrite ?lookup_empty; try done.
  unfold lock_at. simpl. rewrite lookup_empty. simpl. split; [done | by intros []].
Qed.

Lemma lock_inv_enter_some g key p s :
  lock_inv s → procs s !! g = None → userLocks (locks s) !! key = Some p →
  lock_inv {| locks := set_lock p {| holder := holder (lock_at (locks s) p);
                                     users := users (lock_at (locks s) p) + 1 |} (locks s);
              procs := <[g := (key, Queued p)]> (procs s) |}.
Proof.
  intros Hinv Hg Hp. pose proof Hinv as [He Hs Ho Hf Hh]. constructor; simpl.
  - intros k q Hq. rewrite lock_at_set, uses_new by done.
    destruct (He _ _ Hq) as (? & Hu). split.
    { apply (heap_set p q _ (locks s)); [by apply (He key)|done]. }
    case_decide as Hpq.
    + subst q. assert (key = k) as <- by eauto. rewrite decide_True by done. simpl. lia.
    + rewrite decide_False; [simpl; lia|]. intros <-. congruence.
  - intros g' k x. rewrite lookup_insert. case_decide; [by intros [= <- <-]|]. apply Hs.
  - done.
  - intros q Hq. apply Hf. revert Hq. apply (heap_set p q _ (locks s)). by apply (He key).
  - intros q g'. rewrite lock_at_set, lookup_insert.
    assert (holder (if decide (p = q) then {| holder := holder (lock_at (locks s) p);
      users := users (lock_at (locks s) p) + 1 |} else lock_at (locks s) q)
      = holder (lock_at (locks s) q)) as -> by (case_decide; by subst).
    rewrite Hh. case_decide as Hgg; [|done]. subst g'. split; [|naive_solver].
    intros [k Hk]. congruence.
Qed.

(** Making the lock of a user nobody uses. *)
Lemma lock_inv_new key s :
  lock_inv s → userLocks (locks s) !! key = None →
  lock_inv {| locks :=
    {| userLocks := <[key := next_lock (locks s)]> (userLocks (locks s));
       heap := <[next_lock (locks s) := {| holder := None; users := 0 |}]> (heap (locks s));
       next_lock := S (next_lock (locks s)) |}; procs := procs s |}.
Proof.
  intros Hinv Hkey. pose proof Hinv as [He Hs Ho Hf Hh].
  assert (Hnew : ∀ k p, userLocks (locks s) !! k = Some p → p ≠ next_lock (locks s)).
  { intros k p Hp ->. apply He in Hp as [Hp _]. apply Hf in Hp. lia. }
  assert (Hat : ∀ q, lock_at {| userLocks := <[key := next_lock (locks s)]> (userLocks (locks s));
       heap := <[next_lock (locks s) := {| holder := None; users := 0 |}]> (heap (locks s));
       next_lock := S (next_lock (locks s)) |} q =
       if decide (next_lock (locks s) = q) then {| holder := None; users := 0 |}
       else lock_at (locks s) q).
  { intros q. unfold lock_at; simpl. rewrite lookup_insert. by case_decide. }
  assert (Hzero : uses key (procs s) = 0%nat).
  { destruct (decide (uses key (procs s) = 0%nat)) as [|Hn]; [done|].
    unfold uses in Hn. apply map_size_non_empty_iff in Hn.
    apply map_choose in Hn as (g & [k x] & Hg).
    apply map_lookup_filter_Some in Hg as [Hg Hk]. simpl in Hk. subst k.
    apply Hs in Hg. congruence. }
  constructor; simpl.
  - intros k p. rewrite Hat, !lookup_insert. repeat case_decide; subst; try done.
    + intros _. rewrite Hzero. split; [by eexists|done].
    + intros [= <-]. done.
    + intros Hp. by destruct (Hnew k (next_lock (locks s)) Hp).
    + apply He.
  - intros g k x Hg. pose proof (Hs _ _ _ Hg). rewrite lookup_insert_ne; [done|]. congruence.
  - intros k1 k2 p. rewrite !lookup_insert. repeat case_decide; subst; try done.
    + by intros [= <-] ?%Hnew.
    + by intros ?%Hnew [= <-].
    + apply Ho.
  - intros p. rewrite lookup_insert. case_decide; [lia|]. intros Hp%Hf. lia.
  - intros p g. rewrite Hat. case_decide; [subst p|apply Hh]. simpl. split; [done|].
    intros [k Hk]. apply Hs in Hk. by apply Hnew in Hk.
Qed.

(** The mutex of a lock in use changes hands, or its count of users changes with
    the goroutines': the shape of every other step. *)
Lemma lock_inv_update s s' g key x p l :
  lock_inv s → procs s !! g = Some (key, x) → lock_of x = p →
  locks s' = set_lock p l (locks s) →
  (∃ y, procs s' = <[g := (key, y)]> (procs s) ∧ lock_of y = p ∧
        (holder l = Some g ↔ y = Holding p) ∧
        (holder l = holder (lock_at (locks s) p) ∨
         (holder l = Some g ∧ holder (lock_at (locks s) p) = None) ∨
         (holder l = None ∧ holder (lock_at (locks s) p) = Some g))) →
  users l = users (lock_at (locks s) p) →
  lock_inv s'.
Proof.
  intros Hinv Hg <- Hl (y & Hps & Hy & Hyh & Hhold) Hu. pose proof Hinv as [He Hs Ho Hf Hh].
  assert (Hp := Hs _ _ _ Hg). destruct (He _ _ Hp) as (Hlive & _).
  assert (Hsame : ∀ q, users (lock_at (locks s') q) = users (lock_at (locks s) q)).
  { intros q. rewrite Hl, lock_at_set. case_decide; by subst. }
  constructor.
  - intros k q. rewrite Hsame, Hps, Hl, (uses_update k g key x) by done. intros Hq.
    destruct (He _ _ Hq) as (? & ?). split; [|done]. by apply heap_set.
  - intros g' k z. rewrite Hps, Hl, lookup_insert. case_decide; [|apply Hs].
    intros [= <- <-]. simpl. by rewrite Hy.
  - rewrite Hl. done.
  - intros q. rewrite Hl. intros Hq. apply Hf. revert Hq. by apply heap_set.
  - intros q g'. rewrite Hl, Hps, lock_at_set, lookup_insert. case_decide as Hq; [subst q|].
    + case_decide as Hgg; [subst g'|].
      * rewrite Hyh. split; [intros ->; by exists key|]. intros [? [= _ ->]]. simpl in *. by subst.
      * rewrite <-Hh. destruct Hhold as [->|[[-> ->]|[-> ->]]]; naive_solver.
    + rewrite Hh. case_decide as Hgg; [subst g'|done]. split.
      * intros [k Hk]. rewrite Hg in Hk. simplify_eq/=.
      * intros [k [= _ ->]]. simpl in *. by subst.
Qed.

(** The last user of a lock takes its entry away. *)
Lemma lock_inv_leave s g key p :
  lock_inv s → procs s !! g = Some (key, Leaving p) →
  lock_inv {| locks := leave key p (locks s); procs := delete g (procs s) |}.
Proof.
  intros Hinv Hg. pose proof Hinv as [He Hs Ho Hf Hh].
  assert (Hp := Hs _ _ _ Hg). simpl in Hp. destruct (He _ _ Hp) as (Hlive & Hu).
  pose proof (uses_delete key g key (Leaving p) (procs s) Hg) as Huses.
  rewrite decide_True in Huses by done.
  set (n := users (lock_at (locks s) p) - 1).
  assert (Hn : n = Z.of_nat (uses key (delete g (procs s)))) by (unfold n; lia).
  assert (Hat : ∀ q, lock_at (leave key p (locks s)) q =
    if decide (p = q) then {| holder := holder (lock_at (locks s) p); users := n |}
    else lock_at (locks s) q).
  { intros q. apply (lock_at_set p q _ (locks s)). }
  assert (Hsub : ∀ k q, userLocks (leave key p (locks s)) !! k = Some q →
    userLocks (locks s) !! k = Some q).
  { intros k q. simpl. case_match; [|done]. by intros [_ ?]%lookup_delete_Some. }
  constructor; cbn [locks procs].
  - intros k q Hq. rewrite Hat. apply Hsub in Hq. destruct (He _ _ Hq) as (? & Huq). split.
    + by apply (heap_set p q _ (locks s)).
    + pose proof (uses_delete k g key (Leaving p) (procs s) Hg) as Hk.
      destruct (decide (p = q)) as [<-|Hpq]; [assert (key = k) as <- by eauto; done|].
      rewrite decide_False in Hk; [simpl in Hk; lia|]. intros <-. congruence.
  - intros g' k x [Hne Hg']%lookup_delete_Some. pose proof (Hs _ _ _ Hg') as Hk.
    simpl. fold n. destruct (Z.eqb_spec n 0) as [Hz|]; [|done].
    rewrite lookup_delete_ne; [done|]. intros <-.
    assert (0 < uses key (delete g (procs s)))%nat; [|lia].
    eapply (uses_pos key g' x). by rewrite lookup_delete_ne.
  - intros k1 k2 q H1%Hsub H2%Hsub. eauto.
  - intros q. simpl. rewrite lookup_insert. case_decide; [intros _; subst; by apply Hf|apply Hf].
  - intros q g'. rewrite Hat.
    assert (holder (if decide (p = q) then {| holder := holder (lock_at (locks s) p); users := n |}
      else lock_at (locks s) q) = holder (lock_at (locks s) q)) as -> by (case_decide; by subst).
    rewrite Hh. split; intros [k Hk]; exists k.
    + rewrite lookup_delete_ne; [done|]. intros <-. congruence.
    + by apply lookup_delete_Some in Hk as [_ ?].
Qed.

Lemma lock_step_inv s s' : lock_step s s' → lock_inv s → lock_inv s'.
Proof.
  destruct 1 as [g key s Hg|g key p l s Hg Hacq|g key p s Hg|g key p s Hg]; intros Hinv.
  - unfold enter. destruct (userLocks (locks s) !! key) as [p|] eqn:Hp; simpl.
    + by apply lock_inv_enter_some.
    + eapply (lock_inv_enter_some g key (next_lock (locks s)) {| locks := _; procs := procs s |});
        [by apply lock_inv_new|done|]. apply lookup_insert_eq.
  - unfold acquire in Hacq. destruct (holder (lock_at (locks s) p)) eqn:Hhold; [done|].
    injection Hacq as <-. eapply lock_inv_update; [done..|reflexivity|simpl|done].
    exists (Holding p). rewrite Hhold. naive_solver.
  - assert (holder (lock_at (locks s) p) = Some g) as Hhold by (apply li_holder; eauto).
    eapply lock_inv_update; [done..|reflexivity|simpl|done].
    exists (Leaving p). rewrite Hhold. naive_solver.
  - by apply lock_inv_leave.
Qed.

(** No entry without a user. *)
Definition tight (s : lock_sys) : Prop :=
  ∀ key p, userLocks (locks s) !! key = Some p → (0 < uses key (procs s))%nat.

Lemma lock_step_tight s s' : lock_step s s' → lock_inv s → tight s → tight s'.
Proof.
  destruct 1 as [g key s Hg|g key p l s Hg Hacq|g key p s Hg|g key p s Hg]; intros Hinv Ht k q;
    simpl.
  - rewrite uses_new by done. unfold enter.
    destruct (userLocks (locks s) !! key) as [p|] eqn:Hp; simpl.
    + intros Hq%Ht. lia.
    + rewrite lookup_insert. case_decide; [lia|]. intros Hq%Ht. lia.
  - rewrite (uses_update k g key (Queued p)) by done. unfold acquire in Hacq.
    case_match; [done|]. injection Hacq as <-. apply Ht.
  - rewrite (uses_update k g key (Holding p)) by done. apply Ht.
  - pose proof (li_entry _ Hinv _ _ (li_same _ Hinv _ _ _ Hg)) as [_ Hu]. simpl in Hu.
    pose proof (uses_delete k g key (Leaving p) (procs s) Hg) as Hk.
    destruct (Z.eqb_spec (users (lock_at (locks s) p) - 1) 0) as [Hz|Hz].
    + intros [Hne Hq]%lookup_delete_Some. specialize (Ht _ _ Hq).
      rewrite decide_False in Hk by done. simpl in Hk. lia.
    + intros Hq. specialize (Ht _ _ Hq). case_decide; [subst k|simpl in Hk]; lia.
Qed.

(** Two goroutines that hold the lock of one user are the same. *)
Lemma lock_inv_excl s g1 g2 key p1 p2 :
  lock_inv s → procs s !! g1 = Some (key, Holding p1) → procs s !! g2 = Some (key, Holding p2) →
  g1 = g2.
Proof.
  intros Hinv H1 H2.
  pose proof (li_same _ Hinv _ _ _ H1) as Hp1. pose proof (li_same _ Hinv _ _ _ H2) as Hp2.
  simpl in *. assert (p1 = p2) as -> by congruence.
  assert (holder (lock_at (locks s) p2) = Some g1) by (apply li_holder; eauto).
  assert (holder (lock_at (locks s) p2) = Some g2) by (apply li_holder; eauto). congruence.
Qed.

Lemma lock_reachable s : rtc lock_step lock_sys0 s → lock_inv s ∧ tight s.
Proof.
  intros Hr. apply (rtc_preserves lock_step (λ s, lock_inv s ∧ tight s) lock_sys0).
  - intros a b Hab [??]. split; eauto using lock_step_inv, lock_step_tight.
  - split; [apply lock_inv_start|]. intros k p. by simpl; rewrite lookup_empty.
  - done.
Qed.

(** (C8) The lock of a user excludes: however the goroutines of [lockUser] interleave,
    with the entries of the map deleted and made again along the way, no two of
    them hold the lock of the same user at once; and the map has an entry for a
    user exactly while some goroutine is using it, so it does not grow with the
    users ever served. *)
Theorem user_lock_excludes (s : lock_sys) (Hreach : rtc lock_step lock_sys0 s) :
  (∀ g1 g2 key p1 p2, procs s !! g1 = Some (key, Holding p1) →
     procs s !! g2 = Some (key, Holding p2) → g1 = g2) ∧
  (∀ key, is_Some (userLocks (locks s) !! key) ↔ ∃ g x, procs s !! g = Some (key, x)).
Proof.
  destruct (lock_reachable s Hreach) as [Hinv Ht]. split.
  - intros g1 g2 key p1 p2. by apply lock_inv_excl.
  - intros key. split.
    + intros [p Hp%Ht]. unfold uses in Hp.
      assert (filter (λ x, x.2.1 = key) (procs s) ≠ ∅) as Hn.
      { intros Hz. rewrite Hz, map_size_empty in Hp. lia. }
      apply map_choose in Hn as (g & [k x] & Hg). apply map_lookup_filter_Some in Hg as [Hg Hk].
      simpl in Hk. subst k. eauto.
    + intros (g & x & Hg). apply (li_same _ Hinv) in Hg. eauto.
Qed.

Lemma user_lock_excludes_witness :
  let s := {| locks := (enter "u" no_locks).2;
              procs := <[0%nat := ("u", Queued (enter "u" no_locks).1)]> ∅ |} in
  is_Some (userLocks (locks s) !! "u") ↔ ∃ g x, procs s !! g = Some ("u", x).
Proof.
  apply (user_lock_excludes {| locks := (enter "u" no_locks).2;
    procs := <[0%nat := ("u", Queued (enter "u" no_locks).1)]> ∅ |}).
  apply rtc_once. exact (l_enter 0 "u" lock_sys0 eq_refl).
Defined.
