(* ===== verification/Turn.v ===== *)
(** The wait for one's turn, [awaitTurn] of [service/reorder_turn.go].

    The loop is a machine: a state of it is a place in the code between two critical
    sections, and [await_step] runs the code up to the next one, on the tracker as
    it then is. What the code reads from outside (the clock, the node, which case of
    the [select] fires) is the input of the step, so that a run of the machine
    interleaves with whatever the other goroutines do to the tracker. *)

From S2P Require Import Prelude GoLib Config Errors Events AuditLog Client Permissioning MetaTx Tracker Handout Reorder.

Definition turnInTurn := "in_turn".
Definition turnWindowExpired := "window_expired".
Definition turnTooManyInflight := "too_many_inflight".
Definition turnClientGone := "client_gone".

Definition reorderWindow (cfg : option Config) : Z :=
  match cfg with
  | Some c => if 0 <? WindowMs (Reorder c) then duration (WindowMs (Reorder c)) millisecond
              else duration DefaultReorderWindowMs millisecond
  | None => duration DefaultReorderWindowMs millisecond
  end.

#[global] Arguments reorderWindow : simpl never.

(** The local variables of the loop: the entry in the registry, the last expected
    nonce seen, and the deadline. *)
Record waiting := {
  w_entry : option nat;
  w_last : option Z;
  w_deadline : Z;
}.

(** Where the loop is. *)
Inductive await_pc :=
  | AtTop (w : waiting)
  | AtDecide (w : waiting) (r : result error Z)
  | AtSurplus (w : waiting) (expected remaining : Z)
  | AtSleep (w : waiting) (expected remaining : Z)
  | Asleep (w : waiting) (expected : Z) (wake : nat) (until : Z)
  | AtWake (w : waiting) (expected : Z)
  | AtGone (w : waiting) (expected : Z)
  | AtRelease (w : waiting) (reason : string) (expected : Z) (ret : option error)
  | AwaitDone (ret : option error).

Inductive fired := Woken | TimerFired | ClientGone.

Record await_input := {
  in_now : Z;
  in_later : Z;
  in_node : Node;
  in_fired : fired;
}.

Section Turn.
Context `{GoUnicode} `{Geth} `{EthLib} `{PkgErrors}.
Context (c : Config) (ctx : context) (started : Z) (sender : string) (n : Z).

Abbreviation cfg := (Some c).
Abbreviation key := (senderKey sender).
Abbreviation window := (reorderWindow cfg).

(** The deadline is set when the expected nonce is first seen, and set again each
    time it advances. *)
Definition renew (now expected : Z) (w : waiting) : waiting :=
  let fresh_window :=
    match w_last w with None => true | Some last => last <? expected end in
  if fresh_window
  then {| w_entry := w_entry w; w_last := Some expected; w_deadline := now + window |}
  else w.

Definition held_event (expected : Z) : emission :=
  Info ctx "relay.held"
    (<["nonce" := VInt n]> (<["expected" := VInt expected]>
     (<["gap" := VInt (u64 (n - expected))]> (<["windowMs" := VInt (window / millisecond)]> ∅)))).

Definition turn_event (reason : string) (expected now : Z) : emission :=
  Info ctx "relay.turn"
    (<["heldMs" := VInt ((now - started) / millisecond)]> (<["reason" := VStr reason]>
     (<["nonce" := VInt n]> (<["expected" := VInt expected]> ∅)))).

Definition client_gone_error : error :=
  Reject (Errors.New "the client closed the connection while the metatx waited for its turn" (-32000))
    CodeRelayError.

(** The entry is taken the first time the metatx has to wait. *)
Definition hold_once (w : waiting) (expected : Z) (s : Tracker) :
    waiting * Tracker * list emission :=
  match w_entry w with
  | Some _ => (w, s, [])
  | None =>
      let '(p, s) := hold key n s in
      ({| w_entry := Some p; w_last := w_last w; w_deadline := w_deadline w |}, s,
       [held_event expected])
  end.

(** A timer fires no earlier than it is set for; a closed channel is always ready. *)
Definition await_step (i : await_input) (pc : await_pc) (s : Tracker) :
    option (await_pc * Tracker * list emission) :=
  match pc with
  | AtTop w =>
      let '(r, s) := expectedNonce c (in_now i) (in_node i) sender s in
      Some (AtDecide w r, s, [])
  | AtDecide w (Err e) =>
      Some (AtRelease w turnWindowExpired 0 (Some (Reject e CodeRelayError)), s, [])
  | AtDecide w (Ok expected) =>
      if n <=? expected then Some (AtRelease w turnInTurn expected None, s, [])
      else
        let '(w, s, log) := hold_once w expected s in
        let w := renew (in_now i) expected w in
        let remaining := w_deadline w - in_later i in
        if remaining <=? 0 then Some (AtRelease w turnWindowExpired expected None, s, log)
        else Some (AtSurplus w expected remaining, s, log)
  | AtSurplus w expected remaining =>
      match w_entry w with
      | None => None
      | Some p =>
          let '((inflight, surplus), s) := surplusHeld cfg (in_now i) key p s in
          if surplus : bool then
            Some (AtRelease w turnTooManyInflight expected
                    (Some (tooManyInflight inflight (maxInflightPerUser cfg))), s, [])
          else Some (AtSleep w expected remaining, s, [])
      end
  | AtSleep w expected remaining =>
      match w_entry w with
      | None => None
      | Some p =>
          let '(wake, h) := Held.waitTurnLocked p (hld s) in
          Some (Asleep w expected wake (in_now i + remaining), set_hld h s, [])
      end
  | Asleep w expected wake until =>
      match in_fired i with
      | Woken => if decide (wake ∈ Held.closed (hld s)) then Some (AtWake w expected, s, []) else None
      | TimerFired => if until <=? in_now i then Some (AtWake w expected, s, []) else None
      | ClientGone => Some (AtGone w expected, s, [])
      end
  | AtGone w expected =>
      match w_entry w with
      | None => None
      | Some p =>
          Some (AtRelease w turnClientGone expected (Some client_gone_error),
                set_hld (Held.stopWaitingLocked p (hld s)) s, [])
      end
  | AtWake w expected =>
      match w_entry w with
      | None => None
      | Some p =>
          let s := set_hld (Held.stopWaitingLocked p (hld s)) s in
          let evicted := Held.evicted (Held.at_ (hld s) p) in
          let '(inflight, s) := inflightLocked cfg (in_now i) key s in
          let inflight := if evicted then Held.evictedInflight (Held.at_ (hld s) p)
                          else inflight in
          if evicted : bool then
            Some (AtRelease w turnTooManyInflight expected
                    (Some (tooManyInflight inflight (maxInflightPerUser cfg))), s, [])
          else Some (AtTop w, s, [])
      end
  | AtRelease w reason expected ret =>
      match w_entry w with
      | None => Some (AwaitDone ret, s, [])
      | Some p => Some (AwaitDone ret, unhold key p s, [turn_event reason expected (in_now i)])
      end
  | AwaitDone _ => None
  end.

Definition await_start (now : Z) : await_pc :=
  AtTop {| w_entry := None; w_last := None; w_deadline := now + window |}.

(** ** The window measures stagnation *)

(** The readings of the expected nonce that a wait makes, each with its instant. *)
Definition readings (w : waiting) (l : list (Z * Z)) : waiting :=
  foldl (λ w '(t, e), renew t e w) w l.

(** A reading that advances the expected nonce beyond all those before it. *)
Definition advances (before : list (Z * Z)) (e : Z) : Prop := ∀ t' e', (t', e') ∈ before → e' < e.

(** After any readings, the deadline is one window past the last of them that
    advanced. *)
Lemma readings_deadline w0 l :
  w_last w0 = None → l ≠ [] →
  ∃ l1 t e l2, l = l1 ++ (t, e) :: l2 ∧ advances l1 e ∧
    w_deadline (readings w0 l) = t + window ∧ (∀ t' e', (t', e') ∈ l2 → e' ≤ e) ∧
    w_last (readings w0 l) = Some e.
Proof.
  intros Hnone. induction l as [|[t e] l IH] using rev_ind; [done|]. intros _.
  unfold readings. rewrite foldl_snoc. fold (readings w0 l).
  destruct (decide (l = [])) as [->|Hne].
  - simpl. exists [], t, e, []. unfold renew, advances. rewrite Hnone. simpl. split_and!; try done; set_solver.
  - destruct (IH Hne) as (l1 & t1 & e1 & l2 & -> & Hadv & Hd & Hle & Hlast).
    unfold renew. rewrite Hlast. destruct (Z.ltb_spec e1 e); simpl.
    + exists (l1 ++ (t1, e1) :: l2), t, e, []. split_and!; [done| |done|set_solver|done].
      intros t' e' [Hin|[[= -> ->]|Hin]%elem_of_cons]%elem_of_app; [|done|].
      * specialize (Hadv _ _ Hin). lia.
      * specialize (Hle _ _ Hin). lia.
    + exists l1, t1, e1, (l2 ++ [(t, e)]). split_and!; auto; [by rewrite <-app_assoc|].
      intros t' e' [Hin|[= -> ->]%list_elem_of_singleton]%elem_of_app; [by eapply Hle|done].
Qed.

Lemma readings_entry w l : w_entry (readings w l) = w_entry w.
Proof.
  revert w. induction l as [|[t e] l IH]; intros w; simpl; [done|].
  rewrite IH. unfold renew. repeat case_match; done.
Qed.

(** (C20) The window measures stagnation, not the total wait: a metatx whose turn has not
    come is given up for expired exactly when a whole window has gone by since the
    last reading in which the expected nonce of its user had advanced; so it can
    wait any time in a burst that keeps advancing, and a metatx whose nonce the
    expected one has reached always ends its wait in turn, never expired. *)
Theorem window_measures_stagnation (w0 : waiting) (l : list (Z * Z)) (i : await_input)
    (expected : Z) (s : Tracker) (p : nat)
    (Hw0 : w_last w0 = None) (Hentry : w_entry w0 = Some p) :
  let w := readings w0 l in
  let all := l ++ [(in_now i, expected)] in
  (n ≤ expected →
     await_step i (AtDecide w (Ok expected)) s = Some (AtRelease w turnInTurn expected None, s, [])) ∧
  (expected < n → ∃ l1 t e l2,
     all = l1 ++ (t, e) :: l2 ∧ advances l1 e ∧ (∀ t' e', (t', e') ∈ l2 → e' ≤ e) ∧
     let w' := renew (in_now i) expected w in
     await_step i (AtDecide w (Ok expected)) s =
       if t + window <=? in_later i
       then Some (AtRelease w' turnWindowExpired expected None, s, [])
       else Some (AtSurplus w' expected (t + window - in_later i), s, [])).
Proof.
  simpl. split.
  - intros Hle. unfold await_step. by replace (n <=? expected) with true by lia.
  - intros Hlt. unfold await_step. replace (n <=? expected) with false by lia.
    destruct (readings_deadline w0 (l ++ [(in_now i, expected)]) Hw0) as
      (l1 & t & e & l2 & Hall & Hadv & Hd & Hle & _); [by destruct l|].
    exists l1, t, e, l2. split_and!; [done|done|done|].
    unfold readings in Hd. rewrite foldl_snoc in Hd. fold (readings w0 l) in Hd.
    unfold hold_once. rewrite readings_entry, Hentry, Hd.
    destruct (Z.leb_spec (t + window) (in_later i)).
    + by replace (t + window - in_later i <=? 0) with true by lia.
    + by replace (t + window - in_later i <=? 0) with false by lia.
Qed.
End Turn.

Definition sample_input : await_input :=
  {| in_now := 5000000000; in_later := 5000000001; in_node := sample_node; in_fired := Woken |}.

Lemma window_measures_stagnation_witness :
  let w0 := {| w_entry := Some 0%nat; w_last := None; w_deadline := 0 |} in
  let w := readings sample_config w0 [(0, 3)] in
  @await_step sample_unicode sample_geth sample_eth sample_errors sample_config background 0 "u" 9
    sample_input (AtDecide w (Ok 9)) empty_tracker
  = Some (AtRelease w turnInTurn 9 None, empty_tracker, []).
Proof.
  apply (@window_measures_stagnation sample_unicode sample_geth sample_eth sample_errors
    sample_config background 0 "u" 9 {| w_entry := Some 0%nat; w_last := None; w_deadline := 0 |}
    [(0, 3)] sample_input 9 empty_tracker 0); [reflexivity | reflexivity | lia].
Defined.
