(* ===== verification/Correlation.v ===== *)
(** The memory of what was sent, [service/correlation.go], with the two critical
    sections of [service/settle.go] that go through it.

    By the hash of the wrapping transaction, it remembers which metatx it carries:
    the identifiers of the request that relayed it, and the user and chain whose
    place is to be given back when its result is known. Each operation is one
    critical section of [metaTxLock]. Instants count from the zero [time.Time], so
    that [IsZero] is being zero. The order in which Go walks a map is not
    specified, so it is an argument of the one operation that depends on it. *)

From S2P Require Import Prelude GoLib Errors Events AuditLog.

Definition metaTxMemoryTTL : Z := 600 * second.
Definition metaTxMemoryMax : Z := 4096.

Record metaTxEntry := {
  reqID : string;
  metaTxID : string;
  rememberedAt : Z;
  e_senderKey : string;
  e_chain : option nat;
  settled : bool;
}.

Abbreviation memory := (gmap hash metaTxEntry).

Definition too_old (now : Z) (e : metaTxEntry) : bool := metaTxMemoryTTL <? now - rememberedAt e.

(** ** The operations *)

(** The first loop of [evictLocked]: everything expired goes. *)
Definition purge (now : Z) (m : memory) : memory :=
  filter (λ x, too_old now x.2 = false) m.

(** The second loop: the oldest entry, the first met among equals. *)
Definition oldest_of (order : list hash) (m : memory) : Z * hash :=
  foldl (λ '(oldest, oldestHash) h,
    match m !! h with
    | None => (oldest, oldestHash)
    | Some e =>
        if (oldest =? 0) || (rememberedAt e <? oldest) then (rememberedAt e, h)
        else (oldest, oldestHash)
    end) (0, zero_hash) order.

Definition evictLocked (now : Z) (order : list hash) (m : memory) : memory :=
  let m := purge now m in
  if Z.of_nat (base.size m) <? metaTxMemoryMax then m
  else delete (oldest_of order m).2 m.

Definition rememberMetaTx (now : Z) (order : list hash) (ctx : context) (h : hash)
    (senderKey : string) (chain : option nat) (m : memory) : memory :=
  let id := MetaTxID ctx in
  if bool_decide (id = "") && bool_decide (chain = None) then m
  else
    <[h := {| reqID := RequestID ctx; metaTxID := id; rememberedAt := now;
              e_senderKey := senderKey; e_chain := chain; settled := false |}]>
      (evictLocked now order m).

Definition recallMetaTx (now : Z) (ctx : context) (h : hash) (m : memory) : context * memory :=
  match m !! h with
  | None => (ctx, m)
  | Some e =>
      if too_old now e then (ctx, delete h m)
      else
        let ctx := if decide (reqID e = "") then ctx else WithRequestID ctx (reqID e) in
        (WithMetaTxID ctx (metaTxID e), m)
  end.

Definition forgetMetaTx (h : hash) (m : memory) : memory := delete h m.

Definition mark_settled (e : metaTxEntry) : metaTxEntry :=
  {| reqID := reqID e; metaTxID := metaTxID e; rememberedAt := rememberedAt e;
     e_senderKey := e_senderKey e; e_chain := e_chain e; settled := true |}.

Definition claimSettled (h : hash) (m : memory) : bool * memory :=
  match m !! h with
  | None => (true, m)
  | Some e => if settled e then (false, m) else (true, <[h := mark_settled e]> m)
  end.

Definition without_chain (e : metaTxEntry) : metaTxEntry :=
  {| reqID := reqID e; metaTxID := metaTxID e; rememberedAt := rememberedAt e;
     e_senderKey := e_senderKey e; e_chain := None; settled := settled e |}.

(** The critical section of [releaseSent]: the user and chain of the entry, which
    it holds no longer. *)
Definition takeChain (h : hash) (m : memory) : string * option nat * memory :=
  match m !! h with
  | None => ("", None, m)
  | Some e => (e_senderKey e, e_chain e, <[h := without_chain e]> m)
  end.

(** The critical section of [inFlight] of [service/watcher.go]. *)
Definition unresolved (e : metaTxEntry) : bool :=
  negb (settled e) && bool_decide (is_Some (e_chain e)).

(** ** What eviction takes *)

Lemma lookup_purge now m h e :
  purge now m !! h = Some e ↔ m !! h = Some e ∧ too_old now e = false.
Proof. unfold purge. apply map_lookup_filter_Some. Qed.

(** The fold keeps the least instant seen, and a hash that has it. *)
Lemma oldest_of_spec m order :
  (∀ h e, m !! h = Some e → 0 < rememberedAt e) →
  let '(t, h) := oldest_of order m in
  (t = 0 ∧ (∀ h', h' ∈ order → m !! h' = None)) ∨
  (∃ e, m !! h = Some e ∧ rememberedAt e = t ∧
     ∀ h' e', h' ∈ order → m !! h' = Some e' → t ≤ rememberedAt e').
Proof.
  intros Hpos. unfold oldest_of. induction order as [|h0 order IH] using rev_ind.
  { left. split; [done|]. intros h'. by rewrite elem_of_nil. }
  rewrite foldl_snoc. destruct (foldl _ _ order) as [t h].
  destruct (m !! h0) as [e0|] eqn:Hh0.
  - pose proof (Hpos _ _ Hh0).
    assert (∀ (P : Z * hash → Prop), ((t =? 0) || (rememberedAt e0 <? t) = true → P (rememberedAt e0, h0)) →
      ((t =? 0) || (rememberedAt e0 <? t) = false → P (t, h)) →
      P (if (t =? 0) || (rememberedAt e0 <? t) then (rememberedAt e0, h0) else (t, h))) as Hif
      by (intros P; destruct (_ || _); auto).
    apply (Hif (λ '(t, h), _)); clear Hif; intros Hb; right.
    + exists e0. split_and!; [done|done|].
      intros h' e' [Hin| ->%list_elem_of_singleton]%elem_of_app He'; [|by simplify_eq].
      destruct IH as [[-> Hno]|(e & He & <- & Hle)]; [by rewrite Hno in He'|].
      pose proof (Hpos _ _ He). specialize (Hle _ _ Hin He'). lia.
    + destruct IH as [[-> Hno]|(e & He & <- & Hle)]; [done|].
      exists e. split_and!; [done|done|].
      intros h' e' [Hin| ->%list_elem_of_singleton]%elem_of_app He'; [by eapply Hle|].
      simplify_eq. lia.
  - destruct IH as [[-> Hno]|(e & He & <- & Hle)].
    + left. split; [done|]. intros h' [Hin| ->%list_elem_of_singleton]%elem_of_app; auto.
    + right. exists e. split_and!; [done|done|].
      intros h' e' [Hin| ->%list_elem_of_singleton]%elem_of_app He'; [by eapply Hle|].
      congruence.
Qed.

(** A walk of the map meets every key of it. *)
Definition walks (order : list hash) (m : memory) : Prop := ∀ h, is_Some (m !! h) → h ∈ order.

(** Entries are anchored at instants after the zero one. *)
Definition anchored (m : memory) : Prop := ∀ h e, m !! h = Some e → 0 < rememberedAt e.

(** What eviction keeps is what was there, it makes room, and it gives up nothing
    but what has expired and, when that makes no room, one entry no younger than
    any other. *)
Lemma evictLocked_spec now order m :
  anchored m → walks order (purge now m) →
  let m' := evictLocked now order m in
  m' ⊆ m ∧
  (Z.of_nat (base.size m) ≤ metaTxMemoryMax → Z.of_nat (base.size m') < metaTxMemoryMax) ∧
  ∀ h e, m !! h = Some e → too_old now e = false →
    m' !! h = Some e ∨
    metaTxMemoryMax ≤ Z.of_nat (base.size (purge now m)) ∧
    ∀ h' e', purge now m !! h' = Some e' → rememberedAt e ≤ rememberedAt e'.
Proof.
  intros Hpos Hwalk. simpl. unfold evictLocked.
  assert (purge now m ⊆ m) as Hsub by apply map_filter_subseteq.
  destruct (Z.ltb_spec (Z.of_nat (base.size (purge now m))) metaTxMemoryMax) as [Hroom|Hfull].
  { split_and!; [done|done|]. intros h e He Hyoung. left. by apply lookup_purge. }
  pose proof (oldest_of_spec (purge now m) order) as Hold.
  destruct (oldest_of order (purge now m)) as [t h0]. simpl.
  destruct Hold as [[_ Hno]|(e0 & He0 & Ht & Hmin)].
  { intros h e [He _]%lookup_purge. eauto. }
  { assert (purge now m = ∅) as Hz.
    { apply map_eq. intros h. rewrite lookup_empty.
      destruct (purge now m !! h) as [e|] eqn:He; [|done].
      rewrite Hno in He by (apply Hwalk; eauto). done. }
    rewrite Hz, map_size_empty in Hfull. unfold metaTxMemoryMax in Hfull. lia. }
  split_and!.
  - etrans; [apply delete_subseteq | done].
  - intros Hsize. pose proof (map_subseteq_size _ _ Hsub).
    rewrite map_size_delete_Some by eauto. unfold metaTxMemoryMax in *.
    assert (base.size (purge now m) ≠ 0%nat) by lia. lia.
  - intros h e He Hyoung. destruct (decide (h = h0)) as [->|Hne].
    + right. split; [done|]. intros h' e' He'.
      assert (e = e0) as -> by (apply lookup_purge in He0; destruct He0; congruence).
      rewrite Ht. eapply Hmin; [apply Hwalk; eauto|done].
    + left. rewrite lookup_delete_ne by done. by apply lookup_purge.
Qed.

(** ** The memory as the goroutines use it *)

Inductive memory_op :=
  | Remember (now : Z) (order : list hash) (ctx : context) (h : hash) (key : string)
      (chain : option nat)
  | Recall (now : Z) (ctx : context) (h : hash)
  | Forget (h : hash)
  | Claim (h : hash)
  | TakeChain (h : hash).

Definition apply_op (op : memory_op) (m : memory) : memory :=
  match op with
  | Remember now order ctx h key chain => rememberMetaTx now order ctx h key chain m
  | Recall now ctx h => (recallMetaTx now ctx h m).2
  | Forget h => forgetMetaTx h m
  | Claim h => (claimSettled h m).2
  | TakeChain h => (takeChain h m).2
  end.

(** What a walk and the clock give every operation. *)
Definition op_ok (op : memory_op) (m : memory) : Prop :=
  match op with
  | Remember now order _ _ _ _ => 0 < now ∧ walks order (purge now m)
  | _ => True
  end.

Inductive memory_step : memory → memory → Prop :=
  | step_memory op m : op_ok op m → memory_step m (apply_op op m).

Definition memory_ok (m : memory) : Prop :=
  anchored m ∧ Z.of_nat (base.size m) ≤ metaTxMemoryMax.

Lemma anchored_sub m m' : m' ⊆ m → anchored m → anchored m'.
Proof. intros Hsub Ha h e He. eapply Ha, lookup_weaken; eauto. Qed.

Lemma memory_ok_delete h m : memory_ok m → memory_ok (delete h m).
Proof.
  intros [Ha Hs]. split; [by eapply anchored_sub; [apply delete_subseteq|]|].
  pose proof (map_subseteq_size _ _ (delete_subseteq m h)). lia.
Qed.

Lemma memory_ok_update h e e' m :
  m !! h = Some e → rememberedAt e' = rememberedAt e → memory_ok m → memory_ok (<[h := e']> m).
Proof.
  intros He Heq [Ha Hs]. split.
  - intros h0 e0. rewrite lookup_insert. case_decide; [intros [= <-]; rewrite Heq|]; eauto.
  - rewrite map_size_insert_Some; eauto.
Qed.

Lemma memory_step_ok m m' : memory_step m m' → memory_ok m → memory_ok m'.
Proof.
  destruct 1 as [op m Hok]. intros Hm. destruct op as [now order ctx h key chain| | | |]; simpl.
  - destruct Hok as [Hnow Hwalk], Hm as [Ha Hs]. unfold rememberMetaTx. case_match; [by split|].
    destruct (evictLocked_spec now order m Ha Hwalk) as (Hsub & Hsize & _). split.
    + intros h0 e0. rewrite lookup_insert. destruct (decide (h = h0)) as [_|_].
      { intros He. by injection He as <-. }
      intros He. by eapply (anchored_sub m).
    + rewrite map_size_insert. specialize (Hsize Hs).
      destruct (evictLocked now order m !! h); simpl; lia.
  - unfold recallMetaTx. repeat case_match; simpl; auto using memory_ok_delete.
  - by apply memory_ok_delete.
  - unfold claimSettled. repeat case_match; simpl; auto. by eapply memory_ok_update.
  - unfold takeChain. case_match; simpl; auto. by eapply memory_ok_update.
Qed.

Lemma rememberMetaTx_lookup now order ctx h key chain m :
  MetaTxID ctx ≠ "" ∨ chain ≠ None →
  rememberMetaTx now order ctx h key chain m !! h =
    Some {| reqID := RequestID ctx; metaTxID := MetaTxID ctx; rememberedAt := now;
            e_senderKey := key; e_chain := chain; settled := false |}.
Proof.
  intros Hid. unfold rememberMetaTx.
  destruct (bool_decide (MetaTxID ctx = "") && bool_decide (chain = None)) eqn:Hb.
  - apply andb_true_iff in Hb as [?%bool_decide_eq_true ?%bool_decide_eq_true]. naive_solver.
  - apply lookup_insert_eq.
Qed.

(** (C23) A burst, however long, does not make the memory grow: after any sequence of its
    operations it holds no more than [metaTxMemoryMax] metatx. Remembering a metatx that
    has an identifier or a chain leaves its entry, new, whatever the hash had before;
    with neither, there is nothing to remember and nothing changes. And what is given up
    to make room is the oldest: every other one that had not expired stays where it was,
    unless the memory is full, and then the one that goes is no younger than any. *)
Theorem memory_is_bounded (m : memory) (now : Z) (order : list hash) (ctx : context) (h : hash)
    (key : string) (chain : option nat)
    (Hreach : rtc memory_step ∅ m) (Hnow : 0 < now) (Hwalk : walks order (purge now m)) :
  let m' := rememberMetaTx now order ctx h key chain m in
  Z.of_nat (base.size m') ≤ metaTxMemoryMax ∧
  (MetaTxID ctx ≠ "" ∨ chain ≠ None →
     m' !! h = Some {| reqID := RequestID ctx; metaTxID := MetaTxID ctx; rememberedAt := now;
                       e_senderKey := key; e_chain := chain; settled := false |}) ∧
  (MetaTxID ctx = "" → chain = None → m' = m) ∧
  ∀ h' e, h' ≠ h → m !! h' = Some e → too_old now e = false →
    m' !! h' = Some e ∨
    metaTxMemoryMax ≤ Z.of_nat (base.size (purge now m)) ∧
    ∀ h'' e'', purge now m !! h'' = Some e'' → rememberedAt e ≤ rememberedAt e''.
Proof.
  assert (memory_ok m) as Hok.
  { eapply (rtc_preserves memory_step memory_ok ∅ m); [apply memory_step_ok| |done].
    split; [by intros h0 e0; rewrite lookup_empty | by rewrite map_size_empty]. }
  split_and!.
  - eapply (memory_step_ok m _ (step_memory (Remember now order ctx h key chain) m (conj Hnow Hwalk))), Hok.
  - apply rememberMetaTx_lookup.
  - intros Hid Hc. unfold rememberMetaTx. by rewrite !bool_decide_true.
  - intros h' e Hne He Hyoung.
    destruct (evictLocked_spec now order m (proj1 Hok) Hwalk) as (_ & _ & Hkeep).
    unfold rememberMetaTx. case_match; [by left|].
    rewrite lookup_insert_ne by done. by apply Hkeep.
Qed.

(** ** The events of a metatx keep its identifiers *)

(** What the other goroutines do meanwhile, as long as the hash is not given up. *)
Definition keeps (h : hash) (op : memory_op) (m : memory) : Prop :=
  match op with
  | Remember _ _ _ h' _ _ => h' ≠ h
  | _ => True
  end ∧ is_Some (apply_op op m !! h).

Lemma keeps_same h op m e :
  keeps h op m → m !! h = Some e →
  ∃ e', apply_op op m !! h = Some e' ∧ reqID e' = reqID e ∧ metaTxID e' = metaTxID e ∧
        rememberedAt e' = rememberedAt e ∧ e_senderKey e' = e_senderKey e ∧
        (settled e' = settled e ∨ op = Claim h ∧ settled e' = true).
Proof.
  intros [Hne [e' He']] He. exists e'. split; [done|].
  destruct op as [now order ctx h' key chain|now ctx h'|h'|h'|h']; simpl in *.
  - unfold rememberMetaTx in He'. case_match; [simplify_eq; auto 10|].
    rewrite lookup_insert_ne in He' by done.
    assert (evictLocked now order m ⊆ m) as Hsub.
    { unfold evictLocked. assert (purge now m ⊆ m) by apply map_filter_subseteq.
      case_match; [done|]. etrans; [apply delete_subseteq|done]. }
    eapply lookup_weaken in He'; [|done]. simplify_eq. auto 10.
  - unfold recallMetaTx in He'. repeat case_match; simplify_eq/=; auto 10.
    apply lookup_delete_Some in He' as [_ He']. simplify_eq. auto 10.
  - unfold forgetMetaTx in He'. apply lookup_delete_Some in He' as [_ He']. simplify_eq. auto 10.
  - unfold claimSettled in He'. destruct (m !! h') as [e0|] eqn:He0; [|simplify_eq/=; auto 10].
    destruct (settled e0) eqn:Hset; simpl in He'; [simplify_eq; auto 10|].
    apply lookup_insert_Some in He' as [[-> <-]|[_ He']]; simplify_eq/=; auto 10.
  - unfold takeChain in He'. destruct (m !! h') as [e0|] eqn:He0; [|simplify_eq/=; auto 10].
    simpl in He'. apply lookup_insert_Some in He' as [[-> <-]|[_ He']]; simplify_eq/=; auto 10.
Qed.

(** A run of operations, with the memory each one finds. *)
Inductive runs (P : memory_op → memory → Prop) : list memory_op → memory → memory → Prop :=
  | runs_nil m : runs P [] m m
  | runs_cons op ops m m' : P op m → runs P ops (apply_op op m) m' → runs P (op :: ops) m m'.

(** The answers a run gives to those that ask to register the closing of [h]. *)
Fixpoint claims (h : hash) (ops : list memory_op) (m : memory) : list bool :=
  match ops with
  | [] => []
  | op :: ops =>
      match op with
      | Claim h' => if decide (h' = h) then [(claimSettled h m).1] else []
      | _ => []
      end ++ claims h ops (apply_op op m)
  end.

Lemma claims_settled h ops m m' e :
  runs (keeps h) ops m m' → m !! h = Some e → settled e = true →
  Forall (λ b, b = false) (claims h ops m).
Proof.
  intros Hruns. revert e. induction Hruns as [|op ops m m' Hk Hruns IH]; intros e He Hset;
    simpl; [constructor|].
  destruct (keeps_same h op m e Hk He) as (e' & He' & _ & _ & _ & _ & Hs).
  apply Forall_app. split; [|eapply IH; [done|naive_solver]].
  destruct op; try constructor. case_decide; [subst|done].
  constructor; [|done]. unfold claimSettled. by rewrite He, Hset.
Qed.

Lemma claims_once h ops m m' e :
  runs (keeps h) ops m m' → m !! h = Some e → settled e = false →
  claims h ops m = [] ∨ ∃ rest, claims h ops m = true :: rest ∧ Forall (λ b, b = false) rest.
Proof.
  intros Hruns. revert e. induction Hruns as [|op ops m m' Hk Hruns IH]; intros e He Hset;
    simpl; [by left|].
  destruct (keeps_same h op m e Hk He) as (e' & He' & _ & _ & _ & _ & Hs).
  destruct Hs as [Hs|[-> Hs]].
  - destruct op as [| | |h'|]; try (eapply IH; [done|congruence]).
    destruct (decide (h' = h)) as [->|]; [|eapply IH; [done|congruence]].
    exfalso. simpl in He'. unfold claimSettled in He'. rewrite He, Hset in He'. simpl in He'.
    rewrite lookup_insert_eq in He'. injection He' as <-. simpl in Hs. congruence.
  - right. rewrite decide_True by done. eexists. split.
    + unfold claimSettled at 1. by rewrite He, Hset.
    + by eapply claims_settled.
Qed.

Lemma keeps_ids h ops m m' e :
  runs (keeps h) ops m m' → m !! h = Some e →
  ∃ e', m' !! h = Some e' ∧ reqID e' = reqID e ∧ metaTxID e' = metaTxID e ∧
        rememberedAt e' = rememberedAt e.
Proof.
  intros Hruns. revert e. induction Hruns as [|op ops m m' Hk Hruns IH]; intros e He; [eauto 10|].
  destruct (keeps_same h op m e Hk He) as (e1 & He1 & H1 & H2 & H3 & _).
  destruct (IH e1 He1) as (e2 & He2 & H4 & H5 & H6). exists e2. split_and!; congruence.
Qed.

(** (C24) One closing per metatx, and under its own identifiers. Whatever the goroutines do
    after a metatx is remembered (the watcher, the client's queries, other sends),
    while its entry is there: of all those that ask to register its closing, the
    first is told yes and the others no; and whoever recalls it within the time to
    live, from whatever request, gets a context with the identifiers of the request
    that relayed it. *)
Theorem closing_is_registered_once (now : Z) (order : list hash) (ctx : context) (h : hash)
    (key : string) (chain : option nat) (m m' : memory) (ops : list memory_op)
    (Hid : MetaTxID ctx ≠ "" ∨ chain ≠ None)
    (Hruns : runs (keeps h) ops (rememberMetaTx now order ctx h key chain m) m') :
  (claims h ops (rememberMetaTx now order ctx h key chain m) = [] ∨
   ∃ rest, claims h ops (rememberMetaTx now order ctx h key chain m) = true :: rest ∧
     Forall (λ b, b = false) rest) ∧
  ∀ later asking, later - now ≤ metaTxMemoryTTL →
    let '(ctx', m'') := recallMetaTx later asking h m' in
    m'' = m' ∧ MetaTxID ctx' = MetaTxID ctx ∧
    RequestID ctx' = (if decide (RequestID ctx = "") then RequestID asking else RequestID ctx).
Proof.
  pose proof (rememberMetaTx_lookup now order ctx h key chain m Hid) as He. split.
  - by eapply claims_once.
  - intros later asking Hlate.
    destruct (keeps_ids _ _ _ _ _ Hruns He) as (e & He' & Hr & Ht & Hat). simpl in *.
    unfold recallMetaTx. rewrite He'. unfold too_old. rewrite Hat.
    destruct (Z.ltb_spec metaTxMemoryTTL (later - now)); [lia|].
    rewrite Hr, Ht. split_and!; [done|done|]. by case_decide.
Qed.

(** A metatx relayed by the request ["r1"], and the memory after it. *)
Definition sample_ctx : context :=
  {| cx_request := Some "r1"; cx_metatx := Some "m1"; cx_done := false |}.
Definition sample_hash : hash := replicate 32 7.
Definition sample_memory : memory :=
  rememberMetaTx 1000 [] sample_ctx sample_hash "0xab" (Some 0%nat) ∅.

Lemma memory_is_bounded_witness :
  let m' := rememberMetaTx 2000 [sample_hash] sample_ctx zero_hash "0xcd" None sample_memory in
  Z.of_nat (base.size m') ≤ metaTxMemoryMax ∧ base.size m' = 2%nat ∧
  rememberedAt <$> m' !! zero_hash = Some 2000.
Proof.
  assert (Hreach : rtc memory_step ∅ sample_memory).
  { apply rtc_once.
    apply (step_memory (Remember 1000 [] sample_ctx sample_hash "0xab" (Some 0%nat)) ∅).
    split; [done|]. intros h. change (purge 1000 ∅) with (∅ : memory).
    rewrite lookup_empty. by intros []. }
  assert (Hwalk : walks [sample_hash] (purge 2000 sample_memory)).
  { intros h [e He%lookup_purge]. destruct He as [He _]. unfold sample_memory, rememberMetaTx in He.
    simpl in He. apply lookup_insert_Some in He as [[<- _]|[_ He]]; [by apply list_elem_of_singleton|].
    exfalso. revert He. change (evictLocked 1000 [] ∅) with (∅ : memory). by rewrite lookup_empty. }
  destruct (memory_is_bounded sample_memory 2000 [sample_hash] sample_ctx zero_hash "0xcd" None
    Hreach ltac:(lia) Hwalk) as (Hsize & Hnew & _).
  split_and!; [exact Hsize|by vm_compute|]. rewrite Hnew by (left; vm_compute; discriminate). done.
Defined.

Lemma closing_is_registered_once_witness :
  claims sample_hash [Claim sample_hash; Claim sample_hash] sample_memory = [true; false].
Proof.
  destruct (closing_is_registered_once 1000 [] sample_ctx sample_hash "0xab" (Some 0%nat) ∅
    (apply_op (Claim sample_hash) (apply_op (Claim sample_hash) sample_memory))
    [Claim sample_hash; Claim sample_hash]) as [_ _]; [by right| |by vm_compute].
  apply runs_cons; [split; [done|]; eexists; vm_compute; reflexivity|].
  apply runs_cons; [split; [done|]; eexists; vm_compute; reflexivity|].
  apply runs_nil.
Defined.
