(* ===== verification/Gas.v ===== *)
(** The quota of gas of a block, in [service/relaySignerService.go]: the global
    counter [GAS_LIMIT], a [uint64] that every check adds to and every block sets
    back to zero. *)

From S2P Require Import Prelude GoLib Config Errors Client.

(** ** The counter *)

Definition increment (gasLimit counter : Z) : Z := u64 (counter + gasLimit).
Definition decrement (counter : Z) : Z := 0.

Section Gas.
Context `{Geth} `{EthLib} `{PkgErrors} (c : Config).

(** The check, and the counter after it. What the code dereferences without asking
    makes it panic: a key that does not parse (the error is logged and the check
    goes on), a hub that was not resolved, a limit the node did not give; the
    counter has already moved when the last of them does. *)
Definition VerifyGasLimit (node : Node) (gasLimit counter : Z) :
    outcome (result error bool) * Z :=
  match Connect node (NodeURL (Application c)) with
  | Err e => (Returns (Err e), counter)
  | Ok _ =>
      match HexToECDSA (Key (Application c)) with
      | Err _ => (Panics "nil *ecdsa.PrivateKey", counter)
      | Ok key =>
          match RelayHubContractAddress (Application c) with
          | None => (Panics "nil *common.Address", counter)
          | Some hub =>
              match GetNodeGasLimit node hub (PubkeyToAddress key) with
              | Err e => (Returns (Err e), counter)
              | Ok current =>
                  let counter := increment gasLimit counter in
                  match current with
                  | None => (Panics "nil *big.Int", counter)
                  | Some limit =>
                      (Returns (Ok (if u64 limit <? counter then false else true)), counter)
                  end
              end
          end
      end
  end.

(** ** Between two blocks *)

(** The reading in which the node answers the check with this limit. *)
Definition answers_limit (node : Node) (limit : Z) : Prop :=
  is_ok (Connect node (NodeURL (Application c))) = true ∧
  ∃ key hub, HexToECDSA (Key (Application c)) = Ok key ∧
    RelayHubContractAddress (Application c) = Some hub ∧
    GetNodeGasLimit node hub (PubkeyToAddress key) = Ok (Some limit).

Lemma VerifyGasLimit_answered node limit gasLimit counter :
  answers_limit node limit →
  VerifyGasLimit node gasLimit counter =
    (Returns (Ok (increment gasLimit counter <=? u64 limit)), increment gasLimit counter).
Proof.
  intros (Hc & key & hub & Hk & Hh & Hl). unfold VerifyGasLimit.
  destruct (Connect node _); [|done]. rewrite Hk, Hh, Hl.
  destruct (Z.ltb_spec (u64 limit) (increment gasLimit counter)), 
    (Z.leb_spec (increment gasLimit counter) (u64 limit)); (done || lia).
Qed.

(** The checks of a block, in the order in which they take the lock. *)
Fixpoint verify_all (node : Node) (gases : list Z) (counter : Z) : list bool * Z :=
  match gases with
  | [] => ([], counter)
  | g :: gases =>
      let '(r, counter) := VerifyGasLimit node g counter in
      let '(rs, counter) := verify_all node gases counter in
      (match r with Returns (Ok b) => b | _ => false end :: rs, counter)
  end.

Definition total (gases : list Z) : Z := foldr Z.add 0 gases.

Lemma total_nonneg gases : Forall (λ g, 0 ≤ g) gases → 0 ≤ total gases.
Proof. induction 1; simpl; lia. Qed.

(** (C35) The quota is enforced, and by order of arrival, as long as the node answers all the
    requests of a block with one and the same limit, and all that is asked for, added to
    the counter, stays below 2^64 ([gas_quota_can_be_reset] is what happens beyond). Of the
    metatx that ask for gas within such a block the first ones pass and all those
    after them do not; what passed adds up to no more than the node's limit; and
    what did not pass counts as well: once one is too many, none passes until the
    next block, however small. *)
Theorem gas_quota_is_a_prefix (node : Node) (limit counter : Z) (gases : list Z)
    (Hnode : answers_limit node limit) (Hlimit : 0 ≤ limit < 2 ^ 64) (Hcounter : 0 ≤ counter)
    (Hgases : Forall (λ g, 0 ≤ g) gases) (Hwrap : counter + total gases < 2 ^ 64) :
  ∃ passed rest, gases = passed ++ rest ∧
    verify_all node gases counter =
      (replicate (length passed) true ++ replicate (length rest) false, counter + total gases) ∧
    (passed ≠ [] → counter + total passed ≤ limit) ∧
    (∀ g rest', rest = g :: rest' → limit < counter + total passed + g).
Proof.
  revert counter Hcounter Hwrap. induction Hgases as [|g gases Hg Hgases IH];
    intros counter Hcounter Hwrap; simpl in *.
  { exists [], []. split_and!; try done. by rewrite Z.add_0_r. }
  pose proof (total_nonneg gases Hgases).
  rewrite (VerifyGasLimit_answered _ limit) by done.
  unfold increment. rewrite !u64_small by lia.
  destruct (IH (counter + g)) as (passed & rest & -> & -> & Hp & Hr); [lia|lia|].
  destruct (Z.leb_spec (counter + g) limit) as [Hle|Hgt].
  - exists (g :: passed), rest. simpl. split_and!; [done|f_equal; lia| |].
    + intros _. destruct passed; [simpl; lia|]. specialize (Hp ltac:(done)). lia.
    + intros g' rest' Heq. specialize (Hr g' rest' Heq). lia.
  - exists [], (g :: passed ++ rest). simpl.
    assert (passed = []) as ->.
    { destruct passed as [|g' passed]; [done|]. specialize (Hp ltac:(done)).
      apply Forall_app in Hgases as [Hgs _]. apply total_nonneg in Hgs. simpl in *. lia. }
    simpl. split_and!; [done|f_equal; lia|done|]. intros g' rest' [= -> <-]. lia.
Qed.

(** The counter is a [uint64] and nothing bounds what is added to it: whatever it
    holds, a metatx can ask for the gas that wraps it around to zero, which passes the check
    whatever the node's limit, and leaves the whole quota of the block to be spent
    again. *)
Theorem gas_quota_can_be_reset (node : Node) (limit counter : Z)
    (Hnode : answers_limit node limit) (Hcounter : 0 < counter < 2 ^ 64) :
  VerifyGasLimit node (2 ^ 64 - counter) counter = (Returns (Ok true), decrement counter) ∧
  0 ≤ 2 ^ 64 - counter < 2 ^ 64.
Proof.
  split; [|lia]. rewrite (VerifyGasLimit_answered _ limit) by done. unfold increment, decrement.
  replace (counter + (2 ^ 64 - counter)) with (2 ^ 64) by lia.
  pose proof (u64_range limit). unfold u64 at 1 3. rewrite Z.mod_same by lia.
  by destruct (Z.leb_spec 0 (u64 limit)); [|lia].
Qed.

End Gas.

(** A node that gives this service a quota of a thousand. *)
Definition quota_node : Node := {|
  Dial := Dial sample_node; PendingNonceAt := PendingNonceAt sample_node;
  NonceAt := NonceAt sample_node; TransactionReceipt := TransactionReceipt sample_node;
  HeaderByNumber := HeaderByNumber sample_node; eth_ChainID := eth_ChainID sample_node;
  BalanceAt := BalanceAt sample_node; CodeAt := CodeAt sample_node;
  NewRelay := NewRelay sample_node; NewAccount := NewAccount sample_node;
  hub_RelayMetaTx := hub_RelayMetaTx sample_node; hub_DeployMetaTx := hub_DeployMetaTx sample_node;
  hub_IncreaseGasUsed := hub_IncreaseGasUsed sample_node; hub_GetNonce := hub_GetNonce sample_node;
  hub_GetGasLimit := hub_GetGasLimit sample_node;
  hub_GetMaxGasBlockLimit := hub_GetMaxGasBlockLimit sample_node;
  hub_GetNodeGasLimit := λ _ _, Ok (Some 1000);
  hub_GetCurrentGasLimit := hub_GetCurrentGasLimit sample_node;
  acc_AccountPermitted := acc_AccountPermitted sample_node;
  ingress_getContractAddress := ingress_getContractAddress sample_node;
|}.

#[local] Existing Instances sample_geth sample_eth sample_errors.

Lemma quota_node_answers : answers_limit sample_config quota_node 1000.
Proof. split; [done|]. eexists _, _. repeat split. Qed.

Lemma gas_quota_is_a_prefix_witness :
  (verify_all sample_config quota_node [400; 500; 300; 50] 0) = ([true; true; false; false], 1250).
Proof.
  destruct (gas_quota_is_a_prefix sample_config quota_node 1000 0 [400; 500; 300; 50])
    as (passed & rest & _ & _ & _ & _);
    [apply quota_node_answers | lia | lia | repeat constructor; lia | simpl; lia |].
  by vm_compute.
Defined.

Lemma gas_quota_can_be_reset_witness :
  VerifyGasLimit sample_config quota_node (2 ^ 64 - 900) 900 = (Returns (Ok true), 0).
Proof.
  apply (gas_quota_can_be_reset sample_config quota_node 1000 900);
    [apply quota_node_answers | lia].
Defined.
