(* ===== verification/Service.v ===== *)
(** The one point of sending: [sendPrepared] of [service/relaySignerService.go] and
    [reserveGasAndSend] of [service/prepare.go], on the state of
    [RelaySignerService] they go through: the tracker, the queue of handed-out
    nonces, the memory of what was sent and the quota of gas. *)

From S2P Require Import Prelude GoLib Config Errors Events AuditLog Client Permissioning Tracker Handout MetaTx Reorder Correlation Gas.

#[global] Arguments reorderEnabled : simpl never.

Record Service := {
  sv_tracker : Tracker;
  sv_queue : Queue.t;
  sv_memory : memory;
  sv_gas : Z;
}.

Definition with_gas (g : Z) (s : Service) : Service :=
  {| sv_tracker := sv_tracker s; sv_queue := sv_queue s; sv_memory := sv_memory s; sv_gas := g |}.

Definition with_memory (m : memory) (s : Service) : Service :=
  {| sv_tracker := sv_tracker s; sv_queue := sv_queue s; sv_memory := m; sv_gas := sv_gas s |}.

Definition with_tracker (t : Tracker) (s : Service) : Service :=
  {| sv_tracker := t; sv_queue := sv_queue s; sv_memory := sv_memory s; sv_gas := sv_gas s |}.

(** What a send reads from outside: the network before and after the check of the
    quota, the clock when it notes the send and when it remembers it, and the walk
    of the map if the memory is full. *)
Record send_reading := {
  sr_quota : Node;
  sr_node : Node;
  sr_note : Z;
  sr_remember : Z;
  sr_order : list hash;
}.

Section Send.
Context `{GoUnicode} `{Geth} `{EthLib} `{PkgErrors} (c : Config).

Abbreviation cfg := (Some c).

(** The event of a send. *)
Definition sent_event (ctx : context) (prepared : PreparedMetaTx) (tx : Transaction)
    (pendingForUser : option Z) : emission :=
  Info ctx "relay.sent"
    (<["transactionHash" := VStr (hash_Hex (tx_Hash tx))]>
     (<["hubNonce" := VInt (Nonce prepared)]>
     (<["writerNodeNonce" := VInt (tx_Nonce tx)]>
     (<["metaTxGasLimit" := VInt (MetaTxGasLimit prepared)]>
     (<["simulated" := VNil]>
     (<["simulatedErrorCodeName" := VNil]>
     (<["pendingForUser" := v_opt VInt pendingForUser]> ∅))))))).

(** From the connection to the transaction that went out. *)
Definition broadcast (node : Node) (prepared : PreparedMetaTx) : outcome (result error Transaction) :=
  match Connect node (NodeURL (Application c)) with
  | Err e => Returns (Err e)
  | Ok _ =>
      match HexToECDSA (Key (Application c)) with
      | Err e => Returns (Err e)
      | Ok key =>
          match ConfigTransaction node key (MetaTxGasLimit prepared) true with
          | Err e => Returns (Err e)
          | Ok options =>
              match RelayHubContractAddress (Application c) with
              | None => Panics "nil *common.Address"
              | Some hub =>
                  Returns (SendMetatransaction node hub options (To prepared)
                    (SigningData prepared) (sig_V prepared) (sig_R prepared) (sig_S prepared))
              end
          end
      end
  end.

Definition sendPrepared (rd : send_reading) (ctx : context) (prepared : PreparedMetaTx)
    (s : Service) : outcome (result error hash) * Service * list emission :=
  match broadcast (sr_node rd) prepared with
  | Panics why => (Panics why, s, [])
  | Returns (Err e) => (Returns (Err e), s, [])
  | Returns (Ok tx) =>
      let '(chain, pendingForUser, q, t) :=
        noteSent cfg (sr_note rd) prepared (sv_queue s) (sv_tracker s) in
      let m := rememberMetaTx (sr_remember rd) (sr_order rd) ctx (tx_Hash tx)
                 (senderKey (SenderKey prepared)) chain (sv_memory s) in
      (Returns (Ok (tx_Hash tx)),
       {| sv_tracker := t; sv_queue := q; sv_memory := m; sv_gas := sv_gas s |},
       [sent_event ctx prepared tx pendingForUser])
  end.

Definition exceeds_block : error :=
  Reject (Errors.New "transaction gas limit exceeds block gas limit" (-32000)) CodeRelayError.

(** Under the global lock: the quota first, and only then the send. *)
Definition reserveGasAndSend (rd : send_reading) (ctx : context) (prepared : PreparedMetaTx)
    (s : Service) : outcome (result error hash) * Service * list emission :=
  let '(enoughGas, g) := VerifyGasLimit c (sr_quota rd) (MetaTxGasLimit prepared) (sv_gas s) in
  let s := with_gas g s in
  match enoughGas with
  | Panics why => (Panics why, s, [])
  | Returns (Err e) => (Returns (Err (Reject e CodeSendFailed)), s, [])
  | Returns (Ok false) => (Returns (Err exceeds_block), s, [])
  | Returns (Ok true) =>
      let '(r, s, log) := sendPrepared rd ctx prepared s in
      (match r with
       | Returns (Err e) => Returns (Err (Reject e CodeSendFailed))
       | r => r
       end, s, log)
  end.

(** The state but for the counter of gas. *)
Definition same_but_gas (s s' : Service) : Prop :=
  sv_tracker s' = sv_tracker s ∧ sv_queue s' = sv_queue s ∧ sv_memory s' = sv_memory s.

Lemma same_with_gas g s : same_but_gas s (with_gas g s).
Proof. done. Qed.

(** What [noteSent] leaves, as the tracker shows it. *)
Lemma noteSent_spec now prepared q s :
  tracker_wf s →
  let '(chain, pending, q', s') := noteSent cfg now prepared q s in
  let key := senderKey (SenderKey prepared) in
  let v := Chains.alive cfg now (Chains.view (chs s) key) in
  tracker_wf s' ∧
  (∀ k, Chains.view (chs s') k =
     if decide (key = k)
     then Some (Chains.advance v (Nonce prepared),
                Chains.in_flight v + (if reorderEnabled cfg then 1 else 0), now)
     else Chains.view (chs s) k) ∧
  (if reorderEnabled cfg
   then ∃ p, chain = Some p ∧ Chains.senders (chs s') !! key = Some p ∧
          pending = Some (Chains.in_flight v + 1) ∧
          q' = Queue.closeOpenTicket key q
   else chain = None ∧ pending = None ∧ q' = q).
Proof.
  intros Hwf. unfold noteSent. destruct (reorderEnabled cfg); simpl.
  - unfold reserveLocked.
    pose proof (Chains.reserveLocked_spec cfg now (senderKey (SenderKey prepared)) (Nonce prepared)
      true (chs s) (proj1 Hwf)) as Hr.
    destruct (Chains.reserveLocked cfg now _ (Nonce prepared) true (chs s)) as [p ch].
    destruct Hr as (Hwfc & Hp & Hv). simpl. split_and!; [|done|].
    + split; [done|]. by apply Held.notifyTurnLocked_spec, Hwf.
    + exists p. split_and!; [done|done| |done]. f_equal.
      pose proof (Hv (senderKey (SenderKey prepared))) as Hk. rewrite decide_True in Hk by done.
      unfold Chains.view in Hk at 1. rewrite Hp in Hk. simpl in Hk. congruence.
  - unfold incrementTransactionCount, reserveLocked.
    pose proof (Chains.reserveLocked_spec cfg now (senderKey (SenderKey prepared)) (Nonce prepared)
      false (chs s) (proj1 Hwf)) as Hr.
    destruct (Chains.reserveLocked cfg now _ (Nonce prepared) false (chs s)) as [p ch].
    destruct Hr as (Hwfc & Hp & Hv). simpl. split_and!; try done. split; [done|apply Hwf].
Qed.

(** (C10) A send leaves everything or nothing. If it goes out, the user's next nonce moves
    past the one it used and never back, and with the reordering on it counts as
    one more in flight, on the chain that its entry of the memory holds and with
    the number that [relay.sent] says, which is emitted once. If it fails, at the
    quota or at the node, neither the tracker nor the queue nor the memory know of
    it, nothing is emitted, and the reason is a rejection of the catalogue: only the
    quota it asked for stays spent. *)
Theorem send_is_all_or_nothing (rd : send_reading) (ctx : context) (prepared : PreparedMetaTx)
    (s : Service) (Hwf : tracker_wf (sv_tracker s)) :
  let '(r, s', log) := reserveGasAndSend rd ctx prepared s in
  let key := senderKey (SenderKey prepared) in
  let v := Chains.alive cfg (sr_note rd) (Chains.view (chs (sv_tracker s)) key) in
  match r with
  | Returns (Ok h) =>
      tracker_wf (sv_tracker s') ∧
      Chains.view (chs (sv_tracker s')) key =
        Some (Chains.advance v (Nonce prepared),
              Chains.in_flight v + (if reorderEnabled cfg then 1 else 0), sr_note rd) ∧
      (∀ k, k ≠ key → Chains.view (chs (sv_tracker s')) k = Chains.view (chs (sv_tracker s)) k) ∧
      (reorderEnabled cfg = true → ∃ p e, Chains.senders (chs (sv_tracker s')) !! key = Some p ∧
         sv_memory s' !! h = Some e ∧ e_chain e = Some p ∧ e_senderKey e = key ∧
         settled e = false) ∧
      ∃ tx, tx_Hash tx = h ∧
        log = [sent_event ctx prepared tx
                 (if reorderEnabled cfg then Some (Chains.in_flight v + 1) else None)]
  | Returns (Err e) =>
      same_but_gas s s' ∧ log = [] ∧ CodeOf e ∈ [CodeSendFailed; CodeRelayError]
  | Panics _ => same_but_gas s s' ∧ log = []
  end.
Proof.
  unfold reserveGasAndSend, sendPrepared.
  destruct (VerifyGasLimit c (sr_quota rd) (MetaTxGasLimit prepared) (sv_gas s)) as [[[[]|e]|why] g];
    simpl.
  - destruct (broadcast (sr_node rd) prepared) as [[tx|e]|why]; simpl.
    + pose proof (noteSent_spec (sr_note rd) prepared (sv_queue s) (sv_tracker s) Hwf) as Hn.
      destruct (noteSent cfg (sr_note rd) prepared (sv_queue s) (sv_tracker s)) as [[[ch pd] q] t].
      destruct Hn as (Hwf' & Hv & Hr). simpl. split_and!; [done| | | |].
      * by rewrite Hv, decide_True.
      * intros k Hk. by rewrite Hv, decide_False.
      * intros Hon. rewrite Hon in Hr. destruct Hr as (p & -> & Hp & _). eexists p, _.
        split; [done|]. split; [apply rememberMetaTx_lookup; by right|done].
      * exists tx. split; [done|]. destruct (reorderEnabled cfg).
        -- by destruct Hr as (p & _ & _ & -> & _).
        -- by destruct Hr as (_ & -> & _).
    + split_and!; try done. apply list_elem_of_here.
    + done.
  - split_and!; try done. apply list_elem_of_further, list_elem_of_here.
  - split_and!; try done. apply list_elem_of_here.
  - done.
Qed.

End Send.

(** A metatx of user ["0xab"], ready to send. *)
Definition sample_prepared : PreparedMetaTx := {|
  Tx := sample_transaction; From := replicate 20 1; To := Some (replicate 20 2);
  SigningData := [1]; sig_V := 27; sig_R := replicate 32 3; sig_S := replicate 32 4;
  Nonce := 4; MetaTxGasLimit := 500; IsDeploy := false; SenderKey := "0xab";
|}.

Definition sample_service : Service :=
  {| sv_tracker := empty_tracker; sv_queue := Queue.empty; sv_memory := ∅; sv_gas := 0 |}.

Definition sample_send : send_reading :=
  {| sr_quota := quota_node; sr_node := quota_node; sr_note := 7; sr_remember := 8;
     sr_order := [] |}.

#[local] Existing Instances sample_unicode sample_geth sample_eth sample_errors.

Lemma send_is_all_or_nothing_witness :
  let '(r, s', log) := reserveGasAndSend sample_config sample_send sample_ctx sample_prepared sample_service in
  tracker_wf (sv_tracker s') ∧
  Chains.view (chs (sv_tracker s')) "0xab" = Some (5, 1, 7) ∧ length log = 1%nat.
Proof.
  pose proof (send_is_all_or_nothing sample_config sample_send sample_ctx sample_prepared
    sample_service empty_tracker_wf) as H.
  destruct (reserveGasAndSend _ _ _ _ _) as [[r s'] log] eqn:Hr.
  assert (Hlen : length log = 1%nat).
  { change log with (snd (r, s', log)). rewrite <-Hr. by vm_compute. }
  assert (Hv : Chains.view (chs (sv_tracker s')) "0xab" = Some (5, 1, 7)).
  { change s' with (snd (fst (r, s', log))). rewrite <-Hr. by vm_compute. }
  destruct r as [[h|e]|why]; [split_and!; [apply H|done|done] |..];
    exfalso; destruct H as (_ & Hl); revert Hlen; [destruct Hl as [-> _]|rewrite Hl]; done.
Defined.
