(* ===== verification/Revert.v ===== *)
(** The reason of a revert in words, [service/relaySignerService.go]:
    [decodeRevertReason], the custom errors it knows by their selector, and the
    names of the hub's error codes.

    Slicing beyond the end of a slice panics, so decoding is an [outcome]. *)

From S2P Require Import Prelude GoLib MetaTx.

(** ** The custom errors it knows *)

(** By selector: the name and the types of the arguments. *)
Definition knownCustomErrors : list (string * (string * list string)) :=
  [("0xe450d38c", ("ERC20InsufficientBalance", ["address"; "uint256"; "uint256"]));
   ("0xfb8f41b2", ("ERC20InsufficientAllowance", ["address"; "uint256"; "uint256"]));
   ("0x96c6fd1e", ("ERC20InvalidSender", ["address"]));
   ("0xec442f05", ("ERC20InvalidReceiver", ["address"]));
   ("0xe602df05", ("ERC20InvalidApprover", ["address"]));
   ("0x94280d62", ("ERC20InvalidSpender", ["address"]));
   ("0x118cdaa7", ("OwnableUnauthorizedAccount", ["address"]));
   ("0x1e4fbdf7", ("OwnableInvalidOwner", ["address"]))].

Definition find_error (selector : string) : option (string * list string) :=
  snd <$> List.find (λ d, bool_decide (d.1 = selector)) knownCustomErrors.

Fixpoint join_args (parts : list string) : string :=
  match parts with
  | [] => ""
  | [p] => p
  | p :: parts => p +:+ ", " +:+ join_args parts
  end.

Section Revert.
Context `{Geth}.

(** One argument, a word of 32 bytes. *)
Definition format_arg (t : string) (word : bytes) : string :=
  if decide (t = "address") then address_Hex (BytesToAddress word)
  else dec_string (be_value word).

Fixpoint format_args (types : list string) (args : bytes) : list string :=
  match types with
  | [] => []
  | t :: types => format_arg t (take 32 args) :: format_args types (drop 32 args)
  end.

(** Empty when the selector is not catalogued or the data fall short. *)
Definition decodeKnownCustomError (selector : string) (output : bytes) : string :=
  match find_error selector with
  | None => ""
  | Some (name, types) =>
      let args := drop 4 output in
      if (length args <? length types * 32)%nat then ""
      else name +:+ "(" +:+ join_args (format_args types args) +:+ ")"
  end.

(** ** The reason *)

Definition selector_Error := "0x08c379a0".
Definition selector_Panic := "0x4e487b71".

(** The known custom errors, and the selector with the raw data when all else fails. *)
Definition other_reason (selector : string) (output : bytes) : string :=
  let decoded := decodeKnownCustomError selector output in
  if decide (decoded = "")
  then "execution reverted (custom error " +:+ selector +:+ "): " +:+ hexutil_Encode output
  else "execution reverted: " +:+ decoded.

(** The length of the text is a word of which the low 64 bits are taken, and the
    end of the text a sum of [uint64]. *)
Definition decodeRevertReason (output : bytes) : outcome string :=
  if (length output =? 0)%nat then Returns "execution reverted (sin motivo)"
  else if (length output <? 4)%nat then
    Returns ("execution reverted: " +:+ hexutil_Encode output)
  else
    let selector := hexutil_Encode (take 4 output) in
    if decide (selector = selector_Error) then
      if (68 <=? length output)%nat then
        let len := u64 (be_value (slice 36 68 output)) in
        let last := u64 (68 + len) in
        if last <=? Z.of_nat (length output) then
          if last <? 68 then Panics "slice bounds out of range"
          else Returns ("execution reverted: " +:+ bytes_string (slice 68 (Z.to_nat last) output))
        else Returns (other_reason selector output)
      else Returns (other_reason selector output)
    else if decide (selector = selector_Panic) then
      if (36 <=? length output)%nat then
        Returns ("execution reverted: panic(0x" +:+ format_x (be_value (slice 4 36 output)) +:+ ")")
      else Returns (other_reason selector output)
    else Returns (other_reason selector output).

(** ** The hub's error codes *)

Definition errorCodeNames : list string :=
  ["MaxBlockGasLimit"; "BadOriginalSender"; "BadNonce"; "NotEnoughGas";
   "IsNotContract"; "EmptyCode"; "InvalidSignature"; "InvalidDestination"; "OK"].

Definition errorCodeName (code : Z) : string :=
  match errorCodeNames !! Z.to_nat code with
  | Some name => name
  | None => "Unknown(" +:+ dec_string code +:+ ")"
  end.

End Revert.

(** ** What the reason says *)

(** The data of a revert, as Solidity encodes them: the selector, and the arguments
    padded to words. *)
Definition padded (bs : bytes) : bytes := bs ++ replicate ((32 - length bs mod 32) mod 32) 0.

Definition encode_Error (text : bytes) : bytes :=
  [8; 195; 121; 160] ++ be_bytes 32 32 ++ be_bytes 32 (Z.of_nat (length text)) ++ padded text.

Definition encode_Panic (code : Z) : bytes := [78; 72; 123; 113] ++ be_bytes 32 code.

(** [InsufficientBalance(account, balance, needed)], the first of the catalogue. *)
Definition encode_InsufficientBalance (account : address) (balance needed : Z) : bytes :=
  [228; 80; 211; 140] ++ (replicate 12 0 ++ account) ++ be_bytes 32 balance ++ be_bytes 32 needed.

Section RevertSpec.
Context `{GethLaws}.

Lemma selector_hex bs : hexutil_Encode (take 4 bs) = "0x" +:+ hex_encode (take 4 bs).
Proof. apply hexutil_encode_spec. Qed.

(** Reading a slice of a concatenation. *)
Lemma slice_mid (a b c : bytes) i j :
  i = length a → j = (length a + length b)%nat → slice i j (a ++ b ++ c) = b.
Proof.
  intros -> ->. unfold slice. rewrite drop_app_exact by done.
  apply take_app_exact. lia.
Qed.

Lemma length_encode_Error text :
  length (encode_Error text) = (68 + length (padded text))%nat.
Proof. unfold encode_Error. rewrite !length_app, !length_be_bytes. simpl. lia. Qed.

Lemma decode_Error text :
  Z.of_nat (length text) < 2 ^ 64 - 68 →
  decodeRevertReason (encode_Error text) = Returns ("execution reverted: " +:+ bytes_string text).
Proof.
  intros Hlen. unfold decodeRevertReason.
  pose proof (length_encode_Error text) as Hl.
  replace (length (encode_Error text) =? 0)%nat with false by (symmetry; apply Nat.eqb_neq; lia).
  replace (length (encode_Error text) <? 4)%nat with false by (symmetry; apply Nat.ltb_ge; lia).
  rewrite selector_hex.
  replace (take 4 (encode_Error text)) with [8; 195; 121; 160] by done.
  rewrite decide_True by done.
  replace (68 <=? length (encode_Error text))%nat with true by (symmetry; apply Nat.leb_le; lia).
  assert (slice 36 68 (encode_Error text) = be_bytes 32 (Z.of_nat (length text))) as ->.
  { unfold encode_Error. rewrite (app_assoc [8; 195; 121; 160]).
    apply slice_mid; rewrite ?length_app, !length_be_bytes; done. }
  rewrite be_value_be_bytes by (simpl; lia).
  rewrite (u64_small (Z.of_nat (length text))), u64_small by lia.
  assert (length text ≤ length (padded text))%nat by (unfold padded; rewrite length_app; lia).
  replace (68 + Z.of_nat (length text) <=? Z.of_nat (length (encode_Error text))) with true by lia.
  replace (68 + Z.of_nat (length text) <? 68) with false by lia.
  do 3 f_equal. unfold encode_Error, padded.
  rewrite (app_assoc (be_bytes 32 32)), (app_assoc [8; 195; 121; 160]).
  apply slice_mid; rewrite ?length_app, !length_be_bytes; simpl; lia.
Qed.

Lemma decode_Panic code :
  0 ≤ code < 2 ^ 256 →
  decodeRevertReason (encode_Panic code) =
    Returns ("execution reverted: panic(0x" +:+ format_x code +:+ ")").
Proof.
  intros Hc. unfold decodeRevertReason.
  assert (length (encode_Panic code) = 36%nat) as Hl
    by (unfold encode_Panic; rewrite length_app, length_be_bytes; done).
  rewrite Hl, selector_hex.
  replace (take 4 (encode_Panic code)) with [78; 72; 123; 113] by done.
  cbn [Nat.eqb Nat.ltb Nat.leb]. rewrite decide_False, decide_True by done.
  assert (slice 4 36 (encode_Panic code) = be_bytes 32 code) as ->.
  { unfold encode_Panic. rewrite <-(app_nil_r (be_bytes 32 code)) at 1.
    apply slice_mid; rewrite ?length_be_bytes; done. }
  by rewrite be_value_be_bytes by (simpl; lia).
Qed.

Lemma format_address w : format_arg "address" w = address_Hex (BytesToAddress w).
Proof. done. Qed.

Lemma format_uint w : format_arg "uint256" w = dec_string (be_value w).
Proof. done. Qed.

Lemma decode_InsufficientBalance account balance needed :
  length account = 20%nat → 0 ≤ balance < 2 ^ 256 → 0 ≤ needed < 2 ^ 256 →
  decodeRevertReason (encode_InsufficientBalance account balance needed) =
    Returns ("execution reverted: ERC20InsufficientBalance(" +:+ address_Hex account +:+ ", " +:+
             dec_string balance +:+ ", " +:+ dec_string needed +:+ ")").
Proof.
  intros Ha Hb Hn. unfold decodeRevertReason.
  set (output := encode_InsufficientBalance account balance needed).
  assert (length output = 100%nat) as Hl.
  { unfold output, encode_InsufficientBalance.
    rewrite !length_app, !length_be_bytes, length_replicate, Ha. done. }
  rewrite Hl, selector_hex.
  replace (take 4 output) with [228; 80; 211; 140] by done.
  cbn [Nat.eqb Nat.ltb Nat.leb]. rewrite !decide_False by done.
  unfold other_reason, decodeKnownCustomError.
  assert (find_error ("0x" +:+ hex_encode [228; 80; 211; 140]) =
    Some ("ERC20InsufficientBalance", ["address"; "uint256"; "uint256"])) as -> by reflexivity.
  rewrite length_drop, Hl. cbn [length Nat.mul Nat.add Nat.sub Nat.ltb Nat.leb].
  assert (drop 4 output = (replicate 12 0 ++ account) ++ be_bytes 32 balance ++ be_bytes 32 needed)
    as -> by done.
  cbn [format_args]. rewrite !take_app_exact, !drop_app_exact
    by (rewrite ?length_app, ?length_be_bytes, ?length_replicate, ?Ha; done).
  rewrite !take_app_exact by (rewrite ?length_be_bytes; done).
  rewrite (take_ge (be_bytes 32 needed)) by (by rewrite length_be_bytes).
  rewrite format_address, !format_uint.
  rewrite !be_value_be_bytes by (simpl; lia).
  rewrite bytes_to_address_spec, length_app, length_replicate, Ha.
  change (replicate (20 - (12 + 20)) 0) with (@nil Z). rewrite drop_app_exact by done.
  rewrite decide_False by done. cbn [join_args app]. f_equal.
  rewrite !string_app_assoc. done.
Qed.

(** The reason of a revert says what the contract said: the text of an [Error(string)] as it was
    written, the code of a [Panic(uint256)], and the name and the arguments of a custom error of
    the catalogue, for every text, code, account and amount they can carry. *)
Theorem revert_reason_in_words (text : bytes) (code balance needed : Z) (account : address)
    (Htext : Z.of_nat (length text) < 2 ^ 64 - 68) (Hcode : 0 ≤ code < 2 ^ 256)
    (Haccount : length account = 20%nat) (Hbalance : 0 ≤ balance < 2 ^ 256)
    (Hneeded : 0 ≤ needed < 2 ^ 256) :
  decodeRevertReason (encode_Error text) = Returns ("execution reverted: " +:+ bytes_string text) ∧
  decodeRevertReason (encode_Panic code) =
    Returns ("execution reverted: panic(0x" +:+ format_x code +:+ ")") ∧
  decodeRevertReason (encode_InsufficientBalance account balance needed) =
    Returns ("execution reverted: ERC20InsufficientBalance(" +:+ address_Hex account +:+ ", " +:+
             dec_string balance +:+ ", " +:+ dec_string needed +:+ ")").
Proof. auto using decode_Error, decode_Panic, decode_InsufficientBalance. Qed.

Lemma selector_Error_bytes output :
  bytes_ok output → hexutil_Encode (take 4 output) = selector_Error ↔ take 4 output = [8; 195; 121; 160].
Proof.
  intros Hok. rewrite selector_hex. split; [|by intros ->].
  intros Heq. unfold selector_Error in Heq. injection Heq as Heq.
  change "08c379a0" with (hex_encode [8; 195; 121; 160]) in Heq.
  apply (f_equal hex_decode) in Heq.
  change ("" +:+ hex_encode (take 4 output)) with (hex_encode (take 4 output)) in Heq.
  rewrite (hex_decode_encode (take 4 output)) in Heq by by apply Forall_take.
  rewrite hex_decode_encode in Heq by by repeat constructor. by injection Heq.
Qed.

(** Decoding the reason panics, and exactly when the data claim to be an [Error(string)] whose
    text has a length of 2^64 - 68 or more: then the end of the text wraps around to before its
    start. A contract can return any data when it reverts, so the panic is one transaction away;
    the watcher decodes in a goroutine where nothing recovers it. *)
Theorem revert_reason_panics_when (output : bytes) (Hok : bytes_ok output) :
  returns (decodeRevertReason output) = false ↔
  take 4 output = [8; 195; 121; 160] ∧ (68 ≤ length output)%nat ∧
  2 ^ 64 - 68 ≤ u64 (be_value (slice 36 68 output)).
Proof.
  rewrite <-selector_Error_bytes by done. unfold decodeRevertReason.
  destruct (Nat.eqb_spec (length output) 0) as [Hz|Hz]; [split; [done|lia]|].
  destruct (Nat.ltb_spec (length output) 4); [split; [done|lia]|].
  destruct (decide (hexutil_Encode (take 4 output) = selector_Error)) as [->|Hne].
  2:{ split; [|by intros [? _]]. repeat case_match; done. }
  destruct (Nat.leb_spec 68 (length output)); [|split; [done|lia]].
  pose proof (u64_range (be_value (slice 36 68 output))) as Hr.
  set (len := u64 (be_value (slice 36 68 output))) in *.
  destruct (Z.leb_spec (2 ^ 64 - 68) len) as [Hbig|Hsmall].
  - assert (u64 (68 + len) = 68 + len - 2 ^ 64) as ->.
    { unfold u64. replace (68 + len) with (68 + len - 2 ^ 64 + 1 * 2 ^ 64) by lia.
      rewrite Z.mod_add by lia. rewrite Z.mod_small; lia. }
    destruct (Z.leb_spec (68 + len - 2 ^ 64) (Z.of_nat (length output))); [|lia].
    destruct (Z.ltb_spec (68 + len - 2 ^ 64) 68); [|lia]. by split.
  - rewrite u64_small by lia. split; [|lia].
    destruct (Z.leb_spec (68 + len) (Z.of_nat (length output))); [|done].
    destruct (Z.ltb_spec (68 + len) 68); [lia|done].
Qed.
End RevertSpec.

#[local] Existing Instances sample_geth sample_geth_laws.

Lemma revert_reason_in_words_witness :
  decodeRevertReason (encode_Error (string_bytes "no funds")) =
    Returns ("execution reverted: " +:+ bytes_string (string_bytes "no funds")).
Proof.
  apply (revert_reason_in_words (string_bytes "no funds") 17 5 9 (replicate 20 1));
    [vm_compute; done|lia|done|lia|lia].
Defined.

(** The data that bring the watcher down: the selector, an offset, and the greatest length. *)
Definition poisoned : bytes := [8; 195; 121; 160] ++ be_bytes 32 32 ++ be_bytes 32 (2 ^ 64 - 1).

Lemma revert_reason_panics_when_witness :
  returns (decodeRevertReason poisoned) = false ↔
  take 4 poisoned = [8; 195; 121; 160] ∧ (68 ≤ length poisoned)%nat ∧
  2 ^ 64 - 68 ≤ u64 (be_value (slice 36 68 poisoned)).
Proof.
  apply (revert_reason_panics_when poisoned). unfold poisoned, bytes_ok.
  apply Forall_app. split; [by repeat constructor|].
  apply Forall_app; split; apply be_bytes_ok.
Defined.
