(* ===== verification/Hub.v ===== *)
(** How a metatx ended, read from the events of the RelayHub in its receipt. Three
    places of the service read them: [readHubEvents] of [service/settle.go], for the
    synchronous relay and the watcher, and [GetMetaTxResult] and
    [GetTransactionReceipt] of [service/relaySignerService.go], for the clients that
    ask. Reading has effects: a rejection of the hub forgets the chain of nonces of
    its user and is logged. *)

From S2P Require Import Prelude GoLib Config Errors Events AuditLog Client Tracker MetaTx Correlation Revert.

(** ** What go-ethereum does for the readers *)

(** Unpacking an event into a struct of its arguments: what the struct holds
    afterwards. A failure to unpack is logged and the struct is used all the same. *)
Class HubLib := {
  HexToHash : string → hash;
  unpack_TransactionRelayed : bytes → bool * bytes;
  unpack_BadTransactionSent : bytes → Z * address;
}.

Section Hub.
Context `{GoUnicode} `{Geth} `{HubLib}.

Definition transactionRelayedFailed (data : bytes) : bool * bytes := unpack_TransactionRelayed data.
Definition badTransactionErrorCode (data : bytes) : Z * address := unpack_BadTransactionSent data.

(** ** The events of the hub *)

Definition topic (signature : string) : string := "0x" +:+ hex_encode (keccak256 (string_bytes signature)).

Record hubEvents := {
  contractDeployed : string;
  transactionRelay : string;
  badTransaction : string;
  relayed : string;
  gasUsedByRelayHub : string;
}.

Definition topicsOfHub : hubEvents := {|
  contractDeployed := topic "ContractDeployed(address,address,address)";
  transactionRelay := topic "TransactionRelayed(address,address,address,bool,bytes)";
  badTransaction := topic "BadTransactionSent(address,address,uint8)";
  relayed := topic "Relayed(address,address)";
  gasUsedByRelayHub := topic "GasUsedByTransaction(address,uint256,uint256,uint256,uint256)";
|}.

Inductive hub_event := ContractDeployed | TransactionRelayed | BadTransactionSent | Relayed
  | GasUsedByTransaction.

(** The switch on the first topic of a log; a log without topics is skipped. *)
Definition event_of (lg : Log) : option hub_event :=
  match lg_Topics lg with
  | [] => None
  | t :: _ =>
      let t := hash_Hex t in
      if decide (t = contractDeployed topicsOfHub) then Some ContractDeployed
      else if decide (t = transactionRelay topicsOfHub) then Some TransactionRelayed
      else if decide (t = badTransaction topicsOfHub) then Some BadTransactionSent
      else if decide (t = relayed topicsOfHub) then Some Relayed
      else if decide (t = gasUsedByRelayHub topicsOfHub) then Some GasUsedByTransaction
      else None
  end.

Definition hub_rejected_note :=
  "el nonce reservado se descarta: las metatx encadenadas despues de esta van a fallar".

Definition hubRejected (ctx : context) (transactionID : string) (from : address) (errorCode : Z) :
    emission :=
  Warn ctx "relay.hub_rejected"
    (<["transactionHash" := VStr ("0x" +:+ trim_prefix "0x" transactionID)]>
     (<["from" := VStr (address_Hex from)]>
     (<["errorCode" := VInt errorCode]>
     (<["errorCodeName" := VStr (errorCodeName errorCode)]>
     (<["note" := VStr hub_rejected_note]> ∅))))).

Definition deploy_reverted := "deploy reverted: contract constructor failed (no code created)".

(** What the loop over the logs has seen. *)
Record seen := {
  sawContractDeployed : bool;
  sawTransactionRelayed : bool;
  sawBadTransaction : bool;
  sawRelayed : bool;
}.

Definition nothing_seen : seen := {|
  sawContractDeployed := false; sawTransactionRelayed := false;
  sawBadTransaction := false; sawRelayed := false |}.

Definition see (e : hub_event) (f : seen) : seen :=
  match e with
  | ContractDeployed => {| sawContractDeployed := true;
      sawTransactionRelayed := sawTransactionRelayed f;
      sawBadTransaction := sawBadTransaction f; sawRelayed := sawRelayed f |}
  | TransactionRelayed => {| sawContractDeployed := sawContractDeployed f;
      sawTransactionRelayed := true;
      sawBadTransaction := sawBadTransaction f; sawRelayed := sawRelayed f |}
  | BadTransactionSent => {| sawContractDeployed := sawContractDeployed f;
      sawTransactionRelayed := sawTransactionRelayed f;
      sawBadTransaction := true; sawRelayed := sawRelayed f |}
  | Relayed => {| sawContractDeployed := sawContractDeployed f;
      sawTransactionRelayed := sawTransactionRelayed f;
      sawBadTransaction := sawBadTransaction f; sawRelayed := true |}
  | GasUsedByTransaction => f
  end.

(** The hub took it and ran it, and nothing came of it: a deploy that reverted. *)
Definition silent_deploy (f : seen) : bool :=
  sawRelayed f && negb (sawContractDeployed f) && negb (sawTransactionRelayed f)
  && negb (sawBadTransaction f).

(** The loop every reader makes: a step per event, on the reader's own state. A
    panic leaves the tracker and the log as they were by then. *)
Abbreviation effects A := (outcome A * Tracker * list emission)%type.

Section Scan.
Context {A : Type} (step : hub_event → Log → A → Tracker → effects A).

Fixpoint scan (logs : list Log) (a : A) (f : seen) (t : Tracker) : effects (A * seen) :=
  match logs with
  | [] => (Returns (a, f), t, [])
  | lg :: logs =>
      match event_of lg with
      | None => scan logs a f t
      | Some e =>
          match step e lg a t with
          | (Panics why, t, log) => (Panics why, t, log)
          | (Returns a, t, log) =>
              let '(r, t, log') := scan logs a (see e f) t in (r, t, log ++ log')
          end
      end
  end.
End Scan.

(** The part of a [BadTransactionSent] that is the same for every reader. *)
Definition rejected_by_hub (ctx : context) (transactionID : string) (lg : Log) (t : Tracker) :
    Z * Tracker * list emission :=
  let '(code, badSender) := badTransactionErrorCode (lg_Data lg) in
  (code, invalidateNonce (address_Hex badSender) t, [hubRejected ctx transactionID badSender code]).

(** ** [readHubEvents] *)

Record metaTxOutcome := {
  o_events : list string;
  o_executed : option bool;
  o_errorCode : option Z;
  o_errorCodeName : option string;
  o_output : option string;
  o_deployedAddress : option string;
  o_hubRejected : bool;
}.

Definition no_outcome : metaTxOutcome := {|
  o_events := []; o_executed := None; o_errorCode := None; o_errorCodeName := None;
  o_output := None; o_deployedAddress := None; o_hubRejected := false |}.

Definition with_event (name : string) (o : metaTxOutcome) : metaTxOutcome := {|
  o_events := o_events o ++ [name]; o_executed := o_executed o; o_errorCode := o_errorCode o;
  o_errorCodeName := o_errorCodeName o; o_output := o_output o;
  o_deployedAddress := o_deployedAddress o; o_hubRejected := o_hubRejected o |}.

Definition with_executed (b : bool) (o : metaTxOutcome) : metaTxOutcome := {|
  o_events := o_events o; o_executed := Some b; o_errorCode := o_errorCode o;
  o_errorCodeName := o_errorCodeName o; o_output := o_output o;
  o_deployedAddress := o_deployedAddress o; o_hubRejected := o_hubRejected o |}.

Definition with_output (reason : string) (o : metaTxOutcome) : metaTxOutcome := {|
  o_events := o_events o; o_executed := o_executed o; o_errorCode := o_errorCode o;
  o_errorCodeName := o_errorCodeName o; o_output := Some reason;
  o_deployedAddress := o_deployedAddress o; o_hubRejected := o_hubRejected o |}.

Definition read_event (ctx : context) (h : hash) (e : hub_event) (lg : Log) (o : metaTxOutcome)
    (t : Tracker) : effects metaTxOutcome :=
  match e with
  | ContractDeployed =>
      let o := with_event "ContractDeployed" o in
      (Returns {| o_events := o_events o; o_executed := o_executed o; o_errorCode := o_errorCode o;
                  o_errorCodeName := o_errorCodeName o; o_output := o_output o;
                  o_deployedAddress := Some (address_Hex (BytesToAddress (lg_Data lg)));
                  o_hubRejected := o_hubRejected o |}, t, [])
  | TransactionRelayed =>
      let '(executed, output) := transactionRelayedFailed (lg_Data lg) in
      let o := with_executed executed (with_event "TransactionRelayed" o) in
      if executed : bool then (Returns o, t, [])
      else match decodeRevertReason output with
           | Panics why => (Panics why, t, [])
           | Returns reason => (Returns (with_output reason o), t, [])
           end
  | BadTransactionSent =>
      let '(code, t, log) := rejected_by_hub ctx (hash_Hex h) lg t in
      let o := with_event "BadTransactionSent" o in
      (Returns {| o_events := o_events o; o_executed := Some false; o_errorCode := Some code;
                  o_errorCodeName := Some (errorCodeName code); o_output := o_output o;
                  o_deployedAddress := o_deployedAddress o; o_hubRejected := true |}, t, log)
  | Relayed => (Returns (with_event "Relayed" o), t, [])
  | GasUsedByTransaction => (Returns (with_event "GasUsedByTransaction" o), t, [])
  end.

Definition finish (f : seen) (o : metaTxOutcome) : metaTxOutcome :=
  let o := if silent_deploy f then with_output deploy_reverted (with_executed false o) else o in
  match o_executed o with
  | None => if sawTransactionRelayed f || sawContractDeployed f then with_executed true o else o
  | Some _ => o
  end.

Definition readHubEvents (ctx : context) (h : hash) (receipt : option Receipt) (t : Tracker) :
    effects metaTxOutcome :=
  match receipt with
  | None => (Returns no_outcome, t, [])
  | Some rc =>
      let '(r, t, log) := scan (read_event ctx h) (rc_Logs rc) no_outcome nothing_seen t in
      ((λ '(o, f), finish f o) <$> r, t, log)
  end.

(** ** [GetMetaTxResult] *)

Record metaTxResult := {
  mr_transactionHash : string;
  mr_mined : bool;
  mr_success : bool;
  mr_executed : bool;
  mr_errorCode : option string;
  mr_revertReason : option string;
  mr_deployedAddress : option string;
}.

Definition mined (id : string) (b : bool) : metaTxResult := {|
  mr_transactionHash := "0x" +:+ id; mr_mined := b; mr_success := true; mr_executed := true;
  mr_errorCode := None; mr_revertReason := None; mr_deployedAddress := None |}.

Definition not_executed (reason : string) (m : metaTxResult) : metaTxResult := {|
  mr_transactionHash := mr_transactionHash m; mr_mined := mr_mined m; mr_success := false;
  mr_executed := false; mr_errorCode := mr_errorCode m; mr_revertReason := Some reason;
  mr_deployedAddress := mr_deployedAddress m |}.

Definition result_event (ctx : context) (id : string) (e : hub_event) (lg : Log) (m : metaTxResult)
    (t : Tracker) : effects metaTxResult :=
  match e with
  | ContractDeployed =>
      (Returns {| mr_transactionHash := mr_transactionHash m; mr_mined := mr_mined m;
                  mr_success := mr_success m; mr_executed := mr_executed m;
                  mr_errorCode := mr_errorCode m; mr_revertReason := mr_revertReason m;
                  mr_deployedAddress := Some (address_Hex (BytesToAddress (lg_Data lg))) |}, t, [])
  | TransactionRelayed =>
      let '(executed, output) := transactionRelayedFailed (lg_Data lg) in
      if executed : bool then
        (Returns {| mr_transactionHash := mr_transactionHash m; mr_mined := mr_mined m;
                    mr_success := mr_success m; mr_executed := true;
                    mr_errorCode := mr_errorCode m; mr_revertReason := mr_revertReason m;
                    mr_deployedAddress := mr_deployedAddress m |}, t, [])
      else match decodeRevertReason output with
           | Panics why => (Panics why, t, [])
           | Returns reason => (Returns (not_executed reason m), t, [])
           end
  | BadTransactionSent =>
      let '(code, t, log) := rejected_by_hub ctx id lg t in
      let m := not_executed ("BadTransactionSent: " +:+ errorCodeName code) m in
      (Returns {| mr_transactionHash := mr_transactionHash m; mr_mined := mr_mined m;
                  mr_success := mr_success m; mr_executed := mr_executed m;
                  mr_errorCode := Some (errorCodeName code); mr_revertReason := mr_revertReason m;
                  mr_deployedAddress := mr_deployedAddress m |}, t, log)
  | Relayed | GasUsedByTransaction => (Returns m, t, [])
  end.

Definition metaTxResultOf (ctx : context) (id : string) (receipt : option Receipt) (t : Tracker) :
    effects metaTxResult :=
  match receipt with
  | None => (Returns (mined id false), t, [])
  | Some rc =>
      let '(r, t, log) := scan (result_event ctx id) (rc_Logs rc) (mined id true) nothing_seen t in
      ((λ '(m, f), if silent_deploy f then not_executed deploy_reverted m else m) <$> r, t, log)
  end.

(** ** [GetTransactionReceipt] *)

(** The receipt, which the loop corrects in place, and once something failed the
    copy of it that goes to the client with the reason. *)
Record receipt_view := { rv_receipt : Receipt; rv_reverted : option (Receipt * string) }.

Definition with_status0 (rc : Receipt) : Receipt := {|
  rc_PostState := rc_PostState rc; rc_Status := 0; rc_Logs := rc_Logs rc;
  rc_ContractAddress := rc_ContractAddress rc; rc_GasUsed := rc_GasUsed rc;
  rc_BlockNumber := rc_BlockNumber rc |}.

Definition revert (reason : string) (v : receipt_view) : receipt_view :=
  let rc := with_status0 (rv_receipt v) in
  {| rv_receipt := rc; rv_reverted := Some (rc, reason) |}.

Definition receipt_event (ctx : context) (id : string) (e : hub_event) (lg : Log) (v : receipt_view)
    (t : Tracker) : effects receipt_view :=
  match e with
  | ContractDeployed =>
      let rc := rv_receipt v in
      (Returns {| rv_receipt := {| rc_PostState := rc_PostState rc; rc_Status := rc_Status rc;
                                   rc_Logs := rc_Logs rc;
                                   rc_ContractAddress := BytesToAddress (lg_Data lg);
                                   rc_GasUsed := rc_GasUsed rc; rc_BlockNumber := rc_BlockNumber rc |};
                  rv_reverted := rv_reverted v |}, t, [])
  | TransactionRelayed =>
      let '(executed, output) := transactionRelayedFailed (lg_Data lg) in
      if executed : bool then (Returns v, t, [])
      else match decodeRevertReason output with
           | Panics why => (Panics why, t, [])
           | Returns reason => (Returns (revert reason v), t, [])
           end
  | BadTransactionSent =>
      let '(code, t, log) := rejected_by_hub ctx id lg t in
      (Returns (revert ("BadTransactionSent: " +:+ errorCodeName code) v), t, log)
  | Relayed | GasUsedByTransaction => (Returns v, t, [])
  end.

Definition receiptViewOf (ctx : context) (id : string) (rc : Receipt) (t : Tracker) :
    effects receipt_view :=
  let '(r, t, log) := scan (receipt_event ctx id) (rc_Logs rc)
                        {| rv_receipt := rc; rv_reverted := None |} nothing_seen t in
  ((λ '(v, f), if silent_deploy f then revert deploy_reverted v else v) <$> r, t, log).

(** ** The three readers agree *)

(** What a receipt shows to any reader, and whether the hub spoke at all of how the
    metatx ended. *)
Definition seen_of (f : seen) (logs : list Log) : seen :=
  foldl (λ f lg, match event_of lg with Some e => see e f | None => f end) f logs.

Definition hub_spoke (f : seen) : bool :=
  sawContractDeployed f || sawTransactionRelayed f || sawBadTransaction f || sawRelayed f.

(** Two readers in step: on every event they do the same to the tracker and the
    log, and stay related, or both panic. *)
Definition in_step {A B} (R : A → B → Prop) (x : effects A) (y : effects B) : Prop :=
  let '(r1, t1, l1) := x in
  let '(r2, t2, l2) := y in
  t1 = t2 ∧ l1 = l2 ∧
  match r1, r2 with
  | Returns a, Returns b => R a b
  | Panics w1, Panics w2 => w1 = w2
  | _, _ => False
  end.

Lemma scan_in_step {A B} (step1 : hub_event → Log → A → Tracker → effects A)
    (step2 : hub_event → Log → B → Tracker → effects B) (R : seen → A → B → Prop) logs :
  (∀ e lg f a b t, R f a b → in_step (R (see e f)) (step1 e lg a t) (step2 e lg b t)) →
  ∀ f a b t, R f a b →
  in_step (λ '(a, f1) '(b, f2), f1 = seen_of f logs ∧ f2 = seen_of f logs ∧ R (seen_of f logs) a b)
    (scan step1 logs a f t) (scan step2 logs b f t).
Proof.
  intros Hstep. induction logs as [|lg logs IH]; intros f a b t HR; simpl; [done|].
  destruct (event_of lg) as [e|]; [|by apply IH].
  specialize (Hstep e lg f a b t HR).
  destruct (step1 e lg a t) as [[[a'|w1] t1] l1], (step2 e lg b t) as [[[b'|w2] t2] l2];
    destruct Hstep as (-> & -> & HR'); try done.
  specialize (IH (see e f) a' b' t2 HR').
  destruct (scan step1 logs a' (see e f) t2) as [[r1 t1'] l1'],
    (scan step2 logs b' (see e f) t2) as [[r2 t2'] l2'].
  destruct IH as (-> & -> & Hr). by split_and!.
Qed.

Definition outcome_result (f : seen) (o : metaTxOutcome) (m : metaTxResult) : Prop :=
  o_errorCodeName o = mr_errorCode m ∧ o_deployedAddress o = mr_deployedAddress m ∧
  (if sawTransactionRelayed f || sawBadTransaction f
   then o_executed o = Some (mr_executed m)
   else o_executed o = None ∧ mr_executed m = true).

Definition result_view (f : seen) (m : metaTxResult) (v : receipt_view) : Prop :=
  mr_revertReason m = snd <$> rv_reverted v ∧
  (mr_success m = true ↔ rv_reverted v = None) ∧
  (∀ rc reason, rv_reverted v = Some (rc, reason) → rc_Status rc = 0).

Lemma outcome_result_step ctx h id e lg f o m t :
  trim_prefix "0x" id = trim_prefix "0x" (hash_Hex h) →
  outcome_result f o m →
  in_step (outcome_result (see e f)) (read_event ctx h e lg o t) (result_event ctx id e lg m t).
Proof.
  intros Hid (He & Hd & Hx). unfold outcome_result.
  destruct e; simpl.
  - done.
  - destruct (transactionRelayedFailed (lg_Data lg)) as [[] output]; [done|].
    by destruct (decodeRevertReason output).
  - unfold rejected_by_hub, hubRejected. rewrite Hid.
    destruct (badTransactionErrorCode (lg_Data lg)) as [code sender]. simpl.
    by rewrite orb_true_r.
  - done.
  - done.
Qed.

Lemma result_view_step ctx id e lg f m v t :
  result_view f m v →
  in_step (result_view (see e f)) (result_event ctx id e lg m t) (receipt_event ctx id e lg v t).
Proof.
  intros (Hr & Hs & Hz). unfold result_view.
  destruct e; simpl; try done.
  - destruct (transactionRelayedFailed (lg_Data lg)) as [[] output]; [done|].
    destruct (decodeRevertReason output) as [reason|why]; [|done]. simpl.
    split_and!; try done. by intros rc r [= <- _].
  - unfold rejected_by_hub. destruct (badTransactionErrorCode (lg_Data lg)) as [code sender]. simpl.
    split_and!; try done. by intros rc r [= <- _].
Qed.

(** (C25) Whoever asks hears the same. On any receipt, the synchronous relay and the watcher, the
    query of the result and the query of the receipt forget the same chains of nonces and log the
    same rejections; they give the same error code and the same deployed address; the receipt goes
    back with status zero and a reason exactly when the result says that it did not succeed, and
    with its reason; and, as soon as the hub said anything of the metatx, they agree on whether it
    was executed. On a receipt where the hub said nothing the relay leaves that unknown, and the
    query of the result answers that it was executed. *)
Theorem readers_agree (ctx : context) (h : hash) (id : string) (rc : Receipt) (t : Tracker)
    (Hid : trim_prefix "0x" id = trim_prefix "0x" (hash_Hex h)) :
  let '(r1, t1, l1) := readHubEvents ctx h (Some rc) t in
  let '(r2, t2, l2) := metaTxResultOf ctx id (Some rc) t in
  let '(r3, t3, l3) := receiptViewOf ctx id rc t in
  (t1 = t2 ∧ t2 = t3) ∧ (l1 = l2 ∧ l2 = l3) ∧
  match r1, r2, r3 with
  | Returns o, Returns m, Returns v =>
      o_errorCodeName o = mr_errorCode m ∧ o_deployedAddress o = mr_deployedAddress m ∧
      mr_revertReason m = snd <$> rv_reverted v ∧
      (mr_success m = true ↔ rv_reverted v = None) ∧
      (∀ rc' reason, rv_reverted v = Some (rc', reason) → rc_Status rc' = 0) ∧
      (if hub_spoke (seen_of nothing_seen (rc_Logs rc))
       then o_executed o = Some (mr_executed m)
       else o_executed o = None ∧ mr_executed m = true)
  | Panics _, Panics _, Panics _ => True
  | _, _, _ => False
  end.
Proof.
  pose proof (scan_in_step (read_event ctx h) (result_event ctx id) outcome_result (rc_Logs rc)
    (λ e lg f o m t, outcome_result_step ctx h id e lg f o m t Hid)
    nothing_seen no_outcome (mined id true) t) as HA.
  pose proof (scan_in_step (result_event ctx id) (receipt_event ctx id) result_view (rc_Logs rc)
    (λ e lg f m v t, result_view_step ctx id e lg f m v t)
    nothing_seen (mined id true) {| rv_reverted := None; rv_receipt := rc |} t) as HB.
  unfold readHubEvents, metaTxResultOf, receiptViewOf.
  destruct (scan (read_event ctx h) _ _ _ _) as [[r1 t1] l1],
    (scan (result_event ctx id) _ _ _ _) as [[r2 t2] l2],
    (scan (receipt_event ctx id) _ _ _ _) as [[r3 t3] l3].
  destruct HA as (-> & -> & HA); [done|]. destruct HB as (-> & -> & HB); [done|].
  split_and!; [done..|].
  destruct r1 as [[o f1]|], r2 as [[m f2]|], r3 as [[v f3]|]; simpl; try done.
  destruct HA as (-> & -> & He & Hd & Hx), HB as (_ & -> & Hr & Hs & Hz).
  set (f := seen_of nothing_seen (rc_Logs rc)) in *. unfold finish.
  destruct (silent_deploy f) eqn:Hsil.
  - unfold silent_deploy, hub_spoke in *.
    destruct (sawRelayed f), (sawContractDeployed f), (sawTransactionRelayed f),
      (sawBadTransaction f); try done. simpl. split_and!; try done.
    by intros rc' reason [= <- _].
  - unfold silent_deploy, hub_spoke in *. destruct (o_executed o) as [b|] eqn:Ho;
      destruct (sawRelayed f), (sawContractDeployed f), (sawTransactionRelayed f),
        (sawBadTransaction f); simpl in *; try done; split_and!; try done; try (destruct Hx; congruence).
Qed.

End Hub.

(** A hub whose events are told by their data: a first byte that is not zero for a metatx that
    ran, the rest being its output. *)
Definition sample_hub : HubLib := {|
  HexToHash s := (hex_decode (trim_prefix "0x" s)).1;
  unpack_TransactionRelayed data :=
    match data with [] => (false, []) | b :: data => (negb (b =? 0), data) end;
  unpack_BadTransactionSent data :=
    match data with [] => (0, zero_address) | b :: data => (b, data) end;
|}.

#[local] Existing Instances sample_unicode sample_geth sample_hub.

(** A receipt in which the hub rejected the metatx for its nonce. *)
Definition rejected_receipt : Receipt := {|
  rc_PostState := [0]; rc_Status := 1;
  rc_Logs := [{| lg_Topics := [keccak256 (string_bytes "BadTransactionSent(address,address,uint8)")];
                 lg_Data := 2 :: replicate 20 1 |}];
  rc_ContractAddress := zero_address; rc_GasUsed := 21000; rc_BlockNumber := Some 9 |}.

Lemma readers_agree_witness :
  let '(r, t, log) := readHubEvents background sample_hash (Some rejected_receipt) empty_tracker in
  t = (metaTxResultOf background (hash_Hex sample_hash) (Some rejected_receipt) empty_tracker).1.2 ∧
  length log = 1%nat.
Proof.
  pose proof (readers_agree background sample_hash (hash_Hex sample_hash) rejected_receipt
    empty_tracker eq_refl) as H.
  destruct (readHubEvents background sample_hash (Some rejected_receipt) empty_tracker)
    as [[r t] log] eqn:Hr.
  destruct (metaTxResultOf _ _ _ _) as [[r2 t2] l2], (receiptViewOf _ _ _ _) as [[r3 t3] l3].
  destruct H as ((-> & _) & _ & _). split; [done|].
  change log with (r, t2, log).2. rewrite <-Hr. by vm_compute.
Defined.
