(* ===== verification/Settle.v ===== *)
(** Closing a metatx, [service/settle.go], and the synchronous relay that waits for it,
    [service/relay.go]: the closing is registered once, by whoever gets there first,
    and gives back the place the metatx had in the tracker. *)

From S2P Require Import Prelude GoLib Config Errors Events AuditLog Client Permissioning Tracker Handout MetaTx Reorder Correlation Gas Service Revert Hub.

Section Settle.
Context `{GoUnicode} `{Geth} `{EthLib} `{PkgErrors} `{HubLib} (c : Config).

Abbreviation cfg := (Some c).

(** ** Closing *)

(** The place goes back to the chain it was reserved on; when the hub rejected the
    metatx, that chain is no more. *)
Definition releaseSent (now : Z) (h : hash) (rejectedByHub : bool) (s : Service) : Service :=
  let '(key, chain, m) := takeChain h (sv_memory s) in
  let s := with_memory m s in
  if bool_decide (chain = None) || bool_decide (key = "") then s
  else if rejectedByHub then s
  else with_tracker (releaseChain cfg now key chain (sv_tracker s)) s.

Definition settled_event (ctx : context) (blockNumber : option Z) (gasUsed : string)
    (o : metaTxOutcome) : emission :=
  Info ctx "relay.settled"
    (<["blockNumber" := v_opt VInt blockNumber]>
     (<["gasUsed" := VStr gasUsed]>
     (<["executed" := v_opt VBool (o_executed o)]>
     (<["errorCodeName" := v_opt VStr (o_errorCodeName o)]>
     (<["deployedAddress" := v_opt VStr (o_deployedAddress o)]> ∅))))).

Definition settle (now : Z) (ctx : context) (h : hash) (blockNumber : option Z) (gasUsed : string)
    (o : metaTxOutcome) (s : Service) : Service * list emission :=
  let '(won, m) := claimSettled h (sv_memory s) in
  if negb won then (s, [])
  else (releaseSent now h (o_hubRejected o) (with_memory m s),
        [settled_event ctx blockNumber gasUsed o]).

(** ** [POST /relay] *)

Record RelayResult := {
  rr_TransactionHash : string;
  rr_IsDeploy : bool;
  rr_DeployedAddress : option string;
  rr_BlockNumber : option Z;
  rr_GasUsed : string;
  rr_ErrorCode : option Z;
  rr_ErrorCodeName : option string;
  rr_Executed : option bool;
  rr_Output : option string;
  rr_From : string;
  rr_To : option string;
  rr_Nonce : Z;
  rr_MetaTxGasLimit : string;
  rr_Events : list string;
  rr_Simulated : bool;
}.

Definition relay_result (h : hash) (prepared : PreparedMetaTx) (blockNumber : option Z)
    (gasUsed : string) (o : metaTxOutcome) : RelayResult := {|
  rr_TransactionHash := hash_Hex h; rr_IsDeploy := IsDeploy prepared;
  rr_DeployedAddress := o_deployedAddress o; rr_BlockNumber := blockNumber;
  rr_GasUsed := gasUsed; rr_ErrorCode := o_errorCode o; rr_ErrorCodeName := o_errorCodeName o;
  rr_Executed := o_executed o; rr_Output := o_output o; rr_From := address_Hex (From prepared);
  rr_To := address_Hex <$> To prepared; rr_Nonce := Nonce prepared;
  rr_MetaTxGasLimit := dec_string (MetaTxGasLimit prepared); rr_Events := o_events o;
  rr_Simulated := false |}.

Definition decodeRelayResult (now : Z) (ctx : context) (h : hash) (prepared : PreparedMetaTx)
    (receipt : option Receipt) (s : Service) : outcome RelayResult * Service * list emission :=
  match receipt with
  | None => (Returns (relay_result h prepared None "0" no_outcome), s, [])
  | Some rc =>
      let gasUsed := dec_string (rc_GasUsed rc) in
      let blockNumber := u64 <$> rc_BlockNumber rc in
      let '(r, t, log) := readHubEvents ctx h (Some rc) (sv_tracker s) in
      let s := with_tracker t s in
      match r with
      | Panics why => (Panics why, s, log)
      | Returns o =>
          let '(s, log') := settle now ctx h blockNumber gasUsed o s in
          (Returns (relay_result h prepared blockNumber gasUsed o), s, log ++ log')
      end
  end.

(** The shape of a signed transaction in hexadecimal. *)
Definition hex_characters : list Ascii.ascii := String.list_ascii_of_string "0123456789abcdefABCDEF".

Definition IsHexData (value : string) : bool :=
  let body := trim_prefix "0X" (trim_prefix "0x" value) in
  if bool_decide (body = "") || bool_decide (body = value) then false
  else forallb (λ ch, bool_decide (ch ∈ hex_characters)) (String.list_ascii_of_string body).

(** ** Waiting for the receipt *)

Definition receiptPollInterval : Z := 500 * millisecond.
Definition defaultReceiptTimeout : Z := 60 * second.

Definition receipt_timeout : Z :=
  if 0 <? ReceiptTimeoutMs (Reorder c) then duration (ReceiptTimeoutMs (Reorder c)) millisecond
  else defaultReceiptTimeout.

(** Which case of the [select] fires after a poll. *)
Inductive poll_end := Tick | Deadline | StoppedWaiting.

(** The duration of the deadline in words ([time.Duration.String]) is a parameter. *)
Context (duration_String : Z → string).

Definition timed_out (h : hash) (lastErr : option error) : error :=
  Errors.New ("the metatx was sent but its result was not known within "
    +:+ duration_String receipt_timeout +:+ ": consult the receipt for " +:+ hash_Hex h
    +:+ match lastErr with
        | Some e => " (last error: " +:+ Error e +:+ ")"
        | None => ""
        end) (-32603).

Definition stopped_waiting (h : hash) : error :=
  Errors.New ("the client stopped waiting for " +:+ hash_Hex h) (-32603).

(** The loop, along the readings it makes: [None] while it is still waiting. *)
Fixpoint poll (h : hash) (lastErr : option error) (readings : list (Node * poll_end)) :
    option (result error Receipt) :=
  match readings with
  | [] => None
  | (node, after) :: readings =>
      match GetTransactionReceipt node h with
      | Ok receipt => Some (Ok receipt)
      | Err e =>
          match after with
          | Deadline => Some (Err (timed_out h (Some e)))
          | StoppedWaiting => Some (Err (stopped_waiting h))
          | Tick => poll h (Some e) readings
          end
      end
  end.

Definition waitForReceipt (node : Node) (h : hash) (readings : list (Node * poll_end)) :
    option (result error Receipt) :=
  match Connect node (NodeURL (Application c)) with
  | Err e => Some (Err e)
  | Ok _ => poll h None readings
  end.

(** ** Closing once *)

Lemma takeChain_mark h m e :
  m !! h = Some e →
  takeChain h (<[h := mark_settled e]> m) =
    (e_senderKey e, e_chain e, <[h := without_chain (mark_settled e)]> m).
Proof. intros He. unfold takeChain. by rewrite lookup_insert_eq, insert_insert_eq. Qed.

(** The state after the closing that wins. *)
Lemma settle_won now ctx h bn gu o s e :
  sv_memory s !! h = Some e → settled e = false →
  settle now ctx h bn gu o s =
    (let s' := with_memory (<[h := without_chain (mark_settled e)]> (sv_memory s)) s in
     if bool_decide (e_chain e = None) || bool_decide (e_senderKey e = "") || o_hubRejected o then s'
     else with_tracker (releaseChain cfg now (e_senderKey e) (e_chain e) (sv_tracker s)) s',
     [settled_event ctx bn gu o]).
Proof.
  intros He Hs. unfold settle, claimSettled, releaseSent. rewrite He, Hs. simpl.
  rewrite takeChain_mark by done. by repeat case_bool_decide; destruct (o_hubRejected o).
Qed.

(** Closing twice is closing once. The first to close a metatx that the memory has registers it,
    with one [relay.settled], and leaves nothing to do: whoever closes it again, whenever, with
    whatever it read, changes nothing at all and logs nothing. And what the first gives back is one
    place, on the chain on which the place was taken: if another chain has replaced it, or the hub
    rejected the metatx, the tracker stays as it is. *)
Theorem settle_is_idempotent (now now' : Z) (ctx ctx' : context) (h : hash) (bn bn' : option Z)
    (gu gu' : string) (o o' : metaTxOutcome) (s : Service) (e : metaTxEntry)
    (He : sv_memory s !! h = Some e) :
  let '(s1, log) := settle now ctx h bn gu o s in
  settle now' ctx' h bn' gu' o' s1 = (s1, []) ∧
  log = (if settled e then [] else [settled_event ctx bn gu o]) ∧
  (settled e = true → s1 = s) ∧
  (settled e = false →
     sv_tracker s1 =
       (if o_hubRejected o || bool_decide (e_senderKey e = "") then sv_tracker s
        else releaseChain cfg now (e_senderKey e) (e_chain e) (sv_tracker s))).
Proof.
  destruct (settled e) eqn:Hs.
  - unfold settle at 1, claimSettled. rewrite He, Hs. simpl. split_and!; try done.
    unfold settle, claimSettled. by rewrite He, Hs.
  - rewrite (settle_won now ctx h bn gu o s e He Hs). split_and!; try done.
    + unfold settle, claimSettled.
      replace (sv_memory _ !! h) with (Some (without_chain (mark_settled e))); [done|].
      destruct (_ || _); simpl; by rewrite lookup_insert_eq.
    + intros _. unfold releaseChain. destruct (e_chain e); repeat case_bool_decide;
        destruct (o_hubRejected o); done.
Qed.

(** ** What is in flight is what is not closed *)

(** The service as its users go through it, as long as the memory gives up nothing: a send that
    goes out under a hash that is not in use; a closing, which follows a rejection of the
    hub only once the chain was forgotten; and whatever else the goroutines do with the tracker. *)
Inductive service_step : Service → Service → Prop :=
  | sv_send rd ctx prepared h s s' log :
      reserveGasAndSend c rd ctx prepared s = (Returns (Ok h), s', log) →
      sv_memory s !! h = None →
      evictLocked (sr_remember rd) (sr_order rd) (sv_memory s) = sv_memory s →
      senderKey (SenderKey prepared) ≠ "" →
      service_step s s'
  | sv_settle now ctx h bn gu o s :
      (∀ e p, sv_memory s !! h = Some e → e_chain e = Some p → o_hubRejected o = true →
         Chains.senders (chs (sv_tracker s)) !! e_senderKey e ≠ Some p) →
      service_step s (settle now ctx h bn gu o s).1
  | sv_other t s :
      Chains.wf (chs t) → Chains.shrinks (chs (sv_tracker s)) (chs t) → Held.wf (hld t) →
      service_step s (with_tracker t s).

(** How many metatx of the memory count on a chain. *)
Definition counting_on (p : nat) (m : memory) : nat := count_if (λ e, e_chain e = Some p) m.

(** With the places that were taken for metatx that are not in the memory yet. *)
Record in_flight_inv (x : nat → nat) (s : Service) : Prop := {
  if_wf : tracker_wf (sv_tracker s);
  if_entry : ∀ h e p, sv_memory s !! h = Some e → e_chain e = Some p →
    e_senderKey e ≠ "" ∧ (p < Chains.fresh (chs (sv_tracker s)))%nat ∧
    ∀ k, Chains.senders (chs (sv_tracker s)) !! k = Some p → k = e_senderKey e;
  if_count : ∀ k p, Chains.senders (chs (sv_tracker s)) !! k = Some p →
    Chains.pending (Chains.at_ (chs (sv_tracker s)) p) = Z.of_nat (counting_on p (sv_memory s) + x p);
}.

Lemma in_flight_other x t s :
  Chains.wf (chs t) → Chains.shrinks (chs (sv_tracker s)) (chs t) → Held.wf (hld t) →
  in_flight_inv x s → in_flight_inv x (with_tracker t s).
Proof.
  intros Hwf [Hf Hs] Hheld [_ Hentry Hcount]. constructor; simpl.
  - by split.
  - intros h e p He Hp. destruct (Hentry h e p He Hp) as (? & ? & Hk).
    split_and!; [done|lia|]. intros k [Hk' _]%Hs. by apply Hk.
  - intros k p Hp. apply Hs in Hp as [Hp ->]. by eapply Hcount.
Qed.

Lemma counting_on_update p h e e' m :
  m !! h = Some e →
  ((if decide (e_chain e = Some p) then 1 else 0) + counting_on p (<[h := e']> m) =
   (if decide (e_chain e' = Some p) then 1 else 0) + counting_on p m)%nat.
Proof. exact (count_if_update (λ e, e_chain e = Some p) m h e e'). Qed.

Lemma counting_on_pos p h e m : m !! h = Some e → e_chain e = Some p → (0 < counting_on p m)%nat.
Proof.
  intros He Hp. pose proof (count_if_delete (λ e, e_chain e = Some p) m h e He) as Hc.
  simpl in Hc. rewrite decide_True in Hc by done. unfold counting_on. lia.
Qed.

(** Giving a place back touches one chain, if it is still in force. *)
Lemma release_places now key p t :
  Chains.wf (chs t) →
  (∀ k, Chains.senders (chs t) !! k = Some p → k = key ∧ 0 < Chains.pending (Chains.at_ (chs t) p)) →
  let t' := releaseChain cfg now key (Some p) t in
  (Chains.fresh (chs t) ≤ Chains.fresh (chs t'))%nat ∧
  ∀ k q, Chains.senders (chs t') !! k = Some q →
    Chains.senders (chs t) !! k = Some q ∧
    Chains.pending (Chains.at_ (chs t') q) =
      Chains.pending (Chains.at_ (chs t) q) - (if decide (p = q) then 1 else 0).
Proof.
  intros Hwf Hpos. unfold releaseChain.
  destruct (Chains.release cfg now key (Some p) (chs t)) as [ch|] eqn:Hr; simpl.
  - apply Chains.release_pending in Hr as (p' & [= <-] & Hin & Hf & Hp'). split; [done|].
    intros k q Hk. destruct (Hp' k q Hk) as [Hk' ->]. split; [done|].
    case_decide as Heq; [|lia]. subst q. destruct (Hpos k Hk') as [_ Hlt].
    destruct (Z.ltb_spec 0 (Chains.pending (Chains.at_ (chs t) p))); lia.
  - pose proof (Chains.release_spec cfg now key (Some p) (chs t) Hwf) as Hspec. rewrite Hr in Hspec.
    destruct Hspec as [|Hno]; [done|]. split; [done|]. intros k q Hk. split; [done|].
    rewrite decide_False; [lia|]. intros <-. destruct (Hpos k Hk) as [-> _]. done.
Qed.

(** The place of a metatx goes back, or has no chain to go back to. *)
Lemma in_flight_closed x now h e rejected s :
  in_flight_inv x s → sv_memory s !! h = Some e → settled e = false →
  (∀ p, e_chain e = Some p → rejected = true →
     Chains.senders (chs (sv_tracker s)) !! e_senderKey e ≠ Some p) →
  let s' := with_memory (<[h := without_chain (mark_settled e)]> (sv_memory s)) s in
  in_flight_inv x
    (if bool_decide (e_chain e = None) || bool_decide (e_senderKey e = "") || rejected then s'
     else with_tracker (releaseChain cfg now (e_senderKey e) (e_chain e) (sv_tracker s)) s').
Proof.
  intros Hinv He Hset Hrej s'. pose proof Hinv as [Hwf Hentry Hcount].
  set (t := if bool_decide (e_chain e = None) || bool_decide (e_senderKey e = "") || rejected
            then sv_tracker s
            else releaseChain cfg now (e_senderKey e) (e_chain e) (sv_tracker s)).
  assert (tracker_wf t) as Hwf' by (unfold t; destruct (_ || _); auto using releaseChain_wf).
  assert (Ht : (Chains.fresh (chs (sv_tracker s)) ≤ Chains.fresh (chs t))%nat ∧
    ∀ k q, Chains.senders (chs t) !! k = Some q →
      Chains.senders (chs (sv_tracker s)) !! k = Some q ∧
      Chains.pending (Chains.at_ (chs t) q) =
        Chains.pending (Chains.at_ (chs (sv_tracker s)) q) -
        (if decide (e_chain e = Some q) then 1 else 0)).
  { assert (∀ q k, e_chain e = Some q → Chains.senders (chs (sv_tracker s)) !! k = Some q →
      k = e_senderKey e ∧ 0 < Chains.pending (Chains.at_ (chs (sv_tracker s)) q)) as Hpos.
    { intros q k Hq Hk. destruct (Hentry h e q He Hq) as (_ & _ & Hown). split; [by apply Hown|].
      rewrite (Hcount _ _ Hk). pose proof (counting_on_pos q h e _ He Hq). lia. }
    unfold t. destruct (e_chain e) as [p|] eqn:Hp; simpl.
    2:{ split; [done|]. intros k q Hk. rewrite Z.sub_0_r. done. }
    destruct (Hentry h e p He Hp) as (Hkey & _ & _).
    rewrite (bool_decide_false (e_senderKey e = "")) by done. simpl.
    destruct rejected.
    { split; [done|]. intros k q Hk. rewrite decide_False; [rewrite Z.sub_0_r; done|].
      intros [= <-]. destruct (Hpos p k eq_refl Hk) as [-> _]. by apply (Hrej p). }
    destruct (release_places now (e_senderKey e) p (sv_tracker s)) as [Hf Hs]; [apply Hwf|auto|].
    split; [done|]. intros k q Hk. destruct (Hs k q Hk) as [? ->]. split; [done|].
    by rewrite (decide_ext (Some p = Some q) (p = q)) by (split; congruence). }
  destruct Ht as [Hf Ht].
  assert (in_flight_inv x (with_tracker t s')) as Hdone.
  { constructor; simpl; [done|..].
    - intros h' e' q. rewrite lookup_insert. case_decide as Hh; [by intros [= <-]|].
      intros He' Hq. destruct (Hentry h' e' q He' Hq) as (? & ? & Hown).
      split_and!; [done|lia|]. intros k Hk. apply Hown. by apply Ht.
    - intros k q Hk. destruct (Ht k q Hk) as [Hk' ->]. rewrite (Hcount _ _ Hk').
      pose proof (counting_on_update q h e (without_chain (mark_settled e)) (sv_memory s) He) as Hc.
      rewrite (decide_False (P := e_chain (without_chain _) = Some q)) in Hc by done.
      case_decide; lia. }
  unfold t, s' in *. by destruct (_ || _).
Qed.

Lemma in_flight_settle x now ctx h bn gu o s :
  (∀ e p, sv_memory s !! h = Some e → e_chain e = Some p → o_hubRejected o = true →
     Chains.senders (chs (sv_tracker s)) !! e_senderKey e ≠ Some p) →
  in_flight_inv x s → in_flight_inv x (settle now ctx h bn gu o s).1.
Proof.
  intros Hrej Hinv. destruct (sv_memory s !! h) as [e|] eqn:He.
  - destruct (settled e) eqn:Hs.
    + unfold settle, claimSettled. by rewrite He, Hs.
    + rewrite (settle_won now ctx h bn gu o s e He Hs). apply in_flight_closed; eauto.
  - unfold settle, claimSettled, releaseSent, takeChain. rewrite He. simpl. rewrite He. simpl.
    by destruct s.
Qed.

(** A send as the chains and the memory see it. *)
Lemma send_decomposed rd ctx prepared h s s' log :
  reserveGasAndSend c rd ctx prepared s = (Returns (Ok h), s', log) →
  evictLocked (sr_remember rd) (sr_order rd) (sv_memory s) = sv_memory s →
  let key := senderKey (SenderKey prepared) in
  let '(p, ch) := Chains.reserveLocked cfg (sr_note rd) key (Nonce prepared) (reorderEnabled cfg)
                    (chs (sv_tracker s)) in
  let chain := if reorderEnabled cfg then Some p else None in
  chs (sv_tracker s') = ch ∧
  hld (sv_tracker s') = (if reorderEnabled cfg then Held.notifyTurnLocked key (hld (sv_tracker s))
                         else hld (sv_tracker s)) ∧
  (sv_memory s' = sv_memory s ∧ chain = None ∨
   ∃ e, sv_memory s' = <[h := e]> (sv_memory s) ∧ e_chain e = chain ∧ e_senderKey e = key ∧
     settled e = false).
Proof.
  intros Hsend Hkeep. unfold reserveGasAndSend, sendPrepared in Hsend.
  destruct (VerifyGasLimit _ _ _ _) as [[[[]|]|] g] in Hsend; try done.
  destruct (broadcast _ _ _) as [[tx|]|] in Hsend; try done.
  unfold noteSent, incrementTransactionCount, reserveLocked in Hsend. simpl in Hsend.
  destruct (reorderEnabled (Some c)); simpl in *;
    destruct (Chains.reserveLocked _ _ _ _ _ _) as [p ch]; simplify_eq/=;
    split_and!; try done; unfold rememberMetaTx; rewrite Hkeep; case_match eqn:Hb;
    try (right; eexists; by split_and!); left; split; try done.
  by apply andb_true_iff in Hb as [_ Hb%bool_decide_eq_true].
Qed.

Lemma in_flight_send rd ctx prepared h s s' log :
  reserveGasAndSend c rd ctx prepared s = (Returns (Ok h), s', log) →
  sv_memory s !! h = None →
  evictLocked (sr_remember rd) (sr_order rd) (sv_memory s) = sv_memory s →
  senderKey (SenderKey prepared) ≠ "" →
  in_flight_inv (λ _, 0%nat) s → in_flight_inv (λ _, 0%nat) s'.
Proof.
  intros Hsend Hh Hkeep Hkey [[Hwfc Hwfh] Hentry Hcount].
  pose proof (send_decomposed rd ctx prepared h s s' log Hsend Hkeep) as Hd. simpl in Hd.
  set (key := senderKey (SenderKey prepared)) in *. set (b := reorderEnabled cfg) in *.
  pose proof (Chains.reserveLocked_pointer cfg (sr_note rd) key (Nonce prepared) b
    (chs (sv_tracker s)) Hwfc) as Hr.
  destruct (Chains.reserveLocked _ _ _ _ _ _) as [p ch].
  destruct Hr as (Hwf' & Hp & Hf & Hpf & Hs & Hpend & Hcase), Hd as (<- & Hhld & Hm).
  assert (Hnew : ∀ h' e q, sv_memory s' !! h' = Some e → e_chain e = Some q →
    (sv_memory s !! h' = Some e) ∨
    (h' = h ∧ q = p ∧ b = true ∧ settled e = false ∧ e_senderKey e = key)).
  { intros h' e q He Hq. destruct Hm as [[Hm _]|(e' & Hm & Hce & Hke & Hse)]; rewrite Hm in He;
      [by left|]. apply lookup_insert_Some in He as [[<- <-]|[_ He]]; [right|by left].
    rewrite Hce in Hq. destruct b; by simplify_eq. }
  assert (Hcnt : ∀ q, Z.of_nat (counting_on q (sv_memory s')) =
    Z.of_nat (counting_on q (sv_memory s)) + (if decide (p = q) then (if b then 1 else 0) else 0)).
  { intros q. destruct Hm as [[-> Hb]|(e & -> & Hce & _)].
    - destruct b; [done|]. case_decide; lia.
    - unfold counting_on. rewrite count_if_new by done. rewrite Hce.
      destruct b; repeat case_decide; simplify_eq; lia. }
  constructor.
  - split; [done|]. rewrite Hhld. destruct b; [by apply Held.notifyTurnLocked_spec|done].
  - intros h' e q He Hq. destruct (Hnew h' e q He Hq) as [He'|(-> & -> & _ & Hse & Hke)].
    + destruct (Hentry h' e q He' Hq) as (? & ? & Hown). split_and!; [done|lia|].
      intros k Hk. destruct (decide (k = key)) as [->|Hne]; [|apply Hown; by rewrite <-Hs].
      apply Hown. destruct Hcase as [[Hin _]|[Hpf' _]]; [congruence|].
      rewrite Hp in Hk. simplify_eq. lia.
    + rewrite Hke. split_and!; [done|lia|]. intros k Hk. by eapply Chains.wf_own.
  - intros k q Hk. rewrite Nat.add_0_r, Hcnt. destruct (decide (k = key)) as [->|Hne].
    + rewrite Hp in Hk. injection Hk as <-. rewrite decide_True by done.
      destruct Hcase as [[Hin ->]|[Hpf' ->]]; [rewrite (Hcount _ _ Hin); lia|].
      replace (counting_on p (sv_memory s)) with 0%nat; [lia|]. symmetry.
      apply count_if_none. intros h' e He Hq.
      destruct (Hentry h' e p He Hq) as (_ & ? & _). lia.
    + rewrite decide_False.
      * rewrite Hs in Hk by done. rewrite (Hpend k q) by done. rewrite (Hcount _ _ Hk). lia.
      * intros <-. apply Hne. by eapply Chains.wf_own.
Qed.

(** When closings are not interrupted, what has a place is not closed. *)
Definition open_places (m : memory) : Prop :=
  ∀ h e p, m !! h = Some e → e_chain e = Some p → settled e = false.

Lemma open_places_insert h e m :
  (∀ p, e_chain e = Some p → settled e = false) → open_places m → open_places (<[h := e]> m).
Proof. intros Hn Hm h' e' p [[<- <-]|[_ He]]%lookup_insert_Some Hp; [by eapply Hn|by eapply Hm]. Qed.

Lemma settle_memory now ctx h bn gu o s e :
  sv_memory s !! h = Some e → settled e = false →
  sv_memory (settle now ctx h bn gu o s).1 = <[h := without_chain (mark_settled e)]> (sv_memory s).
Proof. intros He Hs. rewrite (settle_won now ctx h bn gu o s e He Hs). by destruct (_ || _). Qed.

Lemma open_places_step s s' : service_step s s' → open_places (sv_memory s) → open_places (sv_memory s').
Proof.
  destruct 1 as [rd ctx prepared h s s' log Hsend Hh Hkeep Hkey|now ctx h bn gu o s _|]; [..|done].
  - pose proof (send_decomposed rd ctx prepared h s s' log Hsend Hkeep) as Hd. simpl in Hd.
    destruct (Chains.reserveLocked _ _ _ _ _ _) as [p ch].
    destruct Hd as (_ & _ & [[-> _]|(e & -> & _ & _ & Hs)]); [done|]. by apply open_places_insert.
  - destruct (sv_memory s !! h) as [e|] eqn:He; [destruct (settled e) eqn:Hs|].
    + unfold settle, claimSettled. by rewrite He, Hs.
    + rewrite (settle_memory now ctx h bn gu o s e He Hs). by apply open_places_insert.
    + unfold settle, claimSettled, releaseSent, takeChain. rewrite He. simpl. by rewrite He.
Qed.

(** The count of what a user has in flight is neither lost nor given back twice: however sends,
    closings (by the watcher and by whoever asks, once or many times), forgotten chains, expired
    ones and grace timers interleave, the number on the chain in force of a user is that of the
    metatx that were sent on it and are not closed. It is under the assumption that the memory
    gives up nothing, and the two ways it has of giving up are the ones that lose a place. *)
Theorem in_flight_is_what_is_not_closed (s : Service) (g : Z) (q : Queue.t)
    (Hreach : rtc service_step
       {| sv_tracker := empty_tracker; sv_queue := q; sv_memory := ∅; sv_gas := g |} s) :
  ∀ key p, Chains.senders (chs (sv_tracker s)) !! key = Some p →
    Chains.pending (Chains.at_ (chs (sv_tracker s)) p) = Z.of_nat (counting_on p (sv_memory s)) ∧
    ∀ h e, sv_memory s !! h = Some e → e_chain e = Some p →
      settled e = false ∧ e_senderKey e = key.
Proof.
  assert (in_flight_inv (λ _, 0%nat) s ∧ open_places (sv_memory s)) as [[_ Hentry Hcount] Hopen].
  { eapply (rtc_preserves service_step
      (λ s, in_flight_inv (λ _, 0%nat) s ∧ open_places (sv_memory s))); [| |done].
    - intros a b Hab [Ha Ho]. split; [|by eapply open_places_step].
      destruct Hab; [by eapply in_flight_send|by apply in_flight_settle|]. by apply in_flight_other.
    - split; [|intros ???; simpl; by rewrite lookup_empty].
      constructor; simpl; [apply empty_tracker_wf|..]; intros *; by rewrite lookup_empty. }
  intros key p Hp. split; [rewrite (Hcount _ _ Hp); lia|]. intros h e He Hq.
  destruct (Hentry h e p He Hq) as (_ & _ & Hown). split; [by eapply Hopen|]. symmetry. by apply Hown.
Qed.

End Settle.

#[local] Existing Instances sample_unicode sample_geth sample_eth sample_errors sample_hub.

(** The service after the sample metatx went out. *)
Definition sent_service : Service :=
  (reserveGasAndSend sample_config sample_send sample_ctx sample_prepared sample_service).1.2.
Definition sent_hash : hash := tx_Hash sample_transaction.

Lemma settle_is_idempotent_witness :
  let s1 := (settle sample_config 9 background sent_hash (Some 4) "21000" no_outcome sent_service).1 in
  settle sample_config 10 background sent_hash None "0" no_outcome s1 = (s1, []).
Proof.
  assert (∃ e, sv_memory sent_service !! sent_hash = Some e) as [e He]
    by (eexists; vm_compute; reflexivity).
  pose proof (settle_is_idempotent sample_config 9 10 background background sent_hash (Some 4) None
    "21000" "0" no_outcome no_outcome sent_service e He) as H.
  destruct (settle sample_config 9 background sent_hash (Some 4) "21000" no_outcome sent_service)
    as [s1 log].
  apply H.
Defined.

Lemma in_flight_is_what_is_not_closed_witness :
  Chains.senders (chs (sv_tracker sent_service)) !! "0xab" = Some 0%nat ∧
  Chains.pending (Chains.at_ (chs (sv_tracker sent_service)) 0) =
    Z.of_nat (counting_on 0 (sv_memory sent_service)).
Proof.
  split; [by vm_compute|].
  apply (in_flight_is_what_is_not_closed sample_config sent_service 0 Queue.empty) with (key := "0xab");
    [|by vm_compute].
  apply rtc_once.
  apply (sv_send sample_config sample_send sample_ctx sample_prepared sent_hash _ _
    (reserveGasAndSend sample_config sample_send sample_ctx sample_prepared sample_service).2);
    [by vm_compute|by vm_compute|by vm_compute|done].
Defined.
