(* ===== verification/Watcher.v ===== *)
(** The watcher of results, [service/watcher.go], and the loop over new blocks it hangs
    from, [ProcessNewBlocks] of [service/relaySignerService.go]. *)

From S2P Require Import Prelude GoLib Config Errors Events AuditLog Client Permissioning Tracker Handout MetaTx Reorder Correlation Gas Service Revert Hub Settle.

(** A metatx sent and not closed, as [inFlight] copies it out of the memory. *)
Record inFlightMetaTx := {
  fl_hash : hash;
  fl_sentAt : Z;
  fl_senderKey : string;
  fl_chain : option nat;
}.

Definition in_flight_of (h : hash) (e : metaTxEntry) : option inFlightMetaTx :=
  if unresolved e
  then Some {| fl_hash := h; fl_sentAt := rememberedAt e; fl_senderKey := e_senderKey e;
               fl_chain := e_chain e |}
  else None.

(** In the order of a walk of the map. *)
Definition inFlight (order : list hash) (m : memory) : list inFlightMetaTx :=
  omap (λ h, e ← m !! h; in_flight_of h e) order.

Lemma inFlight_cons h order m :
  inFlight (h :: order) m =
    match m !! h ≫= in_flight_of h with
    | Some mt => mt :: inFlight order m
    | None => inFlight order m
    end.
Proof. done. Qed.

Lemma inFlight_ext order m m' :
  (∀ h, h ∈ order → m !! h = m' !! h) → inFlight order m = inFlight order m'.
Proof.
  induction order as [|h order IH]; intros Hsame; [done|]. rewrite !inFlight_cons.
  rewrite Hsame by set_solver. rewrite IH; [done|]. intros. apply Hsame. set_solver.
Qed.

(** What resolving one metatx reads: the clock when it is recalled, the node, and the
    clock when it is expired or closed. *)
Record watch_reading := {
  wr_recall : Z;
  wr_node : Node;
  wr_now : Z;
}.

Section Watcher.
Context `{GoUnicode} `{Geth} `{EthLib} `{PkgErrors} `{GoFmt} `{HubLib} (c : Config).
Context (duration_String : Z → string).

Abbreviation cfg := (Some c).

Definition receiptTimeout : Z :=
  if 0 <? ReceiptTimeoutMs (Reorder c) then duration (ReceiptTimeoutMs (Reorder c)) millisecond
  else defaultReceiptTimeout.

Definition settle_failed_event (ctx : context) (h : hash) (cause : option error) : emission :=
  Warn ctx "relay.settle_failed"
    (<["error" := VStr match cause with
                       | Some e => Error e
                       | None => "the metatx was sent but its result was not known within "
                                 +:+ duration_String receiptTimeout
                       end]>
     (<["transactionHash" := VStr (hash_Hex h)]> ∅)).

Definition expireOne (now : Z) (ctx : context) (mt : inFlightMetaTx) (cause : option error)
    (s : Service) : Service * list emission :=
  if now - fl_sentAt mt <? receiptTimeout then (s, [])
  else
    let '(won, m) := claimSettled (fl_hash mt) (sv_memory s) in
    if negb won then (s, [])
    else (releaseSent c now (fl_hash mt) false (with_memory m s),
          [settle_failed_event ctx (fl_hash mt) cause]).

Definition recall (now : Z) (ctx : context) (h : hash) (s : Service) : context * Service :=
  let '(ctx, m) := recallMetaTx now ctx h (sv_memory s) in (ctx, with_memory m s).

Abbreviation result_of A := (outcome A * Service * list emission)%type.

(** One turn of the loop: a panic while reading the events leaves the rest undone. *)
Definition settle_one (rd : watch_reading) (ctx : context) (mt : inFlightMetaTx) (s : Service) :
    result_of unit :=
  let '(ctx, s) := recall (wr_recall rd) ctx (fl_hash mt) s in
  match GetTransactionReceipt (wr_node rd) (fl_hash mt) with
  | Err e =>
      let '(s, log) := expireOne (wr_now rd) ctx mt (Some e) s in (Returns tt, s, log)
  | Ok rc =>
      let '(r, t, log) := readHubEvents ctx (fl_hash mt) (Some rc) (sv_tracker s) in
      let s := with_tracker t s in
      match r with
      | Panics why => (Panics why, s, log)
      | Returns o =>
          let '(s, log') := settle c (wr_now rd) ctx (fl_hash mt) (u64 <$> rc_BlockNumber rc)
                              (decimal (rc_GasUsed rc)) o s in
          (Returns tt, s, log ++ log')
      end
  end.

Fixpoint settle_each (rd : hash → watch_reading) (ctx : context) (pending : list inFlightMetaTx)
    (s : Service) : result_of unit :=
  match pending with
  | [] => (Returns tt, s, [])
  | mt :: pending =>
      match settle_one (rd (fl_hash mt)) ctx mt s with
      | (Panics why, s, log) => (Panics why, s, log)
      | (Returns _, s, log) =>
          let '(r, s, log') := settle_each rd ctx pending s in (r, s, log ++ log')
      end
  end.

Fixpoint expireInFlight (rd : hash → watch_reading) (ctx : context) (pending : list inFlightMetaTx)
    (s : Service) : Service * list emission :=
  match pending with
  | [] => (s, [])
  | mt :: pending =>
      let '(ctx', s) := recall (wr_recall (rd (fl_hash mt))) ctx (fl_hash mt) s in
      let '(s, log) := expireOne (wr_now (rd (fl_hash mt))) ctx' mt None s in
      let '(s, log') := expireInFlight rd ctx pending s in
      (s, log ++ log')
  end.

(** Without the reordering, or with nothing in flight, no call is made at all. *)
Definition SettleInFlight (node : Node) (rd : hash → watch_reading) (order : list hash)
    (ctx : context) (s : Service) : result_of unit :=
  if negb (reorderEnabled cfg) then (Returns tt, s, [])
  else
    match inFlight order (sv_memory s) with
    | [] => (Returns tt, s, [])
    | pending =>
        match Connect node (NodeURL (Application c)) with
        | Err e =>
            let '(s, log) := expireInFlight rd ctx pending s in
            (Returns tt, s,
             Debug ctx "watcher.node_unavailable" (ErrorFields (Some e)) :: log)
        | Ok _ => settle_each rd ctx pending s
        end
    end.

(** ** The loop over new blocks *)

Definition initialBackoff : Z := 1 * second.
Definition maxBackoff : Z := 30 * second.

Definition nextBackoff (current max : Z) : Z :=
  let next := i64 (current * 2) in
  if max <? next then max else next.

(** Where the loop is; [Crashed] is a panic in the goroutine, which nothing recovers. *)
Inductive blocks_pc :=
  | AtConnect (backoff : Z)
  | AtSubscribe (backoff : Z)
  | InBlocks (backoff : Z)
  | AtRetry (backoff : Z)
  | BlocksDone
  | Crashed (why : string).

Inductive block_event := SocketFailed | NewHeader | DoneSignal.

(** What a step of the loop reads: whether [done] is closed, whether connecting and
    subscribing work, which case of the [select] fires, and what the watcher reads. *)
Record blocks_input := {
  bi_done : bool;
  bi_connected : bool;
  bi_subscribed : bool;
  bi_event : block_event;
  bi_node : Node;
  bi_readings : hash → watch_reading;
  bi_order : list hash;
}.

Definition blocks_step (i : blocks_input) (pc : blocks_pc) (s : Service) :
    blocks_pc * Service * list emission :=
  match pc with
  | AtConnect backoff =>
      if bi_done i then (BlocksDone, s, [])
      else if bi_connected i then (AtSubscribe backoff, s, []) else (AtRetry backoff, s, [])
  | AtSubscribe backoff =>
      if bi_subscribed i then (InBlocks initialBackoff, s, []) else (AtRetry backoff, s, [])
  | InBlocks backoff =>
      match bi_event i with
      | SocketFailed => (AtRetry backoff, s, [])
      | DoneSignal => (BlocksDone, s, [])
      | NewHeader =>
          let s := with_gas (decrement (sv_gas s)) s in
          match SettleInFlight (bi_node i) (bi_readings i) (bi_order i) background s with
          | (Returns _, s, log) => (InBlocks backoff, s, log)
          | (Panics why, s, log) => (Crashed why, s, log)
          end
      end
  | AtRetry backoff =>
      if bi_done i then (BlocksDone, s, []) else (AtConnect (nextBackoff backoff maxBackoff), s, [])
  | BlocksDone => (BlocksDone, s, [])
  | Crashed why => (Crashed why, s, [])
  end.

Fixpoint blocks_run (inputs : list blocks_input) (pc : blocks_pc) (s : Service) :
    blocks_pc * Service :=
  match inputs with
  | [] => (pc, s)
  | i :: inputs => let '(pc, s, _) := blocks_step i pc s in blocks_run inputs pc s
  end.

Definition blocks_start : blocks_pc := AtConnect initialBackoff.

(** ** Reconnecting *)

Definition backs_off (pc : blocks_pc) : Prop :=
  match pc with
  | AtConnect b | AtSubscribe b | InBlocks b | AtRetry b => initialBackoff ≤ b ≤ maxBackoff
  | _ => True
  end.

Lemma nextBackoff_spec b : initialBackoff ≤ b ≤ maxBackoff →
  nextBackoff b maxBackoff = (b * 2) `min` maxBackoff.
Proof.
  unfold nextBackoff, initialBackoff, maxBackoff, second. intros.
  rewrite i64_small by lia. destruct (Z.ltb_spec (30 * 1000000000) (b * 2)); lia.
Qed.

Lemma blocks_step_backs_off i pc s :
  backs_off pc → backs_off (blocks_step i pc s).1.1.
Proof.
  destruct pc as [b|b|b|b| |why]; simpl; auto; intros Hb.
  - by destruct (bi_done i), (bi_connected i).
  - destruct (bi_subscribed i); simpl; [|done]. unfold initialBackoff, maxBackoff, second. lia.
  - destruct (bi_event i); simpl; [done| |done].
    by destruct (SettleInFlight _ _ _ _ _) as [[[]] ?].
  - destruct (bi_done i); simpl; [done|]. rewrite nextBackoff_spec by done.
    unfold initialBackoff, maxBackoff, second in *. lia.
Qed.

Lemma blocks_step_not_done i pc s :
  bi_done i = false → bi_event i ≠ DoneSignal → pc ≠ BlocksDone →
  (blocks_step i pc s).1.1 ≠ BlocksDone.
Proof.
  intros Hd He Hpc. destruct pc as [b|b|b|b| |why]; simpl; rewrite ?Hd; try done.
  - by destruct (bi_connected i).
  - by destruct (bi_subscribed i).
  - destruct (bi_event i); simpl; [done| |done].
    by destruct (SettleInFlight _ _ _ _ _) as [[[]] ?].
Qed.

Lemma blocks_run_inv (P : blocks_pc → Prop) (Q : blocks_input → Prop) inputs pc s :
  (∀ i pc s, Q i → P pc → P (blocks_step i pc s).1.1) →
  Forall Q inputs → P pc → P (blocks_run inputs pc s).1.
Proof.
  intros Hstep HQ. revert pc s. induction HQ as [|i inputs Hi _ IH]; intros pc s HP; simpl; [done|].
  pose proof (Hstep i pc s Hi HP). destruct (blocks_step i pc s) as [[pc' s'] log]. by apply IH.
Qed.

(** One failure and its wait: the two steps of a connection that does not work. *)
Lemma failed_attempt i1 i2 inputs b s :
  bi_done i1 = false → bi_connected i1 = false → bi_done i2 = false →
  blocks_run (i1 :: i2 :: inputs) (AtConnect b) s =
    blocks_run inputs (AtConnect (nextBackoff b maxBackoff)) s.
Proof. intros H1' H2' H3'. simpl. rewrite H1', H2'. simpl. by rewrite H3'. Qed.

(** The loop over blocks does not die of the network. Whatever the node and the socket do, it
    waits between one second and thirty before it tries again, never less and never more; after
    [k] failures in a row, [2^k] seconds up to that bound; and it only ends when [done] is
    closed, or in a panic. *)
Theorem reconnection_backs_off (inputs failures : list blocks_input) (s : Service) (k : nat)
    (Hlen : length failures = (2 * k)%nat)
    (Hfail : Forall (λ i, bi_done i = false ∧ bi_connected i = false) failures) :
  backs_off (blocks_run inputs blocks_start s).1 ∧
  (Forall (λ i, bi_done i = false ∧ bi_event i ≠ DoneSignal) inputs →
   (blocks_run inputs blocks_start s).1 ≠ BlocksDone) ∧
  blocks_run failures blocks_start s = (AtConnect ((2 ^ Z.of_nat k * second) `min` maxBackoff), s).
Proof.
  split_and!.
  - apply (blocks_run_inv backs_off (λ _, True)); [intros; by apply blocks_step_backs_off| |].
    + by apply Forall_true.
    + unfold blocks_start, backs_off, initialBackoff, maxBackoff, second. lia.
  - intros Hin. eapply (blocks_run_inv (λ pc, pc ≠ BlocksDone)); [|exact Hin|done].
    intros i pc s' [??] ?. by apply blocks_step_not_done.
  - assert (∀ j b, (2 ^ Z.of_nat j * second) `min` maxBackoff = b →
      blocks_run failures (AtConnect b) s =
        (AtConnect ((2 ^ Z.of_nat (j + k) * second) `min` maxBackoff), s)) as Hrun.
    { revert failures Hlen Hfail. induction k as [|k IH]; intros failures Hlen Hfail j b Hb.
      { destruct failures; [|done]. simpl. by rewrite Nat.add_0_r, Hb. }
      destruct failures as [|i1 [|i2 failures]]; [simpl in Hlen; lia..|].
      apply Forall_cons in Hfail as [[??] Hfail]. apply Forall_cons in Hfail as [[??] Hfail].
      rewrite failed_attempt by done. simpl in Hlen.
      rewrite (IH failures ltac:(lia) Hfail (S j) (nextBackoff b maxBackoff));
        [do 6 f_equal; lia|].
      assert (1 ≤ 2 ^ Z.of_nat j) by (apply (Z.pow_le_mono_r 2 0); lia).
      rewrite nextBackoff_spec by (subst b; unfold initialBackoff, maxBackoff, second; lia).
      rewrite Nat2Z.inj_succ, Z.pow_succ_r by lia. subst b. unfold maxBackoff, second. lia. }
    unfold blocks_start. rewrite (Hrun 0%nat initialBackoff); [done|]. unfold initialBackoff, maxBackoff, second. lia.
Qed.

(** ** Freeing what is due *)

Definition closed_entry (e : metaTxEntry) : metaTxEntry := without_chain (mark_settled e).

(** What is known of a metatx when its turn comes: the node has its receipt, or the time to
    wait for it is over. *)
Definition due (rd : watch_reading) (h : hash) (e : metaTxEntry) : bool :=
  is_ok (GetTransactionReceipt (wr_node rd) h) || (receiptTimeout <=? wr_now rd - rememberedAt e).

Lemma releaseSent_memory now h rej s e :
  sv_memory s !! h = Some e →
  sv_memory (releaseSent c now h rej s) = <[h := without_chain e]> (sv_memory s).
Proof.
  intros He. unfold releaseSent, takeChain. rewrite He. by repeat case_match.
Qed.

Lemma expireOne_memory now ctx mt cause s e :
  sv_memory s !! fl_hash mt = Some e → settled e = false →
  sv_memory (expireOne now ctx mt cause s).1 =
    (if receiptTimeout <=? now - fl_sentAt mt
     then <[fl_hash mt := closed_entry e]> (sv_memory s) else sv_memory s).
Proof.
  intros He Hs. unfold expireOne.
  destruct (Z.ltb_spec (now - fl_sentAt mt) receiptTimeout),
    (Z.leb_spec receiptTimeout (now - fl_sentAt mt)); try lia; [done|].
  unfold claimSettled. rewrite He, Hs. simpl.
  rewrite (releaseSent_memory _ _ _ _ (mark_settled e)); simpl;
    [by rewrite insert_insert_eq|by rewrite lookup_insert_eq].
Qed.

Lemma recall_memory now ctx h s e :
  sv_memory s !! h = Some e → too_old now e = false →
  (recall now ctx h s).2 = s.
Proof.
  intros He Ho. unfold recall, recallMetaTx. rewrite He, Ho. by destruct s.
Qed.

Lemma settle_one_memory rd ctx h e s :
  sv_memory s !! h = Some e → unresolved e = true → too_old (wr_recall rd) e = false →
  ∀ mt, in_flight_of h e = Some mt →
  let '(r, s', log) := settle_one rd ctx mt s in
  r = Returns tt →
  sv_memory s' = (if due rd h e then <[h := closed_entry e]> (sv_memory s) else sv_memory s).
Proof.
  intros He Hun Hold mt Hmt. unfold in_flight_of in Hmt. rewrite Hun in Hmt. injection Hmt as <-.
  apply andb_true_iff in Hun as [Hset%negb_true_iff _].
  unfold settle_one. cbn [fl_hash].
  pose proof (recall_memory (wr_recall rd) ctx h s e He Hold) as Hrec.
  destruct (recall (wr_recall rd) ctx h s) as [ctx' s1]. simpl in Hrec. subst s1.
  unfold due. destruct (GetTransactionReceipt (wr_node rd) h) as [rc|err]; cbn [is_ok orb].
  - destruct (readHubEvents ctx' h (Some rc) (sv_tracker s)) as [[[o|why] t] log]; [|done].
    pose proof (settle_memory c (wr_now rd) ctx' h (u64 <$> rc_BlockNumber rc)
      (decimal (rc_GasUsed rc)) o (with_tracker t s) e He Hset) as Hm.
    destruct (settle _ _ _ _ _ _ _ _) as [s2 log2]. by intros _.
  - pose proof (expireOne_memory (wr_now rd) ctx' {| fl_hash := h; fl_sentAt := rememberedAt e;
      fl_senderKey := e_senderKey e; fl_chain := e_chain e |} (Some err) s e He Hset) as Hm.
    destruct (expireOne _ _ _ _ _) as [s2 log2]. by intros _.
Qed.

(** The memory after a turn over some metatx: those that are due are closed. *)
Definition closes (rd : hash → watch_reading) (order : list hash) (m m' : memory) : Prop :=
  ∀ h e, m !! h = Some e →
    m' !! h = Some (if bool_decide (h ∈ order) && unresolved e && due (rd h) h e
                    then closed_entry e else e).

Lemma in_order_cons h h' (order : list hash) : h' ≠ h → bool_decide (h' ∈ order) = bool_decide (h' ∈ h :: order).
Proof. intros Hne. apply bool_decide_ext. set_solver. Qed.

(** A metatx that is not in flight is passed over. *)
Lemma closes_skip rd h order m m' :
  (∀ e, m !! h = Some e → unresolved e = false) → closes rd order m m' → closes rd (h :: order) m m'.
Proof.
  intros Hskip Hc h' e' He'. rewrite (Hc h' e' He'). destruct (decide (h' = h)) as [->|Hne].
  - by rewrite (Hskip e' He'), !andb_false_r.
  - by rewrite (in_order_cons h).
Qed.

(** One that is, is closed in its turn if it is due, and the rest after it. *)
Lemma closes_cons rd h e order m m1 m' :
  h ∉ order → m !! h = Some e → unresolved e = true →
  m1 = (if due (rd h) h e then <[h := closed_entry e]> m else m) →
  closes rd order m1 m' → closes rd (h :: order) m m'.
Proof.
  intros Hh He Hun -> Hc h' e' He'. destruct (decide (h' = h)) as [->|Hne].
  - assert (e' = e) as -> by congruence. rewrite Hun.
    rewrite (bool_decide_true (h ∈ h :: order)) by set_solver. cbn [andb].
    destruct (due (rd h) h e).
    + rewrite (Hc h (closed_entry e)) by apply lookup_insert_eq. by rewrite (bool_decide_false (h ∈ order)).
    + rewrite (Hc h e He). by rewrite (bool_decide_false (h ∈ order)).
  - rewrite <-(in_order_cons h h' order Hne). apply Hc.
    destruct (due (rd h) h e); [|done]. by rewrite lookup_insert_ne.
Qed.

Lemma settle_each_closes rd ctx order s :
  NoDup order →
  (∀ h e, h ∈ order → sv_memory s !! h = Some e → unresolved e = true →
     too_old (wr_recall (rd h)) e = false) →
  let '(r, s', log) := settle_each rd ctx (inFlight order (sv_memory s)) s in
  r = Returns tt → closes rd order (sv_memory s) (sv_memory s').
Proof.
  intros Hnd. revert s. induction Hnd as [|h order Hh Hnd IH]; intros s Hold.
  { simpl. intros _ h e He. rewrite bool_decide_false by apply not_elem_of_nil. done. }
  rewrite inFlight_cons. destruct (sv_memory s !! h ≫= in_flight_of h) as [mt|] eqn:Hmt.
  2:{ specialize (IH s). destruct (settle_each rd ctx (inFlight order (sv_memory s)) s) as [[r s'] log].
      intros Hr. apply closes_skip; [|apply IH; [|done]; intros h0 e0 Hin; apply Hold; set_solver].
      intros e He. rewrite He in Hmt. simpl in Hmt. unfold in_flight_of in Hmt. by destruct (unresolved e). }
  destruct (sv_memory s !! h) as [e|] eqn:He; [|done]. simpl in Hmt.
  assert (Hun : unresolved e = true) by (unfold in_flight_of in Hmt; by destruct (unresolved e)).
  assert (fl_hash mt = h) as Hfl by (unfold in_flight_of in Hmt; rewrite Hun in Hmt; by simplify_eq).
  cbn [settle_each]. rewrite Hfl.
  pose proof (settle_one_memory (rd h) ctx h e s He Hun (Hold h e ltac:(set_solver) He Hun) mt Hmt) as Hone.
  destruct (settle_one (rd h) ctx mt s) as [[[[]|why] s1] log1]; [|done]. specialize (Hone eq_refl).
  assert (Hsame : ∀ h', h' ∈ order → sv_memory s1 !! h' = sv_memory s !! h').
  { intros h' Hin. rewrite Hone. destruct (due _ _ _); [|done].
    rewrite lookup_insert_ne; [done|]. intros ->. done. }
  rewrite (inFlight_ext order (sv_memory s) (sv_memory s1)) by (intros; by rewrite Hsame).
  specialize (IH s1).
  destruct (settle_each rd ctx (inFlight order (sv_memory s1)) s1) as [[r s'] log]. intros Hr.
  eapply closes_cons; [done|exact He|exact Hun|exact Hone|]. apply IH; [|done].
  intros h0 e0 Hin. rewrite Hsame by done. apply Hold. set_solver.
Qed.

(** (C22) The watcher frees what is due, and nothing else, in a pass that comes to its end
    without a panic, with the reordering on, the node connected, and no metatx in flight
    older than the time to live of the memory. Every metatx in flight whose receipt the
    node has, or whose time to wait for it is over, ends that pass closed and holding no
    place, and every other entry of the memory stays exactly as it was. With the reordering
    off nothing moves. Outside these conditions it may free nothing: of an entry that is
    too old speaks [late_watcher_loses_the_place], of a receipt that makes the pass panic
    [poisoned_revert_stops_the_watcher]. *)
Theorem watcher_frees_what_is_due (node : Node) (rd : hash → watch_reading) (order : list hash)
    (ctx : context) (s : Service)
    (Hwalk : NoDup order ∧ walks order (sv_memory s))
    (Hnode : is_ok (Connect node (NodeURL (Application c))) = true)
    (Hyoung : ∀ h e, sv_memory s !! h = Some e → unresolved e = true →
       too_old (wr_recall (rd h)) e = false) :
  let '(r, s', log) := SettleInFlight node rd order ctx s in
  r = Returns tt →
  if reorderEnabled cfg
  then ∀ h e, sv_memory s !! h = Some e →
         sv_memory s' !! h = Some (if unresolved e && due (rd h) h e then closed_entry e else e)
  else s' = s ∧ log = [].
Proof.
  unfold SettleInFlight. destruct (reorderEnabled cfg); cbn [negb]; [|done].
  destruct Hwalk as [Hnd Hwalk].
  pose proof (settle_each_closes rd ctx order s Hnd) as Hc.
  destruct (inFlight order (sv_memory s)) as [|mt pending] eqn:Hpend.
  - simpl in Hc. intros _ h e He. rewrite (Hc ltac:(eauto) eq_refl h e He).
    by rewrite bool_decide_true by eauto.
  - destruct (Connect node _) as [u|]; [|done].
    destruct (settle_each rd ctx (mt :: pending) s) as [[r s'] log].
    intros Hr h e He. rewrite (Hc ltac:(eauto) Hr h e He). by rewrite bool_decide_true by eauto.
Qed.

(** The watcher loses the place of a metatx it reaches late. If no block comes within the time to
    live of the memory, recalling the metatx for its correlation takes its entry away, and what
    was to be given back was there: whatever the node answers, the tracker is touched by nothing
    but a rejection of the hub, and nobody who closes the metatx later gives its place back. The
    user's count stays one too many for as long as its chain lives. *)
Theorem late_watcher_loses_the_place (rd : watch_reading) (ctx : context) (h : hash)
    (e : metaTxEntry) (mt : inFlightMetaTx) (s : Service)
    (He : sv_memory s !! h = Some e) (Hmt : in_flight_of h e = Some mt)
    (Hold : too_old (wr_recall rd) e = true) :
  let '(r, s', log) := settle_one rd ctx mt s in
  sv_memory s' = delete h (sv_memory s) ∧
  sv_tracker s' = match GetTransactionReceipt (wr_node rd) h with
                  | Ok rc => (readHubEvents ctx h (Some rc) (sv_tracker s)).1.2
                  | Err _ => sv_tracker s
                  end ∧
  ∀ now' ctx' bn gu o, sv_tracker (settle c now' ctx' h bn gu o s').1 = sv_tracker s'.
Proof.
  assert (fl_hash mt = h) as Hfl
    by (unfold in_flight_of in Hmt; destruct (unresolved e); by simplify_eq).
  unfold settle_one. rewrite Hfl. unfold recall, recallMetaTx. rewrite He, Hold.
  assert (Hgone : ∀ now' rej s', sv_memory s' !! h = None → releaseSent c now' h rej s' = s').
  { intros now' rej s' Hn. unfold releaseSent, takeChain. rewrite Hn. simpl. by destruct s'. }
  assert (Hdead : ∀ now' ctx' bn gu o s', sv_memory s' !! h = None →
    (settle c now' ctx' h bn gu o s').1 = s').
  { intros now' ctx' bn gu o s' Hn. unfold settle, claimSettled. rewrite Hn. simpl.
    rewrite Hgone; [by destruct s'|done]. }
  destruct (GetTransactionReceipt (wr_node rd) h) as [rc|err].
  - unfold with_memory at 1. cbn [sv_tracker].
    destruct (readHubEvents ctx h (Some rc) (sv_tracker s)) as [[[o|why] t] log].
    + specialize (Hdead (wr_now rd) ctx (u64 <$> rc_BlockNumber rc) (decimal (rc_GasUsed rc)) o
        (with_tracker t (with_memory (delete h (sv_memory s)) s)) (lookup_delete_eq _ _)) as Hs.
      destruct (settle _ _ _ _ _ _ _ _) as [s2 log2]. simpl in Hs. subst s2. simpl.
      split_and!; [done|done|]. intros. rewrite Hdead; [done|]. apply lookup_delete_eq.
    + simpl. split_and!; [done|done|]. intros. rewrite Hdead; [done|]. apply lookup_delete_eq.
  - assert ((expireOne (wr_now rd) ctx mt (Some err) (with_memory (delete h (sv_memory s)) s)).1 =
      with_memory (delete h (sv_memory s)) s) as Hx.
    { unfold expireOne. rewrite Hfl. destruct (_ <? _); [done|]. unfold claimSettled. simpl.
      rewrite lookup_delete_eq. simpl. apply Hgone. apply lookup_delete_eq. }
    destruct (expireOne _ _ _ _ _) as [s2 log2]. simpl in Hx. subst s2.
    split_and!; [done|done|]. intros. rewrite Hdead; [done|]. apply lookup_delete_eq.
Qed.

(** One transaction brings the watcher down for good. When the first metatx of a turn has a
    receipt in which the hub says that it did not run, and its output is data whose decoding
    panics, the panic is in the goroutine of the loop over blocks: it crashes, and no block, no
    reconnection and no input of any kind takes it out of there. *)
Theorem poisoned_revert_stops_the_watcher (i : blocks_input) (inputs : list blocks_input)
    (b : Z) (s : Service) (mt : inFlightMetaTx) (rest : list inFlightMetaTx) (rc : Receipt)
    (lg : Log) (logs : list Log) (output : bytes)
    (Hon : reorderEnabled cfg = true) (Hev : bi_event i = NewHeader)
    (Hconn : is_ok (Connect (bi_node i) (NodeURL (Application c))) = true)
    (Hpend : inFlight (bi_order i) (sv_memory s) = mt :: rest)
    (Hrc : GetTransactionReceipt (wr_node (bi_readings i (fl_hash mt))) (fl_hash mt) = Ok rc)
    (Hlogs : rc_Logs rc = lg :: logs) (Hlg : event_of lg = Some TransactionRelayed)
    (Hout : transactionRelayedFailed (lg_Data lg) = (false, output))
    (Hbad : returns (decodeRevertReason output) = false) :
  ∃ why, (blocks_run (i :: inputs) (InBlocks b) s).1 = Crashed why.
Proof.
  assert (∀ why s, (blocks_run inputs (Crashed why) s).1 = Crashed why) as Habs.
  { intros why. induction inputs as [|i' ins IH]; intros s'; simpl; [done|]. apply IH. }
  destruct (decodeRevertReason output) as [|why] eqn:Hdec; [done|]. exists why.
  cbn [blocks_run blocks_step]. rewrite Hev. unfold SettleInFlight. rewrite Hon. cbn [negb].
  cbn [with_gas sv_memory]. rewrite Hpend.
  destruct (Connect (bi_node i) _); [|done]. cbn [settle_each]. unfold settle_one.
  destruct (recall _ _ _ _) as [ctx1 s1]. rewrite Hrc. unfold readHubEvents. rewrite Hlogs.
  cbn [scan]. rewrite Hlg. cbn [read_event]. rewrite Hout, Hdec. cbn. apply Habs.
Qed.

End Watcher.

(** ** Witnesses *)

#[local] Existing Instances sample_unicode sample_geth sample_eth sample_errors sample_fmt sample_hub.

Definition with_receipts (f : hash → result error Receipt) : Node := {|
  Dial := Dial quota_node; PendingNonceAt := PendingNonceAt quota_node;
  NonceAt := NonceAt quota_node; TransactionReceipt := f;
  HeaderByNumber := HeaderByNumber quota_node; eth_ChainID := eth_ChainID quota_node;
  BalanceAt := BalanceAt quota_node; CodeAt := CodeAt quota_node;
  NewRelay := NewRelay quota_node; NewAccount := NewAccount quota_node;
  hub_RelayMetaTx := hub_RelayMetaTx quota_node; hub_DeployMetaTx := hub_DeployMetaTx quota_node;
  hub_IncreaseGasUsed := hub_IncreaseGasUsed quota_node; hub_GetNonce := hub_GetNonce quota_node;
  hub_GetGasLimit := hub_GetGasLimit quota_node;
  hub_GetMaxGasBlockLimit := hub_GetMaxGasBlockLimit quota_node;
  hub_GetNodeGasLimit := hub_GetNodeGasLimit quota_node;
  hub_GetCurrentGasLimit := hub_GetCurrentGasLimit quota_node;
  acc_AccountPermitted := acc_AccountPermitted quota_node;
  ingress_getContractAddress := ingress_getContractAddress quota_node;
|}.

(** A receipt in which the sample hub says that the metatx did not run, with this output. *)
Definition failed_log (output : bytes) : Log := {|
  lg_Topics := [keccak256 (string_bytes "TransactionRelayed(address,address,address,bool,bytes)")];
  lg_Data := 0 :: output |}.

Definition failed_receipt (output : bytes) : Receipt := {|
  rc_PostState := [0]; rc_Status := 1; rc_Logs := [failed_log output];
  rc_ContractAddress := zero_address; rc_GasUsed := 21000; rc_BlockNumber := Some 9 |}.

Definition sample_watch (output : bytes) (now : Z) : watch_reading :=
  {| wr_recall := now; wr_node := with_receipts (λ _, Ok (failed_receipt output)); wr_now := now |}.

Definition sample_entry : metaTxEntry :=
  {| reqID := "r1"; metaTxID := "m1"; rememberedAt := 8; e_senderKey := "0xab";
     e_chain := Some 0%nat; settled := false |}.

Definition sample_flight : inFlightMetaTx :=
  {| fl_hash := sent_hash; fl_sentAt := 8; fl_senderKey := "0xab"; fl_chain := Some 0%nat |}.

Definition sample_block (connected : bool) (output : bytes) : blocks_input := {|
  bi_done := false; bi_connected := connected; bi_subscribed := connected; bi_event := NewHeader;
  bi_node := quota_node; bi_readings := λ _, sample_watch output 20; bi_order := [sent_hash] |}.

Lemma reconnection_backs_off_witness :
  let offline := sample_block false [] in
  blocks_run sample_config (λ _, "") (replicate 6 offline) blocks_start sample_service =
    (AtConnect (8 * second), sample_service).
Proof.
  apply (reconnection_backs_off sample_config (λ _, "") [] (replicate 6 (sample_block false []))
    sample_service 3); [done|]. repeat constructor.
Defined.

Lemma watcher_frees_what_is_due_witness :
  let '(r, s', log) := SettleInFlight sample_config (λ _, "") quota_node
    (λ _, sample_watch [1; 2; 3; 4; 5] 20) [sent_hash] background sent_service in
  r = Returns tt ∧
  ∀ e, sv_memory sent_service !! sent_hash = Some e → sv_memory s' !! sent_hash = Some (closed_entry e).
Proof.
  pose proof (watcher_frees_what_is_due sample_config (λ _, "") quota_node
    (λ _, sample_watch [1; 2; 3; 4; 5] 20) [sent_hash] background sent_service) as H.
  destruct (SettleInFlight _ _ _ _ _ _ _) as [[r s'] log] eqn:Hr.
  assert (r = Returns tt) as ->.
  { change r with (r, s', log).1.1. rewrite <-Hr. by vm_compute. }
  assert (∀ h e, sv_memory sent_service !! h = Some e → h = sent_hash ∧ e = sample_entry) as Hmem.
  { assert (sv_memory sent_service = {[ sent_hash := sample_entry ]}) as ->
      by (vm_compute; reflexivity).
    intros h e Hl. by apply lookup_singleton_Some in Hl as [<- <-]. }
  split; [done|]. intros e He. destruct (Hmem _ _ He) as [_ ->].
  apply (H ltac:(split; [apply NoDup_singleton|]; intros h [e He'];
                 destruct (Hmem _ _ He') as [-> _]; by apply list_elem_of_singleton)
           ltac:(done)
           ltac:(intros h e He' _; by destruct (Hmem _ _ He') as [_ ->]) eq_refl _ _ He).
Defined.

Definition late_watch : watch_reading := sample_watch [1; 2; 3; 4; 5] (700 * second).

Lemma late_watcher_loses_the_place_witness :
  let '(r, s', log) := settle_one sample_config (λ _, "") late_watch background sample_flight
                         sent_service in
  sv_memory s' = delete sent_hash (sv_memory sent_service) ∧
  Chains.pending (Chains.at_ (chs (sv_tracker s')) 0) = 1.
Proof.
  assert (sv_memory sent_service !! sent_hash = Some sample_entry) as He by by vm_compute.
  assert (in_flight_of sent_hash sample_entry = Some sample_flight) as Hmt by done.
  assert (too_old (wr_recall late_watch) sample_entry = true) as Hold by by vm_compute.
  pose proof (late_watcher_loses_the_place sample_config (λ _, "") late_watch background sent_hash
    sample_entry sample_flight sent_service He Hmt Hold) as H.
  destruct (settle_one _ _ _ _ _ _) as [[r s'] log]. destruct H as (Hm & Ht & _).
  split; [done|]. rewrite Ht. by vm_compute.
Defined.

Lemma poisoned_revert_stops_the_watcher_witness :
  ∃ why, (blocks_run sample_config (λ _, "") [sample_block true poisoned; sample_block true []]
    (InBlocks initialBackoff) sent_service).1 = Crashed why.
Proof.
  assert (inFlight [sent_hash] (sv_memory sent_service) = [sample_flight]) as Hpend
    by by vm_compute.
  assert (event_of (failed_log poisoned) = Some TransactionRelayed) as Hlg by by vm_compute.
  assert (returns (decodeRevertReason poisoned) = false) as Hbad by by vm_compute.
  exact (poisoned_revert_stops_the_watcher sample_config (λ _, "") (sample_block true poisoned)
    [sample_block true []] initialBackoff sent_service sample_flight []
    (failed_receipt poisoned) (failed_log poisoned) [] poisoned
    eq_refl eq_refl eq_refl Hpend eq_refl eq_refl Hlg eq_refl Hbad).
Defined.
