(* ===== verification/Sending.v ===== *)
(** The path of a send with the reordering on, [sendReordered] of
    [service/reorder.go], as the goroutines of the service interleave it.

    A goroutine is at a place of the code between two critical sections;
    [send_step] runs it up to the next one, on what the goroutines share: the state
    of the service, the locks of the users and the global lock [relayLock]. What
    the code reads from outside is the input of the step. A panic unwinds through
    the deferred unlocks, so it is a result like another.

    One step is coarser than the code: [AtClose] closes the open ticket of the user as a
    whole, where [closeTicket] of [service/handout.go] closes its channel and then takes
    [handoutsMutex] again. The queue of tickets is not what these theorems are about --
    [w_else] puts any queue in the place of the one there is, so those in between as
    well --; its critical sections, one by one, are the machine of [Handout]. *)

From S2P Require Import Prelude GoLib Config Errors Events AuditLog Client Permissioning Tracker Handout MetaTx Reorder UserLock Turn Correlation Gas Service.

(** Where a goroutine of [sendReordered] is; [p] is the lock of its user. *)
Inductive send_pc :=
  | AtDoor
  | AtTurn (started : Z) (pc : await_pc)
  | AtLockUser
  | InQueue (p : nat)
  | AtExpected (p : nat)
  | AtCompare (p : nat) (r : result error Z)
  | AtRelayLock (p : nat)
  | AtQuota (p : nat)
  | AtSend (p : nat)
  | AtClose (p : nat) (tx : Transaction)
  | AtNote (p : nat) (tx : Transaction)
  | AtRemember (p : nat) (tx : Transaction) (chain : nat) (pendingForUser : Z)
  | AtRelayUnlock (p : nat) (r : outcome (result error hash))
  | AtForget (p : nat) (e : error)
  | AtUnlock (p : nat) (r : outcome (result error hash))
  | AtLeave (p : nat) (r : outcome (result error hash))
  | Finished (r : outcome (result error hash)).

(** What the goroutines share. [sent] is no state of the program: it is what the theorems
    speak of, the chain and the nonce of every metatx sent, in order. *)
Record shared := {
  sh_service : Service;
  sh_locks : Locks;
  sh_relay : option nat;
  sent : list (nat * Z);
}.

Definition with_service (s : Service) (w : shared) : shared :=
  {| sh_service := s; sh_locks := sh_locks w; sh_relay := sh_relay w; sent := sent w |}.
Definition with_locks (l : Locks) (w : shared) : shared :=
  {| sh_service := sh_service w; sh_locks := l; sh_relay := sh_relay w; sent := sent w |}.
Definition with_relay (r : option nat) (w : shared) : shared :=
  {| sh_service := sh_service w; sh_locks := sh_locks w; sh_relay := r; sent := sent w |}.
Definition tracker_of (w : shared) : Tracker := sv_tracker (sh_service w).
Definition set_tracker (t : Tracker) (w : shared) : shared :=
  with_service (with_tracker t (sh_service w)) w.
Definition with_queue (q : Queue.t) (s : Service) : Service :=
  {| sv_tracker := sv_tracker s; sv_queue := q; sv_memory := sv_memory s; sv_gas := sv_gas s |}.
Definition log_sent (p : nat) (n : Z) (w : shared) : shared :=
  {| sh_service := sh_service w; sh_locks := sh_locks w; sh_relay := sh_relay w;
     sent := sent w ++ [(p, n)] |}.

(** The readings of a step: those of the wait, the node when the quota is checked, and
    the walk of the memory if it is full. *)
Record send_input := {
  si_await : await_input;
  si_quota : Node;
  si_order : list hash;
}.

Section Sending.
Context `{GoUnicode} `{Geth} `{EthLib} `{PkgErrors} (c : Config).

Abbreviation cfg := (Some c).

Section Goroutine.
Context (g : nat) (ctx : context) (prepared : PreparedMetaTx).

Abbreviation key := (senderKey (SenderKey prepared)).

(** The critical section at a place, and the place after it. *)
Definition send_step (i : send_input) (pc : send_pc) (w : shared) :
    option (send_pc * shared * list emission) :=
  let now := in_now (si_await i) in
  let node := in_node (si_await i) in
  match pc with
  | AtDoor =>
      let '((inflight, admitted), t) := makeRoomFor cfg now key (Nonce prepared) (tracker_of w) in
      let w := set_tracker t w in
      if negb admitted
      then Some (Finished (Returns (Err (tooManyInflight inflight (maxInflightPerUser cfg)))), w, [])
      else Some (AtTurn (in_later (si_await i)) (await_start c (in_later (si_await i))), w, [])
  | AtTurn _ (AwaitDone (Some e)) => Some (Finished (Returns (Err e)), w, [])
  | AtTurn _ (AwaitDone None) => Some (AtLockUser, w, [])
  | AtTurn started pc =>
      match await_step c ctx started (SenderKey prepared) (Nonce prepared) (si_await i) pc
              (tracker_of w) with
      | Some (pc, t, log) => Some (AtTurn started pc, set_tracker t w, log)
      | None => None
      end
  | AtLockUser =>
      let '(p, l) := enter key (sh_locks w) in Some (InQueue p, with_locks l w, [])
  | InQueue p =>
      match acquire p g (sh_locks w) with
      | Some l => Some (AtExpected p, with_locks l w, [])
      | None => None
      end
  | AtExpected p =>
      let '(r, t) := expectedNonce c now node (SenderKey prepared) (tracker_of w) in
      Some (AtCompare p r, set_tracker t w, [])
  | AtCompare p (Err e) => Some (AtUnlock p (Returns (Err (Reject e CodeRelayError))), w, [])
  | AtCompare p (Ok expected) =>
      if bool_decide (Nonce prepared ≠ expected) then
        let '(pending, t) := pendingOf cfg now (SenderKey prepared) (tracker_of w) in
        Some (AtUnlock p (Returns (Err (badNonce expected (Nonce prepared) pending))),
              set_tracker t w, [])
      else Some (AtRelayLock p, w, [])
  | AtRelayLock p =>
      match sh_relay w with
      | None => Some (AtQuota p, with_relay (Some g) w, [])
      | Some _ => None
      end
  | AtQuota p =>
      let '(enoughGas, gas) :=
        VerifyGasLimit c (si_quota i) (MetaTxGasLimit prepared) (sv_gas (sh_service w)) in
      let w := with_service (with_gas gas (sh_service w)) w in
      match enoughGas with
      | Panics why => Some (AtRelayUnlock p (Panics why), w, [])
      | Returns (Err e) => Some (AtRelayUnlock p (Returns (Err (Reject e CodeSendFailed))), w, [])
      | Returns (Ok false) => Some (AtRelayUnlock p (Returns (Err exceeds_block)), w, [])
      | Returns (Ok true) => Some (AtSend p, w, [])
      end
  | AtSend p =>
      match broadcast c node prepared with
      | Panics why => Some (AtRelayUnlock p (Panics why), w, [])
      | Returns (Err e) => Some (AtRelayUnlock p (Returns (Err (Reject e CodeSendFailed))), w, [])
      | Returns (Ok tx) => Some (AtClose p tx, w, [])
      end
  | AtClose p tx =>
      let s := sh_service w in
      Some (AtNote p tx, with_service (with_queue (Queue.closeOpenTicket key (sv_queue s)) s) w, [])
  | AtNote p tx =>
      let '(chain, t) := reserveLocked cfg now key (Nonce prepared) true (tracker_of w) in
      let pending := Chains.pending (Chains.at_ (chs t) chain) in
      let t := set_hld (Held.notifyTurnLocked key (hld t)) t in
      Some (AtRemember p tx chain pending, log_sent chain (Nonce prepared) (set_tracker t w), [])
  | AtRemember p tx chain pending =>
      let s := sh_service w in
      let m := rememberMetaTx now (si_order i) ctx (tx_Hash tx) key (Some chain) (sv_memory s) in
      Some (AtRelayUnlock p (Returns (Ok (tx_Hash tx))), with_service (with_memory m s) w,
            [sent_event ctx prepared tx (Some pending)])
  | AtRelayUnlock p r =>
      Some (match r with Returns (Err e) => AtForget p e | r => AtUnlock p r end,
            with_relay None w, [])
  | AtForget p e =>
      Some (AtUnlock p (Returns (Err e)), set_tracker (forgetChain key (tracker_of w)) w, [])
  | AtUnlock p r => Some (AtLeave p r, with_locks (unlock p (sh_locks w)) w, [])
  | AtLeave p r => Some (Finished r, with_locks (leave key p (sh_locks w)) w, [])
  | Finished _ => None
  end.
End Goroutine.

(** ** The goroutines, and the rest of the service *)

Record goroutine := { g_ctx : context; g_prepared : PreparedMetaTx; g_pc : send_pc }.

Definition g_key (x : goroutine) : string := senderKey (SenderKey (g_prepared x)).
Definition at_pc (pc : send_pc) (x : goroutine) : goroutine :=
  {| g_ctx := g_ctx x; g_prepared := g_prepared x; g_pc := pc |}.

Record world := { w_shared : shared; w_gs : gmap nat goroutine }.

Definition world0 : world := {|
  w_shared := {| sh_service := {| sv_tracker := empty_tracker; sv_queue := Queue.empty;
                                  sv_memory := ∅; sv_gas := 0 |};
                 sh_locks := no_locks; sh_relay := None; sent := [] |};
  w_gs := ∅ |}.

(** What the rest of the service does to the tracker meanwhile: results that come
    back, rejections of the hub, queries, and the timers. *)
Inductive elsewhere : Tracker → Tracker → Prop :=
  | else_release now k chain t : elsewhere t (releaseChain cfg now k chain t)
  | else_forget k t : elsewhere t (forgetChain k t)
  | else_cached now from t : elsewhere t (cachedNonce cfg now from t).2
  | else_pending now from t : elsewhere t (pendingOf cfg now from t).2
  | else_inflight now k t : elsewhere t (inflightLocked cfg now k t).2
  | else_fire tm t : is_Some (Chains.timers (chs t) !! tm) → elsewhere t (fire tm t)
  | else_grace k p t : elsewhere t (graceExpired k p t).

(** The nonce of a metatx is a [uint64]. *)
Definition nonce_u64 (prepared : PreparedMetaTx) : Prop := 0 ≤ Nonce prepared < 2 ^ 64.

Inductive world_step : world → world → Prop :=
  | w_arrive g ctx prepared w :
      w_gs w !! g = None → nonce_u64 prepared →
      world_step w {| w_shared := w_shared w;
                      w_gs := <[g := {| g_ctx := ctx; g_prepared := prepared; g_pc := AtDoor |}]>
                                (w_gs w) |}
  | w_run g x i pc sh log w :
      w_gs w !! g = Some x →
      send_step g (g_ctx x) (g_prepared x) i (g_pc x) (w_shared w) = Some (pc, sh, log) →
      world_step w {| w_shared := sh; w_gs := <[g := at_pc pc x]> (w_gs w) |}
  | w_else t m q gas w :
      elsewhere (tracker_of (w_shared w)) t →
      world_step w {| w_shared := with_service {| sv_tracker := t; sv_queue := q; sv_memory := m;
                                                  sv_gas := gas |} (w_shared w);
                      w_gs := w_gs w |}.

(** ** What a place in the code says *)

Definition phase_of (pc : send_pc) : option phase :=
  match pc with
  | InQueue p => Some (Queued p)
  | AtExpected p | AtCompare p _ | AtRelayLock p | AtQuota p | AtSend p | AtClose p _
  | AtNote p _ | AtRemember p _ _ _ | AtRelayUnlock p _ | AtForget p _ | AtUnlock p _ =>
      Some (Holding p)
  | AtLeave p _ => Some (Leaving p)
  | _ => None
  end.

(** Inside the global lock. *)
Definition in_relay (pc : send_pc) : bool :=
  match pc with
  | AtQuota _ | AtSend _ | AtClose _ _ | AtNote _ _ | AtRemember _ _ _ _ | AtRelayUnlock _ _ => true
  | _ => false
  end.

(** The entry of the registry a wait has, and whether it needs one. *)
Definition await_entry (pc : await_pc) : option nat :=
  match pc with
  | AtTop w | AtDecide w _ | AtSurplus w _ _ | AtSleep w _ _ | Asleep w _ _ _ | AtWake w _
  | AtGone w _ | AtRelease w _ _ _ => w_entry w
  | AwaitDone _ => None
  end.

Definition needs_entry (pc : await_pc) : bool :=
  match pc with
  | AtSurplus _ _ _ | AtSleep _ _ _ | Asleep _ _ _ _ | AtWake _ _ | AtGone _ _ => true
  | _ => false
  end.

Definition entry_of (pc : send_pc) : option nat :=
  match pc with AtTurn _ pc => await_entry pc | _ => None end.

(** The nonce the user is expected to send, between the check and the reservation. *)
Definition expects (n : Z) (pc : send_pc) : option Z :=
  match pc with
  | AtCompare _ (Ok e) => Some e
  | AtRelayLock _ | AtQuota _ | AtSend _ | AtClose _ _ | AtNote _ _ => Some n
  | _ => None
  end.

Definition finished (pc : send_pc) : bool := match pc with Finished _ => true | _ => false end.

Definition nonces_on (p : nat) (l : list (nat * Z)) : list Z :=
  snd <$> filter (λ x, x.1 = p) l.

(** The goroutines as users of the locks. *)
Definition uses_of (gs : gmap nat goroutine) : gmap nat (string * phase) :=
  omap (λ x, (λ ph, (g_key x, ph)) <$> phase_of (g_pc x)) gs.

Definition lock_view (w : world) : lock_sys :=
  {| locks := sh_locks (w_shared w); procs := uses_of (w_gs w) |}.

(** ** Each step takes one step on the locks, or none *)

Lemma uses_of_lookup gs g key ph :
  uses_of gs !! g = Some (key, ph) ↔ ∃ x, gs !! g = Some x ∧ g_key x = key ∧ phase_of (g_pc x) = Some ph.
Proof.
  unfold uses_of. rewrite lookup_omap. destruct (gs !! g) as [x|]; simpl.
  - destruct (phase_of (g_pc x)) as [ph'|] eqn:Hph; simpl; split.
    + intros [= <- <-]. eauto.
    + intros (? & [= <-] & <- & Heq). congruence.
    + done.
    + intros (? & [= <-] & _ & ?). congruence.
  - split; [done|]. by intros (? & ? & _).
Qed.

Lemma uses_of_insert gs g x :
  uses_of (<[g := x]> gs) =
    match phase_of (g_pc x) with
    | Some ph => <[g := (g_key x, ph)]> (uses_of gs)
    | None => delete g (uses_of gs)
    end.
Proof.
  apply map_eq. intros j. unfold uses_of. rewrite lookup_omap, lookup_insert.
  destruct (phase_of (g_pc x)) as [ph|] eqn:Hph.
  - rewrite lookup_insert. case_decide; [simpl; by rewrite Hph|by rewrite lookup_omap].
  - rewrite lookup_delete. case_decide; [simpl; by rewrite Hph|by rewrite lookup_omap].
Qed.

(** A step that stays in its phase is none for the locks. *)
Lemma lock_view_same w sh g x pc :
  w_gs w !! g = Some x → phase_of pc = phase_of (g_pc x) → sh_locks sh = sh_locks (w_shared w) →
  lock_view {| w_shared := sh; w_gs := <[g := at_pc pc x]> (w_gs w) |} = lock_view w.
Proof.
  intros Hg Hph Hl. unfold lock_view. simpl. rewrite Hl. f_equal. rewrite uses_of_insert. simpl.
  rewrite Hph. destruct (phase_of (g_pc x)) as [ph|] eqn:Hp.
  - apply insert_id. apply uses_of_lookup. eauto.
  - apply delete_id. unfold uses_of. rewrite lookup_omap, Hg. simpl. by rewrite Hp.
Qed.

(** The shared locks change only with the phase. *)
Lemma send_step_locks g ctx prepared i pc pc' w w' log :
  send_step g ctx prepared i pc w = Some (pc', w', log) →
  let key := senderKey (SenderKey prepared) in
  match phase_of pc, phase_of pc' with
  | None, Some (Queued p) => enter key (sh_locks w) = (p, sh_locks w')
  | Some (Queued p), Some (Holding q) => p = q ∧ acquire p g (sh_locks w) = Some (sh_locks w')
  | Some (Holding p), Some (Holding q) => p = q ∧ sh_locks w' = sh_locks w
  | Some (Holding p), Some (Leaving q) => p = q ∧ sh_locks w' = unlock p (sh_locks w)
  | Some (Leaving p), None => sh_locks w' = leave key p (sh_locks w)
  | None, None => sh_locks w' = sh_locks w
  | _, _ => False
  end.
Proof.
  destruct pc; cbn [send_step phase_of]; intros Hs;
    repeat (case_match; simplify_eq/=); try done.
Qed.

Lemma lock_view_step w w' :
  world_step w w' → lock_step (lock_view w) (lock_view w') ∨ lock_view w' = lock_view w.
Proof.
  destruct 1 as [g ctx prepared w Hg Hn|g x i pc sh log w Hg Hs|].
  - right. unfold lock_view; simpl. rewrite uses_of_insert. simpl. rewrite delete_id; [done|].
    unfold uses_of. by rewrite lookup_omap, Hg.
  - pose proof (send_step_locks _ _ _ _ _ _ _ _ _ Hs) as Hl. simpl in Hl.
    assert (Hv : lock_view {| w_shared := sh; w_gs := <[g:=at_pc pc x]> (w_gs w) |} =
      {| locks := sh_locks sh; procs :=
           match phase_of pc with Some ph => <[g := (g_key x, ph)]> (uses_of (w_gs w))
           | None => delete g (uses_of (w_gs w)) end |}).
    { unfold lock_view; simpl. by rewrite uses_of_insert. }
    assert (Hu : procs (lock_view w) !! g = (λ ph, (g_key x, ph)) <$> phase_of (g_pc x)).
    { unfold lock_view, uses_of; simpl. by rewrite lookup_omap, Hg. }
    rewrite Hv. unfold g_key.
    destruct (phase_of (g_pc x)) as [[p|p|p]|] eqn:Hx, (phase_of pc) as [[q|q|q]|] eqn:Hpc;
      simpl in Hu; try done.
    + destruct Hl as [<- Hl]. left. by eapply (l_acquire g _ p _ (lock_view w)).
    + right. destruct Hl as [<- ->]. unfold lock_view. f_equal. by apply insert_id.
    + left. destruct Hl as [<- ->]. by apply (l_unlock g _ p (lock_view w)).
    + left. rewrite Hl. by apply (l_leave g _ p (lock_view w)).
    + left. pose proof (l_enter g (g_key x) (lock_view w) Hu) as Hstep. unfold g_key in Hstep.
      simpl in Hstep. by rewrite Hl in Hstep.
    + right. rewrite Hl. unfold lock_view. f_equal. by apply delete_id.
  - by right.
Qed.

(** ** One step and the tracker *)

(** A step that reserves nothing and holds nobody: chains may be let go, sleepers woken
    and places given back. *)
Definition calm (t t' : Tracker) : Prop :=
  tracker_wf t' ∧ Chains.stays (chs t) (chs t') ∧ Held.steady (hld t) (hld t') ∧
  ∀ k p, p ∈ Held.held_of (hld t') k → p ∈ Held.held_of (hld t) k.

Lemma calm_same_held t t' :
  tracker_wf t' → Chains.stays (chs t) (chs t') → hld t' = hld t → calm t t'.
Proof. intros ? ? Hh. unfold calm. rewrite Hh. auto using Held.steady_refl. Qed.

Lemma calm_refl t : tracker_wf t → calm t t.
Proof. intros. apply calm_same_held; auto using Chains.stays_refl. Qed.

Lemma calm_notify k ch t :
  tracker_wf t → Chains.wf ch → Chains.stays (chs t) ch →
  calm t {| chs := ch; hld := Held.notifyTurnLocked k (hld t) |}.
Proof.
  intros [_ Hh] Hwf Hs. pose proof (Held.notifyTurnLocked_spec k (hld t) Hh) as (? & He & _).
  split_and!; [by split|done|apply Held.notifyTurnLocked_steady|].
  intros k' p. simpl. unfold Held.held_of. by rewrite He.
Qed.

Lemma release_calm now k chain t : tracker_wf t → calm t (releaseChain cfg now k chain t).
Proof.
  intros Hwf. pose proof (releaseChain_wf cfg now k chain t Hwf) as Hwf'.
  unfold releaseChain in *. destruct (Chains.release cfg now k chain (chs t)) as [ch|] eqn:Hr.
  - apply calm_notify; [done|apply Hwf'|by eapply Chains.release_stays].
  - by apply calm_refl.
Qed.

Lemma forget_calm k t : tracker_wf t → calm t (forgetChain k t).
Proof.
  intros Hwf. apply calm_notify; [done| |apply Chains.forget_stays].
  by apply (forgetChain_wf k t Hwf).
Qed.

Lemma cached_calm now from t : tracker_wf t → calm t (cachedNonce cfg now from t).2.
Proof.
  intros Hwf. apply calm_same_held; [by apply cachedNonce_wf|..];
    unfold cachedNonce, Chains.cachedNonce;
    pose proof (Chains.chainLocked_stays cfg now (senderKey from) (chs t));
    by destruct (Chains.chainLocked _ _ _ _) as [[]].
Qed.

Lemma pending_calm now from t : tracker_wf t → calm t (pendingOf cfg now from t).2.
Proof.
  intros Hwf. apply calm_same_held; [by apply pendingOf_wf|..];
    unfold pendingOf, Chains.pendingOf;
    pose proof (Chains.chainLocked_stays cfg now (senderKey from) (chs t));
    by destruct (Chains.chainLocked _ _ _ _) as [[]].
Qed.

Lemma inflight_calm now k t : tracker_wf t → calm t (inflightLocked cfg now k t).2.
Proof.
  intros Hwf. apply calm_same_held; [by apply inflightLocked_wf|..];
    unfold inflightLocked;
    pose proof (Chains.chainLocked_stays cfg now k (chs t));
    by destruct (Chains.chainLocked _ _ _ _) as [[]].
Qed.

Lemma surplus_calm now k p t : tracker_wf t → calm t (surplusHeld cfg now k p t).2.
Proof.
  intros Hwf. pose proof (inflight_calm now k t Hwf) as Hc. unfold surplusHeld.
  destruct (inflightLocked cfg now k t). by case_match.
Qed.

Lemma expected_calm now node from t : tracker_wf t → calm t (expectedNonce c now node from t).2.
Proof.
  intros Hwf. pose proof (cached_calm now from t Hwf) as Hc. unfold expectedNonce.
  by destruct (cachedNonce cfg now from t) as [[]].
Qed.

Lemma door_calm now k n t : tracker_wf t → calm t (makeRoomFor cfg now k n t).2.
Proof.
  intros Hwf. pose proof (inflight_calm now k t Hwf) as Hcalm. pose proof Hcalm as (Hwf1 & Hs & Hst & Hh).
  unfold makeRoomFor. destruct (inflightLocked cfg now k t) as [m t1]. cbn [snd] in *.
  destruct (m <? _); [done|].
  pose proof (Held.highestHeldLocked_spec k (hld t1)) as Hhigh.
  destruct (Held.highestHeldLocked k (hld t1)) as [p|]; [|done].
  destruct (_ <=? n); [done|]. apply Held.last_highest_elem in Hhigh.
  destruct (Held.evictHeldLocked_spec k p m (hld t1)) as (Hwf2 & _ & _ & _ & _ & Hof & _);
    [apply Hwf1|done|]. cbn [snd].
  refine (conj _ (conj Hs (conj _ _))); [split; [apply Hwf1|done]| |].
  - eapply Held.steady_trans; [done|]. by apply Held.evictHeldLocked_steady; [apply Hwf1|].
  - intros k' q. simpl. rewrite Hof. case_decide; [|apply Hh].
    rewrite Held.elem_of_remove_first by by apply Held.held_of_NoDup, Hwf1.
    intros [? _]. by apply Hh.
Qed.

Lemma elsewhere_calm t t' : elsewhere t t' → tracker_wf t → calm t t'.
Proof.
  destruct 1; intros Hwf;
    auto using release_calm, forget_calm, cached_calm, pending_calm, inflight_calm.
  - apply calm_same_held; [|by split|done]. split; [|apply Hwf].
    apply Chains.fire_wf, Hwf.
  - apply calm_same_held; [|apply Chains.graceExpired_stays|done]. split; [|apply Hwf].
    by apply Chains.graceExpired_spec, Hwf.
Qed.

(** ** One step of a wait *)

(** The entry of a wait is on the registry's heap, and on no list but its user's; where
    the code uses it, there is one. *)
Definition await_ok (key : string) (pc : await_pc) (t : Tracker) : Prop :=
  (∀ p, await_entry pc = Some p →
     is_Some (Held.helds (hld t) !! p) ∧ ∀ k, p ∈ Held.held_of (hld t) k → k = key) ∧
  (needs_entry pc = true → is_Some (await_entry pc)).

Lemma entry_steady key p t t' :
  is_Some (Held.helds (hld t) !! p) ∧ (∀ k, p ∈ Held.held_of (hld t) k → k = key) →
  Held.steady (hld t) (hld t') →
  is_Some (Held.helds (hld t') !! p) ∧ (∀ k, p ∈ Held.held_of (hld t') k → k = key).
Proof.
  intros [Hl Hk] [Hst Hh]. split; [auto|]. intros k Hp. destruct (Hh k p Hp) as [?|Hn]; [auto|].
  rewrite Hn in Hl. by destruct Hl.
Qed.

(** What a step of the wait does: its own entry appears, stays or goes, and nobody
    else's changes. *)
Definition await_effect (key : string) (pc pc' : await_pc) (t t' : Tracker) : Prop :=
  tracker_wf t' ∧ Chains.stays (chs t) (chs t') ∧ Held.steady (hld t) (hld t') ∧
  await_ok key pc' t' ∧
  (∀ k p, p ∈ Held.held_of (hld t') k →
     p ∈ Held.held_of (hld t) k ∨ (k = key ∧ await_entry pc' = Some p)) ∧
  (∀ p, await_entry pc = Some p →
     await_entry pc' = Some p ∨ ∀ k, p ∉ Held.held_of (hld t') k).

(** Most steps keep the entry and are calm. *)
Lemma await_effect_calm key pc pc' t t' :
  await_ok key pc t → calm t t' → await_entry pc' = await_entry pc →
  (needs_entry pc' = true → needs_entry pc = true ∨ is_Some (await_entry pc)) →
  await_effect key pc pc' t t'.
Proof.
  intros [Hok Hneed] (Hwf & Hs & Hst & Hh) He Hn.
  refine (conj Hwf (conj Hs (conj Hst (conj _ (conj _ _))))).
  - split; rewrite He; [|intros Hx; destruct (Hn Hx); auto].
    intros p Hp. eapply entry_steady; [by apply Hok|done].
  - intros k p Hp. left. auto.
  - intros p Hp. left. congruence.
Qed.

Lemma set_hld_calm h t :
  tracker_wf t → Held.wf h → Held.steady (hld t) h → Held.held h = Held.held (hld t) →
  calm t (set_hld h t).
Proof.
  intros [Hc _] Hh Hs He. refine (conj _ (conj _ (conj Hs _))).
  - by split.
  - apply Chains.stays_refl.
  - intros k p. simpl. unfold Held.held_of. by rewrite He.
Qed.

Lemma calm_trans t1 t2 t3 : calm t1 t2 → calm t2 t3 → calm t1 t3.
Proof.
  intros (_ & Hs1 & Hst1 & Hh1) (Hwf & Hs2 & Hst2 & Hh2).
  refine (conj Hwf (conj _ (conj _ _)));
    [by eapply Chains.stays_trans|by eapply Held.steady_trans|auto].
Qed.

Lemma stop_calm p t :
  tracker_wf t → is_Some (Held.helds (hld t) !! p) →
  calm t (set_hld (Held.stopWaitingLocked p (hld t)) t).
Proof.
  intros Hwf Hp. apply set_hld_calm; [done| |apply Held.stopWaitingLocked_steady|done].
  apply Held.stopWaitingLocked_wf; [apply Hwf|done].
Qed.

Lemma wait_calm p t :
  tracker_wf t → is_Some (Held.helds (hld t) !! p) →
  calm t (set_hld (Held.waitTurnLocked p (hld t)).2 t).
Proof.
  intros Hwf Hp. apply set_hld_calm; [done| |apply Held.waitTurnLocked_steady|done].
  apply Held.waitTurnLocked_wf; [apply Hwf|done].
Qed.

Lemma renew_entry now e w : w_entry (renew c now e w) = w_entry w.
Proof. unfold renew. by repeat case_match. Qed.

(** Taking an entry, when the wait has none. *)
Lemma hold_effect key n w r pc' t :
  tracker_wf t → w_entry w = None → await_entry pc' = Some (hold key n t).1 →
  await_effect key (AtDecide w r) pc' t (hold key n t).2.
Proof.
  intros [Hc Hh] Hw He. change (hold key n t).2 with (set_hld (Held.hold key n (hld t)).2 t).
  change (hold key n t).1 with (Held.fresh (hld t)) in He.
  pose proof (Held.hold_wf key n _ Hh) as Hwf. pose proof (Held.hold_steady key n _ Hh) as Hst.
  refine (conj _ (conj (Chains.stays_refl _) (conj Hst (conj (conj _ _) (conj _ _))))).
  - by split.
  - intros p Hp. assert (p = Held.fresh (hld t)) as -> by congruence.
    cbn [hld set_hld]. split; [simpl; rewrite lookup_insert_eq; by eexists|].
    intros k. rewrite Held.held_of_hold. case_decide; [done|].
    intros (h & Hl & _)%Held.held_of_live; [|done]. apply (Held.wf_ptr _ Hh) in Hl. lia.
  - intros _. by eexists.
  - intros k p. cbn [hld set_hld]. rewrite Held.held_of_hold. case_decide; [|by left].
    intros [?| ->%list_elem_of_singleton]%elem_of_app; [by left|by right].
  - intros p Hp. simpl in Hp. congruence.
Qed.

(** Giving the entry back. *)
Lemma unhold_effect key w reason e ret ret' p t :
  tracker_wf t → await_ok key (AtRelease w reason e ret) t → w_entry w = Some p →
  await_effect key (AtRelease w reason e ret) (AwaitDone ret') t (unhold key p t).
Proof.
  intros [Hc Hh] [Hok _] Hw. destruct (Hok p Hw) as [_ Hk].
  refine (conj _ (conj (Chains.stays_refl _) (conj (Held.unholdLocked_steady _ _ _ Hh)
    (conj (conj _ _) (conj _ _))))).
  - split; [done|by apply Held.unholdLocked_wf].
  - done.
  - done.
  - intros k q. cbn [hld set_hld unhold]. rewrite Held.held_of_unhold. case_decide; [|by left].
    rewrite Held.elem_of_remove_first by by apply Held.held_of_NoDup. intros [? _]. by left.
  - intros q Hq. simpl in Hq. right. intros k. assert (q = p) as -> by congruence.
    cbn [hld set_hld unhold]. rewrite Held.held_of_unhold. case_decide as Hkk.
    + rewrite Held.elem_of_remove_first by by apply Held.held_of_NoDup. by intros [_ ?].
    + intros Hp%Hk. congruence.
Qed.

Lemma await_step_effect ctx started sender n i pc pc' t t' log :
  await_step c ctx started sender n i pc t = Some (pc', t', log) →
  tracker_wf t → await_ok (senderKey sender) pc t →
  await_effect (senderKey sender) pc pc' t t'.
Proof.
  intros Hs Hwf Hok.
  assert (Hrefl := calm_refl t Hwf).
  destruct pc as [w|w r|w e rem|w e rem|w e wk un|w e|w e|w reason e ret|]; simpl in Hs.
  - pose proof (expected_calm (in_now i) (in_node i) sender t Hwf) as Hc.
    destruct (expectedNonce _ _ _ _ _) as [r t1]. simplify_eq. by apply await_effect_calm.
  - destruct r as [e|e]; [|simplify_eq; by apply await_effect_calm].
    destruct (n <=? e); [simplify_eq; by apply await_effect_calm|].
    unfold hold_once in Hs. destruct (w_entry w) as [p|] eqn:Hw.
    + case_match; simplify_eq; (apply await_effect_calm; [done|done|apply renew_entry|]); simpl;
        [done|]. intros _. right. by eexists.
    + pose proof (λ pc', hold_effect (senderKey sender) n w (Ok e) pc' t Hwf Hw) as Hhold.
      destruct (hold (senderKey sender) n t) as [p t1]. simpl in Hhold.
      case_match; simplify_eq; apply Hhold; simpl; by rewrite renew_entry.
  - destruct (w_entry w) as [p|] eqn:Hw; [|done].
    pose proof (surplus_calm (in_now i) (senderKey sender) p t Hwf) as Hc.
    destruct (surplusHeld _ _ _ _ _) as [[m b] t1].
    destruct b; simplify_eq; apply await_effect_calm; auto.
  - destruct (w_entry w) as [p|] eqn:Hw; [|done].
    destruct (proj1 Hok p Hw) as [Hlive _].
    pose proof (wait_calm p t Hwf Hlive) as Hc.
    injection Hs as <- <- <-. apply await_effect_calm; auto.
  - repeat case_match; simplify_eq; apply await_effect_calm; auto.
  - destruct (w_entry w) as [p|] eqn:Hw; [|done].
    destruct (proj1 Hok p Hw) as [Hlive _].
    pose proof (stop_calm p t Hwf Hlive) as Hc.
    pose proof (inflight_calm (in_now i) (senderKey sender) _ (proj1 Hc)) as Hc2.
    destruct (inflightLocked _ _ _ _) as [m t1]. pose proof (calm_trans _ _ _ Hc Hc2).
    case_match; simplify_eq; apply await_effect_calm; auto.
  - destruct (w_entry w) as [p|] eqn:Hw; [|done].
    destruct (proj1 Hok p Hw) as [Hlive _]. simplify_eq.
    apply await_effect_calm; [done|by apply stop_calm|done|done].
  - destruct (w_entry w) as [p|] eqn:Hw; simplify_eq.
    + by apply unhold_effect.
    + by apply await_effect_calm.
  - done.
Qed.

(** ** One step of a send *)

Definition turn_ok (key : string) (pc : send_pc) (t : Tracker) : Prop :=
  match pc with AtTurn _ pc => await_ok key pc t | _ => True end.

(** What the user is expected to send, read from the chain in force if there is one. *)
Definition expected_of (key : string) (e : Z) (t : Tracker) : Prop :=
  ∀ p, Chains.senders (chs t) !! key = Some p → Chains.next (Chains.at_ (chs t) p) = e.

Lemma expected_of_stays key e t t' :
  expected_of key e t → Chains.stays (chs t) (chs t') → expected_of key e t'.
Proof. intros He [_ Hs] p Hp. destruct (Hs key p Hp) as [? ->]. auto. Qed.

Lemma expectedNonce_reads now node from t e :
  (expectedNonce c now node from t).1 = Ok e →
  expected_of (senderKey from) e (expectedNonce c now node from t).2.
Proof.
  unfold expectedNonce, cachedNonce, Chains.cachedNonce.
  pose proof (Chains.chainLocked_spec cfg now (senderKey from) (chs t)) as Hc.
  destruct (Chains.chainLocked cfg now (senderKey from) (chs t)) as [[q|] ch];
    destruct Hc as (_ & Hk & _); simpl; intros Hr p Hp; simpl in Hp; [|congruence].
  assert (p = q) as -> by congruence. by injection Hr.
Qed.

(** A step but for the reservation: the tracker is let alone, or nearly. *)
Record send_effect (key : string) (n : Z) (pc pc' : send_pc) (t t' : Tracker) : Prop := {
  se_wf : tracker_wf t';
  se_stays : Chains.stays (chs t) (chs t');
  se_steady : Held.steady (hld t) (hld t');
  se_turn : turn_ok key pc' t';
  se_held : ∀ k p, p ∈ Held.held_of (hld t') k →
    p ∈ Held.held_of (hld t) k ∨ (k = key ∧ entry_of pc' = Some p);
  se_entry : ∀ p, entry_of pc = Some p →
    entry_of pc' = Some p ∨ ∀ k, p ∉ Held.held_of (hld t') k;
  se_expects : ∀ e, expects n pc' = Some e → expects n pc = Some e ∨ expected_of key e t';
}.

Lemma send_effect_calm key n pc pc' t t' :
  calm t t' → entry_of pc = None → turn_ok key pc' t' →
  (∀ e, expects n pc' = Some e → expects n pc = Some e ∨ expected_of key e t') →
  send_effect key n pc pc' t t'.
Proof.
  intros (Hwf & Hs & Hst & Hh) He Ht Hx. constructor; try done; [|congruence].
  intros k p Hp. left. auto.
Qed.

Lemma send_effect_turn key n started pc pc' started' t t' :
  await_effect key pc pc' t t' →
  send_effect key n (AtTurn started pc) (AtTurn started' pc') t t'.
Proof. by intros (? & ? & ? & ? & ? & ?). Qed.

Lemma send_step_effect g ctx prepared i pc pc' w w' log :
  send_step g ctx prepared i pc w = Some (pc', w', log) →
  tracker_wf (tracker_of w) →
  turn_ok (senderKey (SenderKey prepared)) pc (tracker_of w) →
  (∀ p tx, pc ≠ AtNote p tx) →
  send_effect (senderKey (SenderKey prepared)) (Nonce prepared) pc pc'
    (tracker_of w) (tracker_of w') ∧ sent w' = sent w.
Proof.
  intros Hs Hwf Hok Hnote. assert (Hrefl := calm_refl _ Hwf).
  destruct pc as [|started pc| |p|p|p r|p|p|p|p tx|p tx|p tx ch pend|p r|p e|p r|p r|r];
    cbn [send_step] in Hs.
  - pose proof (door_calm (in_now (si_await i)) (senderKey (SenderKey prepared)) (Nonce prepared)
      _ Hwf) as Hc.
    destruct (makeRoomFor _ _ _ _ _) as [[m b] t1].
    destruct b; simpl in Hs; simplify_eq; (split; [|done]); apply send_effect_calm; done || by split.
  - destruct pc as [| | | | | | | |[e|]];
      try (simplify_eq; (split; [|done]); by apply send_effect_calm);
      (destruct (await_step _ _ _ _ _ _ _ _) as [[[pc1 t1] log1]|] eqn:Ha; [|done]);
      simplify_eq; (split; [|done]); apply send_effect_turn; by eapply await_step_effect.
  - destruct (enter _ _). simplify_eq. split; [|done]. by apply send_effect_calm.
  - destruct (acquire _ _ _); [|done]. simplify_eq. split; [|done]. by apply send_effect_calm.
  - pose proof (expected_calm (in_now (si_await i)) (in_node (si_await i)) (SenderKey prepared) _ Hwf)
      as Hc.
    pose proof (λ e, expectedNonce_reads (in_now (si_await i)) (in_node (si_await i))
      (SenderKey prepared) (tracker_of w) e) as Hr.
    destruct (expectedNonce _ _ _ _ _) as [r t1]. simplify_eq. split; [|done].
    apply send_effect_calm; [done..|]. intros e He. right. simpl in He.
    destruct r as [e'|]; [|done]. simplify_eq. by apply Hr.
  - destruct r as [e|e]; [|simplify_eq; split; [by apply send_effect_calm|done]].
    case_bool_decide as Hn.
    + pose proof (pending_calm (in_now (si_await i)) (SenderKey prepared) _ Hwf) as Hc.
      destruct (pendingOf _ _ _ _) as [m t1]. simplify_eq. split; [|done]. by apply send_effect_calm.
    + assert (e = Nonce prepared) as -> by (destruct (decide (e = Nonce prepared)); [done|]; by destruct Hn).
      simplify_eq. split; [|done]. apply send_effect_calm; [done..|]. auto.
  - destruct (sh_relay w); [done|]. simplify_eq. split; [|done]. apply send_effect_calm; auto.
  - destruct (VerifyGasLimit _ _ _ _) as [[[[]|]|] gas]; simplify_eq; (split; [|done]);
      apply send_effect_calm; auto; done.
  - destruct (broadcast _ _ _) as [[]|]; simplify_eq; (split; [|done]);
      apply send_effect_calm; auto; done.
  - simplify_eq. split; [|done]. apply send_effect_calm; auto.
  - by destruct (Hnote p tx).
  - simplify_eq. split; [|done]. apply send_effect_calm; auto; done.
  - simplify_eq. split; [|done]. apply send_effect_calm; [done|done|by destruct r as [[]|]|].
    by destruct r as [[]|].
  - simplify_eq. split; [|done]. apply send_effect_calm; [|done..]. by apply forget_calm.
  - simplify_eq. split; [|done]. by apply send_effect_calm.
  - simplify_eq. split; [|done]. by apply send_effect_calm.
  - done.
Qed.

(** The number after a nonce. After the last one of the 64 bits a chain goes on from 0,
    when it started there, or stays where it is. *)
Definition follows (a b : Z) : Prop :=
  (a < max_u64 ∧ b = a + 1) ∨ (a = max_u64 ∧ (b = 0 ∨ b = max_u64)).

(** What the tracker does with the last nonce: a chain that starts with it goes on from 0,
    and one that gets to it goes on expecting it. *)
Example last_nonce_wraps :
  let reserve n t := (Tracker.reserveLocked (Some sample_config) 5 "u" n true t).2 in
  let expected t := (λ p, Chains.next (Chains.at_ (chs t) p)) <$> Chains.senders (chs t) !! "u" in
  expected (reserve max_u64 empty_tracker) = Some 0 ∧
  expected (reserve max_u64 (reserve (max_u64 - 1) empty_tracker)) = Some max_u64.
Proof. split; vm_compute; reflexivity. Qed.

Lemma follows_u64 n : 0 ≤ n < 2 ^ 64 → follows n (u64 (n + 1)) ∧ follows n (n `max` u64 (n + 1)).
Proof.
  intros Hn. unfold follows, max_u64. destruct (decide (n = 2 ^ 64 - 1)) as [->|Hne].
  - change (u64 (2 ^ 64 - 1 + 1)) with 0. lia.
  - rewrite u64_small by lia. lia.
Qed.

(** The reservation, when the user is expected to send that nonce: the chain in force
    goes one further, or a new one starts there. *)
Lemma note_effect now key n t :
  tracker_wf t → 0 ≤ n < 2 ^ 64 → expected_of key n t →
  let '(p, t') := reserveLocked cfg now key n true t in
  let t' := set_hld (Held.notifyTurnLocked key (hld t')) t' in
  tracker_wf t' ∧ Held.steady (hld t) (hld t') ∧
  (∀ k q, q ∈ Held.held_of (hld t') k → q ∈ Held.held_of (hld t) k) ∧
  (Chains.fresh (chs t) ≤ Chains.fresh (chs t'))%nat ∧ (p < Chains.fresh (chs t'))%nat ∧
  Chains.senders (chs t') !! key = Some p ∧ follows n (Chains.next (Chains.at_ (chs t') p)) ∧
  (p = Chains.fresh (chs t) ∨
   Chains.senders (chs t) !! key = Some p ∧ Chains.next (Chains.at_ (chs t) p) = n) ∧
  (∀ k r, k ≠ key → Chains.senders (chs t') !! k = Some r →
     Chains.senders (chs t) !! k = Some r ∧
     Chains.next (Chains.at_ (chs t') r) = Chains.next (Chains.at_ (chs t) r)).
Proof.
  intros [Hc Hh] Hn Hexp. unfold reserveLocked.
  pose proof (Chains.reserveLocked_pointer cfg now key n true (chs t) Hc) as Hp.
  pose proof (Chains.reserveLocked_next cfg now key n true (chs t) Hc) as Hx.
  destruct (Chains.reserveLocked cfg now key n true (chs t)) as [p ch].
  destruct Hp as (Hwf & Hin & Hfr & Hlt & _), Hx as [Hx Hother]. simpl.
  pose proof (Held.notifyTurnLocked_spec key (hld t) Hh) as (Hwfh & He & _).
  split_and!; [split; done|apply Held.notifyTurnLocked_steady| |done|done|done| | |done].
  - intros k q. unfold Held.held_of. by rewrite He.
  - destruct (follows_u64 n Hn). destruct Hx as [[-> _]|[-> Hs]]; [done|]. by rewrite (Hexp p Hs).
  - destruct Hx as [[_ ->]|[_ Hs]]; [by left|right]. auto.
Qed.

(** ** The invariant *)

Definition consecutive (l : list Z) : Prop :=
  ∀ i a b, l !! i = Some a → l !! S i = Some b → follows a b.

Lemma consecutive_snoc l a :
  consecutive l → (∀ b, last l = Some b → follows b a) → consecutive (l ++ [a]).
Proof.
  intros Hl Ha i x y Hx Hy. apply lookup_app_Some in Hy as [Hy|[Hle Hy]].
  - apply (Hl i); [|done]. rewrite lookup_app_l in Hx; [done|]. apply lookup_lt_Some in Hy. lia.
  - destruct (S i - length l)%nat as [|m] eqn:Hm; [|done]. simpl in Hy. injection Hy as <-.
    apply Ha. rewrite lookup_app_l in Hx by lia. rewrite last_lookup. rewrite <-Hx. f_equal. lia.
Qed.

Record winv (w : world) : Prop := {
  wi_tracker : tracker_wf (tracker_of (w_shared w));
  wi_turn : ∀ g x, w_gs w !! g = Some x → turn_ok (g_key x) (g_pc x) (tracker_of (w_shared w));
  wi_held : ∀ k p, p ∈ Held.held_of (hld (tracker_of (w_shared w))) k →
    ∃ g x, w_gs w !! g = Some x ∧ g_key x = k ∧ entry_of (g_pc x) = Some p;
  wi_expect : ∀ g x e, w_gs w !! g = Some x →
    expects (Nonce (g_prepared x)) (g_pc x) = Some e → expected_of (g_key x) e (tracker_of (w_shared w));
  wi_nonce : ∀ g x, w_gs w !! g = Some x → nonce_u64 (g_prepared x);
  wi_sent : ∀ p, consecutive (nonces_on p (sent (w_shared w)));
  wi_next : ∀ k p, Chains.senders (chs (tracker_of (w_shared w))) !! k = Some p →
    ∃ a, last (nonces_on p (sent (w_shared w))) = Some a ∧
      follows a (Chains.next (Chains.at_ (chs (tracker_of (w_shared w))) p));
  wi_fresh : ∀ p n, (p, n) ∈ sent (w_shared w) →
    (p < Chains.fresh (chs (tracker_of (w_shared w))))%nat;
}.

Lemma turn_ok_steady key pc t t' :
  turn_ok key pc t → Held.steady (hld t) (hld t') → turn_ok key pc t'.
Proof.
  destruct pc as [|started pc| | | | | | | | | | | | | | |]; try done. intros [Hok Hn] Hs.
  split; [|done]. intros p Hp. eapply entry_steady; [by apply Hok|done].
Qed.

(** The half that speaks of what was sent survives anything that reserves nothing. *)
Lemma sent_stays l t t' :
  Chains.stays (chs t) (chs t') →
  (∀ k p, Chains.senders (chs t) !! k = Some p →
     ∃ a, last (nonces_on p l) = Some a ∧ follows a (Chains.next (Chains.at_ (chs t) p))) →
  ∀ k p, Chains.senders (chs t') !! k = Some p →
     ∃ a, last (nonces_on p l) = Some a ∧ follows a (Chains.next (Chains.at_ (chs t') p)).
Proof. intros [_ Hs] Hn k p Hp. destruct (Hs k p Hp) as [? ->]. eauto. Qed.

Lemma nonces_on_snoc p q n l :
  nonces_on p (l ++ [(q, n)]) = nonces_on p l ++ (if decide (q = p) then [n] else []).
Proof.
  unfold nonces_on. rewrite filter_app, fmap_app. f_equal. rewrite filter_cons. simpl.
  by case_decide.
Qed.

Lemma nonces_on_none p l : (∀ n, (p, n) ∉ l) → nonces_on p l = [].
Proof.
  intros Hl. unfold nonces_on. induction l as [|[q n] l IH]; [done|]. rewrite filter_cons. simpl.
  case_decide as Hq; [|apply IH; intros m Hm; by eapply Hl, list_elem_of_further].
  subst q. exfalso. by eapply Hl, list_elem_of_here.
Qed.

Lemma expects_holds n pc e : expects n pc = Some e → ∃ p, phase_of pc = Some (Holding p).
Proof. destruct pc; simpl; try done; eauto. Qed.

Lemma winv_start : winv world0.
Proof.
  constructor; simpl; try (intros *; rewrite lookup_empty; done).
  - apply empty_tracker_wf.
  - intros k p Hp. unfold Held.held_of in Hp. simpl in Hp. rewrite lookup_empty in Hp. set_solver.
  - intros p i a b. done.
  - intros p n Hp. set_solver.
Qed.

Lemma winv_arrive g ctx prepared w :
  w_gs w !! g = None → nonce_u64 prepared → winv w →
  winv {| w_shared := w_shared w;
          w_gs := <[g := {| g_ctx := ctx; g_prepared := prepared; g_pc := AtDoor |}]> (w_gs w) |}.
Proof.
  intros Hg Hn [Hwf Ht Hh He Hc Hs Hx Hf]. constructor; cbn [w_shared w_gs]; try done.
  - intros g' x. rewrite lookup_insert. case_decide; [by intros [= <-]|apply Ht].
  - intros k p Hp. destruct (Hh k p Hp) as (g' & x & Hg' & ?). exists g', x. split; [|done].
    rewrite lookup_insert_ne; [done|]. congruence.
  - intros g' x e. rewrite lookup_insert. case_decide; [by intros [= <-]|apply He].
  - intros g' x. rewrite lookup_insert. case_decide; [by intros [= <-]|apply Hc].
Qed.

(** The goroutine that took a step, and the others. *)
Lemma winv_effect g x pc sh w :
  w_gs w !! g = Some x → winv w →
  send_effect (g_key x) (Nonce (g_prepared x)) (g_pc x) pc (tracker_of (w_shared w)) (tracker_of sh) →
  sent sh = sent (w_shared w) →
  winv {| w_shared := sh; w_gs := <[g := at_pc pc x]> (w_gs w) |}.
Proof.
  intros Hg [Hwf Ht Hh He Hc Hs Hx Hf] [Ewf Est Esd Etn Ehd Een Eex] Hsent.
  constructor; cbn [w_shared w_gs]; rewrite ?Hsent; try done.
  - intros g' y. rewrite lookup_insert. case_decide; [by intros [= <-]|]. intros Hy%Ht.
    by eapply turn_ok_steady.
  - intros k p Hp. destruct (Ehd k p Hp) as [Hold|[-> Hnew]].
    + destruct (Hh k p Hold) as (g' & y & Hg' & Hk & Hy).
      destruct (decide (g = g')) as [<-|Hne].
      * assert (y = x) as -> by congruence. exists g, (at_pc pc x).
        rewrite lookup_insert_eq. split; [done|]. split; [done|]. simpl.
        destruct (Een p Hy) as [?|Hno]; [done|]. by destruct (Hno k).
      * exists g', y. by rewrite lookup_insert_ne.
    + exists g, (at_pc pc x). by rewrite lookup_insert_eq.
  - intros g' y e. rewrite lookup_insert. case_decide.
    + intros [= <-] Hy. destruct (Eex e Hy) as [Hold|?]; [|done].
      apply (expected_of_stays (g_key x) e (tracker_of (w_shared w))); [by apply (He g)|done].
    + intros Hy Hye. eapply expected_of_stays; [by eapply He|done].
  - intros g' y. rewrite lookup_insert. case_decide; [intros [= <-]; by apply (Hc g x)|apply Hc].
  - by apply (sent_stays _ (tracker_of (w_shared w))).
  - intros p n Hp%Hf. destruct Est. lia.
Qed.

Lemma winv_else t m q gas w :
  winv w → calm (tracker_of (w_shared w)) t →
  winv {| w_shared := with_service {| sv_tracker := t; sv_queue := q; sv_memory := m;
                                      sv_gas := gas |} (w_shared w); w_gs := w_gs w |}.
Proof.
  intros [Hwf Ht Hh He Hc Hs Hx Hf] (Cwf & Cst & Csd & Chd). constructor; try done; cbn -[last].
  - intros g y Hy%Ht. by eapply turn_ok_steady.
  - intros k p Hp%Chd. by apply Hh.
  - intros g y e Hy Hye. eapply expected_of_stays; [by eapply He|done].
  - by apply (sent_stays _ (tracker_of (w_shared w))).
  - intros p n Hp%Hf. destruct Cst. lia.
Qed.

Lemma winv_note now g x p tx w :
  w_gs w !! g = Some x → g_pc x = AtNote p tx → lock_inv (lock_view w) → winv w →
  let '(chain, t) := reserveLocked cfg now (g_key x) (Nonce (g_prepared x)) true (tracker_of (w_shared w)) in
  let pending := Chains.pending (Chains.at_ (chs t) chain) in
  let t := set_hld (Held.notifyTurnLocked (g_key x) (hld t)) t in
  winv {| w_shared := log_sent chain (Nonce (g_prepared x)) (set_tracker t (w_shared w));
          w_gs := <[g := at_pc (AtRemember p tx chain pending) x]> (w_gs w) |}.
Proof.
  intros Hg Hpc Hlock [Hwf Ht Hh He Hc Hs Hx Hf].
  assert (Hexp : expected_of (g_key x) (Nonce (g_prepared x)) (tracker_of (w_shared w))).
  { apply (He g x _ Hg). by rewrite Hpc. }
  pose proof (note_effect now (g_key x) (Nonce (g_prepared x)) _ Hwf (Hc g x Hg) Hexp) as Hn.
  destruct (reserveLocked cfg now (g_key x) (Nonce (g_prepared x)) true (tracker_of (w_shared w)))
    as [ch t]. cbv zeta in Hn |- *.
  set (t' := set_hld (Held.notifyTurnLocked (g_key x) (hld t)) t) in *.
  destruct Hn as (Nwf & Nsd & Nhd & Nfr & Nlt & Nin & Nnx & Norig & Noth).
  constructor; cbn [w_shared w_gs sent log_sent set_tracker with_service];
    change (tracker_of (log_sent ch _ _)) with t'.
  - done.
  - intros g' y. rewrite lookup_insert. case_decide; [by intros [= <-]|]. intros Hy%Ht.
    by eapply turn_ok_steady.
  - intros k q Hq%Nhd. destruct (Hh k q Hq) as (g' & y & Hg' & Hk & Hy). exists g', y.
    rewrite lookup_insert_ne; [done|]. intros <-. assert (y = x) as -> by congruence.
    by rewrite Hpc in Hy.
  - intros g' y e. rewrite lookup_insert. case_decide as Hgg; [by intros [= <-]|].
    intros Hy Hye q Hq. destruct (decide (g_key y = g_key x)) as [Hkk|Hne].
    + destruct (expects_holds _ _ _ Hye) as [l Hl]. destruct Hgg.
      apply (lock_inv_excl (lock_view w) g g' (g_key x) p l Hlock).
      * simpl. apply uses_of_lookup. exists x. by rewrite Hpc.
      * simpl. apply uses_of_lookup. eauto.
    + destruct (Noth _ _ Hne Hq) as [Hq' ->]. by apply (He g' y e Hy Hye).
  - intros g' y. rewrite lookup_insert. case_decide; [intros [= <-]; by apply (Hc g x)|apply Hc].
  - intros q. rewrite nonces_on_snoc. case_decide as Hq; [|by rewrite app_nil_r].
    subst q. apply consecutive_snoc; [done|]. intros b Hb. destruct Norig as [->|[Hold Hnext]].
    + rewrite nonces_on_none in Hb; [done|]. intros m Hm%Hf. simpl in Hm. lia.
    + destruct (Hx _ _ Hold) as (a & Ha & Hfol). rewrite Ha in Hb. injection Hb as <-.
      by rewrite Hnext in Hfol.
  - intros k q Hq. rewrite nonces_on_snoc. destruct (decide (k = g_key x)) as [->|Hne].
    + assert (q = ch) as -> by congruence. rewrite decide_True by done.
      rewrite last_snoc. by exists (Nonce (g_prepared x)).
    + destruct (Noth _ _ Hne Hq) as [Hold Hnext]. rewrite decide_False.
      * rewrite app_nil_r, Hnext. by apply (Hx k).
      * intros <-. apply Hne. by eapply (Chains.wf_own _ (proj1 Nwf)).
  - intros q m. rewrite elem_of_app, list_elem_of_singleton. intros [Hq%Hf|[= -> _]]; lia.
Qed.

Lemma world_step_inv w w' :
  world_step w w' → lock_inv (lock_view w) → winv w → winv w'.
Proof.
  destruct 1 as [g ctx prepared w Hg Hn|g x i pc sh log w Hg Hs|t m q gas w Hel]; intros Hl Hw.
  - by apply winv_arrive.
  - destruct (g_pc x) as [| | | | | | | | | |p tx| | | | | |] eqn:Hpc.
    11: { pose proof (winv_note (in_now (si_await i)) g x p tx w Hg Hpc Hl Hw) as Hnote.
          cbn [send_step] in Hs. fold (g_key x) in Hs.
          destruct (reserveLocked _ _ _ _ _ _) as [ch t]. by simplify_eq. }
    all: rewrite <-Hpc in Hs;
      (destruct (send_step_effect _ _ _ _ _ _ _ _ _ Hs) as [Heff Hsent];
        [apply Hw|by apply (wi_turn _ Hw g)|intros; by rewrite Hpc|]);
      apply winv_effect; done.
  - apply winv_else; [done|]. apply elsewhere_calm; [done|apply Hw].
Qed.

Lemma world_reachable w : rtc world_step world0 w → winv w ∧ lock_inv (lock_view w).
Proof.
  intros Hr. apply (rtc_preserves world_step (λ w, winv w ∧ lock_inv (lock_view w)) world0).
  - intros a b Hab [Ha Hl]. split; [by eapply world_step_inv|].
    destruct (lock_view_step _ _ Hab) as [Hstep| ->]; [by eapply lock_step_inv|done].
  - split; [apply winv_start|]. unfold lock_view, uses_of. simpl. rewrite omap_empty.
    apply lock_inv_start.
  - done.
Qed.

(** (C1) The nonces of a user go out in order and without gaps: however the sends of the
    service interleave, with each other, with the results that come back, with the
    rejections that let chains go and with the timers, the metatx sent on one chain
    carry consecutive nonces, in the order in which they took the global lock; and
    while a chain is in force, the nonce expected on it is the one after the last
    that was sent. The nonces are any [uint64]: only after the last one of the 64 bits,
    where the number after wraps around, does a chain go on from 0 or repeat it. *)
Theorem sends_are_consecutive (w : world) (Hreach : rtc world_step world0 w) :
  (∀ p i a b, nonces_on p (sent (w_shared w)) !! i = Some a →
     nonces_on p (sent (w_shared w)) !! S i = Some b →
     (a < max_u64 → b = a + 1) ∧ (max_u64 ≤ a → a = max_u64 ∧ (b = 0 ∨ b = max_u64))) ∧
  (∀ key p, Chains.senders (chs (tracker_of (w_shared w))) !! key = Some p →
     ∃ a, last (nonces_on p (sent (w_shared w))) = Some a ∧
       let expected := Chains.next (Chains.at_ (chs (tracker_of (w_shared w))) p) in
       (a < max_u64 → expected = a + 1) ∧
       (max_u64 ≤ a → a = max_u64 ∧ (expected = 0 ∨ expected = max_u64))).
Proof.
  assert (Hf : ∀ a b, follows a b → (a < max_u64 → b = a + 1) ∧
    (max_u64 ≤ a → a = max_u64 ∧ (b = 0 ∨ b = max_u64))) by (unfold follows; intros; lia).
  destruct (world_reachable w Hreach) as [Hw _]. split.
  - intros p i a b Ha Hb. apply Hf. by apply (wi_sent _ Hw p i).
  - intros key p Hp. destruct (wi_next _ Hw key p Hp) as (a & Ha & Hn). exists a.
    split; [done|]. by apply Hf.
Qed.

(** ** The global lock, and what nobody leaves behind *)

Definition relay_inv (w : world) : Prop :=
  ∀ g, sh_relay (w_shared w) = Some g ↔ ∃ x, w_gs w !! g = Some x ∧ in_relay (g_pc x) = true.

Lemma send_step_relay g ctx prepared i pc pc' w w' log :
  send_step g ctx prepared i pc w = Some (pc', w', log) →
  match in_relay pc, in_relay pc' with
  | false, true => sh_relay w = None ∧ sh_relay w' = Some g
  | true, false => sh_relay w' = None
  | _, _ => sh_relay w' = sh_relay w
  end.
Proof.
  destruct pc; cbn [send_step in_relay]; intros Hs;
    repeat (case_match; simplify_eq/=); try done.
Qed.

Lemma relay_inv_step w w' : world_step w w' → relay_inv w → relay_inv w'.
Proof.
  destruct 1 as [g ctx prepared w Hg Hn|g x i pc sh log w Hg Hs|]; intros Hr; [|..|done].
  - intros g'. simpl. rewrite (Hr g'). rewrite lookup_insert. case_decide; [subst g'|done].
    rewrite Hg. split; [by intros (? & ? & _)|]. by intros (? & [= <-] & ?).
  - pose proof (send_step_relay _ _ _ _ _ _ _ _ _ Hs) as Hx. intros g'. simpl.
    rewrite lookup_insert. pose proof (Hr g') as Hg'. case_decide as Hgg.
    + subst g'. rewrite Hg in Hg'.
      assert (sh_relay (w_shared w) = Some g ↔ in_relay (g_pc x) = true) as Hself.
      { rewrite Hg'. split; [by intros (? & [= <-] & ?)|eauto]. }
      assert (sh_relay sh = Some g ↔ in_relay pc = true) as ->.
      { destruct (in_relay (g_pc x)), (in_relay pc); rewrite ?Hx; try done.
        destruct Hx as [_ ->]. done. }
      split; [eauto|]. by intros (? & [= <-] & ?).
    + rewrite <-Hg'. clear Hg'. pose proof (Hr g) as Hself. rewrite Hg in Hself.
      destruct (in_relay (g_pc x)) eqn:Hin, (in_relay pc); try by rewrite Hx.
      * assert (sh_relay (w_shared w) = Some g) as Hrel by (apply Hself; eauto).
        rewrite Hx, Hrel. split; [done|]. congruence.
      * destruct Hx as [Hn ->]. rewrite Hn. split; [congruence|done].
Qed.

Lemma world_relay w : rtc world_step world0 w → relay_inv w ∧ tight (lock_view w).
Proof.
  intros Hr.
  apply (rtc_preserves world_step
    (λ w, relay_inv w ∧ lock_inv (lock_view w) ∧ tight (lock_view w)) world0) in Hr;
    [tauto|..].
  - intros a b Hab (Ha & Hl & Ht). split; [by eapply relay_inv_step|].
    destruct (lock_view_step _ _ Hab) as [Hstep| ->]; [|done].
    split; [by eapply lock_step_inv|by eapply lock_step_tight].
  - split; [|split].
    + intros g. simpl. rewrite lookup_empty. split; [done|]. by intros (? & ? & _).
    + unfold lock_view, uses_of. simpl. rewrite omap_empty. apply lock_inv_start.
    + intros k p. simpl. by rewrite lookup_empty.
Qed.

(** (C4) No place leaks. Every entry of the registry of held metatx belongs to a goroutine
    of that user that is still waiting for its turn, so however a wait ends (in turn,
    expired, surplus, evicted, or because the client went away) the place it took
    is given back; and when every send has finished, the registry is empty, no
    user has a lock, and the global lock is free. *)
Theorem no_place_leaks (w : world) (Hreach : rtc world_step world0 w) :
  (∀ key p, p ∈ Held.held_of (hld (tracker_of (w_shared w))) key →
     ∃ g x started pc, w_gs w !! g = Some x ∧ g_key x = key ∧
       g_pc x = AtTurn started pc ∧ await_entry pc = Some p) ∧
  ((∀ g x, w_gs w !! g = Some x → finished (g_pc x) = true) →
     Held.held (hld (tracker_of (w_shared w))) = ∅ ∧
     userLocks (sh_locks (w_shared w)) = ∅ ∧ sh_relay (w_shared w) = None).
Proof.
  destruct (world_reachable w Hreach) as [Hw _], (world_relay w Hreach) as [Hr Ht].
  assert (Hheld : ∀ key p, p ∈ Held.held_of (hld (tracker_of (w_shared w))) key →
     ∃ g x started pc, w_gs w !! g = Some x ∧ g_key x = key ∧
       g_pc x = AtTurn started pc ∧ await_entry pc = Some p).
  { intros key p Hp. destruct (wi_held _ Hw key p Hp) as (g & x & Hg & Hk & He).
    destruct (g_pc x) as [|started pc| | | | | | | | | | | | | | |] eqn:Hpc; try done.
    by exists g, x, started, pc. }
  split; [done|]. intros Hdone. split_and!.
  - apply map_empty. intros k. destruct (Held.held _ !! k) as [l|] eqn:Hl; [|done].
    pose proof (Held.wf_list _ (proj2 (wi_tracker _ Hw)) _ _ Hl) as (Hne & _).
    destruct l as [|p l]; [done|]. destruct (Hheld k p) as (g & x & st & pc & Hg & _ & Hpc & _).
    { rewrite (Held.held_of_lookup _ _ _ Hl). apply list_elem_of_here. }
    specialize (Hdone g x Hg). by rewrite Hpc in Hdone.
  - apply map_empty. intros k. destruct (userLocks _ !! k) as [p|] eqn:Hp; [|done].
    apply Ht in Hp. assert (procs (lock_view w) = ∅) as Hnone.
    { apply map_empty. intros g. unfold lock_view, uses_of. simpl. rewrite lookup_omap.
      destruct (w_gs w !! g) as [x|] eqn:Hg; [simpl|done]. specialize (Hdone g x Hg).
      by destruct (g_pc x). }
    rewrite Hnone in Hp. unfold uses in Hp. rewrite map_filter_empty, map_size_empty in Hp. lia.
  - destruct (sh_relay (w_shared w)) as [g|] eqn:Hg; [|done]. apply Hr in Hg as (x & Hg & Hin).
    specialize (Hdone g x Hg). by destruct (g_pc x).
Qed.

(** ** Progress *)

Definition can_step (g : nat) (x : goroutine) (w : world) : Prop :=
  ∃ i, is_Some (send_step g (g_ctx x) (g_prepared x) i (g_pc x) (w_shared w)).

(** How far a send is from its end, once its wait is over. *)
Definition rank (pc : send_pc) : nat :=
  match pc with
  | AtDoor | AtTurn _ _ => 15 | AtLockUser => 14 | InQueue _ => 13 | AtExpected _ => 12
  | AtCompare _ _ => 11 | AtRelayLock _ => 10 | AtQuota _ => 9 | AtSend _ => 8 | AtClose _ _ => 7
  | AtNote _ _ => 6 | AtRemember _ _ _ _ => 5 | AtRelayUnlock _ _ => 4 | AtForget _ _ => 3
  | AtUnlock _ _ => 2 | AtLeave _ _ => 1 | Finished _ => 0
  end.

Definition waiting_turn (pc : send_pc) : bool := match pc with AtTurn _ _ => true | _ => false end.

Definition timer_input (node : Node) (t : Z) : await_input :=
  {| in_now := t; in_later := t; in_node := node; in_fired := TimerFired |}.

Lemma await_enabled ctx started sender n (node : Node) pc t :
  (needs_entry pc = true → is_Some (await_entry pc)) → (∀ r, pc ≠ AwaitDone r) →
  ∃ i, is_Some (await_step c ctx started sender n i pc t).
Proof.
  intros Hn Hd. exists (timer_input node (match pc with Asleep _ _ _ until => until | _ => 0 end)).
  destruct pc as [w|w r|w e rem|w e rem|w e wk un|w e|w e|w reason e ret|r]; simpl in *;
    try (destruct (Hn eq_refl) as [p ->]); try (by repeat case_match).
  - rewrite Z.leb_refl. done.
  - by destruct (Hd r).
Qed.

(** What a goroutine inside a lock, or outside all of them, does not wait for. *)
Lemma step_enabled g x w (i : send_input) :
  turn_ok (g_key x) (g_pc x) (tracker_of (w_shared w)) → finished (g_pc x) = false →
  (∀ p, g_pc x = InQueue p → holder (lock_at (sh_locks (w_shared w)) p) = None) →
  (∀ p, g_pc x = AtRelayLock p → sh_relay (w_shared w) = None) →
  can_step g x w.
Proof.
  intros Hok Hf Hq Hrl. unfold can_step.
  destruct (g_pc x) as [|started pc| |p|p|p r|p|p|p|p tx|p tx|p tx ch pend|p r|p e|p r|p r|r] eqn:Hpc;
    try done.
  2: { destruct pc as [w1|w1 r1|w1 e1 m1|w1 e1 m1|w1 e1 k1 u1|w1 e1|w1 e1|w1 s1 e1 r1|[e|]];
         try (by exists i; cbn [send_step]);
         (match goal with |- context [AtTurn _ ?pc] =>
            destruct (await_enabled (g_ctx x) started (SenderKey (g_prepared x)) (Nonce (g_prepared x))
              (in_node (si_await i)) pc (tracker_of (w_shared w))) as [a [[[pc' t'] l'] Ha]] end;
          [apply Hok|done|]);
         exists {| si_await := a; si_quota := si_quota i; si_order := si_order i |};
         cbn [send_step si_await]; rewrite Ha; by eexists. }
  all: exists i; cbn [send_step]; unfold acquire;
    try (rewrite (Hq p eq_refl)); try (rewrite (Hrl p eq_refl)); try done;
    repeat case_match; try done.
Qed.

Lemma send_step_rank g ctx prepared i pc pc' w w' log :
  send_step g ctx prepared i pc w = Some (pc', w', log) →
  waiting_turn pc' = false → (rank pc' < rank pc)%nat.
Proof.
  destruct pc; cbn [send_step rank]; intros Hs;
    repeat (case_match; simplify_eq/=); intros; simplify_eq; try done; simpl; lia.
Qed.

(** (C5) The locks cannot deadlock: they are taken in one order, the user's and then the
    global one. A goroutine that holds the global lock is never blocked; one that
    holds its user's can only be waiting for the global lock; and so, while some
    send is not finished, some send can take a step. Past its wait, a send takes at
    most fourteen more. *)
Theorem locks_cannot_deadlock (w : world) (i : send_input) (Hreach : rtc world_step world0 w) :
  (∀ g x, w_gs w !! g = Some x → in_relay (g_pc x) = true → can_step g x w) ∧
  (∀ g x p, w_gs w !! g = Some x → phase_of (g_pc x) = Some (Holding p) →
     can_step g x w ∨ ∃ h, sh_relay (w_shared w) = Some h ∧ h ≠ g) ∧
  (∀ g x, w_gs w !! g = Some x → finished (g_pc x) = false →
     ∃ h y, w_gs w !! h = Some y ∧ finished (g_pc y) = false ∧ can_step h y w) ∧
  (∀ g x i pc sh log, w_gs w !! g = Some x →
     send_step g (g_ctx x) (g_prepared x) i (g_pc x) (w_shared w) = Some (pc, sh, log) →
     waiting_turn pc = false → (rank pc < rank (g_pc x) ≤ 15)%nat).
Proof.
  destruct (world_reachable w Hreach) as [Hw Hl], (world_relay w Hreach) as [Hr Ht].
  assert (Hin : ∀ g x, w_gs w !! g = Some x → in_relay (g_pc x) = true → can_step g x w).
  { intros g x Hg Hx. apply step_enabled; [done|by apply (wi_turn _ Hw g)|..];
      by destruct (g_pc x). }
  assert (Hhold : ∀ g x p, w_gs w !! g = Some x → phase_of (g_pc x) = Some (Holding p) →
     can_step g x w ∨ ∃ h, sh_relay (w_shared w) = Some h ∧ h ≠ g).
  { intros g x p Hg Hp. destruct (sh_relay (w_shared w)) as [h|] eqn:Hrel.
    - destruct (decide (h = g)) as [->|Hne]; [|right; eauto]. left.
      apply Hr in Hrel as (y & Hy & Hyin). apply Hin; [done|]. by simplify_eq.
    - left. apply step_enabled; [done|by apply (wi_turn _ Hw g)|by destruct (g_pc x)|
        |by intros]. intros q Hq. by rewrite Hq in Hp. }
  split; [done|]. split; [done|]. split.
  - intros g x Hg Hf.
    destruct (sh_relay (w_shared w)) as [h|] eqn:Hrel.
    { apply Hr in Hrel as (y & Hy & Hyin). exists h, y. split; [done|].
      split; [by destruct (g_pc y)|]. by apply Hin. }
    destruct (g_pc x) as [| | |p| | | | | | | | | | | | |] eqn:Hpc; try done.
    4: { destruct (holder (lock_at (sh_locks (w_shared w)) p)) as [h|] eqn:Hh.
         - apply (li_holder _ Hl) in Hh as [k Hh]. simpl in Hh.
           apply uses_of_lookup in Hh as (y & Hy & _ & Hph). exists h, y. split; [done|].
           split; [by destruct (g_pc y)|].
           destruct (Hhold h y p Hy Hph) as [?|(j & Hj & _)]; [done|congruence].
         - exists g, x. split; [done|]. split; [by rewrite Hpc|].
           apply step_enabled; [done|by apply (wi_turn _ Hw g)|by rewrite Hpc|..];
             intros q; rewrite Hpc; [by intros [= <-]|done]. }
    all: exists g, x; (split; [done|]); (split; [by rewrite Hpc|]);
      (apply step_enabled; [done|by apply (wi_turn _ Hw g)|by rewrite Hpc|
        intros q; by rewrite Hpc|by intros]).
  - intros g x i' pc sh log Hg Hs Hwt. split; [by eapply send_step_rank|].
    destruct (g_pc x); simpl; lia.
Qed.

(** ** What a goroutine answers is what it did *)

(** It has sent its metatx, and will say so or has. *)
Definition sent_by (pc : send_pc) : bool :=
  match pc with
  | AtRemember _ _ _ _ => true
  | AtRelayUnlock _ (Returns (Ok _)) | AtUnlock _ (Returns (Ok _)) | AtLeave _ (Returns (Ok _))
  | Finished (Returns (Ok _)) => true
  | _ => false
  end.

(** The nonces of those that have, goroutine by goroutine. *)
Definition claimed (l : list (nat * goroutine)) : list Z :=
  (λ x, Nonce (g_prepared x.2)) <$> filter (λ x, sent_by (g_pc x.2) = true) l.

(** A step writes one send down when the goroutine passes from not having sent to having,
    and at no other time. *)
Lemma send_step_accounts g ctx prepared i pc pc' w w' log :
  send_step g ctx prepared i pc w = Some (pc', w', log) →
  (sent_by pc = true → sent_by pc' = true) ∧
  (sent_by pc = sent_by pc' → sent w' = sent w) ∧
  (sent_by pc = false → sent_by pc' = true → ∃ p, sent w' = sent w ++ [(p, Nonce prepared)]).
Proof.
  destruct pc; cbn [send_step sent_by]; intros Hs;
    repeat (case_match; simplify_eq/=); simplify_eq/=; try done;
    (refine (conj _ (conj _ _)); intros; simplify_eq/=; try done; eauto).
Qed.

Lemma claimed_insert gs g x :
  claimed (map_to_list (<[g := x]> gs)) ≡ₚ claimed ((g, x) :: map_to_list (delete g gs)).
Proof.
  unfold claimed. apply fmap_Permutation, filter_Permutation. rewrite <-insert_delete_eq.
  apply map_to_list_insert, lookup_delete_eq.
Qed.

Lemma claimed_step w w' :
  world_step w w' → snd <$> sent (w_shared w) ≡ₚ claimed (map_to_list (w_gs w)) →
  snd <$> sent (w_shared w') ≡ₚ claimed (map_to_list (w_gs w')).
Proof.
  destruct 1 as [g ctx prepared w Hg Hn|g x i pc sh log w Hg Hs|]; intros Hw; simpl; [..|done].
  - rewrite claimed_insert, delete_id by done. exact Hw.
  - rewrite claimed_insert.
    assert (Hold : snd <$> sent (w_shared w) ≡ₚ claimed ((g, x) :: map_to_list (delete g (w_gs w)))).
    { rewrite Hw, <-claimed_insert. by rewrite insert_id. }
    destruct (send_step_accounts _ _ _ _ _ _ _ _ _ Hs) as (Hkeep & Hsame & Hnew).
    unfold claimed in *. rewrite filter_cons in *. simpl in *.
    destruct (sent_by (g_pc x)) eqn:Hx, (sent_by pc) eqn:Hpc; simpl in *;
      [by rewrite Hsame|by discriminate Hkeep| |by rewrite Hsame].
    destruct (Hnew eq_refl eq_refl) as [p ->]. rewrite fmap_app, Hold. simpl.
    by rewrite <-Permutation_cons_append.
Qed.

(** (C3) An answer is the truth about the send. However the sends interleave, the metatx
    that went out are, nonce by nonce, those of the goroutines that ended with a hash or are on
    their way to: one that ends with a hash sent its metatx once, and one that ends
    with an error -- the quota, the turn, the nonce, the gas, the node -- or with a panic
    sent none. *)
Theorem answers_account_for_sends (w : world) (Hreach : rtc world_step world0 w) :
  snd <$> sent (w_shared w) ≡ₚ claimed (map_to_list (w_gs w)) ∧
  (∀ g x h, w_gs w !! g = Some x → g_pc x = Finished (Returns (Ok h)) →
     ∃ p, (p, Nonce (g_prepared x)) ∈ sent (w_shared w)).
Proof.
  assert (Hp : snd <$> sent (w_shared w) ≡ₚ claimed (map_to_list (w_gs w))).
  { apply (rtc_preserves world_step (λ w, snd <$> sent (w_shared w) ≡ₚ claimed (map_to_list (w_gs w)))
      world0); [intros a b; apply claimed_step| |done]. simpl. by rewrite map_to_list_empty. }
  split; [exact Hp|]. intros g x h Hg Hpc.
  assert (Hin : Nonce (g_prepared x) ∈ snd <$> sent (w_shared w)).
  { rewrite Hp. unfold claimed. apply list_elem_of_fmap. exists (g, x). split; [done|].
    apply list_elem_of_filter. split; [simpl; by rewrite Hpc|]. by apply elem_of_map_to_list. }
  apply list_elem_of_fmap in Hin as ([p n] & -> & Hin). by exists p.
Qed.

(** ** Undisturbed, the critical section is [reserveGasAndSend] *)

(** The steps of one goroutine, one after the other, until it is to give the global
    lock back. *)
Fixpoint critical_section (g : nat) (ctx : context) (prepared : PreparedMetaTx)
    (inputs : list send_input) (pc : send_pc) (w : shared) :
    option (nat * outcome (result error hash) * shared * list emission) :=
  match pc, inputs with
  | AtRelayUnlock p r, _ => Some (p, r, w, [])
  | _, [] => None
  | _, i :: inputs =>
      match send_step g ctx prepared i pc w with
      | None => None
      | Some (pc, w, log) =>
          match critical_section g ctx prepared inputs pc w with
          | Some (p, r, w, log') => Some (p, r, w, log ++ log')
          | None => None
          end
      end
  end.

Definition reading_at (node quota : Node) (now : Z) (order : list hash) : send_input := {|
  si_await := {| in_now := now; in_later := now; in_node := node; in_fired := Woken |};
  si_quota := quota; si_order := order |}.

(** The readings of [reserveGasAndSend], handed out to the steps. *)
Definition inputs_of (rd : send_reading) : list send_input :=
  let i := reading_at (sr_node rd) (sr_quota rd) in
  [i (sr_note rd) []; i (sr_note rd) []; i (sr_note rd) []; i (sr_note rd) [];
   i (sr_remember rd) (sr_order rd)].

Lemma critical_cons g ctx prepared i inputs pc pc1 w w1 log1 p r w2 log2 :
  (∀ p r, pc ≠ AtRelayUnlock p r) →
  send_step g ctx prepared i pc w = Some (pc1, w1, log1) →
  critical_section g ctx prepared inputs pc1 w1 = Some (p, r, w2, log2) →
  critical_section g ctx prepared (i :: inputs) pc w = Some (p, r, w2, log1 ++ log2).
Proof.
  intros Hpc Hs Hc.
  transitivity (match send_step g ctx prepared i pc w with
    | None => None
    | Some (pc, w, log) =>
        match critical_section g ctx prepared inputs pc w with
        | Some (p, r, w, log') => Some (p, r, w, log ++ log')
        | None => None
        end
    end); [|by rewrite Hs, Hc].
  destruct pc; try reflexivity. by destruct (Hpc p0 r0).
Qed.

Lemma critical_done g ctx prepared inputs p r w :
  critical_section g ctx prepared inputs (AtRelayUnlock p r) w = Some (p, r, w, []).
Proof. by destruct inputs. Qed.

#[local] Arguments critical_section : simpl never.

(** (C21) When nothing interleaves, the steps under the global lock are [reserveGasAndSend]:
    the same result, the same state of the service and the same events, with the
    lock of the user and the global one as they were. *)
Theorem steps_implement_the_send (g p : nat) (ctx : context) (prepared : PreparedMetaTx)
    (rd : send_reading) (w : shared) (Hon : reorderEnabled cfg = true) :
  let '(r, s, log) := reserveGasAndSend c rd ctx prepared (sh_service w) in
  ∃ w', critical_section g ctx prepared (inputs_of rd) (AtQuota p) w = Some (p, r, w', log) ∧
    sh_service w' = s ∧ sh_locks w' = sh_locks w ∧ sh_relay w' = sh_relay w.
Proof.
  unfold reserveGasAndSend, sendPrepared, inputs_of, noteSent. rewrite Hon.
  destruct (VerifyGasLimit c (sr_quota rd) (MetaTxGasLimit prepared) (sv_gas (sh_service w)))
    as [[[[]|e]|why] gas] eqn:Hgas.
  2-4: eexists; (split; [eapply (critical_cons _ _ _ _ _ _ _ _ _ []);
    [done|cbn [send_step si_quota reading_at]; rewrite Hgas; reflexivity|apply critical_done]|done]).
  destruct (broadcast c (sr_node rd) prepared) as [[tx|e]|why] eqn:Hb.
  2-3: eexists; (split; [eapply (critical_cons _ _ _ _ _ _ _ _ _ []);
    [done|cbn [send_step si_quota reading_at]; rewrite Hgas; reflexivity|
     eapply (critical_cons _ _ _ _ _ _ _ _ _ []);
      [done|cbn [send_step si_await reading_at in_node]; rewrite Hb; reflexivity|apply critical_done]]
    |done]).
  destruct (reserveLocked cfg (sr_note rd) (senderKey (SenderKey prepared)) (Nonce prepared) true
    (sv_tracker (with_gas gas (sh_service w)))) as [chain t] eqn:Hr.
  eexists. split; [|].
  { eapply (critical_cons _ _ _ _ _ _ _ _ _ []);
      [done|cbn [send_step si_quota reading_at]; rewrite Hgas; reflexivity|].
    eapply (critical_cons _ _ _ _ _ _ _ _ _ []);
      [done|cbn [send_step si_await reading_at in_node]; rewrite Hb; reflexivity|].
    eapply (critical_cons _ _ _ _ _ _ _ _ _ []); [done|reflexivity|].
    eapply (critical_cons _ _ _ _ _ _ _ _ _ []);
      [done|cbn [send_step si_await reading_at in_now];
        change (tracker_of _) with (sv_tracker (with_gas gas (sh_service w))); rewrite Hr; reflexivity|].
    eapply (critical_cons _ _ _ _ _ _ _ _ _ [_]); [done|reflexivity|apply critical_done]. }
  done.
Qed.

(** ** A goroutine that runs alone *)

Fixpoint run_alone (fuel : nat) (g : nat) (i : send_input) (w : world) : world :=
  match fuel with
  | O => w
  | S fuel =>
      match w_gs w !! g with
      | None => w
      | Some x =>
          match send_step g (g_ctx x) (g_prepared x) i (g_pc x) (w_shared w) with
          | None => w
          | Some (pc, sh, _) =>
              run_alone fuel g i {| w_shared := sh; w_gs := <[g := at_pc pc x]> (w_gs w) |}
          end
      end
  end.

Lemma run_alone_reaches fuel g i w : rtc world_step w (run_alone fuel g i w).
Proof.
  revert w. induction fuel as [|fuel IH]; intros w; simpl; [done|].
  destruct (w_gs w !! g) as [x|] eqn:Hg; [|done].
  destruct (send_step _ _ _ _ _ _) as [[[pc sh] log]|] eqn:Hs; [|done].
  eapply rtc_l; [by eapply w_run|apply IH].
Qed.

Definition arrives (g : nat) (ctx : context) (prepared : PreparedMetaTx) (w : world) : world := {|
  w_shared := w_shared w;
  w_gs := <[g := {| g_ctx := ctx; g_prepared := prepared; g_pc := AtDoor |}]> (w_gs w) |}.

(** ** The call, as the rest of the service sees it *)

(** The steps of a goroutine until it ends, or [None] while it has not with these
    readings; before each one, what the others did meanwhile to what is shared. *)
Fixpoint run_send (g : nat) (ctx : context) (prepared : PreparedMetaTx)
    (inputs : list ((shared → shared) * send_input)) (pc : send_pc) (w : shared) :
    option (outcome (result error hash)) * shared * list emission :=
  match pc, inputs with
  | Finished r, _ => (Some r, w, [])
  | _, [] => (None, w, [])
  | _, (others, i) :: inputs =>
      match send_step g ctx prepared i pc (others w) with
      | None => run_send g ctx prepared inputs pc (others w)
      | Some (pc, w, log) =>
          let '(r, w, log') := run_send g ctx prepared inputs pc w in (r, w, log ++ log')
      end
  end.

(** With the reordering off, straight to the critical section, which waits for the
    global lock. *)
Definition ReserveGasAndSend (g : nat) (rd : send_reading)
    (inputs : list ((shared → shared) * send_input)) (ctx : context) (prepared : PreparedMetaTx)
    (w : shared) : option (outcome (result error hash)) * shared * list emission :=
  if reorderEnabled cfg then run_send g ctx prepared inputs AtDoor w
  else
    match sh_relay w with
    | Some _ => (None, w, [])
    | None =>
        let '(r, s, log) := reserveGasAndSend c rd ctx prepared (sh_service w) in
        (Some r, with_service s w, log)
    end.

End Sending.

#[local] Existing Instances sample_unicode sample_geth sample_eth sample_errors.

Definition sample_input : send_input := reading_at quota_node quota_node 7 [].

Definition next_prepared : PreparedMetaTx := {|
  Tx := Tx sample_prepared; From := From sample_prepared; To := To sample_prepared;
  SigningData := SigningData sample_prepared; sig_V := sig_V sample_prepared;
  sig_R := sig_R sample_prepared; sig_S := sig_S sample_prepared; Nonce := 5;
  MetaTxGasLimit := 100; IsDeploy := false; SenderKey := "0xAB" |}.

(** Two metatx of one user, sent in the order of their nonces. *)
Definition first_sent : world :=
  run_alone sample_config 20 0 sample_input (arrives 0 sample_ctx sample_prepared world0).

Definition sample_world : world :=
  run_alone sample_config 20 1 sample_input (arrives 1 sample_ctx next_prepared first_sent).

Lemma sample_world_reached : rtc (world_step sample_config) world0 sample_world.
Proof.
  apply (rtc_l _ _ (arrives 0 sample_ctx sample_prepared world0)).
  { apply (w_arrive _ 0 sample_ctx sample_prepared world0); [done|]. by split. }
  apply (rtc_trans _ first_sent); [apply run_alone_reaches|].
  apply (rtc_l _ _ (arrives 1 sample_ctx next_prepared first_sent)); [|apply run_alone_reaches].
  apply (w_arrive _ 1 sample_ctx next_prepared first_sent); [vm_compute; reflexivity|]. by split.
Qed.

Lemma sends_are_consecutive_witness :
  sent (w_shared sample_world) = [(0%nat, 4); (0%nat, 5)] ∧
  (∀ i a b, nonces_on 0 (sent (w_shared sample_world)) !! i = Some a →
     nonces_on 0 (sent (w_shared sample_world)) !! S i = Some b → a < max_u64 → b = a + 1).
Proof.
  split; [vm_compute; reflexivity|]. intros i a b Ha Hb.
  destruct (sends_are_consecutive sample_config sample_world sample_world_reached) as [Hall _].
  exact (proj1 (Hall 0%nat i a b Ha Hb)).
Defined.

Lemma second_answered : ∃ x h,
  w_gs sample_world !! 1%nat = Some x ∧ g_pc x = Finished (Returns (Ok h)) ∧ Nonce (g_prepared x) = 5.
Proof. vm_compute. eexists _, _. repeat split; reflexivity. Qed.

Lemma answers_account_for_sends_witness : ∃ p, (p, 5) ∈ sent (w_shared sample_world).
Proof.
  destruct second_answered as (x & h & Hx & Hpc & Hn).
  destruct (answers_account_for_sends sample_config sample_world sample_world_reached) as [_ Hsent].
  destruct (Hsent 1%nat x h Hx Hpc) as [p Hp]. exists p. rewrite <-Hn. exact Hp.
Defined.

Lemma all_sent : map_Forall (λ _ x, finished (g_pc x) = true) (w_gs sample_world).
Proof. refine (bool_decide_unpack _ _). vm_compute. exact I. Qed.

Lemma no_place_leaks_witness :
  Held.held (hld (tracker_of (w_shared sample_world))) = ∅ ∧
  userLocks (sh_locks (w_shared sample_world)) = ∅ ∧ sh_relay (w_shared sample_world) = None.
Proof.
  apply (no_place_leaks sample_config sample_world sample_world_reached). apply all_sent.
Defined.

Lemma locks_cannot_deadlock_witness :
  let w := arrives 0 sample_ctx sample_prepared world0 in
  ∃ h y, w_gs w !! h = Some y ∧ finished (g_pc y) = false ∧ can_step sample_config h y w.
Proof.
  apply (locks_cannot_deadlock sample_config (arrives 0 sample_ctx sample_prepared world0) sample_input)
    with (g := 0%nat) (x := {| g_ctx := sample_ctx; g_prepared := sample_prepared; g_pc := AtDoor |}).
  - apply rtc_once. apply (w_arrive _ 0 sample_ctx sample_prepared world0); [done|]. by split.
  - done.
  - done.
Defined.

Lemma steps_implement_the_send_witness :
  ∃ w', critical_section sample_config 0 sample_ctx sample_prepared (inputs_of sample_send)
          (AtQuota 0) (w_shared (world0)) =
        Some (0%nat, (reserveGasAndSend sample_config sample_send sample_ctx sample_prepared
                        (sh_service (w_shared world0))).1.1, w',
              (reserveGasAndSend sample_config sample_send sample_ctx sample_prepared
                 (sh_service (w_shared world0))).2).
Proof.
  pose proof (steps_implement_the_send sample_config 0 0 sample_ctx sample_prepared sample_send
    (w_shared world0) eq_refl) as Hs.
  destruct (reserveGasAndSend _ _ _ _ _) as [[r s] log]. destruct Hs as (w' & Hw & _). by exists w'.
Defined.
