(* ===== verification/Wakeup.v ===== *)
(** Who is awake, and how a line of held metatx drains: the wake-ups of [service/tracker.go]
    along the machine of [Sending].

    A held metatx sleeps on the channel of the round of its wait, which [notifyTurnLocked]
    and [evictHeldLocked] close. The first theorem says that while it sleeps no wake-up
    passes it by; [woken_too_early], at the end of the file, that one given between its reading of
    the expected nonce and its sleep does. The second says that a line of held metatx whose head
    has been woken goes out whole, each send waking the next. *)

From S2P Require Import Prelude GoLib Config Errors Events AuditLog Client Permissioning Tracker Handout MetaTx Reorder UserLock Turn Correlation Gas Service Sending.

(** ** What the others leave of an entry *)

(** An entry may be woken, and it may be evicted, which wakes it; it is not taken out of
    the register otherwise, and the channel it sleeps on is not forgotten. *)
Record leaves (q : nat) (h h' : Held.t) : Prop := {
  lv_closed : Held.closed h ⊆ Held.closed h';
  lv_evicted : Held.evicted (Held.at_ h q) = true → Held.evicted (Held.at_ h' q) = true;
  lv_held : ∀ k, q ∈ Held.held_of h k →
    q ∈ Held.held_of h' k ∨ Held.evicted (Held.at_ h' q) = true;
  lv_wake : ∀ ch, Held.wake (Held.at_ h q) = Some ch →
    ch ∈ Held.closed h' ∨ Held.wake (Held.at_ h' q) = Some ch;
  lv_told : Held.evicted (Held.at_ h q) = false → Held.evicted (Held.at_ h' q) = true →
    ∀ ch, Held.wake (Held.at_ h q) = Some ch → ch ∈ Held.closed h';
}.

Lemma leaves_same q h h' :
  Held.held h' = Held.held h → Held.at_ h' q = Held.at_ h q → Held.closed h ⊆ Held.closed h' →
  leaves q h h'.
Proof.
  intros Hh Ha Hc. constructor; rewrite ?Ha; auto; [|congruence].
  intros k. unfold Held.held_of. rewrite Hh. by left.
Qed.

Lemma leaves_refl q h : leaves q h h.
Proof. by apply leaves_same. Qed.

Lemma leaves_trans q h1 h2 h3 : leaves q h1 h2 → leaves q h2 h3 → leaves q h1 h3.
Proof.
  intros [C1 E1 H1 W1 T1] [C2 E2 H2 W2 T2]. constructor; [set_solver|auto| | |].
  - intros k Hq. destruct (H1 k Hq) as [?|?]; auto.
  - intros ch Hc. destruct (W1 ch Hc) as [?|?]; [left; set_solver|auto].
  - intros He1 He3 ch Hc. destruct (Held.evicted (Held.at_ h2 q)) eqn:He2.
    + apply C2. auto.
    + destruct (W1 ch Hc) as [?|?]; [set_solver|auto].
Qed.

Lemma leaves_wake q p h : leaves q h (Held.wakeLocked p h).
Proof.
  assert (He : Held.evicted (Held.at_ (Held.wakeLocked p h) q) = Held.evicted (Held.at_ h q)).
  { rewrite Held.wakeLocked_at. by case_decide. }
  constructor; rewrite ?He; auto; [| | |congruence].
  - intros ch Hc. apply Held.wakeLocked_closed. by left.
  - intros k. rewrite Held.held_of_wake. by left.
  - intros ch Hc. rewrite Held.wakeLocked_closed, Held.wakeLocked_at.
    case_decide; subst; [left; by right|by right].
Qed.

Lemma leaves_notify q key h : leaves q h (Held.notifyTurnLocked key h).
Proof.
  unfold Held.notifyTurnLocked. generalize (Held.held_of h key). intros l. revert h.
  induction l as [|p l IH]; intros h; simpl; [apply leaves_refl|].
  eapply leaves_trans; [apply leaves_wake|apply IH].
Qed.

Lemma leaves_hold q key n h : (q < Held.fresh h)%nat → leaves q h (Held.hold key n h).2.
Proof.
  intros Hq. assert (Ha : Held.at_ (Held.hold key n h).2 q = Held.at_ h q).
  { unfold Held.at_. simpl. rewrite lookup_insert_ne; [done|lia]. }
  constructor; rewrite ?Ha; auto; [|congruence].
  intros k Hk. left. rewrite Held.held_of_hold. case_decide; [set_solver|done].
Qed.

Lemma leaves_other q p f h : q ≠ p → leaves q h (Held.set_held p f h).
Proof.
  intros Hq. apply leaves_same; [done| |done]. by rewrite Held.at_set_held, decide_False.
Qed.

Lemma leaves_sleep q p h : q ≠ p → leaves q h (Held.waitTurnLocked p h).2.
Proof.
  intros Hq. apply leaves_same; [done| |done]. unfold Held.at_. simpl.
  by rewrite lookup_insert_ne.
Qed.

Lemma leaves_unhold q key p h :
  Held.wf h → q ≠ p → leaves q h (Held.unholdLocked key p h).
Proof.
  intros Hwf Hq. assert (Ha : Held.at_ (Held.unholdLocked key p h) q = Held.at_ h q) by done.
  constructor; rewrite ?Ha; auto; [|congruence].
  intros k Hk. left. rewrite Held.held_of_unhold. case_decide; [|done].
  rewrite Held.elem_of_remove_first by by apply Held.held_of_NoDup. done.
Qed.

Lemma leaves_evict q key p m h :
  Held.wf h → p ∈ Held.held_of h key → leaves q h (Held.evictHeldLocked key p m h).
Proof.
  intros Hwf Hp. destruct (Held.evictHeldLocked_spec key p m h Hwf Hp)
    as (_ & He & _ & _ & Hc & Hof & Hat).
  assert (Hcl : Held.closed h ⊆ Held.closed (Held.evictHeldLocked key p m h)).
  { intros ch Hch. unfold Held.evictHeldLocked. apply Held.wakeLocked_closed. by left. }
  destruct (decide (q = p)) as [->|Hq].
  - constructor; auto.
  - constructor; rewrite ?(Hat q Hq); auto; [|congruence].
    intros k Hk. left. rewrite Hof. case_decide; [|done].
    rewrite Held.elem_of_remove_first by by apply Held.held_of_NoDup. done.
Qed.

Section Wakeup.
Context `{GoUnicode} `{Geth} `{EthLib} `{PkgErrors} (c : Config).

Abbreviation cfg := (Some c).
Abbreviation spares q t t' := (leaves q (hld t) (hld t')).

(** The operations that only look at the chains. *)
Lemma inflight_hld now k t : hld (inflightLocked cfg now k t).2 = hld t.
Proof. unfold inflightLocked. by destruct (Chains.chainLocked _ _ _ _). Qed.

Lemma cached_hld now from t : hld (cachedNonce cfg now from t).2 = hld t.
Proof. unfold cachedNonce. by destruct (Chains.cachedNonce _ _ _ _). Qed.

Lemma pending_hld now from t : hld (pendingOf cfg now from t).2 = hld t.
Proof. unfold pendingOf. by destruct (Chains.pendingOf _ _ _ _). Qed.

Lemma expected_hld now node from t : hld (expectedNonce c now node from t).2 = hld t.
Proof.
  rewrite <-(cached_hld now from t). unfold expectedNonce.
  by destruct (cachedNonce cfg now from t) as [[]].
Qed.

Lemma surplus_hld now k p t : hld (surplusHeld cfg now k p t).2 = hld t.
Proof.
  rewrite <-(inflight_hld now k t). unfold surplusHeld.
  destruct (inflightLocked cfg now k t). by case_match.
Qed.

Lemma reserve_hld now k n b t : hld (reserveLocked cfg now k n b t).2 = hld t.
Proof. unfold reserveLocked. by destruct (Chains.reserveLocked _ _ _ _ _). Qed.

Lemma spares_same q t t' : hld t' = hld t → spares q t t'.
Proof. intros ->. apply leaves_refl. Qed.

Lemma spares_door q now k n t : tracker_wf t → spares q t (makeRoomFor cfg now k n t).2.
Proof.
  intros [_ Hwf]. pose proof (inflight_hld now k t) as Hh. unfold makeRoomFor.
  destruct (inflightLocked cfg now k t) as [m t1]. cbn [snd] in *.
  destruct (m <? _); [by apply spares_same|].
  pose proof (Held.highestHeldLocked_spec k (hld t1)) as Hhigh.
  destruct (Held.highestHeldLocked k (hld t1)) as [p|]; [|by apply spares_same].
  destruct (_ <=? n); [by apply spares_same|]. apply Held.last_highest_elem in Hhigh.
  cbn [snd hld set_hld]. rewrite Hh in *. by apply leaves_evict.
Qed.

Lemma spares_elsewhere q t t' : elsewhere c t t' → spares q t t'.
Proof.
  destruct 1; try (apply spares_same;
    first [apply cached_hld|apply pending_hld|apply inflight_hld|done]).
  - unfold releaseChain. case_match; [apply leaves_notify|apply leaves_refl].
  - apply leaves_notify.
Qed.

(** ** One step *)

(** An entry of a wait is in the register until it is evicted, and who sleeps on a
    channel has it open in its entry, or closed. *)
Definition sleep_ok (key : string) (pc : await_pc) (t : Tracker) : Prop :=
  (∀ p, await_entry pc = Some p →
     p ∈ Held.held_of (hld t) key ∨ Held.evicted (Held.at_ (hld t) p) = true) ∧
  match pc with
  | Asleep w _ ch _ => ∃ p, w_entry w = Some p ∧
      (ch ∈ Held.closed (hld t) ∨ Held.wake (Held.at_ (hld t) p) = Some ch)
  | _ => True
  end.

Definition turn_sleep (key : string) (pc : send_pc) (t : Tracker) : Prop :=
  match pc with AtTurn _ pc => sleep_ok key pc t | _ => True end.

(** What the others do to an entry keeps it so. *)
Lemma turn_sleep_spared key pc t t' :
  turn_sleep key pc t → (∀ q, entry_of pc = Some q → spares q t t') → turn_sleep key pc t'.
Proof.
  destruct pc as [|started pc| | | | | | | | | | | | | | |]; try done.
  intros [Hin Hsl] Hsp. split.
  - intros p Hp. destruct (Hin p Hp) as [Hk|Hk]; [by apply (lv_held _ _ _ (Hsp p Hp))|].
    right. by apply (lv_evicted _ _ _ (Hsp p Hp)).
  - destruct pc; try done. destruct Hsl as (p & Hp & Hch). exists p. split; [done|].
    destruct (Hsp p Hp) as [Hcl _ _ Hwk _]. destruct Hch as [?|?]; [left; set_solver|auto].
Qed.

(** The steps of a wait that leave the register as it is. *)
Lemma sleep_ok_same key pc pc' t t' :
  sleep_ok key pc t → hld t' = hld t → await_entry pc' = await_entry pc →
  (match pc' with Asleep _ _ _ _ => False | _ => True end) → sleep_ok key pc' t'.
Proof.
  intros [Hin _] Hh He Hno. split; [|by destruct pc']. intros p. rewrite He, Hh. apply Hin.
Qed.

Lemma await_step_sleep ctx started sender n i pc pc' t t' log :
  await_step c ctx started sender n i pc t = Some (pc', t', log) →
  tracker_wf t → sleep_ok (senderKey sender) pc t → sleep_ok (senderKey sender) pc' t'.
Proof.
  intros Hs Hwf Hok.
  destruct pc as [w|w r|w e rem|w e rem|w e wk un|w e|w e|w reason e ret|]; simpl in Hs.
  - pose proof (expected_hld (in_now i) (in_node i) sender t) as Hh.
    destruct (expectedNonce _ _ _ _ _) as [r t1]. simplify_eq. by apply (sleep_ok_same _ (AtTop w) _ t).
  - destruct r as [e|e]; [|simplify_eq; by apply (sleep_ok_same _ _ _ _ _ Hok)].
    destruct (n <=? e); [simplify_eq; by apply (sleep_ok_same _ _ _ _ _ Hok)|].
    unfold hold_once in Hs. destruct (w_entry w) as [p|] eqn:Hw.
    + case_match; simplify_eq; apply (sleep_ok_same _ _ _ _ _ Hok); simpl; by rewrite ?renew_entry.
    + assert (Hnew : ∀ pc', await_entry pc' = Some (Held.fresh (hld t)) →
        (match pc' with Asleep _ _ _ _ => False | _ => True end) →
        sleep_ok (senderKey sender) pc' (hold (senderKey sender) n t).2).
      { intros pc1 Hp Hno. split; [|by destruct pc1]. intros p Hq. rewrite Hp in Hq. injection Hq as <-. left.
        change (hld (hold _ n t).2) with (Held.hold (senderKey sender) n (hld t)).2.
        rewrite Held.held_of_hold, decide_True by done. set_solver. }
      change (hold (senderKey sender) n t) with (Held.fresh (hld t), (hold (senderKey sender) n t).2) in Hs.
      cbv beta iota zeta in Hs. destruct (_ <=? 0); injection Hs as <- <- <-;
        (apply Hnew; [cbn [await_entry]; by rewrite renew_entry|done]).
  - destruct (w_entry w) as [p|] eqn:Hw; [|done].
    pose proof (surplus_hld (in_now i) (senderKey sender) p t) as Hh.
    destruct (surplusHeld _ _ _ _ _) as [[m b] t1].
    destruct b; simplify_eq; by apply (sleep_ok_same _ _ _ _ _ Hok).
  - destruct (w_entry w) as [p|] eqn:Hw; [|done]. injection Hs as <- <- <-. destruct Hok as [Hin _].
    assert (Hat : ∀ q, Held.at_ (Held.waitTurnLocked p (hld t)).2 q =
      if decide (p = q) then Held.with_wake (Some (Held.fresh (hld t))) (Held.at_ (hld t) q)
      else Held.at_ (hld t) q).
    { intros q. unfold Held.at_. simpl. rewrite lookup_insert. by case_decide; subst. }
    split.
    + intros q Hq. cbn [hld set_hld] in *. rewrite Hat.
      destruct (Hin q Hq) as [?|He]; [by left|right]. by case_decide.
    + exists p. split; [done|]. right. cbn [hld set_hld]. by rewrite Hat, decide_True.
  - repeat case_match; simplify_eq; apply (sleep_ok_same _ _ _ _ _ Hok); done.
  - destruct (w_entry w) as [p|] eqn:Hw; [|done].
    set (t1 := set_hld (Held.stopWaitingLocked p (hld t)) t) in *.
    assert (Hok1 : sleep_ok (senderKey sender) (AtWake w e) t1).
    { destruct Hok as [Hin _]. split; [|done]. intros q Hq. cbn [hld set_hld t1].
      unfold Held.stopWaitingLocked. rewrite Held.at_set_held.
      destruct (Hin q Hq) as [?|?]; [by left|right]. by case_decide; subst. }
    pose proof (inflight_hld (in_now i) (senderKey sender) t1) as Hh.
    destruct (inflightLocked _ _ _ _) as [m t2].
    case_match; simplify_eq; apply (sleep_ok_same _ _ _ _ _ Hok1); done.
  - destruct (w_entry w) as [p|] eqn:Hw; [|done]. simplify_eq. destruct Hok as [Hin _].
    split; [|done]. intros q Hq. cbn [hld set_hld].
    unfold Held.stopWaitingLocked. rewrite Held.at_set_held.
    destruct (Hin q Hq) as [?|?]; [by left|right]. by case_decide; subst.
  - destruct (w_entry w); simplify_eq; by split.
  - done.
Qed.

Lemma await_step_spares ctx started sender n i pc pc' t t' log q :
  await_step c ctx started sender n i pc t = Some (pc', t', log) →
  tracker_wf t → await_entry pc ≠ Some q → is_Some (Held.helds (hld t) !! q) → spares q t t'.
Proof.
  intros Hs [_ Hwf] Hne Hq.
  destruct pc as [w|w r|w e rem|w e rem|w e wk un|w e|w e|w reason e ret|]; simpl in Hs, Hne.
  - pose proof (expected_hld (in_now i) (in_node i) sender t) as Hh.
    destruct (expectedNonce _ _ _ _ _). simplify_eq. by apply spares_same.
  - unfold hold_once in Hs.
    assert (Hold : spares q t (hold (senderKey sender) n t).2).
    { destruct Hq as [x Hx]. apply (leaves_hold q (senderKey sender) n (hld t)).
      by apply (Held.wf_ptr _ Hwf q x). }
    destruct (hold (senderKey sender) n t) as [p1 t1].
    repeat case_match; simplify_eq; done || by apply spares_same.
  - destruct (w_entry w) as [p|]; [|done].
    pose proof (surplus_hld (in_now i) (senderKey sender) p t) as Hh.
    destruct (surplusHeld _ _ _ _ _) as [[m b] t1]. destruct b; simplify_eq; by apply spares_same.
  - destruct (w_entry w) as [p|]; [|done]. injection Hs as <- <- <-.
    apply leaves_sleep. congruence.
  - repeat case_match; simplify_eq; by apply spares_same.
  - destruct (w_entry w) as [p|]; [|done].
    set (t1 := set_hld (Held.stopWaitingLocked p (hld t)) t) in *.
    assert (Hsp : spares q t t1) by (apply leaves_other; congruence).
    pose proof (inflight_hld (in_now i) (senderKey sender) t1) as Hh.
    destruct (inflightLocked _ _ _ _) as [m t2]. cbn [snd] in Hh.
    case_match; simplify_eq; by rewrite Hh.
  - destruct (w_entry w) as [p|]; [|done]. simplify_eq. apply leaves_other. congruence.
  - destruct (w_entry w) as [p|]; simplify_eq; [|by apply spares_same].
    apply leaves_unhold; [done|congruence].
  - done.
Qed.

Lemma await_step_entry ctx started sender n i pc pc' t t' log :
  await_step c ctx started sender n i pc t = Some (pc', t', log) →
  await_entry pc' = None ∨ await_entry pc' = await_entry pc ∨
  await_entry pc' = Some (Held.fresh (hld t)).
Proof.
  destruct pc as [w|w r|w e rem|w e rem|w e wk un|w e|w e|w reason e ret|]; simpl;
    unfold hold_once, hold; simpl; intros Hs;
    repeat (case_match; simplify_eq/=); simplify_eq/=; rewrite ?renew_entry; auto.
Qed.

(** A step of a send leaves the entries of the others alone, and keeps its own
    in order. *)
Lemma send_step_spares g ctx prepared i pc pc' w w' log q :
  send_step c g ctx prepared i pc w = Some (pc', w', log) →
  tracker_wf (tracker_of w) → entry_of pc ≠ Some q →
  is_Some (Held.helds (hld (tracker_of w)) !! q) → spares q (tracker_of w) (tracker_of w').
Proof.
  intros Hs Hwf Hne Hq.
  destruct pc as [|started pc| |p|p|p r|p|p|p|p tx|p tx|p tx ch pend|p r|p e|p r|p r|r];
    cbn [send_step] in Hs.
  2: { destruct pc as [| | | | | | | |[e|]];
         try (simplify_eq; by apply spares_same);
         (destruct (await_step _ _ _ _ _ _ _ _) as [[[pc1 t1] log1]|] eqn:Ha; [|done]);
         simplify_eq; by eapply await_step_spares. }
  - pose proof (spares_door q (in_now (si_await i)) (senderKey (SenderKey prepared)) (Nonce prepared)
      _ Hwf) as Hd.
    destruct (makeRoomFor _ _ _ _ _) as [[m b] t1]. destruct b; simpl in Hs; by simplify_eq.
  - destruct (enter _ _). simplify_eq. by apply spares_same.
  - destruct (acquire _ _ _); [|done]. simplify_eq. by apply spares_same.
  - pose proof (expected_hld (in_now (si_await i)) (in_node (si_await i)) (SenderKey prepared)
      (tracker_of w)) as Hh.
    destruct (expectedNonce _ _ _ _ _). simplify_eq. by apply spares_same.
  - destruct r; [|simplify_eq; by apply spares_same]. case_bool_decide.
    + pose proof (pending_hld (in_now (si_await i)) (SenderKey prepared) (tracker_of w)) as Hh.
      destruct (pendingOf _ _ _ _). simplify_eq. by apply spares_same.
    + simplify_eq. by apply spares_same.
  - destruct (sh_relay w); simplify_eq. by apply spares_same.
  - destruct (VerifyGasLimit _ _ _ _) as [[[[]|]|] gas]; simplify_eq; by apply spares_same.
  - destruct (broadcast _ _ _) as [[]|]; simplify_eq; by apply spares_same.
  - simplify_eq. by apply spares_same.
  - pose proof (reserve_hld (in_now (si_await i)) (senderKey (SenderKey prepared)) (Nonce prepared)
      true (tracker_of w)) as Hh.
    destruct (reserveLocked _ _ _ _ _ _) as [ch t1]. cbn [snd] in Hh. simplify_eq.
    change (spares q (tracker_of w)
      (set_hld (Held.notifyTurnLocked (senderKey (SenderKey prepared)) (hld t1)) t1)).
    cbn [hld set_hld]. rewrite Hh. apply leaves_notify.
  - simplify_eq. by apply spares_same.
  - simplify_eq. by apply spares_same.
  - simplify_eq. apply leaves_notify.
  - simplify_eq. by apply spares_same.
  - simplify_eq. by apply spares_same.
  - done.
Qed.

Lemma send_step_sleep g ctx prepared i pc pc' w w' log :
  send_step c g ctx prepared i pc w = Some (pc', w', log) →
  tracker_wf (tracker_of w) → turn_sleep (senderKey (SenderKey prepared)) pc (tracker_of w) →
  turn_sleep (senderKey (SenderKey prepared)) pc' (tracker_of w') ∧
  (entry_of pc' = None ∨ entry_of pc' = entry_of pc ∨
   entry_of pc' = Some (Held.fresh (hld (tracker_of w)))).
Proof.
  intros Hs Hwf Hok.
  destruct pc as [|started pc| | | | | | | | | | | | | | |]; cbn [send_step] in Hs;
    try (repeat (case_match; simplify_eq/=); simplify_eq/=; by auto).
  - destruct (makeRoomFor _ _ _ _ _) as [[m b] t1]. destruct b; simpl in Hs; simplify_eq/=; [|by auto].
    split; [by split|by left].
  - destruct pc as [| | | | | | | |[e|]]; try (simplify_eq/=; by auto);
      (destruct (await_step _ _ _ _ _ _ _ _) as [[[pc1 t1] log1]|] eqn:Ha; [|done]);
      simplify_eq; (split; [by eapply await_step_sleep|by eapply await_step_entry]).
Qed.

(** ** Along the run of the service *)

Record awake_inv (w : world) : Prop := {
  ai_own : ∀ g g' x y p, w_gs w !! g = Some x → w_gs w !! g' = Some y →
    entry_of (g_pc x) = Some p → entry_of (g_pc y) = Some p → g = g';
  ai_sleep : ∀ g x, w_gs w !! g = Some x →
    turn_sleep (g_key x) (g_pc x) (tracker_of (w_shared w));
}.

(** The entry of a goroutine is in the memory of the register. *)
Lemma entry_live w g x p :
  winv w → w_gs w !! g = Some x → entry_of (g_pc x) = Some p →
  is_Some (Held.helds (hld (tracker_of (w_shared w))) !! p).
Proof.
  intros Hw Hg He. pose proof (wi_turn _ Hw g x Hg) as Ht.
  destruct (g_pc x); try done. by apply Ht.
Qed.

(** What a step does to the entries of the goroutines that do not take it. *)
Lemma run_spares g x i pc sh log w h y q :
  winv w → awake_inv w → w_gs w !! g = Some x → w_gs w !! h = Some y → h ≠ g →
  send_step c g (g_ctx x) (g_prepared x) i (g_pc x) (w_shared w) = Some (pc, sh, log) →
  entry_of (g_pc y) = Some q → spares q (tracker_of (w_shared w)) (tracker_of sh).
Proof.
  intros Hw Hi Hg Hh Hne Hs Hq. eapply send_step_spares; [exact Hs|apply Hw| |by eapply entry_live].
  intros Hx. apply Hne. by eapply ai_own.
Qed.

Lemma awake_inv_step w w' : world_step c w w' → winv w → awake_inv w → awake_inv w'.
Proof.
  intros Hstep Hw Hi. pose proof Hi as [Hown Hsl].
  destruct Hstep as [g ctx prepared w Hg Hn|g x i pc sh log w Hg Hs|t m q gas w Hel].
  - constructor; cbn [w_gs w_shared].
    + intros h h' y z p Hy Hz. rewrite !lookup_insert in Hy, Hz.
      repeat case_decide; simplify_eq/=; try done. by apply (Hown h h' y z).
    + intros h y. rewrite lookup_insert. case_decide; [by intros [= <-]|apply Hsl].
  - destruct (send_step_sleep _ _ _ _ _ _ _ _ _ Hs) as [Hok Hent]; [apply Hw|by apply (Hsl g x)|].
    constructor; cbn [w_gs w_shared].
    + assert (Hnew : ∀ h y p, h ≠ g → w_gs w !! h = Some y → entry_of pc = Some p →
        entry_of (g_pc y) = Some p → False).
      { intros h y p Hne Hy Hp Hyp. destruct Hent as [He|[He|He]]; rewrite Hp in He; [done|..].
        - apply Hne. by apply (Hown h g y x p).
        - injection He as ->. destruct (entry_live w h y _ Hw Hy Hyp) as [z Hz].
          apply (Held.wf_ptr _ (proj2 (wi_tracker _ Hw))) in Hz. lia. }
      intros h h' y z p Hy Hz Hyp Hzp. rewrite !lookup_insert in Hy, Hz.
      destruct (decide (g = h)) as [<-|Hh], (decide (g = h')) as [<-|Hh']; simplify_eq/=; try done.
      * by destruct (Hnew h' z p).
      * by destruct (Hnew h y p).
      * by apply (Hown h h' y z p).
    + intros h y. rewrite lookup_insert. case_decide as Hgh; [by intros [= <-]|]. intros Hy.
      eapply turn_sleep_spared; [by apply (Hsl h)|]. intros q Hq.
      by eapply (run_spares g x i pc sh log w h y).
  - constructor; cbn [w_gs w_shared]; [done|]. intros h y Hy.
    eapply turn_sleep_spared; [by apply (Hsl h)|]. intros p Hp. by apply spares_elsewhere.
Qed.

Lemma awake_reachable w : rtc (world_step c) (world0) w → winv w ∧ awake_inv w.
Proof.
  intros Hr. apply (rtc_preserves (world_step c)
    (λ w, (winv w ∧ lock_inv (lock_view w)) ∧ awake_inv w) world0) in Hr as [[? _] ?];
    [done|..].
  - intros a b Hab [[Ha Hl] Hi]. split; [|by eapply awake_inv_step].
    split; [by eapply world_step_inv|].
    destruct (lock_view_step _ _ _ Hab) as [Hstep| ->]; [by eapply lock_step_inv|done].
  - split; [by apply (world_reachable c)|]. constructor; simpl; intros *; rewrite lookup_empty; done.
Qed.

(** The next nonce of the chain in force of a user. *)
Definition next_of (key : string) (t : Tracker) : option Z :=
  p ← Chains.senders (chs t) !! key; Some (Chains.next (Chains.at_ (chs t) p)).

Lemma next_of_stays key t t' n :
  Chains.stays (chs t) (chs t') → next_of key t' = Some n → next_of key t = Some n.
Proof.
  intros [_ Hs]. unfold next_of. destruct (Chains.senders (chs t') !! key) as [p|] eqn:Hp; [|done].
  destruct (Hs key p Hp) as [-> Hn]. simpl. by rewrite Hn.
Qed.

(** Who sleeps in the register hears the notice of its user. *)
Lemma notified key p ch h :
  Held.wf h → p ∈ Held.held_of h key →
  ch ∈ Held.closed h ∨ Held.wake (Held.at_ h p) = Some ch →
  ch ∈ Held.closed (Held.notifyTurnLocked key h).
Proof.
  intros Hwf Hp Hch. destruct (Held.notifyTurnLocked_spec key h Hwf) as (_ & _ & _ & Hc).
  apply Hc. destruct Hch; eauto.
Qed.

(** The reservation of a send wakes whoever is held for its user; no other step
    gives a chain another next nonce. *)
Lemma advance_notifies key w w' p ch n :
  world_step c w w' → winv w → lock_inv (lock_view w) →
  p ∈ Held.held_of (hld (tracker_of (w_shared w))) key →
  ch ∈ Held.closed (hld (tracker_of (w_shared w))) ∨
    Held.wake (Held.at_ (hld (tracker_of (w_shared w))) p) = Some ch →
  next_of key (tracker_of (w_shared w')) = Some n →
  next_of key (tracker_of (w_shared w)) ≠ Some n →
  ch ∈ Held.closed (hld (tracker_of (w_shared w'))).
Proof.
  intros Hstep Hw Hlock Hp Hch Hn Hne.
  assert (Hno : ∀ t', Chains.stays (chs (tracker_of (w_shared w))) (chs t') →
    next_of key t' = Some n → False) by (intros t' Hst Ht; by eapply Hne, next_of_stays).
  destruct Hstep as [g ctx prepared w Hg Hc|g x i pc sh log w Hg Hs|t m q gas w Hel];
    cbn [w_shared] in *; [done| |].
  2: { destruct (Hno t); [|done]. by apply (elsewhere_calm c _ _ Hel), Hw. }
  assert (Hdec : (∃ l tx, g_pc x = AtNote l tx) ∨ ∀ l tx, g_pc x ≠ AtNote l tx).
  { destruct (g_pc x); (by right) || (left; eauto). }
  destruct Hdec as [(l & tx & Hpc)|Hpc].
  2: { destruct (send_step_effect _ _ _ _ _ _ _ _ _ _ Hs) as [Heff _];
         [apply Hw|by apply (wi_turn _ Hw g)|done|].
       destruct (Hno (tracker_of sh)); [|done]. apply (se_stays _ _ _ _ _ _ Heff). }
  assert (Hexp := wi_expect _ Hw g x (Nonce (g_prepared x)) Hg). rewrite Hpc in Hexp.
  pose proof (note_effect c (in_now (si_await i)) (g_key x) _ _ (wi_tracker _ Hw)
    (wi_nonce _ Hw g x Hg) (Hexp eq_refl)) as Hnote.
  rewrite Hpc in Hs. cbn [send_step] in Hs. fold (g_key x) in Hs.
  pose proof (reserve_hld (in_now (si_await i)) (g_key x) (Nonce (g_prepared x)) true
    (tracker_of (w_shared w))) as Hh.
  destruct (reserveLocked _ _ _ _ _ _) as [chain t1]. cbn [snd] in Hh. cbv zeta in Hnote.
  injection Hs as <- <- <-.
  change (tracker_of (log_sent _ _ _)) with
    (set_hld (Held.notifyTurnLocked (g_key x) (hld t1)) t1) in *.
  cbn [hld set_hld]. rewrite Hh. destruct (decide (g_key x = key)) as [->|Hk].
  { apply (notified _ p); [apply Hw|done..]. }
  exfalso. apply Hne. destruct Hnote as (_ & _ & _ & _ & _ & _ & _ & _ & Hoth).
  unfold next_of in *. cbn [chs set_hld] in *.
  destruct (Chains.senders (chs t1) !! key) as [r|] eqn:Hr; [|done].
  destruct (Hoth key r) as [-> Hnx]; [congruence|done|]. simpl in *. by rewrite <-Hnx.
Qed.

(** (C7) No wake-up passes a sleeper by. In whatever state the service gets to, a metatx
    that sleeps has its channel already closed, or open in its entry, and its
    entry is in the register of its user unless it was evicted before it slept.
    And while it is in the register, it hears: whatever makes the expected nonce of its user
    go on, or evicts it, in that very step; and a result that comes back on the chain in force, or a
    rejection that lets the chain go, as well. *)
Theorem sleepers_hear (w : world) (g : nat) (x : goroutine) (started : Z) (wt : waiting)
    (e : Z) (ch : nat) (until : Z) (Hreach : rtc (world_step c) world0 w)
    (Hx : w_gs w !! g = Some x) (Hpc : g_pc x = AtTurn started (Asleep wt e ch until)) :
  let key := g_key x in
  let t := tracker_of (w_shared w) in
  ∃ p, w_entry wt = Some p ∧
    (ch ∈ Held.closed (hld t) ∨ Held.wake (Held.at_ (hld t) p) = Some ch) ∧
    (p ∈ Held.held_of (hld t) key ∨ Held.evicted (Held.at_ (hld t) p) = true) ∧
    (Held.evicted (Held.at_ (hld t) p) = false →
       (∀ w' n, world_step c w w' → next_of key (tracker_of (w_shared w')) = Some n →
          next_of key t ≠ Some n → ch ∈ Held.closed (hld (tracker_of (w_shared w')))) ∧
       (∀ w', world_step c w w' →
          Held.evicted (Held.at_ (hld (tracker_of (w_shared w'))) p) = true →
          ch ∈ Held.closed (hld (tracker_of (w_shared w')))) ∧
       (∀ now chain, Chains.senders (chs t) !! key = Some chain →
          ch ∈ Held.closed (hld (releaseChain cfg now key (Some chain) t))) ∧
       ch ∈ Held.closed (hld (forgetChain key t))).
Proof.
  destruct (awake_reachable w Hreach) as [Hw Hi]. destruct (world_reachable c w Hreach) as [_ Hlock].
  pose proof (ai_sleep _ Hi g x Hx) as Hok. rewrite Hpc in Hok. destruct Hok as [Hin (p & Hp & Hch)].
  assert (He : entry_of (g_pc x) = Some p) by by rewrite Hpc.
  exists p. specialize (Hin p Hp). split_and!; [done|done|done|]. intros Hev.
  destruct Hin as [Hin|?]; [|congruence].
  assert (Hnote := notified (g_key x) p ch _ (proj2 (wi_tracker _ Hw)) Hin Hch).
  split_and!; [| | |done].
  - intros w' n Hstep. by eapply advance_notifies.
  - intros w' Hstep Hev'.
    assert (Hsp : spares p (tracker_of (w_shared w)) (tracker_of (w_shared w'))).
    { destruct Hstep as [|h y i pc sh log w Hh Hs|]; cbn [w_shared w_gs] in *;
        [apply leaves_refl| |by apply spares_elsewhere].
      destruct (decide (g = h)) as [<-|Hne]; [|by eapply (run_spares h y i pc sh log w g x)].
      assert (y = x) as -> by congruence. rewrite Hpc in Hs. cbn [send_step await_step] in Hs.
      apply spares_same. by repeat case_match; simplify_eq. }
    destruct Hch as [Hch|Hch]; [by apply (lv_closed _ _ _ Hsp)|].
    by apply (lv_told _ _ _ Hsp).
  - intros now chain Hs. unfold releaseChain, Chains.release. rewrite decide_True by done.
    by repeat case_match.
Qed.

End Wakeup.

#[local] Existing Instances sample_unicode sample_geth sample_eth sample_errors.

(** Nonce 5 comes first, reads that 4 is expected and is held; before it sleeps, nonce 4
    comes and is sent. *)
Definition before_sleep : world :=
  run_alone sample_config 4 0 sample_input (arrives 0 sample_ctx next_prepared world0).
Definition opened : world :=
  run_alone sample_config 20 1 sample_input (arrives 1 sample_ctx sample_prepared before_sleep).
Definition overslept : world := run_alone sample_config 1 0 sample_input opened.

Lemma overslept_reached : rtc (world_step sample_config) world0 overslept.
Proof.
  apply (rtc_l _ _ (arrives 0 sample_ctx next_prepared world0)).
  { apply (w_arrive _ 0 sample_ctx next_prepared world0); [done|]. by split. }
  apply (rtc_trans _ before_sleep); [apply run_alone_reaches|].
  apply (rtc_l _ _ (arrives 1 sample_ctx sample_prepared before_sleep)).
  { apply (w_arrive _ 1 sample_ctx sample_prepared before_sleep); [vm_compute; reflexivity|]. by split. }
  apply (rtc_trans _ opened); apply run_alone_reaches.
Qed.

(** The goroutine that sleeps, and the channel it sleeps on. *)
Definition sleeping : goroutine :=
  default {| g_ctx := sample_ctx; g_prepared := next_prepared; g_pc := AtDoor |} (w_gs overslept !! 0%nat).
Definition sleeps_on : option nat :=
  match g_pc sleeping with AtTurn _ (Asleep _ _ ch _) => Some ch | _ => None end.

(** A wake-up given between the reading of the expected nonce and the sleep is lost:
    nonce 4 has been sent and everybody else has finished, nonce 5 is the
    one expected, and its goroutine sleeps on a channel that nobody has closed, until the timer
    of the window, or something else of its user, gets it up. *)
Lemma woken_too_early :
  rtc (world_step sample_config) world0 overslept ∧
  w_gs overslept !! 0%nat = Some sleeping ∧ Nonce (g_prepared sleeping) = 5 ∧
  (∃ ch, sleeps_on = Some ch ∧ ch ∉ Held.closed (hld (tracker_of (w_shared overslept)))) ∧
  (∀ g x, w_gs overslept !! g = Some x → g ≠ 0%nat → finished (g_pc x) = true) ∧
  next_of "0xab" (tracker_of (w_shared overslept)) = Some 5 ∧
  snd <$> sent (w_shared overslept) = [4].
Proof.
  split; [apply overslept_reached|]. split; [vm_compute; reflexivity|].
  split; [vm_compute; reflexivity|].
  split; [exists 1%nat; split; [vm_compute; reflexivity|refine (bool_decide_unpack _ _); vm_compute; exact I]|].
  split; [|split; vm_compute; reflexivity].
  refine (bool_decide_unpack (map_Forall (λ g x, g ≠ 0%nat → finished (g_pc x) = true)
    (w_gs overslept)) _). vm_compute. exact I.
Qed.

Lemma sleepers_hear_witness : ∃ ch, sleeps_on = Some ch ∧
  ch ∈ Held.closed (hld (forgetChain "0xab" (tracker_of (w_shared overslept)))).
Proof.
  destruct (sleepers_hear sample_config overslept 0 sleeping 7
    {| w_entry := Some 0%nat; w_last := Some 4; w_deadline := 3000000007 |} 4 1 3000000007)
    as (p & Hp & _ & _ & Hear).
  - exact overslept_reached.
  - vm_compute. reflexivity.
  - vm_compute. reflexivity.
  - injection Hp as <-. exists 1%nat. split; [vm_compute; reflexivity|].
    destruct Hear as (_ & _ & _ & Hf); [vm_compute; reflexivity|exact Hf].
Defined.
