(* ===== verification/Drain.v ===== *)
(** A line of held metatx drains: [sendReordered] of [service/reorder.go], from the wake-up of
    a metatx whose turn has come to its answer.

    [solo] runs one goroutine with nobody in between, as [run_alone] of [Sending] does;
    [way] is what it needs of the service: the chain of its user in force at its
    nonce, its locks free, and gas left in the block. The lemmas follow the code in
    four stretches, and the theorem puts the runs of a whole line one after the other. *)

From S2P Require Import Prelude GoLib Config Errors Events AuditLog Client Permissioning Tracker Handout MetaTx Reorder UserLock Turn Correlation Gas Service Sending Wakeup.

(** Nobody has the lock of the user. *)
Definition free_lock (key : string) (l : Locks) : Prop :=
  ∀ p, userLocks l !! key = Some p → holder (lock_at l p) = None.

Lemma enter_free key l :
  free_lock key l →
  userLocks (enter key l).2 !! key = Some (enter key l).1 ∧
  holder (lock_at (enter key l).2 (enter key l).1) = None.
Proof.
  intros Hf. unfold enter. destruct (userLocks l !! key) as [p|] eqn:Hp; cbn [fst snd].
  - split; [done|]. rewrite lock_at_set, decide_True by done. by apply Hf.
  - split; [apply lookup_insert_eq|]. rewrite lock_at_set, decide_True by done.
    unfold lock_at. simpl. by rewrite lookup_insert_eq.
Qed.

Lemma leave_frees key p l :
  userLocks l !! key = Some p → free_lock key (leave key p (unlock p l)).
Proof.
  intros Hp q Hq. assert (q = p) as ->.
  { unfold leave in Hq. cbn [userLocks set_lock unlock] in Hq.
    case_match; [by rewrite lookup_delete_eq in Hq|congruence]. }
  unfold leave, lock_at, unlock. simpl. rewrite lookup_insert_eq. simpl.
  unfold lock_at. simpl. by rewrite lookup_insert_eq.
Qed.

Section Drain.
Context `{GoUnicode} `{Geth} `{EthLib} `{PkgErrors} (c : Config) (i : send_input).

Abbreviation cfg := (Some c).
Abbreviation now := (in_now (si_await i)).
Abbreviation node := (in_node (si_await i)).

(** ** One goroutine, with nobody in between *)

Section Solo.
Context (g : nat) (ctx : context) (prepared : PreparedMetaTx).

Fixpoint solo (fuel : nat) (pc : send_pc) (sh : shared) : send_pc * shared :=
  match fuel with
  | O => (pc, sh)
  | S fuel =>
      match send_step c g ctx prepared i pc sh with
      | None => (pc, sh)
      | Some (pc, sh, _) => solo fuel pc sh
      end
  end.

(** From a place to another in so many steps. *)
Definition goes (k : nat) (pc : send_pc) (sh : shared) (pc' : send_pc) (sh' : shared) : Prop :=
  ∀ f, solo (k + f) pc sh = solo f pc' sh'.

Lemma goes_nil pc sh : goes 0 pc sh pc sh.
Proof. by intros f. Qed.

Lemma goes_step k pc sh pc1 sh1 log pc' sh' :
  send_step c g ctx prepared i pc sh = Some (pc1, sh1, log) →
  goes k pc1 sh1 pc' sh' → goes (S k) pc sh pc' sh'.
Proof. intros Hs Hg f. simpl. rewrite Hs. apply Hg. Qed.

Lemma goes_trans k m pc sh pc1 sh1 pc' sh' :
  goes k pc sh pc1 sh1 → goes m pc1 sh1 pc' sh' → goes (k + m) pc sh pc' sh'.
Proof. intros Hab Hbd f. by rewrite <-Nat.add_assoc, Hab, Hbd. Qed.
End Solo.

Lemma run_alone_solo fuel g x w :
  w_gs w !! g = Some x →
  run_alone c fuel g i w =
    let '(pc, sh) := solo g (g_ctx x) (g_prepared x) fuel (g_pc x) (w_shared w) in
    {| w_shared := sh; w_gs := <[g := at_pc pc x]> (w_gs w) |}.
Proof.
  revert w x. induction fuel as [|fuel IH]; intros w x Hg; simpl.
  - rewrite insert_id; [by destruct w|]. by destruct x.
  - rewrite Hg. destruct (send_step _ _ _ _ _ _ _) as [[[pc sh] log]|] eqn:Hs.
    + rewrite (IH _ (at_pc pc x)) by apply lookup_insert_eq. simpl.
      destruct (solo _ _ _ _ _ _). by rewrite insert_insert_eq.
    + rewrite insert_id; [by destruct w|]. by destruct x.
Qed.

(** ** What a metatx needs when its turn comes *)

Record way (key : string) (n gas : Z) (h : Held.t) (ns : list Z) (sh : shared) : Prop := {
  wy_wf : tracker_wf (tracker_of sh);
  wy_held : hld (tracker_of sh) = h;
  wy_next : ∃ pend upd, Chains.view (chs (tracker_of sh)) key = Some (n, pend, upd) ∧
    (Chains.nonceCacheTTL cfg <? now - upd) = false;
  wy_gas : sv_gas (sh_service sh) = gas;
  wy_sent : snd <$> sent sh = ns;
}.

(** A change of the register alone. *)
Lemma way_register key n gas h h' ns t sh :
  way key n gas h ns sh → Held.wf h' → chs t = chs (tracker_of sh) → hld t = h' →
  way key n gas h' ns (set_tracker t sh).
Proof.
  intros [Hwf Hh Hn Hg Hs] Hwf' Hc Ht.
  constructor; change (tracker_of (set_tracker t sh)) with t; try done.
  - split; [rewrite Hc; apply Hwf|by rewrite Ht].
  - by rewrite Hc.
Qed.

(** Reading a chain that counts changes nothing. *)
Lemma chainLocked_alive key n pend upd s :
  Chains.view s key = Some (n, pend, upd) → (Chains.nonceCacheTTL cfg <? now - upd) = false →
  ∃ p, Chains.chainLocked cfg now key s = (Some p, s) ∧ Chains.next (Chains.at_ s p) = n.
Proof.
  unfold Chains.view, Chains.chainLocked. destruct (Chains.senders s !! key) as [p|]; [|done].
  simpl. intros [= <- <- <-] ->. by exists p.
Qed.

Lemma way_expected key n gas h ns sh from :
  way key n gas h ns sh → senderKey from = key →
  expectedNonce c now node from (tracker_of sh) = (Ok n, tracker_of sh).
Proof.
  intros [_ _ (pend & upd & Hv & Hold) _ _] <-.
  destruct (chainLocked_alive _ _ _ _ _ Hv Hold) as (p & Hc & Hn).
  unfold expectedNonce, cachedNonce, Chains.cachedNonce. rewrite Hc, Hn.
  by destruct (tracker_of sh).
Qed.

Lemma way_inflight key n gas h ns sh :
  way key n gas h ns sh → (inflightLocked cfg now key (tracker_of sh)).2 = tracker_of sh.
Proof.
  intros [_ _ (pend & upd & Hv & Hold) _ _].
  destruct (chainLocked_alive _ _ _ _ _ Hv Hold) as (p & Hc & _).
  unfold inflightLocked. rewrite Hc. by destruct (tracker_of sh).
Qed.

(** ** The four stretches *)

Section Stretches.
Context (g : nat) (ctx : context) (prepared : PreparedMetaTx).
Abbreviation key := (senderKey (SenderKey prepared)).
Abbreviation runs := (goes g ctx prepared).

(** From the sleep to the end of the wait: its entry leaves the register. *)
Lemma wakes started wt e ch until p gas h ns sh :
  in_fired (si_await i) = Woken → w_entry wt = Some p →
  ch ∈ Held.closed h → p ∈ Held.held_of h key →
  way key (Nonce prepared) gas h ns sh →
  ∃ sh', runs 6 (AtTurn started (Asleep wt e ch until)) sh AtLockUser sh' ∧
    way key (Nonce prepared) gas (Held.unholdLocked key p (Held.stopWaitingLocked p h)) ns sh' ∧
    sh_locks sh' = sh_locks sh ∧ sh_relay sh' = sh_relay sh.
Proof.
  intros Hf Hp Hch Hin Hway. pose proof Hway as [[_ Hwf] Hh _ _ _]. subst h.
  set (t := tracker_of sh) in *.
  destruct (Held.held_of_live _ _ _ Hwf Hin) as (x & Hx & Hev).
  assert (Hwf1 : Held.wf (Held.stopWaitingLocked p (hld t))) by (apply Held.stopWaitingLocked_wf; eauto).
  set (t1 := set_hld (Held.stopWaitingLocked p (hld t)) t).
  assert (Hev1 : Held.evicted (Held.at_ (hld t1) p) = false).
  { cbn [hld set_hld t1]. unfold Held.stopWaitingLocked. rewrite Held.at_set_held, decide_True by done.
    simpl. by rewrite (Held.held_at_lookup _ _ _ Hx). }
  assert (Hw1 : way key (Nonce prepared) gas (hld t1) ns (set_tracker t1 sh)).
  { by eapply way_register. }
  pose proof (way_inflight _ _ _ _ _ _ Hw1) as Hi1. change (tracker_of (set_tracker t1 sh)) with t1 in Hi1.
  pose proof (way_expected _ _ _ _ _ _ (SenderKey prepared) Hw1 eq_refl) as He1.
  change (tracker_of (set_tracker t1 sh)) with t1 in He1.
  exists (set_tracker (unhold key p t1) (set_tracker t1 (set_tracker t1 (set_tracker t1 (set_tracker t sh))))).
  split; [|split; [|done]].
  - eapply goes_step; [cbn [send_step await_step]; rewrite Hf, decide_True by done; reflexivity|].
    eapply goes_step.
    { cbn [send_step await_step]. rewrite Hp. fold t1.
      change (tracker_of (set_tracker (tracker_of sh) sh)) with t. fold t1.
      destruct (inflightLocked cfg now key t1) as [m t2]. cbn [snd] in Hi1. subst t2.
      rewrite Hev1. reflexivity. }
    eapply goes_step.
    { cbn [send_step await_step]. change (tracker_of (set_tracker t1 _)) with t1. rewrite He1. reflexivity. }
    eapply goes_step; [cbn [send_step await_step]; rewrite Z.leb_refl; reflexivity|].
    eapply goes_step; [cbn [send_step await_step]; rewrite Hp; reflexivity|].
    eapply goes_step; [reflexivity|]. apply goes_nil.
  - eapply (way_register _ _ _ (hld t1)); [|by apply Held.unholdLocked_wf|done|done].
    assert (Hkeep : ∀ h0 sh0, way key (Nonce prepared) gas h0 ns sh0 → chs (tracker_of sh0) = chs t →
      way key (Nonce prepared) gas (hld t1) ns (set_tracker t1 sh0)).
    { intros h0 sh0 Hw0 Hc0. by eapply way_register. }
    assert (Hw0 : way key (Nonce prepared) gas (hld t) ns (set_tracker t sh)) by by eapply way_register.
    assert (Hw2 := Hkeep _ _ Hw0 eq_refl). assert (Hw3 := Hkeep _ _ Hw2 eq_refl).
    exact (Hkeep _ _ Hw3 eq_refl).
Qed.

(** The locks, the check of the nonce, and the global lock. *)
Lemma enters gas h ns sh :
  free_lock key (sh_locks sh) → sh_relay sh = None → way key (Nonce prepared) gas h ns sh →
  ∃ p sh', runs 5 AtLockUser sh (AtQuota p) sh' ∧ way key (Nonce prepared) gas h ns sh' ∧
    userLocks (sh_locks sh') !! key = Some p.
Proof.
  intros Hfree Hrelay Hway. destruct (enter_free key (sh_locks sh) Hfree) as [Hin Hno].
  destruct (enter key (sh_locks sh)) as [p l] eqn:Hent. cbn [fst snd] in Hin, Hno.
  set (l' := set_lock p {| holder := Some g; users := users (lock_at l p) |} l).
  pose proof (way_expected _ _ _ _ _ _ (SenderKey prepared) Hway eq_refl) as He.
  exists p, (with_relay (Some g) (set_tracker (tracker_of sh) (with_locks l' (with_locks l sh)))).
  split; [|split; [by destruct Hway|done]].
  eapply goes_step; [cbn [send_step]; rewrite Hent; reflexivity|].
  eapply goes_step; [cbn [send_step]; unfold acquire; cbn [sh_locks with_locks]; rewrite Hno; reflexivity|].
  eapply goes_step.
  { cbn [send_step]. change (tracker_of (with_locks _ (with_locks l sh))) with (tracker_of sh).
    rewrite He. reflexivity. }
  eapply goes_step.
  { cbn [send_step]. rewrite bool_decide_eq_false_2 by tauto. reflexivity. }
  eapply goes_step.
  { cbn [send_step]. change (sh_relay (set_tracker _ _)) with (sh_relay sh). rewrite Hrelay. reflexivity. }
  apply goes_nil.
Qed.

(** Under the global lock: the chain goes one further, and the line is woken. *)
Lemma sends p tx limit gas h ns sh :
  answers_limit c (si_quota i) limit → 0 ≤ limit < 2 ^ 64 → 0 ≤ gas → 0 ≤ MetaTxGasLimit prepared →
  gas + MetaTxGasLimit prepared ≤ limit →
  broadcast c node prepared = Returns (Ok tx) → 0 ≤ Nonce prepared < max_u64 →
  0 ≤ Chains.nonceCacheTTL cfg →
  way key (Nonce prepared) gas h ns sh →
  ∃ sh', runs 5 (AtQuota p) sh (AtRelayUnlock p (Returns (Ok (tx_Hash tx)))) sh' ∧
    way key (Nonce prepared + 1) (gas + MetaTxGasLimit prepared) (Held.notifyTurnLocked key h)
      (ns ++ [Nonce prepared]) sh' ∧
    sh_locks sh' = sh_locks sh.
Proof.
  intros Hlim Hl Hg Hm Hle Hb Hc Httl [[Hwfc Hwfh] Hh (pend & upd & Hv & Hold) Hgas Hs].
  pose proof (VerifyGasLimit_answered c _ _ (MetaTxGasLimit prepared) gas Hlim) as Hver.
  unfold increment in Hver. rewrite !u64_small in Hver by lia.
  rewrite (proj2 (Z.leb_le _ _) Hle) in Hver.
  pose proof (Chains.reserveLocked_spec cfg now key (Nonce prepared) true (chs (tracker_of sh)) Hwfc) as Hres.
  destruct (Chains.reserveLocked cfg now key (Nonce prepared) true (chs (tracker_of sh)))
    as [chain ch] eqn:Hr. cbv zeta in Hres. destruct Hres as (Hwfc' & _ & Hview).
  specialize (Hview key). rewrite decide_True, Hv in Hview by done.
  unfold Chains.alive in Hview. rewrite Hold in Hview. cbn [Chains.advance Chains.in_flight] in Hview.
  unfold max_u64 in Hc. rewrite u64_small, Z.max_r in Hview by lia.
  eexists. split; [|split].
  - eapply goes_step; [cbn [send_step]; rewrite Hgas, Hver; reflexivity|].
    eapply goes_step; [cbn [send_step]; rewrite Hb; reflexivity|].
    eapply goes_step; [reflexivity|].
    eapply goes_step.
    { cbn [send_step]. unfold reserveLocked.
      change (tracker_of (with_service _ _)) with (tracker_of sh). rewrite Hr. reflexivity. }
    eapply goes_step; [reflexivity|]. apply goes_nil.
  - constructor; cbn -[Chains.nonceCacheTTL].
    + split; [done|]. rewrite Hh in *. by apply Held.notifyTurnLocked_spec.
    + by rewrite Hh.
    + exists (pend + 1), now. split; [done|]. apply Z.ltb_ge. lia.
    + done.
    + rewrite fmap_app. by rewrite Hs.
  - done.
Qed.

(** The locks back, and the answer. *)
Lemma answers p r n gas h ns sh :
  userLocks (sh_locks sh) !! key = Some p → (∀ e, r ≠ Returns (Err e)) →
  way key n gas h ns sh →
  ∃ sh', runs 3 (AtRelayUnlock p r) sh (Finished r) sh' ∧ way key n gas h ns sh' ∧
    free_lock key (sh_locks sh') ∧ sh_relay sh' = None.
Proof.
  intros Hp Hr Hway. eexists. split; [|split; [|split]].
  - eapply goes_step.
    { cbn [send_step]. replace (match r with Returns (Err e) => AtForget p e | r => AtUnlock p r end)
        with (AtUnlock p r) by (destruct r as [[h'|e]|why]; [done|by destruct (Hr e)|done]). reflexivity. }
    eapply goes_step; [reflexivity|]. eapply goes_step; [reflexivity|]. apply goes_nil.
  - by destruct Hway.
  - by apply leave_frees.
  - done.
Qed.
End Stretches.

(** ** The line *)

(** A metatx of the user, asleep, with its entry in the register. *)
Definition asleep_at (key : string) (h : Held.t) (x : goroutine) (p : nat) : Prop :=
  g_key x = key ∧ ∃ started wt e ch until, g_pc x = AtTurn started (Asleep wt e ch until) ∧
    w_entry wt = Some p ∧ p ∈ Held.held_of h key ∧
    (ch ∈ Held.closed h ∨ Held.wake (Held.at_ h p) = Some ch).

Definition woken (h : Held.t) (x : goroutine) : Prop :=
  ∀ started wt e ch until, g_pc x = AtTurn started (Asleep wt e ch until) → ch ∈ Held.closed h.

(** The register once one of the line has gone. *)
Definition gone (key : string) (p : nat) (h : Held.t) : Held.t :=
  Held.notifyTurnLocked key (Held.unholdLocked key p (Held.stopWaitingLocked p h)).

Lemma gone_wakes key h x p q :
  Held.wf h → is_Some (Held.helds h !! p) → p ≠ q → asleep_at key h x q →
  asleep_at key (gone key p h) x q ∧ woken (gone key p h) x.
Proof.
  intros Hwf Hp Hne (Hk & started & wt & e & ch & until & Hpc & Hq & Hin & Hch).
  set (h1 := Held.unholdLocked key p (Held.stopWaitingLocked p h)).
  assert (Hwf0 : Held.wf (Held.stopWaitingLocked p h)) by by apply Held.stopWaitingLocked_wf.
  assert (Hwf1 : Held.wf h1) by by apply Held.unholdLocked_wf.
  assert (Hin1 : q ∈ Held.held_of h1 key).
  { unfold h1. rewrite Held.held_of_unhold, decide_True by done.
    rewrite Held.elem_of_remove_first by by apply Held.held_of_NoDup. done. }
  assert (Hat1 : Held.at_ h1 q = Held.at_ h q).
  { change (Held.at_ h1 q) with (Held.at_ (Held.stopWaitingLocked p h) q).
    unfold Held.stopWaitingLocked. by rewrite Held.at_set_held, decide_False. }
  assert (Hcl : ch ∈ Held.closed (gone key p h)).
  { apply (notified key q); [done|done|]. rewrite <-Hat1 in Hch. exact Hch. }
  split.
  - split; [done|]. exists started, wt, e, ch, until. split_and!; try done; [|by left].
    unfold gone. destruct (Held.notifyTurnLocked_spec key h1 Hwf1) as (_ & Hh & _).
    unfold Held.held_of in *. fold h1. by rewrite Hh.
  - intros st' wt' e' ch' un' Hpc'. congruence.
Qed.

(** A metatx whose turn has come, woken and left alone, is sent. *)
Lemma turn_comes g x p tx limit gas h ns sh (key := g_key x) (n := Nonce (g_prepared x)) :
  in_fired (si_await i) = Woken → 0 ≤ Chains.nonceCacheTTL cfg →
  answers_limit c (si_quota i) limit → 0 ≤ limit < 2 ^ 64 → 0 ≤ gas →
  0 ≤ MetaTxGasLimit (g_prepared x) → gas + MetaTxGasLimit (g_prepared x) ≤ limit →
  broadcast c node (g_prepared x) = Returns (Ok tx) → 0 ≤ Nonce (g_prepared x) < max_u64 →
  asleep_at key h x p → woken h x → way key n gas h ns sh →
  free_lock key (sh_locks sh) → sh_relay sh = None →
  ∃ sh', solo g (g_ctx x) (g_prepared x) 19 (g_pc x) sh =
      (Finished (Returns (Ok (tx_Hash tx))), sh') ∧
    way key (n + 1) (gas + MetaTxGasLimit (g_prepared x)) (gone key p h) (ns ++ [n]) sh' ∧
    free_lock key (sh_locks sh') ∧ sh_relay sh' = None.
Proof.
  intros Hf Httl Hlim Hl Hg Hm Hle Hb Hc (_ & started & wt & e & ch & until & Hpc & Hp & Hin & _)
    Hwk Hway Hfree Hrelay.
  specialize (Hwk _ _ _ _ _ Hpc). rewrite Hpc. clear Hpc.
  destruct (wakes g (g_ctx x) (g_prepared x) started wt e ch until p gas h ns sh Hf Hp Hwk Hin Hway)
    as (sh1 & Hgo1 & Hway1 & Hl1 & Hr1).
  rewrite <-Hl1 in Hfree. rewrite <-Hr1 in Hrelay.
  destruct (enters g (g_ctx x) (g_prepared x) _ _ _ sh1 Hfree Hrelay Hway1)
    as (q & sh2 & Hgo2 & Hway2 & Hq).
  destruct (sends g (g_ctx x) (g_prepared x) q tx limit _ _ _ sh2 Hlim Hl Hg Hm Hle Hb Hc Httl Hway2)
    as (sh3 & Hgo3 & Hway3 & Hl3).
  rewrite <-Hl3 in Hq.
  destruct (answers g (g_ctx x) (g_prepared x) q (Returns (Ok (tx_Hash tx))) _ _ _ _ sh3 Hq
    ltac:(done) Hway3) as (sh4 & Hgo4 & Hway4 & Hfree4 & Hr4).
  exists sh4. split; [|done].
  pose proof (goes_trans _ _ _ _ _ _ _ _ _ _ _ Hgo1
    (goes_trans _ _ _ _ _ _ _ _ _ _ _ Hgo2 (goes_trans _ _ _ _ _ _ _ _ _ _ _ Hgo3 Hgo4))) as Hgo.
  exact (Hgo 0%nat).
Qed.

(** The goroutines of a line, one after the other. *)
Definition drain (gs : list nat) (w : world) : world :=
  foldl (λ w g, run_alone c 19 g i w) w gs.

Lemma drain_reaches gs w : rtc (world_step c) w (drain gs w).
Proof.
  revert w. induction gs as [|g gs IH]; intros w; unfold drain; cbn [foldl]; [done|].
  eapply rtc_trans; [apply (run_alone_reaches c 19 g i w)|apply IH].
Qed.

Definition gas_of (line : list (nat * goroutine)) : list Z := MetaTxGasLimit ∘ g_prepared ∘ snd <$> line.

Section Line.
Context (limit : Z).
Context (Hf : in_fired (si_await i) = Woken) (Httl : 0 ≤ Chains.nonceCacheTTL cfg).
Context (Hlim : answers_limit c (si_quota i) limit) (Hl : 0 ≤ limit < 2 ^ 64).

(** One of the line, where it is in it. *)
Record in_line (key : string) (n : Z) (h : Held.t) (w : world) (j : nat) (g : nat) (x : goroutine) : Prop := {
  il_is : w_gs w !! g = Some x;
  il_nonce : Nonce (g_prepared x) = n + Z.of_nat j;
  il_counts : 0 ≤ Nonce (g_prepared x) < max_u64;
  il_asleep : ∃ p, asleep_at key h x p;
  il_head : j = 0%nat → woken h x;
  il_gas : 0 ≤ MetaTxGasLimit (g_prepared x);
  il_node : ∃ tx, broadcast c node (g_prepared x) = Returns (Ok tx);
}.

Lemma asleep_entry key h x p : asleep_at key h x p → entry_of (g_pc x) = Some p.
Proof. intros (_ & st & wt & e & ch & un & Hpc & Hp & _). by rewrite Hpc. Qed.

(** The head goes, and the rest of the line is where it was, awake. *)
Lemma head_goes key n gas h ns w g x line :
  way key n gas h ns (w_shared w) → free_lock key (sh_locks (w_shared w)) →
  sh_relay (w_shared w) = None → 0 ≤ gas → gas + total (gas_of ((g, x) :: line)) ≤ limit →
  (∀ j g' y, ((g, x) :: line) !! j = Some (g', y) → in_line key n h w j g' y) →
  (∀ j k g1 g2 y z, ((g, x) :: line) !! j = Some (g1, y) → ((g, x) :: line) !! k = Some (g2, z) →
     entry_of (g_pc y) = entry_of (g_pc z) → j = k) →
  let w' := run_alone c 19 g i w in
  (∃ hash, w_gs w' = <[g := at_pc (Finished (Returns (Ok hash))) x]> (w_gs w)) ∧
  ∃ h', way key (n + 1) (gas + MetaTxGasLimit (g_prepared x)) h' (ns ++ [n]) (w_shared w') ∧
    free_lock key (sh_locks (w_shared w')) ∧ sh_relay (w_shared w') = None ∧
    ∀ j g' y, line !! j = Some (g', y) → in_line key (n + 1) h' w' j g' y ∧ woken h' y.
Proof.
  intros Hway Hfree Hrelay Hg Hle Hline Hent.
  destruct (Hline 0%nat g x eq_refl) as [Hx Hn Hc [p Hp] Hwk Hgas [tx Htx]].
  assert (Hrest : 0 ≤ total (gas_of line)).
  { apply total_nonneg, Forall_forall. intros m Hm. apply list_elem_of_fmap in Hm as ([g' y] & -> & Hy).
    apply list_elem_of_lookup in Hy as [j Hj]. by apply (Hline (S j) g' y). }
  change (total (gas_of ((g, x) :: line))) with (MetaTxGasLimit (g_prepared x) + total (gas_of line)) in Hle.
  assert (key = g_key x) as -> by (symmetry; apply Hp).
  assert (n = Nonce (g_prepared x)) as -> by lia.
  destruct (turn_comes g x p tx limit gas h ns (w_shared w)) as (sh & Hsolo & Hway' & Hfree' & Hrelay');
    auto; [lia|].
  cbv zeta. rewrite (run_alone_solo 19 g x w Hx), Hsolo. cbn [w_gs w_shared].
  split; [by eexists|]. exists (gone (g_key x) p h). split_and!; [done..|].
  intros j g' y Hj. destruct (Hline (S j) g' y Hj) as [Hy Hyn Hyc [q Hq] _ Hyg Hytx].
  assert (Hpq : p ≠ q).
  { intros <-. enough (0 = S j)%nat by done. apply (Hent 0%nat (S j) g g' x y); [done..|].
    by rewrite (asleep_entry _ _ _ _ Hp), (asleep_entry _ _ _ _ Hq). }
  assert (Hgg : g ≠ g') by (intros <-; simplify_eq; lia).
  destruct Hway as [[_ Hwf] Hh _ _ _]. rewrite Hh in Hwf.
  destruct (gone_wakes (g_key x) h y p q Hwf) as [Hq' Hwk']; [|done|done|].
  { destruct Hp as (_ & st & wt & e & ch & un & _ & _ & Hin & _).
    destruct (Held.held_of_live _ _ _ Hwf Hin) as (z & Hz & _). by exists z. }
  split; [|done]. constructor; eauto; cbn [w_gs]; [by rewrite lookup_insert_ne|lia].
Qed.

Definition one_entry_each (line : list (nat * goroutine)) : Prop :=
  ∀ j k g1 g2 y z, line !! j = Some (g1, y) → line !! k = Some (g2, z) →
    entry_of (g_pc y) = entry_of (g_pc z) → j = k.

Definition sent_with_hash (w : world) (g : nat) : Prop :=
  ∃ x hash, w_gs w !! g = Some x ∧ g_pc x = Finished (Returns (Ok hash)).

(** A goroutine that is not in the line does not move. *)
Lemma drain_others gs g w : g ∉ gs → w_gs (drain gs w) !! g = w_gs w !! g.
Proof.
  revert w. induction gs as [|g' gs IH]; intros w Hg; unfold drain; cbn [foldl]; [done|].
  fold (drain gs (run_alone c 19 g' i w)). rewrite not_elem_of_cons in Hg. destruct Hg as [Hne Hg].
  rewrite IH by done. destruct (w_gs w !! g') as [x|] eqn:Hx.
  - rewrite (run_alone_solo 19 g' x w Hx). destruct (solo _ _ _ _ _ _) as [pc sh]. cbn [w_gs].
    by rewrite lookup_insert_ne.
  - cbn [run_alone]. by rewrite Hx.
Qed.

Lemma line_goes line : ∀ key n gas h ns w,
  way key n gas h ns (w_shared w) → free_lock key (sh_locks (w_shared w)) →
  sh_relay (w_shared w) = None → 0 ≤ gas → gas + total (gas_of line) ≤ limit →
  (∀ j g x, line !! j = Some (g, x) → in_line key n h w j g x) →
  one_entry_each line → NoDup line.*1 →
  let w' := drain line.*1 w in
  Forall (sent_with_hash w') line.*1 ∧
  ∃ h', way key (n + Z.of_nat (length line)) (gas + total (gas_of line)) h'
      (ns ++ seqZ n (Z.of_nat (length line))) (w_shared w') ∧
    free_lock key (sh_locks (w_shared w')) ∧ sh_relay (w_shared w') = None.
Proof.
  induction line as [|[g x] line IH]; intros key n gas h ns w Hway Hfree Hrelay Hg Hle Hline Hent Hnd;
    cbv zeta.
  { split; [constructor|]. exists h. simpl. rewrite Z.add_0_r, Z.add_0_r, app_nil_r. done. }
  pose proof (head_goes key n gas h ns w g x line Hway Hfree Hrelay Hg Hle Hline Hent)
    as ((hash & Hgs) & h1 & Hway1 & Hfree1 & Hrelay1 & Hline1).
  assert (Hgx : 0 ≤ MetaTxGasLimit (g_prepared x)) by apply (Hline 0%nat g x eq_refl).
  change (total (gas_of ((g, x) :: line))) with (MetaTxGasLimit (g_prepared x) + total (gas_of line)) in *.
  rewrite fmap_cons in Hnd |- *. apply NoDup_cons in Hnd as [Hnot Hnd].
  unfold drain. cbn [foldl fst]. set (w1 := run_alone c 19 g i w) in *. fold (drain line.*1 w1).
  destruct (IH key (n + 1) (gas + MetaTxGasLimit (g_prepared x)) h1 (ns ++ [n]) w1)
    as (Hall & h2 & Hway2 & Hfree2 & Hrelay2); [done|done|done|lia|lia| | |done|].
  - intros j g' y Hj. by apply Hline1.
  - intros j k g1 g2 y z Hj Hk Hyz. enough (S j = S k) by lia. by apply (Hent (S j) (S k) g1 g2 y z).
  - split.
    + constructor; [|done]. exists (at_pc (Finished (Returns (Ok hash))) x), hash. split; [|done].
      cbn [fst] in Hnot. rewrite drain_others by done. by rewrite Hgs, lookup_insert_eq.
    + exists h2. split; [|done]. cbn [length].
      replace (n + Z.of_nat (S (length line))) with (n + 1 + Z.of_nat (length line)) by lia.
      rewrite (seqZ_cons n) by lia.
      replace (Z.pred (Z.of_nat (S (length line)))) with (Z.of_nat (length line)) by lia.
      rewrite cons_middle, app_assoc, Z.add_assoc. rewrite <-Z.add_1_r. exact Hway2.
Qed.

(** (C6) A line of held metatx goes out whole, in order, on one wake-up, when nothing stands
    in its way. Take any state the service gets to, in which the chain of a user is in
    force and has not passed its time to live; the metatx of the user with the nonces
    from the expected one on, short of the last one of the 64 bits, are asleep, none of
    them evicted, and the head has been woken; nobody has the user's lock nor the global
    one; the gas of the block covers them all, the node answers every question about the
    quota with one limit and takes every transaction of the line. Then, if the goroutines
    are left to run alone, one after the other, nineteen steps each are enough: the head
    is sent and wakes the next, and so on to the last. All of them answer a hash, their
    nonces go out one after the other, and the chain expects the one after the last. *)
Theorem held_line_drains (w : world) (key : string) (n pend upd : Z) (line : list (nat * goroutine))
    (Hreach : rtc (world_step c) world0 w)
    (Hchain : Chains.view (chs (tracker_of (w_shared w))) key = Some (n, pend, upd))
    (Hcounts : now - upd ≤ Chains.nonceCacheTTL cfg)
    (Hfree : free_lock key (sh_locks (w_shared w))) (Hrelay : sh_relay (w_shared w) = None)
    (Hcount : n + Z.of_nat (length line) ≤ max_u64)
    (Hgas : 0 ≤ sv_gas (sh_service (w_shared w)))
    (Hquota : sv_gas (sh_service (w_shared w)) + total (gas_of line) ≤ limit)
    (Hline : ∀ j g x, line !! j = Some (g, x) →
       w_gs w !! g = Some x ∧ g_key x = key ∧ Nonce (g_prepared x) = n + Z.of_nat j ∧
       0 ≤ MetaTxGasLimit (g_prepared x) ∧ (∃ tx, broadcast c node (g_prepared x) = Returns (Ok tx)) ∧
       (∃ started wt e ch until, g_pc x = AtTurn started (Asleep wt e ch until)) ∧
       (∀ p, entry_of (g_pc x) = Some p →
          Held.evicted (Held.at_ (hld (tracker_of (w_shared w))) p) = false) ∧
       (j = 0%nat → woken (hld (tracker_of (w_shared w))) x)) :
  let w' := drain line.*1 w in
  rtc (world_step c) world0 w' ∧
  Forall (sent_with_hash w') line.*1 ∧
  snd <$> sent (w_shared w') = (snd <$> sent (w_shared w)) ++ seqZ n (Z.of_nat (length line)) ∧
  next_of key (tracker_of (w_shared w')) = Some (n + Z.of_nat (length line)) ∧
  sv_gas (sh_service (w_shared w')) = sv_gas (sh_service (w_shared w)) + total (gas_of line) ∧
  free_lock key (sh_locks (w_shared w')) ∧ sh_relay (w_shared w') = None.
Proof.
  destruct (awake_reachable c w Hreach) as [Hw [Hown Hsl]].
  destruct (line_goes line key n (sv_gas (sh_service (w_shared w))) (hld (tracker_of (w_shared w)))
    (snd <$> sent (w_shared w)) w) as (Hall & h' & [_ _ (pd & up & Hv & _) Hg Hs] & Hfr & Hrl);
    [ |done..| | | |].
  - constructor; [apply Hw|done| |done|done]. exists pend, upd. split; [done|]. lia.
  - intros j g x Hj. destruct (Hline j g x Hj) as (Hx & Hk & Hn & Hgx & Htx & Hpc & Hev & Hhd).
    constructor; [done|done| | |done|done|done].
    { destruct (wi_nonce _ Hw g x Hx) as [? _]. apply lookup_lt_Some in Hj. lia. }
    pose proof (Hsl g x Hx) as Hok. destruct Hpc as (st & wt & e & ch & un & Hpc).
    rewrite Hpc in Hok, Hev. destruct Hok as [Hin (p & Hp & Hch)]. exists p. split; [done|].
    exists st, wt, e, ch, un. split_and!; [done|done| |done]. rewrite <-Hk.
    destruct (Hin p Hp) as [?|He]; [done|]. by rewrite (Hev p Hp) in He.
  - intros j k g1 g2 y z Hj Hk Hyz.
    destruct (Hline j g1 y Hj) as (Hy & _ & Hny & _ & _ & (st & wt & e & ch & un & Hpc) & _).
    destruct (Hline k g2 z Hk) as (Hz & _ & Hnz & _).
    pose proof (Hsl g1 y Hy) as Hok. rewrite Hpc in Hok. destruct Hok as [_ (p & Hp & _)].
    assert (He : entry_of (g_pc y) = Some p) by by rewrite Hpc.
    assert (g1 = g2) as -> by (eapply Hown; [done|done|exact He|by rewrite <-Hyz]).
    simplify_eq. lia.
  - apply NoDup_alt. intros j k g Hj Hk.
    apply list_lookup_fmap_Some in Hj as ([g1 y] & -> & Hj), Hk as ([g2 z] & Heq & Hk).
    simpl in Heq. subst g2. destruct (Hline j g1 y Hj) as (Hy & _ & Hny & _).
    destruct (Hline k g1 z Hk) as (Hz & _ & Hnz & _). simplify_eq. lia.
  - cbv zeta. split_and!; try done; [by eapply rtc_trans, drain_reaches|].
    unfold next_of. unfold Chains.view in Hv.
    destruct (Chains.senders _ !! key) as [q|]; [|done]. simpl in *. congruence.
Qed.

End Line.

End Drain.

#[local] Existing Instances sample_unicode sample_geth sample_eth sample_errors.

Definition third_prepared : PreparedMetaTx := {|
  Tx := Tx sample_prepared; From := From sample_prepared; To := To sample_prepared;
  SigningData := SigningData sample_prepared; sig_V := sig_V sample_prepared;
  sig_R := sig_R sample_prepared; sig_S := sig_S sample_prepared; Nonce := 6;
  MetaTxGasLimit := 50; IsDeploy := false; SenderKey := "0xaB" |}.

(** Nonce 4 passes the door; 6 and then 5 come and are held; and 4 goes on. *)
Definition line_world : world :=
  let alone fuel g := run_alone sample_config fuel g sample_input in
  let w := alone 1%nat 0%nat (arrives 0 sample_ctx sample_prepared world0) in
  let w := alone 20%nat 1%nat (arrives 1 sample_ctx third_prepared w) in
  let w := alone 20%nat 2%nat (arrives 2 sample_ctx next_prepared w) in
  alone 20%nat 0%nat w.

Definition in_world (g : nat) : nat * goroutine :=
  (g, default {| g_ctx := sample_ctx; g_prepared := sample_prepared; g_pc := AtDoor |}
        (w_gs line_world !! g)).
Definition sample_line : list (nat * goroutine) := [in_world 2; in_world 1].

Lemma arrives_alone fuel g ctx prepared w :
  w_gs w !! g = None → nonce_u64 prepared →
  rtc (world_step sample_config) w (run_alone sample_config fuel g sample_input (arrives g ctx prepared w)).
Proof.
  intros Hg Hc. eapply rtc_l; [|apply run_alone_reaches]. by apply (w_arrive _ g ctx prepared w).
Qed.

Lemma line_world_reached : rtc (world_step sample_config) world0 line_world.
Proof.
  unfold line_world. cbv zeta. eapply rtc_trans; [|apply run_alone_reaches].
  eapply rtc_trans; [|apply arrives_alone; [vm_compute; reflexivity|by split]].
  eapply rtc_trans; [|apply arrives_alone; [vm_compute; reflexivity|by split]].
  apply arrives_alone; [done|by split].
Qed.

Definition member (j : nat) (y : nat * goroutine) : Prop :=
  w_gs line_world !! y.1 = Some y.2 ∧ g_key y.2 = "0xab" ∧ Nonce (g_prepared y.2) = 5 + Z.of_nat j ∧
  0 ≤ MetaTxGasLimit (g_prepared y.2) ∧
  (∃ tx, broadcast sample_config quota_node (g_prepared y.2) = Returns (Ok tx)) ∧
  (∃ started wt e ch until, g_pc y.2 = AtTurn started (Asleep wt e ch until)) ∧
  (∀ p, entry_of (g_pc y.2) = Some p →
     Held.evicted (Held.at_ (hld (tracker_of (w_shared line_world))) p) = false) ∧
  (j = 0%nat → woken (hld (tracker_of (w_shared line_world))) y.2).

Lemma channel_closed : 3%nat ∈ Held.closed (hld (tracker_of (w_shared line_world))).
Proof. refine (bool_decide_unpack _ _). vm_compute. exact I. Qed.

Lemma first_member : member 0 (in_world 2).
Proof.
  repeat split; try (vm_compute; (reflexivity || discriminate)).
  - eexists. vm_compute. reflexivity.
  - vm_compute. by do 5 eexists.
  - intros p Hp. vm_compute in Hp. injection Hp as <-. vm_compute. reflexivity.
  - intros _ st wt e ch un Hpc. vm_compute in Hpc. injection Hpc as _ _ _ <- _. exact channel_closed.
Qed.

Lemma second_member : member 1 (in_world 1).
Proof.
  repeat split; try (vm_compute; (reflexivity || discriminate)).
  - eexists. vm_compute. reflexivity.
  - vm_compute. by do 5 eexists.
  - intros p Hp. vm_compute in Hp. injection Hp as <-. vm_compute. reflexivity.
Qed.

Lemma two_members j y : sample_line !! j = Some y → member j y.
Proof.
  unfold sample_line. generalize first_member, second_member. generalize (in_world 2), (in_world 1).
  intros a b Ha Hb. by destruct j as [|[|j]]; simpl; [intros [= <-]..|].
Qed.

Lemma held_line_drains_witness :
  let w := drain sample_config sample_input [2; 1]%nat line_world in
  Forall (sent_with_hash w) [2; 1]%nat ∧ snd <$> sent (w_shared w) = [4; 5; 6].
Proof.
  destruct (held_line_drains sample_config sample_input 1000 eq_refl ltac:(vm_compute; discriminate)
    quota_node_answers ltac:(split; [vm_compute; discriminate|reflexivity]) line_world "0xab" 5 1 7 sample_line)
    as (_ & Hall & Hsent & _).
  - exact line_world_reached.
  - vm_compute. reflexivity.
  - vm_compute. discriminate.
  - intros p Hp. vm_compute in Hp. discriminate.
  - vm_compute. reflexivity.
  - vm_compute. discriminate.
  - vm_compute. discriminate.
  - vm_compute. discriminate.
  - intros j g x Hj. change (member j (g, x)). revert Hj. apply two_members.
  - split; [exact Hall|]. etransitivity; [exact Hsent|]. vm_compute. reflexivity.
Defined.
