(* ===== verification/InFlight.v ===== *)
(** What a user has in flight, while everything runs at once: the places of [Settle] over the
    goroutines of [Sending] and of those who close, one critical section at a time.

    A send takes its place on the chain, in [noteSent], before the memory knows the
    metatx, in [rememberMetaTx]; in between the place is in the hands of the goroutine. A
    closing, of [service/settle.go] and of the watcher, claims the metatx, takes its chain
    out of the memory and gives the place back, and each of these is a critical section
    of its own, [close_step]: in between the place is on its way back. What the memory gives
    up with an entry, or a closing with a chain it takes to be discarded, is lost.
    [life_step] interleaves all of it; the first theorem accounts for every place, the
    second says when none is lost, and the third that the steps of a closing
    are the closing of the code. The runs that the witnesses evaluate are in [play]. *)

From S2P Require Import Prelude GoLib Config Errors Events AuditLog Client Permissioning Tracker Handout MetaTx Reorder UserLock Turn Correlation Gas Service Revert Hub Settle Watcher Sending.

(** ** Chains only shrink where nothing is reserved *)

Lemma shrinks_trans a b d : Chains.shrinks a b → Chains.shrinks b d → Chains.shrinks a d.
Proof.
  intros [Hf1 Hs1] [Hf2 Hs2]. split; [lia|]. intros k p Hp.
  destruct (Hs2 k p Hp) as [Hp2 ->]. by apply Hs1.
Qed.

Section InFlight.
Context `{GoUnicode} `{Geth} `{EthLib} `{PkgErrors} `{HubLib} (c : Config).

Abbreviation cfg := (Some c).

(** A change of the tracker in which no chain grows. *)
Definition tame (t t' : Tracker) : Prop := Chains.shrinks (chs t) (chs t').

Lemma tame_same t t' : chs t' = chs t → tame t t'.
Proof. unfold tame. intros ->. apply Chains.shrinks_refl. Qed.

Lemma tame_trans a b d : tame a b → tame b d → tame a d.
Proof. apply shrinks_trans. Qed.

Lemma inflight_tame now k t : tame t (inflightLocked cfg now k t).2.
Proof.
  unfold tame, inflightLocked. pose proof (Chains.chainLocked_shrinks cfg now k (chs t)) as Hs.
  by destruct (Chains.chainLocked cfg now k (chs t)).
Qed.

Lemma pending_tame now from t : tame t (pendingOf cfg now from t).2.
Proof.
  unfold tame, pendingOf, Chains.pendingOf.
  pose proof (Chains.chainLocked_shrinks cfg now (senderKey from) (chs t)) as Hs.
  destruct (Chains.chainLocked cfg now (senderKey from) (chs t)). by case_match.
Qed.

Lemma cached_tame now from t : tame t (cachedNonce cfg now from t).2.
Proof.
  unfold tame, cachedNonce, Chains.cachedNonce.
  pose proof (Chains.chainLocked_shrinks cfg now (senderKey from) (chs t)) as Hs.
  destruct (Chains.chainLocked cfg now (senderKey from) (chs t)). by case_match.
Qed.

Lemma expected_tame now node from t : tame t (expectedNonce c now node from t).2.
Proof.
  pose proof (cached_tame now from t) as Hs. unfold expectedNonce.
  by destruct (cachedNonce cfg now from t) as [[]].
Qed.

Lemma surplus_tame now k p t : tame t (surplusHeld cfg now k p t).2.
Proof.
  pose proof (inflight_tame now k t) as Hs. unfold surplusHeld.
  destruct (inflightLocked cfg now k t). by case_match.
Qed.

Lemma door_tame now k n t : tame t (makeRoomFor cfg now k n t).2.
Proof.
  pose proof (inflight_tame now k t) as Hs. unfold makeRoomFor.
  destruct (inflightLocked cfg now k t). by repeat case_match.
Qed.

Lemma forget_tame k t : tame t (forgetChain k t).
Proof. apply Chains.forget_shrinks. Qed.

Lemma await_tame ctx started sender n i pc t pc' t' log :
  await_step c ctx started sender n i pc t = Some (pc', t', log) → tame t t'.
Proof.
  intros Hs. destruct pc as [w|w [e|e]|w e r|w e r|w e wake until|w e|w e|w reason e ret|r];
    cbn [await_step] in Hs.
  - pose proof (expected_tame (in_now i) (in_node i) sender t) as Ht.
    destruct (expectedNonce _ _ _ _ _). by simplify_eq.
  - destruct (n <=? e); [simplify_eq; by apply tame_same|].
    destruct (hold_once _ _ _ _ _ _ _) as [[w1 t1] l1] eqn:Hh.
    assert (tame t t1) by (unfold hold_once, hold in Hh; repeat case_match; simplify_eq; by apply tame_same).
    by case_match; simplify_eq.
  - simplify_eq. by apply tame_same.
  - destruct (w_entry w) as [p|]; [|done].
    pose proof (surplus_tame (in_now i) (senderKey sender) p t) as Ht.
    destruct (surplusHeld _ _ _ _ _) as [[m b] t1]. by destruct b; simplify_eq.
  - repeat case_match; simplify_eq. by apply tame_same.
  - repeat case_match; simplify_eq; by apply tame_same.
  - destruct (w_entry w) as [p|]; [|done]. revert Hs. set (t1 := set_hld _ t). intros Hs.
    pose proof (inflight_tame (in_now i) (senderKey sender) t1) as Ht.
    destruct (inflightLocked _ _ _ _) as [m t2]. cbn [snd] in Ht.
    assert (tame t t2) by (eapply tame_trans; [|exact Ht]; by apply tame_same).
    by case_match; simplify_eq.
  - repeat case_match; simplify_eq. by apply tame_same.
  - repeat case_match; simplify_eq; by apply tame_same.
  - done.
Qed.

(** ** The machine *)

Definition noted (pc : send_pc) : option nat :=
  match pc with AtRemember _ _ chain _ => Some chain | _ => None end.

(** The places in the hands of goroutines. *)
Definition in_hand (gs : gmap nat goroutine) (p : nat) : nat := count_if (λ x, noted (g_pc x) = Some p) gs.

(** Only noting a send, and remembering it, touch a place. *)
Lemma send_step_tame g ctx prepared i pc w pc' w' log :
  send_step c g ctx prepared i pc w = Some (pc', w', log) →
  match pc with
  | AtNote p tx =>
      let key := senderKey (SenderKey prepared) in
      let '(chain, ch) := Chains.reserveLocked cfg (in_now (si_await i)) key (Nonce prepared) true
                            (chs (tracker_of w)) in
      noted pc' = Some chain ∧ chs (tracker_of w') = ch ∧
      sv_memory (sh_service w') = sv_memory (sh_service w)
  | AtRemember p tx chain pending =>
      noted pc' = None ∧ tracker_of w' = tracker_of w ∧
      sv_memory (sh_service w') =
        rememberMetaTx (in_now (si_await i)) (si_order i) ctx (tx_Hash tx) (senderKey (SenderKey prepared))
          (Some chain) (sv_memory (sh_service w))
  | _ => noted pc' = None ∧ tame (tracker_of w) (tracker_of w') ∧
         sv_memory (sh_service w') = sv_memory (sh_service w)
  end.
Proof.
  intros Hs. destruct pc as [|started apc|p|p|p|p [e|e]|p|p|p|p tx|p tx|p tx chain pd|p r|p e|p r|p r|r];
    cbn [send_step] in Hs; cbv zeta.
  - pose proof (door_tame (in_now (si_await i)) (senderKey (SenderKey prepared)) (Nonce prepared)
      (tracker_of w)) as Ht.
    destruct (makeRoomFor _ _ _ _ _) as [[m b] t]. by case_match; simplify_eq.
  - assert (noted pc' = None ∧ sv_memory (sh_service w') = sv_memory (sh_service w) ∧
      ((tracker_of w' = tracker_of w) ∨ ∃ apc' log',
        await_step c ctx started (SenderKey prepared) (Nonce prepared) (si_await i) apc (tracker_of w)
          = Some (apc', tracker_of w', log'))) as (Hn & Hm & Ht).
    { destruct apc; try (destruct (await_step _ _ _ _ _ _ _ _) as [[[apc' t'] log']|] eqn:Ha; [|done];
        simplify_eq; split_and!; [done|done|right; by eauto]).
      destruct ret; simplify_eq; auto. }
    split_and!; [done| |done]. destruct Ht as [->|(apc' & log' & Ht)]; [by apply tame_same|].
    by eapply await_tame.
  - destruct (enter _ _). simplify_eq. split_and!; [done|by apply tame_same|done].
  - case_match; simplify_eq. split_and!; [done|by apply tame_same|done].
  - pose proof (expected_tame (in_now (si_await i)) (in_node (si_await i)) (SenderKey prepared)
      (tracker_of w)) as Ht.
    destruct (expectedNonce _ _ _ _ _). by simplify_eq.
  - pose proof (pending_tame (in_now (si_await i)) (SenderKey prepared) (tracker_of w)) as Ht.
    case_bool_decide; [|simplify_eq; split_and!; [done|by apply tame_same|done]].
    destruct (pendingOf _ _ _ _). by simplify_eq.
  - simplify_eq. split_and!; [done|by apply tame_same|done].
  - case_match; simplify_eq. split_and!; [done|by apply tame_same|done].
  - destruct (VerifyGasLimit _ _ _ _). repeat case_match; simplify_eq;
      (split_and!; [done|by apply tame_same|done]).
  - repeat case_match; simplify_eq; (split_and!; [done|by apply tame_same|done]).
  - simplify_eq. split_and!; [done|by apply tame_same|done].
  - unfold reserveLocked in Hs. destruct (Chains.reserveLocked _ _ _ _ _ _) as [chain ch]. by simplify_eq.
  - by simplify_eq.
  - repeat case_match; simplify_eq; (split_and!; [done|by apply tame_same|done]).
  - simplify_eq. split_and!; [done|by apply forget_tame|done].
  - simplify_eq. split_and!; [done|by apply tame_same|done].
  - simplify_eq. split_and!; [done|by apply tame_same|done].
  - done.
Qed.

(** What the others do to the tracker, but for giving back the place of a metatx. *)
Inductive meanwhile : Tracker → Tracker → Prop :=
  | mw_same t : meanwhile t t
  | mw_forget k t : meanwhile t (forgetChain k t)
  | mw_cached now from t : meanwhile t (cachedNonce cfg now from t).2
  | mw_pending now from t : meanwhile t (pendingOf cfg now from t).2
  | mw_inflight now k t : meanwhile t (inflightLocked cfg now k t).2
  | mw_fire tm t : is_Some (Chains.timers (chs t) !! tm) → meanwhile t (fire tm t)
  | mw_grace k p t : meanwhile t (graceExpired k p t).

Lemma meanwhile_tame t t' : meanwhile t t' → tame t t'.
Proof.
  destruct 1; auto using forget_tame, cached_tame, pending_tame, inflight_tame.
  - by apply tame_same.
  - split; [done|]. auto.
  - apply Chains.graceExpired_shrinks.
Qed.

Lemma elsewhere_same t : elsewhere c t t.
Proof. apply (else_release c 0 "" None). Qed.

Lemma meanwhile_elsewhere t t' : meanwhile t t' → elsewhere c t t'.
Proof. destruct 1; [apply elsewhere_same|by constructor..]. Qed.

(** A closing, from the reading of the receipt on. The senders that the hub rejected are
    forgotten as they are read; a metatx that expires has nothing to read. *)
Inductive close_pc :=
  | Reading (bad : list string) (rejected : bool)
  | Claiming (rejected : bool)
  | Taking (rejected : bool)
  | Releasing (key : string) (chain : nat)
  | Closed.

#[global] Instance close_pc_eq_dec : EqDecision close_pc.
Proof. solve_decision. Defined.

(** The critical sections of [settle], one by one. *)
Definition close_step (now : Z) (h : hash) (pc : close_pc) (s : Service) : option (close_pc * Service) :=
  match pc with
  | Reading (k :: bad) r => Some (Reading bad r, with_tracker (forgetChain k (sv_tracker s)) s)
  | Reading [] r => Some (Claiming r, s)
  | Claiming r =>
      let '(won, m) := claimSettled h (sv_memory s) in
      Some (if won then Taking r else Closed, with_memory m s)
  | Taking r =>
      let '(key, chain, m) := takeChain h (sv_memory s) in
      Some (match chain with
            | Some p => if bool_decide (key = "") || r then Closed else Releasing key p
            | None => Closed
            end, with_memory m s)
  | Releasing key p => Some (Closed, with_tracker (releaseChain cfg now key (Some p) (sv_tracker s)) s)
  | Closed => None
  end.

Record closer := { cl_hash : hash; cl_pc : close_pc }.

Definition returning (pc : close_pc) : option nat :=
  match pc with Releasing _ p => Some p | _ => None end.

(** The places on their way back. *)
Definition in_return (cs : gmap nat closer) (p : nat) : nat :=
  count_if (λ x, returning (cl_pc x) = Some p) cs.

(** The world of the sends, those who close, and, by chain, the places that were lost: no
    state of the program, but what the theorem speaks of. *)
Record life := {
  lf_world : world;
  lf_closers : gmap nat closer;
  lf_lost : nat → nat;
}.

Definition lf_service (l : life) : Service := sh_service (w_shared (lf_world l)).
Definition lf_memory (l : life) : memory := sv_memory (lf_service l).
Definition lf_tracker (l : life) : Tracker := sv_tracker (lf_service l).
Definition lf_gs (l : life) : gmap nat goroutine := w_gs (lf_world l).
Definition set_service (s : Service) (w : world) : world :=
  {| w_shared := with_service s (w_shared w); w_gs := w_gs w |}.

Definition life0 : life := {| lf_world := world0; lf_closers := ∅; lf_lost := λ _, 0%nat |}.

(** What remembering a metatx pushes out of the memory: the expired, the oldest when it is full, and
    an entry of the same hash. *)
Definition displaced (i : send_input) (pc : send_pc) (m : memory) : memory :=
  match pc with
  | AtRemember _ tx _ _ =>
      m ∖ delete (tx_Hash tx) (evictLocked (in_now (si_await i)) (si_order i) m)
  | _ => ∅
  end.

(** The place that a closing does not give back because the hub rejected the metatx, when the
    chain it is on is in force all the same. *)
Definition abandoned (h : hash) (pc : close_pc) (s : Service) : option nat :=
  match pc with
  | Taking true =>
      e ← sv_memory s !! h; p ← e_chain e;
      if decide (Chains.senders (chs (sv_tracker s)) !! e_senderKey e = Some p) then Some p else None
  | _ => None
  end.

Inductive life_step : life → life → Prop :=
  | l_arrive g ctx prepared l :
      lf_gs l !! g = None → nonce_u64 prepared → senderKey (SenderKey prepared) ≠ "" →
      life_step l {| lf_world := arrives g ctx prepared (lf_world l);
                     lf_closers := lf_closers l; lf_lost := lf_lost l |}
  | l_run g x i pc sh log l :
      lf_gs l !! g = Some x →
      send_step c g (g_ctx x) (g_prepared x) i (g_pc x) (w_shared (lf_world l)) = Some (pc, sh, log) →
      life_step l {| lf_world := {| w_shared := sh; w_gs := <[g := at_pc pc x]> (lf_gs l) |};
                     lf_closers := lf_closers l;
                     lf_lost := λ q, (lf_lost l q + counting_on q (displaced i (g_pc x) (lf_memory l)))%nat |}
  | l_closer g h bad rejected l :
      lf_closers l !! g = None →
      life_step l {| lf_world := lf_world l;
                     lf_closers := <[g := {| cl_hash := h; cl_pc := Reading bad rejected |}]>
                                     (lf_closers l);
                     lf_lost := lf_lost l |}
  | l_close now g x pc s l :
      lf_closers l !! g = Some x →
      close_step now (cl_hash x) (cl_pc x) (lf_service l) = Some (pc, s) →
      life_step l {| lf_world := set_service s (lf_world l);
                     lf_closers := <[g := {| cl_hash := cl_hash x; cl_pc := pc |}]> (lf_closers l);
                     lf_lost := λ q, (lf_lost l q +
                       (if decide (abandoned (cl_hash x) (cl_pc x) (lf_service l) = Some q)
                        then 1 else 0))%nat |}
  | l_recall now ctx h l :
      let m := (recallMetaTx now ctx h (lf_memory l)).2 in
      life_step l {| lf_world := set_service (with_memory m (lf_service l)) (lf_world l);
                     lf_closers := lf_closers l;
                     lf_lost := λ q, (lf_lost l q + counting_on q (lf_memory l ∖ m))%nat |}
  | l_meanwhile t q gas l :
      meanwhile (lf_tracker l) t →
      life_step l {| lf_world := set_service {| sv_tracker := t; sv_queue := q;
                                                sv_memory := lf_memory l; sv_gas := gas |} (lf_world l);
                     lf_closers := lf_closers l; lf_lost := lf_lost l |}.

(** It is the machine of the sends, with what the others do made precise. *)
Lemma close_step_elsewhere now h pc pc' s s' :
  close_step now h pc s = Some (pc', s') →
  sv_tracker s' = sv_tracker s ∨ elsewhere c (sv_tracker s) (sv_tracker s').
Proof.
  destruct pc as [[|k bad] r|r|r|key p|]; cbn [close_step]; intros Hs; [..|done].
  - simplify_eq. by left.
  - simplify_eq. right. constructor.
  - destruct (claimSettled _ _). simplify_eq. by left.
  - destruct (takeChain _ _) as [[key chain] m]. simplify_eq. by left.
  - simplify_eq. right. constructor.
Qed.

Lemma set_service_step s w :
  elsewhere c (tracker_of (w_shared w)) (sv_tracker s) → world_step c w (set_service s w).
Proof. destruct s as [t q m gas]. intros Ht. by apply w_else. Qed.

Lemma life_world l l' :
  life_step l l' → lf_world l' = lf_world l ∨ world_step c (lf_world l) (lf_world l').
Proof.
  destruct 1 as [g ctx prepared l Hg Hn Hk|g x i pc sh log l Hg Hs| |now g x pc s l Hg Hs|
    now ctx h l|t q gas l Ht]; simpl; [right|right|by left|right..].
  - by apply w_arrive.
  - by eapply w_run.
  - apply set_service_step. destruct (close_step_elsewhere _ _ _ _ _ _ Hs) as [->|]; [|done].
    apply elsewhere_same.
  - apply set_service_step. apply elsewhere_same.
  - apply set_service_step. by apply meanwhile_elsewhere.
Qed.

Lemma life_worlds l l' : rtc life_step l l' → rtc (world_step c) (lf_world l) (lf_world l').
Proof.
  induction 1 as [|l1 l2 l3 Hs _ IH]; [done|]. destruct (life_world _ _ Hs) as [<-|Hw]; [done|].
  by eapply rtc_l.
Qed.

(** ** The places of a chain: in the memory and in the hands of goroutines *)

Lemma in_flight_ext x x' s s' :
  in_flight_inv x s → (∀ p, x p = x' p) → sv_tracker s' = sv_tracker s → sv_memory s' = sv_memory s →
  in_flight_inv x' s'.
Proof.
  intros [Hwf Hentry Hcount] Hx Ht Hm. constructor; rewrite ?Ht, ?Hm; [done|done|].
  intros k p Hp. rewrite <-Hx. by eapply Hcount.
Qed.

Lemma in_flight_tame x s s' :
  in_flight_inv x s → tracker_wf (sv_tracker s') → tame (sv_tracker s) (sv_tracker s') →
  sv_memory s' = sv_memory s → in_flight_inv x s'.
Proof.
  intros Hinv [Hc Hh] Ht Hm.
  apply (in_flight_ext x x (with_tracker (sv_tracker s') s)); [by apply in_flight_other|done..].
Qed.

(** The owner of a place is still the same, and no other chain took its identity. *)
Definition owned (ch : nat) (key : string) (t : Tracker) : Prop :=
  (ch < Chains.fresh (chs t))%nat ∧ ∀ k, Chains.senders (chs t) !! k = Some ch → k = key.

Lemma owned_tame ch key t t' : tame t t' → owned ch key t → owned ch key t'.
Proof. intros [Hf Hs] [Hlt Hown]. split; [lia|]. intros k [Hk _]%Hs. by apply Hown. Qed.

Lemma owned_release now k chain ch key t : owned ch key t → owned ch key (releaseChain cfg now k chain t).
Proof.
  unfold owned, releaseChain.
  destruct (Chains.release cfg now k chain (chs t)) as [cs|] eqn:Hr; [simpl|done].
  apply Chains.release_pending in Hr as (p & _ & _ & Hf & Hs).
  intros [Hlt Hown]. split; [lia|]. intros k' [Hk _]%Hs. by apply Hown.
Qed.

Lemma release_fresh now k chain t :
  (Chains.fresh (chs t) ≤ Chains.fresh (chs (releaseChain cfg now k chain t)))%nat.
Proof.
  unfold releaseChain. destruct (Chains.release cfg now k chain (chs t)) as [cs|] eqn:Hr; simpl; [|done].
  by apply Chains.release_pending in Hr as (p & _ & _ & Hf & _).
Qed.

Lemma owned_reserve now key n t p ch t' q k :
  tracker_wf t → Chains.reserveLocked cfg now key n true (chs t) = (p, ch) → chs t' = ch →
  owned p key t' ∧ (owned q k t → owned q k t').
Proof.
  intros [Hwf _] Hr <-. pose proof (Chains.reserveLocked_pointer cfg now key n true (chs t) Hwf) as Hp.
  rewrite Hr in Hp. destruct Hp as (Hwf' & Hp & Hf & Hpf & Hs & _ & Hcase). split.
  - split; [lia|]. intros k' Hk'. by eapply Chains.wf_own.
  - intros [Hlt Hown]. split; [lia|]. intros k' Hk'.
    destruct (decide (k' = key)) as [->|Hne]; [|apply Hown; by rewrite <-Hs].
    destruct Hcase as [[Hin _]|[Hpf' _]]; [apply Hown; congruence|].
    rewrite Hp in Hk'. simplify_eq. lia.
Qed.

(** Reserving takes a place of the chain. *)
Lemma in_flight_reserve x now key n p ch s s' :
  in_flight_inv x s → (∀ q, (Chains.fresh (chs (sv_tracker s)) ≤ q)%nat → x q = 0%nat) →
  Chains.reserveLocked cfg now key n true (chs (sv_tracker s)) = (p, ch) →
  chs (sv_tracker s') = ch → tracker_wf (sv_tracker s') → sv_memory s' = sv_memory s →
  in_flight_inv (λ q, (if decide (p = q) then 1 else 0) + x q)%nat s'.
Proof.
  intros [Hwf Hentry Hcount] Hx Hr <- Hwf' Hm.
  pose proof (Chains.reserveLocked_pointer cfg now key n true _ (proj1 Hwf)) as Hp.
  rewrite Hr in Hp. destruct Hp as (_ & Hp & Hf & Hpf & Hs & Hpend & Hcase).
  constructor; rewrite ?Hm; [done|..].
  - intros h e q He Hq. destruct (Hentry h e q He Hq) as (? & ? & Hown).
    destruct (owned_reserve now key n (sv_tracker s) p _ (sv_tracker s') q (e_senderKey e) Hwf Hr eq_refl)
      as [_ Hkeep]. destruct Hkeep; [by split|]. done.
  - intros k q Hk. destruct (decide (k = key)) as [->|Hne].
    + rewrite Hp in Hk. injection Hk as <-. rewrite decide_True by done.
      destruct Hcase as [[Hin ->]|[Hpf' ->]]; [rewrite (Hcount _ _ Hin); lia|].
      rewrite (Hx p) by lia. replace (counting_on p (sv_memory s)) with 0%nat; [lia|]. symmetry.
      apply count_if_none. intros h e He Hq. destruct (Hentry h e p He Hq) as (_ & ? & _). lia.
    + rewrite decide_False.
      * rewrite Hs in Hk by done. rewrite (Hpend k q) by done. rewrite (Hcount _ _ Hk). lia.
      * intros <-. apply Hne. eapply Chains.wf_own; [apply Hwf'|done|done].
Qed.

(** Remembering puts a place in hand in the memory. *)
Lemma in_flight_remember x x' h e p key s s' :
  in_flight_inv x s → sv_memory s !! h = None → e_chain e = Some p → settled e = false →
  e_senderKey e = key → key ≠ "" → owned p key (sv_tracker s) →
  (∀ q, x q = (if decide (p = q) then 1 else 0) + x' q)%nat →
  sv_tracker s' = sv_tracker s → sv_memory s' = <[h := e]> (sv_memory s) → in_flight_inv x' s'.
Proof.
  intros [Hwf Hentry Hcount] Hh Hp Hset <- Hkey [Hlt Hown] Hx Ht Hm.
  constructor; rewrite ?Ht, ?Hm; [done|..].
  - intros h' e' q [[<- <-]|[_ He']]%lookup_insert_Some Hq; [|by eapply Hentry].
    rewrite Hp in Hq. simplify_eq. by split_and!.
  - intros k q Hk. unfold counting_on. rewrite count_if_new by done.
    rewrite (Hcount _ _ Hk), Hx. unfold counting_on. rewrite Hp.
    repeat case_decide; simplify_eq; lia.
Qed.


(** The memory may lose entries, and entries places, if somebody accounts for them. *)
Lemma in_flight_memory x x' m' s :
  in_flight_inv x s →
  (∀ h e' p, m' !! h = Some e' → e_chain e' = Some p →
     ∃ e, sv_memory s !! h = Some e ∧ e_chain e = Some p ∧ e_senderKey e = e_senderKey e') →
  (∀ k q, Chains.senders (chs (sv_tracker s)) !! k = Some q →
     (counting_on q (sv_memory s) + x q = counting_on q m' + x' q)%nat) →
  in_flight_inv x' (with_memory m' s).
Proof.
  intros [Hwf Hentry Hcount] Hsub Hx. constructor; simpl; [done|..].
  - intros h e' p He' Hp. destruct (Hsub h e' p He' Hp) as (e & He & Hpe & <-). by eapply Hentry.
  - intros k q Hk. rewrite (Hcount k q Hk). f_equal. by eapply Hx.
Qed.

Lemma in_flight_forget_entries x m' s :
  in_flight_inv x s → m' ⊆ sv_memory s →
  in_flight_inv (λ q, x q + counting_on q (sv_memory s ∖ m'))%nat (with_memory m' s).
Proof.
  intros Hinv Hsub. eapply in_flight_memory; [exact Hinv|..].
  - intros h e' p He' Hp. exists e'. split_and!; [by eapply lookup_weaken|done|done].
  - intros _ q _. unfold counting_on.
    rewrite (count_if_difference (λ e, e_chain e = Some q) (sv_memory s) m' Hsub). lia.
Qed.

Lemma evict_subseteq now order m : evictLocked now order m ⊆ m.
Proof.
  unfold evictLocked. assert (purge now m ⊆ m) as Hsub by apply map_filter_subseteq.
  case_match; [done|]. etransitivity; [apply delete_subseteq|done].
Qed.

Lemma recall_subseteq now ctx h m : (recallMetaTx now ctx h m).2 ⊆ m.
Proof.
  unfold recallMetaTx. destruct (m !! h) as [e|]; [|done].
  destruct (too_old now e); [apply delete_subseteq|done].
Qed.

(** A place on its way back is given back once, if its chain is still in force. *)
Lemma in_flight_release x x' now key p s :
  in_flight_inv x s → owned p key (sv_tracker s) →
  (∀ q, x q = (if decide (p = q) then 1 else 0) + x' q)%nat →
  in_flight_inv x' (with_tracker (releaseChain cfg now key (Some p) (sv_tracker s)) s).
Proof.
  intros [Hwf Hentry Hcount] Hown Hx.
  destruct (release_places c now key p (sv_tracker s)) as [Hf Hs]; [apply Hwf| |].
  { intros k Hk. split; [by apply Hown|]. rewrite (Hcount k p Hk), Hx.
    rewrite decide_True by done. lia. }
  constructor; simpl.
  - by apply releaseChain_wf.
  - intros h e q He Hq. destruct (Hentry h e q He Hq) as (? & ? & Hk).
    split_and!; [done|lia|]. intros k [Hin _]%Hs. by apply Hk.
  - intros k q Hk. destruct (Hs k q Hk) as [Hin ->]. rewrite (Hcount k q Hin), Hx.
    case_decide; lia.
Qed.

(** ** The count, whoever runs *)

(** The places that the memory does not have. *)
Definition elsewhere_held (l : life) (q : nat) : nat :=
  (in_hand (lf_gs l) q + in_return (lf_closers l) q + lf_lost l q)%nat.

Record life_inv (l : life) : Prop := {
  li_flight : in_flight_inv (elsewhere_held l) (lf_service l);
  li_key : ∀ g x, lf_gs l !! g = Some x → g_key x ≠ "";
  li_owned : ∀ g x ch, lf_gs l !! g = Some x → noted (g_pc x) = Some ch →
    owned ch (g_key x) (lf_tracker l);
  li_back : ∀ g x key p, lf_closers l !! g = Some x → cl_pc x = Releasing key p →
    owned p key (lf_tracker l);
  li_lost : ∀ q, (Chains.fresh (chs (lf_tracker l)) ≤ q)%nat → lf_lost l q = 0%nat;
  li_closing : ∀ h e p, lf_memory l !! h = Some e → e_chain e = Some p → settled e = true →
    ∃ g x r, lf_closers l !! g = Some x ∧ cl_hash x = h ∧ cl_pc x = Taking r;
}.

Lemma life_start : life_inv life0.
Proof.
  constructor; unfold lf_gs, lf_memory, lf_service; simpl; try (intros *; by rewrite lookup_empty);
    [|done].
  constructor; simpl; [apply empty_tracker_wf|intros *; by rewrite lookup_empty..].
Qed.

(** Nobody has a place on a chain that is not there yet. *)
Lemma nothing_held l q :
  life_inv l → (Chains.fresh (chs (lf_tracker l)) ≤ q)%nat → elsewhere_held l q = 0%nat.
Proof.
  intros Hinv Hq. unfold elsewhere_held. rewrite (li_lost _ Hinv q Hq).
  replace (in_hand (lf_gs l) q) with 0%nat; [replace (in_return (lf_closers l) q) with 0%nat; [done|]|];
    symmetry; apply count_if_none; intros g x Hg Hx.
  - destruct (cl_pc x) as [| | |key p|] eqn:Hpc; try done. injection Hx as <-.
    destruct (li_back _ Hinv g x key p Hg Hpc). lia.
  - destruct (li_owned _ Hinv g x q Hg Hx). lia.
Qed.

(** A goroutine that goes on, with the place it holds and the one it held. *)
Lemma in_hand_step gs g x pc q :
  gs !! g = Some x →
  ((if decide (noted (g_pc x) = Some q) then 1 else 0) + in_hand (<[g := at_pc pc x]> gs) q =
   (if decide (noted pc = Some q) then 1 else 0) + in_hand gs q)%nat.
Proof. intros Hg. exact (count_if_update (λ x, noted (g_pc x) = Some q) gs g x (at_pc pc x) Hg). Qed.

Lemma in_return_step cs g x y q :
  cs !! g = Some x →
  ((if decide (returning (cl_pc x) = Some q) then 1 else 0) + in_return (<[g := y]> cs) q =
   (if decide (returning (cl_pc y) = Some q) then 1 else 0) + in_return cs q)%nat.
Proof. intros Hg. exact (count_if_update (λ x, returning (cl_pc x) = Some q) cs g x y Hg). Qed.

(** ** The sends *)

(** What is to be checked of a step of a goroutine that sends. *)
Lemma life_run_inv g x pc sh lost l :
  lf_gs l !! g = Some x → life_inv l →
  let l' := {| lf_world := {| w_shared := sh; w_gs := <[g := at_pc pc x]> (lf_gs l) |};
               lf_closers := lf_closers l; lf_lost := lost |} in
  (∀ k ch, owned ch k (lf_tracker l) → owned ch k (lf_tracker l')) →
  (∀ ch, noted pc = Some ch → owned ch (g_key x) (lf_tracker l')) →
  (∀ q, (Chains.fresh (chs (lf_tracker l')) ≤ q)%nat → lost q = 0%nat) →
  (∀ h e p, lf_memory l' !! h = Some e → e_chain e = Some p → settled e = true →
     lf_memory l !! h = Some e) →
  in_flight_inv (elsewhere_held l') (lf_service l') → life_inv l'.
Proof.
  intros Hg Hinv l' Hkeep Hnew Hlost Hclosing Hflight. constructor; [done|..|done|].
  - unfold lf_gs at 1. simpl. intros g' y [[<- <-]|[_ Hy]]%lookup_insert_Some; [|by eapply (li_key _ Hinv)].
    by apply (li_key _ Hinv g x).
  - unfold lf_gs at 1. simpl. intros g' y ch [[<- <-]|[_ Hy]]%lookup_insert_Some Hn; [by apply Hnew|].
    apply Hkeep. by eapply (li_owned _ Hinv).
  - intros g' y key p Hy Hpc. apply Hkeep. by eapply (li_back _ Hinv).
  - intros h e p He Hp Hs. eapply (li_closing _ Hinv); [by eapply Hclosing|done|done].
Qed.

(** A step that touches no place but by letting chains go. *)
Lemma life_run_tame g x pc sh lost l :
  lf_gs l !! g = Some x → life_inv l → tracker_wf (tracker_of sh) →
  noted (g_pc x) = None → noted pc = None →
  tame (lf_tracker l) (tracker_of sh) → sv_memory (sh_service sh) = lf_memory l →
  (∀ q, lost q = lf_lost l q) →
  life_inv {| lf_world := {| w_shared := sh; w_gs := <[g := at_pc pc x]> (lf_gs l) |};
              lf_closers := lf_closers l; lf_lost := lost |}.
Proof.
  intros Hg Hinv Hwf Hx Hpc Htame Hm Hlost. apply life_run_inv; try done.
  - intros k ch. by apply owned_tame.
  - by rewrite Hpc.
  - intros q Hq. rewrite Hlost. apply (li_lost _ Hinv). destruct Htame as [Hf _]. etransitivity; [exact Hf|done].
  - intros h e p He _ _. unfold lf_memory in *. simpl in He. by rewrite <-Hm.
  - eapply in_flight_ext; [eapply in_flight_tame; [apply (li_flight _ Hinv)|done..]| |done|done].
    intros q. unfold elsewhere_held. simpl. rewrite Hlost.
    pose proof (in_hand_step (lf_gs l) g x pc q Hg) as Hhand.
    rewrite Hx, Hpc, !decide_False in Hhand by done. unfold lf_gs in *. simpl in *. lia.
Qed.

(** The place that is noted is in the hands of the goroutine. *)
Lemma life_note now g x p tx pc sh ch cs lost l :
  lf_gs l !! g = Some x → g_pc x = AtNote p tx → life_inv l → tracker_wf (tracker_of sh) →
  Chains.reserveLocked cfg now (g_key x) (Nonce (g_prepared x)) true (chs (lf_tracker l)) = (ch, cs) →
  noted pc = Some ch → chs (tracker_of sh) = cs → sv_memory (sh_service sh) = lf_memory l →
  (∀ q, lost q = lf_lost l q) →
  life_inv {| lf_world := {| w_shared := sh; w_gs := <[g := at_pc pc x]> (lf_gs l) |};
              lf_closers := lf_closers l; lf_lost := lost |}.
Proof.
  intros Hg Hx Hinv Hwf Hr Hpc Hcs Hm Hlost. pose proof (li_flight _ Hinv) as Hflight.
  assert (Hf : (Chains.fresh (chs (lf_tracker l)) ≤ Chains.fresh (chs (tracker_of sh)))%nat).
  { pose proof (Chains.reserveLocked_pointer cfg now (g_key x) (Nonce (g_prepared x)) true _
      (proj1 (if_wf _ _ Hflight))) as Hp. rewrite Hcs. unfold lf_tracker in Hr. rewrite Hr in Hp.
    by destruct Hp as (_ & _ & ? & _). }
  apply life_run_inv; try done.
  - intros k q. by eapply owned_reserve; [apply Hflight|exact Hr|].
  - intros q Hq. rewrite Hpc in Hq. injection Hq as <-.
    by eapply (owned_reserve _ _ _ _ _ _ _ 0 ""); [apply Hflight|exact Hr|].
  - intros q Hq. rewrite Hlost. apply (li_lost _ Hinv). etransitivity; [exact Hf|done].
  - intros h e q He _ _. unfold lf_memory in *. simpl in He. by rewrite <-Hm.
  - eapply in_flight_ext; [eapply in_flight_reserve; [exact Hflight| |exact Hr|exact Hcs|exact Hwf|exact Hm]| |done|done].
    + intros q Hq. by apply nothing_held.
    + intros q. unfold elsewhere_held. simpl. rewrite Hlost.
      pose proof (in_hand_step (lf_gs l) g x pc q Hg) as Hhand.
      rewrite Hx, Hpc in Hhand. cbn [noted] in Hhand.
      rewrite (decide_False (P := None = Some q)) in Hhand by done.
      rewrite (decide_ext (Some ch = Some q) (ch = q)) in Hhand by (split; congruence).
      unfold lf_gs in *. simpl in *. lia.
Qed.

(** It goes to the memory, which may give up others to make room. *)
Lemma life_remember i g x p tx ch pd pc sh l :
  lf_gs l !! g = Some x → g_pc x = AtRemember p tx ch pd → life_inv l → noted pc = None →
  tracker_of sh = lf_tracker l →
  sv_memory (sh_service sh) =
    rememberMetaTx (in_now (si_await i)) (si_order i) (g_ctx x) (tx_Hash tx) (g_key x) (Some ch)
      (lf_memory l) →
  life_inv {| lf_world := {| w_shared := sh; w_gs := <[g := at_pc pc x]> (lf_gs l) |};
              lf_closers := lf_closers l;
              lf_lost := λ q, (lf_lost l q + counting_on q (displaced i (g_pc x) (lf_memory l)))%nat |}.
Proof.
  intros Hg Hx Hinv Hpc Ht Hm. pose proof (li_flight _ Hinv) as Hflight.
  assert (Hmine : owned ch (g_key x) (lf_tracker l)) by (apply (li_owned _ Hinv g x); [done|by rewrite Hx]).
  unfold rememberMetaTx in Hm. rewrite andb_false_r in Hm. rewrite Hx. cbn [displaced].
  set (m := delete (tx_Hash tx) (evictLocked (in_now (si_await i)) (si_order i) (lf_memory l))) in *.
  assert (Hsub : m ⊆ lf_memory l) by (etransitivity; [apply delete_subseteq|apply evict_subseteq]).
  rewrite <-insert_delete_eq in Hm. fold m in Hm.
  apply life_run_inv; try done.
  - intros k q. apply owned_tame, tame_same. exact (f_equal chs Ht).
  - by rewrite Hpc.
  - intros q Hq. change (lf_tracker _) with (tracker_of sh) in Hq. rewrite Ht in Hq.
    rewrite (li_lost _ Hinv q Hq). apply count_if_none. intros h e He Hq'.
    apply lookup_difference_Some in He as [He _].
    destruct (if_entry _ _ Hflight h e q He Hq') as (_ & ? & _). unfold lf_tracker in Hq. lia.
  - intros h e q He _ Hs. unfold lf_memory at 1, lf_service in He. simpl in He. rewrite Hm in He.
    apply lookup_insert_Some in He as [[_ <-]|[_ He]]; [done|]. by eapply lookup_weaken.
  - pose proof (in_flight_forget_entries _ m _ Hflight Hsub) as Hgone.
    eapply (in_flight_remember _ _ (tx_Hash tx) _ ch (g_key x)); [exact Hgone|apply lookup_delete_eq|..];
      [| | | | | |exact Ht|exact Hm]; try done.
    + by apply (li_key _ Hinv g).
    + intros q. unfold elsewhere_held. simpl. pose proof (in_hand_step (lf_gs l) g x pc q Hg) as Hhand.
      rewrite Hx, Hpc in Hhand. cbn [noted] in Hhand.
      rewrite (decide_False (P := None = Some q)) in Hhand by done.
      rewrite (decide_ext (Some ch = Some q) (ch = q)) in Hhand by (split; congruence).
      unfold lf_gs, lf_memory in *. simpl in *. lia.
Qed.

Lemma life_run g x i pc sh log l :
  lf_gs l !! g = Some x →
  send_step c g (g_ctx x) (g_prepared x) i (g_pc x) (w_shared (lf_world l)) = Some (pc, sh, log) →
  tracker_wf (tracker_of sh) → life_inv l →
  life_inv {| lf_world := {| w_shared := sh; w_gs := <[g := at_pc pc x]> (lf_gs l) |};
              lf_closers := lf_closers l;
              lf_lost := λ q, (lf_lost l q + counting_on q (displaced i (g_pc x) (lf_memory l)))%nat |}.
Proof.
  intros Hg Hs Hwf Hinv. pose proof (send_step_tame _ _ _ _ _ _ _ _ _ Hs) as Ht.
  assert (Hnone : ∀ q, (lf_lost l q + counting_on q ∅ = lf_lost l q)%nat)
    by (intros q; apply Nat.add_0_r).
  destruct (g_pc x) as [| | | | | | | | | |p tx|p tx ch pd| | | | |] eqn:Hpc.
  11: { cbv zeta in Ht. change (senderKey (SenderKey (g_prepared x))) with (g_key x) in Ht.
    destruct (Chains.reserveLocked _ _ _ _ _ _) as [ch cs] eqn:Hr. destruct Ht as (Hn & Hcs & Hm).
    by eapply life_note. }
  11: { destruct Ht as (Hn & Ht & Hm). pose proof (life_remember i g x p tx ch pd pc sh l) as Hrem.
    rewrite Hpc in Hrem. by apply Hrem. }
  all: destruct Ht as (Hn & Htame & Hm); apply life_run_tame; try done; by rewrite Hpc.
Qed.

(** ** The closings *)

(** What is to be checked of a step of a closing. *)
Lemma life_close_inv g x pc s lost l :
  lf_closers l !! g = Some x → life_inv l →
  let l' := {| lf_world := set_service s (lf_world l);
               lf_closers := <[g := {| cl_hash := cl_hash x; cl_pc := pc |}]> (lf_closers l);
               lf_lost := lost |} in
  (∀ k ch, owned ch k (lf_tracker l) → owned ch k (sv_tracker s)) →
  (∀ key p, pc = Releasing key p → owned p key (sv_tracker s)) →
  (∀ q, (Chains.fresh (chs (sv_tracker s)) ≤ q)%nat → lost q = 0%nat) →
  (∀ h e p, sv_memory s !! h = Some e → e_chain e = Some p → settled e = true →
     (lf_memory l !! h = Some e ∧ (h = cl_hash x → ∀ r, cl_pc x ≠ Taking r)) ∨
     (h = cl_hash x ∧ ∃ r, pc = Taking r)) →
  in_flight_inv (elsewhere_held l') s → life_inv l'.
Proof.
  intros Hg Hinv l' Hkeep Hnew Hlost Hclosing Hflight. constructor; [done|apply (li_key _ Hinv)|..|done|].
  - intros g' y ch Hy Hn. apply Hkeep. by eapply (li_owned _ Hinv).
  - simpl. intros g' y key p [[<- <-]|[_ Hy]]%lookup_insert_Some Hn; [by apply Hnew|].
    apply Hkeep. by eapply (li_back _ Hinv).
  - intros h e p He Hp Hs. simpl.
    destruct (Hclosing h e p He Hp Hs) as [[Hold Hno]|[-> [r ->]]].
    + destruct (li_closing _ Hinv h e p Hold Hp Hs) as (g' & y & r & Hy & Hh & Hpc).
      exists g', y, r. split; [|done]. rewrite lookup_insert_ne; [done|]. intros <-.
      rewrite Hg in Hy. simplify_eq. by eapply Hno.
    + eexists g, _, r. split; [apply lookup_insert_eq|done].
Qed.

Lemma claim_keeps h m h' e' :
  (claimSettled h m).2 !! h' = Some e' →
  ∃ e, m !! h' = Some e ∧ e_chain e = e_chain e' ∧ e_senderKey e = e_senderKey e' ∧
    (e = e' ∨ h' = h ∧ (claimSettled h m).1 = true).
Proof.
  unfold claimSettled. destruct (m !! h) as [e|] eqn:He; simpl; [|by eauto 8].
  destruct (settled e); simpl; [by eauto 8|].
  intros [[<- <-]|[_ Hl]]%lookup_insert_Some; [|by eauto 8]. exists e. split_and!; auto.
Qed.

Lemma claim_counts q h m : counting_on q (claimSettled h m).2 = counting_on q m.
Proof.
  unfold claimSettled. destruct (m !! h) as [e|] eqn:He; simpl; [|done].
  destruct (settled e); [done|]. pose proof (counting_on_update q h e (mark_settled e) m He) as Hc.
  simpl in *. lia.
Qed.

(** A step of a closing that has no place before or after, and touches none. *)
Lemma life_close_tame g x pc s lost l :
  lf_closers l !! g = Some x → life_inv l → returning (cl_pc x) = None → returning pc = None →
  (∀ r, cl_pc x ≠ Taking r) →
  tracker_wf (sv_tracker s) → tame (lf_tracker l) (sv_tracker s) → sv_memory s = lf_memory l →
  (∀ q, lost q = lf_lost l q) →
  life_inv {| lf_world := set_service s (lf_world l);
              lf_closers := <[g := {| cl_hash := cl_hash x; cl_pc := pc |}]> (lf_closers l);
              lf_lost := lost |}.
Proof.
  intros Hg Hinv Hx Hpc Hno Hwf Htame Hm Hlost. apply life_close_inv; try done.
  - intros k ch. by apply owned_tame.
  - intros key p ->. done.
  - intros q Hq. rewrite Hlost. apply (li_lost _ Hinv). destruct Htame as [Hf _]. etransitivity; [exact Hf|done].
  - intros h e p He _ _. left. rewrite <-Hm. split; [done|]. auto.
  - eapply in_flight_ext; [eapply in_flight_tame; [apply (li_flight _ Hinv)|done..]| |done|done].
    intros q. unfold elsewhere_held. simpl. rewrite Hlost.
    pose proof (in_return_step (lf_closers l) g x {| cl_hash := cl_hash x; cl_pc := pc |} q Hg) as Hret.
    cbn [cl_pc] in Hret. rewrite Hx, Hpc, !decide_False in Hret by done. unfold lf_gs in *. simpl. lia.
Qed.

Lemma life_claim g x r l :
  lf_closers l !! g = Some x → cl_pc x = Claiming r → life_inv l →
  let '(won, m) := claimSettled (cl_hash x) (lf_memory l) in
  life_inv {| lf_world := set_service (with_memory m (lf_service l)) (lf_world l);
              lf_closers := <[g := {| cl_hash := cl_hash x;
                                      cl_pc := if won then Taking r else Closed |}]> (lf_closers l);
              lf_lost := λ q, (lf_lost l q + 0)%nat |}.
Proof.
  intros Hg Hx Hinv. pose proof (claim_keeps (cl_hash x) (lf_memory l)) as Hkeeps.
  pose proof (λ q, claim_counts q (cl_hash x) (lf_memory l)) as Hcounts.
  destruct (claimSettled (cl_hash x) (lf_memory l)) as [won m]. simpl in Hkeeps, Hcounts.
  apply life_close_inv; try done.
  - intros key p. by destruct won.
  - intros q Hq. rewrite Nat.add_0_r. by apply (li_lost _ Hinv).
  - intros h e p He Hp Hs. destruct (Hkeeps h e He) as (e0 & He0 & _ & _ & [<-|[-> ->]]); [left|right; eauto].
    split; [done|]. intros _ r'. by rewrite Hx.
  - eapply in_flight_memory; [apply (li_flight _ Hinv)|..].
    + intros h e p He Hp. destruct (Hkeeps h e He) as (e0 & He0 & Hc0 & Hk0 & _).
      exists e0. split_and!; [done|congruence|done].
    + intros _ q _. rewrite Hcounts. unfold elsewhere_held. simpl.
      pose proof (in_return_step (lf_closers l) g x
        {| cl_hash := cl_hash x; cl_pc := if won then Taking r else Closed |} q Hg) as Hret.
      rewrite Hx in Hret. cbn [cl_pc returning] in Hret.
      assert (returning (if won then Taking r else Closed) = None) as Hn by by destruct won.
      rewrite Hn, !decide_False in Hret by done. unfold lf_memory, lf_gs in *. simpl in *. lia.
Qed.

(** Where the place of an entry goes when it is taken: on its way back, or nowhere. *)
Definition after_take (key : string) (chain : option nat) (r : bool) : close_pc :=
  match chain with
  | Some p => if bool_decide (key = "") || r then Closed else Releasing key p
  | None => Closed
  end.

Lemma after_take_releasing key chain r key' p :
  after_take key chain r = Releasing key' p → key' = key ∧ chain = Some p ∧ r = false.
Proof.
  unfold after_take. destruct chain as [p'|]; [|done].
  destruct (bool_decide (key = "")), r; simpl; intros; by simplify_eq.
Qed.

(** On the chain in force, the place taken is on its way back or abandoned. *)
Lemma take_accounts l g x r q k :
  lf_closers l !! g = Some x → cl_pc x = Taking r → life_inv l →
  Chains.senders (chs (lf_tracker l)) !! k = Some q →
  let '(key, chain, m) := takeChain (cl_hash x) (lf_memory l) in
  counting_on q (lf_memory l) =
    (counting_on q m +
     ((if decide (returning (after_take key chain r) = Some q) then 1 else 0) +
      (if decide (abandoned (cl_hash x) (Taking r) (lf_service l) = Some q) then 1 else 0)))%nat.
Proof.
  intros Hg Hx Hinv Hk. unfold takeChain, abandoned.
  change (sv_memory (lf_service l)) with (lf_memory l).
  destruct (lf_memory l !! cl_hash x) as [e|] eqn:He; simpl; [|by destruct r; simpl; lia].
  pose proof (counting_on_update q (cl_hash x) e (without_chain e) (lf_memory l) He) as Hc.
  rewrite (decide_False (P := e_chain (without_chain e) = Some q)) in Hc by done.
  destruct (e_chain e) as [p|] eqn:Hp; simpl; [|simpl in Hc; destruct r; simpl; lia].
  destruct (if_entry _ _ (li_flight _ Hinv) _ e p He Hp) as (Hkey & _ & Hown).
  rewrite bool_decide_false by done. destruct r; simpl; [|repeat case_decide; simplify_eq; lia].
  destruct (decide (p = q)) as [->|Hne].
  - pose proof (Hown k Hk) as ->. rewrite (decide_True (P := Some q = Some q)) in Hc by done.
    unfold lf_tracker, lf_service in *. rewrite (decide_True (P := _ !! e_senderKey e = Some q)) by done.
    rewrite decide_True by done. lia.
  - rewrite decide_False in Hc by congruence. rewrite (decide_False (P := (if decide _ then _ else _) = _)); [lia|].
    case_decide; congruence.
Qed.

Lemma life_take g x r l :
  lf_closers l !! g = Some x → cl_pc x = Taking r → life_inv l →
  let '(key, chain, m) := takeChain (cl_hash x) (lf_memory l) in
  life_inv {| lf_world := set_service (with_memory m (lf_service l)) (lf_world l);
              lf_closers := <[g := {| cl_hash := cl_hash x; cl_pc := after_take key chain r |}]>
                              (lf_closers l);
              lf_lost := λ q, (lf_lost l q +
                (if decide (abandoned (cl_hash x) (Taking r) (lf_service l) = Some q) then 1 else 0))%nat |}.
Proof.
  intros Hg Hx Hinv. pose proof (λ q k, take_accounts l g x r q k Hg Hx Hinv) as Hcounts.
  pose proof (li_flight _ Hinv) as Hflight.
  assert (Hm : takeChain (cl_hash x) (lf_memory l) =
    match lf_memory l !! cl_hash x with
    | None => ("", None, lf_memory l)
    | Some e => (e_senderKey e, e_chain e, <[cl_hash x := without_chain e]> (lf_memory l))
    end) by done.
  destruct (takeChain (cl_hash x) (lf_memory l)) as [[key chain] m].
  cbv beta iota in Hcounts. set (lost := abandoned (cl_hash x) (Taking r) (lf_service l)) in *.
  assert (Hentry : ∀ h e p, m !! h = Some e → e_chain e = Some p →
    h ≠ cl_hash x ∧ lf_memory l !! h = Some e).
  { intros h e p He Hp. destruct (lf_memory l !! cl_hash x) as [e0|] eqn:He0; simplify_eq.
    - apply lookup_insert_Some in He as [[_ <-]|[? He]]; [done|by split].
    - split; [|done]. intros ->. congruence. }
  assert (Hown : ∀ p, chain = Some p → owned p key (lf_tracker l)).
  { intros p ->. destruct (lf_memory l !! cl_hash x) as [e0|] eqn:He0; simplify_eq.
    by destruct (if_entry _ _ Hflight _ e0 p He0) as (_ & ? & ?). }
  apply life_close_inv; try done.
  - intros key' p (-> & Hc & _)%after_take_releasing. by apply Hown.
  - intros q Hq. rewrite (li_lost _ Hinv q Hq), decide_False; [done|].
    unfold lost, abandoned. destruct r; [|done]. intros Ha.
    change (sv_memory (lf_service l)) with (lf_memory l) in Ha.
    destruct (lf_memory l !! cl_hash x) as [e0|] eqn:He0; [|done]. simpl in Ha. simplify_eq.
    destruct (e_chain e0) as [p|] eqn:Hp; [|done]. simpl in Ha. case_decide; [|done]. simplify_eq.
    destruct (Hown q eq_refl) as [? _]. change (sv_tracker _) with (lf_tracker l) in Hq. lia.
  - intros h e p He Hp Hs. destruct (Hentry h e p He Hp). by left.
  - eapply in_flight_memory; [exact Hflight|..].
    + intros h e p He Hp. destruct (Hentry h e p He Hp) as [_ Hold]. by exists e.
    + intros k q Hk. unfold elsewhere_held. simpl. change (sv_memory _) with (lf_memory l).
      rewrite (Hcounts q k Hk).
      pose proof (in_return_step (lf_closers l) g x
        {| cl_hash := cl_hash x; cl_pc := after_take key chain r |} q Hg) as Hret.
      rewrite Hx in Hret. cbn [cl_pc returning] in Hret.
      rewrite (decide_False (P := None = Some q)) in Hret by done.
      unfold lf_gs. simpl. lia.
Qed.

Lemma life_release now g x key p l :
  lf_closers l !! g = Some x → cl_pc x = Releasing key p → life_inv l →
  life_inv {| lf_world := set_service (with_tracker (releaseChain cfg now key (Some p) (lf_tracker l))
                                         (lf_service l)) (lf_world l);
              lf_closers := <[g := {| cl_hash := cl_hash x; cl_pc := Closed |}]> (lf_closers l);
              lf_lost := λ q, (lf_lost l q + 0)%nat |}.
Proof.
  intros Hg Hx Hinv. pose proof (li_back _ Hinv g x key p Hg Hx) as Hown.
  apply life_close_inv; try done.
  - intros k ch. apply owned_release.
  - intros q Hq. rewrite Nat.add_0_r. apply (li_lost _ Hinv). etransitivity; [|exact Hq].
    simpl. apply release_fresh.
  - intros h e p' He _ _. left. split; [done|]. intros _ r. by rewrite Hx.
  - eapply in_flight_release; [apply (li_flight _ Hinv)|exact Hown|].
    intros q. unfold elsewhere_held. simpl.
    pose proof (in_return_step (lf_closers l) g x {| cl_hash := cl_hash x; cl_pc := Closed |} q Hg) as Hret.
    rewrite Hx in Hret. cbn [cl_pc returning] in Hret.
    rewrite (decide_False (P := None = Some q)) in Hret by done.
    rewrite (decide_ext (Some p = Some q) (p = q)) in Hret by (split; congruence).
    unfold lf_gs. simpl. lia.
Qed.

Lemma life_close now g x pc s l :
  lf_closers l !! g = Some x →
  close_step now (cl_hash x) (cl_pc x) (lf_service l) = Some (pc, s) →
  tracker_wf (sv_tracker s) → life_inv l →
  life_inv {| lf_world := set_service s (lf_world l);
              lf_closers := <[g := {| cl_hash := cl_hash x; cl_pc := pc |}]> (lf_closers l);
              lf_lost := λ q, (lf_lost l q +
                (if decide (abandoned (cl_hash x) (cl_pc x) (lf_service l) = Some q) then 1 else 0))%nat |}.
Proof.
  intros Hg Hs Hwf Hinv. destruct (cl_pc x) as [[|k bad] r|r|r|key p|] eqn:Hx; cbn [close_step] in Hs;
    [| | | | |done].
  - simplify_eq. apply life_close_tame; [done|done|by rewrite Hx|done|by rewrite Hx|done|by apply tame_same|done|].
    intros q. apply Nat.add_0_r.
  - simplify_eq. apply life_close_tame; [done|done|by rewrite Hx|done|by rewrite Hx|done|by apply forget_tame|done|].
    intros q. apply Nat.add_0_r.
  - pose proof (life_claim g x r l Hg Hx Hinv) as Hc. unfold lf_memory in Hc.
    destruct (claimSettled _ _) as [won m]. by simplify_eq.
  - pose proof (life_take g x r l Hg Hx Hinv) as Hc. unfold lf_memory in Hc.
    destruct (takeChain _ _) as [[key chain] m]. injection Hs as <- <-. exact Hc.
  - simplify_eq. by apply life_release.
Qed.

Lemma life_inv_step l l' : life_step l l' → tracker_wf (lf_tracker l') → life_inv l → life_inv l'.
Proof.
  destruct 1 as [g ctx prepared l Hg Hn Hk|g x i pc sh log l Hg Hs|g h bad r l Hg|now g x pc s l Hg Hs|
    now ctx h l m|t q gas l Ht]; intros Hwf Hinv;
    [|by eapply life_run| |by eapply life_close|..]; destruct Hinv as [Hflight Hkey Hown Hback Hlost Hclosing].
  - constructor; try done.
    + eapply in_flight_ext; [exact Hflight| |done|done]. intros q. unfold elsewhere_held, in_hand, lf_gs in *.
      simpl. by rewrite count_if_new.
    + unfold lf_gs at 1. simpl. intros g' y [[<- <-]|[_ Hy]]%lookup_insert_Some; [done|by eapply Hkey].
    + unfold lf_gs at 1. simpl. intros g' y ch [[<- <-]|[_ Hy]]%lookup_insert_Some Hny; [done|by eapply Hown].
  - constructor; try done.
    + eapply in_flight_ext; [exact Hflight| |done|done]. intros q. unfold elsewhere_held, in_return.
      simpl. by rewrite count_if_new.
    + simpl. intros g' y key p [[<- <-]|[_ Hy]]%lookup_insert_Some Hny; [done|by eapply Hback].
    + intros h' e p He Hp Hset. destruct (Hclosing h' e p He Hp Hset) as (g' & y & r' & Hy & ? & ?).
      exists g', y, r'. split; [|done]. simpl. rewrite lookup_insert_ne; [done|]. by intros <-; rewrite Hg in Hy.
  - assert (m ⊆ lf_memory l) as Hsub by apply recall_subseteq.
    constructor; try done.
    + eapply in_flight_ext; [by apply in_flight_forget_entries| |done|done].
      intros q. unfold elsewhere_held, lf_gs, lf_memory. simpl. lia.
    + intros q Hq. simpl. rewrite (Hlost q Hq). apply count_if_none. intros h' e He Hq'.
      apply lookup_difference_Some in He as [He _].
      destruct (if_entry _ _ Hflight h' e q He Hq') as (_ & Hlt & _).
      change (lf_tracker _) with (lf_tracker l) in Hq. unfold lf_tracker in Hq. lia.
    + intros h' e p He. apply Hclosing. by eapply lookup_weaken.
  - pose proof (meanwhile_tame _ _ Ht) as Htame. constructor; try done.
    + by eapply in_flight_tame; [exact Hflight|..].
    + intros g x ch Hg Hx. eapply owned_tame; [exact Htame|by eapply Hown].
    + intros g x key p Hg Hx. eapply owned_tame; [exact Htame|by eapply Hback].
    + intros q' Hq. apply Hlost. destruct Htame as [Hf _]. etransitivity; [exact Hf|done].
Qed.

Lemma life_reachable l : rtc life_step life0 l → rtc (world_step c) world0 (lf_world l) ∧ life_inv l.
Proof.
  intros Hr. split; [by apply (life_worlds life0)|].
  apply (rtc_preserves life_step (λ l, rtc (world_step c) world0 (lf_world l) ∧ life_inv l) life0) in Hr;
    [by destruct Hr| |split; [done|apply life_start]].
  intros a b Hab [Ha Hinv]. assert (rtc (world_step c) world0 (lf_world b)) as Hb.
  { destruct (life_world _ _ Hab) as [->|]; [done|by eapply rtc_r]. }
  split; [done|]. eapply life_inv_step; [done| |done].
  destruct (world_reachable c _ Hb) as [Hw _]. apply Hw.
Qed.

(** Only inside the global lock is a place in the hands of a goroutine. *)
Lemma in_hand_relay w p :
  rtc (world_step c) world0 w → sh_relay (w_shared w) = None → in_hand (w_gs w) p = 0%nat.
Proof.
  intros Hr Hfree. apply count_if_none. intros g x Hg Hx.
  destruct (world_relay c w Hr) as [Hrel _].
  assert (sh_relay (w_shared w) = Some g) as Hsome; [|congruence].
  apply Hrel. exists x. split; [done|]. by destruct (g_pc x).
Qed.

(** The metatx of a chain that are not closed. *)
Definition open_on (p : nat) (m : memory) : nat := count_if (λ e, e_chain e = Some p ∧ settled e = false) m.

(** When nobody is half way, the memory accounts for everything but what was lost. *)
Lemma account_at_rest l key p :
  rtc (world_step c) world0 (lf_world l) → life_inv l →
  Chains.senders (chs (lf_tracker l)) !! key = Some p →
  sh_relay (w_shared (lf_world l)) = None → (∀ g x, lf_closers l !! g = Some x → cl_pc x = Closed) →
  Chains.pending (Chains.at_ (chs (lf_tracker l)) p) = Z.of_nat (open_on p (lf_memory l) + lf_lost l p).
Proof.
  intros Hr Hinv Hp Hfree Hclosed. etransitivity; [exact (if_count _ _ (li_flight _ Hinv) key p Hp)|]. f_equal.
  unfold elsewhere_held. change (lf_gs l) with (w_gs (lf_world l)). rewrite (in_hand_relay _ p Hr Hfree).
  replace (in_return (lf_closers l) p) with 0%nat; [|symmetry; apply count_if_none; intros g x Hg;
    by rewrite (Hclosed g x Hg)].
  f_equal. apply count_if_ext. intros h e He. split; [|by intros [? _]].
  intros Hq. split; [done|]. destruct (settled e) eqn:Hs; [|done].
  destruct (li_closing _ Hinv h e p He Hq Hs) as (g & x & r & Hg & _ & Hx). by rewrite (Hclosed g x Hg) in Hx.
Qed.

(** (C11) While everything runs at once, no place in flight is unaccounted for. However the goroutines
    that send interleave with those that close -- claiming, taking the chain out of the memory and
    giving the place back are apart -- and with evictions, expired entries, forgotten and
    expired chains and timers, the number on the chain in force of a user is that of
    the metatx the memory has on it, all of them his, plus the places a sender has taken and not yet
    remembered, those on their way back, and those lost: so none is given back twice. A closed metatx still
    holds a place only while its closing is about to take it; when the global lock is free and no closing
    is half way, the count is that of the metatx that are not closed, and of the lost. *)
Theorem in_flight_while_all_runs (l : life) (Hreach : rtc life_step life0 l) :
  let t := lf_tracker l in
  let m := lf_memory l in
  ∀ key p, Chains.senders (chs t) !! key = Some p →
    Chains.pending (Chains.at_ (chs t) p) =
      Z.of_nat (counting_on p m + (in_hand (lf_gs l) p + in_return (lf_closers l) p + lf_lost l p)) ∧
    (∀ h e, m !! h = Some e → e_chain e = Some p → e_senderKey e = key ∧
       (settled e = true →
        ∃ g x r, lf_closers l !! g = Some x ∧ cl_hash x = h ∧ cl_pc x = Taking r)) ∧
    (sh_relay (w_shared (lf_world l)) = None → (∀ g x, lf_closers l !! g = Some x → cl_pc x = Closed) →
       Chains.pending (Chains.at_ (chs t) p) = Z.of_nat (open_on p m + lf_lost l p)).
Proof.
  intros t m key p Hp. destruct (life_reachable l Hreach) as [Hr Hinv].
  pose proof Hinv as [[_ Hentry Hcount] _ _ _ _ Hclosing]. pose proof (Hcount key p Hp) as Hpend.
  assert (Hmine : ∀ h e, m !! h = Some e → e_chain e = Some p → e_senderKey e = key ∧ (settled e = true →
    ∃ g x r, lf_closers l !! g = Some x ∧ cl_hash x = h ∧ cl_pc x = Taking r)).
  { intros h e He Hq. destruct (Hentry h e p He Hq) as (_ & _ & Hown).
    split; [symmetry; by apply Hown|by eapply Hclosing]. }
  split_and!; [done|done|]. intros Hfree Hclosed. by apply (account_at_rest l key p).
Qed.

(** ** A closing that is not interrupted *)

(** The senders that the hub rejected, in the order of the events of a receipt. *)
Definition bad_sender (lg : Log) : option string :=
  match event_of lg with
  | Some BadTransactionSent => Some (senderKey (address_Hex (badTransactionErrorCode (lg_Data lg)).2))
  | _ => None
  end.

Definition bad_senders (rc : Receipt) : list string := omap bad_sender (rc_Logs rc).

Definition forget_all (bad : list string) (t : Tracker) : Tracker := foldl (λ t k, forgetChain k t) t bad.

Lemma scan_forgets ctx h logs o f t o' f' t' log :
  scan (read_event ctx h) logs o f t = (Returns (o', f'), t', log) →
  t' = forget_all (omap bad_sender logs) t ∧
  o_hubRejected o' = o_hubRejected o || negb (bool_decide (omap bad_sender logs = [])).
Proof.
  revert o f t o' f' t' log. induction logs as [|lg logs IH]; intros o f t o' f' t' log; cbn [scan].
  { simpl. intros [= <- <- <- <-]. by rewrite orb_false_r. }
  change (omap bad_sender (lg :: logs)) with
    (match bad_sender lg with Some k => k :: omap bad_sender logs | None => omap bad_sender logs end).
  set (bad := omap bad_sender logs) in *. unfold bad_sender.
  destruct (event_of lg) as [e|]; [|apply IH].
  destruct (read_event ctx h e lg o t) as [[[o1|] t1] log1] eqn:Hread; [|done].
  destruct (scan (read_event ctx h) logs o1 (see e f) t1) as [[r t2] log2] eqn:Hscan.
  intros [= -> -> <-]. destruct (IH _ _ _ _ _ _ _ Hscan) as [-> Hrej]. rewrite Hrej.
  destruct e; cbn [read_event] in Hread.
  - simplify_eq. by split.
  - destruct (transactionRelayedFailed (lg_Data lg)) as [executed output].
    destruct executed; [by simplify_eq|]. destruct (decodeRevertReason output); by simplify_eq.
  - unfold rejected_by_hub in Hread. destruct (badTransactionErrorCode (lg_Data lg)) as [code sender].
    simplify_eq/=. split; [done|]. by rewrite orb_true_r.
  - simplify_eq. by split.
  - simplify_eq. by split.
Qed.

Lemma readHubEvents_forgets ctx h rc t o t' log :
  readHubEvents ctx h (Some rc) t = (Returns o, t', log) →
  t' = forget_all (bad_senders rc) t ∧ o_hubRejected o = negb (bool_decide (bad_senders rc = [])).
Proof.
  unfold readHubEvents.
  destruct (scan (read_event ctx h) (rc_Logs rc) no_outcome nothing_seen t) as [[[[o1 f1]|] t1] log1] eqn:Hs;
    [|done].
  intros [= <- <- <-]. destruct (scan_forgets _ _ _ _ _ _ _ _ _ _ Hs) as [-> Hr]. split; [done|].
  etransitivity; [|exact Hr]. unfold finish. by repeat case_match.
Qed.

(** A step of a closing when nobody else moves. *)
Definition alone (now : Z) (h : hash) (x y : close_pc * Service) : Prop :=
  close_step now h x.1 x.2 = Some y.

Lemma reading_alone now h bad r s :
  rtc (alone now h) (Reading bad r, s) (Claiming r, with_tracker (forget_all bad (sv_tracker s)) s).
Proof.
  revert s. induction bad as [|k bad IH]; intros s.
  - apply rtc_once. unfold alone. simpl. by destruct s.
  - eapply rtc_l; [reflexivity|]. apply (IH (with_tracker (forgetChain k (sv_tracker s)) s)).
Qed.

Lemma closing_alone now h r s :
  rtc (alone now h) (Claiming r, s)
    (Closed, let '(won, m) := claimSettled h (sv_memory s) in
             if negb won then s else releaseSent c now h r (with_memory m s)).
Proof.
  destruct (claimSettled h (sv_memory s)) as [won m] eqn:Hc.
  apply (rtc_l _ _ (if won then Taking r else Closed, with_memory m s));
    [unfold alone; cbn [fst snd close_step]; by rewrite Hc|].
  destruct won; cbn [negb].
  2:{ replace (with_memory m s) with s; [done|]. unfold claimSettled in Hc.
      repeat case_match; simplify_eq. by destruct s. }
  clear Hc. set (s1 := with_memory m s). destruct (takeChain h (sv_memory s1)) as [[key chain] m1] eqn:Ht.
  apply (rtc_l _ _ (after_take key chain r, with_memory m1 s1));
    [unfold alone; cbn [fst snd close_step]; by rewrite Ht|].
  unfold releaseSent, after_take. rewrite Ht. destruct chain as [p|]; [|done].
  simpl. destruct (bool_decide (key = "")); [done|]. destruct r; [done|]. by apply rtc_once.
Qed.

(** (C13) The critical sections of a closing, one after the other with nobody in between, are the closing
    of the code: from the receipt of the metatx they do what reading the hub's events and [settle] do, and
    from a deadline that has passed, what the expiry of the watcher does. They never stop before the
    end. *)
Theorem closing_steps_implement_settle (duration_String : Z → string) (now : Z) (ctx : context)
    (mt : inFlightMetaTx) (rc : Receipt) (bn : option Z) (gu : string) (cause : option error) (s : Service) :
  (∀ o t log, readHubEvents ctx (fl_hash mt) (Some rc) (sv_tracker s) = (Returns o, t, log) →
     rtc (alone now (fl_hash mt)) (Reading (bad_senders rc) (negb (bool_decide (bad_senders rc = []))), s)
       (Closed, (settle c now ctx (fl_hash mt) bn gu o (with_tracker t s)).1)) ∧
  (receiptTimeout c ≤ now - fl_sentAt mt →
     rtc (alone now (fl_hash mt)) (Reading [] false, s)
       (Closed, (expireOne c duration_String now ctx mt cause s).1)) ∧
  (∀ pc h s', pc ≠ Closed → is_Some (close_step now h pc s')).
Proof.
  split_and!.
  - intros o t log Hread. apply readHubEvents_forgets in Hread as [-> Hrej]. rewrite <-Hrej.
    etransitivity; [apply reading_alone|].
    pose proof (closing_alone now (fl_hash mt) (o_hubRejected o)
      (with_tracker (forget_all (bad_senders rc) (sv_tracker s)) s)) as Hc.
    unfold settle. destruct (claimSettled _ _) as [[] m]; exact Hc.
  - intros Hdue. etransitivity; [apply reading_alone|].
    pose proof (closing_alone now (fl_hash mt) false s) as Hc. unfold expireOne.
    destruct (Z.ltb_spec (now - fl_sentAt mt) (receiptTimeout c)); [lia|].
    replace (with_tracker (forget_all [] (sv_tracker s)) s) with s by by destruct s.
    destruct (claimSettled _ _) as [[] m]; exact Hc.
  - intros pc h s' Hpc. destruct pc as [[|k bad] r|r|r|key p|]; simpl; try done.
    + by destruct (claimSettled h (sv_memory s')).
    + by destruct (takeChain h (sv_memory s')) as [[? ?] ?].
Qed.

(** ** When nothing is lost *)

(** A step in which the memory gives up no entry, what goes out has a hash that is
    new, and the hub rejects a metatx that is remembered and names its sender. *)
Record careful (l l' : life) : Prop := {
  ca_step : life_step l l';
  ca_kept : ∀ h e, lf_memory l !! h = Some e → is_Some (lf_memory l' !! h);
  ca_new : ∀ g x p tx ch pd, lf_gs l !! g = Some x → g_pc x = AtRemember p tx ch pd →
    lf_memory l !! tx_Hash tx = None;
  ca_named : ∀ g x bad, lf_closers l !! g = None → lf_closers l' !! g = Some x →
    cl_pc x = Reading bad true → ∃ e, lf_memory l !! cl_hash x = Some e ∧ e_senderKey e ∈ bad;
}.

(** The entries stay, with their place or without. *)
Definition entries_stay (m m' : memory) : Prop :=
  ∀ h e, m !! h = Some e →
    ∃ e', m' !! h = Some e' ∧ e_senderKey e' = e_senderKey e ∧ (e_chain e' = e_chain e ∨ e_chain e' = None).

(** No chain comes back. *)
Definition fades (t t' : Tracker) : Prop := Chains.grows (chs t) (chs t').

Lemma entries_stay_refl m : entries_stay m m.
Proof. intros h e He. eauto. Qed.

Lemma tame_fades t t' : tame t t' → fades t t'.
Proof. intros [Hf Hs]. split; [done|]. intros k p Hk. left. by apply Hs. Qed.

Lemma kept_nothing_gone q m m' : (∀ h e, m !! h = Some e → is_Some (m' !! h)) → counting_on q (m ∖ m') = 0%nat.
Proof.
  intros Hkept. apply count_if_none. intros h e [He Hn]%lookup_difference_Some.
  destruct (Hkept h e He) as [? ?]. congruence.
Qed.

Lemma recall_stays now ctx h m :
  (∀ h' e, m !! h' = Some e → is_Some ((recallMetaTx now ctx h m).2 !! h')) →
  entries_stay m (recallMetaTx now ctx h m).2.
Proof.
  intros Hkept h' e He. destruct (Hkept h' e He) as [e' He']. exists e'.
  pose proof (lookup_weaken _ _ _ _ He' (recall_subseteq now ctx h m)). by simplify_eq; auto.
Qed.

(** A step of a send, on the entries, the chains and what is lost. *)
Lemma send_step_stays g ctx prepared i pc w pc' w' log :
  send_step c g ctx prepared i pc w = Some (pc', w', log) →
  let m := sv_memory (sh_service w) in
  let m' := sv_memory (sh_service w') in
  (∀ h e, m !! h = Some e → is_Some (m' !! h)) →
  (∀ p tx ch pd, pc = AtRemember p tx ch pd → m !! tx_Hash tx = None) →
  entries_stay m m' ∧ fades (tracker_of w) (tracker_of w') ∧
  ∀ q, counting_on q (displaced i pc m) = 0%nat.
Proof.
  intros Hs m m' Hkept Hnew. pose proof (send_step_tame _ _ _ _ _ _ _ _ _ Hs) as Ht.
  assert (Hnone : ∀ q, counting_on q ∅ = 0%nat) by done.
  destruct pc as [| | | | | | | | | |p tx|p tx ch pd| | | | |].
  11: { cbv zeta in Ht.
    pose proof (Chains.reserveLocked_grows cfg (in_now (si_await i)) (senderKey (SenderKey prepared))
      (Nonce prepared) true (chs (tracker_of w))) as Hr.
    destruct (Chains.reserveLocked _ _ _ _ _ _) as [ch cs]. destruct Ht as (_ & <- & Hm).
    unfold m, m'. rewrite Hm. split_and!; [apply entries_stay_refl|exact Hr|done]. }
  11: { destruct Ht as (_ & Ht & Hm). specialize (Hnew _ _ _ _ eq_refl). cbn [displaced].
    unfold rememberMetaTx in Hm. rewrite andb_false_r in Hm.
    assert (Hold : ∀ h e, m !! h = Some e → h ≠ tx_Hash tx ∧
      evictLocked (in_now (si_await i)) (si_order i) m !! h = Some e).
    { intros h e He. assert (h ≠ tx_Hash tx) as Hne by (intros ->; by rewrite Hnew in He). split; [done|].
      destruct (Hkept h e He) as [e' He']. unfold m' in He'. rewrite Hm, lookup_insert_ne in He' by done.
      assert (m !! h = Some e') as Hw by (eapply lookup_weaken; [exact He'|apply evict_subseteq]).
      rewrite He in Hw. by simplify_eq. }
    split_and!.
    - intros h e He. destruct (Hold h e He) as [Hne Hin]. exists e. unfold m'.
      rewrite Hm, lookup_insert_ne by done. auto.
    - rewrite Ht. by apply tame_fades, tame_same.
    - intros q. apply kept_nothing_gone. intros h e He. destruct (Hold h e He) as [Hne Hin].
      rewrite lookup_delete_ne by done. by eexists. }
  all: destruct Ht as (_ & Ht & Hm); unfold m, m'; rewrite Hm;
    split_and!; [apply entries_stay_refl|by apply tame_fades|done].
Qed.

Lemma close_step_stays now h pc pc' s s' :
  close_step now h pc s = Some (pc', s') →
  entries_stay (sv_memory s) (sv_memory s') ∧ fades (sv_tracker s) (sv_tracker s').
Proof.
  intros Hs. destruct pc as [[|k bad] r|r|r|key p|]; cbn [close_step] in Hs; [..|done].
  - simplify_eq. split; [apply entries_stay_refl|by apply tame_fades, tame_same].
  - simplify_eq. split; [apply entries_stay_refl|apply tame_fades, forget_tame].
  - unfold claimSettled in Hs.
    destruct (sv_memory s !! h) as [e|] eqn:He; [destruct (settled e)|]; simplify_eq/=;
      (split; [|by apply tame_fades, tame_same]); try apply entries_stay_refl.
    intros h' e' He'. rewrite lookup_insert. case_decide; simplify_eq; eauto.
  - unfold takeChain in Hs. destruct (sv_memory s !! h) as [e|] eqn:He; simplify_eq/=;
      (split; [|by apply tame_fades, tame_same]); [|apply entries_stay_refl].
    intros h' e' He'. rewrite lookup_insert. case_decide; simplify_eq; eauto.
  - simplify_eq/=. split; [apply entries_stay_refl|]. unfold fades, releaseChain.
    destruct (Chains.release cfg now key (Some p) _) as [cs|] eqn:Hr; [|apply Chains.grows_refl].
    by eapply Chains.release_grows.
Qed.

(** The chain of an entry is not in force. *)
Definition off_chain (e : metaTxEntry) (t : Tracker) : Prop :=
  ∀ p, e_chain e = Some p → Chains.senders (chs t) !! e_senderKey e ≠ Some p.

(** From its reading on, the closing of a rejected metatx has its chain among those to be forgotten, or
    forgotten already. *)
Definition rejection_named (m : memory) (t : Tracker) (x : closer) : Prop :=
  match cl_pc x with
  | Reading bad true => ∃ e, m !! cl_hash x = Some e ∧ (e_senderKey e ∈ bad ∨ off_chain e t)
  | Claiming true | Taking true => ∃ e, m !! cl_hash x = Some e ∧ off_chain e t
  | _ => True
  end.

Definition owned_entries (m : memory) (t : Tracker) : Prop :=
  ∀ h e p, m !! h = Some e → e_chain e = Some p → (p < Chains.fresh (chs t))%nat.

Lemma off_chain_stays e e' t t' :
  fades t t' → (∀ p, e_chain e = Some p → (p < Chains.fresh (chs t))%nat) →
  e_senderKey e' = e_senderKey e → (e_chain e' = e_chain e ∨ e_chain e' = None) →
  off_chain e t → off_chain e' t'.
Proof.
  intros Hf Hlt Hk Hc Hoff p Hp Hin. destruct Hc as [Hc|Hc]; [|congruence].
  rewrite Hk in Hin. rewrite Hc in Hp. specialize (Hlt p Hp).
  destruct (proj2 Hf _ _ Hin) as [Hold|Hge]; [by apply (Hoff p Hp)|lia].
Qed.

Lemma rejection_named_stays m m' t t' x :
  entries_stay m m' → fades t t' → owned_entries m t →
  rejection_named m t x → rejection_named m' t' x.
Proof.
  intros Hm Hf Hown. unfold rejection_named.
  destruct (cl_pc x) as [bad []|[]|[]| |]; try done;
    intros (e & He & Hx); destruct (Hm _ _ He) as (e' & He' & Hk & Hc); exists e'; (split; [done|]).
  - destruct Hx as [Hx|Hx]; [left; by rewrite Hk|right]. eapply off_chain_stays; eauto.
  - eapply off_chain_stays; eauto.
  - eapply off_chain_stays; eauto.
Qed.

(** The closing that takes the step. *)
Lemma rejection_named_step now h pc pc' s s' :
  close_step now h pc s = Some (pc', s') →
  owned_entries (sv_memory s) (sv_tracker s) →
  rejection_named (sv_memory s) (sv_tracker s) {| cl_hash := h; cl_pc := pc |} →
  rejection_named (sv_memory s') (sv_tracker s') {| cl_hash := h; cl_pc := pc' |}.
Proof.
  intros Hs Hown. destruct (close_step_stays _ _ _ _ _ _ Hs) as [Hm Hf].
  unfold rejection_named. cbn [cl_pc cl_hash].
  destruct pc as [[|k bad] r|r|r|key p|]; cbn [close_step] in Hs; [..|done].
  - simplify_eq/=. destruct r; [|done]. intros (e & He & [Hin|Hoff]); [by apply not_elem_of_nil in Hin|eauto].
  - simplify_eq/=. destruct r; [|done]. intros (e & He & Hx). exists e. split; [done|].
    destruct Hx as [[<-|Hin]%elem_of_cons|Hoff]; [right|by left|right].
    + intros p _. simpl. by rewrite Chains.forget_gone.
    + eapply off_chain_stays; [exact Hf|intros p; by eapply Hown|done|by left|done].
  - destruct (claimSettled h (sv_memory s)) as [won m'] eqn:Hc. simplify_eq.
    destruct won; [|done]. destruct r; [|done]. intros (e & He & Hoff).
    destruct (Hm _ _ He) as (e' & He' & Hk & Hc'). exists e'. split; [done|].
    by eapply off_chain_stays; [exact Hf|intros p; by eapply Hown| | |].
  - destruct (takeChain h (sv_memory s)) as [[key chain] m']. simplify_eq. by repeat case_match.
  - by simplify_eq.
Qed.

(** Nothing lost so far, and every rejection named. *)
Record nothing_lost (l : life) : Prop := {
  nl_lost : ∀ q, lf_lost l q = 0%nat;
  nl_named : ∀ g x, lf_closers l !! g = Some x → rejection_named (lf_memory l) (lf_tracker l) x;
}.

Lemma named_abandons_nothing m s x :
  rejection_named (sv_memory s) (sv_tracker s) x → m = sv_memory s →
  abandoned (cl_hash x) (cl_pc x) s = None.
Proof.
  unfold rejection_named, abandoned. intros Hx ->. destruct (cl_pc x) as [| |[]| |]; try done.
  destruct Hx as (e & He & Hoff). rewrite He. simpl. destruct (e_chain e) as [p|] eqn:Hp; [|done]. simpl.
  rewrite decide_False; [done|]. by apply Hoff.
Qed.

Lemma nothing_lost_step l l' :
  careful l l' → life_inv l → nothing_lost l → nothing_lost l'.
Proof.
  intros [Hstep Hkept Hnew Hnamed] Hinv [Hlost Hrej].
  assert (Hown : owned_entries (lf_memory l) (lf_tracker l)).
  { intros h e p He Hp. by destruct (if_entry _ _ (li_flight _ Hinv) h e p He Hp) as (_ & ? & _). }
  assert (Hstay : entries_stay (lf_memory l) (lf_memory l') → fades (lf_tracker l) (lf_tracker l') →
    ∀ g x, lf_closers l !! g = Some x → rejection_named (lf_memory l') (lf_tracker l') x).
  { intros Hm Hf g x Hg. eapply rejection_named_stays; eauto. }
  destruct Hstep as [g ctx prepared l Hg Hn Hk|g x i pc sh log l Hg Hs|g h bad r l Hg|now g x pc s l Hg Hs|
    now ctx h l m|t q gas l Ht].
  - by constructor.
  - destruct (send_step_stays _ _ _ _ _ _ _ _ _ Hs Hkept (λ p tx ch pd, Hnew g x p tx ch pd Hg))
      as (Hm & Hf & Hgone).
    constructor; [|by apply Hstay]. intros q. simpl. rewrite Hlost. apply Hgone.
  - constructor; [done|]. cbn [lf_closers]. intros g' x [[<- <-]|[_ Hx]]%lookup_insert_Some; [|by apply (Hrej g')].
    destruct r; [|done]. destruct (Hnamed g _ bad Hg (lookup_insert_eq _ _ _) eq_refl) as (e & He & Hin).
    exists e. split; [done|by left].
  - destruct (close_step_stays _ _ _ _ _ _ Hs) as [Hm Hf]. constructor.
    + intros q. simpl. rewrite Hlost.
      rewrite (named_abandons_nothing _ _ x (Hrej g x Hg) eq_refl), decide_False by done. done.
    + cbn [lf_closers]. intros g' y [[<- <-]|[_ Hy]]%lookup_insert_Some; [|by eapply Hstay].
      eapply rejection_named_step; [exact Hs|exact Hown|]. specialize (Hrej g x Hg). by destruct x.
  - constructor.
    + intros q. simpl. rewrite Hlost. by apply kept_nothing_gone.
    + apply Hstay; [by apply recall_stays|]. by apply tame_fades, tame_same.
  - constructor; [done|]. apply Hstay; [apply entries_stay_refl|]. by apply tame_fades, meanwhile_tame.
Qed.

(** (C12) A place is lost in three ways only. As long as the memory gives up no entry -- it is not full
    and nobody looks at one that has expired --, no metatx goes out under a hash that is already
    remembered, and the hub rejects metatx that are remembered and names their senders, no place is
    lost however everything interleaves: when the global lock is free and no closing is
    half way, the count in flight of a user is the number of his metatx that are not closed, and it is zero when
    all are. *)
Theorem careful_runs_lose_nothing (l : life) (Hreach : rtc careful life0 l) :
  (∀ p, lf_lost l p = 0%nat) ∧
  ∀ key p, Chains.senders (chs (lf_tracker l)) !! key = Some p →
    sh_relay (w_shared (lf_world l)) = None → (∀ g x, lf_closers l !! g = Some x → cl_pc x = Closed) →
    Chains.pending (Chains.at_ (chs (lf_tracker l)) p) = Z.of_nat (open_on p (lf_memory l)) ∧
    ((∀ h e, lf_memory l !! h = Some e → settled e = true) →
     Chains.pending (Chains.at_ (chs (lf_tracker l)) p) = 0).
Proof.
  assert (Hall : rtc life_step life0 l ∧ nothing_lost l).
  { apply (rtc_preserves careful (λ l, rtc life_step life0 l ∧ nothing_lost l) life0) in Hreach; [done|..].
    - intros a b Hab [Ha Hn]. split; [eapply rtc_r; [done|apply Hab]|].
      eapply nothing_lost_step; [done| |done]. by apply life_reachable.
    - split; [done|]. constructor; [done|]. intros g x. simpl. by rewrite lookup_empty. }
  destruct Hall as [Hr [Hlost _]]. split; [done|]. intros key p Hp Hfree Hclosed.
  assert (Hpend : Chains.pending (Chains.at_ (chs (lf_tracker l)) p) = Z.of_nat (open_on p (lf_memory l))).
  { destruct (life_reachable l Hr) as [Hw Hinv]. rewrite (account_at_rest l key p Hw Hinv Hp Hfree Hclosed), Hlost.
    by rewrite Nat.add_0_r. }
  split; [done|]. intros Hset. etransitivity; [exact Hpend|].
  replace (open_on p (lf_memory l)) with 0%nat; [done|]. symmetry. apply count_if_none.
  intros h e He [_ Hs]. by rewrite (Hset h e He) in Hs.
Qed.

(** ** Runs that can be evaluated *)

Inductive move :=
  | Arrive (g : nat) (ctx : context) (prepared : PreparedMetaTx)
  | Send (g : nat) (i : send_input)
  | Begin (g : nat) (h : hash) (bad : list string) (rejected : bool)
  | Close (g : nat) (now : Z).

Definition nonce_u64_b (prepared : PreparedMetaTx) : bool :=
  (0 <=? Nonce prepared) && (Nonce prepared <? 2 ^ 64).

Definition play (mv : move) (l : life) : option life :=
  match mv with
  | Arrive g ctx prepared =>
      if bool_decide (lf_gs l !! g = None) && nonce_u64_b prepared
         && negb (bool_decide (senderKey (SenderKey prepared) = ""))
      then Some {| lf_world := arrives g ctx prepared (lf_world l); lf_closers := lf_closers l;
                   lf_lost := lf_lost l |}
      else None
  | Send g i =>
      x ← lf_gs l !! g;
      '(pc, sh, _) ← send_step c g (g_ctx x) (g_prepared x) i (g_pc x) (w_shared (lf_world l));
      Some {| lf_world := {| w_shared := sh; w_gs := <[g := at_pc pc x]> (lf_gs l) |};
              lf_closers := lf_closers l;
              lf_lost := λ q, (lf_lost l q + counting_on q (displaced i (g_pc x) (lf_memory l)))%nat |}
  | Begin g h bad rejected =>
      if bool_decide (lf_closers l !! g = None)
      then Some {| lf_world := lf_world l;
                   lf_closers := <[g := {| cl_hash := h; cl_pc := Reading bad rejected |}]> (lf_closers l);
                   lf_lost := lf_lost l |}
      else None
  | Close g now =>
      x ← lf_closers l !! g;
      '(pc, s) ← close_step now (cl_hash x) (cl_pc x) (lf_service l);
      Some {| lf_world := set_service s (lf_world l);
              lf_closers := <[g := {| cl_hash := cl_hash x; cl_pc := pc |}]> (lf_closers l);
              lf_lost := λ q, (lf_lost l q +
                (if decide (abandoned (cl_hash x) (cl_pc x) (lf_service l) = Some q) then 1 else 0))%nat |}
  end.

Lemma play_step mv l l' : play mv l = Some l' → life_step l l'.
Proof.
  destruct mv as [g ctx prepared|g i|g h bad r|g now]; cbn [play].
  - destruct (bool_decide _) eqn:Hg; [|done]. destruct (nonce_u64_b prepared) eqn:Hn; [|done].
    destruct (bool_decide (_ = "")) eqn:Hk; [done|]. intros [= <-].
    apply l_arrive; [by apply bool_decide_eq_true in Hg| |by apply bool_decide_eq_false in Hk].
    unfold nonce_u64_b in Hn. apply andb_true_iff in Hn as [?%Z.leb_le ?%Z.ltb_lt]. by split.
  - destruct (lf_gs l !! g) as [x|] eqn:Hg; [|done]. simpl.
    destruct (send_step _ _ _ _ _ _ _) as [[[pc sh] log]|] eqn:Hs; [|done]. simpl. intros [= <-].
    by eapply l_run.
  - destruct (bool_decide _) eqn:Hg; [|done]. intros [= <-]. apply l_closer.
    by apply bool_decide_eq_true in Hg.
  - destruct (lf_closers l !! g) as [x|] eqn:Hg; [|done]. simpl.
    destruct (close_step _ _ _ _) as [[pc s]|] eqn:Hs; [|done]. simpl. intros [= <-]. by eapply l_close.
Qed.

(** The conditions of a careful step, evaluated. *)
Definition keeps (m m' : memory) : bool :=
  bool_decide (map_Forall (λ h _, is_Some (m' !! h)) m).

Definition new_hash (m : memory) (x : goroutine) : bool :=
  match g_pc x with AtRemember _ tx _ _ => bool_decide (m !! tx_Hash tx = None) | _ => true end.

Definition named (m : memory) (mv : move) : bool :=
  match mv with
  | Begin _ h bad true =>
      match m !! h with Some e => bool_decide (e_senderKey e ∈ bad) | None => false end
  | _ => true
  end.

Fixpoint play_all (mvs : list move) (l : life) : option life :=
  match mvs with
  | [] => Some l
  | mv :: mvs =>
      l' ← play mv l;
      if keeps (lf_memory l) (lf_memory l')
         && bool_decide (map_Forall (λ _ x, new_hash (lf_memory l) x = true) (lf_gs l))
         && named (lf_memory l) mv
      then play_all mvs l' else None
  end.

Lemma play_named mv l l' g x bad :
  play mv l = Some l' → named (lf_memory l) mv = true → lf_closers l !! g = None →
  lf_closers l' !! g = Some x → cl_pc x = Reading bad true →
  ∃ e, lf_memory l !! cl_hash x = Some e ∧ e_senderKey e ∈ bad.
Proof.
  intros Hp Hn Hg Hx Hpc. destruct mv as [g' ctx prepared|g' i|g' h bad' r|g' now]; cbn [play] in Hp.
  - repeat case_match; simplify_eq/=; congruence.
  - destruct (lf_gs l !! g') as [y|]; [|done]. simpl in Hp.
    destruct (send_step _ _ _ _ _ _ _) as [[[pc sh] log]|]; [|done]. simplify_eq/=; congruence.
  - case_match; [|done]. simplify_eq/=. apply lookup_insert_Some in Hx as [[_ <-]|[_ Hx]]; [|congruence].
    simpl in *. simplify_eq. destruct (lf_memory l !! h) as [e|]; [|done].
    exists e. split; [done|]. by apply bool_decide_eq_true in Hn.
  - destruct (lf_closers l !! g') as [y|] eqn:Hy; [|done]. simpl in Hp.
    destruct (close_step _ _ _ _) as [[pc s]|]; [|done]. simplify_eq/=.
    apply lookup_insert_Some in Hx as [[-> _]|[_ Hx]]; congruence.
Qed.

Lemma play_all_careful mvs l l' : play_all mvs l = Some l' → rtc careful l l'.
Proof.
  revert l. induction mvs as [|mv mvs IH]; intros l; simpl; [by intros [= <-]|].
  destruct (play mv l) as [l1|] eqn:Hp; [|done]. simpl.
  destruct (_ && _ && _) eqn:Hb; [|done]. apply andb_true_iff in Hb as [[Hk Hn]%andb_true_iff Hm].
  intros Hr. apply (rtc_l _ _ l1); [|by apply IH].
  apply bool_decide_eq_true in Hk. apply bool_decide_eq_true in Hn. constructor.
  - by eapply play_step.
  - exact Hk.
  - intros g x p tx ch pd Hg Hx. specialize (Hn g x Hg). simpl in Hn. unfold new_hash in Hn.
    rewrite Hx in Hn. by apply bool_decide_eq_true in Hn.
  - intros g x bad Hg Hx Hpc. by eapply play_named.
Qed.

Lemma careful_lives l l' : rtc careful l l' → rtc life_step l l'.
Proof. induction 1 as [|a b d Hab _ IH]; [done|]. eapply rtc_l; [apply Hab|done]. Qed.

(** Where a run ends. *)
Definition played (mvs : list move) : life := default life0 (play_all mvs life0).

Lemma played_careful mvs : is_Some (play_all mvs life0) → rtc careful life0 (played mvs).
Proof.
  intros [l Hp]. unfold played. rewrite Hp. by eapply play_all_careful.
Qed.
End InFlight.

#[local] Existing Instances sample_unicode sample_geth sample_eth sample_errors sample_hub.

(** A metatx of a user is sent, and then closed. *)
Definition sending : list move := Arrive 0 sample_ctx sample_prepared :: replicate 16 (Send 0 sample_input).

Definition closing (bad : list string) (rejected : bool) : list move :=
  Begin 0 sent_hash bad rejected :: replicate (4 + length bad - (if rejected then 1 else 0)) (Close 0 9).

Definition sample_run : list move := sending ++ closing [] false.
Definition after (n : nat) : life := played sample_config (take n sample_run).
Definition rejected_run : life := played sample_config (sending ++ closing ["0xab"] true).

Definition in_force (l : life) : option nat := Chains.senders (chs (lf_tracker l)) !! "0xab".
Definition count_of (l : life) : Z := Chains.pending (Chains.at_ (chs (lf_tracker l)) 0).

(** In the hands of the sender, on its way back, and back. *)
Lemma in_flight_while_all_runs_witness :
  (count_of (after 15) = Z.of_nat (0 + (1 + 0 + 0)) ∧ in_force (after 15) = Some 0%nat) ∧
  (count_of (after 21) = Z.of_nat (0 + (0 + 1 + 0)) ∧ in_force (after 21) = Some 0%nat) ∧
  (count_of (after 22) = Z.of_nat (0 + (0 + 0 + 0)) ∧ in_force (after 22) = Some 0%nat).
Proof.
  assert (Hrun : ∀ n, is_Some (play_all sample_config (take n sample_run) life0) →
    rtc (life_step sample_config) life0 (after n))
    by (intros n Hn; apply careful_lives, played_careful, Hn).
  split; [|split]; (split; [|vm_compute; reflexivity]).
  - refine (proj1 (in_flight_while_all_runs sample_config (after 15) (Hrun _ _) "0xab" 0 _));
      vm_compute; eauto.
  - refine (proj1 (in_flight_while_all_runs sample_config (after 21) (Hrun _ _) "0xab" 0 _));
      vm_compute; eauto.
  - refine (proj1 (in_flight_while_all_runs sample_config (after 22) (Hrun _ _) "0xab" 0 _));
      vm_compute; eauto.
Defined.

(** A metatx that the hub rejected, with its sender named, and one that it did not. *)
Lemma careful_runs_lose_nothing_witness :
  (base.size (lf_memory rejected_run) = 1%nat ∧ lf_lost rejected_run 0 = 0%nat) ∧
  (in_force (after 22) = Some 0%nat ∧ count_of (after 22) = 0).
Proof.
  assert (is_Some (play_all sample_config (sending ++ closing ["0xab"] true) life0)) as Hrej
    by (vm_compute; eauto).
  assert (is_Some (play_all sample_config (take 22 sample_run) life0)) as Hrun by (vm_compute; eauto).
  split; (split; [vm_compute; reflexivity|]).
  - destruct (careful_runs_lose_nothing sample_config rejected_run (played_careful _ _ Hrej)) as [Hlost _].
    apply Hlost.
  - destruct (careful_runs_lose_nothing sample_config (after 22) (played_careful _ _ Hrun)) as [_ Hcount].
    refine (proj2 (Hcount "0xab" 0%nat _ _ _) _); [vm_compute; reflexivity..| |].
    + refine (bool_decide_unpack (map_Forall (λ _ x, cl_pc x = Closed) (lf_closers (after 22))) _).
      vm_compute. exact I.
    + refine (bool_decide_unpack (map_Forall (λ _ e, settled e = true) (lf_memory (after 22))) _).
      vm_compute. exact I.
Defined.

Lemma closing_steps_implement_settle_witness :
  ∃ s, rtc (alone sample_config (700 * second) sent_hash) (Reading [] false, sent_service) (Closed, s) ∧
    Chains.pending (Chains.at_ (chs (sv_tracker sent_service)) 0) = 1 ∧
    Chains.pending (Chains.at_ (chs (sv_tracker s)) 0) = 0.
Proof.
  pose proof (closing_steps_implement_settle sample_config (λ _, "") (700 * second) background sample_flight
    (failed_receipt []) None "0" None sent_service) as (_ & Hexpired & _).
  eexists. split; [apply Hexpired; vm_compute; discriminate|]. split; vm_compute; reflexivity.
Defined.
