(* ===== verification/Sha3.v ===== *)
(** The tight packing of Solidity values and its hash, [sha3/sha3.go].

    The functions take an [interface{}]; [input] is what one can hold here, with the
    dynamic types the code distinguishes. What [reflect] says of a value (its kind, its
    elements) is written out. Every function can panic, so every one is an [outcome]. *)

From S2P Require Import Prelude GoLib.

(** The integer types of Go that the type switches name. *)
Inductive int_kind :=
  | K_uint64 | K_uint32 | K_uint16 | K_uint8 | K_uint
  | K_int64 | K_int32 | K_int16 | K_int8 | K_int.

#[export] Instance int_kind_eq_dec : EqDecision int_kind.
Proof. solve_decision. Defined.

Inductive input :=
  | IBig (z : Z)
  | IString (s : string)
  | IInt (k : int_kind) (z : Z)
  | IBool (b : bool)
  | IAddress (a : address)
  | IBytes (bs : bytes)
  | IArray (bs : bytes)
  | IStrings (l : list string)
  | IIfaces (vs : list input)
  | ISlice (vs : list input)
  | INil
  | IOther.

(** [math.U256Bytes] of go-ethereum, and the value that [big.Int.SetString] leaves
    when the text is not a number, which its documentation calls undefined. *)
Class BigLib := {
  U256Bytes : Z → bytes;
  undefined_SetString : string → Z;
}.

Class BigLaws `{BigLib} : Prop :=
  u256_bytes_spec z : U256Bytes z = be_bytes 32 (z mod 2 ^ 256).

(** ** [math/big] *)

(** [SetString(s, 10)]: an optional sign and decimal digits. *)
Definition decimal_of (s : string) : option Z :=
  match s with
  | String "-"%char s' => Z.opp <$> parse_digits s'
  | String "+"%char s' => parse_digits s'
  | _ => parse_digits s
  end.

Definition SetString `{BigLib} (s : string) : Z := default (undefined_SetString s) (decimal_of s).

(** [Bytes]: the absolute value, big-endian, without leading zeros; [Uint64]: its low
    64 bits. *)
Definition big_Bytes (z : Z) : bytes :=
  if z =? 0 then [] else be_bytes (Z.to_nat (Z.log2 (Z.abs z) / 8 + 1)) (Z.abs z).

Definition big_Uint64 (z : Z) : Z := u64 (Z.abs z).

Section Sha3.
Context `{Geth} `{BigLib}.

(** [isArray]: [reflect.TypeOf(nil)] has no kind to ask for. *)
Definition isArray (v : input) : outcome bool :=
  match v with
  | INil => Panics "nil reflect.Type"
  | IAddress _ | IBytes _ | IArray _ | IStrings _ | IIfaces _ | ISlice _ => Returns true
  | _ => Returns false
  end.

(** The elements that [reflect] gives of an array or a slice. *)
Definition elements (v : input) : list input :=
  match v with
  | IAddress bs | IBytes bs | IArray bs => IInt K_uint8 <$> bs
  | IStrings l => IString <$> l
  | IIfaces vs | ISlice vs => vs
  | _ => []
  end.

(** The shape that the functions share: the cases of a type switch; the elements one
    after the other when the value is an array; and something else for the rest. *)
Section Shape.
Context (switch : input → option (outcome bytes)) (pad : bytes → bytes) (otherwise : bytes).

Definition leaf (v : input) : outcome bytes :=
  match switch v with Some r => r | None => Returns otherwise end.

Fixpoint shaped (v : input) : outcome bytes :=
  match switch v with
  | Some r => r
  | None =>
      match v with
      | IIfaces vs | ISlice vs => bss ← traverse (λ v, bs ← shaped v; Returns (pad bs)) vs;
                                  Returns (concat bss)
      | IAddress l | IBytes l | IArray l =>
          bss ← traverse (λ b, bs ← leaf (IInt K_uint8 b); Returns (pad bs)) l;
          Returns (concat bss)
      | IStrings l =>
          bss ← traverse (λ s, bs ← leaf (IString s); Returns (pad bs)) l;
          Returns (concat bss)
      | INil => Panics "nil reflect.Type"
      | _ => Returns otherwise
      end
  end.
End Shape.

Definition pad32 (bs : bytes) : bytes := LeftPadBytes bs 32.

(** The text of an address. *)
Definition address_text (v : string) : outcome bytes :=
  let v := trim_prefix "0x" v in
  if bool_decide (v = "") || bool_decide (v = "0") then Returns [0]
  else
    let v := if Nat.odd (String.length v) then "0" +:+ v else v in
    match hex_decode v with
    | (bs, None) => Returns bs
    | (_, Some _) => Panics "encoding/hex"
    end.

Definition Address : input → outcome bytes :=
  shaped (λ v, match v with
    | IAddress a => Some (Returns a)
    | IString s => Some (address_text s)
    | IBytes bs => Some (Returns bs)
    | _ => None
    end) pad32 (HexToAddress "").

Definition Uint256 : input → outcome bytes :=
  shaped (λ v, match v with
    | IBig z => Some (Returns (U256Bytes z))
    | IString s => Some (Returns (U256Bytes (SetString s)))
    | _ => None
    end) pad32 (RightPadBytes [] 32).

Definition Uint128 : input → outcome bytes :=
  shaped (λ v, match v with
    | IBig z => Some (Returns (LeftPadBytes (big_Bytes z) 16))
    | IString s => Some (Returns (LeftPadBytes (big_Bytes (SetString s)) 16))
    | _ => None
    end) pad32 (LeftPadBytes [] 16).

(** [binary.Write] and [binary.BigEndian.Put...]: the low bytes of the number, in two's
    complement. *)
Definition fixed_width (n : nat) (v : input) : option (outcome bytes) :=
  match v with
  | IBig z => Some (Returns (be_bytes n (big_Uint64 z)))
  | IString s => Some (Returns (be_bytes n (big_Uint64 (SetString s))))
  | IInt _ z => Some (Returns (be_bytes n z))
  | _ => None
  end.

Definition Uint64 : input → outcome bytes := shaped (fixed_width 8) pad32 (be_bytes 8 0).
Definition Uint32 : input → outcome bytes := shaped (fixed_width 4) pad32 (be_bytes 4 0).
Definition Uint16 : input → outcome bytes := shaped (fixed_width 2) pad32 (be_bytes 2 0).
Definition Uint8 : input → outcome bytes := shaped (fixed_width 1) pad32 (be_bytes 1 0).
Definition Int64 : input → outcome bytes := shaped (fixed_width 8) pad32 (be_bytes 8 0).
Definition Int32 : input → outcome bytes := shaped (fixed_width 4) pad32 (be_bytes 4 0).
Definition Int16 : input → outcome bytes := shaped (fixed_width 2) pad32 (be_bytes 2 0).
Definition Int8 : input → outcome bytes := shaped (fixed_width 1) pad32 (be_bytes 1 0).

(** [big.NewInt(int64(v))] and the absolute value of that. *)
Definition wide_int (n : nat) (v : input) : option (outcome bytes) :=
  match v with
  | IBig z => Some (Returns (LeftPadBytes (big_Bytes z) n))
  | IString s => Some (Returns (LeftPadBytes (big_Bytes (SetString s)) n))
  | IInt _ z => Some (Returns (LeftPadBytes (big_Bytes (i64 z)) n))
  | _ => None
  end.

Definition Int256 : input → outcome bytes := shaped (wide_int 32) pad32 (LeftPadBytes [] 32).
Definition Int128 : input → outcome bytes := shaped (wide_int 16) pad32 (LeftPadBytes [] 16).

Definition isHex (s : string) : bool := has_prefix "0x" s.

Definition Bytes32 (v : input) : bytes :=
  match v with
  | IArray bs => if bool_decide (length bs = 32%nat) then RightPadBytes bs 32 else RightPadBytes [] 32
  | IBytes bs => RightPadBytes bs 32
  | IString s =>
      if isHex s then RightPadBytes (hex_decode (trim_prefix "0x" s)).1 32
      else RightPadBytes (string_bytes s) 32
  | _ => RightPadBytes [] 32
  end.

Definition Bytes16 (v : input) : bytes :=
  match v with
  | IArray bs => if bool_decide (length bs = 16%nat) then RightPadBytes bs 16 else RightPadBytes [] 16
  | IBytes bs => RightPadBytes bs 16
  | IString s => RightPadBytes (string_bytes s) 16
  | _ => RightPadBytes [] 16
  end.

Definition String_ : input → outcome bytes :=
  shaped (λ v, match v with
    | IBytes bs => Some (Returns bs)
    | IString s => Some (Returns (string_bytes s))
    | _ => None
    end) (λ bs, bs) [].

Definition Bool : input → outcome bytes :=
  shaped (λ v, match v with
    | IBool b => Some (Returns [if b then 1 else 0])
    | _ => None
    end) pad32 [0].

(** ** The text of a type

    What the regular expressions capture: the digits of [int<n>] and [uint<n>], those of
    [bytes<n>], and the base and the count of an array. *)

Definition all_digits (s : string) : bool :=
  forallb (λ ch, bool_decide (is_Some (digit_value ch))) (String.list_ascii_of_string s).

Definition number_type (typ : string) : option string :=
  let digits := if has_prefix "uint" typ then Some (trim_prefix "uint" typ)
                else if has_prefix "int" typ then Some (trim_prefix "int" typ) else None in
  match digits with
  | Some d => if all_digits d then Some d else None
  | None => None
  end.

Definition bytes_type (typ : string) : option string :=
  if has_prefix "bytes" typ then
    let d := trim_prefix "bytes" typ in
    if bool_decide (d ≠ "") && all_digits d then Some d else None
  else None.

Fixpoint take_digits (l : list Ascii.ascii) : list Ascii.ascii * list Ascii.ascii :=
  match l with
  | ch :: l' => if bool_decide (is_Some (digit_value ch))
                then let '(d, rest) := take_digits l' in (ch :: d, rest) else ([], l)
  | [] => ([], [])
  end.

(** From the end: a bracket, the digits of the count, a bracket, and the base, which
    has no new line. *)
Definition array_type (typ : string) : option (string * string) :=
  match reverse (String.list_ascii_of_string typ) with
  | "]"%char :: rest =>
      let '(d, rest) := take_digits rest in
      match rest with
      | "["%char :: base =>
          if bool_decide (ascii_of_byte 10 ∈ base) then None
          else Some (String.string_of_list_ascii (reverse base),
                     String.string_of_list_ascii (reverse d))
      | _ => None
      end
  | _ => None
  end.

(** The first of the prefixes that the code tries; none of them, and nothing is
    packed. *)
Definition number_bytes (typ : string) (v : input) : outcome bytes :=
  if has_prefix "int8" typ then Int8 v
  else if has_prefix "int16" typ then Int16 v
  else if has_prefix "int32" typ then Int32 v
  else if has_prefix "int64" typ then Int64 v
  else if has_prefix "int128" typ then Int128 v
  else if has_prefix "int256" typ then Int256 v
  else if has_prefix "uint8" typ then Uint8 v
  else if has_prefix "uint16" typ then Uint16 v
  else if has_prefix "uint32" typ then Uint32 v
  else if has_prefix "uint128" typ then Uint128 v
  else if has_prefix "uint64" typ then Uint64 v
  else if has_prefix "uint256" typ then Uint256 v
  else Returns [].

Definition pack_number (typ digits : string) (v : input) (_isArray : bool) : outcome bytes :=
  match atoi digits with
  | None => Panics "strconv.Atoi"
  | Some size =>
      if negb (size mod 8 =? 0) || (size =? 0) || (256 <? size) then Panics ("invalid number type " +:+ typ)
      else
        let size := if _isArray then 256 else size in
        bs ← number_bytes typ v; Returns (LeftPadBytes bs (Z.to_nat (size / 8)))
  end.

(** [copy] into a slice of zeros of that length. *)
Definition copy_into (n : nat) (bs : bytes) : bytes :=
  take n bs ++ replicate (n - length bs) 0.

(** [s.Index(0).Bytes()]: the first element, when it is a slice of bytes or an array of
    them that is in a slice. *)
Definition first_bytes (v : input) : outcome bytes :=
  match v with
  | ISlice (IBytes bs :: _) | ISlice (IArray bs :: _) | ISlice (IAddress bs :: _) => Returns bs
  | _ => Panics "reflect"
  end.

(** [s.Len()], and each element as a byte. *)
Definition each_byte (v : input) : outcome bytes :=
  is_array ← isArray v;
  if is_array : bool then
    traverse (λ e, match e with
      | IInt K_uint8 b => Returns b
      | _ => Panics "interface conversion"
      end) (elements v)
  else Panics "reflect: Len".

Definition pack_bytes (typ digits : string) (v : input) (_isArray : bool) : outcome bytes :=
  match atoi digits with
  | None => Panics "strconv.Atoi"
  | Some size =>
      if bool_decide (dec_string size ≠ digits) || (size =? 0) || (32 <? size)
      then Panics ("invalid number type " +:+ typ)
      else if _isArray then bs ← first_bytes v; Returns (copy_into 64 bs)
      else
        match v with
        | IString str =>
            if isHex str then
              let s := trim_prefix "0x" str in
              let s := if Nat.odd (String.length s) then "0" +:+ s else s in
              match hex_decode s with
              | (bs, None) => Returns (copy_into (Z.to_nat size) bs)
              | (_, Some _) => Panics "encoding/hex"
              end
            else Panics "reflect: Bytes"
        | _ => bs ← each_byte v; Returns (copy_into (Z.to_nat size) bs)
        end
  end.

(** The length of the text of the type is fuel enough: the base of an array is
    shorter (see [pack_fuel]). *)
Fixpoint pack_fuel (fuel : nat) (typ : string) (v : input) (_isArray : bool) : outcome bytes :=
  let padded (r : outcome bytes) := if _isArray then pad32 <$> r else r in
  if bool_decide (typ = "address") then padded (Address v)
  else if bool_decide (typ = "string") then String_ v
  else if bool_decide (typ = "bool") then padded (Bool v)
  else
    match number_type typ with
    | Some digits => pack_number typ digits v _isArray
    | None =>
        match bytes_type typ with
        | Some digits => pack_bytes typ digits v _isArray
        | None =>
            match array_type typ with
            | None => Returns []
            | Some (baseType, count) =>
                is_array ← isArray v;
                if negb is_array then Returns []
                else
                  let n := Z.of_nat (length (elements v)) in
                  match (if bool_decide (count = "") then Some n else atoi count), fuel with
                  | None, _ => Panics "strconv.Atoi"
                  | Some m, O => Panics "fuel"
                  | Some m, S fuel =>
                      if negb (m =? n) then Panics ("invalid value for " +:+ typ)
                      else
                        bss ← traverse (λ e, pack_fuel fuel baseType e true) (elements v);
                        Returns (concat bss)
                  end
            end
        end
    end.

Definition pack (typ : string) (v : input) (_isArray : bool) : outcome bytes :=
  pack_fuel (String.length typ) typ v _isArray.

Definition Pack (types : list string) (values : list input) : outcome bytes :=
  if negb (length types =? length values)%nat then Panics "type/value count mismatch"
  else bss ← traverse (λ '(typ, v), pack typ v false) (zip types values); Returns (concat bss).

(** [values[i]] for each type. *)
Fixpoint pack_each (types : list string) (values : list input) : outcome (list bytes) :=
  match types, values with
  | [], _ => Returns []
  | _ :: _, [] => Panics "index out of range"
  | typ :: types, v :: values =>
      bs ← pack typ v false; bss ← pack_each types values; Returns (bs :: bss)
  end.

Definition solsha3 (types : list string) (values : list input) : outcome bytes :=
  bss ← pack_each types values; Returns (keccak256 (concat bss)).

Definition solsha3Legacy (data : list bytes) : bytes := keccak256 (concat data).

Definition as_bytes (v : input) : outcome bytes :=
  match v with IBytes bs => Returns bs | _ => Panics "interface conversion" end.

Definition SoliditySHA3 (data : list input) : outcome bytes :=
  let legacy := bss ← traverse as_bytes data; Returns (solsha3Legacy bss) in
  match data with
  | [] => Panics "index out of range"
  | IStrings types :: v :: _ =>
      if (length (tail data) =? length types)%nat then solsha3 types (tail data)
      else match v with IIfaces values => solsha3 types values | _ => legacy end
  | _ => legacy
  end.

Definition signed_prefix (n : nat) : bytes :=
  25 :: string_bytes "Ethereum Signed Message:" ++ [10] ++ string_bytes (dec_string (Z.of_nat n)).

Definition SoliditySHA3WithPrefix (data : bytes) : outcome bytes :=
  SoliditySHA3 [IBytes (signed_prefix (length data) ++ data)].

End Sha3.

(** ** Fuel

    The base of an array is shorter than the array, so a call with the length of its
    type for fuel makes its recursive calls with enough of it. *)

Lemma take_digits_app l : (take_digits l).1 ++ (take_digits l).2 = l.
Proof.
  induction l as [|ch l IH]; [done|]. simpl. case_bool_decide; [|done].
  destruct (take_digits l). simpl in *. by f_equal.
Qed.

Lemma length_string_of_list l : String.length (String.string_of_list_ascii l) = length l.
Proof. induction l; simpl; auto. Qed.

Lemma length_list_of_string s : length (String.list_ascii_of_string s) = String.length s.
Proof. induction s; simpl; auto. Qed.

Lemma array_type_shorter typ base count :
  array_type typ = Some (base, count) → (String.length base < String.length typ)%nat.
Proof.
  unfold array_type. rewrite <-(length_list_of_string typ), <-length_reverse.
  destruct (reverse _) as [|c rest]; [done|].
  destruct (ascii_dec c "]") as [->|Hne].
  2: { intros Hs. exfalso. revert Hs. by destruct c as [[] [] [] [] [] [] [] []]. }
  pose proof (take_digits_app rest) as Happ. destruct (take_digits rest) as [d rest'].
  simpl in Happ. subst rest. destruct rest' as [|c' base']; [done|].
  destruct (ascii_dec c' "[") as [->|Hne].
  2: { intros Hs. exfalso. revert Hs. by destruct c' as [[] [] [] [] [] [] [] []]. }
  case_bool_decide; [done|]. intros [= <- _].
  rewrite length_string_of_list, length_reverse. simpl. rewrite length_app. simpl. lia.
Qed.

Lemma traverse_ext {A B} (f g : A → outcome B) l :
  (∀ x, x ∈ l → f x = g x) → traverse f l = traverse g l.
Proof.
  induction l as [|x l IH]; intros Hfg; [done|]. simpl.
  rewrite Hfg by set_solver. rewrite IH by set_solver. done.
Qed.

Section Fuel.
Context `{Geth} `{BigLib}.

(** What [pack] does of an array, with [rec] for its recursive call. *)
Definition pack_array (rec : string → input → outcome bytes) (typ : string) (v : input) :
    outcome bytes :=
  match array_type typ with
  | None => Returns []
  | Some (baseType, count) =>
      is_array ← isArray v;
      if negb is_array then Returns []
      else
        let n := Z.of_nat (length (elements v)) in
        match (if bool_decide (count = "") then Some n else atoi count) with
        | None => Panics "strconv.Atoi"
        | Some m =>
            if negb (m =? n) then Panics ("invalid value for " +:+ typ)
            else bss ← traverse (rec baseType) (elements v); Returns (concat bss)
        end
  end.

Lemma pack_fuel_enough fuel : ∀ fuel' typ v a,
  (String.length typ ≤ fuel)%nat → (String.length typ ≤ fuel')%nat →
  pack_fuel fuel typ v a = pack_fuel fuel' typ v a.
Proof.
  induction fuel as [|fuel IH]; intros fuel' typ v a Hf Hf'.
  - destruct typ; [|simpl in Hf; lia]. by destruct fuel'.
  - destruct fuel' as [|fuel']; [destruct typ; [done | simpl in Hf'; lia]|]. simpl.
    repeat (case_bool_decide; [done|]).
    destruct (number_type typ); [done|]. destruct (bytes_type typ); [done|].
    destruct (array_type typ) as [[base count]|] eqn:Hat; [|done].
    apply array_type_shorter in Hat.
    destruct (isArray v) as [is_array|]; [|done]. simpl. destruct is_array; [|done]. simpl.
    destruct (if bool_decide (count = "") then _ else _); [|done].
    destruct (negb _); [done|].
    rewrite (traverse_ext _ (λ e, pack_fuel fuel' base e true)); [done|].
    intros e _. apply IH; lia.
Qed.

Lemma pack_array_eq typ v a :
  typ ≠ "address" → typ ≠ "string" → typ ≠ "bool" →
  number_type typ = None → bytes_type typ = None →
  pack typ v a = pack_array (λ base e, pack base e true) typ v.
Proof.
  intros Ha Hs Hb Hn Hy. unfold pack, pack_array.
  destruct (String.length typ) as [|fuel] eqn:Hlen; simpl;
    rewrite !bool_decide_eq_false_2 by done; rewrite Hn, Hy;
    destruct (array_type typ) as [[base count]|] eqn:Hat; try done;
    apply array_type_shorter in Hat; [lia|].
  destruct (isArray v) as [is_array|]; [|done]. simpl. destruct is_array; [|done]. simpl.
  destruct (if bool_decide (count = "") then _ else _); [|done].
  destruct (negb _); [done|]. f_equal. apply traverse_ext. intros e _.
  apply pack_fuel_enough; lia.
Qed.

Lemma pack_number_eq typ digits v a :
  typ ≠ "address" → typ ≠ "string" → typ ≠ "bool" → number_type typ = Some digits →
  pack typ v a = pack_number typ digits v a.
Proof.
  intros Ha Hs Hb Hn. unfold pack.
  destruct (String.length typ); simpl; rewrite !bool_decide_eq_false_2 by done; by rewrite Hn.
Qed.

Lemma pack_bytes_eq typ digits v a :
  typ ≠ "address" → typ ≠ "string" → typ ≠ "bool" →
  number_type typ = None → bytes_type typ = Some digits →
  pack typ v a = pack_bytes typ digits v a.
Proof.
  intros Ha Hs Hb Hn Hy. unfold pack.
  destruct (String.length typ); simpl; rewrite !bool_decide_eq_false_2 by done; by rewrite Hn, Hy.
Qed.

End Fuel.

(** ** Big-endian numbers of a width *)

Lemma be_bytes_mod n z : be_bytes n (z mod 256 ^ Z.of_nat n) = be_bytes n z.
Proof.
  revert z. induction n as [|n IH]; intros z; [done|]. simpl be_bytes.
  rewrite Nat2Z.inj_succ, Z.pow_succ_r by lia.
  assert (z mod (256 * 256 ^ Z.of_nat n) / 256 = (z / 256) mod 256 ^ Z.of_nat n) as ->.
  { rewrite Z.rem_mul_r by lia. rewrite (Z.mul_comm 256), Z.div_add by lia.
    rewrite (Z.div_small (z mod 256)) by (apply Z.mod_pos_bound; lia). lia. }
  rewrite IH. do 2 f_equal. rewrite Z.rem_mul_r by lia.
  rewrite (Z.mul_comm 256), Z.mod_add by lia. apply Z.mod_mod. lia.
Qed.

Lemma be_bytes_leading k n z :
  (k ≤ n)%nat → 0 ≤ z < 256 ^ Z.of_nat k →
  be_bytes n z = replicate (n - k) 0 ++ be_bytes k z.
Proof.
  revert n z. induction k as [|k IH]; intros n z Hkn Hz.
  - assert (z = 0) as -> by (simpl in Hz; lia). rewrite Nat.sub_0_r, app_nil_r. clear.
    induction n as [|n IH]; [done|]. simpl be_bytes.
    rewrite Zdiv_0_l, Zmod_0_l, IH. by rewrite <-replicate_cons_app.
  - destruct n as [|n]; [lia|]. simpl be_bytes. rewrite (IH n); [|lia|].
    + simpl. by rewrite app_assoc.
    + rewrite Nat2Z.inj_succ, Z.pow_succ_r in Hz by lia.
      split; [apply Z.div_pos; lia | apply Z.div_lt_upper_bound; lia].
Qed.

(** The bytes of a number, padded to a width that holds it. *)
Lemma big_Bytes_padded n z :
  0 ≤ z < 256 ^ Z.of_nat n → (0 < n)%nat →
  replicate (n - length (big_Bytes z)) 0 ++ big_Bytes z = be_bytes n z.
Proof.
  intros Hz Hn. unfold big_Bytes. destruct (Z.eqb_spec z 0) as [->|Hne].
  - rewrite (be_bytes_leading 0 n 0); [done | lia | simpl; lia].
  - rewrite Z.abs_eq, length_be_bytes by lia. symmetry. apply be_bytes_leading.
    + assert (Z.log2 z < 8 * Z.of_nat n).
      { apply Z.log2_lt_pow2; [lia|]. rewrite Z.pow_mul_r by lia. apply Hz. }
      assert (Z.log2 z / 8 < Z.of_nat n) by (apply Z.div_lt_upper_bound; lia). lia.
    + rewrite Z2Nat.id by (pose proof (Z.log2_nonneg z); pose proof (Z.div_pos (Z.log2 z) 8); lia).
      split; [lia|]. change 256 with (2 ^ 8). rewrite <-Z.pow_mul_r; [|lia|].
      * apply Z.log2_lt_pow2; [lia|]. pose proof (Z.mul_succ_div_gt (Z.log2 z) 8). lia.
      * pose proof (Z.log2_nonneg z). pose proof (Z.div_pos (Z.log2 z) 8). lia.
Qed.

Lemma length_big_Bytes n z :
  0 ≤ z < 256 ^ Z.of_nat n → (0 < n)%nat → (length (big_Bytes z) ≤ n)%nat.
Proof.
  intros Hz Hn. pose proof (big_Bytes_padded n z Hz Hn) as Heq.
  apply (f_equal length) in Heq. rewrite length_app, length_replicate, length_be_bytes in Heq. lia.
Qed.

Lemma decimal_dec_string z : 0 ≤ z → decimal_of (dec_string z) = Some z.
Proof.
  intros Hz. pose proof (parse_digits_dec_string z Hz) as Hp.
  destruct (dec_string z) as [|ch s]; [done|]. unfold decimal_of.
  destruct (ascii_dec ch "-") as [->|Hm]; [by cbn in Hp|].
  destruct (ascii_dec ch "+") as [->|Hpl]; [by cbn in Hp|].
  by destruct ch as [[] [] [] [] [] [] [] []].
Qed.

Lemma SetString_dec `{BigLib} z : 0 ≤ z → SetString (dec_string z) = z.
Proof. intros Hz. unfold SetString. by rewrite decimal_dec_string. Qed.

(** ** What the packing has to compute

    The values of Solidity that the code handles, the tight encoding that the language
    defines for them ([abi.encodePacked]), and the Go values that stand for each. *)

Inductive sol_value :=
  | SAddress (a : address)
  | SString (s : string)
  | SBool (b : bool)
  | SUint (n : nat) (z : Z)
  | SInt (n : nat) (z : Z)
  | SBytes (n : nat) (bs : bytes).

Definition type_name (v : sol_value) : string :=
  match v with
  | SAddress _ => "address"
  | SString _ => "string"
  | SBool _ => "bool"
  | SUint n _ => "uint" +:+ dec_string (8 * Z.of_nat n)
  | SInt n _ => "int" +:+ dec_string (8 * Z.of_nat n)
  | SBytes n _ => "bytes" +:+ dec_string (Z.of_nat n)
  end.

(** Numbers in two's complement, most significant byte first. *)
Definition encode_packed (v : sol_value) : bytes :=
  match v with
  | SAddress a => a
  | SString s => string_bytes s
  | SBool b => [if b then 1 else 0]
  | SUint n z | SInt n z => be_bytes n z
  | SBytes _ bs => bs
  end.

(** The widths the code has a case for; a signed number of 128 or 256 bits is taken by
    its absolute value, so only those that are not negative are covered. *)
Definition sol_ok (v : sol_value) : Prop :=
  match v with
  | SAddress a => length a = 20%nat
  | SString _ | SBool _ => True
  | SUint n z => n ∈ [1; 2; 4; 8; 16; 32]%nat ∧ 0 ≤ z < 256 ^ Z.of_nat n
  | SInt n z => (n ∈ [1; 2; 4; 8]%nat ∧ - 2 ^ (8 * Z.of_nat n - 1) ≤ z < 2 ^ (8 * Z.of_nat n - 1))
                ∨ (n ∈ [16; 32]%nat ∧ 0 ≤ z < 2 ^ (8 * Z.of_nat n - 1))
  | SBytes n bs => (1 ≤ n ≤ 32)%nat ∧ length bs = n
  end.

Inductive holds : sol_value → input → Prop :=
  | holds_address a : holds (SAddress a) (IAddress a)
  | holds_address_bytes a : holds (SAddress a) (IBytes a)
  | holds_address_text s a :
      hex_decode (trim_prefix "0x" s) = (a, None) → holds (SAddress a) (IString s)
  | holds_string s : holds (SString s) (IString s)
  | holds_string_bytes s : holds (SString s) (IBytes (string_bytes s))
  | holds_bool b : holds (SBool b) (IBool b)
  | holds_uint_big n z : holds (SUint n z) (IBig z)
  | holds_uint_text n z : holds (SUint n z) (IString (dec_string z))
  | holds_uint n k z : (n ≤ 8)%nat → holds (SUint n z) (IInt k z)
  | holds_int_big n z : 0 ≤ z → holds (SInt n z) (IBig z)
  | holds_int_text n z : 0 ≤ z → holds (SInt n z) (IString (dec_string z))
  | holds_int n k z : (n ≤ 8)%nat ∨ 0 ≤ z < 2 ^ 63 → holds (SInt n z) (IInt k z)
  | holds_bytes n bs : holds (SBytes n bs) (IBytes bs)
  | holds_bytes_array n bs : holds (SBytes n bs) (IArray bs)
  | holds_bytes_text n s bs :
      hex_decode s = (bs, None) → holds (SBytes n bs) (IString ("0x" +:+ s)).

Lemma hex_decode_length s bs :
  hex_decode s = (bs, None) → String.length s = (2 * length bs)%nat.
Proof.
  revert bs. induction s as [s IH] using (induction_ltof1 _ String.length). unfold ltof in IH.
  intros bs. destruct s as [|p [|q s]]; cbn -[Nat.mul].
  - by intros [= <-].
  - by destruct (hex_value p).
  - destruct (hex_value p); [|done]. destruct (hex_value q); [|done].
    specialize (IH s). destruct (hex_decode s) as [bs' e].
    intros [= <- ->]. specialize (IH ltac:(cbn; lia) _ eq_refl). rewrite IH. simpl. lia.
Qed.

Section Packing.
Context `{GethLaws} `{BigLaws}.

Lemma pad_exact bs n : length bs = n → LeftPadBytes bs n = bs.
Proof. intros <-. by rewrite left_pad_spec, Nat.sub_diag. Qed.

Lemma copy_exact bs n : length bs = n → copy_into n bs = bs.
Proof. intros <-. unfold copy_into. by rewrite Nat.sub_diag, app_nil_r, firstn_all. Qed.

Lemma each_byte_elements bs :
  traverse (λ e, match e with IInt K_uint8 b => Returns b | _ => Panics "interface conversion" end)
    (IInt K_uint8 <$> bs) = Returns bs.
Proof. induction bs as [|b bs IH]; [done|]. csimpl. by rewrite IH. Qed.

(** A number of at most eight bytes, whatever Go type holds it. *)
Lemma fixed_width_number n z v :
  (1 ≤ n ≤ 8)%nat → - 2 ^ 64 < z < 2 ^ 64 →
  (v = IBig z ∧ 0 ≤ z) ∨ (v = IString (dec_string z) ∧ 0 ≤ z) ∨ (∃ k, v = IInt k z) →
  shaped (fixed_width n) pad32 (be_bytes n 0) v = Returns (be_bytes n z).
Proof.
  intros Hn Hz [[-> Hp]|[[-> Hp]|[k ->]]]; simpl; [| |done];
    rewrite ?SetString_dec by done; unfold big_Uint64;
    by rewrite Z.abs_eq, u64_small by lia.
Qed.

(** One of the two wide types, from a number that is not negative. *)
Lemma wide_number n z :
  (0 < n)%nat → 0 ≤ z < 256 ^ Z.of_nat n → LeftPadBytes (big_Bytes z) n = be_bytes n z.
Proof. intros Hn Hz. rewrite left_pad_spec. by apply big_Bytes_padded. Qed.

Lemma wide_int_number n z v :
  (0 < n)%nat → 0 ≤ z < 256 ^ Z.of_nat n →
  v = IBig z ∨ v = IString (dec_string z) ∨ (∃ k, v = IInt k z ∧ z < 2 ^ 63) →
  shaped (wide_int n) pad32 (LeftPadBytes [] n) v = Returns (be_bytes n z).
Proof.
  intros Hn Hz [->|[->|(k & -> & Hk)]]; simpl;
    rewrite ?SetString_dec, ?i64_small by lia; by rewrite wide_number.
Qed.
End Packing.

(** The names of the types, read back by the regular expressions. *)
Lemma uint_name n :
  n ∈ [1; 2; 4; 8; 16; 32]%nat →
  number_type (type_name (SUint n 0)) = Some (dec_string (8 * Z.of_nat n)).
Proof. intros Hn. repeat (apply elem_of_cons in Hn as [->|Hn]; [by vm_compute|]). set_solver. Qed.

Lemma int_name n :
  n ∈ [1; 2; 4; 8; 16; 32]%nat →
  number_type (type_name (SInt n 0)) = Some (dec_string (8 * Z.of_nat n)).
Proof. intros Hn. repeat (apply elem_of_cons in Hn as [->|Hn]; [by vm_compute|]). set_solver. Qed.

Lemma bytes_name n :
  (1 ≤ n ≤ 32)%nat →
  let typ := type_name (SBytes n []) in
  number_type typ = None ∧ bytes_type typ = Some (dec_string (Z.of_nat n)) ∧
  atoi (dec_string (Z.of_nat n)) = Some (Z.of_nat n).
Proof.
  intros Hn. assert (n ∈ seq 1 32) as Hin by (apply elem_of_seq; lia). clear Hn. revert n Hin.
  apply Forall_forall. repeat (constructor; [by vm_compute|]). constructor.
Qed.

Lemma width_atoi n :
  n ∈ [1; 2; 4; 8; 16; 32]%nat → atoi (dec_string (8 * Z.of_nat n)) = Some (8 * Z.of_nat n).
Proof. intros Hn. repeat (apply elem_of_cons in Hn as [->|Hn]; [by vm_compute|]). set_solver. Qed.

Section Tight.
Context `{GethLaws} `{BigLaws}.

(** Padding a number to the width of its type, or to a word inside an array. *)
Lemma pack_number_width typ n v bs a :
  n ∈ [1; 2; 4; 8; 16; 32]%nat → number_bytes typ v = Returns bs →
  pack_number typ (dec_string (8 * Z.of_nat n)) v a =
    Returns (LeftPadBytes bs (if a : bool then 32 else n)).
Proof.
  intros Hn Hbs. unfold pack_number. rewrite width_atoi by done.
  assert ((8 * Z.of_nat n) mod 8 =? 0 = true) as ->.
  { apply Z.eqb_eq. rewrite Z.mul_comm. apply Z.mod_mul. lia. }
  assert (n ≤ 32 ∧ 1 ≤ n)%nat as Hb by (repeat (apply elem_of_cons in Hn as [->|Hn]; [lia|]); set_solver).
  assert (8 * Z.of_nat n =? 0 = false) as -> by lia.
  assert (256 <? 8 * Z.of_nat n = false) as -> by lia. simpl. rewrite Hbs. simpl.
  do 2 f_equal. destruct a; [done|]. rewrite Z.mul_comm, Z.div_mul by lia. lia.
Qed.

Lemma uint_bytes n z v :
  sol_ok (SUint n z) → holds (SUint n z) v →
  number_bytes (type_name (SUint n z)) v = Returns (be_bytes n z).
Proof.
  intros [Hn Hz] Hv.
  repeat (apply elem_of_cons in Hn as [->|Hn]);
    [..|set_solver];
    match goal with |- number_bytes ?t _ = _ =>
      let t' := eval vm_compute in t in change t with t' end;
    unfold number_bytes; cbn -[be_bytes].
  1-4: apply fixed_width_number; [lia | lia |]; inversion Hv; subst; naive_solver lia.
  - inversion Hv; subst; [| |lia]; cbn -[be_bytes LeftPadBytes];
      rewrite ?SetString_dec by lia; by rewrite wide_number by lia.
  - inversion Hv; subst; [| |lia]; cbn -[be_bytes];
      rewrite ?SetString_dec, u256_bytes_spec by lia; by rewrite Z.mod_small by lia.
Qed.

Lemma int_bytes n z v :
  sol_ok (SInt n z) → holds (SInt n z) v →
  number_bytes (type_name (SInt n z)) v = Returns (be_bytes n z).
Proof.
  intros [[Hn Hz]|[Hn Hz]] Hv;
  repeat (apply elem_of_cons in Hn as [->|Hn]);
    [..|set_solver| | |set_solver];
    match goal with |- number_bytes ?t _ = _ =>
      let t' := eval vm_compute in t in change t with t' end;
    unfold number_bytes; cbn -[be_bytes].
  1-4: apply fixed_width_number; [lia | lia |]; inversion Hv; subst; naive_solver lia.
  1-2: apply wide_int_number; [lia | lia |]; inversion Hv; subst; naive_solver lia.
Qed.
End Tight.

(** ** The packing *)

Section PackSpec.
Context `{GethLaws} `{BigLaws}.

Lemma number_type_not typ d :
  number_type typ = Some d → typ ≠ "address" ∧ typ ≠ "string" ∧ typ ≠ "bool".
Proof. intros Hd. split_and!; intros ->; by vm_compute in Hd. Qed.

Lemma bytes_type_not typ d :
  bytes_type typ = Some d → typ ≠ "address" ∧ typ ≠ "string" ∧ typ ≠ "bool".
Proof. intros Hd. split_and!; intros ->; by vm_compute in Hd. Qed.

Lemma address_text_tight s a :
  hex_decode (trim_prefix "0x" s) = (a, None) → length a = 20%nat →
  address_text s = Returns a.
Proof.
  intros Hs Ha. unfold address_text. pose proof (hex_decode_length _ _ Hs) as Hlen.
  rewrite Ha in Hlen. destruct (decide (trim_prefix "0x" s = "")) as [E|E]; [by rewrite E in Hlen|].
  destruct (decide (trim_prefix "0x" s = "0")) as [E'|E']; [by rewrite E' in Hlen|].
  rewrite !bool_decide_eq_false_2 by done. rewrite Hlen. simpl. by rewrite Hs.
Qed.

Lemma address_tight a i :
  length a = 20%nat → holds (SAddress a) i → Address i = Returns a.
Proof.
  intros Ha Hi. inversion Hi; subst; [done | done |]. simpl. by apply address_text_tight.
Qed.

Lemma bytes_tight n bs i :
  sol_ok (SBytes n bs) → holds (SBytes n bs) i →
  pack (type_name (SBytes n bs)) i false = Returns bs.
Proof.
  intros [Hn Hlen] Hi. destruct (bytes_name n Hn) as (Hnum & Hby & Hat).
  change (type_name (SBytes n [])) with (type_name (SBytes n bs)) in *.
  destruct (bytes_type_not _ _ Hby) as (? & ? & ?).
  rewrite (pack_bytes_eq _ _ _ _ ltac:(done) ltac:(done) ltac:(done) Hnum Hby).
  unfold pack_bytes. rewrite Hat, bool_decide_eq_false_2 by naive_solver.
  assert (Z.of_nat n =? 0 = false) as -> by lia. assert (32 <? Z.of_nat n = false) as -> by lia.
  simpl. rewrite Nat2Z.id. inversion Hi; subst; simpl.
  1-2: unfold each_byte; simpl; rewrite each_byte_elements; simpl; by rewrite copy_exact.
  match goal with Hs : hex_decode ?s = _ |- _ =>
    pose proof (hex_decode_length _ _ Hs) as Hodd;
    replace (isHex ("0x" +:+ s)) with true by (symmetry; apply has_prefix_spec; eauto);
    change (trim_prefix "0x" (String "0" (String "x" s))) with (trim_prefix "0x" ("0x" +:+ s));
    rewrite trim_prefix_app, Hodd, Nat.odd_mul; simpl; rewrite Hs end.
  by rewrite copy_exact.
Qed.

(** A number packs to its bytes, padded to its width or to a word. *)
Lemma number_tight n z v i a :
  v = SUint n z ∨ v = SInt n z → sol_ok v → holds v i →
  pack (type_name v) i a = Returns (LeftPadBytes (be_bytes n z) (if a : bool then 32 else n)).
Proof.
  intros Hv Hok Hi.
  assert (n ∈ [1; 2; 4; 8; 16; 32]%nat) as Hn.
  { destruct Hv as [->| ->]; [apply Hok|]. destruct Hok as [[]|[]]; set_solver. }
  assert (number_type (type_name v) = Some (dec_string (8 * Z.of_nat n))) as Hty
    by (destruct Hv as [->| ->]; [by apply uint_name | by apply int_name]).
  destruct (number_type_not _ _ Hty) as (? & ? & ?).
  rewrite (pack_number_eq _ _ _ _ ltac:(done) ltac:(done) ltac:(done) Hty).
  apply pack_number_width; [done|].
  destruct Hv as [->| ->]; [by apply uint_bytes | by apply int_bytes].
Qed.

Lemma width_bound n : n ∈ [1; 2; 4; 8; 16; 32]%nat → (n ≤ 32)%nat.
Proof. rewrite !elem_of_cons, elem_of_nil. lia. Qed.

(** Every value packs to its tight encoding. *)
Lemma pack_tight v i :
  sol_ok v → holds v i → pack (type_name v) i false = Returns (encode_packed v).
Proof.
  intros Hok Hi. destruct v as [a|s|b|n z|n z|n bs]; [..|by apply bytes_tight].
  - change (Address i = Returns a). by apply address_tight.
  - change (String_ i = Returns (string_bytes s)). by inversion Hi; subst.
  - change (Bool i = Returns [if b then 1 else 0]). by inversion Hi; subst.
  - rewrite (number_tight n z) by auto. by rewrite pad_exact by apply length_be_bytes.
  - rewrite (number_tight n z) by auto. by rewrite pad_exact by apply length_be_bytes.
Qed.

(** ** Arrays

    Solidity pads the elements of an array to a word of 32 bytes. *)
Definition encode_word (v : sol_value) : bytes :=
  match v with
  | SUint _ z | SInt _ z => be_bytes 32 z
  | SAddress a => replicate 12 0 ++ a
  | SBool b => replicate 31 0 ++ [if b then 1 else 0]
  | SString _ | SBytes _ _ => []
  end.

(** The elements for which the code does so. *)
Definition element_ok (v : sol_value) : Prop :=
  sol_ok v ∧
  match v with
  | SAddress _ | SBool _ | SUint _ _ => True
  | SInt _ z => 0 ≤ z
  | SString _ | SBytes _ _ => False
  end.

Lemma padded_number n z :
  (n ≤ 32)%nat → 0 ≤ z < 256 ^ Z.of_nat n → LeftPadBytes (be_bytes n z) 32 = be_bytes 32 z.
Proof. intros Hn Hz. rewrite left_pad_spec, length_be_bytes. symmetry. by apply be_bytes_leading. Qed.

Lemma pack_element v i :
  element_ok v → holds v i → pack (type_name v) i true = Returns (encode_word v).
Proof.
  intros [Hok He] Hi. destruct v as [a|s|b|n z|n z|n bs]; [|done| | | |done].
  - change (pad32 <$> Address i = Returns (replicate 12 0 ++ a)).
    rewrite (address_tight a) by done. simpl. unfold pad32. rewrite left_pad_spec.
    simpl in Hok. by rewrite Hok.
  - change (pad32 <$> Bool i = Returns (replicate 31 0 ++ [if b then 1 else 0])).
    inversion Hi; subst. simpl. unfold pad32. by rewrite left_pad_spec.
  - rewrite (number_tight n z) by auto. destruct Hok as [Hn Hz].
    simpl. by rewrite padded_number by (done || by apply width_bound).
  - rewrite (number_tight n z) by auto. simpl in He. simpl.
    assert (n ≤ 32)%nat as Hn by (destruct Hok as [[]|[]]; apply width_bound; set_solver).
    rewrite padded_number; [done | done |]. split; [done|].
    assert (z < 2 ^ (8 * Z.of_nat n - 1)) by (destruct Hok as [[]|[]]; lia).
    change 256 with (2 ^ 8). rewrite <-Z.pow_mul_r by lia.
    eapply Z.lt_le_trans; [done|]. apply Z.pow_le_mono_r; lia.
Qed.

(** The name of an array of a base type, with or without its length. *)
Definition array_name (base : string) (sized : bool) (n : nat) : string :=
  base +:+ ("[" +:+ ((if sized then dec_string (Z.of_nat n) else "") +:+ "]")).

Definition element_names : list string :=
  ["address"; "bool"; "uint8"; "uint16"; "uint32"; "uint64"; "uint128"; "uint256";
   "int8"; "int16"; "int32"; "int64"; "int128"; "int256"].

Lemma element_name v : element_ok v → type_name v ∈ element_names.
Proof.
  intros [Hok He]. destruct v as [a|s|b|n z|n z|n bs]; [|done| | | |done].
  1-2: unfold element_names; set_solver.
  - destruct Hok as [Hn _]. repeat (apply elem_of_cons in Hn as [->|Hn]); [..|set_solver];
      refine (bool_decide_eq_true_1 _ _); by vm_compute.
  - destruct Hok as [[Hn _]|[Hn _]]; repeat (apply elem_of_cons in Hn as [->|Hn]);
      try set_solver; refine (bool_decide_eq_true_1 _ _); by vm_compute.
Qed.

Lemma list_of_string_app s t :
  String.list_ascii_of_string (s +:+ t) =
    String.list_ascii_of_string s ++ String.list_ascii_of_string t.
Proof. induction s as [|c s IH]; [done|]. exact (f_equal (cons c) IH). Qed.

Lemma string_of_list_of_string s : String.string_of_list_ascii (String.list_ascii_of_string s) = s.
Proof. induction s; simpl; congruence. Qed.

Definition is_digit (ch : Ascii.ascii) : Prop := is_Some (digit_value ch).

Lemma digits_value_digits s : ∀ acc,
  is_Some (digits_value acc s) → Forall is_digit (String.list_ascii_of_string s).
Proof.
  induction s as [|ch s IH]; intros acc Hs; [constructor|]. simpl in *.
  unfold is_digit. destruct (digit_value ch) as [d|] eqn:Hd; [|by destruct Hs].
  constructor; [eauto|]. by apply (IH (acc * 10 + d)).
Qed.

Lemma dec_string_digits z : 0 ≤ z → Forall is_digit (String.list_ascii_of_string (dec_string z)).
Proof.
  intros Hz. pose proof (parse_digits_dec_string z Hz) as Hp.
  apply (digits_value_digits _ 0). unfold parse_digits in Hp. destruct (dec_string z); [done|].
  by rewrite Hp.
Qed.

Lemma take_digits_all l ch rest :
  Forall is_digit l → ¬ is_digit ch → take_digits (l ++ ch :: rest) = (l, ch :: rest).
Proof.
  intros Hl Hch. induction Hl as [|c l Hc _ IH]; simpl.
  - by rewrite bool_decide_eq_false_2.
  - by rewrite bool_decide_eq_true_2, IH.
Qed.

Lemma array_type_name base d :
  ascii_of_byte 10 ∉ String.list_ascii_of_string base →
  Forall is_digit (String.list_ascii_of_string d) →
  array_type (base +:+ ("[" +:+ (d +:+ "]"))) = Some (base, d).
Proof.
  intros Hbase Hd. unfold array_type.
  rewrite !list_of_string_app, !reverse_app.
  change (reverse (String.list_ascii_of_string "]")) with ["]"%char].
  change (reverse (String.list_ascii_of_string "[")) with ["["%char].
  rewrite <-!app_assoc. simpl. rewrite take_digits_all.
  - simpl. rewrite bool_decide_eq_false_2 by (by rewrite elem_of_reverse).
    by rewrite !reverse_involutive, !string_of_list_of_string.
  - by rewrite Forall_reverse.
  - intros [x Hx]. by vm_compute in Hx.
Qed.

Lemma array_name_types base sized n :
  base ∈ element_names →
  let typ := array_name base sized n in
  typ ≠ "address" ∧ typ ≠ "string" ∧ typ ≠ "bool" ∧
  number_type typ = None ∧ bytes_type typ = None ∧
  array_type typ = Some (base, if sized then dec_string (Z.of_nat n) else "").
Proof.
  intros Hb. unfold array_name. cbv zeta.
  set (d := if sized then _ else _).
  assert (Forall is_digit (String.list_ascii_of_string d)) as Hd.
  { subst d. destruct sized; [apply dec_string_digits; lia | constructor]. }
  repeat (apply elem_of_cons in Hb as [->|Hb]); [..|set_solver];
    (refine (conj _ (conj _ (conj _ (conj _ (conj _ _)))));
     [by intros [=] | by intros [=] | by intros [=] | done | done |
      apply array_type_name; [refine (bool_decide_eq_true_1 _ _); by vm_compute | done]]).
Qed.

Lemma atoi_dec_string z : 0 ≤ z < 2 ^ 63 → atoi (dec_string z) = Some z.
Proof.
  intros Hz. unfold atoi. pose proof (parse_digits_dec_string z (proj1 Hz)) as Hp.
  destruct (dec_string z) as [|ch s]; [done|].
  destruct (decide (ch = "-"%char)) as [->|]; [by cbn in Hp|].
  destruct (decide (ch = "+"%char)) as [->|]; [by cbn in Hp|].
  rewrite Hp. simpl. assert ((- 2 ^ 63 <=? z) && (z <? 2 ^ 63) = true) as ->; [|done].
  rewrite andb_true_iff, Z.leb_le, Z.ltb_lt. lia.
Qed.

(** An argument: a value, or an array of values of one type. *)
Inductive sol_arg :=
  | Elem (v : sol_value)
  | Arr (base : string) (sized : bool) (vs : list sol_value).

Definition arg_type (x : sol_arg) : string :=
  match x with
  | Elem v => type_name v
  | Arr base sized vs => array_name base sized (length vs)
  end.

Definition arg_encode (x : sol_arg) : bytes :=
  match x with
  | Elem v => encode_packed v
  | Arr _ _ vs => concat (encode_word <$> vs)
  end.

Definition arg_ok (x : sol_arg) : Prop :=
  match x with
  | Elem v => sol_ok v
  | Arr base _ vs => base ∈ element_names ∧ Z.of_nat (length vs) < 2 ^ 63 ∧
                     Forall (λ v, element_ok v ∧ type_name v = base) vs
  end.

Definition arg_holds (x : sol_arg) (i : input) : Prop :=
  match x with
  | Elem v => holds v i
  | Arr _ _ vs => ∃ l, (i = IIfaces l ∨ i = ISlice l) ∧ Forall2 holds vs l
  end.

Lemma elements_tight base vs l :
  Forall (λ v, element_ok v ∧ type_name v = base) vs → Forall2 holds vs l →
  traverse (λ e, pack base e true) l = Returns (encode_word <$> vs).
Proof.
  intros Hok Hl. induction Hl as [|v e vs l Hv Hl IH]; [done|].
  apply Forall_cons in Hok as [[Hv' Hbase] Hok]. csimpl.
  rewrite <-Hbase at 1. rewrite pack_element by done. simpl. by rewrite IH.
Qed.

Lemma pack_array_tight base sized vs i :
  arg_ok (Arr base sized vs) → arg_holds (Arr base sized vs) i →
  pack (array_name base sized (length vs)) i false = Returns (concat (encode_word <$> vs)).
Proof.
  intros (Hb & Hlen & Hok) (l & Hi & Hl).
  destruct (array_name_types base sized (length vs) Hb) as (? & ? & ? & Hn & Hy & Hat).
  rewrite pack_array_eq by done. unfold pack_array. rewrite Hat.
  assert (isArray i = Returns true) as -> by (by destruct Hi as [->| ->]).
  assert (elements i = l) as -> by (by destruct Hi as [->| ->]). simpl.
  rewrite <-(Forall2_length _ _ _ Hl).
  assert ((if bool_decide ((if sized then dec_string (Z.of_nat (length vs)) else "") = "")
           then Some (Z.of_nat (length vs))
           else atoi (if sized then dec_string (Z.of_nat (length vs)) else ""))
          = Some (Z.of_nat (length vs))) as ->.
  { case_bool_decide; [done|]. destruct sized; [|done]. apply atoi_dec_string. lia. }
  rewrite Z.eqb_refl. simpl.
  by rewrite (elements_tight base vs l).
Qed.

Lemma pack_arg x i :
  arg_ok x → arg_holds x i → pack (arg_type x) i false = Returns (arg_encode x).
Proof. destruct x; [apply pack_tight | apply pack_array_tight]. Qed.

Lemma solsha3_tight xs ins :
  Forall arg_ok xs → Forall2 arg_holds xs ins →
  solsha3 (arg_type <$> xs) ins = Returns (keccak256 (concat (arg_encode <$> xs))).
Proof.
  intros Hok Hh. unfold solsha3.
  assert (pack_each (arg_type <$> xs) ins = Returns (arg_encode <$> xs)) as ->; [|done].
  induction Hh as [|x i xs ins Hx Hh IH]; [done|]. apply Forall_cons in Hok as [Hx' Hok].
  csimpl. rewrite pack_arg by done. simpl. by rewrite IH.
Qed.
End PackSpec.

(** ** Properties *)

Section Properties.
Context `{GethLaws} `{BigLaws}.

(** A negative number of the two wide types goes by its absolute value. *)
Lemma wide_negative n z :
  n ∈ [16; 32]%nat → - 2 ^ (8 * Z.of_nat n - 1) ≤ z < 0 →
  number_bytes (type_name (SInt n z)) (IBig z) = Returns (be_bytes n (- z)).
Proof.
  intros Hn Hz. assert (big_Bytes z = big_Bytes (- z)) as Habs.
  { unfold big_Bytes. rewrite Z.abs_opp. by destruct (Z.eqb_spec z 0), (Z.eqb_spec (- z) 0); try lia. }
  apply elem_of_cons in Hn as [->|Hn]; [|apply elem_of_cons in Hn as [->|Hn]; [|set_solver]].
  - change (Returns (LeftPadBytes (big_Bytes z) 16) = Returns (be_bytes 16 (- z))).
    rewrite Habs, wide_number; [done|lia|]. simpl in Hz. lia.
  - change (Returns (LeftPadBytes (big_Bytes z) 32) = Returns (be_bytes 32 (- z))).
    rewrite Habs, wide_number; [done|lia|]. simpl in Hz. lia.
Qed.

(** (C29) The packing is Solidity's, for the arguments it is meant for: addresses, texts,
    truth values, unsigned numbers of 8, 16, 32, 64, 128 and 256 bits, signed ones of 8
    to 64 bits and those of 128 and 256 that are not negative, fixed bytes, and arrays,
    sized or not, of addresses, of truth values and of numbers that are not negative.
    For every list of these, and for every Go value that stands for each of them --
    [holds]: a big integer, a machine integer or a decimal text for a number, but no
    machine integer for an unsigned one of 128 or 256 bits, and no text for a negative
    one; bytes or hexadecimal for bytes and addresses --, [Pack] returns the
    concatenation of their tight encodings, without panic. It is not Solidity's for a
    negative number of 128 or 256 bits, which is packed as the one of the other sign. *)
Theorem packing_is_tight :
  (∀ xs ins, Forall arg_ok xs → Forall2 arg_holds xs ins →
     Pack (arg_type <$> xs) ins = Returns (concat (arg_encode <$> xs))) ∧
  ∀ n z, n ∈ [16; 32]%nat → - 2 ^ (8 * Z.of_nat n - 1) ≤ z < 0 →
    Pack [type_name (SInt n z)] [IBig z] = Returns (encode_packed (SInt n (- z))).
Proof.
  split.
  - intros xs ins Hok Hh. unfold Pack.
    rewrite length_fmap, (Forall2_length _ _ _ Hh), Nat.eqb_refl. simpl.
    assert (traverse (λ '(typ, v), pack typ v false) (zip (arg_type <$> xs) ins)
            = Returns (arg_encode <$> xs)) as ->; [|done].
    induction Hh as [|x i xs ins Hx Hh IH]; [done|]. apply Forall_cons in Hok as [Hx' Hok].
    csimpl. rewrite pack_arg by done. simpl. by rewrite IH.
  - intros n z Hn Hz. unfold Pack. simpl.
    assert (n ∈ [1; 2; 4; 8; 16; 32]%nat) as Hn' by set_solver.
    pose proof (int_name n Hn') as Hty.
    change (type_name (SInt n 0)) with (type_name (SInt n z)) in Hty.
    destruct (number_type_not _ _ Hty) as (? & ? & ?).
    rewrite (pack_number_eq _ _ _ _ ltac:(done) ltac:(done) ltac:(done) Hty).
    rewrite (pack_number_width _ _ _ _ _ Hn' (wide_negative n z Hn Hz)). simpl.
    by rewrite app_nil_r, pad_exact by apply length_be_bytes.
Qed.
End Properties.

(** ** Witness *)

(** [U256Bytes] as go-ethereum defines it. *)
Definition sample_big : BigLib := {|
  U256Bytes z := be_bytes 32 (z mod 2 ^ 256);
  undefined_SetString _ := 0;
|}.

Lemma sample_big_laws : @BigLaws sample_big.
Proof. by intros z. Qed.

Definition sample_args : list sol_arg :=
  [Elem (SAddress (replicate 20 7)); Elem (SInt 2 (-2)); Elem (SUint 32 1000);
   Elem (SBytes 3 [1; 2; 255]); Elem (SString "abc");
   Arr "uint8" true [SUint 1 9; SUint 1 200]; Arr "bool" false [SBool true]].

Definition sample_inputs : list input :=
  [IString ("0x" +:+ hex_encode (replicate 20 7)); IInt K_int16 (-2); IString "1000";
   IString "0x0102ff"; IString "abc";
   ISlice [IInt K_uint8 9; IBig 200]; IIfaces [IBool true]].

Lemma packing_is_tight_witness :
  @Pack sample_geth sample_big
    ["address"; "int16"; "uint256"; "bytes3"; "string"; "uint8[2]"; "bool[]"] sample_inputs =
  Returns (concat (arg_encode <$> sample_args)).
Proof.
  apply (proj1 (@packing_is_tight sample_geth sample_geth_laws sample_big sample_big_laws)
           sample_args sample_inputs).
  - repeat constructor; simpl; try lia; try set_solver.
  - repeat constructor.
    + exists [IInt K_uint8 9; IBig 200]. split; [by right|]. repeat constructor; lia.
    + exists [IBool true]. split; [by left|]. repeat constructor.
Defined.

(** ** Where the packing is not Solidity's *)

Section Gaps.
#[local] Existing Instances sample_geth sample_big.

(** A negative number of 128 or 256 bits is packed by its absolute value. *)
Example int256_loses_the_sign :
  pack "int256" (IBig (-1)) false = pack "int256" (IBig 1) false.
Proof. by vm_compute. Qed.

(** An element of an array that is negative is padded with zeros instead of its sign. *)
Example negative_element_is_not_extended :
  pack "int8[]" (IIfaces [IInt K_int8 (-1)]) false = Returns (replicate 31 0 ++ [255]).
Proof. by vm_compute. Qed.

(** A machine integer given for a [uint256] or a [uint128] is packed as zero. *)
Example uint256_of_an_int_is_zero :
  pack "uint256" (IInt K_uint64 5) false = Returns (replicate 32 0).
Proof. by vm_compute. Qed.

(** The widths without a case are packed as zeros, or by the case of a width that their
    name starts with, and the names without a width panic. *)
Example other_widths :
  pack "uint24" (IBig 5) false = Returns [0; 0; 0] ∧
  pack "int160" (IBig (2 ^ 16 + 5)) false = pack "int160" (IBig 5) false ∧
  returns (pack "uint" (IBig 5) false) = false.
Proof. by vm_compute. Qed.

(** A text that is not hexadecimal given for a [bytes32] panics, and so does every
    array of fixed bytes given as a list of interfaces. *)
Example fixed_bytes_panic :
  returns (pack "bytes32" (IString "abc") false) = false ∧
  returns (pack "bytes3[]" (IIfaces [IBytes [1; 2; 3]]) false) = false.
Proof. by vm_compute. Qed.

(** A short address is not padded: two lists of values pack to the same bytes. *)
Example short_addresses_collide :
  Pack ["address"; "address"] [IString "0x01"; IString "0x0203"] =
  Pack ["address"; "address"] [IString "0x0102"; IString "0x03"].
Proof. by vm_compute. Qed.

End Gaps.
