(* ===== verification/Signing.v ===== *)
(** The signature of a metatx made by the node itself, [service/transaction.go]: the
    message that is hashed, [Hash]; its signature in the form the contract recovers,
    [Sign]; and both together, [SignPayload]. *)

From S2P Require Import Prelude GoLib Errors Client Sha3.

(** [crypto.Sign] of go-ethereum. *)
Class Crypto `{EthLib} := { crypto_Sign : bytes → privateKey → result error bytes }.

(** The text that [Hex] gives of an address is a prefix and the hexadecimal digits of
    its bytes, of either case. *)
Class AddressText `{Geth} : Prop :=
  address_hex_text a : length a = 20%nat → bytes_ok a →
    ∃ t, address_Hex a = "0x" +:+ t ∧ hex_decode t = (a, None).

(** [log.Fatal] ends the process; nothing runs after it. *)
Definition Fatal {A} (why : string) : outcome A := Panics ("log.Fatal: " +:+ why).

Section Signing.
Context `{Geth} `{EthLib} `{PkgErrors} `{BigLib} `{!Crypto}.

Definition Hash (from : string) (to : option address) (encodedFunction : bytes)
    (gasLimit nonce : string) : outcome bytes :=
  match to with
  | Some to =>
      SoliditySHA3
        [IStrings ["address"; "address"; "bytes32"; "uint256"; "uint256"];
         IIfaces [IString from; IString (address_Hex to); IBytes encodedFunction;
                  IString gasLimit; IString nonce]]
  | None =>
      SoliditySHA3
        [IStrings ["address"; "bytes32"; "uint256"; "uint256"];
         IIfaces [IString from; IBytes encodedFunction; IString gasLimit; IString nonce]]
  end.

(** The last byte is rewritten in place, in the slice that is returned. *)
Definition Sign (hash : bytes) (key : privateKey) : outcome (result error bytes) :=
  match crypto_Sign hash key with
  | Err e => Fatal (Error e)
  | Ok signature =>
      if negb (length signature =? 65)%nat then
        Returns (Err (Errors.New "signature malformed" (-32010)))
      else
        let v := hexutil_Encode (take 1 (drop 64 signature)) in
        if bool_decide (v = "0x00") then Returns (Ok (<[64%nat := 27]> signature))
        else if bool_decide (v = "0x01") then Returns (Ok (<[64%nat := 28]> signature))
        else Returns (Err (Errors.New "bad V parameter" (-32011)))
  end.

(** The key is used before the error of reading it is looked at. *)
Definition SignPayload (_privateKey signingAddr : string) (destinationAddress : option address)
    (encodedFunction : bytes) (gasLimit nonce : Z) : outcome (result error bytes) :=
  hash ← Hash signingAddr destinationAddress (keccak256 encodedFunction)
           (dec_string gasLimit) (dec_string nonce);
  match HexToECDSA _privateKey with
  | Err _ => Panics "nil pointer dereference"
  | Ok key =>
      prefix ← String_ (IString (bytes_string (25 :: string_bytes "Ethereum Signed Message:"
                                               ++ 10 :: string_bytes "32")));
      hash2 ← SoliditySHA3 [IBytes prefix; IBytes (Bytes32 (IBytes hash))];
      sig ← Sign hash2 key;
      match sig with Err e => Fatal (Error e) | Ok sig => Returns (Ok sig) end
  end.
End Signing.

(** ** The message

    The bytes that are hashed, as the contract packs them. *)
Definition message (from : address) (to : option address) (codeHash : bytes) (gasLimit nonce : Z) :
    bytes :=
  from ++ default [] to ++ codeHash ++ be_bytes 32 gasLimit ++ be_bytes 32 nonce.

(** A node's key signs the Ethereum digest of the hash of the message. *)
Definition eth_digest `{Geth} (h : bytes) : bytes :=
  keccak256 (25 :: string_bytes "Ethereum Signed Message:" ++ 10 :: string_bytes "32" ++ h).

Definition fields_ok (from : address) (to : option address) (codeHash : bytes) (gasLimit nonce : Z) :
    Prop :=
  length from = 20%nat ∧
  match to with Some to => length to = 20%nat ∧ bytes_ok to | None => True end ∧
  length codeHash = 32%nat ∧ 0 ≤ gasLimit < 2 ^ 64 ∧ 0 ≤ nonce < 2 ^ 64.

Lemma be_bytes_inj n x y :
  0 ≤ x < 256 ^ Z.of_nat n → 0 ≤ y < 256 ^ Z.of_nat n → be_bytes n x = be_bytes n y → x = y.
Proof.
  intros Hx Hy Heq. rewrite <-(be_value_be_bytes n x), <-(be_value_be_bytes n y) by done.
  by rewrite Heq.
Qed.

Lemma message_inj from to h g n from' to' h' g' n' :
  fields_ok from to h g n → fields_ok from' to' h' g' n' →
  message from to h g n = message from' to' h' g' n' →
  from = from' ∧ to = to' ∧ h = h' ∧ g = g' ∧ n = n'.
Proof.
  intros (Hf & Ht & Hh & Hg & Hn) (Hf' & Ht' & Hh' & Hg' & Hn') Heq. unfold message in Heq.
  assert (length (default [] to) = length (default [] to')) as Hto.
  { apply (f_equal length) in Heq. rewrite !length_app, !length_be_bytes in Heq. lia. }
  apply app_inj_1 in Heq as [-> Heq]; [|lia].
  apply app_inj_1 in Heq as [Hd Heq]; [|done].
  apply app_inj_1 in Heq as [-> Heq]; [|lia].
  apply app_inj_1 in Heq as [Hgg Hnn]; [|by rewrite !length_be_bytes].
  apply be_bytes_inj in Hgg as ->; [|lia..]. apply be_bytes_inj in Hnn as ->; [|lia..].
  split_and!; try done.
  destruct to as [a|], to' as [a'|]; simpl in *; naive_solver (congruence || lia).
Qed.

Section Laws.
Context `{GethLaws} `{EthLib} `{PkgErrors} `{BigLaws} `{!AddressText} `{!Crypto}.

Lemma Hash_message fromText from to h g n :
  hex_decode (trim_prefix "0x" fromText) = (from, None) → fields_ok from to h g n →
  Hash fromText to h (dec_string g) (dec_string n) = Returns (keccak256 (message from to h g n)).
Proof.
  intros Hfrom (Hf & Ht & Hh & Hg & Hn). unfold Hash, message.
  assert (Forall arg_ok [Elem (SAddress from); Elem (SBytes 32 h); Elem (SUint 32 g); Elem (SUint 32 n)])
    as Hok by (repeat constructor; simpl; (set_solver || lia)).
  destruct to as [to|].
  - destruct Ht as [Ht Hto]. destruct (address_hex_text to Ht Hto) as (t & Htext & Htd).
    unfold SoliditySHA3. simpl length. cbn -[solsha3].
    change ["address"; "address"; "bytes32"; "uint256"; "uint256"] with
      (arg_type <$> [Elem (SAddress from); Elem (SAddress to); Elem (SBytes 32 h);
                     Elem (SUint 32 g); Elem (SUint 32 n)]).
    rewrite solsha3_tight; [by cbn -[be_bytes]; rewrite app_nil_r| |].
    + inversion Hok; subst. constructor; [done|]. by constructor.
    + repeat constructor; [done|]. rewrite Htext. by rewrite trim_prefix_app.
  - unfold SoliditySHA3. cbn -[solsha3].
    change ["address"; "bytes32"; "uint256"; "uint256"] with
      (arg_type <$> [Elem (SAddress from); Elem (SBytes 32 h); Elem (SUint 32 g); Elem (SUint 32 n)]).
    rewrite solsha3_tight; [by cbn -[be_bytes]; rewrite app_nil_r | done |]. by repeat constructor.
Qed.

Lemma Sign_recoverable h key sig v :
  crypto_Sign h key = Ok sig → length sig = 65%nat → sig !! 64%nat = Some v → v = 0 ∨ v = 1 →
  Sign h key = Returns (Ok (<[64%nat := 27 + v]> sig)).
Proof.
  intros Hs Hlen Hv Hv01. unfold Sign. rewrite Hs, Hlen. cbn -[bool_decide].
  assert (take 1 (drop 64 sig) = [v]) as ->.
  { rewrite (drop_S sig v 64) by done. by rewrite firstn_cons, firstn_0. }
  rewrite hexutil_encode_spec. by destruct Hv01 as [->| ->].
Qed.

Lemma SignPayload_digest key k fromText from to code g n :
  (∀ bs, length (keccak256 bs) = 32%nat) → HexToECDSA key = Ok k →
  hex_decode (trim_prefix "0x" fromText) = (from, None) →
  fields_ok from to (keccak256 code) g n →
  SignPayload key fromText to code g n =
    sig ← Sign (eth_digest (keccak256 (message from to (keccak256 code) g n))) k;
    match sig with Err e => Fatal (Error e) | Ok sig => Returns (Ok sig) end.
Proof.
  intros Hk Hkey Hfrom Hok. unfold SignPayload. rewrite (Hash_message _ from) by done. simpl.
  rewrite Hkey. unfold SoliditySHA3, solsha3Legacy, eth_digest, Bytes32. cbn -[be_bytes keccak256].
  rewrite app_nil_r, right_pad_spec, Hk. simpl. by rewrite app_nil_r.
Qed.

(** (C30) The node signs exactly what it was asked: with a key that can be read, the
    signature is the one of the Ethereum digest of the message made of the sender, the
    destination, the hash of the code, the gas limit and the nonce, with its recovery
    byte moved to 27 or 28; and two requests have one message only when they agree on
    every field, a deployment and a call included. *)
Theorem signature_covers_every_field key k fromText from to code g n sig v :
  (∀ bs, length (keccak256 bs) = 32%nat) → HexToECDSA key = Ok k →
  hex_decode (trim_prefix "0x" fromText) = (from, None) →
  fields_ok from to (keccak256 code) g n →
  crypto_Sign (eth_digest (keccak256 (message from to (keccak256 code) g n))) k = Ok sig →
  length sig = 65%nat → sig !! 64%nat = Some v → v = 0 ∨ v = 1 →
  SignPayload key fromText to code g n = Returns (Ok (<[64%nat := 27 + v]> sig)) ∧
  ∀ from' to' h' g' n', fields_ok from' to' h' g' n' →
    message from to (keccak256 code) g n = message from' to' h' g' n' →
    from = from' ∧ to = to' ∧ keccak256 code = h' ∧ g = g' ∧ n = n'.
Proof.
  intros Hk Hkey Hfrom Hok Hsig Hlen Hv Hv01. split.
  - rewrite (SignPayload_digest _ k _ from) by done.
    by rewrite (Sign_recoverable _ _ _ _ Hsig Hlen Hv Hv01).
  - intros from' to' h' g' n' Hok'. by apply message_inj.
Qed.

Lemma recovery_text v d :
  byte_ok v → 0 ≤ d < 16 →
  "0x" +:+ hex_encode [v] = "0x0" +:+ String (hex_digit d) "" → v = d.
Proof.
  unfold byte_ok. intros Hv Hd Heq.
  assert (hex_digit (v / 16) = hex_digit 0 ∧ hex_digit (v mod 16) = hex_digit d) as [Ha Hb]
    by by injection Heq.
  pose proof (Z.div_mod v 16). pose proof (Z.mod_pos_bound v 16).
  assert (0 ≤ v / 16 < 16) by (split; [apply Z.div_pos | apply Z.div_lt_upper_bound]; lia).
  apply (f_equal hex_value) in Ha, Hb. rewrite !hex_value_digit in Ha, Hb by lia.
  injection Ha as Ha. injection Hb as Hb. lia.
Qed.

(** A signature that cannot be recovered ends the process or is refused with a code of
    its own. *)
Theorem Sign_refuses h key sig v :
  crypto_Sign h key = Ok sig → length sig = 65%nat → sig !! 64%nat = Some v →
  byte_ok v → v ≠ 0 → v ≠ 1 →
  Sign h key = Returns (Err (Errors.New "bad V parameter" (-32011))).
Proof.
  intros Hs Hlen Hv Hb Hn0 Hn1. unfold Sign. rewrite Hs, Hlen. cbn -[bool_decide].
  assert (take 1 (drop 64 sig) = [v]) as ->.
  { rewrite (drop_S sig v 64) by done. by rewrite firstn_cons, firstn_0. }
  rewrite hexutil_encode_spec, !bool_decide_eq_false_2; [done|..]; intros Heq;
    [apply (recovery_text v 1) in Heq | apply (recovery_text v 0) in Heq]; (done || lia).
Qed.
End Laws.

(** A signer that answers zeros with the recovery byte 1. *)
Definition sample_crypto : @Crypto sample_eth :=
  {| crypto_Sign _ _ := Ok (replicate 64 0 ++ [1]) |}.

Lemma sample_address_text : @AddressText sample_geth.
Proof. intros a _ Ha. exists (hex_encode a). split; [done|]. by apply hex_decode_encode. Qed.

Lemma sample_keccak_length bs : length (@keccak256 sample_geth bs) = 32%nat.
Proof. done. Qed.

Lemma signature_covers_every_field_witness :
  @SignPayload sample_geth sample_eth sample_errors sample_big sample_crypto
    "key" "0x0707070707070707070707070707070707070707" (Some (replicate 20 9)) [96; 0] 21000 3
    = Returns (Ok (replicate 64 0 ++ [28])) ∧
  ∀ from' to' h' g' n', fields_ok from' to' h' g' n' →
    message (replicate 20 7) (Some (replicate 20 9)) (@keccak256 sample_geth [96; 0]) 21000 3
      = message from' to' h' g' n' →
    replicate 20 7 = from' ∧ Some (replicate 20 9) = to' ∧ @keccak256 sample_geth [96; 0] = h' ∧
    21000 = g' ∧ 3 = n'.
Proof.
  apply (@signature_covers_every_field sample_geth sample_geth_laws sample_eth sample_errors
           sample_big sample_big_laws sample_address_text sample_crypto "key" "key"
           "0x0707070707070707070707070707070707070707" (replicate 20 7) (Some (replicate 20 9))
           [96; 0] 21000 3 (replicate 64 0 ++ [1]) 1).
  - exact sample_keccak_length.
  - reflexivity.
  - vm_compute. reflexivity.
  - unfold fields_ok. simpl. repeat split; try lia. repeat constructor; unfold byte_ok; lia.
  - reflexivity.
  - reflexivity.
  - reflexivity.
  - by right.
Defined.
