(* ===== verification/Nonces.v ===== *)
(** The nonce a client has to sign with, asked through either door: [HandOutNonce] of
    [service/handout.go] as one request runs it, [NonceOf] of [service/nonce.go] for
    [GET /nonce/{address}], and [GetTransactionCount] of
    [service/relaySignerService.go] for [eth_getTransactionCount]. *)

From S2P Require Import Prelude GoLib JsonText JsonScan Codec Config Errors Events AuditLog Client Permissioning Tracker Handout MetaTx Reorder Correlation Gas Service.

Definition with_queue (q : Queue.t) (s : Service) : Service :=
  {| sv_tracker := sv_tracker s; sv_queue := q; sv_memory := sv_memory s; sv_gas := sv_gas s |}.

Record NonceState := {
  ns_Address : address;
  ns_OnChain : option Z;
  ns_Next : option Z;
  ns_Pending : Z;
}.

Section Nonces.
Context `{GoUnicode} `{Geth} `{EthLib} `{PkgErrors} (c : Config).

Abbreviation cfg := (Some c).

Definition expected (now : Z) (node : Node) (from : string) (s : Service) :
    result error Z * Service :=
  let '(r, t) := expectedNonce c now node from (sv_tracker s) in (r, with_tracker t s).

(** One request. [None] is a request that waits for the ticket before its own: what it
    does once that one closes is the rest, from [answer_ticket]. *)
Definition answer_ticket (now : Z) (node : Node) (from : string) (mine : nat) (s : Service) :
    result error Z * Service :=
  let key := senderKey from in
  let '(r, s) := expected now node from s in
  match r with
  | Err e => (Err e, with_queue (Queue.closeTicket key mine (sv_queue s)) s)
  | Ok nonce => (Ok nonce, with_queue (Queue.register key mine (sv_queue s)) s)
  end.

Definition HandOutNonce (now : Z) (node : Node) (from : string) (peek : bool) (s : Service) :
    option (result error Z) * Service :=
  if negb (autoNonceEnabled cfg) || peek then
    let '(r, s) := expected now node from s in (Some r, s)
  else
    let '(previous, mine, q) := Queue.enqueue (senderKey from) (sv_queue s) in
    let s := with_queue q s in
    if (match previous with None => true | Some p => bool_decide (p ∈ Queue.closed q) end) : bool then
      let '(r, s) := answer_ticket now node from mine s in (Some r, s)
    else (None, s).

(** What [NonceOf] does with what it was handed. A nil on-chain nonce is compared. *)
Definition nonce_state (addr : address) (onChain : option Z) (handed : result error Z) :
    outcome NonceState :=
  match handed with
  | Err _ => Returns {| ns_Address := addr; ns_OnChain := onChain; ns_Next := onChain; ns_Pending := 0 |}
  | Ok entregado =>
      match onChain with
      | None => Panics "nil *big.Int"
      | Some n =>
          if n <? entregado
          then Returns {| ns_Address := addr; ns_OnChain := Some n; ns_Next := Some entregado;
                          ns_Pending := u64 (entregado - n) |}
          else Returns {| ns_Address := addr; ns_OnChain := Some n; ns_Next := Some n; ns_Pending := 0 |}
      end
  end.

(** The chain, before anything is handed out. *)
Definition on_chain (node : Node) (addr : address) : result error (option Z) :=
  match RelayHubContractAddress (Application c) with
  | None => Err (type_New FailedKeyConfig "relayHub contract address not resolved" (-32610))
  | Some hub =>
      nodeAddress ← NodeAddress c;
      _ ← Connect node (NodeURL (Application c));
      GetTransactionCount node hub addr nodeAddress
  end.

(** [node] is the network of the first question, [node'] the one of the second; [now] and
    [later] the two readings of the clock. *)
Definition NonceOf (now later : Z) (node node' : Node) (addr : address) (peek : bool) (s : Service) :
    option (outcome (result error NonceState)) * Service :=
  match on_chain node addr with
  | Err e => (Some (Returns (Err e)), s)
  | Ok onChain =>
      let '(handed, s) := HandOutNonce now node' (address_Hex addr) peek s in
      match handed with
      | None => (None, s)
      | Some handed =>
          match nonce_state addr onChain handed with
          | Panics why => (Some (Panics why), s)
          | Returns st =>
              if reorderEnabled cfg then
                let '(n, t) := inflightOf cfg later (address_Hex addr) (sv_tracker s) in
                (Some (Returns (Ok {| ns_Address := ns_Address st; ns_OnChain := ns_OnChain st;
                                      ns_Next := ns_Next st; ns_Pending := u64 n |})),
                 with_tracker t s)
              else (Some (Returns (Ok st)), s)
          end
      end
  end.

(** [fmt.Sprintf("0x%x", count)]. *)
Definition count_text (count : option Z) : string :=
  match count with Some n => "0x" +:+ format_x n | None => "0x<nil>" end.

Definition count_answer (id : RawMessage) (count : option Z) : JsonrpcMessage :=
  Response (λ s, Ok (marshal_string s))
    {| m_Version := ""; m_ID := id; m_Method := ""; m_Params := None; m_Error := None; m_Result := None |}
    (count_text count).

(** The failures after the connection are logged and not returned. *)
Definition count_on_chain (node : Node) (from : string) (id : RawMessage) : outcome JsonrpcMessage :=
  match Connect node (NodeURL (Application c)) with
  | Err e => Returns (HandleError id e)
  | Ok _ =>
      match HexToECDSA (Key (Application c)) with
      | Err _ => Panics "nil *ecdsa.PrivateKey"
      | Ok key =>
          match RelayHubContractAddress (Application c) with
          | None => Panics "nil *common.Address"
          | Some hub =>
              Returns (count_answer id
                match GetTransactionCount node hub (HexToAddress from) (PubkeyToAddress key) with
                | Ok count => count
                | Err _ => None
                end)
          end
      end
  end.

Definition GetTransactionCount (now : Z) (node : Node) (id : RawMessage) (from : string)
    (isPending : bool) (s : Service) : option (outcome JsonrpcMessage) * Service :=
  if isPending then
    let '(handed, s) := HandOutNonce now node from false s in
    match handed with
    | None => (None, s)
    | Some (Ok next) => (Some (Returns (count_answer id (Some next))), s)
    | Some (Err _) => (Some (count_on_chain node from id), s)
    end
  else (Some (count_on_chain node from id), s).

End Nonces.

(** ** Properties *)

Section Properties.
Context `{GoUnicode} `{Geth} `{EthLib} `{PkgErrors} (c : Config).

Abbreviation cfg := (Some c).

(** The number a client has to sign with: the next of the chain in force of its key, and
    without one what the hub has. *)
Definition to_sign (now : Z) (key : string) (m : Z) (t : Tracker) : Z :=
  default m ((λ '(n, _, _), n) <$> Chains.alive cfg now (Chains.view (chs t) key)).

(** What asking changes of the service: its queue, and the chains that died of age. *)
Definition asked (s s' : Service) : Prop :=
  sv_memory s' = sv_memory s ∧ sv_gas s' = sv_gas s ∧
  hld (sv_tracker s') = hld (sv_tracker s) ∧ (tracker_wf (sv_tracker s) → tracker_wf (sv_tracker s')).

Lemma expected_asked now node from s :
  asked s (expected c now node from s).2 ∧ sv_queue (expected c now node from s).2 = sv_queue s.
Proof.
  unfold expected, expectedNonce.
  pose proof (cachedNonce_spec cfg now from (sv_tracker s)) as Hc.
  pose proof (cachedNonce_wf cfg now from (sv_tracker s)) as Hw.
  destruct (cachedNonce cfg now from (sv_tracker s)) as [[n|] t]; simpl;
    destruct Hc as (_ & Hh & _); by split_and!.
Qed.

Lemma expected_answers now node from s m :
  on_chain c node (HexToAddress from) = Ok (Some m) → 0 ≤ m < 2 ^ 64 →
  (expected c now node from s).1 = Ok (to_sign now (senderKey from) m (sv_tracker s)).
Proof.
  intros Hm Hr. unfold expected, expectedNonce, to_sign.
  pose proof (cachedNonce_spec cfg now from (sv_tracker s)) as Hc.
  destruct (cachedNonce cfg now from (sv_tracker s)) as [r t]. destruct Hc as (<- & _ & _).
  destruct r as [n|]; simpl; [done|].
  unfold on_chain in Hm. unfold on_chain_nonce.
  destruct (RelayHubContractAddress (Application c)); [|done].
  destruct (NodeAddress c); [|done]. simpl in *.
  destruct (Connect node _); [|done]. simpl in *.
  rewrite Hm. simpl. by rewrite u64_small.
Qed.

(** Where a request goes from: it answers, or it waits for the ticket before its own. *)
Lemma HandOutNonce_answers now node from peek s m :
  on_chain c node (HexToAddress from) = Ok (Some m) → 0 ≤ m < 2 ^ 64 →
  (HandOutNonce c now node from peek s).1 = None ∨
  (HandOutNonce c now node from peek s).1 = Some (Ok (to_sign now (senderKey from) m (sv_tracker s))).
Proof.
  intros Hm Hr. unfold HandOutNonce, answer_ticket. destruct (_ || peek).
  - right. pose proof (expected_answers now node from s m Hm Hr) as He.
    destruct (expected c now node from s). simpl in *. by rewrite He.
  - destruct (Queue.enqueue _ _) as [[previous mine] q].
    destruct (match previous with None => true | Some p => _ end); [right | by left].
    pose proof (expected_answers now node from (with_queue q s) m Hm Hr) as He.
    destruct (expected c now node from (with_queue q s)). simpl in *. by rewrite He.
Qed.

Lemma HandOutNonce_asked now node from peek s : asked s (HandOutNonce c now node from peek s).2.
Proof.
  unfold HandOutNonce, answer_ticket. destruct (_ || peek).
  - destruct (expected_asked now node from s) as [Ha _]. by destruct (expected c now node from s).
  - destruct (Queue.enqueue _ _) as [[previous mine] q].
    destruct (match previous with None => true | Some p => _ end); [|done].
    destruct (expected_asked now node from (with_queue q s)) as [Ha _].
    by destruct (expected c now node from (with_queue q s)) as [[] ?].
Qed.

(** Two texts of one address are one user. *)
Lemma HandOutNonce_text now node from from' peek s :
  senderKey from = senderKey from' → HexToAddress from = HexToAddress from' →
  HandOutNonce c now node from peek s = HandOutNonce c now node from' peek s.
Proof.
  intros Hk Ha. unfold HandOutNonce, answer_ticket, expected, expectedNonce, cachedNonce,
    on_chain_nonce. by rewrite Hk, Ha.
Qed.

(** (C27) The two doors hand out of one sequence. Whatever text of its address a user
    writes, and whenever the chain answers with [m], [eth_getTransactionCount] of the
    pending block and [GET /nonce/{address}] take the same ticket and leave the same
    queue: both wait, or both answer, never with an error. The first answers with [n],
    the next nonce of the chain in force -- the hub's when there is none. As long as
    the hub is not ahead of that chain the second answers with [n] too; when the hub is
    ahead, as after a metatx relayed elsewhere, it answers with the hub's, and the two
    doors say different numbers. What [GET /nonce] says is pending is, with the
    reordering on, the count the quota is enforced with, and with it off what its number
    is ahead of the hub's. *)
Theorem nonce_doors_agree now later node addr from id s m :
  senderKey from = senderKey (address_Hex addr) →
  HexToAddress from = addr → HexToAddress (address_Hex addr) = addr →
  on_chain c node addr = Ok (Some m) → 0 ≤ m < 2 ^ 64 →
  let '(rpc, s1) := GetTransactionCount c now node id from true s in
  let '(rest, s2) := NonceOf c now later node node addr false s in
  sv_queue s1 = sv_queue s2 ∧ asked s s1 ∧
  let n := to_sign now (senderKey from) m (sv_tracker s) in
  (rpc = None ∧ rest = None) ∨
  (rpc = Some (Returns (count_answer id (Some n))) ∧
   ∃ st, rest = Some (Returns (Ok st)) ∧ ns_OnChain st = Some m ∧
         (m ≤ n → ns_Next st = Some n) ∧ (n < m → ns_Next st = Some m) ∧
         ns_Pending st = if reorderEnabled cfg
                         then u64 (occupied cfg later (sv_tracker s1) (senderKey from))
                         else u64 ((m `max` n) - m)).
Proof.
  intros Hk Ha1 Ha2 Hm Hr. unfold GetTransactionCount, NonceOf. rewrite Hm.
  rewrite (HandOutNonce_text now node from (address_Hex addr)) by congruence.
  pose proof (HandOutNonce_answers now node (address_Hex addr) false s m) as Hans.
  pose proof (HandOutNonce_asked now node (address_Hex addr) false s) as Hasked.
  destruct (HandOutNonce c now node (address_Hex addr) false s) as [handed s1]. simpl in *.
  rewrite Ha2 in Hans. destruct (Hans Hm Hr) as [->| ->]; [by auto|].
  rewrite Hk. set (n := to_sign now (senderKey (address_Hex addr)) m (sv_tracker s)).
  unfold nonce_state.
  assert (Hst : ∀ (b : bool) (st st' : NonceState),
    (if b then (Returns st : outcome NonceState) else Returns st') = Returns (if b then st else st'))
    by (by intros []).
  rewrite Hst. pose proof (inflightLocked_spec cfg later (senderKey (address_Hex addr)) (sv_tracker s1)) as Hi.
  unfold inflightOf. destruct (inflightLocked cfg later _ (sv_tracker s1)) as [k t]. destruct Hi as (-> & _).
  destruct (reorderEnabled cfg) eqn:Hon; (split; [done|]); (split; [done|]); right; (split; [done|]);
    eexists; (split; [done|]); simpl; destruct (Z.ltb_spec m n); simpl;
    rewrite ?Z.max_r, ?Z.max_l, ?Z.sub_diag by lia; split_and!; try done;
    intros; first [lia | do 2 f_equal; lia].
Qed.

(** Looking is free: a consultation that asks to peek never waits, opens no ticket,
    and forgets nothing but the chains that died of age; it sees the number that a
    request would be handed. *)
Theorem peek_takes_no_place now later node node' addr s :
  let '(r, s') := NonceOf c now later node node' addr true s in
  r ≠ None ∧ sv_queue s' = sv_queue s ∧ asked s s'.
Proof.
  unfold NonceOf. destruct (on_chain c node addr) as [m|e]; [|done].
  unfold HandOutNonce. rewrite orb_true_r.
  destruct (expected_asked now node' (address_Hex addr) s) as [Ha Hq].
  destruct (expected c now node' (address_Hex addr) s) as [r s1]. simpl in *.
  destruct (nonce_state addr m r); [|done].
  destruct (reorderEnabled cfg); [|done].
  pose proof (inflightLocked_spec cfg later (senderKey (address_Hex addr)) (sv_tracker s1)) as Hi.
  unfold inflightOf. destruct (inflightLocked cfg later _ (sv_tracker s1)) as [k t].
  destruct Hi as (_ & Hh & Hw & _). unfold asked in *. simpl.
  destruct Ha as (? & ? & Hhld & Hwf). split; [done|]. split; [done|].
  refine (conj _ (conj _ (conj _ _))); [done | done | congruence | auto].
Qed.

(** Whatever is asked, and however it ends. *)
Lemma NonceOf_asked now later node node' addr peek s :
  asked s (NonceOf c now later node node' addr peek s).2 ∧
  (peek = true → (NonceOf c now later node node' addr peek s).1 ≠ None ∧
                 sv_queue (NonceOf c now later node node' addr peek s).2 = sv_queue s).
Proof.
  unfold NonceOf. destruct (on_chain c node addr) as [m|e]; [|done].
  pose proof (HandOutNonce_asked now node' (address_Hex addr) peek s) as Ha.
  assert (peek = true → (HandOutNonce c now node' (address_Hex addr) peek s).1 ≠ None ∧
    sv_queue (HandOutNonce c now node' (address_Hex addr) peek s).2 = sv_queue s) as Hpeek.
  { intros ->. unfold HandOutNonce. rewrite orb_true_r.
    destruct (expected_asked now node' (address_Hex addr) s) as [_ Hq].
    by destruct (expected c now node' (address_Hex addr) s). }
  destruct (HandOutNonce c now node' (address_Hex addr) peek s) as [[r|] s1]; simpl in *; [|split; [done|]; intros Hp; by destruct (Hpeek Hp)].
  destruct (nonce_state addr m r); [|by refine (conj Ha (λ Hp, conj _ (proj2 (Hpeek Hp))))].
  destruct (reorderEnabled cfg); [|by refine (conj Ha (λ Hp, conj _ (proj2 (Hpeek Hp))))].
  pose proof (inflightLocked_spec cfg later (senderKey (address_Hex addr)) (sv_tracker s1)) as Hi.
  unfold inflightOf. destruct (inflightLocked cfg later _ (sv_tracker s1)) as [k t].
  destruct Hi as (_ & Hh & Hw & _). unfold asked in *. simpl.
  destruct Ha as (? & ? & Hhld & Hwf). split; [|intros Hp; split; [done|by apply Hpeek]].
  refine (conj _ (conj _ (conj _ _))); [done | done | congruence | auto].
Qed.

(** A consultation of the latest block that the hub does not answer is not an error: the
    text of a nil number is handed to the client as its nonce. *)
Theorem failed_count_is_a_result now node id from s hub key e :
  RelayHubContractAddress (Application c) = Some hub →
  Connect node (NodeURL (Application c)) = Ok tt →
  HexToECDSA (Key (Application c)) = Ok key →
  Client.GetTransactionCount node hub (HexToAddress from) (PubkeyToAddress key) = Err e →
  ∃ answer, GetTransactionCount c now node id from false s = (Some (Returns answer), s) ∧
    m_Error answer = None ∧ m_Result answer = Some (marshal_string "0x<nil>").
Proof.
  intros Hhub Hc Hkey He. eexists. unfold GetTransactionCount, count_on_chain.
  rewrite Hc, Hkey, Hhub, He. done.
Qed.

(** ** The request as steps of the queue *)

Lemma stage_lookup i key x s : askers (set_stage i key x s) !! i = Some {| a_key := key; a_stage := x |}.
Proof. apply lookup_insert_eq. Qed.

(** From the answer of the ticket on, nobody else stepping. *)
Lemma answer_ticket_steps now node from mine sv s :
  askers s !! mine = Some {| a_key := senderKey from; a_stage := Reading |} →
  queue s = sv_queue sv →
  let '(r, sv') := answer_ticket c now node from mine sv in
  ∃ s', rtc queue_step s s' ∧ queue s' = sv_queue sv' ∧ closers s' = closers s ∧
    askers s' !! mine = Some {| a_key := senderKey from;
      a_stage := match r with Ok n => Returned n | Err _ => Failed end |}.
Proof.
  intros Hr Hq. unfold answer_ticket.
  pose proof (expected_asked now node from sv) as [_ Hsv].
  destruct (expected c now node from sv) as [r sv1]. simpl in Hsv. destruct r as [n|e].
  - eexists. split; [|split; [|split]].
    + eapply rtc_l; [by apply (q_answer mine (senderKey from) n)|].
      eapply rtc_l; [apply (q_register mine (senderKey from) n), stage_lookup|].
      eapply rtc_l; [apply (q_return mine (senderKey from) n), stage_lookup|]. apply rtc_refl.
    + simpl. by rewrite Hq, Hsv.
    + done.
    + apply stage_lookup.
  - eexists. split; [|split; [|split]].
    + eapply rtc_l; [by apply (q_fail mine)|].
      eapply rtc_l; [by apply (q_close (senderKey from) mine None (closers s) [])|].
      eapply rtc_l; [by apply (q_cleanup (senderKey from) mine None (closers s) [])|]. apply rtc_refl.
    + simpl. by rewrite Hq, Hsv.
    + simpl. by rewrite app_nil_r.
    + apply stage_lookup.
Qed.

(** (C28) A request is the steps of the queue that one goroutine takes: run without
    interference it takes the next ticket; when the one before it is closed it is
    answered with the number it read, its ticket open, or fails with its ticket closed
    and taken out; and when it is not, it is left waiting for exactly that one. *)
Theorem handout_implements_the_queue now node from sv s :
  autoNonceEnabled cfg = true → queue s = sv_queue sv →
  let '(r, sv') := HandOutNonce c now node from false sv in
  let mine := Queue.fresh (queue s) in
  ∃ s', rtc queue_step s s' ∧ queue s' = sv_queue sv' ∧ closers s' = closers s ∧
    ∃ x, askers s' !! mine = Some {| a_key := senderKey from; a_stage := x |} ∧
      match r with
      | Some (Ok n) => x = Returned n
      | Some (Err _) => x = Failed
      | None => ∃ p, Queue.handouts (queue s) !! senderKey from = Some p ∧
                     x = Waiting (Some p) ∧ p ∉ Queue.closed (queue s)
      end.
Proof.
  intros Hauto Hq. unfold HandOutNonce. rewrite Hauto. simpl.
  pose proof (q_ask (senderKey from) s) as Hask. unfold Queue.enqueue in *. rewrite Hq in *.
  simpl in *. set (q := {| Queue.handouts := _ |}) in *.
  set (previous := Queue.handouts (sv_queue sv) !! senderKey from) in *.
  set (s1 := set_stage _ _ _ _) in Hask.
  destruct (match previous with None => true | Some p => _ end) eqn:Hmay.
  - assert (may_enter s1 previous) as Hin.
    { destruct previous as [p|]; [|done]. by apply bool_decide_eq_true in Hmay. }
    pose proof (q_enter (Queue.fresh (sv_queue sv)) (senderKey from) previous s1
      ltac:(apply stage_lookup) Hin) as Henter.
    pose proof (answer_ticket_steps now node from (Queue.fresh (sv_queue sv)) (with_queue q sv)
      (set_stage (Queue.fresh (sv_queue sv)) (senderKey from) Reading s1)
      ltac:(apply stage_lookup) ltac:(done)) as Hsteps.
    destruct (answer_ticket c now node from _ _) as [r sv'].
    destruct Hsteps as (s' & Hs' & Hqs & Hcl & Hst). exists s'. split_and!; [|done|done|].
    + eapply rtc_l; [exact Hask|]. eapply rtc_l; [exact Henter|done].
    + eexists. split; [exact Hst|]. by destruct r.
  - destruct previous as [p|] eqn:Hp; [|done]. apply bool_decide_eq_false in Hmay.
    exists s1. split_and!; [by apply rtc_once | done | done |].
    eexists. split; [apply stage_lookup|]. by exists p.
Qed.
End Properties.

(** ** Witnesses *)

#[local] Existing Instances sample_unicode sample_geth sample_eth sample_errors.

Definition sample_user : string := "0x1111111111111111111111111111111111111111".

(** The hub has 4 for the user; this service already relayed its nonce 6. *)
Definition relayed_six : Service :=
  with_tracker (Tracker.reserveLocked (Some sample_config) 5 sample_user 6 true empty_tracker).2
    sample_service.

(** This service relayed its nonce 2 and has not heard of the 3, relayed elsewhere: the
    doors differ. *)
Definition relayed_two : Service :=
  with_tracker (Tracker.reserveLocked (Some sample_config) 5 sample_user 2 true empty_tracker).2
    sample_service.

Lemma nonce_doors_agree_witness :
  ((GetTransactionCount sample_config 6 sample_node null sample_user true relayed_six).1 =
     Some (Returns (count_answer null (Some 7))) ∧
   ∃ st, (NonceOf sample_config 6 7 sample_node sample_node (replicate 20 17) false relayed_six).1 =
           Some (Returns (Ok st)) ∧ ns_OnChain st = Some 4 ∧ ns_Next st = Some 7) ∧
  ((GetTransactionCount sample_config 6 sample_node null sample_user true relayed_two).1 =
     Some (Returns (count_answer null (Some 3))) ∧
   ∃ st, (NonceOf sample_config 6 7 sample_node sample_node (replicate 20 17) false relayed_two).1 =
           Some (Returns (Ok st)) ∧ ns_Next st = Some 4).
Proof.
  split.
  - pose proof (nonce_doors_agree sample_config 6 7 sample_node (replicate 20 17) sample_user
      null relayed_six 4) as Hagree.
    specialize (Hagree ltac:(vm_compute; reflexivity) ltac:(vm_compute; reflexivity)
      ltac:(vm_compute; reflexivity) ltac:(vm_compute; reflexivity) ltac:(lia)).
    assert (Hsign : to_sign sample_config 6 (senderKey sample_user) 4 (sv_tracker relayed_six) = 7)
      by (vm_compute; reflexivity).
    assert (Hans : (GetTransactionCount sample_config 6 sample_node null sample_user true relayed_six).1 ≠ None)
      by (vm_compute; discriminate).
    destruct (GetTransactionCount _ _ _ _ _ _ _) as [rpc s1], (NonceOf _ _ _ _ _ _ _ _) as [rest s2].
    rewrite Hsign in Hagree.
    destruct Hagree as (_ & _ & [[-> _]|(-> & st & -> & Hon & Hnext & _)]); [by destruct Hans|].
    split; [done|]. exists st. split_and!; [done|done|]. apply Hnext. lia.
  - pose proof (nonce_doors_agree sample_config 6 7 sample_node (replicate 20 17) sample_user
      null relayed_two 4) as Hagree.
    specialize (Hagree ltac:(vm_compute; reflexivity) ltac:(vm_compute; reflexivity)
      ltac:(vm_compute; reflexivity) ltac:(vm_compute; reflexivity) ltac:(lia)).
    assert (Hsign : to_sign sample_config 6 (senderKey sample_user) 4 (sv_tracker relayed_two) = 3)
      by (vm_compute; reflexivity).
    assert (Hans : (GetTransactionCount sample_config 6 sample_node null sample_user true relayed_two).1 ≠ None)
      by (vm_compute; discriminate).
    destruct (GetTransactionCount _ _ _ _ _ _ _) as [rpc s1], (NonceOf _ _ _ _ _ _ _ _) as [rest s2].
    rewrite Hsign in Hagree.
    destruct Hagree as (_ & _ & [[-> _]|(-> & st & -> & Hon & _ & Hnext & _)]); [by destruct Hans|].
    split; [done|]. exists st. split; [done|]. apply Hnext. lia.
Defined.

Lemma handout_implements_the_queue_witness :
  ∃ s', rtc queue_step sys0 s' ∧
    queue s' = sv_queue (HandOutNonce sample_config 6 sample_node sample_user false relayed_six).2.
Proof.
  pose proof (handout_implements_the_queue sample_config 6 sample_node sample_user relayed_six sys0) as Hsteps.
  specialize (Hsteps ltac:(vm_compute; reflexivity) ltac:(vm_compute; reflexivity)).
  destruct (HandOutNonce sample_config 6 sample_node sample_user false relayed_six) as [r sv'].
  destruct Hsteps as (s' & Hs' & Hq & _). by exists s'.
Defined.
