(* ===== verification/Info.v ===== *)
(** What [GET /info] reports, [service/info.go]: where the node's addresses came from
    and the parameters in force, each query to the chain leaving its own field empty
    when it fails. *)

From S2P Require Import Prelude GoLib Config Errors Events AuditLog Client Permissioning.

Definition sourceProxy := "proxy".
Definition sourceConfig := "config".

Record ServiceInfo := {
  si_NodeAddress : string;
  si_RelayHubAddress : option string;
  si_RelayHubSource : string;
  si_RelayHubProxyAddress : option string;
  si_ChainID : option string;
  si_RPCURL : string;
  si_NodeBalance : option string;
  si_CurrentGasLimit : option string;
  si_AccountRulesAddress : option string;
  si_AccountRulesSource : option string;
  si_NodePermitted : option bool;
  si_EnforceAccountRules : bool;
  si_MinExpirationSeconds : Z;
  si_ExpirationToleranceSeconds : Z;
  si_ReorderEnabled : bool;
  si_ReorderWindowMs : Z;
  si_MaxInflightPerUser : Z;
  si_ReceiptTimeoutMs : Z;
  si_AutoNonce : bool;
  si_AutoNonceTicketMs : Z;
}.

(** [big.Int.String] of a number that may be nil. *)
Definition big_String (z : Z) : string := if z <? 0 then "-" +:+ dec_string (- z) else dec_string z.

Definition text (value : option Z) : option string := big_String <$> value.

Definition ticketMsInEffect (r : ReorderConfig) : Z :=
  if negb (AutoNonce r) then 0 else AutoNonceTicketMs r.

Section Info.
Context `{Geth} `{EthLib} `{PkgErrors} (c : Config).

(** What comes from the configuration and from what was resolved at start-up. *)
Definition configured_info (s : Rules) : ServiceInfo :=
  let enforced := EnforceExpiration (Validation c) in
  {| si_NodeAddress := "";
     si_RelayHubAddress := address_Hex <$> RelayHubContractAddress (Application c);
     si_RelayHubSource := sourceProxy;
     si_RelayHubProxyAddress :=
       if bool_decide (ContractAddress (Application c) = "") then None
       else Some (ContractAddress (Application c));
     si_ChainID := None;
     si_RPCURL := NodeURL (Application c);
     si_NodeBalance := None;
     si_CurrentGasLimit := None;
     si_AccountRulesAddress := AccountRulesAddress s;
     si_AccountRulesSource := AccountRulesSource s;
     si_NodePermitted := nodePermitted s;
     si_EnforceAccountRules := PermissionsEnabled (Security c);
     si_MinExpirationSeconds := if enforced then MinExpirationSeconds (Validation c) else 0;
     si_ExpirationToleranceSeconds :=
       if enforced then ExpirationToleranceSeconds (Validation c) else 0;
     si_ReorderEnabled := reorder_Enabled (Reorder c);
     si_ReorderWindowMs := WindowMs (Reorder c);
     si_MaxInflightPerUser := MaxInflightPerUser (Reorder c);
     si_ReceiptTimeoutMs := ReceiptTimeoutMs (Reorder c);
     si_AutoNonce := AutoNonce (Reorder c);
     si_AutoNonceTicketMs := ticketMsInEffect (Reorder c) |}.

(** The assignments the code makes to single fields. *)
Definition set_NodeAddress (v : string) (i : ServiceInfo) : ServiceInfo :=
  {| si_NodeAddress := v; si_RelayHubAddress := si_RelayHubAddress i;
     si_RelayHubSource := si_RelayHubSource i; si_RelayHubProxyAddress := si_RelayHubProxyAddress i;
     si_ChainID := si_ChainID i; si_RPCURL := si_RPCURL i; si_NodeBalance := si_NodeBalance i;
     si_CurrentGasLimit := si_CurrentGasLimit i; si_AccountRulesAddress := si_AccountRulesAddress i;
     si_AccountRulesSource := si_AccountRulesSource i; si_NodePermitted := si_NodePermitted i;
     si_EnforceAccountRules := si_EnforceAccountRules i;
     si_MinExpirationSeconds := si_MinExpirationSeconds i;
     si_ExpirationToleranceSeconds := si_ExpirationToleranceSeconds i;
     si_ReorderEnabled := si_ReorderEnabled i; si_ReorderWindowMs := si_ReorderWindowMs i;
     si_MaxInflightPerUser := si_MaxInflightPerUser i; si_ReceiptTimeoutMs := si_ReceiptTimeoutMs i;
     si_AutoNonce := si_AutoNonce i; si_AutoNonceTicketMs := si_AutoNonceTicketMs i |}.

Definition set_chain (chainID balance gasLimit : option string) (permitted : option bool)
    (i : ServiceInfo) : ServiceInfo :=
  {| si_NodeAddress := si_NodeAddress i; si_RelayHubAddress := si_RelayHubAddress i;
     si_RelayHubSource := si_RelayHubSource i; si_RelayHubProxyAddress := si_RelayHubProxyAddress i;
     si_ChainID := chainID; si_RPCURL := si_RPCURL i; si_NodeBalance := balance;
     si_CurrentGasLimit := gasLimit; si_AccountRulesAddress := si_AccountRulesAddress i;
     si_AccountRulesSource := si_AccountRulesSource i; si_NodePermitted := permitted;
     si_EnforceAccountRules := si_EnforceAccountRules i;
     si_MinExpirationSeconds := si_MinExpirationSeconds i;
     si_ExpirationToleranceSeconds := si_ExpirationToleranceSeconds i;
     si_ReorderEnabled := si_ReorderEnabled i; si_ReorderWindowMs := si_ReorderWindowMs i;
     si_MaxInflightPerUser := si_MaxInflightPerUser i; si_ReceiptTimeoutMs := si_ReceiptTimeoutMs i;
     si_AutoNonce := si_AutoNonce i; si_AutoNonceTicketMs := si_AutoNonceTicketMs i |}.

(** A query that fails leaves the field as it was. *)
Definition on_ok {A B} (r : result error A) (f : A → B) (before : B) : B :=
  match r with Ok a => f a | Err _ => before end.

(** The networks of the four queries, and of the connection: each may answer or fail on
    its own. *)
Record info_reading := {
  ir_connect : Node; ir_chain : Node; ir_balance : Node; ir_gas : Node; ir_permitted : Node;
}.

Definition Info (rd : info_reading) (s : Rules) : ServiceInfo :=
  let info := configured_info s in
  match NodeAddress c with
  | Err _ => info
  | Ok nodeAddress =>
      let info := set_NodeAddress (address_Hex nodeAddress) info in
      match Connect (ir_connect rd) (NodeURL (Application c)) with
      | Err _ => info
      | Ok _ =>
          set_chain
            (on_ok (ChainID (ir_chain rd)) text (si_ChainID info))
            (on_ok (BalanceOf (ir_balance rd) nodeAddress) text (si_NodeBalance info))
            (match RelayHubContractAddress (Application c) with
             | Some hub => on_ok (GetCurrentGasLimit (ir_gas rd) hub) text (si_CurrentGasLimit info)
             | None => si_CurrentGasLimit info
             end)
            (match si_AccountRulesAddress info with
             | Some a => on_ok (Client.AccountPermitted (ir_permitted rd) (HexToAddress a) nodeAddress)
                           Some (si_NodePermitted info)
             | None => si_NodePermitted info
             end) info
      end
  end.

(** What the chain cannot change. *)
Definition from_configuration (i : ServiceInfo) :=
  (si_RelayHubAddress i, si_RelayHubSource i, si_RelayHubProxyAddress i, si_RPCURL i,
   si_AccountRulesAddress i, si_AccountRulesSource i, si_EnforceAccountRules i,
   (si_MinExpirationSeconds i, si_ExpirationToleranceSeconds i, si_ReorderEnabled i,
    si_ReorderWindowMs i, si_MaxInflightPerUser i, si_ReceiptTimeoutMs i,
    si_AutoNonce i, si_AutoNonceTicketMs i)).

(** [GET /info] degrades one field at a time. Whatever the network does, what comes
    from the configuration is reported, the window of expiration and the ticket as the
    ones in force; and once the node's key can be read and the connection made, each of
    the four fields that come from the chain is decided by its own query: with any
    other network for the other three it is the same, and it has a value when its
    query answered, the permission of the node keeping otherwise what was found at
    start-up. *)
Theorem info_degrades_field_by_field rd s :
  from_configuration (Info rd s) = from_configuration (configured_info s) ∧
  (∀ nodeAddress, NodeAddress c = Ok nodeAddress →
     Connect (ir_connect rd) (NodeURL (Application c)) = Ok tt →
     si_NodeAddress (Info rd s) = address_Hex nodeAddress ∧
     si_ChainID (Info rd s) = on_ok (ChainID (ir_chain rd)) text None ∧
     si_NodeBalance (Info rd s) = on_ok (BalanceOf (ir_balance rd) nodeAddress) text None ∧
     si_CurrentGasLimit (Info rd s) =
       match RelayHubContractAddress (Application c) with
       | Some hub => on_ok (GetCurrentGasLimit (ir_gas rd) hub) text None
       | None => None
       end ∧
     si_NodePermitted (Info rd s) =
       match rules s with
       | Some r => on_ok (Client.AccountPermitted (ir_permitted rd)
                            (HexToAddress (address_Hex (ar_address r))) nodeAddress)
                     Some (nodePermitted s)
       | None => nodePermitted s
       end) ∧
  ((∀ nodeAddress, NodeAddress c ≠ Ok nodeAddress) ∨
   Connect (ir_connect rd) (NodeURL (Application c)) ≠ Ok tt →
     si_ChainID (Info rd s) = None ∧ si_NodeBalance (Info rd s) = None ∧
     si_CurrentGasLimit (Info rd s) = None ∧ si_NodePermitted (Info rd s) = nodePermitted s).
Proof.
  unfold Info. destruct (NodeAddress c) as [nodeAddress|e].
  - destruct (Connect (ir_connect rd) (NodeURL (Application c))) as [[]|e].
    + refine (conj _ (conj _ _)); [done | |naive_solver].
      intros ? [= <-] _. repeat split. simpl. unfold AccountRulesAddress. by destruct (rules s).
    + done.
  - done.
Qed.

End Info.

#[local] Existing Instances sample_geth sample_eth sample_errors.

(** A network whose only failure is the chain identifier. *)
Definition no_chain_id : Node := {|
  Dial := Dial sample_node; PendingNonceAt := PendingNonceAt sample_node;
  NonceAt := NonceAt sample_node; TransactionReceipt := TransactionReceipt sample_node;
  HeaderByNumber := HeaderByNumber sample_node;
  eth_ChainID := Err (ForeignError {| f_text := "unavailable"; f_code := None; f_data := None |});
  BalanceAt := BalanceAt sample_node; CodeAt := CodeAt sample_node;
  NewRelay := NewRelay sample_node; NewAccount := NewAccount sample_node;
  hub_RelayMetaTx := hub_RelayMetaTx sample_node; hub_DeployMetaTx := hub_DeployMetaTx sample_node;
  hub_IncreaseGasUsed := hub_IncreaseGasUsed sample_node; hub_GetNonce := hub_GetNonce sample_node;
  hub_GetGasLimit := hub_GetGasLimit sample_node;
  hub_GetMaxGasBlockLimit := hub_GetMaxGasBlockLimit sample_node;
  hub_GetNodeGasLimit := hub_GetNodeGasLimit sample_node;
  hub_GetCurrentGasLimit := hub_GetCurrentGasLimit sample_node;
  acc_AccountPermitted := acc_AccountPermitted sample_node;
  ingress_getContractAddress := ingress_getContractAddress sample_node;
|}.

Lemma info_degrades_field_by_field_witness :
  let rd := {| ir_connect := no_chain_id; ir_chain := no_chain_id; ir_balance := no_chain_id;
               ir_gas := no_chain_id; ir_permitted := no_chain_id |} in
  let i := Info sample_config rd {| rules := None; nodePermitted := Some true |} in
  si_ChainID i = None ∧ si_NodeBalance i = Some "0" ∧ si_CurrentGasLimit i = Some "1000000" ∧
  si_NodePermitted i = Some true ∧ si_MinExpirationSeconds i = 300.
Proof.
  set (rd := {| ir_connect := no_chain_id; ir_chain := no_chain_id; ir_balance := no_chain_id;
                ir_gas := no_chain_id; ir_permitted := no_chain_id |}). cbv zeta.
  destruct (info_degrades_field_by_field sample_config rd
    {| rules := None; nodePermitted := Some true |}) as (_ & Hchain & _).
  destruct (Hchain (replicate 20 1) eq_refl eq_refl) as (_ & -> & -> & -> & ->).
  vm_compute. auto 10.
Defined.
