(* ===== verification/Http.v ===== *)
(** Requests and responses of [net/http] as the controllers see them, and the two ways
    the REST routes answer: [writeJSON] and [writeError] of [controller/router.go]. *)

From S2P Require Import Prelude GoLib JsonText JsonScan Codec Config Errors Events AuditLog Client Permissioning Tracker Handout MetaTx Reorder Correlation Gas Service Revert Hub Settle Nonces Info.

(** A request: the path, of characters that need no escaping, the query as it came and
    the first value of a header and of a parameter of it, empty when there is none, and
    the body as it was read, with the error of reading it. *)
Record http_request := {
  rq_Method : string;
  rq_Path : string;
  rq_RawQuery : string;
  rq_Header : string → string;
  rq_Query : string → string;
  rq_Body : bytes * option error;
}.

Abbreviation headers := (gmap string (list string)).

(** The headers under construction; what was sent with the status line, which later
    changes do not reach; the body. *)
Record response := {
  rs_Header : headers;
  rs_Sent : option (Z * headers);
  rs_Body : bytes;
}.

Definition no_response : response := {| rs_Header := ∅; rs_Sent := None; rs_Body := [] |}.

Definition set_header (k v : string) (w : response) : response :=
  {| rs_Header := <[k := [v]]> (rs_Header w); rs_Sent := rs_Sent w; rs_Body := rs_Body w |}.

Definition add_header (k v : string) (w : response) : response :=
  {| rs_Header := <[k := default [] (rs_Header w !! k) ++ [v]]> (rs_Header w);
     rs_Sent := rs_Sent w; rs_Body := rs_Body w |}.

(** Only the first status counts. *)
Definition WriteHeader (status : Z) (w : response) : response :=
  {| rs_Header := rs_Header w;
     rs_Sent := match rs_Sent w with Some s => Some s | None => Some (status, rs_Header w) end;
     rs_Body := rs_Body w |}.

Definition Write (bs : bytes) (w : response) : response :=
  let w := WriteHeader 200 w in
  {| rs_Header := rs_Header w; rs_Sent := rs_Sent w; rs_Body := rs_Body w ++ bs |}.

(** What the client receives: a handler that writes nothing answers 200 all the same. *)
Definition status_of (w : response) : Z := match rs_Sent w with Some (s, _) => s | None => 200 end.
Definition headers_of (w : response) : headers :=
  match rs_Sent w with Some (_, h) => h | None => rs_Header w end.

(** What follows the prefix, without slashes around it. *)
Fixpoint trim_left_slash (s : string) : string :=
  match s with
  | String ch s' => if Ascii.eqb ch "/" then trim_left_slash s' else s
  | EmptyString => EmptyString
  end.

Definition trim_slash (s : string) : string :=
  let s := trim_left_slash s in
  String.string_of_list_ascii (reverse (String.list_ascii_of_string
    (trim_left_slash (String.string_of_list_ascii (reverse (String.list_ascii_of_string s)))))).

Definition pathParam (r : http_request) (prefix : string) : string :=
  trim_slash (trim_prefix prefix (rq_Path r)).

Example trim_slash_ex : trim_slash "/0xab//" = "0xab".
Proof. reflexivity. Qed.

(** ** Bodies *)

Record nonceResponse := {
  nr_Address : string;
  nr_Nonce : string;
  nr_NonceHex : string;
  nr_NextNonce : string;
  nr_NextNonceHex : string;
  nr_Pending : Z;
}.

(** What is serialised; a nil answer is the JSON [null]. *)
Inductive payload :=
  | PInfo (i : ServiceInfo)
  | PNonce (n : nonceResponse)
  | PRelay (r : RelayResult)
  | PFields (f : fields) (details : option fields)
  | PMessage (m : option JsonrpcMessage).

(** What go-ethereum marshals of its own types, a receipt alone and with a [revertReason]
    beside its members; and what [encoding/json] makes of a value that no type is given for. *)
Class Json := {
  json_MarshalHash : hash → result error bytes;
  json_MarshalReceipt : option Receipt → result error bytes;
  json_MarshalReverted : Receipt * string → result error bytes;
  json_Interface : bytes → option value;
}.

(** *** Writing

    The members of a struct go in the order of its fields, those of a map in that of its keys. *)
Fixpoint insert_member (m : string * bytes) (l : list (string * bytes)) : list (string * bytes) :=
  match l with
  | [] => [m]
  | x :: l' => if String.leb m.1 x.1 then m :: l else x :: insert_member m l'
  end.

Definition sorted_members (l : list (string * bytes)) : list (string * bytes) :=
  foldr insert_member [] l.

Definition marshal_struct (l : list (string * bytes)) : bytes :=
  object ((λ m, (string_bytes m.1, m.2)) <$> l).

Definition marshal_map (l : list (string * bytes)) : bytes := marshal_struct (sorted_members l).

Definition marshal_fields (f : fields) : bytes := marshal_map (prod_map id marshal_value <$> map_to_list f).

Definition marshal_bool (b : bool) : bytes := marshal_value (VBool b).

(** A pointer is [null] when it is nil. *)
Definition marshal_pointer {A} (f : A → bytes) (o : option A) : bytes :=
  match o with Some a => f a | None => string_bytes "null" end.

Definition marshal_info (i : ServiceInfo) : bytes :=
  let str := marshal_string in
  let ptr := marshal_pointer marshal_string in
  marshal_struct
    [("nodeAddress", str (si_NodeAddress i));
     ("relayHubAddress", ptr (si_RelayHubAddress i));
     ("relayHubSource", str (si_RelayHubSource i));
     ("relayHubProxyAddress", ptr (si_RelayHubProxyAddress i));
     ("chainId", ptr (si_ChainID i));
     ("rpcUrl", str (si_RPCURL i));
     ("nodeBalance", ptr (si_NodeBalance i));
     ("currentGasLimit", ptr (si_CurrentGasLimit i));
     ("accountRulesAddress", ptr (si_AccountRulesAddress i));
     ("accountRulesSource", ptr (si_AccountRulesSource i));
     ("nodePermitted", marshal_pointer marshal_bool (si_NodePermitted i));
     ("enforceAccountRules", marshal_bool (si_EnforceAccountRules i));
     ("minExpirationSeconds", int_text (si_MinExpirationSeconds i));
     ("expirationToleranceSeconds", int_text (si_ExpirationToleranceSeconds i));
     ("reorderEnabled", marshal_bool (si_ReorderEnabled i));
     ("reorderWindowMs", int_text (si_ReorderWindowMs i));
     ("maxInflightPerUser", int_text (si_MaxInflightPerUser i));
     ("receiptTimeoutMs", int_text (si_ReceiptTimeoutMs i));
     ("autoNonce", marshal_bool (si_AutoNonce i));
     ("autoNonceTicketMs", int_text (si_AutoNonceTicketMs i))].

Definition marshal_nonce (n : nonceResponse) : bytes :=
  marshal_struct
    [("address", marshal_string (nr_Address n));
     ("nonce", marshal_string (nr_Nonce n));
     ("nonceHex", marshal_string (nr_NonceHex n));
     ("nextNonce", marshal_string (nr_NextNonce n));
     ("nextNonceHex", marshal_string (nr_NextNonceHex n));
     ("pending", int_text (nr_Pending n))].

Definition marshal_relay (r : RelayResult) : bytes :=
  let str := marshal_string in
  let ptr := marshal_pointer marshal_string in
  marshal_struct
    [("transactionHash", str (rr_TransactionHash r));
     ("isDeploy", marshal_bool (rr_IsDeploy r));
     ("deployedAddress", ptr (rr_DeployedAddress r));
     ("blockNumber", marshal_pointer int_text (rr_BlockNumber r));
     ("gasUsed", str (rr_GasUsed r));
     ("errorCode", marshal_pointer int_text (rr_ErrorCode r));
     ("errorCodeName", ptr (rr_ErrorCodeName r));
     ("executed", marshal_pointer marshal_bool (rr_Executed r));
     ("output", ptr (rr_Output r));
     ("from", str (rr_From r));
     ("to", ptr (rr_To r));
     ("nonce", int_text (rr_Nonce r));
     ("metaTxGasLimit", str (rr_MetaTxGasLimit r));
     ("events", array (marshal_string <$> rr_Events r));
     ("simulated", marshal_bool (rr_Simulated r))].

(** The map of [GetMetaTxResult]. *)
Definition json_MarshalResult (m : metaTxResult) : result error bytes :=
  let ptr := marshal_pointer marshal_string in
  Ok (marshal_map
    [("transactionHash", marshal_string (mr_transactionHash m));
     ("mined", marshal_bool (mr_mined m));
     ("success", marshal_bool (mr_success m));
     ("executed", marshal_bool (mr_executed m));
     ("errorCode", ptr (mr_errorCode m));
     ("revertReason", ptr (mr_revertReason m));
     ("deployedAddress", ptr (mr_deployedAddress m))]).

Definition json_Marshal (p : payload) : result error bytes :=
  match p with
  | PInfo i => Ok (marshal_info i)
  | PNonce n => Ok (marshal_nonce n)
  | PRelay r => Ok (marshal_relay r)
  | PFields f details =>
      Ok (marshal_map ((prod_map id marshal_value <$> map_to_list f)
            ++ match details with Some d => [("details", marshal_fields d)] | None => [] end))
  | PMessage None => Ok (string_bytes "null")
  | PMessage (Some m) =>
      match marshal_message m with Ok text => Ok text | Err e => Err (json_plain e) end
  end.

(** *** Reading: a message, the parameters of one, and the body of [POST /relay]. *)
Section Read.
Context `{GoUnicode} `{Json}.

Definition json_DecodeMessage (bs : bytes) : result error JsonrpcMessage :=
  decode_rpc_message json_Interface bs.
Definition json_UnmarshalStrings (raw : RawMessage) : result error (list string) := unmarshal_strings raw.
Definition json_DecodeRelay (bs : bytes) : result error (string * string) := decode_relay bs.
End Read.

(** [{"error":"no se pudo serializar la respuesta"}]; 34 is the quotation mark. *)
Definition not_serialised : bytes :=
  string_bytes "{" ++ [34] ++ string_bytes "error" ++ [34] ++ string_bytes ":" ++ [34] ++
  string_bytes "no se pudo serializar la respuesta" ++ [34] ++ string_bytes "}".

Section Write.
Definition writeJSON (status : Z) (body : payload) (w : response) : response :=
  match json_Marshal body with
  | Err _ =>
      Write not_serialised
        (WriteHeader 500 (set_header "Content-Type" "application/json" w))
  | Ok encoded => Write encoded (WriteHeader status (set_header "Content-Type" "application/json" w))
  end.

Definition error_payload (message code : string) (details : option fields) : payload :=
  PFields (let body := <["error" := VStr message]> ∅ in
           if bool_decide (code = "") then body else <["code" := VStr code]> body) details.

Definition writeError (status : Z) (message code : string) (details : option fields)
    (w : response) : response :=
  writeJSON status (error_payload message code details) w.
End Write.

(** A handler acts on the state of the service and on the response. A panic ends the
    request, not the server; a handler that waits for another request has not ended. *)
Inductive ending := Done | Panicked (why : string) | Waiting.

#[export] Instance ending_eq_dec : EqDecision ending.
Proof. solve_decision. Defined.

Definition handler (S : Type) := http_request → S → response → ending * S * response.

(** A response is complete once its status line was sent. *)
Lemma writeJSON_sends status body w :
  rs_Sent w = None →
  status_of (writeJSON status body w) ∈ [status; 500] ∧
  headers_of (writeJSON status body w) !! "Content-Type" = Some ["application/json"].
Proof.
  intros Hw. unfold writeJSON, status_of, headers_of.
  destruct (json_Marshal body); simpl; rewrite Hw; simpl; rewrite lookup_insert_eq; set_solver.
Qed.

(** Hashes as texts, nothing of the receipts, and values without a type that are not read. *)
Definition sample_json : Json := {|
  json_MarshalHash h := Ok (marshal_string (hash_Hex h));
  json_MarshalReceipt _ := Ok [];
  json_MarshalReverted _ := Ok [];
  json_Interface := sample_interface;
|}.

Definition sample_request (method path : string) (origin : string) : http_request := {|
  rq_Method := method; rq_Path := path; rq_RawQuery := "";
  rq_Header k := if bool_decide (k = "Origin") then origin else "";
  rq_Query _ := ""; rq_Body := ([], None) |}.
