(* ===== verification/Router.v ===== *)
(** The routes of the service and what wraps them, [controller/router.go], with the
    matching of [http.ServeMux] that the routes rely on: patterns without method or
    wildcard, an exact one before a subtree, the longest subtree first, a clean path
    or a redirection to it. *)

From S2P Require Import Prelude GoLib Config Errors Events AuditLog Client Permissioning Tracker Handout MetaTx Reorder Correlation Gas Service Revert Hub Settle Nonces Info Http.

(** ** [path.Clean] and the cleaning of a request *)

(** The segments of a path: what is between its slashes. *)
Fixpoint segments (s : string) : list string :=
  match s with
  | EmptyString => [EmptyString]
  | String ch s' =>
      if Ascii.eqb ch "/" then EmptyString :: segments s'
      else match segments s' with
           | [] => [String ch EmptyString]
           | seg :: rest => String ch seg :: rest
           end
  end.

(** Without empty segments and dots, every pair of dots with the segment before it. *)
Fixpoint resolve_dots (acc segs : list string) : list string :=
  match segs with
  | [] => acc
  | seg :: segs =>
      if bool_decide (seg = "") || bool_decide (seg = ".") then resolve_dots acc segs
      else if bool_decide (seg = "..") then resolve_dots (take (length acc - 1) acc) segs
      else resolve_dots (acc ++ [seg]) segs
  end.

Fixpoint join_path (segs : list string) : string :=
  match segs with
  | [] => EmptyString
  | seg :: segs => "/" +:+ (seg +:+ join_path segs)
  end.

(** The path from the root, a final slash kept. *)
Definition cleanPath (p : string) : string :=
  let clean := join_path (resolve_dots [] (segments p)) in
  if bool_decide (clean = "") then "/"
  else if has_suffix "/" p then clean +:+ "/" else clean.

(** ** [http.ServeMux] *)

Section Mux.
Context {H : Type}.

Abbreviation mux := (list (string * H)).

(** The longest of the subtrees that the path is in. *)
Definition longer (a b : string * H) : string * H :=
  if (String.length a.1 <? String.length b.1)%nat then b else a.

Fixpoint subtree_match (m : mux) (path : string) : option (string * H) :=
  match m with
  | [] => None
  | e :: m =>
      if has_suffix "/" e.1 && has_prefix e.1 path then
        match subtree_match m path with
        | Some e' => Some (longer e e')
        | None => Some e
        end
      else subtree_match m path
  end.

Inductive route := Handle (h : H) | MovedPermanently (to : string) | NotFound.

(** An exact pattern; a redirection when only the path with a slash more has one; a
    subtree. *)
Definition find_route (m : mux) (path : string) : route :=
  match list_find (λ e, e.1 = path) m with
  | Some (_, (_, h)) => Handle h
  | None =>
      match list_find (λ e, e.1 = path +:+ "/") m with
      | Some _ => if has_suffix "/" path then
                    match subtree_match m path with Some (_, h) => Handle h | None => NotFound end
                  else MovedPermanently (path +:+ "/")
      | None => match subtree_match m path with Some (_, h) => Handle h | None => NotFound end
      end
  end.

Definition findHandler (m : mux) (method path : string) : route :=
  if bool_decide (method = "CONNECT") then find_route m path
  else
    match find_route m (cleanPath path) with
    | MovedPermanently to => MovedPermanently to
    | r => if bool_decide (cleanPath path = path) then r else MovedPermanently (cleanPath path)
    end.
End Mux.
Arguments route H : clear implicits.

(** ** The routes *)

Section Routes.
Context {S : Type} `{GoUnicode}.
Context (SignTransaction Info Relay Nonce Page Stream : handler S).

Definition onlyMethod (method : string) (next : handler S) : handler S :=
  λ r s w,
    if bool_decide (rq_Method r ≠ method) then
      (Done, s,
       writeJSON 405
         (PFields (<["error" := VStr ("metodo no permitido: " +:+ rq_Path r +:+ " solo acepta "
                                      +:+ method)]> ∅) None)
         (set_header "Allow" method w))
    else next r s w.

Definition Routes (cfg : option Config) : list (string * handler S) :=
  [("/", SignTransaction);
   ("/info", onlyMethod "GET" Info);
   ("/relay", onlyMethod "POST" Relay);
   ("/nonce/", onlyMethod "GET" Nonce)] ++
  (if match cfg with Some c => dashboard_Enabled (Dashboard c) | None => false end
   then [("/dashboard", onlyMethod "GET" Page); ("/dashboard/stream", onlyMethod "GET" Stream)]
   else []).

(** A redirection keeps the query of the request. *)
Definition Location (to : string) (r : http_request) : string :=
  if bool_decide (rq_RawQuery r = "") then to else to +:+ ("?" +:+ rq_RawQuery r).

(** [http.Redirect], which names the type of the page it writes for a browser when it was
    asked with GET or HEAD; the page itself is left out of the model. *)
Definition Redirect (to : string) : handler S :=
  λ r s w,
    let typed := bool_decide (rs_Header w !! "Content-Type" = None) &&
                 (bool_decide (rq_Method r = "GET") || bool_decide (rq_Method r = "HEAD")) in
    let w := set_header "Location" (Location to r) w in
    let w := if typed then set_header "Content-Type" "text/html; charset=utf-8" w else w in
    (Done, s, WriteHeader 301 w).

(** [http.NotFound]. *)
Definition NotFoundPage : handler S :=
  λ r s w,
    (Done, s, Write (string_bytes "404 page not found" ++ [10])
                (WriteHeader 404
                  (set_header "X-Content-Type-Options" "nosniff"
                    (set_header "Content-Type" "text/plain; charset=utf-8" w)))).

Definition ServeHTTP (m : list (string * handler S)) : handler S :=
  λ r s w,
    match findHandler m (rq_Method r) (rq_Path r) with
    | Handle h => h r s w
    | MovedPermanently to => Redirect to r s w
    | NotFound => NotFoundPage r s w
    end.

(** ** Requests of other origins *)

Definition corsAllowedMethods := "GET, POST, OPTIONS".
Definition corsAllowedHeaders := "Content-Type, Last-Event-ID".
Definition corsMaxAge := "600".

Fixpoint match_in (origins : list string) (origin : string) : string :=
  match origins with
  | [] => ""
  | allowed :: origins =>
      if bool_decide (allowed = "*") then "*"
      else if equal_fold allowed origin then origin else match_in origins origin
  end.

Definition matchOrigin (origins : list string) (origin : string) : string :=
  if bool_decide (origin = "") then "" else match_in origins origin.

Definition cors_headers (allowed : string) (w : response) : response :=
  set_header "Access-Control-Max-Age" corsMaxAge
    (set_header "Access-Control-Allow-Headers" corsAllowedHeaders
      (set_header "Access-Control-Allow-Methods" corsAllowedMethods
        (add_header "Vary" "Origin"
          (set_header "Access-Control-Allow-Origin" allowed w)))).

Definition withCORS (next : handler S) (origins : list string) : handler S :=
  if bool_decide (origins = []) then next
  else λ r s w,
    let allowed := matchOrigin origins (rq_Header r "Origin") in
    let w := if bool_decide (allowed = "") then w else cors_headers allowed w in
    if bool_decide (rq_Method r = "OPTIONS") then (Done, s, WriteHeader 204 w)
    else next r s w.

Definition Handler (cfg : option Config) : handler S :=
  withCORS (ServeHTTP (Routes cfg))
    (match cfg with Some c => default [] (AllowedOrigins (CORS c)) | None => [] end).

End Routes.

Example cleanPath_ex : cleanPath "//relay/../nonce/./0x1/" = "/nonce/0x1/".
Proof. reflexivity. Qed.

(** ** Properties *)

Lemma join_path_root segs : segs ≠ [] → ∃ t, join_path segs = "/" +:+ t.
Proof. destruct segs as [|seg segs]; [done|]. intros _. by eexists. Qed.

Lemma clean_from_root p : cleanPath p = p → ∃ t, p = "/" +:+ t.
Proof.
  intros <-. unfold cleanPath. case_bool_decide as Hc; [by exists ""|].
  destruct (join_path_root (resolve_dots [] (segments p))) as [t Ht].
  { by intros Hnil; rewrite Hnil in Hc. }
  rewrite Ht. destruct (has_suffix "/" p); [|by exists t]. exists (t +:+ "/").
  apply string_app_assoc.
Qed.

Lemma string_snoc_inj s t p : s +:+ p = t +:+ p → s = t.
Proof.
  intros Heq. assert (String.length s = String.length t) as Hlen.
  { apply (f_equal String.length) in Heq.
    assert (Ha : ∀ a b : string, String.length (a +:+ b) = (String.length a + String.length b)%nat).
    { induction a as [|c a IH]; intros b; [done|].
      change (String c a +:+ b) with (String c (a +:+ b)). simpl. by rewrite IH. }
    rewrite !Ha in Heq. lia. }
  revert t Heq Hlen. induction s as [|c s IH]; intros [|c' t]; try done.
  change (String c s +:+ p) with (String c (s +:+ p)).
  change (String c' t +:+ p) with (String c' (t +:+ p)).
  intros [= -> Heq] [= Hlen]. f_equal. by apply IH.
Qed.

Section RoutingTable.
Context {S : Type} `{GoUnicode}.
Context (SignTransaction Info Relay Nonce Page Stream : handler S) (cfg : option Config).

Abbreviation routes := (Routes SignTransaction Info Relay Nonce Page Stream cfg).

Definition dashboard_on : bool :=
  match cfg with Some c => dashboard_Enabled (Dashboard c) | None => false end.

(** Who attends a path. *)
Definition attends (path : string) : route (handler S) :=
  if bool_decide (path = "/info") then Handle (onlyMethod "GET" Info)
  else if bool_decide (path = "/relay") then Handle (onlyMethod "POST" Relay)
  else if bool_decide (path = "/nonce") then MovedPermanently "/nonce/"
  else if has_prefix "/nonce/" path then Handle (onlyMethod "GET" Nonce)
  else if dashboard_on && bool_decide (path = "/dashboard") then Handle (onlyMethod "GET" Page)
  else if dashboard_on && bool_decide (path = "/dashboard/stream")
       then Handle (onlyMethod "GET" Stream)
  else Handle SignTransaction.

Lemma subtree_of path :
  has_prefix "/" path = true →
  subtree_match routes path =
    Some (if has_prefix "/nonce/" path then ("/nonce/", onlyMethod "GET" Nonce)
          else ("/", SignTransaction)).
Proof.
  intros Hslash. unfold Routes.
  destruct (match cfg with Some c => _ | None => _ end);
    cbn -[has_prefix has_suffix onlyMethod];
    replace (has_suffix "/" "/") with true by done;
    replace (has_suffix "/" "/info") with false by done;
    replace (has_suffix "/" "/relay") with false by done;
    replace (has_suffix "/" "/nonce/") with true by done;
    replace (has_suffix "/" "/dashboard") with false by done;
    replace (has_suffix "/" "/dashboard/stream") with false by done;
    cbn -[has_prefix onlyMethod]; rewrite Hslash; by destruct (has_prefix "/nonce/" path).
Qed.

(** The exact pattern, for the paths that are not of the first four. *)
Lemma exact_of path :
  "/" ≠ path → "/info" ≠ path → "/relay" ≠ path → "/nonce/" ≠ path →
  snd <$> (list_find (λ e, e.1 = path) routes) =
    if dashboard_on then
      if decide ("/dashboard" = path) then Some ("/dashboard", onlyMethod "GET" Page)
      else if decide ("/dashboard/stream" = path) then Some ("/dashboard/stream", onlyMethod "GET" Stream)
      else None
    else None.
Proof.
  intros H1 H2 H3 H4. unfold Routes, dashboard_on.
  destruct (match cfg with Some c => _ | None => _ end); cbn -[onlyMethod];
    rewrite !decide_False by done; cbn -[onlyMethod]; [|done].
  destruct (decide ("/dashboard" = path)); [done|]. cbn -[onlyMethod].
  by destruct (decide ("/dashboard/stream" = path)).
Qed.

(** No pattern is the path with a slash more, but for two of them. *)
Lemma no_slash_more path :
  (∃ t, path = "/" +:+ t) → path ≠ "/nonce" →
  list_find (λ e, e.1 = path +:+ "/") routes = None.
Proof.
  intros Hroot Hn.
  assert (∀ q, has_suffix "/" q = false → q ≠ path +:+ "/") as Hs
    by (intros q Hq ->; by rewrite has_suffix_app in Hq).
  assert ("/" ≠ path +:+ "/" ∧ "/nonce/" ≠ path +:+ "/") as [Hs1 Hs2].
  { split; intros E; [change "/" with ("" +:+ "/") in E at 1 | change "/nonce/" with ("/nonce" +:+ "/") in E];
      apply string_snoc_inj in E; subst path; [by destruct Hroot | done]. }
  apply list_find_None. unfold Routes. apply Forall_app. split.
  - repeat constructor; simpl; auto.
  - destruct (match cfg with Some c => _ | None => _ end); repeat constructor; simpl; auto.
Qed.

Lemma find_route_attends path : (∃ t, path = "/" +:+ t) → find_route routes path = attends path.
Proof.
  intros Hroot. unfold attends, find_route.
  assert (has_prefix "/" path = true) as Hslash by (by apply has_prefix_spec).
  case_bool_decide as Hi; [by subst path; unfold Routes; destruct (match cfg with Some c => _ | None => _ end)|].
  case_bool_decide as Hr; [by subst path; unfold Routes; destruct (match cfg with Some c => _ | None => _ end)|].
  case_bool_decide as Hn; [by subst path; unfold Routes; destruct (match cfg with Some c => _ | None => _ end)|].
  destruct (decide (path = "/")) as [->|Hne]; [by destruct dashboard_on|].
  destruct (decide (path = "/nonce/")) as [->|Hns]; [by destruct dashboard_on|].
  rewrite no_slash_more, subtree_of by done.
  pose proof (exact_of path ltac:(congruence) ltac:(congruence) ltac:(congruence) ltac:(congruence))
    as Hexact.
  assert (has_prefix "/nonce/" "/dashboard" = false ∧ has_prefix "/nonce/" "/dashboard/stream" = false)
    as [Hd1 Hd2] by done.
  destruct (decide ("/dashboard" = path)) as [<-|Hp1];
    [|destruct (decide ("/dashboard/stream" = path)) as [<-|Hp2]];
    destruct (list_find _ routes) as [[i [p h]]|]; simpl in Hexact; destruct dashboard_on;
    simplify_eq; rewrite ?Hd1, ?Hd2; try done;
    rewrite !(bool_decide_eq_false_2 (path = _)) by congruence;
    by destruct (has_prefix "/nonce/" path).
Qed.

Lemma cleanPath_root path : ∃ t, cleanPath path = "/" +:+ t.
Proof.
  unfold cleanPath. case_bool_decide as Hc; [by exists ""|].
  destruct (join_path_root (resolve_dots [] (segments path))) as [t Ht].
  { by intros Hnil; rewrite Hnil in Hc. }
  rewrite Ht. destruct (has_suffix "/" path); [|by exists t]. exists (t +:+ "/").
  apply string_app_assoc.
Qed.

(** A request for a clean path, by the table. *)
Lemma serve_clean r s w :
  cleanPath (rq_Path r) = rq_Path r →
  ServeHTTP routes r s w =
    match attends (rq_Path r) with
    | Handle h => h r s w
    | MovedPermanently to => Redirect to r s w
    | NotFound => NotFoundPage r s w
    end.
Proof.
  intros Hclean. unfold ServeHTTP, findHandler. rewrite Hclean.
  rewrite (bool_decide_eq_true_2 (rq_Path r = rq_Path r)) by done.
  rewrite find_route_attends by (rewrite <-Hclean; apply cleanPath_root).
  by destruct (bool_decide _), (attends (rq_Path r)).
Qed.

Lemma only_refuses method (next : handler S) r s w :
  rq_Method r ≠ method →
  ∃ w', onlyMethod method next r s w = (Done, s, w') ∧
    (rs_Sent w = None → status_of w' = 405 ∧ headers_of w' !! "Allow" = Some [method]).
Proof.
  intros Hm. unfold onlyMethod. rewrite bool_decide_eq_true_2 by done.
  eexists. split; [done|]. intros Hw. unfold writeJSON, status_of, headers_of.
  simpl. rewrite Hw. simpl. split; [done|]. by rewrite lookup_insert_ne, lookup_insert_eq.
Qed.

(** Every request goes where the table says. A request for a clean path is attended
    by its own handler -- the four routes, and the two of the monitor only when it is
    on -- and by the JSON-RPC one otherwise; the method never changes the handler: a
    route asked with another method answers 405 and does not fall to JSON-RPC. A
    request for any other path touches nothing and is answered with a redirection,
    which keeps its query. *)
Theorem routing_table r s w :
  (cleanPath (rq_Path r) = rq_Path r →
     ServeHTTP routes r s w =
       match attends (rq_Path r) with
       | Handle h => h r s w
       | MovedPermanently to => Redirect to r s w
       | NotFound => NotFoundPage r s w
       end) ∧
  (rq_Method r ≠ "CONNECT" → cleanPath (rq_Path r) ≠ rq_Path r →
     ∃ to, ServeHTTP routes r s w = Redirect to r s w) ∧
  (∀ method next, rq_Method r ≠ method →
     ∃ w', onlyMethod method next r s w = (Done, s, w') ∧
       (rs_Sent w = None → status_of w' = 405 ∧ headers_of w' !! "Allow" = Some [method])).
Proof.
  refine (conj (serve_clean r s w) (conj _ _)).
  - intros Hm Hclean. unfold ServeHTTP, findHandler.
    rewrite !bool_decide_eq_false_2 by done.
    destruct (find_route routes (cleanPath (rq_Path r))); by eexists.
  - intros method next Hm. by apply only_refuses.
Qed.

(** ** Origins *)

Lemma match_in_spec origins origin :
  match_in origins origin = "" ∧ origin ≠ "" →
  "*" ∉ origins ∧ ∀ a, a ∈ origins → equal_fold a origin = false.
Proof.
  intros [Hm Ho]. induction origins as [|a origins IH]; [split; [|intros a]; set_solver|].
  simpl in Hm. case_bool_decide as Ha; [done|].
  destruct (equal_fold a origin) eqn:He; [done|]. destruct (IH Hm) as [? ?]. split; [set_solver|].
  intros b [->|Hb]%elem_of_cons; auto.
Qed.

Lemma match_in_allowed origins origin v :
  match_in origins origin = v → v ≠ "" →
  (v = "*" ∧ "*" ∈ origins) ∨ (v = origin ∧ ∃ a, a ∈ origins ∧ equal_fold a origin = true).
Proof.
  intros Hm Hv. induction origins as [|a origins IH]; simpl in Hm; [done|].
  case_bool_decide as Ha; [left; subst; split; [done|]; apply list_elem_of_here|].
  destruct (equal_fold a origin) eqn:He.
  - right. split; [done|]. exists a. split; [apply list_elem_of_here|done].
  - destruct (IH Hm) as [[-> ?]|[-> (b & ? & ?)]]; [left | right].
    + split; [done|]. by apply list_elem_of_further.
    + split; [done|]. exists b. split; [by apply list_elem_of_further|done].
Qed.

(** (C32) Other origins get in only by name. With some origins configured, a request of an
    origin that was not goes through with no header of this kind added; one that was gets
    its own name, or the star when that is what was configured; and the browser's question
    -- any OPTIONS -- is answered here, with 204 and whatever the state of the service
    untouched: asking about [POST /relay] relays nothing. With none configured nothing is
    added and the service is the bare routes, the question included: asked about a route
    of one method, it is answered 405 and the state is untouched, but asked about the
    root, or any path without a route, it reaches the JSON-RPC handler, which executes
    whatever the body of the question carries. *)
Theorem cors_fails_closed r s w :
  let origins := match cfg with Some c => default [] (AllowedOrigins (CORS c)) | None => [] end in
  let origin := rq_Header r "Origin" in
  let handle := Handler SignTransaction Info Relay Nonce Page Stream cfg in
  (origins = [] →
     handle = ServeHTTP routes ∧
     (rq_Method r = "OPTIONS" → cleanPath (rq_Path r) = rq_Path r →
        (∀ method next, attends (rq_Path r) = Handle (onlyMethod method next) →
           method ≠ "OPTIONS" → rs_Sent w = None →
           ∃ w', handle r s w = (Done, s, w') ∧ status_of w' = 405) ∧
        (attends (rq_Path r) = Handle SignTransaction → handle r s w = SignTransaction r s w)) ∧
     attends "/" = Handle SignTransaction) ∧
  (origins ≠ [] →
     ∃ w', handle r s w =
         (if bool_decide (rq_Method r = "OPTIONS") then (Done, s, WriteHeader 204 w')
          else ServeHTTP routes r s w') ∧
       ((w' = w ∧ (origin = "" ∨ "*" ∉ origins ∧ ∀ a, a ∈ origins → equal_fold a origin = false)) ∨
        (∃ v, w' = cors_headers v w ∧
           ((v = "*" ∧ "*" ∈ origins) ∨
            (v = origin ∧ ∃ a, a ∈ origins ∧ equal_fold a origin = true))))).
Proof.
  intros origins origin handle. subst handle. unfold Handler. fold origins. unfold withCORS.
  split.
  - intros ->. rewrite bool_decide_eq_true_2 by done. split; [done|].
    split; [|unfold attends; by destruct dashboard_on].
    intros Hm Hclean. rewrite serve_clean by done. split; [|by intros ->].
    intros method next -> Hne Hw.
    destruct (only_refuses method next r s w) as (w' & E & Hs); [congruence|].
    exists w'. split; [done|]. by apply Hs.
  - intros Hne. rewrite bool_decide_eq_false_2 by done. fold origin.
    eexists. split; [reflexivity|]. unfold matchOrigin.
    destruct (decide (origin = "")) as [Ho|Ho].
    { rewrite (bool_decide_eq_true_2 (origin = "")) by done. simpl. left. auto. }
    rewrite (bool_decide_eq_false_2 (origin = "")) by done.
    destruct (decide (match_in origins origin = "")) as [Hm|Hm].
    + rewrite bool_decide_eq_true_2 by done. left. split; [done|]. right. by apply match_in_spec.
    + rewrite bool_decide_eq_false_2 by done. right. eexists. split; [done|].
      by apply match_in_allowed.
Qed.
End RoutingTable.

(** ** Witnesses *)

#[local] Existing Instances sample_json sample_unicode.

(** Handlers that count what reaches them. *)
Definition counting (n : Z) : handler Z := λ _ s w, (Done, s + n, w).

Definition cors_config : Config := {|
  Application := Application sample_config; KeyStore := KeyStore sample_config;
  Passphrase := Passphrase sample_config; Security := Security sample_config;
  Reorder := Reorder sample_config; Dashboard := Dashboard sample_config;
  Config.Log := Config.Log sample_config; CORS := {| AllowedOrigins := Some ["https://app"] |};
  Validation := Validation sample_config; Permissioning := Permissioning sample_config |}.

Abbreviation sample_routes :=
  (Routes (counting 1) (counting 10) (counting 100) (counting 1000) (counting 10000)
     (counting 100000) (Some cors_config)).

Lemma routing_table_witness :
  ServeHTTP sample_routes (sample_request "POST" "/relay" "") 0 no_response =
    (Done, 100, no_response) ∧
  (∃ to, ServeHTTP sample_routes (sample_request "GET" "//info" "") 0 no_response =
           Redirect to (sample_request "GET" "//info" "") 0 no_response).
Proof.
  destruct (routing_table (counting 1) (counting 10) (counting 100) (counting 1000)
    (counting 10000) (counting 100000) (Some cors_config) (sample_request "POST" "/relay" "") 0
    no_response) as (Hclean & _ & _).
  destruct (routing_table (counting 1) (counting 10) (counting 100) (counting 1000)
    (counting 10000) (counting 100000) (Some cors_config) (sample_request "GET" "//info" "") 0
    no_response) as (_ & Hdirty & _).
  split; [by rewrite Hclean | by apply Hdirty].
Defined.

Lemma cors_fails_closed_witness :
  (∃ w', Handler (counting 1) (counting 10) (counting 100) (counting 1000) (counting 10000)
           (counting 100000) (Some cors_config) (sample_request "OPTIONS" "/relay" "https://app") 0
           no_response = (Done, 0, WriteHeader 204 w') ∧
         rs_Header w' !! "Access-Control-Allow-Origin" = Some ["https://app"]) ∧
  (∃ w', Handler (counting 1) (counting 10) (counting 100) (counting 1000) (counting 10000)
           (counting 100000) None (sample_request "OPTIONS" "/relay" "https://app") 0 no_response =
         (Done, 0, w') ∧ status_of w' = 405) ∧
  Handler (counting 1) (counting 10) (counting 100) (counting 1000) (counting 10000)
    (counting 100000) None (sample_request "OPTIONS" "/" "https://app") 0 no_response =
    (Done, 1, no_response).
Proof.
  destruct (cors_fails_closed (counting 1) (counting 10) (counting 100) (counting 1000)
    (counting 10000) (counting 100000) (Some cors_config)
    (sample_request "OPTIONS" "/relay" "https://app") 0 no_response) as [_ Hsome].
  destruct (cors_fails_closed (counting 1) (counting 10) (counting 100) (counting 1000)
    (counting 10000) (counting 100000) None
    (sample_request "OPTIONS" "/" "https://app") 0 no_response) as [Hnone _].
  destruct (cors_fails_closed (counting 1) (counting 10) (counting 100) (counting 1000)
    (counting 10000) (counting 100000) None
    (sample_request "OPTIONS" "/relay" "https://app") 0 no_response) as [Hrelay _].
  split_and!.
  - destruct (Hsome ltac:(done)) as (w' & Heq & _). eexists. split; [reflexivity|].
    vm_compute. reflexivity.
  - destruct (Hrelay eq_refl) as (_ & Hbare & _). destruct (Hbare eq_refl eq_refl) as [Hrefused _].
    by apply (Hrefused "POST" (counting 100)).
  - destruct (Hnone eq_refl) as (_ & Hbare & Hroot).
    destruct (Hbare eq_refl eq_refl) as [_ Hreach]. rewrite Hreach by exact Hroot. reflexivity.
Defined.
