(* ===== verification/Controller.v ===== *)
(** The two doors of the service, [package controller]: the JSON-RPC one,
    [SignTransaction] of [relayController.go] with the [process...] of
    [processController.go], and the REST one, [Relay], [Nonce] and [Info] of
    [endpoints.go]; with the answers of the service that only the first uses,
    [GetTransactionReceipt], [GetMetaTxResult] and [DecreaseGasUsed] of
    [service/relaySignerService.go]. *)

From S2P Require Import Prelude GoLib JsonText JsonScan Codec Config Errors Events AuditLog Client Permissioning Tracker Handout MetaTx Reorder Correlation Gas Service Revert Hub Settle Sending Nonces Info Http Rpc.

(** What the requests share: what the sends share, the rules of the accounts, and the
    log, which only grows. *)
Record World := { wd_shared : shared; wd_rules : Rules; wd_log : list emission }.

Definition wd_service (s : World) : Service := sh_service (wd_shared s).

Definition logged (l : list emission) (s : World) : World :=
  {| wd_shared := wd_shared s; wd_rules := wd_rules s; wd_log := wd_log s ++ l |}.

Definition with_shared (w : shared) (s : World) : World :=
  {| wd_shared := w; wd_rules := wd_rules s; wd_log := wd_log s |}.

Definition with_service (v : Service) (s : World) : World :=
  {| wd_shared := Sending.with_service v (wd_shared s); wd_rules := wd_rules s; wd_log := wd_log s |}.

Definition with_rules (r : Rules) (s : World) : World :=
  {| wd_shared := wd_shared s; wd_rules := r; wd_log := wd_log s |}.

(** What one request takes from outside: the identifiers it draws, the networks and the
    clock of each of its questions, and the answers of what is not of this package. *)
Record env := {
  en_request : string;
  en_metatx : string;
  en_prepare : reading;
  en_now : Z;
  en_later : Z;
  en_node : Node;
  en_node' : Node;
  en_info : info_reading;
  (** The goroutine of the request, and what its send reads: with the reordering off, and
      with it on, step by step with what the other requests do in between. *)
  en_goroutine : nat;
  en_send : send_reading;
  en_steps : list ((shared → shared) * send_input);
  (** The connection for the wait of the receipt, and each of its queries with what ends
      the pause after it. *)
  en_wait : Node;
  en_polls : list (Node * poll_end);
  (** The reverse proxy to the node. *)
  en_forward : http_request → response → ending * response;
}.

Section Controller.
Context `{GoUnicode} `{Geth} `{EthLib} `{PkgErrors} `{GoFmt} `{HubLib} `{Json}.
Context (duration_String : Z → string) (c : Config) (logRaw : bool) (en : env).

(** [errors.New] of the standard library. *)
Definition plain_error (msg : string) : error :=
  ForeignError {| f_text := msg; f_code := None; f_data := None |}.

Definition empty_answer (id : RawMessage) : JsonrpcMessage :=
  {| m_Version := ""; m_ID := id; m_Method := ""; m_Params := None; m_Error := None; m_Result := None |}.

(** The bytes of an answer with an error; none when it cannot be serialised. *)
Definition handleError (id : RawMessage) (e : error) : bytes :=
  match json_Marshal (PMessage (Some (HandleError id e))) with Ok bs => bs | Err _ => [] end.

(** ** The answers of the service *)

Definition recalled (ctx : context) (transactionID : string) (s : Service) : context * Service :=
  let '(ctx, m) := recallMetaTx (en_now en) ctx (HexToHash transactionID) (sv_memory s) in
  (ctx, with_memory m s).

Definition GetMetaTxResult (ctx : context) (id : RawMessage) (transactionID : string) (s : World) :
    outcome JsonrpcMessage * World :=
  let '(ctx, sv) := recalled ctx transactionID (wd_service s) in
  let s := with_service sv s in
  match Connect (en_node en) (NodeURL (Application c)) with
  | Err e => (Returns (HandleError id e), s)
  | Ok _ =>
      match Client.GetTransactionReceipt (en_node en) (HexToHash transactionID) with
      | Err e => (Returns (HandleError id e), s)
      | Ok receipt =>
          let '(r, t, log) := metaTxResultOf ctx transactionID (Some receipt) (sv_tracker sv) in
          (Response json_MarshalResult (empty_answer id) <$> r,
           logged log (with_service (with_tracker t sv) s))
      end
  end.

(** The failure to read the receipt is logged and not returned. *)
Definition GetTransactionReceipt (ctx : context) (id : RawMessage) (transactionID : string)
    (s : World) : outcome JsonrpcMessage * World :=
  let '(ctx, sv) := recalled ctx transactionID (wd_service s) in
  let s := with_service sv s in
  match Connect (en_node en) (NodeURL (Application c)) with
  | Err e => (Returns (HandleError id e), s)
  | Ok _ =>
      match Client.GetTransactionReceipt (en_node en) (HexToHash transactionID) with
      | Err _ => (Returns (Response json_MarshalReceipt (empty_answer id) None), s)
      | Ok receipt =>
          let '(r, t, log) := receiptViewOf ctx transactionID receipt (sv_tracker sv) in
          ((λ v, match rv_reverted v with
                 | Some reverted => Response json_MarshalReverted (empty_answer id) reverted
                 | None => Response json_MarshalReceipt (empty_answer id) (Some (rv_receipt v))
                 end) <$> r,
           logged log (with_service (with_tracker t sv) s))
      end
  end.

(** Sending apart from the doors, without the lock and without the quota. The transaction of
    the client, which is nil there, is looked at by nobody on the way ([tx] stands for it). *)
Definition SendMetatransaction (tx : Transaction) (ctx : context) (id : RawMessage) (to : option address)
    (gasLimit : Z) (signingData : bytes) (v : Z) (r s : bytes) (sender : string) (nonce : Z) (w : World) :
    outcome JsonrpcMessage * World :=
  let prepared := {| Tx := tx; From := HexToAddress sender; To := to; SigningData := signingData;
                     sig_V := v; sig_R := r; sig_S := s; Nonce := nonce; MetaTxGasLimit := gasLimit;
                     IsDeploy := bool_decide (to = None); SenderKey := sender |} in
  let '(res, sv, log) := sendPrepared c (en_send en) ctx prepared (wd_service w) in
  ((λ res, match res with
           | Err e => HandleError id e
           | Ok h => Response json_MarshalHash (empty_answer id) h
           end) <$> res,
   logged log (with_service sv w)).

(** The options that could not be made are used all the same. *)
Definition DecreaseGasUsed : outcome bool :=
  match Connect (en_node en) (NodeURL (Application c)) with
  | Err _ => Returns false
  | Ok _ =>
      match HexToECDSA (Key (Application c)) with
      | Err _ => Panics "log.Fatal"
      | Ok key =>
          match RelayHubContractAddress (Application c) with
          | None => Panics "nil *common.Address"
          | Some hub =>
              match ConfigTransaction (en_node en) key 30000 false with
              | Ok options => let _ := Client.DecreaseGasUsed (en_node en) hub options 25000 in Returns true
              | Err _ =>
                  match relay_instance (en_node en) hub with
                  | Err _ => Returns true
                  | Ok _ => Panics "nil *bind.TransactOpts"
                  end
              end
          end
      end
  end.

(** ** The JSON-RPC door *)

(** [s[2:]]. *)
Definition drop2 (s : string) : outcome string :=
  if (String.length s <? 2)%nat then Panics "slice bounds out of range" else Returns (drop_chars 2 s).

(** [params[0]]. *)
Definition param0 (params : list string) : outcome string :=
  match params with [] => Panics "index out of range" | p :: _ => Returns p end.

(** Writing the answer, or the error of not being able to. *)
Definition write_answer (id : RawMessage) (answer : option JsonrpcMessage) (w : response) : response :=
  match json_Marshal (PMessage answer) with
  | Ok data => Write data w
  | Err _ => Write (handleError id (plain_error "internal error")) w
  end.

Definition process (id : RawMessage) (w : response) (r : outcome JsonrpcMessage * World) :
    ending * World * response :=
  let '(r, s) := r in
  match r with
  | Panics why => (Panicked why, s, w)
  | Returns answer => (Done, s, write_answer id (Some answer) w)
  end.

Definition processGetTransactionReceipt (ctx : context) (msg : JsonrpcMessage) (s : World)
    (w : response) : ending * World * response :=
  match json_UnmarshalStrings (m_Params msg) with
  | Err _ => (Done, s, Write (handleError (m_ID msg) (plain_error "internal error")) w)
  | Ok params =>
      match param0 params ≫= drop2 with
      | Panics why => (Panicked why, s, w)
      | Returns h => process (m_ID msg) w (GetTransactionReceipt ctx (m_ID msg) h s)
      end
  end.

Definition processGetMetaTxResult (ctx : context) (msg : JsonrpcMessage) (s : World)
    (w : response) : ending * World * response :=
  match json_UnmarshalStrings (m_Params msg) with
  | Ok (p :: _) =>
      match drop2 p with
      | Panics why => (Panicked why, s, w)
      | Returns h => process (m_ID msg) w (GetMetaTxResult ctx (m_ID msg) h s)
      end
  | _ => (Done, s, Write (handleError (m_ID msg) (plain_error "invalid params: expected [txHash]")) w)
  end.

(** Asking the service for the count, which may wait. *)
Definition process_count (msg : JsonrpcMessage) (from : string) (isPending : bool) (s : World)
    (w : response) : ending * World * response :=
  let '(r, sv) := GetTransactionCount c (en_now en) (en_node en) (m_ID msg) from isPending
                    (wd_service s) in
  let s := with_service sv s in
  match r with
  | None => (Waiting, s, w)
  | Some r => process (m_ID msg) w (r, s)
  end.

(** A block that is neither of the two writes its error and goes on with a nil answer. *)
Definition PENDING := "PENDING".
Definition LATEST := "LATEST".

Definition processTransactionCount (msg : JsonrpcMessage) (s : World) (w : response) :
    ending * World * response :=
  match json_UnmarshalStrings (m_Params msg) with
  | Err _ => (Done, s, Write (handleError (m_ID msg) (plain_error "internal error")) w)
  | Ok [] => (Panicked "index out of range", s, w)
  | Ok [from] => process_count msg from false s w
  | Ok (from :: block :: _) =>
      if bool_decide (to_upper block = PENDING) then process_count msg from true s w
      else if bool_decide (to_upper block = LATEST) then process_count msg from false s w
      else
        let w := Write (handleError (m_ID msg)
                   (plain_error "parameter not defined, only pending or latest are allowed")) w in
        (Done, s, write_answer (m_ID msg) None w)
  end.

(** The copy of [DecodedFields] that this package keeps, and does not call: the fields of the
    transaction, and those of the suffix over them when it could be read. *)
Definition decodedFields (tx : Transaction) (from : address) (gasLimit now : Z) : fields :=
  let fields : fields :=
    <["from" := VStr (address_Hex from)]> (<["to" := VNil]>
    (<["isDeploy" := VBool (bool_decide (tx_To tx = None))]> (<["nonce" := VInt (tx_Nonce tx)]>
    (<["userGasLimit" := VInt (tx_Gas tx)]> (<["metaTxGasLimit" := VInt gasLimit]>
    (<["dataBytes" := VInt (Z.of_nat (length (tx_Data tx)))]> (<["nodeAddress" := VNil]>
    (<["expiration" := VNil]> (<["expiresInSeconds" := VNil]> (<["selector" := VNil]> ∅)))))))))) in
  let fields := match tx_To tx with
                | Some to => <["to" := VStr (address_Hex to)]> fields
                | None => fields
                end in
  let gasModel := DecodeGasModelSuffix (tx_Data tx) in
  if negb (Decoded gasModel) then fields
  else
    let fields := <["nodeAddress" := VStr (NodeAddress_ gasModel)]> fields in
    let fields := if negb (bool_decide (Selector gasModel = ""))
                  then <["selector" := VStr (Selector gasModel)]> fields else fields in
    match ExpirationSeconds gasModel with
    | Some e => <["expiresInSeconds" := VInt (i64 (i64 e - now))]> (<["expiration" := VInt e]> fields)
    | None => fields
    end.

Definition rejectMetaTx (ctx : context) (id : RawMessage) (e : error) (s : World) (w : response) :
    ending * World * response :=
  (Done, logged [Warn ctx "relay.rejected" (ErrorFields (Some e))] s, Write (handleError id e) w).

(** Decoding and validating, and then sending: what both doors do of a raw transaction.
    [None] while the send waits. *)
Definition prepare_and_send (ctx : context) (rawTx : string) (s : World) :
    option (outcome (result error (PreparedMetaTx * hash))) * World :=
  let '(r, rules, log) := PrepareMetaTx c (en_prepare en) ctx logRaw rawTx (wd_rules s) in
  let s := logged log (with_rules rules s) in
  match r with
  | Err e => (Some (Returns (Err e)), s)
  | Ok prepared =>
      let '(r, sh, log) := ReserveGasAndSend c (en_goroutine en) (en_send en) (en_steps en)
                             ctx prepared (wd_shared s) in
      (match r with
       | None => None
       | Some (Panics why) => Some (Panics why)
       | Some (Returns (Err e)) => Some (Returns (Err e))
       | Some (Returns (Ok h)) => Some (Returns (Ok (prepared, h)))
       end, logged log (with_shared sh s))
  end.

Definition processRawTransaction (ctx : context) (msg : JsonrpcMessage) (s : World) (w : response) :
    ending * World * response :=
  let ctx := WithMetaTxID ctx (en_metatx en) in
  match json_UnmarshalStrings (m_Params msg) with
  | Err e => rejectMetaTx ctx (m_ID msg) e s w
  | Ok [] => rejectMetaTx ctx (m_ID msg) (plain_error "invalid params: expected [rawTx]") s w
  | Ok (rawTx :: _) =>
      let '(r, s) := prepare_and_send ctx rawTx s in
      match r with
      | None => (Waiting, s, w)
      | Some (Panics why) => (Panicked why, s, w)
      | Some (Returns (Err e)) => rejectMetaTx ctx (m_ID msg) e s w
      | Some (Returns (Ok (_, h))) =>
          match json_Marshal (PMessage (Some (Response json_MarshalHash (empty_answer (m_ID msg)) h))) with
          | Ok data => (Done, s, Write data w)
          | Err _ => rejectMetaTx ctx (m_ID msg) (plain_error "internal error") s w
          end
      end
  end.

Definition forward (r : http_request) (s : World) (w : response) : ending * World * response :=
  let '(e, w) := en_forward en r w in (e, s, w).

Definition SignTransaction : handler World := λ r s w,
  let ctx := WithRequestID background (en_request en) in
  let w := set_header "Content-Type" "application/json" w in
  let '(buf, err) := rq_Body r in
  let s := match err with
           | Some e => logged [Warn ctx "http.bad_body" (ErrorFields (Some e))] s
           | None => s
           end in
  match json_DecodeMessage buf with
  | Err e => (Done, logged [Warn ctx "http.bad_body" (ErrorFields (Some e))] s, w)
  | Ok msg =>
      match kind_of msg with
      | ForwardPrivate => forward r s w
      | ForwardPrivateRaw =>
          match DecreaseGasUsed with
          | Panics why => (Panicked why, s, w)
          | Returns _ => forward r s w
          end
      | RawTransaction => processRawTransaction ctx msg s w
      | Receipt_ => processGetTransactionReceipt ctx msg s w
      | Count => processTransactionCount msg s w
      | MetaTxResult => processGetMetaTxResult ctx msg s w
      | Unsupported =>
          (Done, s, Write (handleError (m_ID msg) (plain_error "method is not supported")) w)
      end
  end.

(** ** The REST door *)

Definition RelayAndWait (ctx : context) (rawTx : string) (s : World) :
    option (outcome (result error RelayResult)) * World :=
  let '(r, s) := prepare_and_send ctx rawTx s in
  match r with
  | None => (None, s)
  | Some (Panics why) => (Some (Panics why), s)
  | Some (Returns (Err e)) => (Some (Returns (Err e)), s)
  | Some (Returns (Ok (prepared, h))) =>
      match waitForReceipt c duration_String (en_wait en) h (en_polls en) with
      | None => (None, s)
      | Some (Err e) => (Some (Returns (Err (Reject e CodeReceiptTimeout))), s)
      | Some (Ok receipt) =>
          let '(r, sv, log) := decodeRelayResult c (en_later en) ctx h prepared (Some receipt)
                                 (wd_service s) in
          (Some (Ok <$> r), logged log (with_service sv s))
      end
  end.

Definition FieldRawTx := "rawTx".
Definition FieldAlias := "signedTransaction".

(** The two names that the body may give the transaction. *)
Definition transaction (request : string * string) : string :=
  if bool_decide (request.1 ≠ "") then request.1 else request.2.

Definition detailsOf (e : error) : option fields :=
  match DetailsOf e with
  | Some d => Some d
  | None => if bool_decide (CodeOf e ≠ CodeReceiptTimeout) then None
            else Some (<["sent" := VBool true]> ∅)
  end.

(** 34 is the quotation mark. *)
Definition quote (s : string) : string := bytes_string [34] +:+ s +:+ bytes_string [34].

Definition expected_body : string :=
  "se esperaba {" +:+ quote FieldRawTx +:+ ": " +:+ quote "0x..." +:+ "}".

Definition not_hex_reason := "falta la transaccion firmada o no es hexadecimal".

Definition Relay : handler World := λ r s w,
  let ctx := WithMetaTxID (WithRequestID background (en_request en)) (en_metatx en) in
  match json_DecodeRelay (rq_Body r).1 with
  | Err e =>
      (Done, logged [Warn ctx "relay.bad_request" (ErrorFields (Some e))] s,
       writeError 400 expected_body "" None w)
  | Ok request =>
      let rawTx := transaction request in
      if negb (IsHexData rawTx) then
        (Done, logged [Warn ctx "relay.bad_request" (<["reason" := VStr not_hex_reason]> ∅)] s,
         writeError 400 (expected_body +:+ " (tambien se acepta " +:+ quote FieldAlias +:+ ")") "" None w)
      else
        let '(r, s) := RelayAndWait ctx rawTx s in
        match r with
        | None => (Waiting, s, w)
        | Some (Panics why) => (Panicked why, s, w)
        | Some (Returns (Err e)) =>
            (Done, logged [Warn ctx "relay.rejected" (ErrorFields (Some e))] s,
             writeError 400 (Error e) (CodeOf e) (detailsOf e) w)
        | Some (Returns (Ok result)) => (Done, s, writeJSON 200 (PRelay result) w)
        end
  end.

Definition InfoHandler : handler World := λ _ s w,
  (Done, s, writeJSON 200 (PInfo (Info.Info c (en_info en) (wd_rules s))) w).

Definition peekRequested (r : http_request) : bool :=
  let peek := rq_Query r "peek" in bool_decide (peek = "true") || bool_decide (peek = "1").

(** [value.Text(16)]. *)
Definition hexOf (z : option Z) : string :=
  "0x" +:+ match z with
           | Some n => if n <? 0 then "-" +:+ format_x (- n) else format_x n
           | None => "<nil>"
           end.

(** [extra] wins. *)
Definition merge (base extra : fields) : fields := extra ∪ base.

(** [String] and [Text] of a nil number. *)
Definition nil_text (f : Z → string) (z : option Z) : string :=
  match z with Some n => f n | None => "<nil>" end.

Definition nonce_response (st : NonceState) : nonceResponse :=
  {| nr_Address := address_Hex (ns_Address st);
     nr_Nonce := nil_text big_String (ns_OnChain st); nr_NonceHex := hexOf (ns_OnChain st);
     nr_NextNonce := nil_text big_String (ns_Next st); nr_NextNonceHex := hexOf (ns_Next st);
     nr_Pending := ns_Pending st |}.

Definition Nonce_ : handler World := λ r s w,
  let ctx := WithRequestID background (en_request en) in
  let addr := pathParam r "/nonce/" in
  if bool_decide (addr = "") then
    (Done, s, writeError 400 "se esperaba /nonce/{address}" "" None w)
  else if negb (IsHexAddress addr) then
    (Done, s, writeError 400 ("direccion invalida: " +:+ addr) "" None w)
  else
    let '(r, sv) := NonceOf c (en_now en) (en_later en) (en_node en) (en_node' en)
                      (HexToAddress addr) (peekRequested r) (wd_service s) in
    let s := with_service sv s in
    match r with
    | None => (Waiting, s, w)
    | Some (Panics why) => (Panicked why, s, w)
    | Some (Returns (Err e)) =>
        (Done, logged [Warn ctx "nonce.failed"
                        (merge (<["address" := VStr addr]> ∅) (ErrorFields (Some e)))] s,
         writeError 400 (Error e) "" None w)
    | Some (Returns (Ok st)) =>
        (Done, s, writeJSON 200 (PNonce (nonce_response st)) w)
    end.

End Controller.

(** ** Properties *)

Section Properties.
Context `{GoUnicode} `{Geth} `{EthLib} `{PkgErrors} `{GoFmt} `{HubLib} `{Json}.
Context (duration_String : Z → string) (c : Config) (logRaw : bool) (en : env).

(** The context under which a request relays. *)
Definition relay_context : context :=
  WithMetaTxID (WithRequestID background (en_request en)) (en_metatx en).

Definition rejected (e : error) : emission := Warn relay_context "relay.rejected" (ErrorFields (Some e)).

(** (C26) The two doors relay the same. A raw transaction in hexadecimal sent in a JSON-RPC
    message and in the body of [POST /relay] is prepared and sent in the same way, on the same
    state and with the same done by the others meanwhile: while it waits its turn both wait;
    when it is refused, at whichever point, both leave the service the same, with
    the same trace and the same [relay.rejected], and present the same error; and when it
    goes out, what the synchronous door does beyond the other is to close it, or to tell
    the client, with the code of its own for it, that it was sent. *)
Theorem doors_relay_the_same r r' msg rest request rawTx s w :
  json_DecodeMessage (rq_Body r).1 = Ok msg → (rq_Body r).2 = None → kind_of msg = RawTransaction →
  json_UnmarshalStrings (m_Params msg) = Ok (rawTx :: rest) →
  json_DecodeRelay (rq_Body r').1 = Ok request → transaction request = rawTx →
  IsHexData rawTx = true →
  let '(out, s') := prepare_and_send c logRaw en relay_context rawTx s in
  let '(e1, s1, w1) := SignTransaction c logRaw en r s w in
  let '(e2, s2, w2) := Relay duration_String c logRaw en r' s w in
  match out with
  | None => e1 = Waiting ∧ e2 = Waiting ∧ s1 = s' ∧ s2 = s'
  | Some (Panics why) => e1 = Panicked why ∧ e2 = Panicked why ∧ s1 = s' ∧ s2 = s'
  | Some (Returns (Err e)) =>
      e1 = Done ∧ e2 = Done ∧ s1 = logged [rejected e] s' ∧ s2 = s1 ∧
      w1 = Write (handleError (m_ID msg) e) (set_header "Content-Type" "application/json" w) ∧
      w2 = writeError 400 (Error e) (CodeOf e) (detailsOf e) w
  | Some (Returns (Ok (prepared, h))) =>
      (∀ data, json_Marshal (PMessage (Some (Response json_MarshalHash (empty_answer (m_ID msg)) h)))
                 = Ok data →
         e1 = Done ∧ s1 = s' ∧ w1 = Write data (set_header "Content-Type" "application/json" w)) ∧
      match waitForReceipt c duration_String (en_wait en) h (en_polls en) with
      | None => e2 = Waiting ∧ s2 = s'
      | Some (Err e) =>
          let timeout := Reject e CodeReceiptTimeout in
          e2 = Done ∧ s2 = logged [rejected timeout] s' ∧
          w2 = writeError 400 (Error e) CodeReceiptTimeout (Some (<["sent" := VBool true]> ∅)) w
      | Some (Ok receipt) =>
          let '(closed, sv, log) := decodeRelayResult c (en_later en) relay_context h prepared
                                      (Some receipt) (wd_service s') in
          s2 = logged log (with_service sv s') ∧
          match closed with
          | Returns result => e2 = Done ∧ w2 = writeJSON 200 (PRelay result) w
          | Panics why => e2 = Panicked why
          end
      end
  end.
Proof.
  intros Hmsg Hbody Hkind Hparams Hreq Htx Hhex.
  unfold SignTransaction, Relay, processRawTransaction, RelayAndWait.
  destruct (rq_Body r) as [buf err]. simpl in Hmsg, Hbody. subst err.
  rewrite Hmsg, Hkind, Hparams, Hreq, Htx, Hhex. fold relay_context. cbn [negb].
  destruct (prepare_and_send c logRaw en relay_context rawTx s) as [[[[[prepared h]|e]|why]|] s'];
    [|done..].
  destruct (json_Marshal _) as [data|e']; cbn [rejectMetaTx];
    (destruct (waitForReceipt c duration_String (en_wait en) h (en_polls en)) as [[receipt|e]|];
     [destruct (decodeRelayResult c (en_later en) relay_context h prepared (Some receipt) (wd_service s'))
        as [[[result|why] sv] log]| |]);
    (split; [by intros ? [= <-]|done]).
Qed.

(** What goes out does not depend on the transaction that is nil. *)
Lemma SendMetatransaction_ignores_tx tx tx' ctx id to gasLimit data v r s' sender nonce w :
  SendMetatransaction c en tx ctx id to gasLimit data v r s' sender nonce w =
  SendMetatransaction c en tx' ctx id to gasLimit data v r s' sender nonce w.
Proof. reflexivity. Qed.

(** The two copies of the decoded fields are the same. *)
Lemma decodedFields_copy tx from gasLimit now :
  decodedFields tx from gasLimit now = DecodedFields tx from gasLimit now.
Proof.
  unfold decodedFields, DecodedFields. set (m := DecodeGasModelSuffix (tx_Data tx)).
  assert (Decoded m = false → Selector m = "" ∧ ExpirationSeconds m = None) as Hno.
  { subst m. unfold DecodeGasModelSuffix. by destruct (length (tx_Data tx) <? gasModelSuffixBytes)%nat. }
  clearbody m. apply map_eq. intros k. destruct (Decoded m); [clear Hno|destruct (Hno eq_refl) as [-> ->]; rewrite (decide_True (P := "" = "")) by done]; cbn [negb].
  all: destruct (decide (k ∈ ["from"; "to"; "isDeploy"; "nonce"; "userGasLimit"; "metaTxGasLimit";
    "dataBytes"; "nodeAddress"; "expiration"; "expiresInSeconds"; "selector"])) as [Hin|Hout].
  all: try (destruct (ExpirationSeconds m)); try (destruct (decide (Selector m = "")) as [Hs|Hs];
    [rewrite (bool_decide_eq_true_2 _ Hs)|rewrite (bool_decide_eq_false_2 _ Hs)]; cbn [negb]).
  all: destruct (tx_To tx); cbn [v_opt];
    repeat match goal with |- context [<[_ := ?v]> _] => assert_fails (is_var v); generalize v; intro end.
  all: try (repeat (apply elem_of_cons in Hin as [->|Hin]; [vm_compute; reflexivity|]); by apply elem_of_nil in Hin).
  all: rewrite !not_elem_of_cons in Hout; destruct_and! Hout; by rewrite !lookup_insert_ne by congruence.
Qed.

(** A count asked for a block that is neither of the two known ones is answered with two
    JSON documents, the error and then the answer that there is not. *)
Theorem unknown_block_answers_twice msg from block rest s w data :
  json_UnmarshalStrings (m_Params msg) = Ok (from :: block :: rest) →
  to_upper block ≠ "PENDING" → to_upper block ≠ "LATEST" →
  json_Marshal (PMessage None) = Ok data →
  ∃ w', processTransactionCount c en msg s w = (Done, s, w') ∧
    rs_Body w' = rs_Body w ++
      handleError (m_ID msg)
        (plain_error "parameter not defined, only pending or latest are allowed") ++ data.
Proof.
  intros Hp Hpending Hlatest Hnull. unfold processTransactionCount, write_answer. rewrite Hp, Hnull.
  rewrite !bool_decide_eq_false_2 by done. eexists. split; [done|]. simpl. by rewrite app_assoc.
Qed.

(** A body that is not a JSON-RPC message gets an empty answer with the status of
    success, and the service does nothing but log it. *)
Theorem unreadable_body_answers_nothing r s e :
  json_DecodeMessage (rq_Body r).1 = Err e → (rq_Body r).2 = None →
  ∃ w', SignTransaction c logRaw en r s no_response =
          (Done, logged [Warn (WithRequestID background (en_request en)) "http.bad_body"
                           (ErrorFields (Some e))] s, w') ∧
        status_of w' = 200 ∧ rs_Body w' = [].
Proof.
  intros Hd Hb. unfold SignTransaction. destruct (rq_Body r) as [buf err]. simpl in *. subst err.
  rewrite Hd. by eexists.
Qed.

(** A parameter that is shorter than its prefix ends the request with a panic. *)
Theorem short_hash_panics msg p rest ctx s w :
  json_UnmarshalStrings (m_Params msg) = Ok (p :: rest) → (String.length p < 2)%nat →
  processGetTransactionReceipt c en ctx msg s w = (Panicked "slice bounds out of range", s, w) ∧
  processGetMetaTxResult c en ctx msg s w = (Panicked "slice bounds out of range", s, w).
Proof.
  intros Hp Hlen. unfold processGetTransactionReceipt, processGetMetaTxResult, drop2. rewrite Hp.
  simpl. apply Nat.ltb_lt in Hlen. by rewrite Hlen.
Qed.

(** Asking never sends. Whatever the request, [GET /info] leaves the world as it was,
    and [GET /nonce/] leaves the memory, the quota of gas and what is held as they were: a request
    that is not for an address does not even reach the queue. *)
Theorem asking_never_sends r s w :
  (InfoHandler c en r s w).1.2 = s ∧
  (let '(e, s', w') := Nonce_ c en r s w in
   asked (wd_service s) (wd_service s') ∧ wd_rules s' = wd_rules s ∧
   (pathParam r "/nonce/" = "" ∨ IsHexAddress (pathParam r "/nonce/") = false → s' = s) ∧
   (peekRequested r = true → e ≠ Waiting ∧ sv_queue (wd_service s') = sv_queue (wd_service s))).
Proof.
  split; [done|]. unfold Nonce_.
  destruct (bool_decide (pathParam r "/nonce/" = "")) eqn:He; [done|].
  apply bool_decide_eq_false in He.
  destruct (IsHexAddress (pathParam r "/nonce/")) eqn:Hhex; simpl; [|done].
  pose proof (NonceOf_asked c (en_now en) (en_later en) (en_node en) (en_node' en)
    (HexToAddress (pathParam r "/nonce/")) (peekRequested r) (wd_service s)) as [Hasked Hpeek].
  destruct (NonceOf _ _ _ _ _ _ _ _) as [res sv]. simpl in Hasked, Hpeek.
  destruct res as [[[st|e]|why]|]; refine (conj _ (conj _ (conj _ _))); try done;
    solve [intros [?|?]; done | intros Hp; destruct (Hpeek Hp); done].
Qed.
End Properties.

(** ** Witnesses *)

(** Texts with apostrophes for quotation marks. *)
Definition json (s : string) : bytes := (λ b, if b =? 39 then 34 else b) <$> string_bytes s.

Definition with_body (body : bytes) (r : http_request) : http_request := {|
  rq_Method := rq_Method r; rq_Path := rq_Path r; rq_RawQuery := rq_RawQuery r; rq_Header := rq_Header r; rq_Query := rq_Query r;
  rq_Body := (body, None) |}.

Definition rpc_request : http_request :=
  with_body (json "{'jsonrpc':'2.0', 'method':'eth_sendRawTransaction','params':['0x00'],'id':1} ")
    (sample_request "POST" "/" "").

Definition relay_request : http_request :=
  with_body (json "{'SignedTransaction': '0x00', 'rawTx': null}") (sample_request "POST" "/relay" "").

#[local] Existing Instances sample_unicode sample_geth sample_eth sample_errors sample_hub sample_fmt sample_json.

(** A node whose hub expects the nonce of the sample. *)
Definition door_node : Node := {|
  Dial := Dial sample_node; PendingNonceAt := PendingNonceAt sample_node;
  NonceAt := NonceAt sample_node; TransactionReceipt := TransactionReceipt sample_node;
  HeaderByNumber := HeaderByNumber sample_node; eth_ChainID := eth_ChainID sample_node;
  BalanceAt := BalanceAt sample_node; CodeAt := CodeAt sample_node;
  NewRelay := NewRelay sample_node; NewAccount := NewAccount sample_node;
  hub_RelayMetaTx := hub_RelayMetaTx sample_node; hub_DeployMetaTx := hub_DeployMetaTx sample_node;
  hub_IncreaseGasUsed := hub_IncreaseGasUsed sample_node;
  hub_GetNonce := λ _ _ _, Ok (Some 7);
  hub_GetGasLimit := hub_GetGasLimit sample_node;
  hub_GetMaxGasBlockLimit := hub_GetMaxGasBlockLimit sample_node;
  hub_GetNodeGasLimit := hub_GetNodeGasLimit sample_node;
  hub_GetCurrentGasLimit := hub_GetCurrentGasLimit sample_node;
  acc_AccountPermitted := acc_AccountPermitted sample_node;
  ingress_getContractAddress := ingress_getContractAddress sample_node;
|}.

Definition sample_env : env := {|
  en_request := "r1"; en_metatx := "m1"; en_prepare := sample_reading;
  en_now := 0; en_later := 0; en_node := sample_node; en_node' := sample_node;
  en_info := {| ir_connect := sample_node; ir_chain := sample_node; ir_balance := sample_node;
                ir_gas := sample_node; ir_permitted := sample_node |};
  en_goroutine := 0%nat; en_send := sample_send;
  en_steps := repeat (id, reading_at door_node door_node 7 []) 20;
  en_wait := sample_node; en_polls := [(sample_node, Deadline)];
  en_forward _ w := (Done, w);
|}.

Definition sample_world : World :=
  {| wd_shared := w_shared world0; wd_rules := sample_rules; wd_log := [] |}.

Definition in_words (_ : Z) : string := "1m0s".

(** It goes out by either door; the second waits for it and closes it. *)
Definition relayed (r : option (outcome (result error (PreparedMetaTx * hash))) * World) : bool :=
  match r with
  | (Some (Returns (Ok (p, h))), s') =>
      bool_decide (sent (wd_shared s') = [(0%nat, 7)]) &&
      is_ok (json_Marshal (PMessage (Some (Response json_MarshalHash (empty_answer (m_ID sample_call)) h)))) &&
      match waitForReceipt sample_config in_words (en_wait sample_env) h (en_polls sample_env) with
      | Some (Ok receipt) =>
          match decodeRelayResult sample_config 0 (relay_context sample_env) h p (Some receipt)
                  (wd_service s') with
          | (Returns _, _, [_]) => true
          | _ => false
          end
      | _ => false
      end
  | _ => false
  end.

Lemma doors_relay_the_same_witness :
  let '(e1, s1, _) := SignTransaction sample_config false sample_env
                        rpc_request sample_world no_response in
  let '(e2, s2, _) := Relay in_words sample_config false sample_env
                        relay_request sample_world no_response in
  e1 = Done ∧ e2 = Done ∧ sent (wd_shared s1) = [(0%nat, 7)] ∧ sent (wd_shared s2) = [(0%nat, 7)] ∧
  ∃ closing, wd_log s2 = wd_log s1 ++ [closing].
Proof.
  pose proof (doors_relay_the_same in_words sample_config false sample_env rpc_request relay_request
    sample_call [] ("", "0x00") "0x00" sample_world no_response) as Hsame.
  do 7 specialize (Hsame ltac:(vm_compute; reflexivity)).
  destruct (prepare_and_send sample_config false sample_env _ "0x00" sample_world) as [out s'] eqn:Hout.
  assert (Hok : relayed (out, s') = true) by (rewrite <-Hout; vm_compute; reflexivity).
  destruct (SignTransaction _ _ _ _ _ _) as [[e1 s1] w1].
  destruct (Relay _ _ _ _ _ _ _) as [[e2 s2] w2].
  destruct out as [[[[p h]|e]|]|]; [|discriminate Hok..]. unfold relayed in Hok.
  apply andb_true_iff in Hok as [[Hsent Htext]%andb_true_iff Hok]. apply bool_decide_eq_true in Hsent.
  destruct Hsame as [H1 H2]. destruct (json_Marshal _) as [text|]; [|discriminate Htext].
  destruct (H1 _ eq_refl) as (-> & -> & _).
  destruct (waitForReceipt _ _ _ _ _) as [[receipt|]|]; [|discriminate Hok..].
  destruct (decodeRelayResult _ _ _ _ _ _ _) as [[[result|] sv] [|closing []]];
    try discriminate Hok.
  destruct H2 as (-> & -> & _). split_and!; [done..|]. by exists closing.
Defined.
