(* ===== verification/Dashboard.v ===== *)
(** The live monitor, [dashboard/dashboard.go]: the page, and the stream of server-sent
    events that follows the bus. A stream is a machine of its own: the goroutine of
    the bus that hands it events, the channel between the two, and the loop that
    writes. *)

From S2P Require Import Prelude GoLib Config Errors Events AuditLog Client Permissioning Tracker Handout MetaTx Reorder Correlation Gas Service Revert Hub Settle Nonces Info Http.

Definition maxClients : nat := 8.
Definition retryHint : Z := 2000.

(** The capacity of the channel between the bus and the loop. *)
Definition streamBuffer : nat := 64.

(** [page] is embedded in the binary. *)
Definition Page (page : bytes) (w : response) : response :=
  Write page (set_header "Cache-Control" "no-store"
                (set_header "Content-Type" "text/html; charset=utf-8" w)).

(** Where the observer wants to go on from: what it asks for, or what its browser
    remembers; from the beginning when that is not a number. *)
Definition startingPoint (r : http_request) : Z :=
  let raw := if bool_decide (rq_Query r "after" = "") then rq_Header r "Last-Event-ID"
             else rq_Query r "after" in
  default 0 (parse_uint64 raw).

Definition newline_byte : Z := 10.

Section Stream.
(** [json.Marshal] of the line of an event. *)
Context (marshal : fields → result error bytes) (instanceID : string).

(** One event as the protocol writes it; nothing when it cannot be serialised. *)
Definition send (line : fields) (seq : Z) : bytes :=
  match marshal line with
  | Err _ => []
  | Ok encoded =>
      (if 0 <? seq then string_bytes ("id: " +:+ dec_string seq) ++ [newline_byte] else []) ++
      string_bytes "data: " ++ encoded ++ [newline_byte; newline_byte]
  end.

Definition hello : fields :=
  <["event" := VStr "dashboard.hello"]> (<["instanceId" := VStr instanceID]> ∅).

Definition retry_frame : bytes :=
  string_bytes ("retry: " +:+ dec_string retryHint) ++ [newline_byte; newline_byte].
Definition beat_frame : bytes := string_bytes ": hb" ++ [newline_byte; newline_byte].

(** What an open stream has: its subscription, its channel, what it has taken from it,
    oldest first, and what it has written. *)
Record stream := {
  st_id : Z;
  st_channel : list Event;
  st_sent : list Event;
  st_out : bytes;
}.

(** Too many: 34 is the quotation mark. *)
Definition too_many : bytes :=
  string_bytes "{" ++ [34] ++ string_bytes "error" ++ [34] ++ string_bytes ":" ++ [34] ++
  string_bytes ("el monitor ya tiene " +:+ dec_string (Z.of_nat maxClients) +:+ " flujos abiertos") ++
  [34] ++ string_bytes "}".

Definition no_flusher : bytes :=
  string_bytes "{" ++ [34] ++ string_bytes "error" ++ [34] ++ string_bytes ":" ++ [34] ++
  string_bytes "esta conexion no permite enviar eventos en vivo" ++ [34] ++ string_bytes "}".

Definition json_status (status : Z) (body : bytes) (w : response) : response :=
  Write body (WriteHeader status (set_header "Content-Type" "application/json" w)).

(** The check of the limit, which is one critical section of the bus. *)
Definition admitted (b : Bus) : bool := (SubscriberCount b <? maxClients)%nat.

Definition stream_headers (w : response) : response :=
  WriteHeader 200
    (set_header "X-Accel-Buffering" "no"
      (set_header "Connection" "keep-alive"
        (set_header "Cache-Control" "no-cache, no-transform"
          (set_header "Content-Type" "text/event-stream; charset=utf-8" w)))).

(** Subscribing, which is another, and the first frames. *)
Definition subscribe_stream (r : http_request) (b : Bus) : stream * Bus :=
  let '(retained, id, b) := ReplayAndSubscribe (startingPoint r) b in
  ({| st_id := id; st_channel := []; st_sent := retained;
      st_out := retry_frame ++ send hello 0 ++ concat ((λ e, send (Line e) (Seq e)) <$> retained) |}, b).

(** [Stream], with nothing between the check and the subscription. *)
Definition Stream (flusher : bool) (r : http_request) (b : Bus) (w : response) :
    option stream * Bus * response :=
  if negb (admitted b) then (None, b, json_status 503 too_many w)
  else if negb flusher then (None, b, json_status 500 no_flusher w)
  else
    let '(st, b) := subscribe_stream r b in
    (Some st, b, Write (st_out st) (stream_headers w)).

(** The observer's function: an event that does not fit is dropped for this one. *)
Definition notify (e : Event) (st : stream) : stream :=
  {| st_id := st_id st;
     st_channel := if (length (st_channel st) <? streamBuffer)%nat then st_channel st ++ [e]
                   else st_channel st;
     st_sent := st_sent st; st_out := st_out st |}.

Definition take_one (st : stream) : option stream :=
  match st_channel st with
  | [] => None
  | e :: rest =>
      Some {| st_id := st_id st; st_channel := rest; st_sent := st_sent st ++ [e];
              st_out := st_out st ++ send (Line e) (Seq e) |}
  end.

Definition beat (st : stream) : stream :=
  {| st_id := st_id st; st_channel := st_channel st; st_sent := st_sent st;
     st_out := st_out st ++ beat_frame |}.

(** The end of the request gives the place back. *)
Definition hang_up (st : stream) (b : Bus) : Bus := cancel (st_id st) b.

(** The event that the next publication makes. *)
Definition next_event (line : fields) (b : Bus) : Event :=
  let seq := u64 (sequence b + 1) in {| Seq := seq; Line := <["seq" := VInt seq]> line |}.

(** An open stream and the bus, with what was published since it opened and, of that,
    what was dropped: by the bus, when the channel of the subscription was full, or by
    the observer's function, when the channel of the stream was. *)
Record live := { lv_bus : Bus; lv_stream : stream; lv_published : list Event; lv_lost : list Event }.

Definition bus_has_room (l : live) : bool :=
  match channels (lv_bus l) !! st_id (lv_stream l) with
  | Some ch => (length (buffer ch) <? subscriberBuffer)%nat
  | None => false
  end.
Definition stream_has_room (l : live) : bool :=
  (length (st_channel (lv_stream l)) <? streamBuffer)%nat.

Inductive live_step : live → live → Prop :=
  | live_publish line l :
      let e := next_event line (lv_bus l) in
      live_step l {| lv_bus := Publish line (lv_bus l); lv_stream := lv_stream l;
                     lv_published := lv_published l ++ [e];
                     lv_lost := if bus_has_room l then lv_lost l else lv_lost l ++ [e] |}
  | live_deliver e b' l :
      deliver (st_id (lv_stream l)) (lv_bus l) = Some (e, b') →
      live_step l {| lv_bus := b'; lv_stream := notify e (lv_stream l);
                     lv_published := lv_published l;
                     lv_lost := if stream_has_room l then lv_lost l else lv_lost l ++ [e] |}
  | live_write st' l :
      take_one (lv_stream l) = Some st' →
      live_step l {| lv_bus := lv_bus l; lv_stream := st'; lv_published := lv_published l;
                     lv_lost := lv_lost l |}
  | live_beat l :
      live_step l {| lv_bus := lv_bus l; lv_stream := beat (lv_stream l);
                     lv_published := lv_published l; lv_lost := lv_lost l |}.

(** ** What an observer gets *)

(** On its way: in the loop's channel, then in the one of the bus. *)
Definition in_transit (l : live) : list Event :=
  st_channel (lv_stream l) ++
  match channels (lv_bus l) !! st_id (lv_stream l) with Some ch => buffer ch | None => [] end.

Record live_inv (retained0 : list Event) (l : live) : Prop := {
  li_enabled : enabled (lv_bus l) = true;
  li_subscribed : st_id (lv_stream l) ∈ subscribers (lv_bus l);
  li_channel : ∃ ch, channels (lv_bus l) !! st_id (lv_stream l) = Some ch;
  li_order : sublist (st_sent (lv_stream l) ++ in_transit l) (retained0 ++ lv_published l);
  li_lost : retained0 ++ lv_published l ≡ₚ (st_sent (lv_stream l) ++ in_transit l) ++ lv_lost l;
  li_all : lv_lost l = [] → st_sent (lv_stream l) ++ in_transit l = retained0 ++ lv_published l;
  li_few : (length (lv_published l) ≤ streamBuffer)%nat →
    lv_lost l = [] ∧ (length (in_transit l) ≤ length (lv_published l))%nat;
}.

(** A publication, seen from the stream. *)
Lemma publish_in_transit line l ch :
  enabled (lv_bus l) = true → st_id (lv_stream l) ∈ subscribers (lv_bus l) →
  channels (lv_bus l) !! st_id (lv_stream l) = Some ch →
  channels (Publish line (lv_bus l)) !! st_id (lv_stream l) =
    Some (offer (next_event line (lv_bus l)) ch) ∧
  st_channel (lv_stream l) ++ buffer (offer (next_event line (lv_bus l)) ch) =
    in_transit l ++ (if bus_has_room l then [next_event line (lv_bus l)] else []).
Proof.
  intros Hen Hsub Hch. split.
  - unfold Publish. rewrite Hen. simpl. rewrite map_lookup_imap, Hch. simpl.
    by rewrite decide_True.
  - unfold in_transit, bus_has_room. rewrite Hch. unfold offer.
    destruct (_ <? _)%nat; simpl; rewrite ?app_nil_r, ?app_assoc; done.
Qed.

Lemma publish_inv retained0 line l :
  live_inv retained0 l →
  live_inv retained0 {| lv_bus := Publish line (lv_bus l); lv_stream := lv_stream l;
    lv_published := lv_published l ++ [next_event line (lv_bus l)];
    lv_lost := if bus_has_room l then lv_lost l else lv_lost l ++ [next_event line (lv_bus l)] |}.
Proof.
  intros [Hen Hsub [ch Hch] Hord Hlost Hall Hfew].
  destruct (publish_in_transit line l ch Hen Hsub Hch) as [Hc Ht].
  destruct (Publish_frame line (lv_bus l)) as (He & _ & Hs & _).
  set (e := next_event line (lv_bus l)) in *.
  constructor; simpl; [congruence|congruence|eauto|..];
    unfold in_transit in *; simpl; rewrite ?Hc, ?Ht; fold (in_transit l) in *.
  - rewrite !app_assoc. apply sublist_app; [done|]. by destruct (bus_has_room l); [|apply sublist_nil_l].
  - rewrite app_assoc, Hlost. destruct (bus_has_room l); simpl.
    + rewrite <-!app_assoc. do 2 f_equiv. apply Permutation_app_comm.
    + by rewrite app_nil_r, <-!app_assoc.
  - destruct (bus_has_room l); [|by intros [_ ?]%app_eq_nil]. intros H. by rewrite !app_assoc, Hall.
  - rewrite length_app. simpl. intros Hlen. destruct Hfew as [H0 Hle]; [lia|].
    assert (bus_has_room l = true) as ->.
    { unfold bus_has_room, in_transit in *. rewrite Hch in *. rewrite length_app in Hle.
      apply Nat.ltb_lt. unfold subscriberBuffer, streamBuffer in *. lia. }
    rewrite length_app. simpl. split; [done|lia].
Qed.

Lemma deliver_inv retained0 e b' l :
  deliver (st_id (lv_stream l)) (lv_bus l) = Some (e, b') → live_inv retained0 l →
  live_inv retained0 {| lv_bus := b'; lv_stream := notify e (lv_stream l);
    lv_published := lv_published l;
    lv_lost := if stream_has_room l then lv_lost l else lv_lost l ++ [e] |}.
Proof.
  intros Hd [Hen Hsub [ch Hch] Hord Hlost Hall Hfew]. unfold in_transit in *. rewrite Hch in *.
  unfold deliver in Hd. rewrite Hch in Hd. simpl in Hd.
  destruct (buffer ch) as [|e' rest] eqn:Hb; [done|]. injection Hd as -> <-.
  constructor; simpl; try done.
  - rewrite lookup_insert_eq. eauto.
  - unfold in_transit. simpl. rewrite lookup_insert_eq. simpl. destruct (_ <? _)%nat.
    + by rewrite <-app_assoc.
    + etrans; [|exact Hord]. apply sublist_app; [done|]. apply sublist_app; [done|].
      by apply sublist_cons.
  - unfold in_transit, stream_has_room. simpl. rewrite lookup_insert_eq. simpl.
    rewrite Hlost. destruct (_ <? _)%nat; simpl; [by rewrite <-!app_assoc|].
    rewrite <-!app_assoc. do 2 f_equiv. simpl.
    rewrite (app_assoc rest). symmetry. rewrite Permutation_app_comm. done.
  - unfold in_transit, stream_has_room. simpl. rewrite lookup_insert_eq. simpl.
    destruct (_ <? _)%nat; [|by intros [_ ?]%app_eq_nil]. intros H. rewrite <-app_assoc. by apply Hall.
  - unfold in_transit, stream_has_room. simpl. rewrite lookup_insert_eq. simpl. intros Hlen.
    destruct (Hfew Hlen) as [H0 Hle]. rewrite length_app in Hle. simpl in Hle.
    unfold streamBuffer in *.
    destruct (Nat.ltb_spec (length (st_channel (lv_stream l))) 64); [|lia].
    split; [done|]. rewrite !length_app. simpl. lia.
Qed.

Lemma live_step_inv retained0 l l' :
  live_step l l' → live_inv retained0 l → live_inv retained0 l'.
Proof.
  intros Hstep Hinv.
  destruct Hstep as [line l|e b' l Hd|st' l Ht|l];
    [by apply publish_inv|by apply deliver_inv|..];
    destruct Hinv as [Hen Hsub [ch Hch] Hord Hlost Hall Hfew]; unfold in_transit in *;
    rewrite Hch in *.
  - unfold take_one in Ht. destruct (st_channel (lv_stream l)) as [|e rest] eqn:Hc; [done|].
    injection Ht as <-.
    constructor; simpl in *; try done; [eauto|..]; unfold in_transit; simpl; rewrite Hch;
      rewrite <-?(app_assoc (st_sent (lv_stream l))); simpl; try done.
    { by rewrite <-(app_assoc (st_sent (lv_stream l))) in Hlost. }
    intros Hlen. destruct (Hfew Hlen). split; [done|lia].
  - constructor; simpl in *; try done; [eauto|..]; unfold in_transit; simpl; by rewrite Hch.
Qed.

(** What was written is the two first frames, then a frame per event taken and, in
    between, beats. *)
Inductive written : list Event → bytes → Prop :=
  | written_open : written [] (retry_frame ++ send hello 0)
  | written_event es out e : written es out → written (es ++ [e]) (out ++ send (Line e) (Seq e))
  | written_beat es out : written es out → written es (out ++ beat_frame).

Lemma written_all es es' out :
  written es out → written (es ++ es') (out ++ concat ((λ e, send (Line e) (Seq e)) <$> es')).
Proof.
  revert es out. induction es' as [|e es' IH]; intros es out Hw; csimpl.
  - by rewrite !app_nil_r.
  - rewrite (app_assoc out), <-(app_assoc es [e] es') || rewrite (app_assoc out).
    replace (es ++ e :: es') with ((es ++ [e]) ++ es') by by rewrite <-app_assoc.
    apply IH. by apply written_event.
Qed.

Lemma live_step_written l l' :
  live_step l l' → written (st_sent (lv_stream l)) (st_out (lv_stream l)) →
  written (st_sent (lv_stream l')) (st_out (lv_stream l')).
Proof.
  intros Hstep Hw. destruct Hstep as [| |st' l Ht|]; simpl; try done.
  - unfold take_one in Ht. destruct (st_channel _); [done|]. injection Ht as <-. simpl.
    by apply written_event.
  - by apply written_beat.
Qed.

Lemma subscribe_inv r b :
  enabled b = true → let '(st, b') := subscribe_stream r b in
  live_inv (st_sent st) {| lv_bus := b'; lv_stream := st; lv_published := []; lv_lost := [] |} ∧
  written (st_sent st) (st_out st) ∧
  st_sent st = (if decide (startingPoint r = noReplay) then [] else replayLocked (startingPoint r) b).
Proof.
  intros Hen. unfold subscribe_stream, ReplayAndSubscribe. refine (conj _ (conj _ _)); [| |done].
  - constructor; simpl; [done|set_solver| | | | |].
    + rewrite lookup_insert_eq. eauto.
    + unfold in_transit. simpl. rewrite lookup_insert_eq. simpl. done.
    + unfold in_transit. simpl. rewrite lookup_insert_eq. simpl. by rewrite !app_nil_r.
    + unfold in_transit. simpl. rewrite lookup_insert_eq. done.
    + unfold in_transit. simpl. rewrite lookup_insert_eq. done.
  - cbn [st_sent st_out]. rewrite app_assoc. apply (written_all []). apply written_open.
Qed.

(** (C31) An observer sees the log in order. From where it asked to go on -- what it says, or
    what its browser remembers -- it is written the events that the bus retained and
    then the ones published since, each as one frame, in their order and at most once,
    with nothing else in between but beats. What is missing of them, neither written nor
    on its way, is exactly what was dropped: the publications that found the channel of
    the subscription full (256) and the deliveries that found the one of the stream full
    (64). So an observer that reads fast enough for that never to happen misses nothing,
    however much is published; and nothing can be dropped before 64 publications,
    however slowly it reads. *)
Theorem stream_in_order r b l :
  enabled b = true →
  let '(st, b') := subscribe_stream r b in
  rtc live_step {| lv_bus := b'; lv_stream := st; lv_published := []; lv_lost := [] |} l →
  let asked := if decide (startingPoint r = noReplay) then [] else Replay (startingPoint r) b in
  written (st_sent (lv_stream l)) (st_out (lv_stream l)) ∧
  st_sent (lv_stream l) ++ in_transit l `sublist_of` asked ++ lv_published l ∧
  asked ++ lv_published l ≡ₚ (st_sent (lv_stream l) ++ in_transit l) ++ lv_lost l ∧
  (lv_lost l = [] → st_sent (lv_stream l) ++ in_transit l = asked ++ lv_published l) ∧
  ((length (lv_published l) ≤ streamBuffer)%nat → lv_lost l = []).
Proof.
  intros Hen. pose proof (subscribe_inv r b Hen) as Hi.
  destruct (subscribe_stream r b) as [st b']. destruct Hi as (Hinv & Hw & Hs).
  intros Hsteps asked. subst asked. change Replay with replayLocked. rewrite <-Hs.
  assert (live_inv (st_sent st) l ∧ written (st_sent (lv_stream l)) (st_out (lv_stream l))) as [Hl Hwl].
  { apply (rtc_preserves live_step (λ l, live_inv (st_sent st) l ∧
      written (st_sent (lv_stream l)) (st_out (lv_stream l))) _ _) in Hsteps; [done| |by split].
    intros a a' Ha [? ?]. split; [by eapply live_step_inv | by eapply live_step_written]. }
  destruct Hl as [_ _ _ Hord Hlost Hall Hfew]. split_and!; try done. intros Hlen. by apply Hfew.
Qed.

(** The check of the limit and the subscription are two critical sections: two requests
    that come at the same time, with one place left, both pass. *)
Theorem limit_is_not_atomic r r' b :
  wf b → SubscriberCount b = (maxClients - 1)%nat →
  u64 (nextID b + 1) ∉ subscribers b → u64 (u64 (nextID b + 1) + 1) ∉ {[u64 (nextID b + 1)]} ∪ subscribers b →
  admitted b = true ∧
  SubscriberCount (subscribe_stream r' (subscribe_stream r b).2).2 = S maxClients.
Proof.
  intros Hwf Hcount Hn Hn'. split; [unfold admitted; by rewrite Hcount|].
  unfold subscribe_stream, ReplayAndSubscribe, SubscriberCount in *. simpl.
  rewrite size_union, size_singleton by set_solver. rewrite size_union, size_singleton by set_solver.
  rewrite Hcount. done.
Qed.

(** Alone, a request never makes them more than the limit, and hanging up gives the
    place back. *)
Lemma stream_within_limit flusher r b w st b' w' :
  Stream flusher r b w = (Some st, b', w') → u64 (nextID b + 1) ∉ subscribers b →
  (SubscriberCount b' ≤ maxClients)%nat ∧
  SubscriberCount (hang_up st b') = SubscriberCount b.
Proof.
  unfold Stream, admitted. destruct (Nat.ltb_spec (SubscriberCount b) maxClients); [|done].
  destruct flusher; [|done]. simpl. intros [= <- <- _] Hn.
  unfold hang_up, cancel, SubscriberCount in *. simpl.
  rewrite size_union, size_singleton by set_solver. split; [lia|].
  rewrite decide_True by set_solver. simpl. f_equal. set_solver.
Qed.
End Stream.

(** ** Witness *)

Definition sample_bus : Bus := Publish ∅ (Publish ∅ (New true 4)).
Definition sample_marshal (_ : fields) : result error bytes := Ok [123; 125].

Definition sample_open : stream * Bus :=
  subscribe_stream sample_marshal "i" (sample_request "GET" "/dashboard/stream" "") sample_bus.

(** One more event published, while the stream is open. *)
Definition sample_live : live :=
  {| lv_bus := Publish ∅ sample_open.2; lv_stream := sample_open.1;
     lv_published := [next_event ∅ sample_open.2]; lv_lost := [] |}.

Lemma stream_in_order_witness :
  st_sent (lv_stream sample_live) ++ in_transit sample_live =
    Replay 0 sample_bus ++ [next_event ∅ sample_open.2] ∧
  Seq <$> Replay 0 sample_bus = [1; 2].
Proof.
  split; [|vm_compute; reflexivity].
  pose proof (stream_in_order sample_marshal "i" (sample_request "GET" "/dashboard/stream" "")
    sample_bus sample_live eq_refl) as Horder.
  change (subscribe_stream _ _ _ _) with sample_open in Horder.
  rewrite (surjective_pairing sample_open) in Horder.
  destruct Horder as (_ & _ & _ & Hall & _); [|exact (Hall eq_refl)].
  apply rtc_once.
  apply (live_publish sample_marshal ∅
    {| lv_bus := sample_open.2; lv_stream := sample_open.1; lv_published := []; lv_lost := [] |}).
Defined.
