(* ===== verification/Startup.v ===== *)
(** Starting the service: the address of the RelayHub, asked to its proxy by
    [getRelayHubContractAddress] of [service/httpCall.go], and [Init] of
    [service/relaySignerService.go]. *)

From S2P Require Import Prelude GoLib JsonText JsonScan Codec Rpc Config Errors Events AuditLog Client Permissioning Tracker Handout MetaTx Reorder Correlation Gas Service Sha3.

(** What the request to the node meets: the errors of making it and of sending it, the
    body of the answer, what decoding makes of the data of an error in it, which nobody looks
    into, and what the ABI decoder reads in the result. *)
Class NodeCall := {
  http_NewRequest : string → option error;
  (** The answer to a body, at an address. *)
  http_Do : string → bytes → result error (result error bytes);
  error_data : bytes → option value;
  (** Unpacking one [address]. *)
  abi_UnpackAddress : bytes → result error address;
}.

(** The ABI: an address is one word, in its last twenty bytes; less than a word is not
    enough for it. *)
Class NodeCallLaws `{NodeCall} : Prop := {
  abi_word w : length w = 32%nat → abi_UnpackAddress w = Ok (drop 12 w);
  abi_short w : (length w < 32)%nat → ∃ e, abi_UnpackAddress w = Err e;
}.

Definition DATA_CALL_RELAYHUB := "0x7bdf2ec7".

Definition plain (msg : string) : error :=
  ForeignError {| f_text := msg; f_code := None; f_data := None |}.

(** 34 is the quotation mark. *)
Definition quoted (s : string) : string := bytes_string [34] +:+ s +:+ bytes_string [34].

Definition eth_call (id proxy : string) : bytes :=
  string_bytes
    ("{" +:+ quoted "jsonrpc" +:+ ":" +:+ quoted "2.0" +:+ "," +:+ quoted "method" +:+ ":" +:+
     quoted "eth_call" +:+ "," +:+ quoted "params" +:+ ":[{" +:+ quoted "to" +:+ ":" +:+ quoted proxy
     +:+ "," +:+ quoted "data" +:+ ":" +:+ quoted DATA_CALL_RELAYHUB +:+ "}," +:+ quoted "latest"
     +:+ "], " +:+ quoted "id" +:+ ":" +:+ quoted id +:+ "}").

Section Startup.
Context `{GoUnicode} `{NodeCall} `{Geth} `{EthLib} `{PkgErrors}.

(** From the text of the result to the address: [Hex2Bytes] drops its error. *)
Definition hub_of_result (resultHex : string) : result error address :=
  let resultHex := trim_prefix "0x" resultHex in
  if negb (String.length resultHex =? 64)%nat then
    Err (plain ("unexpected eth_call result length resolving the relayHub address: got " +:+
                dec_string (Z.of_nat (String.length resultHex)) +:+ " hex chars, want 64"))
  else abi_UnpackAddress (hex_decode resultHex).1.

Definition getRelayHubContractAddress (rpcURL id relayHubProxyAddress : string) :
    result error address :=
  match http_NewRequest rpcURL with
  | Some e => Err e
  | None =>
      response ← http_Do rpcURL (eth_call id relayHubProxyAddress);
      body ← response;
      rpcMessage ← decode_rpc_message error_data body;
      match m_Error rpcMessage with
      | Some e =>
          Err (plain ("node returned a json-rpc error resolving the relayHub address: " +:+ jsonError_Error e))
      | None =>
          match unmarshal_string (m_Result rpcMessage) with
          | Err e => Err (plain ("can't decode eth_call result as a hex string: " +:+ Error e))
          | Ok resultHex => hub_of_result resultHex
          end
      end
  end.

(** ** [Init] *)

Definition with_key (key : string) (hub : option address) (c : Config) : Config := {|
  Application := {|
    NodeURL := NodeURL (Application c); WSURL := WSURL (Application c);
    ContractAddress := ContractAddress (Application c); RelayHubContractAddress := hub;
    NodeKeyPath := NodeKeyPath (Application c); NodeAddressPath := NodeAddressPath (Application c);
    Key := key; Port := Port (Application c); NonceCacheTTL := NonceCacheTTL (Application c) |};
  KeyStore := KeyStore c; Passphrase := Passphrase c; Security := Security c; Reorder := Reorder c;
  Dashboard := Dashboard c; Config.Log := Config.Log c; CORS := CORS c; Validation := Validation c;
  Permissioning := Permissioning c |}.

(** [key[2:66]]. *)
Definition slice_key (key : string) : outcome string :=
  if (String.length key <? 66)%nat then Panics "slice bounds out of range"
  else Returns (bytes_string (take 64 (drop 2 (string_bytes key)))).

(** The variable of the environment, if there is one. *)
Definition Init (WRITER_KEY : option string) (c : Config) : outcome (result error Config) :=
  match WRITER_KEY with
  | None => Returns (Err (type_New FailedReadEnv "Environment variable WRITER_KEY not set" (-32602)))
  | Some key =>
      key ← slice_key key;
      match HexToECDSA key with
      | Err _ => Returns (Err (type_New FailedKeyConfig "Invalid ECDSA Key" (-32602)))
      | Ok _ =>
          if PermissionsEnabled (Security c)
             && negb (IsHexAddress (AccountContractAddress (Security c)))
             && negb (IsHexAddress (AccountIngressAddress (Permissioning c)))
          then Returns (Err (type_New InvalidAddress "Invalid Account Smart Contract Address" (-32608)))
          else
            match getRelayHubContractAddress (NodeURL (Application c)) "1000"
                    (ContractAddress (Application c)) with
            | Err _ => Returns (Err (type_New FailedKeyConfig
                         "Can't get relayHub smart contract address from Proxy" (-32610)))
            | Ok hub => Returns (Ok (with_key key (Some hub) c))
            end
      end
  end.

(** The service it leaves: nothing in flight, nothing remembered, nothing spent. *)
Definition initial_service : Service :=
  {| sv_tracker := empty_tracker; sv_queue := Queue.empty; sv_memory := ∅; sv_gas := 0 |}.
End Startup.

(** [isVersionFlag] of [version.go]. *)
Definition isVersionFlag (args : list string) : bool :=
  existsb (λ a, bool_decide (a ∈ ["--version"; "-version"; "-v"; "version"])) args.

(** ** Properties *)

(** Text that is not hexadecimal decodes to less than its length. *)
Lemma hex_decode_short s bs e :
  hex_decode s = (bs, Some e) → (2 * length bs < String.length s)%nat.
Proof.
  revert bs. induction s as [s IH] using (induction_ltof1 _ String.length). unfold ltof in IH.
  intros bs. destruct s as [|p [|q s]]; cbn -[Nat.mul].
  - done.
  - destruct (hex_value p); intros [= <- _]; simpl; lia.
  - destruct (hex_value p); [|intros [= <- _]; simpl; lia].
    destruct (hex_value q); [|intros [= <- _]; simpl; lia].
    specialize (IH s). destruct (hex_decode s) as [bs' e'].
    intros [= <- ->]. specialize (IH ltac:(cbn; lia) _ eq_refl). simpl in *. lia.
Qed.

Section Properties.
Context `{GoUnicode} `{NodeCallLaws} `{Geth} `{EthLib} `{PkgErrors}.

Lemma hub_of_result_ok text a :
  hub_of_result text = Ok a ↔
  ∃ word, hex_decode (trim_prefix "0x" text) = (word, None) ∧ length word = 32%nat ∧ a = drop 12 word.
Proof.
  unfold hub_of_result. split.
  - destruct (Nat.eqb_spec (String.length (trim_prefix "0x" text)) 64) as [Hlen|]; [|done]. simpl.
    destruct (hex_decode (trim_prefix "0x" text)) as [word [e|]] eqn:Hd; simpl.
    + apply hex_decode_short in Hd. destruct (abi_short word) as [e' ->]; [lia|done].
    + pose proof (hex_decode_length _ _ Hd). intros Ha. exists word.
      assert (length word = 32%nat) as Hw by lia. rewrite abi_word in Ha by done. naive_solver.
  - intros (word & Hd & Hw & ->). pose proof (hex_decode_length _ _ Hd) as Hlen.
    rewrite Hlen, Hw. simpl. rewrite Hd. by apply abi_word.
Qed.

(** The key of the writer is the 64 characters that follow the first two. *)
Definition key_within (text k : string) : Prop :=
  ∃ pre rest, string_bytes text = pre ++ string_bytes k ++ rest ∧
    length pre = 2%nat ∧ String.length k = 64%nat.

Lemma slice_key_within text k :
  key_within text k → slice_key text = Returns k.
Proof.
  intros (pre & rest & Ht & Hpre & Hk). unfold slice_key.
  assert (String.length text = length (string_bytes text)) as Hlen by (by rewrite length_string_bytes).
  rewrite Ht, !length_app, length_string_bytes in Hlen.
  destruct (Nat.ltb_spec (String.length text) 66); [lia|].
  rewrite Ht, drop_app_exact, take_app_exact by (rewrite ?length_string_bytes; lia).
  by rewrite bytes_string_bytes.
Qed.

Lemma slice_key_long text :
  (66 ≤ String.length text)%nat → ∃ k, key_within text k.
Proof.
  intros Hlen. set (bs := string_bytes text).
  assert (length bs = String.length text) as Hbs by apply length_string_bytes.
  assert (Hk : string_bytes (bytes_string (take 64 (drop 2 bs))) = take 64 (drop 2 bs)).
  { apply string_bytes_string, Forall_take, Forall_drop, string_bytes_ok. }
  exists (bytes_string (take 64 (drop 2 bs))), (take 2 bs), (drop 64 (drop 2 bs)).
  rewrite <-length_string_bytes, Hk, !take_drop, !length_take, length_drop.
  split_and!; [done|lia|lia].
Qed.

(** There is where to take the rules from, if they are to be checked. *)
Definition rules_configured (c : Config) : Prop :=
  PermissionsEnabled (Security c) = true →
  IsHexAddress (AccountContractAddress (Security c)) = true ∨
  IsHexAddress (AccountIngressAddress (Permissioning c)) = true.

(** The node answers the call to the proxy with a word, exactly, whose last twenty bytes
    are the hub. *)
Definition proxy_names (c : Config) (hub : address) : Prop :=
  http_NewRequest (NodeURL (Application c)) = None ∧
  ∃ body msg text word,
    http_Do (NodeURL (Application c)) (eth_call "1000" (ContractAddress (Application c)))
      = Ok (Ok body) ∧
    decode_rpc_message error_data body = Ok msg ∧ m_Error msg = None ∧
    unmarshal_string (m_Result msg) = Ok text ∧
    hex_decode (trim_prefix "0x" text) = (word, None) ∧ length word = 32%nat ∧
    hub = drop 12 word.

Lemma getRelayHub_ok c hub :
  getRelayHubContractAddress (NodeURL (Application c)) "1000" (ContractAddress (Application c))
    = Ok hub ↔ proxy_names c hub.
Proof.
  unfold getRelayHubContractAddress, proxy_names.
  assert (Hno : ∀ (P : Prop) (e : error), ¬ P → (Err e = Ok hub ↔ P)) by (by split).
  destruct (http_NewRequest _); [apply Hno; by intros [? _]|].
  destruct (http_Do _ _) as [[body|e]|e] eqn:Hdo; simpl.
  2,3: apply Hno; intros (_ & b & ? & ? & ? & ? & _); congruence.
  destruct (decode_rpc_message error_data body) as [msg|e] eqn:Hmsg; simpl.
  2: apply Hno; intros (_ & b & ? & ? & ? & ? & ? & _); congruence.
  destruct (m_Error msg) eqn:Herr; [apply Hno; intros (_ & b & ? & ? & ? & ? & ? & ? & _); congruence|].
  destruct (unmarshal_string (m_Result msg)) as [rtext|e] eqn:Hs; simpl.
  2: apply Hno; intros (_ & b & ? & ? & ? & ? & ? & ? & ? & _); congruence.
  rewrite hub_of_result_ok. split.
  - intros (word & ? & ? & ->). split; [done|]. by exists body, msg, rtext, word.
  - intros (_ & b & m & t & word & [= <-] & Hm & _ & Ht & ? & ? & ->).
    rewrite Hmsg in Hm. injection Hm as <-. rewrite Hs in Ht. injection Ht as <-. by exists word.
Qed.

(** (C33) The service starts with the RelayHub that the proxy named, or ends with the
    error of the first step that failed. In the order of [Init]: without the variable
    of the environment, the error is FailedReadEnv; with one shorter than a key it
    panics, and with no other; with a key that cannot be read, FailedKeyConfig, -32602;
    with the check of the rules on and neither a contract nor a registry configured,
    InvalidAddress; when the proxy names no hub -- the request cannot be made or
    answered, the answer is an error or is not one word of hexadecimal --,
    FailedKeyConfig, -32610; and when it names one, the configuration is left as it was
    but for that hub and the key. *)
Theorem starts_with_the_hub_of_the_proxy key c :
  (key = None →
     Init key c = Returns (Err (type_New FailedReadEnv "Environment variable WRITER_KEY not set" (-32602)))) ∧
  ((∃ why, Init key c = Panics why) ↔ ∃ text, key = Some text ∧ (String.length text < 66)%nat) ∧
  ∀ text, key = Some text → (66 ≤ String.length text)%nat →
    ∃ k, key_within text k ∧
      match HexToECDSA k with
      | Err _ => Init key c = Returns (Err (type_New FailedKeyConfig "Invalid ECDSA Key" (-32602)))
      | Ok _ =>
          (¬ rules_configured c →
             Init key c = Returns (Err
               (type_New InvalidAddress "Invalid Account Smart Contract Address" (-32608)))) ∧
          (rules_configured c → (∀ hub, ¬ proxy_names c hub) →
             Init key c = Returns (Err (type_New FailedKeyConfig
               "Can't get relayHub smart contract address from Proxy" (-32610)))) ∧
          ∀ hub, rules_configured c → proxy_names c hub →
            Init key c = Returns (Ok (with_key k (Some hub) c))
      end.
Proof.
  split; [by intros ->|split].
  - unfold Init. split.
    + intros [why Hp]. destruct key as [text|]; [|done]. exists text. split; [done|].
      unfold slice_key in Hp. destruct (Nat.ltb_spec (String.length text) 66); [done|].
      simpl in Hp. by repeat case_match.
    + intros (text & -> & Hlen). unfold slice_key.
      destruct (Nat.ltb_spec (String.length text) 66); [|lia]. simpl. eauto.
  - intros text -> Hlen. destruct (slice_key_long text Hlen) as [k Hk]. exists k. split; [done|].
    unfold Init. rewrite (slice_key_within text k Hk). simpl.
    destruct (HexToECDSA k) as [pk|e]; [|done]. pose proof (getRelayHub_ok c) as Hhub.
    unfold rules_configured. destruct (PermissionsEnabled (Security c)),
      (IsHexAddress (AccountContractAddress (Security c))),
      (IsHexAddress (AccountIngressAddress (Permissioning c))); simpl;
      (split_and!; [intros Hn; first [done | exfalso; apply Hn; by auto]
        | intros Hr Hno; try (by destruct Hr)
        | intros hub Hr Hn; try (by destruct Hr)]);
      try (by apply Hhub in Hn as ->);
      destruct (getRelayHubContractAddress _ _ _) as [hub|] eqn:Hg; try done;
      exfalso; by eapply Hno, Hhub.
Qed.
End Properties.

(** ** Witness: a node that answers with an address *)

Definition sample_word_text : string := "0x" +:+ hex_encode (replicate 12 0 ++ replicate 20 5).

Definition sample_answer : bytes :=
  string_bytes ("{" +:+ quoted "id" +:+ ":" +:+ quoted "1000" +:+ "," +:+ quoted "result" +:+ ": " +:+
                quoted sample_word_text +:+ "}").

Definition sample_call : NodeCall := {|
  http_NewRequest _ := None;
  http_Do _ _ := Ok (Ok sample_answer);
  error_data _ := None;
  abi_UnpackAddress w := if (length w =? 32)%nat then Ok (drop 12 w)
                         else Err (plain "abi: length insufficient");
|}.

Lemma sample_call_laws : @NodeCallLaws sample_call.
Proof.
  split.
  - intros w Hw. simpl. by rewrite Hw.
  - intros w Hw. simpl. destruct (Nat.eqb_spec (length w) 32); [lia|eauto].
Qed.

#[local] Existing Instances sample_unicode sample_geth sample_eth sample_errors sample_call sample_call_laws.

Definition sample_key : string := "0x" +:+ hex_encode (replicate 32 1).

Definition open_config : Config :=
  {| Application := Application sample_config; KeyStore := KeyStore sample_config;
     Passphrase := Passphrase sample_config;
     Security := {| PermissionsEnabled := false; AccountContractAddress := "" |};
     Reorder := Reorder sample_config; Dashboard := Dashboard sample_config;
     Config.Log := Config.Log sample_config; CORS := CORS sample_config;
     Validation := Validation sample_config; Permissioning := Permissioning sample_config |}.

Lemma starts_with_the_hub_of_the_proxy_witness :
  Init (Some sample_key) open_config =
    Returns (Ok (with_key (hex_encode (replicate 32 1)) (Some (replicate 20 5)) open_config)).
Proof.
  destruct (starts_with_the_hub_of_the_proxy (Some sample_key) open_config) as (_ & _ & Hstart).
  destruct (Hstart sample_key eq_refl) as (k & Hk & Hcase); [apply Nat.leb_le; reflexivity|].
  apply slice_key_within in Hk. replace (slice_key sample_key)
    with (Returns (hex_encode (replicate 32 1))) in Hk by (vm_compute; reflexivity).
  injection Hk as <-. destruct (HexToECDSA _) as [pk|e] eqn:Hkey; [|vm_compute in Hkey; discriminate].
  destruct Hcase as (_ & _ & Hnamed). apply Hnamed.
  - intros Hon. vm_compute in Hon. discriminate.
  - apply getRelayHub_ok. vm_compute. reflexivity.
Defined.
