(* ===== verification/Gateway.v ===== *)
(** The service as a whole: [main.go], from the start to the handler it listens with, and
    the requests that come in, served one after another, through [controller.Handler] of
    [controller/router.go] to the handlers of the two doors and of the monitor.

    Every such request is a run of the machine of [InFlight], that of the sends with the
    closings in it: what that machine keeps, the service keeps, whatever it is asked. *)

From S2P Require Import Prelude GoLib Config Errors Events AuditLog Client Permissioning Tracker Handout MetaTx Reorder UserLock Turn Correlation Gas Service Revert Hub Settle Sending InFlight Nonces Info Rpc Http Router Controller Dashboard Startup.

(** ** The server *)

(** What the process keeps: what the requests share, and the logger with the bus. *)
Record Server := { srv_world : World; srv_logger : Logger }.

Definition with_log (l : list emission) (s : World) : World :=
  {| wd_shared := wd_shared s; wd_rules := wd_rules s; wd_log := l |}.

(** A request, with what it reads from outside: the environment of the doors, the clock of
    each line it logs, and what its connection allows. *)
Record arrival := {
  av_request : http_request;
  av_env : env;
  av_stamps : nat → string;
  av_flusher : bool;
  av_deadline : option error;
}.

(** The server of [setupRoutes]: the times, counted from the reading of the request, after
    which a connection is cut. *)
Record http_server := {
  Addr : string;
  ReadHeaderTimeout : Z;
  ReadTimeout : Z;
  WriteTimeout : Z;
  IdleTimeout : Z;
}.

Definition setupRoutes_server (port : string) : http_server :=
  {| Addr := ":" +:+ port;
     ReadHeaderTimeout := duration 10 second;
     ReadTimeout := duration 15 second;
     WriteTimeout := duration 120 second;
     IdleTimeout := duration 60 second |}.

(** A synchronous relay with the wait by default is answered before the connection is cut; nothing
    keeps a configured wait below it. *)
Lemma default_wait_is_answered port :
  duration DefaultReorderReceiptTimeoutMs millisecond < WriteTimeout (setupRoutes_server port).
Proof. by vm_compute. Qed.

Section Gateway.
Context `{GoUnicode} `{GoFloat} `{Geth} `{EthLib} `{PkgErrors} `{GoFmt} `{HubLib} `{Json} `{NodeCall}.
(** [json.Marshal] of a line, as text and as bytes; [Duration.String]; the embedded page. *)
Context (marshal : fields → result error string) (marshal_bytes : fields → result error bytes).
Context (duration_String : Z → string) (page : bytes).

Fixpoint emit_all (stamps : nat → string) (n : nat) (l : list emission) (lg : Logger) : Logger :=
  match l with
  | [] => lg
  | em :: l => emit_all stamps (S n) l (emit marshal (stamps n) em lg)
  end.

Definition with_bus (b : Bus) (lg : Logger) : Logger :=
  {| configuredLevel := configuredLevel lg; logRawTx := logRawTx lg; instanceID := instanceID lg;
     bus := b; stdout := stdout lg; stderr := stderr lg |}.

Section Serve.
Context (c : Config) (a : arrival).

(** A handler of the doors; its lines go to the logger. *)
Definition served (h : bool → handler World) : handler Server := λ r s w,
  let '(e, wd, w) := h (logRawTx (srv_logger s)) r (with_log [] (srv_world s)) w in
  (e, {| srv_world := with_log [] wd;
         srv_logger := emit_all (av_stamps a) 0 (wd_log wd) (srv_logger s) |}, w).

Definition serve_page : handler Server := λ _ s w, (Done, s, Page page w).

(** A stream goes on after the handler has written the history: it has not ended. *)
Definition serve_stream : handler Server := λ r s w,
  let ctx := WithRequestID background (en_request (av_env a)) in
  let lg := srv_logger s in
  if negb (admitted (bus lg) && av_flusher a) then
    let '(_, _, w) := Stream marshal_bytes (instanceID lg) (av_flusher a) r (bus lg) w in (Done, s, w)
  else
    let lg := match av_deadline a with
              | Some e => emit marshal (av_stamps a 0%nat)
                            (Debug ctx "dashboard.stream_no_deadline" (<["error" := VStr (Error e)]> ∅)) lg
              | None => lg
              end in
    let '(st, b) := subscribe_stream marshal_bytes (instanceID lg) r (bus lg) in
    let lg := emit marshal (av_stamps a 1%nat)
                (Debug ctx "dashboard.stream_open"
                  (<["after" := VInt (startingPoint r)]>
                   (<["clients" := VInt (Z.of_nat (SubscriberCount b))]> ∅))) (with_bus b lg) in
    (Waiting, {| srv_world := srv_world s; srv_logger := lg |},
     Write (st_out st) (stream_headers w)).

Definition serve : Server → ending * Server * response := λ s,
  Handler (served (λ logRaw, SignTransaction c logRaw (av_env a)))
          (served (λ _, InfoHandler c (av_env a)))
          (served (λ logRaw, Relay duration_String c logRaw (av_env a)))
          (served (λ _, Nonce_ c (av_env a)))
          serve_page serve_stream (Some c) (av_request a) s no_response.
End Serve.

(** The requests, one after another. [net/http] serves them concurrently: what the sends
    and the closings of several goroutines do to each other is in the machines of [Sending]
    and [InFlight], of which each request served here is a run. *)
Fixpoint serve_all (c : Config) (l : list arrival) (s : Server) : list (ending * response) * Server :=
  match l with
  | [] => ([], s)
  | a :: l =>
      let '(e, s, w) := serve c a s in
      let '(answers, s) := serve_all c l s in ((e, w) :: answers, s)
  end.

(** ** The start *)

(** What the configuration file gives: the blocks read whole, and the keys. *)
Definition getConfigFromFile (file : Config) (v : viper) : Config :=
  let '(reorder, dashboard, log, cors, _) := LoadRuntimeBlocks v in
  let '(validation, permissioning, _) := LoadValidationBlocks v in
  {| Application := Application file; KeyStore := KeyStore file; Passphrase := Passphrase file;
     Security := Security file; Reorder := reorder; Dashboard := dashboard; Config.Log := log;
     CORS := cors; Validation := validation; Permissioning := permissioning |}.

Inductive run :=
  | PrintedVersion
  | Exited
  | Fatally (e : error)
  | Crashed (why : string)
  | Serving (c : Config) (s : Server).

(** A logger before it is configured: level [info]. *)
Definition fresh_logger (id : string) (b : Bus) : Logger :=
  {| configuredLevel := severity LevelInfo; logRawTx := false; instanceID := id; bus := b;
     stdout := []; stderr := [] |}.

(** [file] is [None] when the file cannot be read. *)
Definition main (args : list string) (file : option (Config * viper)) (WRITER_KEY : option string)
    (id : string) (node : Node) (now later : Z) (stamps : nat → string) : run :=
  if isVersionFlag args then PrintedVersion
  else
    match file with
    | None => Exited
    | Some (file, v) =>
        let c := getConfigFromFile file v in
        let b := New (dashboard_Enabled (Dashboard c)) (BufferSize (Dashboard c)) in
        let lg := InitStructured (Config.Level (Config.Log c)) (Config.RawTx (Config.Log c)) (fresh_logger id b) in
        match Init WRITER_KEY c with
        | Panics why => Crashed why
        | Returns (Err e) => Fatally e
        | Returns (Ok c) =>
            let '(rules, log) :=
              ResolveAccountRules (Some c) node now later background
                {| rules := None; nodePermitted := None |} in
            Serving c
              {| srv_world := {| wd_shared := {| sh_service := initial_service; sh_locks := no_locks;
                                                 sh_relay := None; sent := [] |};
                                 wd_rules := rules; wd_log := [] |};
                 srv_logger := emit_all stamps 0 log lg |}
        end
    end.
End Gateway.

(** ** What a request does to what the sends share *)

Section Steps.
Context `{GoUnicode} `{Geth} `{EthLib} `{PkgErrors} `{HubLib} (c : Config).

Abbreviation cfg := (Some c).

(** What a request that does not send does to the service, piece by piece, and what the
    others do meanwhile: queries, timers and rejections of the hub, an entry of the memory that is
    looked at, and a closing. *)
Inductive beside : Service → Service → Prop :=
  | by_tracker t q gas s :
      meanwhile c (sv_tracker s) t →
      beside s {| sv_tracker := t; sv_queue := q; sv_memory := sv_memory s; sv_gas := gas |}
  | by_recall now ctx h s : beside s (with_memory (recallMetaTx now ctx h (sv_memory s)).2 s)
  | by_closing now ctx h bn gu o s : beside s (settle c now ctx h bn gu o s).1.

Definition quiet (s s' : Service) : Prop := rtc beside s s'.

#[global] Instance quiet_preorder : PreOrder quiet.
Proof. split; [intros s; apply rtc_refl|intros s1 s2 s3; apply rtc_trans]. Qed.

Definition at_rest (l : life) : Prop := ∀ g x, lf_closers l !! g = Some x → cl_pc x = Closed.

(** A run of the machine that ends with this service, and nobody half way through a closing. *)
Definition leads (l : life) (s : Service) : Prop :=
  ∃ l', rtc (life_step c) l l' ∧ lf_world l' = set_service s (lf_world l) ∧ at_rest l'.

Lemma set_service_same l : set_service (lf_service l) (lf_world l) = lf_world l.
Proof. unfold lf_service, set_service. by destruct (lf_world l) as [[] ?]. Qed.

Lemma closing_leads now h x g s l l1 :
  rtc (alone c now h) x (Closed, s) → lf_closers l1 !! g = Some {| cl_hash := h; cl_pc := x.1 |} →
  lf_world l1 = set_service x.2 (lf_world l) → (∀ k y, k ≠ g → lf_closers l1 !! k = Some y → cl_pc y = Closed) →
  ∃ l', rtc (life_step c) l1 l' ∧ lf_world l' = set_service s (lf_world l) ∧ at_rest l'.
Proof.
  intros Hr. remember (Closed, s) as y eqn:Hy. revert l1. induction Hr as [|x y z Hxy _ IH]; intros l1 Hg Hw Hrest.
  - subst x. simpl in *. exists l1. split; [done|]. split; [done|]. intros k y Hk.
    destruct (decide (k = g)) as [->|Hne]; [by simplify_eq|by eapply Hrest].
  - destruct y as [pc s1]. unfold alone in Hxy.
    assert (Hs : lf_service l1 = x.2) by (unfold lf_service; by rewrite Hw).
    rewrite <-Hs in Hxy. pose proof (l_close c now g _ pc s1 l1 Hg Hxy) as Hstep.
    match type of Hstep with life_step _ _ ?l2 => destruct (IH Hy l2) as (l' & Hr' & Hw' & Hrest') end;
      [..|exists l'; split; [eapply rtc_l; [exact Hstep|exact Hr']|done]].
    + simpl. apply lookup_insert_eq.
    + simpl. by rewrite Hw.
    + simpl. intros k y Hne. rewrite lookup_insert_ne by done. by apply Hrest.
Qed.

Lemma settle_leads now ctx h bn gu o l : at_rest l → leads l (settle c now ctx h bn gu o (lf_service l)).1.
Proof.
  intros Hrest. set (g := fresh (dom (lf_closers l))).
  assert (lf_closers l !! g = None) as Hg by (apply not_elem_of_dom, is_fresh).
  pose proof (l_closer c g h [] (o_hubRejected o) l Hg) as Hstep.
  match type of Hstep with life_step _ _ ?l1 =>
    destruct (closing_leads now h (Reading [] (o_hubRejected o), lf_service l) g
      (settle c now ctx h bn gu o (lf_service l)).1 l l1) as (l' & Hr & Hw & Hrest') end.
  - etransitivity; [apply reading_alone|]. simpl.
    replace (Service.with_tracker _ _) with (lf_service l) by by destruct (lf_service l).
    pose proof (closing_alone c now h (o_hubRejected o) (lf_service l)) as Hc.
    unfold settle. destruct (claimSettled _ _) as [[] m]; exact Hc.
  - simpl. apply lookup_insert_eq.
  - simpl. by rewrite set_service_same.
  - simpl. intros k y Hne. rewrite lookup_insert_ne by done. by apply Hrest.
  - exists l'. split; [by eapply rtc_l|done].
Qed.

Lemma beside_leads l s : beside (lf_service l) s → at_rest l → leads l s.
Proof.
  intros Hb Hrest. remember (lf_service l) as s0 eqn:Hs0.
  destruct Hb as [t q gas s0 Ht|now ctx h s0|now ctx h bn gu o s0]; subst s0.
  - eexists. split; [apply rtc_once, (l_meanwhile c t q gas l Ht)|done].
  - eexists. split; [apply rtc_once, (l_recall c now ctx h l)|done].
  - by apply settle_leads.
Qed.

Lemma quiet_leads l s : quiet (lf_service l) s → at_rest l → leads l s.
Proof.
  intros Hq. remember (lf_service l) as s0 eqn:Hs0. revert l Hs0.
  induction Hq as [s|s0 s1 s Hb _ IH]; intros l ->; intros Hrest.
  - exists l. split; [done|]. by rewrite set_service_same.
  - destruct (beside_leads l s1 Hb Hrest) as (l1 & Hr1 & Hw1 & Hrest1).
    destruct (IH l1) as (l' & Hr & Hw & Hrest'); [unfold lf_service; by rewrite Hw1|done|].
    exists l'. split; [by etransitivity|]. split; [|done]. by rewrite Hw, Hw1.
Qed.

Lemma quiet_tracker s t : rtc (meanwhile c) (sv_tracker s) t → quiet s (Service.with_tracker t s).
Proof.
  remember (sv_tracker s) as t0 eqn:Ht0. intros Hr. revert s Ht0.
  induction Hr as [t|t0 t1 t Hm _ IH]; intros s ->.
  - replace (Service.with_tracker _ s) with s by by destruct s. apply rtc_refl.
  - eapply rtc_l; [apply (by_tracker t1 (sv_queue s) (sv_gas s) s Hm)|].
    apply (IH {| sv_tracker := t1; sv_queue := sv_queue s; sv_memory := sv_memory s; sv_gas := sv_gas s |} eq_refl).
Qed.

Lemma quiet_queue q s : quiet s (Nonces.with_queue q s).
Proof. apply rtc_once, (by_tracker (sv_tracker s) q (sv_gas s) s), mw_same. Qed.

(** *** Asking for a nonce *)

Lemma expected_quiet now node from s : quiet s (expected c now node from s).2.
Proof.
  unfold expected, expectedNonce. pose proof (mw_cached c now from (sv_tracker s)) as Hc.
  destruct (cachedNonce cfg now from (sv_tracker s)) as [[n|] t]; by apply quiet_tracker, rtc_once.
Qed.

Lemma handout_quiet now node from peek s : quiet s (HandOutNonce c now node from peek s).2.
Proof.
  unfold HandOutNonce. destruct (negb _ || peek).
  - pose proof (expected_quiet now node from s) as Hq. by destruct (expected _ _ _ _ _).
  - destruct (Queue.enqueue _ _) as [[previous mine] q].
    destruct (match previous with None => true | Some p => bool_decide (p ∈ Queue.closed q) end);
      [|apply quiet_queue].
    unfold answer_ticket. pose proof (expected_quiet now node from (Nonces.with_queue q s)) as Hq.
    destruct (expected _ _ _ _ _) as [[n|e] s'];
      (etransitivity; [apply quiet_queue|etransitivity; [exact Hq|apply quiet_queue]]).
Qed.

Lemma count_quiet now node id from pending s :
  quiet s (GetTransactionCount c now node id from pending s).2.
Proof.
  unfold GetTransactionCount. destruct pending; [|apply rtc_refl].
  pose proof (handout_quiet now node from false s) as Hq.
  destruct (HandOutNonce _ _ _ _ _ _) as [[[n|e]|] s']; exact Hq.
Qed.

Lemma nonce_quiet now later node node' addr peek s :
  quiet s (NonceOf c now later node node' addr peek s).2.
Proof.
  unfold NonceOf. destruct (on_chain _ _ _); [|apply rtc_refl].
  pose proof (handout_quiet now node' (address_Hex addr) peek s) as Hq.
  destruct (HandOutNonce _ _ _ _ _ _) as [[handed|] s']; [|exact Hq].
  destruct (nonce_state _ _ _); [|exact Hq]. destruct (reorderEnabled _); [|exact Hq].
  unfold inflightOf. pose proof (mw_inflight c later (senderKey (address_Hex addr)) (sv_tracker s')) as Hi.
  destruct (inflightLocked _ _ _ _) as [n t]. etransitivity; [exact Hq|]. by apply quiet_tracker, rtc_once.
Qed.

(** *** Reading a receipt, and closing *)

Lemma scan_quiet {A} (step : hub_event → Client.Log → A → Tracker → outcome A * Tracker * list emission)
    logs a f t :
  (∀ e lg a t, rtc (meanwhile c) t (step e lg a t).1.2) →
  rtc (meanwhile c) t (scan step logs a f t).1.2.
Proof.
  intros Hstep. revert a f t. induction logs as [|lg logs IH]; intros a f t; simpl; [apply rtc_refl|].
  destruct (event_of lg) as [e|]; [|apply IH].
  pose proof (Hstep e lg a t) as Hs. destruct (step e lg a t) as [[[a'|why] t1] log1]; [|exact Hs].
  pose proof (IH a' (see e f) t1) as Hl. destruct (scan step logs a' (see e f) t1) as [[r t2] log2].
  by transitivity t1.
Qed.

Lemma rejected_quiet ctx id lg t : rtc (meanwhile c) t (rejected_by_hub ctx id lg t).1.2.
Proof. unfold rejected_by_hub. destruct (badTransactionErrorCode _). apply rtc_once, mw_forget. Qed.

(** An event of any reader moves the tracker only if the hub rejected. *)
Ltac quiet_event :=
  match goal with
  | |- context [rejected_by_hub ?ctx ?id ?lg ?t] =>
      let Hq := fresh in
      pose proof (rejected_quiet ctx id lg t) as Hq;
      destruct (rejected_by_hub ctx id lg t) as [[? ?] ?]; exact Hq
  | _ => repeat case_match; apply rtc_refl
  end.

Lemma read_event_quiet ctx h e lg o t : rtc (meanwhile c) t (read_event ctx h e lg o t).1.2.
Proof. destruct e; simpl; quiet_event. Qed.

Lemma result_event_quiet ctx id e lg m t : rtc (meanwhile c) t (result_event ctx id e lg m t).1.2.
Proof. destruct e; simpl; quiet_event. Qed.

Lemma receipt_event_quiet ctx id e lg v t : rtc (meanwhile c) t (receipt_event ctx id e lg v t).1.2.
Proof. destruct e; simpl; quiet_event. Qed.

Lemma readHubEvents_quiet ctx h rc t : rtc (meanwhile c) t (readHubEvents ctx h rc t).1.2.
Proof.
  destruct rc as [rc|]; simpl; [|apply rtc_refl].
  pose proof (scan_quiet _ (rc_Logs rc) no_outcome nothing_seen t (read_event_quiet ctx h)) as Hq.
  by destruct (scan _ _ _ _ _) as [[r t'] log].
Qed.

Lemma metaTxResultOf_quiet ctx id rc t : rtc (meanwhile c) t (metaTxResultOf ctx id rc t).1.2.
Proof.
  destruct rc as [rc|]; simpl; [|apply rtc_refl].
  pose proof (scan_quiet _ (rc_Logs rc) (mined id true) nothing_seen t (result_event_quiet ctx id)) as Hq.
  by destruct (scan _ _ _ _ _) as [[r t'] log].
Qed.

Lemma receiptViewOf_quiet ctx id rc t : rtc (meanwhile c) t (receiptViewOf ctx id rc t).1.2.
Proof.
  unfold receiptViewOf.
  pose proof (scan_quiet _ (rc_Logs rc) {| rv_receipt := rc; rv_reverted := None |} nothing_seen t
    (receipt_event_quiet ctx id)) as Hq.
  by destruct (scan _ _ _ _ _) as [[r t'] log].
Qed.

Lemma settle_quiet now ctx h bn gu o s : quiet s (settle c now ctx h bn gu o s).1.
Proof.
  apply rtc_once, by_closing.
Qed.

Lemma decode_quiet now ctx h prepared rc s :
  quiet s (decodeRelayResult c now ctx h prepared (Some rc) s).1.2.
Proof.
  unfold decodeRelayResult. pose proof (readHubEvents_quiet ctx h (Some rc) (sv_tracker s)) as Hr.
  apply quiet_tracker in Hr.
  destruct (readHubEvents _ _ _ _) as [[[o|why] t] log]; [|exact Hr].
  pose proof (settle_quiet now ctx h (u64 <$> rc_BlockNumber rc) (dec_string (rc_GasUsed rc)) o
    (Service.with_tracker t s)) as Hs.
  destruct (settle _ _ _ _ _ _ _ _) as [s' log']. unfold quiet in *. by etransitivity.
Qed.

(** *** Sending *)

(** From [s] to [s'] by steps of the goroutine [g], which arrives, and of the rest of the
    service. *)
Definition moves (g : nat) (s s' : shared) : Prop :=
  ∀ l, w_shared (lf_world l) = s → lf_gs l !! g = None → at_rest l →
    ∃ l', rtc (life_step c) l l' ∧ w_shared (lf_world l') = s' ∧ at_rest l' ∧
      ∀ h, h ≠ g → lf_gs l' !! h = lf_gs l !! h.

(** What the others do between two steps of a request: results, queries and timers. *)
Definition others_quiet (f : shared → shared) : Prop :=
  ∀ s, ∃ sv, f s = Sending.with_service sv s ∧ quiet (sh_service s) sv.

Lemma with_service_same s : Sending.with_service (sh_service s) s = s.
Proof. by destruct s. Qed.

Lemma moves_refl g s : moves g s s.
Proof. intros l <- _ Hrest. by exists l. Qed.

Lemma moves_quiet g s s' sv :
  moves g s s' → quiet (sh_service s') sv → moves g s (Sending.with_service sv s').
Proof.
  intros Hm Hq l Hl Hg Hrest. destruct (Hm l Hl Hg Hrest) as (l1 & Hr & <- & Hrest1 & Hgs).
  destruct (quiet_leads l1 sv Hq Hrest1) as (l2 & Hr2 & Hw2 & Hrest2).
  exists l2. split; [by etransitivity|]. rewrite Hw2. split; [done|]. split; [done|].
  unfold lf_gs at 1. rewrite Hw2. exact Hgs.
Qed.

Lemma quiet_service g s sv : quiet (sh_service s) sv → moves g s (Sending.with_service sv s).
Proof. intros Hq. apply moves_quiet; [apply moves_refl|done]. Qed.

Lemma run_send_moves g ctx prepared inputs pc l :
  Forall (λ x, others_quiet x.1) inputs → at_rest l →
  lf_gs l !! g = Some {| g_ctx := ctx; g_prepared := prepared; g_pc := pc |} →
  ∃ l', rtc (life_step c) l l' ∧
    w_shared (lf_world l') = (run_send c g ctx prepared inputs pc (w_shared (lf_world l))).1.2 ∧
    at_rest l' ∧ ∀ h, h ≠ g → lf_gs l' !! h = lf_gs l !! h.
Proof.
  intros Hq. revert pc l. induction Hq as [|[others i] inputs Ho _ IH]; intros pc l Hrest Hg.
  - exists l. split; [done|]. split; [by destruct pc|done].
  - destruct (finished pc) eqn:Hfin.
    { exists l. split; [done|]. split; [by destruct pc|done]. }
    destruct (Ho (w_shared (lf_world l))) as (sv & Heq & Hsv). simpl in Heq.
    destruct (quiet_leads l sv Hsv Hrest) as (l1 & Hr1 & Hw1 & Hrest1).
    assert (Hsh1 : w_shared (lf_world l1) = others (w_shared (lf_world l))) by (by rewrite Hw1, Heq).
    assert (Hgs1 : lf_gs l1 = lf_gs l) by (unfold lf_gs; by rewrite Hw1).
    assert (Hrun : run_send c g ctx prepared ((others, i) :: inputs) pc (w_shared (lf_world l)) =
      match send_step c g ctx prepared i pc (w_shared (lf_world l1)) with
      | None => run_send c g ctx prepared inputs pc (w_shared (lf_world l1))
      | Some (pc, w, log) =>
          let '(r, w, log') := run_send c g ctx prepared inputs pc w in (r, w, log ++ log')
      end) by (rewrite Hsh1; by destruct pc).
    rewrite Hrun. clear Hrun Heq Hsh1. rewrite <-Hgs1 in Hg.
    destruct (send_step c g ctx prepared i pc (w_shared (lf_world l1))) as [[[pc1 sh] log]|] eqn:Hs.
    + pose proof (l_run c g _ i pc1 sh log l1 Hg Hs) as Hstep.
      match type of Hstep with life_step _ _ ?l2 =>
        destruct (IH pc1 l2) as (l' & Hr & Hsh & Hrest' & Hgs) end; [exact Hrest1|apply lookup_insert_eq|].
      exists l'. split; [etransitivity; [exact Hr1|]; by eapply rtc_l|]. split; [|split; [done|]].
      * rewrite Hsh. simpl. by destruct (run_send c g ctx prepared inputs pc1 sh) as [[r w3] log3].
      * intros h Hh. rewrite Hgs by done. unfold lf_gs at 1. simpl. by rewrite lookup_insert_ne, Hgs1.
    + destruct (IH pc l1 Hrest1 Hg) as (l' & Hr & Hsh & Hrest' & Hgs). exists l'.
      split; [by etransitivity|]. split; [done|]. split; [done|]. by rewrite <-Hgs1.
Qed.

Lemma send_moves g rd inputs ctx prepared s :
  reorderEnabled cfg = true → nonce_u64 prepared → senderKey (SenderKey prepared) ≠ "" →
  Forall (λ x, others_quiet x.1) inputs →
  moves g s (ReserveGasAndSend c g rd inputs ctx prepared s).1.2.
Proof.
  intros Hon Hn Hk Hq l <- Hg Hrest. unfold ReserveGasAndSend. rewrite Hon.
  pose proof (l_arrive c g ctx prepared l Hg Hn Hk) as Hstep.
  match type of Hstep with life_step _ _ ?l1 =>
    destruct (run_send_moves g ctx prepared inputs AtDoor l1 Hq) as (l' & Hr & Hsh & Hrest' & Hgs) end;
    [exact Hrest|apply lookup_insert_eq|].
  exists l'. split; [eapply rtc_l; [exact Hstep|exact Hr]|]. split; [exact Hsh|]. split; [done|].
  intros h Hh. rewrite Hgs by done. unfold lf_gs at 1. simpl. by rewrite lookup_insert_ne.
Qed.
End Steps.

(** ** Every handler is a run of the machine *)

Section Handlers.
Context `{GoUnicode} `{Geth} `{EthLib} `{PkgErrors} `{GoFmt} `{HubLib} `{Json}.
Context (duration_String : Z → string) (c : Config) (en : env).

Abbreviation cfg := (Some c).
Abbreviation g := (en_goroutine en).

(** The nonce of a transaction that was decoded is a [uint64], which is its type. *)
Definition nonces_u64 : Prop := ∀ bs, 0 ≤ tx_Nonce (rlp_DecodeTransaction bs).1 < 2 ^ 64.

(** The text of an address is in hexadecimal, so it is ASCII and not empty. *)
Definition addresses_named : Prop := ∀ a, is_ascii (address_Hex a) = true ∧ address_Hex a ≠ "".

Definition undisturbed : Prop := Forall (λ x, others_quiet c x.1) (en_steps en).

Definition runs_machine (h : handler World) : Prop :=
  ∀ r s w, moves c g (wd_shared s) (wd_shared (h r s w).1.2).

Context (Hon : reorderEnabled cfg = true) (Hcount : nonces_u64) (Hnamed : addresses_named)
  (Hothers : undisturbed).

Lemma prepared_u64 rd ctx logRaw rawTx st p st' log :
  PrepareMetaTx c rd ctx logRaw rawTx st = (Ok p, st', log) →
  nonce_u64 p ∧ senderKey (SenderKey p) ≠ "".
Proof.
  unfold PrepareMetaTx, GetTransaction. destruct (hex_decode _) as [raw [e|]]; [done|].
  pose proof (Hcount raw) as Hn. set (tx := (rlp_DecodeTransaction raw).1) in *.
  destruct (tx_V tx), (tx_R tx), (tx_S tx); try done. destruct (decide _); [done|].
  destruct (AsMessage _ _); [|done]. unfold prepare_checked.
  intros Hp. assert (nonce_u64 p ∧ ∃ a, SenderKey p = address_Hex a) as [Hc [sender Ha]]
    by (repeat (case_match; simplify_eq/=); (split; [exact Hn|by eexists])).
  split; [exact Hc|]. rewrite Ha. destruct (Hnamed sender) as [Hascii Hne]. unfold senderKey, to_lower. rewrite Hascii.
  by destruct (address_Hex sender).
Qed.

Lemma prepare_and_send_moves logRaw ctx rawTx s :
  moves c g (wd_shared s) (wd_shared (prepare_and_send c logRaw en ctx rawTx s).2).
Proof.
  unfold prepare_and_send.
  destruct (PrepareMetaTx _ _ _ _ _ _) as [[[p|e] rules] log] eqn:Hp; [|apply moves_refl].
  apply prepared_u64 in Hp as [Hn Hk].
  pose proof (send_moves c g (en_send en) (en_steps en) ctx p (wd_shared s) Hon Hn Hk Hothers) as Hm.
  change (wd_shared (logged log (with_rules rules s))) with (wd_shared s).
  by destruct (ReserveGasAndSend _ _ _ _ _ _ _) as [[r sh] log'].
Qed.

Lemma recalled_quiet ctx id s : quiet c s (recalled en ctx id s).2.
Proof.
  unfold recalled. pose proof (by_recall c (en_now en) ctx (HexToHash id) s) as Hb.
  destruct (recallMetaTx _ _ _ _). by apply rtc_once.
Qed.

Lemma GetMetaTxResult_moves ctx id tid s :
  moves c g (wd_shared s) (wd_shared (GetMetaTxResult c en ctx id tid s).2).
Proof.
  unfold GetMetaTxResult. pose proof (recalled_quiet ctx tid (wd_service s)) as Hq.
  destruct (recalled _ _ _ _) as [ctx' sv]. simpl in Hq.
  assert (Hm : moves c g (wd_shared s) (Sending.with_service sv (wd_shared s))) by by apply quiet_service.
  destruct (Connect _ _); [|exact Hm]. destruct (Client.GetTransactionReceipt _ _) as [rc|]; [|exact Hm].
  pose proof (metaTxResultOf_quiet c ctx' tid (Some rc) (sv_tracker sv)) as Hr.
  destruct (metaTxResultOf _ _ _ _) as [[r t] log].
  apply (moves_quiet c g _ _ (Service.with_tracker t sv) Hm), quiet_tracker, Hr.
Qed.

Lemma GetTransactionReceipt_moves ctx id tid s :
  moves c g (wd_shared s) (wd_shared (Controller.GetTransactionReceipt c en ctx id tid s).2).
Proof.
  unfold Controller.GetTransactionReceipt. pose proof (recalled_quiet ctx tid (wd_service s)) as Hq.
  destruct (recalled _ _ _ _) as [ctx' sv]. simpl in Hq.
  assert (Hm : moves c g (wd_shared s) (Sending.with_service sv (wd_shared s))) by by apply quiet_service.
  destruct (Connect _ _); [|exact Hm]. destruct (Client.GetTransactionReceipt _ _) as [rc|]; [|exact Hm].
  pose proof (receiptViewOf_quiet c ctx' tid rc (sv_tracker sv)) as Hr.
  destruct (receiptViewOf _ _ _ _) as [[r t] log].
  apply (moves_quiet c g _ _ (Service.with_tracker t sv) Hm), quiet_tracker, Hr.
Qed.

Lemma process_world id w (x : outcome JsonrpcMessage * World) : (process id w x).1.2 = x.2.
Proof. by destruct x as [[?|?] ?]. Qed.

Lemma process_count_moves msg from pending s w :
  moves c g (wd_shared s) (wd_shared (process_count c en msg from pending s w).1.2).
Proof.
  unfold process_count.
  pose proof (count_quiet c (en_now en) (en_node en) (m_ID msg) from pending (wd_service s)) as Hq.
  destruct (GetTransactionCount _ _ _ _ _ _ _) as [[r|] sv]; [rewrite process_world|];
    by apply quiet_service.
Qed.

Lemma processRawTransaction_moves logRaw ctx msg s w :
  moves c g (wd_shared s) (wd_shared (processRawTransaction c logRaw en ctx msg s w).1.2).
Proof.
  unfold processRawTransaction.
  destruct (json_UnmarshalStrings _) as [[|rawTx rest]|]; try apply moves_refl.
  pose proof (prepare_and_send_moves logRaw (WithMetaTxID ctx (en_metatx en)) rawTx s) as Hm.
  destruct (prepare_and_send _ _ _ _ _ _) as [[[[[p h]|e]|why]|] s']; try exact Hm.
  by destruct (json_Marshal _).
Qed.

Lemma SignTransaction_runs logRaw : runs_machine (SignTransaction c logRaw en).
Proof.
  intros r s w. unfold SignTransaction. destruct (rq_Body r) as [buf err].
  set (s1 := match err with Some e => _ | None => s end).
  assert (Hs1 : wd_shared s1 = wd_shared s) by (by subst s1; destruct err).
  rewrite <-Hs1. clearbody s1. destruct (json_DecodeMessage buf) as [msg|]; [|apply moves_refl].
  destruct (kind_of msg).
  - unfold forward. destruct (en_forward _ _ _). apply moves_refl.
  - destruct (DecreaseGasUsed _ _); [|apply moves_refl].
    unfold forward. destruct (en_forward _ _ _). apply moves_refl.
  - apply processRawTransaction_moves.
  - unfold processGetTransactionReceipt. destruct (json_UnmarshalStrings _); [|apply moves_refl].
    destruct (param0 _ ≫= drop2); [|apply moves_refl]. rewrite process_world.
    apply GetTransactionReceipt_moves.
  - unfold processTransactionCount.
    destruct (json_UnmarshalStrings _) as [[|from [|block rest]]|]; try apply moves_refl;
      [apply process_count_moves|].
    repeat case_bool_decide; try apply process_count_moves. apply moves_refl.
  - unfold processGetMetaTxResult. destruct (json_UnmarshalStrings _) as [[|p rest]|]; try apply moves_refl.
    destruct (drop2 p); [|apply moves_refl]. rewrite process_world. apply GetMetaTxResult_moves.
  - apply moves_refl.
Qed.

Lemma Relay_runs logRaw : runs_machine (Relay duration_String c logRaw en).
Proof.
  intros r s w. unfold Relay. destruct (json_DecodeRelay _) as [request|]; [|apply moves_refl].
  destruct (negb (IsHexData _)); [apply moves_refl|]. unfold RelayAndWait.
  set (ctx := WithMetaTxID _ _).
  pose proof (prepare_and_send_moves logRaw ctx (transaction request) s) as Hm.
  destruct (prepare_and_send _ _ _ _ _ _) as [[[[[p h]|e]|why]|] s']; try exact Hm.
  destruct (waitForReceipt _ _ _ _ _) as [[rc|e]|]; try exact Hm.
  pose proof (decode_quiet c (en_later en) ctx h p rc (wd_service s')) as Hq.
  destruct (decodeRelayResult _ _ _ _ _ _ _) as [[[result|why] sv] log];
    exact (moves_quiet c g _ _ sv Hm Hq).
Qed.

Lemma Nonce_runs : runs_machine (Nonce_ c en).
Proof.
  intros r s w. unfold Nonce_. case_bool_decide; [apply moves_refl|].
  destruct (negb (IsHexAddress _)); [apply moves_refl|].
  pose proof (nonce_quiet c (en_now en) (en_later en) (en_node en) (en_node' en)
    (HexToAddress (pathParam r "/nonce/")) (peekRequested r) (wd_service s)) as Hq.
  destruct (NonceOf _ _ _ _ _ _ _ _) as [[[[st|e]|why]|] sv]; by apply quiet_service.
Qed.

Lemma Info_runs : runs_machine (InfoHandler c en).
Proof. intros r s w. apply moves_refl. Qed.
End Handlers.

(** ** Whatever the route, one of the handlers, or none *)

Lemma subtree_match_in {A} (m : list (string * A)) path e : subtree_match m path = Some e → e ∈ m.
Proof.
  revert e. induction m as [|x m IH]; intros e; simpl; [done|].
  destruct (has_suffix "/" x.1 && has_prefix x.1 path); [|intros He; right; by apply IH].
  destruct (subtree_match m path) as [e'|]; [|intros [= <-]; left].
  intros [= <-]. unfold longer. destruct (_ <? _)%nat; [right; by apply IH|left].
Qed.

Lemma find_route_in {A} (m : list (string * A)) path h :
  find_route m path = Handle h → ∃ p, (p, h) ∈ m.
Proof.
  assert (Hsub : ∀ h, match subtree_match m path with Some (_, h) => Handle h | None => NotFound end
                      = Handle h → ∃ p, (p, h) ∈ m).
  { intros h'. destruct (subtree_match m path) as [[p h'']|] eqn:Hs; [|done].
    intros [= <-]. exists p. by eapply subtree_match_in. }
  unfold find_route. destruct (list_find _ m) as [[i [p h']]|] eqn:Hf.
  - intros [= <-]. exists p. apply list_find_Some in Hf as (Hl & _). by eapply list_elem_of_lookup_2.
  - clear Hf. destruct (list_find _ m) as [?|]; [|apply Hsub]. destruct (has_suffix "/" path); [apply Hsub|done].
Qed.

Lemma findHandler_in {A} (m : list (string * A)) method path h :
  findHandler m method path = Handle h → ∃ p, (p, h) ∈ m.
Proof.
  unfold findHandler. case_bool_decide; [apply find_route_in|].
  destruct (find_route m (cleanPath path)) as [h'|to|] eqn:Hr; [|done|].
  - case_bool_decide; [|done]. intros [= <-]. by eapply find_route_in.
  - by case_bool_decide.
Qed.

Section Dispatch.
Context {S : Type} `{GoUnicode}.
Context (h1 h2 h3 h4 h5 h6 : handler S) (cfg : option Config) (r : http_request) (P : S → S → Prop).

Lemma Handler_preserves :
  (∀ s, P s s) →
  (∀ h, h ∈ [h1; h2; h3; h4; h5; h6] → ∀ s w, P s (h r s w).1.2) →
  ∀ s w, P s (Handler h1 h2 h3 h4 h5 h6 cfg r s w).1.2.
Proof.
  intros Hrefl Hh.
  assert (Honly : ∀ m h, h ∈ [h1; h2; h3; h4; h5; h6] → ∀ s w, P s (onlyMethod m h r s w).1.2).
  { intros m h Hin s w. unfold onlyMethod. case_bool_decide; [apply Hrefl|by apply Hh]. }
  assert (Hserve : ∀ s w, P s (ServeHTTP (Routes h1 h2 h3 h4 h5 h6 cfg) r s w).1.2).
  { intros s w. unfold ServeHTTP.
    destruct (findHandler _ _ _) as [h|to|] eqn:Hf; [|apply Hrefl..].
    apply findHandler_in in Hf as [p Hp]. unfold Routes in Hp.
    apply elem_of_app in Hp as [Hp|Hp].
    - repeat (apply elem_of_cons in Hp as [[= -> ->]|Hp]); [apply Hh|apply Honly..|]; set_solver.
    - destruct (match cfg with Some c => _ | None => _ end); [|set_solver].
      repeat (apply elem_of_cons in Hp as [[= -> ->]|Hp]); [apply Honly..|]; set_solver. }
  intros s w. unfold Handler, withCORS. case_bool_decide; [apply Hserve|].
  case_bool_decide; [apply Hrefl|apply Hserve].
Qed.
End Dispatch.

(** ** Properties *)

Section Properties.
Context `{GoUnicode} `{GoFloat} `{Geth} `{EthLib} `{PkgErrors} `{GoFmt} `{HubLib} `{Json} `{NodeCall}.
Context (marshal : fields → result error string) (marshal_bytes : fields → result error bytes).
Context (duration_String : Z → string) (page : bytes).

Abbreviation serve := (serve marshal marshal_bytes duration_String page).
Abbreviation serve_all := (serve_all marshal marshal_bytes duration_String page).
Abbreviation shared_of s := (wd_shared (srv_world s)).
Abbreviation goroutine_of a := (en_goroutine (av_env a)).

Lemma served_moves c a h :
  (∀ logRaw, runs_machine c (av_env a) (h logRaw)) →
  ∀ r s w, moves c (goroutine_of a) (shared_of s) (shared_of (served marshal a h r s w).1.2).
Proof.
  intros Hh r s w. unfold served.
  pose proof (Hh (logRawTx (srv_logger s)) r (with_log [] (srv_world s)) w) as Hm.
  by destruct (h _ _ _ _) as [[e wd] w'].
Qed.

Lemma serve_moves c a s :
  reorderEnabled (Some c) = true → nonces_u64 → addresses_named → undisturbed c (av_env a) →
  moves c (goroutine_of a) (shared_of s) (shared_of (serve c a s).1.2).
Proof.
  intros Hon Hn Ha Ho. unfold Gateway.serve.
  apply (Handler_preserves _ _ _ _ _ _ _ _
    (λ s s', moves c (goroutine_of a) (shared_of s) (shared_of s'))); [intros; apply moves_refl|].
  intros h Hh s' w. repeat (apply elem_of_cons in Hh as [->|Hh]); [..|set_solver].
  - apply served_moves. intros. by apply SignTransaction_runs.
  - apply served_moves. intros. apply Info_runs.
  - apply served_moves. intros. by apply Relay_runs.
  - apply served_moves. intros. apply Nonce_runs.
  - apply moves_refl.
  - unfold serve_stream. destruct (negb _).
    + destruct (Stream _ _ _ _ _ _) as [[? ?] ?]. apply moves_refl.
    + destruct (subscribe_stream _ _ _ _). apply moves_refl.
Qed.

Lemma serve_all_moves c arrivals s l :
  reorderEnabled (Some c) = true → nonces_u64 → addresses_named →
  NoDup ((λ a, goroutine_of a) <$> arrivals) → Forall (λ a, undisturbed c (av_env a)) arrivals →
  w_shared (lf_world l) = shared_of s → at_rest l → (∀ a, a ∈ arrivals → lf_gs l !! goroutine_of a = None) →
  ∃ l', rtc (life_step c) l l' ∧ w_shared (lf_world l') = shared_of (serve_all c arrivals s).2 ∧ at_rest l'.
Proof.
  intros Hon Hn Hnames. revert s l. induction arrivals as [|a arrivals IH]; intros s l Hnd Hu Hl Hrest Hgs.
  { by exists l. }
  apply NoDup_cons in Hnd as [Ha Hnd]. apply Forall_cons in Hu as [Hua Hu].
  destruct (serve_moves c a s Hon Hn Hnames Hua l Hl) as (l1 & Hr & Hl1 & Hrest1 & Hsame);
    [apply Hgs; set_solver|done|].
  simpl. destruct (serve c a s) as [[e s1] w'] eqn:Hserve. simpl in Hl1.
  destruct (IH s1 l1 Hnd Hu Hl1 Hrest1) as (l2 & Hr2 & Hl2 & Hrest2).
  { intros a' Ha'. rewrite Hsame; [apply Hgs; set_solver|].
    intros Heq. apply Ha. rewrite <-Heq. by apply (list_elem_of_fmap_2 (λ a, goroutine_of a)). }
  exists l2. split; [by etrans|]. by destruct (serve_all c arrivals s1).
Qed.

(** (C2) The service is the machine. Take a service that started with the reordering on, and
    any list of requests, by whatever route and method, that it serves one after another,
    each on a goroutine of its own, while between the steps of a send only results come
    back, metatx are closed, timers run out and questions are answered -- no other send
    goes on: those are interleaved in [Sending] and [InFlight]. The nonce decoded from a
    raw transaction is a [uint64], as its type says, and the text of an address is ASCII
    and not empty. Then what the service holds is a state that the machine of the sends and
    the closings reaches from its beginning: the tracker is well formed, the metatx sent on
    each chain carry consecutive nonces, and the one expected next is the one that follows
    the last; and, when nobody is sending, no user has fewer in flight than he has metatx
    that are not closed, so the quota of a user is never passed by a place given back
    twice. *)
Theorem requests_run_the_machine args file key id node now later stamps c s0 arrivals :
  main marshal args file key id node now later stamps = Serving c s0 →
  reorderEnabled (Some c) = true → nonces_u64 → addresses_named →
  NoDup ((λ a, goroutine_of a) <$> arrivals) → Forall (λ a, undisturbed c (av_env a)) arrivals →
  let s := (serve_all c arrivals s0).2 in
  let t := sv_tracker (wd_service (srv_world s)) in
  (∃ l, rtc (life_step c) life0 l ∧ w_shared (lf_world l) = shared_of s) ∧ tracker_wf t ∧
  (∀ p, consecutive (nonces_on p (sent (shared_of s)))) ∧
  (∀ k p, Chains.senders (chs t) !! k = Some p →
     (∃ a, last (nonces_on p (sent (shared_of s))) = Some a ∧
        follows a (Chains.next (Chains.at_ (chs t) p))) ∧
     (sh_relay (shared_of s) = None →
      Z.of_nat (open_on p (sv_memory (wd_service (srv_world s)))) ≤ Chains.pending (Chains.at_ (chs t) p))).
Proof.
  intros Hmain Hon Hn Ha Hnd Hu.
  assert (Hs0 : shared_of s0 = w_shared world0).
  { unfold main in Hmain. destruct (isVersionFlag args); [done|]. destruct file as [[f v]|]; [|done].
    destruct (Init _ _) as [[c'|e]|why]; [|done..].
    destruct (ResolveAccountRules _ _ _ _ _ _). by injection Hmain as <- <-. }
  destruct (serve_all_moves c arrivals s0 life0 Hon Hn Ha Hnd Hu) as (l & Hr & Hl & Hrest);
    [done|intros g x; simpl; by rewrite lookup_empty|done|].
  destruct (life_reachable c l Hr) as [Hw Hlife]. destruct (world_reachable c _ Hw) as [Hinv _].
  simpl. unfold wd_service. rewrite <-Hl. split; [by exists l|].
  split; [apply Hinv|]. split; [apply Hinv|]. intros k p Hp. split; [exact (wi_next _ Hinv k p Hp)|].
  intros Hfree. pose proof (account_at_rest c l k p Hw Hlife Hp Hfree Hrest) as Hacc.
  unfold lf_tracker, lf_memory, lf_service in Hacc. rewrite Hacc. lia.
Qed.
End Properties.

(** ** Witness: the start, a metatx by the REST door and a question *)

#[local] Existing Instances sample_unicode sample_float sample_geth sample_eth sample_errors sample_fmt sample_hub sample_json sample_call.

Definition reordering : viper := {|
  IsSet key := bool_decide (key = "reorder.enabled");
  Get _ := RawBool true |}.

Definition asking (g : nat) (method path : string) : arrival := {|
  av_request := with_body (json "{'rawTx':'0x00'}") (sample_request method path "");
  av_env := {|
    en_request := "r1"; en_metatx := "m1"; en_prepare := sample_reading;
    en_now := 0; en_later := 0; en_node := sample_node; en_node' := sample_node;
    en_info := en_info sample_env;
    en_goroutine := g; en_send := sample_send;
    en_steps := repeat (id, reading_at door_node door_node 7 []) 20;
    en_wait := sample_node; en_polls := [(sample_node, Deadline)];
    en_forward _ w := (Done, w) |};
  av_stamps _ := ""; av_flusher := true; av_deadline := None |}.

Definition started : run :=
  main (λ _, Ok "") [] (Some (open_config, reordering)) (Some sample_key) "i" sample_node 0 0 (λ _, "").

Definition text_of (_ : fields) : result error bytes := Ok [].

Definition day : list arrival := [asking 0 "POST" "/relay"; asking 1 "GET" "/info"].

(** The service starts with the reordering on, and the metatx goes out. *)
Definition relayed_one (x : run) : bool :=
  match x with
  | Serving c s =>
      reorderEnabled (Some c) &&
      bool_decide (sent (wd_shared (srv_world
        (serve_all (λ _, Ok "") text_of in_words [] c day s).2)) = [(0%nat, 7)])
  | _ => false
  end.

Lemma hex_digit_ascii d : (byte_of_ascii (hex_digit d) <? 128) = true.
Proof. unfold hex_digit. by repeat case_match. Qed.

Lemma sample_addresses_named : addresses_named.
Proof.
  intros a. split; [|done]. induction a as [|b a IH]; [done|].
  unfold is_ascii in *. cbn [address_Hex sample_geth hex_encode] in *. simpl in *.
  by rewrite !hex_digit_ascii.
Qed.

Lemma requests_run_the_machine_witness :
  ∃ c s0 l, started = Serving c s0 ∧ rtc (life_step c) life0 l ∧
    w_shared (lf_world l) = wd_shared (srv_world (serve_all (λ _, Ok "") text_of in_words [] c day s0).2) ∧
    sent (w_shared (lf_world l)) = [(0%nat, 7)].
Proof.
  assert (Hone : relayed_one started = true) by (vm_compute; reflexivity).
  destruct started as [| | | |c s0] eqn:Hstart; [discriminate Hone..|].
  apply andb_true_iff in Hone as [Hon Hsent]. apply bool_decide_eq_true in Hsent.
  destruct (requests_run_the_machine (λ _, Ok "") text_of in_words [] [] (Some (open_config, reordering))
    (Some sample_key) "i" sample_node 0 0 (λ _, "") c s0 day Hstart Hon) as ((l & Hr & Hl) & _).
  - intros bs. simpl. lia.
  - apply sample_addresses_named.
  - repeat constructor; clear; set_solver.
  - repeat constructor; intros s; exists (sh_service s);
      (split; [by destruct s|apply rtc_refl]).
  - exists c, s0, l. split; [done|]. split; [exact Hr|]. split; [exact Hl|]. by rewrite Hl.
Defined.
